(* ===== verification/_CoqProject ===== *)
-Q . S2P
Prelude.v
Types.v
Net.v
Utils.v
Versions.v
Defaults.v
Config.v
Regexp.v
Role.v
Provider.v
InstancePool.v
Cluster.v
ClusterSpec.v
Firewall.v
Puppet.v
Environment.v
Tagging.v
Ssh.v
Hosts.v
Wing.v
Controller.v
Convergence.v
Terraform.v
Paths.v
FileTree.v
Templating.v
Plugins.v
Cli.v
SshKey.v
Ec2Tag.v
Calls.v
AwsProvider.v
MachineTags.v
AgentStart.v
Manifests.v
Logs.v
Sessions.v
Bastion.v
Tunnel.v
Process.v
RemoteState.v
Input.v
Init.v
Images.v
ImageBuild.v
PackerBuild.v
AwsSession.v
Dns.v
Commands.v
Vault.v
VaultTunnels.v
Rpc.v
RpcSocket.v
Kubectl.v
Passthrough.v
