(* ===== verification/Prelude.v ===== *)
(** * Verification of tarmak

    tarmak provisions Kubernetes clusters on AWS from a declarative
    configuration.  A configuration file holds providers, environments and
    clusters; commands load it, complete it with defaults, build an
    environment with its clusters and instance pools, validate and verify
    them, and derive from them the input of the tools that do the work:
    Terraform variables and security group rules, Puppet hiera data, image
    IDs.  Commands then run Terraform behind a check of its plan and keep its
    state in AWS; instances publish their SSH host keys as EC2 tags, through a
    Lambda function, and the command line tool reads them back; an agent on
    each instance, wing, applies the Puppet manifests when an object in its API
    says so, and the command line tool waits for all of them.

    This library is a shallow embedding of that logic: pure Go functions are
    functions, methods that change a struct take and return it, a
    multierror is a value, and an expression that can panic (nil dereference,
    index or slice out of range) has type [GoM], whose [Panic] the theorems
    exclude or exhibit.  Concurrent code is a transition system ([Wing],
    [Controller], [VaultTunnels], [Logs], [Tunnel], [Process], [ImageBuild],
    [PackerBuild]), code that is a sequence of
    calls to services is a program of calls that any handler can answer
    ([Calls]), code that works on files is a program over a file system
    ([FileTree]), and a dialogue is a monad over the responses and the
    configuration ([Init]).

    ** Files

    - [Prelude]: panics, errors and multierrors, Go strings and slices, maps
      visited in an unspecified order ([MapRange]), sorting, automation and
      the generic lemmas.
    - [Types]: the structs of [src/pkg/apis/cluster/v1alpha1] and
      [src/pkg/apis/tarmak/v1alpha1].
    - [Net]: the part of package [net] the code uses (ParseCIDR, Contains,
      String), and what containment means.
    - [Utils]: [src/pkg/tarmak/utils] (slices, maps, networks).
    - [Defaults]: the defaulting functions of both API groups.
    - [Config]: the configuration store, [src/pkg/tarmak/config]; its state is
      the configuration in memory and the file, every operation that changes
      them is a definition, and [run] executes sequences of operations.
    - [Versions]: [src/pkg/version/version.go] and the check of the version of
      Terraform in [src/pkg/tarmak/cmd.go].
    - [Regexp]: regular expressions with a matcher by derivatives, proved
      correct.
    - [Role]: [src/pkg/tarmak/role/role.go] and
      [src/pkg/tarmak/cluster/roles.go].
    - [Provider]: the interface of a cloud provider as a class
      ([CloudProvider]) and, in module [Amazon], its implementation
      [src/pkg/tarmak/provider/amazon/amazon.go].
    - [InstancePool]: [src/pkg/tarmak/instance_pool], against
      [CloudProvider].
    - [Cluster] and [ClusterSpec]: [src/pkg/tarmak/cluster/cluster.go]; the
      environment a cluster is in is the class [Env].  [Cluster] has the
      operations and, per check, the proposition it decides; [ClusterSpec] has
      the specification of a valid cluster and the theorems.
    - [Firewall]: the rule table [src/pkg/tarmak/cluster/firewall/rules.go],
      its translation to AWS rules
      ([src/pkg/tarmak/provider/amazon/security_group.go]) and the grouping
      per role in [src/pkg/terraform/templating.go].
    - [Puppet]: [src/pkg/puppet/puppet.go].
    - [Environment]: [src/pkg/tarmak/environment/environment.go], the look-ups
      by name in [src/pkg/tarmak/environments.go], [providers.go] and
      [provider/provider.go], and the current cluster of a run in
      [src/pkg/tarmak/tarmak.go].  [env_view] discharges the class [Env] for
      an environment as far as it is built.
    - [Tagging]: [src/pkg/tagging_control/tagging_control.go] and the host
      keys in [src/pkg/tarmak/provider/amazon/hosts.go].
    - [Ssh]: known hosts and the SSH configuration, [src/pkg/tarmak/ssh/ssh.go].
    - [Hosts]: [ListHosts] of [hosts.go], the instances of a cluster with their
      aliases.
    - [Wing]: the agent [src/pkg/wing] with its three goroutines, admission and
      the store of its API; [step] executes one event of an interleaving.
    - [Controller]: the queue of the agent, [src/pkg/wing/controller.go], against
      the class [WorkQueueLaws], which the queue of client-go discharges.
    - [Convergence]: the client of that API, [src/pkg/tarmak/cluster]
      ([configuration.go], [wing.go]), over the server of [Wing].
    - [Terraform]: [src/pkg/terraform/terraform.go] and [plan/plan.go], as
      changes of a state of plan files, commands and listeners.
    - [Paths]: the part of packages [path] and [path/filepath] the code uses.
    - [FileTree]: a file system, and [src/pkg/tarmak/utils/copy.go].
    - [Templating]: [src/pkg/terraform/templating.go], filling the directory
      Terraform is run in, on that file system.
    - [Plugins]: [preparePlugins] of [terraform.go], the links to the providers,
      and the program started through them ([passthrough.go], [Execute] of
      [src/cmd/tarmak/cmd/root.go]).
    - [Cli]: [src/cmd/tarmak/cmd]: the start of the program, the commands
      [set-current], [list] and [tunnel], and the tables of
      [src/pkg/tarmak/utils/list.go].
    - [SshKey]: the SSH key of an environment, in [environment.go] and
      [Validate] of [ssh.go].
    - [Ec2Tag]: the Terraform resource of an EC2 tag,
      [src/pkg/terraform/providers/awstag/resource_awstag_ec2_tag.go], against
      the class [EC2Laws] of what EC2 documents.
    - [Calls]: programs of calls, their runs, the predicate [safe] and programs
      as parts of larger ones ([lift]).
    - [AwsProvider]: the client of that provider: [config.go],
      [auth_helpers.go] and the configuration in [provider.go].
    - [MachineTags]: [src/pkg/wing/tags], publishing the host keys of a machine;
      composed with the tagging function and the reader of [Tagging].
    - [AgentStart]: [Run] of [src/pkg/wing/wing.go] and the command [tag], over
      [MachineTags].
    - [Manifests]: the upload of the Puppet manifests,
      [src/pkg/tarmak/provider/amazon/upload_config.go] and
      [cluster/configuration.go], and their download by the agent,
      [src/pkg/wing/provider], over a common store.
    - [Logs]: [src/pkg/tarmak/logs/logs.go], the goroutines that collect logs.
    - [Sessions]: running a command on an instance through the bastion, in
      [ssh.go].
    - [Bastion]: [src/pkg/tarmak/environment/bastion.go], over [Sessions].
    - [Tunnel]: [src/pkg/tarmak/ssh/tunnel.go], the life of an SSH tunnel.
    - [Process]: a run of the program: its start ([New] of
      [src/pkg/tarmak/tarmak.go]), its signals
      ([src/pkg/tarmak/utils/context.go]), its temporary files and its end;
      composed with the tunnels of [Tunnel].
    - [RemoteState]: [tf_remote_state.go] and [key_pair.go] of
      [src/pkg/tarmak/provider/amazon], as programs of AWS calls.
    - [Input] and [Init]: [src/pkg/tarmak/utils/input/input.go] and the dialogue
      [src/pkg/tarmak/initialize/initialize.go] with the [Init] functions of
      provider, environment and cluster, over the store of [Config].
    - [Images]: [src/pkg/packer], [provider/amazon/image.go] and [ImagesBuild];
      composed with [VerifyInstancePools] of [Cluster].
    - [ImageBuild]: [src/pkg/packer/image.go], the preparation of a build as a
      program of calls and its goroutines as a transition system.
    - [PackerBuild]: [Build] of [src/pkg/packer/packer.go], the goroutines that
      build several images, refining the sequential [Build] of [Images].
    - [AwsSession]: sessions, credentials and clients of [amazon.go], and what
      [kv.go] reads from the output of Terraform.
    - [Dns]: [src/pkg/tarmak/provider/amazon/route53.go].
    - [Commands]: [src/pkg/tarmak/cmd.go], as programs of calls to the other
      components.
    - [Vault] and [VaultTunnels]: [src/pkg/tarmak/vault], initialising Vault as
      a program of calls and the race for its active node as a transition
      system of goroutines.
    - [Rpc]: the handlers and resources of [src/pkg/terraform/providers/tarmak]
      through which Terraform calls back while it applies a cluster.
    - [RpcSocket]: the client, the socket of the server and the data source of
      the bastion in [src/pkg/terraform/providers/tarmak].
    - [Kubectl]: [src/pkg/tarmak/kubectl/kubectl.go].
    - [Passthrough]: kubectl, over [Kubectl], and ssh run for the user.

    ** What the theorems show

    - Configuration: every sequence of operations keeps names unique and runs
      without a panic, and success means that the file holds what is in
      memory; removing an environment, looking up what was appended and
      splitting the current cluster behave as specified; defaulting is
      idempotent and hands out fresh proxy ports.
    - Validation: [Validate] accepts exactly the clusters of a declarative
      specification; defaulted configurations never make it panic; a cluster
      or pool that is built has the facts its users rely on (roles, counts,
      volumes and distinct devices); network overlap is decided correctly.
    - Environments: the clusters built are the configured ones in order, the
      hub is the configured one, and the current cluster of a run is the one
      named in the configuration.
    - Generated input: no security group rule opens anything to the internet
      but SSH to the bastion, resource names are unique, hiera data and
      feature gates are what the configuration says, in every map order.
    - Host keys: what a machine publishes is what its users read back, through
      the agent, the tagging function and the tags, and published keys are
      never replaced by later requests; an agent starts only after publishing
      them; the known hosts file accepts every
      published key, and a connection is accepted only with a known one.
    - Hosts: exactly the running instances of the cluster and the hub are
      listed, with unique aliases.
    - Convergence: in every interleaving the agent, its server and its clients
      refine a register in which reports keep requests and requests keep
      reports; a converged instance has served the last request, when requests
      are made between converges, and a request is served; reapplying asks all
      instances and waiting succeeds exactly when all have converged.  The
      agent's controller never works on a key twice at once, loses no change,
      and gives a key up only after six failures in a row.
    - Manifests: publishing them is atomic for the agents that read them,
      whatever fails on the way.
    - Files: the Terraform code of a cluster is complete and nothing else is
      touched, directories are copied faithfully, links to the providers
      replace nothing but links and lead back to the provider they name, the
      SSH key is made once and never readable by others.
    - Runs: the first signal cancels and the second kills; a run leaves exactly
      the temporary files it has lost track of; a stopped tunnel holds nothing
      open; a bundle of logs has what was read, and collecting it ends; a
      command runs on the host it is for, through the bastion, which is
      available only if a command has run on it; clients of AWS follow the
      session, and the one of the tag provider is for an account that may be
      used.
    - Changes in the cloud: applying destroys no volume without approval;
      removing remote resources deletes only what was found empty, ensuring
      them creates only what was not found; destroying an environment and
      applying a cluster do their parts in order.  These hold for every answer
      of the services, errors included.
    - Vault: it is initialised at most once and with a token that is on disk;
      the RPC server changes it only under its lock and when a resource is
      created; tunnels and the lock are released on every path; the race for
      the active node ends and leaves one tunnel open.  A kubeconfig is written
      only after the API was reached with it.
    - Dialogues: adding a cluster ends and keeps the configuration consistent,
      whatever is entered.
    - Images and DNS: the newest image with the right encryption is chosen, the
      images that are missing are built and the cluster then verifies; building
      one ends under every schedule, with the identifiers of what was built and
      an error exactly if something failed, and building several amounts to
      building them one after the other; the
      public zone is accepted exactly when it is delegated.
    - Behaviour that looks unintended is stated as theorems too (a panic, a
      dropped error, a check that depends on the order of the configuration).

    ** Bounds and fuel

    These loops are not structural and take fuel, which the lemmas named show
    to be enough for every input, so that no theorem depends on it: the search
    for a free proxy port (one more than the number of ports taken,
    [allocate_spec]), the removal of clusters by index (the length of the list,
    [remove_clusters_loop_filter]), the splitting of a key into tags (the
    length of the data, [add_chunks_put]), the retries per host of
    [Ssh.WriteConfig] ([WriteConfig_terminates]) and the dialogues (one round
    more than there are responses; [InitCluster_correct] excludes running out).
    Emptying the state bucket recurses as often as S3 lists versions: its fuel
    is an argument, and [deleteRemoteStateBucket_terminates] shows how much is
    enough when S3 deletes what it lists.  Copying a directory recurses as deep
    as the directory: its fuel is an argument, and [CopyDir_correct] shows that
    more than the depth is enough.  Waiting for convergence has the
    source's own bound of a hundred rounds, initialising Vault and connecting
    to the API their bounds of 60 and 5 tries, the command for a tunnel its 5;
    how often the bastion is tried again is an argument, as it is up to the
    time ([VerifyBastionAvailable_correct] holds for any number).

    ** Parameters

    Code outside the repository is an argument: the YAML codec and the
    outcome of file operations ([Config]), go-version's parsing and
    comparison and the printing of floats ([Cluster]), label validation of
    apimachinery ([InstancePool]), the parser of semantic versions ([Versions]), the JSON of logging sinks and the outcome
    of writes ([Puppet]), AWS answers ([Provider], [Cluster], [Tagging],
    [Hosts], [Images], [Dns]), signature checks and signing ([Tagging],
    [MachineTags]), JSON, digests and ZIP ([MachineTags], [Manifests],
    [Templating]), the parsers of keys ([Ssh], [SshKey]), executing text
    templates ([Templating]), the outcome of system calls ([FileTree]), exits of the terraform command and paths ([Terraform]), the
    outcome of every call ([Wing], [Convergence], [RemoteState], [Commands],
    [Vault], [Rpc], [Kubectl], [MachineTags], [Manifests], [Logs], [Tunnel],
    [Sessions], [AwsSession], [AwsProvider], [ImageBuild], [Passthrough],
    [AgentStart])
    and the responses of a person ([Input], [Init]).  A few theorems assume
    documented behaviour of such code in their statements: that paths name
    files consistently ([Apply_respects_volumes]), that S3 deletes what it
    lists ([deleteRemoteStateBucket_terminates]), that one node of Vault at
    most is active ([tunnels_cleaned]), that files keep what is written
    ([RootToken_kept]), that encodings are inverted by their decoders
    ([host_keys_published], [ssh_key_correct]) and that the names in the paths
    of a bucket are plain ([manifest_upload_atomic]); the others assume nothing.

    ** Not modelled

    Left out: the Packer build and Terraform themselves, the language of text
    templates, the store for Vault's keys and the SDK of AWS, the SSH protocol,
    which are third party code or run external programs; symbolic links are not
    followed; command line definitions, logging, generated code, mocks and
    embedded assets. *)

From Stdlib Require Export Ascii ZArith Lia.
From stdpp Require Export base gmap strings list sorting pretty fin_maps.

(** The bodies below use Go's own vocabulary; [go_scope] keeps its notations
    apart from stdpp's. *)
Declare Scope go_scope.
Delimit Scope go_scope with go.

(** ** Panics

    A Go expression that can panic (nil dereference, index out of range) has
    type [GoM A]; [Panic] is the run-time panic. *)
Inductive GoM (A : Type) : Type :=
| Ret (a : A)
| Panic.
Arguments Ret {_} _.
Arguments Panic {_}.

#[global] Instance GoM_ret : MRet GoM := λ A a, Ret a.
#[global] Instance GoM_bind : MBind GoM := λ A B f m,
  match m with Ret a => f a | Panic => Panic end.
#[global] Instance GoM_fmap : FMap GoM := λ A B f m,
  match m with Ret a => Ret (f a) | Panic => Panic end.

(** Dereferencing a pointer: nil is [None]. *)
Definition deref {A} (p : option A) : GoM A :=
  match p with Some a => Ret a | None => Panic end.

(** [l[i]] with an in-range check on both sides. *)
Definition index {A} (l : list A) (i : Z) : GoM A :=
  if (i <? 0)%Z then Panic else deref (l !! Z.to_nat i).

(** ** Errors

    A Go [error] is its message; a [*multierror.Error] is the list of the
    errors appended to it.  A nil error is [None]. *)
Inductive error : Type :=
| Errorf (msg : string)
| Multi (errs : list error).

Definition is_nil {A} (e : option A) : bool :=
  match e with None => true | Some _ => false end.

(** The errors [multierror.Append] adds for one argument: a multierror is
    flattened, a nil error adds nothing. *)
Definition flatten (e : option error) : list error :=
  match e with
  | None => []
  | Some (Multi es) => es
  | Some e => [e]
  end.

(** [multierror.Append(err, e)].  Its result is never nil. *)
Definition Append (err e : option error) : option error :=
  Some (Multi (flatten err ++ flatten e)).

(** [ErrorOrNil] of a multierror pointer. *)
Definition ErrorOrNil (err : option error) : option error :=
  match err with
  | Some (Multi []) => None
  | e => e
  end.

(** [if err := f(); err != nil { result = multierror.Append(result, err) }] *)
Definition AppendIf (result e : option error) : option error :=
  match e with None => result | Some _ => Append result e end.

(** [err.Error()], with multierror's list format. *)
Fixpoint error_string (e : error) : string :=
  match e with
  | Errorf s => s
  | Multi [e] => "1 error occurred:
	* " +:+ error_string e +:+ "

"
  | Multi es =>
      pretty (length es) +:+ " errors occurred:
	" +:+ String.concat "
	" (map (λ e, "* " +:+ error_string e) es) +:+ "

"
  end.

(** ** Strings

    Go strings are byte strings, [string] here; the functions of package
    [strings] the code calls, at the arguments it calls them with. *)

(** [strings.Split(s, sep)] for a one-byte separator: always at least one
    element. *)
Fixpoint Split (sep : ascii) (s : string) : list string :=
  match s with
  | EmptyString => [""]
  | String c s' =>
      if decide (c = sep) then "" :: Split sep s'
      else match Split sep s' with
           | [] => [String c ""]
           | w :: ws => String c w :: ws
           end
  end.

Definition Join (ls : list string) (sep : string) : string := String.concat sep ls.

Definition HasPrefix (s prefix : string) : bool := String.prefix prefix s.

(** The bytes of a string, and back. *)
Abbreviation bytes_of := String.list_ascii_of_string.
Abbreviation string_of := String.string_of_list_ascii.

Definition HasSuffix (s suffix : string) : bool :=
  HasPrefix (String.rev s) (String.rev suffix).

Fixpoint Contains (s sub : string) : bool :=
  HasPrefix s sub ||
  match s with EmptyString => false | String _ s' => Contains s' sub end.

(** [s[lo:hi]] (bytes), panicking out of range as Go does. *)
Definition substring (s : string) (lo hi : Z) : GoM string :=
  if (0 <=? lo)%Z && (lo <=? hi)%Z && (hi <=? Z.of_nat (String.length s))%Z
  then Ret (String.substring (Z.to_nat lo) (Z.to_nat (hi - lo)) s)
  else Panic.

Definition has_byte (c : ascii) (s : string) : bool :=
  existsb (Ascii.eqb c) (bytes_of s).

Definition ToLower_byte (c : ascii) : ascii :=
  let n := nat_of_ascii c in
  if (65 <=? n) && (n <=? 90) then ascii_of_nat (n + 32) else c.

(** [strings.ToLower] on ASCII input. *)
Fixpoint ToLower (s : string) : string :=
  match s with
  | EmptyString => ""
  | String c s' => String (ToLower_byte c) (ToLower s')
  end.

Fixpoint TrimLeft_rev (c : ascii) (s : string) : string :=
  match s with
  | EmptyString => ""
  | String d s' => if decide (d = c) then TrimLeft_rev c s' else s
  end.

(** [strings.TrimRight(s, c)] for a one-byte cutset. *)
Definition TrimRight (c : ascii) (s : string) : string :=
  String.rev (TrimLeft_rev c (String.rev s)).

(** [sort.Strings]: byte-wise lexicographic order. *)
Definition sort_strings (l : list string) : list string := merge_sort String.le l.

(** ["%d"] and ["%t"]. *)
Definition fmt_d (z : Z) : string := pretty z.
Definition fmt_t (b : bool) : string := if b then "true" else "false".

(** ** Slices whose nil-ness the code observes *)
Abbreviation slice A := (option (list A)).
Definition elems {A} (s : slice A) : list A := default [] s.

(** ** Maps

    Ranging over a Go map visits its entries in an unspecified order: a run
    is given by a [MapRange], and a statement about the code holds for every
    one of them. *)
Class MapRange := {
  range : ∀ {A}, gmap string A → list (string * A);
  range_perm : ∀ {A} (m : gmap string A), range m ≡ₚ map_to_list m;
}.

(** A run that visits the entries in the library's own order. *)
Program Definition range_list : MapRange := {| range := λ A m, map_to_list m |}.
Next Obligation. done. Qed.

(** A run that visits them backwards. *)
Program Definition range_rev : MapRange := {| range := λ A m, reverse (map_to_list m) |}.
Next Obligation. intros. apply reverse_Permutation. Qed.

(** ** Automation *)
Create HintDb tarmak.

(** Split every [if], [match] and bind on the way to the goal, then close. *)
Ltac go_cases :=
  repeat (simplify_eq/=; try case_match; simplify_eq/=); try done.

(** Reflect the boolean tests the code makes. *)
Ltac go_bool :=
  repeat match goal with
  | H : _ && _ = true |- _ => apply andb_true_iff in H as [? ?]
  | H : _ || _ = false |- _ => apply orb_false_iff in H as [? ?]
  | H : negb _ = true |- _ => apply negb_true_iff in H
  | H : negb _ = false |- _ => apply negb_false_iff in H
  | H : bool_decide _ = true |- _ => apply bool_decide_eq_true in H
  | H : bool_decide _ = false |- _ => apply bool_decide_eq_false in H
  | H : (_ =? _)%Z = true |- _ => apply Z.eqb_eq in H
  | H : (_ =? _)%Z = false |- _ => apply Z.eqb_neq in H
  | H : (_ <? _)%Z = true |- _ => apply Z.ltb_lt in H
  | H : (_ <? _)%Z = false |- _ => apply Z.ltb_ge in H
  | H : (_ <=? _)%Z = true |- _ => apply Z.leb_le in H
  | H : (_ <=? _)%Z = false |- _ => apply Z.leb_gt in H
  end.

(** ** Error accumulation *)

(** A real error: not an empty multierror. *)
Definition proper (e : option error) : Prop := e ≠ Some (Multi []).

(** [for _, x := range l { if err := check(x); err != nil {
     result = multierror.Append(result, err) } }] *)
Definition collect {A} (check : A → option error) (l : list A)
    (result : option error) : option error :=
  foldl (λ r x, AppendIf r (check x)) result l.

Lemma AppendIf_None r e : AppendIf r e = None ↔ r = None ∧ e = None.
Proof. destruct e; simpl; unfold Append; naive_solver. Qed.

Lemma collect_None {A} (check : A → option error) l r :
  collect check l r = None ↔ r = None ∧ Forall (λ x, check x = None) l.
Proof.
  unfold collect. revert r. induction l as [|x l IH]; intros r; simpl.
  - split; [intros ->; done | tauto].
  - rewrite IH, AppendIf_None, Forall_cons. tauto.
Qed.

Lemma ErrorOrNil_proper e : proper (ErrorOrNil e).
Proof. unfold proper. destruct e as [[|[]]|]; simpl; congruence. Qed.

Lemma Errorf_proper s : proper (Some (Errorf s)).
Proof. by unfold proper. Qed.

Lemma None_proper : proper None.
Proof. by unfold proper. Qed.

Lemma AppendIf_proper r e : proper r → proper e → proper (AppendIf r e).
Proof.
  unfold proper, AppendIf, Append.
  destruct e as [[|[|]]|]; simpl; intros; try done;
    intros Heq; simplify_eq; by destruct (flatten r).
Qed.

Lemma collect_proper {A} (check : A → option error) l r :
  proper r → (∀ x, proper (check x)) → proper (collect check l r).
Proof.
  unfold collect. revert r. induction l as [|x l IH]; intros r Hr Hc; simpl; [done|].
  apply IH; [|done]. apply AppendIf_proper; auto.
Qed.

Lemma ErrorOrNil_id r : proper r → ErrorOrNil r = r.
Proof. unfold proper. destruct r as [[|[]]|]; simpl; congruence. Qed.

#[export] Hint Resolve ErrorOrNil_proper Errorf_proper None_proper AppendIf_proper
  collect_proper : tarmak.

Lemma ErrorOrNil_None r : proper r → ErrorOrNil r = None ↔ r = None.
Proof. intros. by rewrite ErrorOrNil_id. Qed.

(** The errors a [collect] gathers, in order. *)
Lemma collect_flatten {A} (check : A → option error) l r :
  flatten (collect check l r) = flatten r ++ concat (map (λ x, flatten (check x)) l).
Proof.
  unfold collect. revert r. induction l as [|x l IH]; intros r; simpl.
  - by rewrite app_nil_r.
  - rewrite IH. destruct (check x) as [e|] eqn:E; simpl; [|done].
    by rewrite app_assoc.
Qed.

(** ** Split and Join *)

Lemma Split_not_nil c s : Split c s ≠ [].
Proof. destruct s; simpl; repeat case_match; done. Qed.

Lemma has_byte_cons c d s : has_byte c (String d s) = (Ascii.eqb c d || has_byte c s)%bool.
Proof. done. Qed.

Lemma string_app_cons c s t : String c s +:+ t = String c (s +:+ t).
Proof. done. Qed.

Lemma string_app_nil_l s : "" +:+ s = s.
Proof. done. Qed.

Lemma string_app_nil_r s : s +:+ "" = s.
Proof. induction s as [|c s IH]; [done | by rewrite string_app_cons, IH]. Qed.

Lemma string_app_assoc s1 s2 s3 : (s1 +:+ s2) +:+ s3 = s1 +:+ (s2 +:+ s3).
Proof. induction s1 as [|c s IH]; [done | by rewrite !string_app_cons, IH]. Qed.

Lemma string_app_length s1 s2 :
  String.length (s1 +:+ s2) = String.length s1 + String.length s2.
Proof.
  induction s1 as [|c s IH]; [done|]. rewrite string_app_cons. simpl. by rewrite IH.
Qed.

Lemma Split_no_sep c s : has_byte c s = false → Split c s = [s].
Proof.
  induction s as [|d s IH]; [done|]. rewrite has_byte_cons. intros H.
  apply orb_false_iff in H as [H1 H2]. simpl.
  apply Ascii.eqb_neq in H1. rewrite decide_False by congruence. by rewrite IH.
Qed.

Lemma Split_app c a b :
  has_byte c a = false → Split c (a +:+ String c b) = a :: Split c b.
Proof.
  induction a as [|d a IH]; intros H; simpl.
  - by rewrite decide_True.
  - rewrite has_byte_cons in H. apply orb_false_iff in H as [H1 H2].
    apply Ascii.eqb_neq in H1. rewrite decide_False by congruence. by rewrite IH.
Qed.

Lemma Join_cons w ws sep :
  ws ≠ [] → Join (w :: ws) sep = w +:+ sep +:+ Join ws sep.
Proof. unfold Join. destruct ws; [done|]. done. Qed.

Lemma Join_Split c s : Join (Split c s) (String c "") = s.
Proof.
  induction s as [|d s IH]; [done|]. simpl. case_decide as Hd.
  - rewrite Join_cons by apply Split_not_nil. rewrite IH. subst. done.
  - destruct (Split c s) as [|w ws] eqn:E; [by destruct (Split_not_nil c s)|].
    destruct ws as [|w' ws].
    + unfold Join in *. simpl in *. by rewrite IH.
    + rewrite Join_cons in IH |- * by done. by rewrite string_app_cons, IH.
Qed.

Lemma Split_elem_no_sep c s w : w ∈ Split c s → has_byte c w = false.
Proof.
  revert w. induction s as [|d s IH]; intros w; simpl.
  - rewrite list_elem_of_singleton. by intros ->.
  - case_decide as Hd.
    + rewrite elem_of_cons. intros [->|]; [done|]. auto.
    + destruct (Split c s) as [|w' ws] eqn:E; [by destruct (Split_not_nil c s)|].
      rewrite elem_of_cons. intros [->|Hw].
      * rewrite has_byte_cons. apply orb_false_iff. split.
        -- apply Ascii.eqb_neq. congruence.
        -- apply IH. apply elem_of_cons. by left.
      * apply IH. apply elem_of_cons. by right.
Qed.

Lemma Split_inv2 c s a b : Split c s = [a; b] → s = a +:+ String c b.
Proof. intros H. rewrite <- (Join_Split c s), H. done. Qed.

(** ** Prefixes, suffixes and bytes *)
Lemma bytes_of_app a b : bytes_of (a +:+ b) = bytes_of a ++ bytes_of b.
Proof. induction a as [|c a IH]; [done|]. rewrite string_app_cons. simpl. by rewrite IH. Qed.

Lemma bytes_of_inj a b : bytes_of a = bytes_of b → a = b.
Proof.
  intros Heq. rewrite <- (String.string_of_list_ascii_of_string a), Heq.
  apply String.string_of_list_ascii_of_string.
Qed.

Lemma string_of_app l1 l2 : string_of (l1 ++ l2) = string_of l1 +:+ string_of l2.
Proof. induction l1 as [|c l1 IH]; [done|]. simpl. by rewrite string_app_cons, IH. Qed.

Lemma length_bytes_of s : length (bytes_of s) = String.length s.
Proof. induction s as [|c s IH]; [done|]. simpl. by rewrite IH. Qed.

Lemma length_string_of l : String.length (string_of l) = length l.
Proof. by rewrite <- length_bytes_of, String.list_ascii_of_string_of_list_ascii. Qed.

Lemma HasPrefix_spec s p : HasPrefix s p = true ↔ ∃ t, s = p +:+ t.
Proof.
  unfold HasPrefix. revert s. induction p as [|c p IH]; intros s.
  - destruct s; (split; [by eexists|done]).
  - destruct s as [|d s]; simpl.
    + split; [done|]. intros [t Ht]. by rewrite string_app_cons in Ht.
    + destruct (ascii_dec c d) as [->|Hne].
      * rewrite IH. split; intros [t Ht]; exists t; rewrite ?string_app_cons in *; congruence.
      * split; [done|]. intros [t Ht]. rewrite string_app_cons in Ht. congruence.
Qed.

Lemma rev_app_bytes s t : bytes_of (String.rev_app s t) = reverse (bytes_of s) ++ bytes_of t.
Proof.
  revert t. induction s as [|c s IH]; intros t; simpl; [done|].
  rewrite IH, reverse_cons. simpl. by rewrite <- app_assoc.
Qed.

Lemma bytes_of_rev s : bytes_of (String.rev s) = reverse (bytes_of s).
Proof. unfold String.rev. rewrite rev_app_bytes. apply app_nil_r. Qed.

Lemma HasSuffix_spec s suffix : HasSuffix s suffix = true ↔ ∃ t, s = t +:+ suffix.
Proof.
  unfold HasSuffix. rewrite HasPrefix_spec. split; intros [t Ht].
  - exists (String.rev t). apply bytes_of_inj. apply (f_equal bytes_of) in Ht.
    rewrite bytes_of_app, !bytes_of_rev in Ht. rewrite bytes_of_app, bytes_of_rev.
    rewrite <- (reverse_involutive (bytes_of s)), Ht, reverse_app, reverse_involutive. done.
  - exists (String.rev t). apply bytes_of_inj. by rewrite bytes_of_app, !bytes_of_rev, Ht, bytes_of_app, reverse_app.
Qed.

Lemma substring_app a b : String.substring 0 (String.length a) (a +:+ b) = a.
Proof. induction a as [|c a IH]; [by destruct b|]. rewrite string_app_cons. simpl. by rewrite IH. Qed.

Lemma Split_snoc c a d : has_byte c d = false → Split c (a +:+ String c d) = Split c a ++ [d].
Proof.
  intros Hd. induction a as [|x a IH].
  - rewrite string_app_nil_l. simpl. rewrite decide_True by done. by rewrite Split_no_sep.
  - rewrite string_app_cons. simpl. case_decide; [by rewrite IH|].
    rewrite IH. destruct (Split c a) eqn:E; [by apply Split_not_nil in E|]. done.
Qed.

Lemma Join_snoc ws d sep : ws ≠ [] → Join (ws ++ [d]) sep = Join ws sep +:+ sep +:+ d.
Proof.
  induction ws as [|w ws IH]; [done|]. intros _. destruct ws as [|w' ws]; [done|].
  change ((w :: w' :: ws) ++ [d]) with (w :: ((w' :: ws) ++ [d])).
  rewrite !Join_cons by done. rewrite IH by done. by rewrite !string_app_assoc.
Qed.

(** ** The strict byte order *)
Definition slt (s1 s2 : string) : Prop := String.compare s1 s2 = Lt.

Lemma slt_le s1 s2 : slt s1 s2 → String.le s1 s2.
Proof. unfold slt, String.le, String.leb. by intros ->. Qed.

Lemma Ascii_compare_refl c : Ascii.compare c c = Eq.
Proof. apply N.compare_refl. Qed.

Lemma slt_irrefl s : ¬ slt s s.
Proof. unfold slt. induction s as [|c s IH]; simpl; [done|]. by rewrite Ascii_compare_refl. Qed.

Lemma slt_app p s1 s2 : slt s1 s2 → slt (p +:+ s1) (p +:+ s2).
Proof.
  unfold slt. intros Hs. induction p as [|c p IH]; [done|].
  rewrite !string_app_cons. simpl. by rewrite Ascii_compare_refl.
Qed.

(** Names that are not prefixes of one another stay in order, whatever
    follows them. *)
Lemma slt_prefix_free n1 n2 x y :
  HasPrefix n1 n2 = false → HasPrefix n2 n1 = false → slt n1 n2 → slt (n1 +:+ x) (n2 +:+ y).
Proof.
  unfold slt, HasPrefix. revert n2. induction n1 as [|c1 n1 IH]; intros n2 H12 H21.
  - by destruct n2.
  - destruct n2 as [|c2 n2]; [done|]. rewrite !string_app_cons. simpl in *.
    destruct (Ascii.compare c1 c2) eqn:E; [|done..].
    apply Ascii.compare_eq_iff in E as ->. destruct (ascii_dec c2 c2); [|done]. by apply IH.
Qed.

Lemma slt_total s1 s2 : s1 ≠ s2 → String.le s1 s2 → slt s1 s2.
Proof.
  unfold slt, String.le, String.leb. destruct (String.compare s1 s2) eqn:E; try done.
  by apply String.compare_eq_iff in E.
Qed.

(** ** Sorting *)

Lemma sort_strings_perm l : sort_strings l ≡ₚ l.
Proof. apply merge_sort_Permutation. Qed.

Lemma sort_strings_sorted l : StronglySorted String.le (sort_strings l).
Proof. apply (StronglySorted_merge_sort _). Qed.

(** The result only depends on the multiset sorted. *)
Lemma sort_strings_proper l1 l2 : l1 ≡ₚ l2 → sort_strings l1 = sort_strings l2.
Proof.
  intros H. apply (StronglySorted_unique String.le); try apply sort_strings_sorted.
  by rewrite !sort_strings_perm.
Qed.

#[global] Instance sort_strings_Proper : Proper ((≡ₚ) ==> (=)) sort_strings.
Proof. exact sort_strings_proper. Qed.

(** ** Lists *)

Lemma filter_all {A} (P : A → Prop) `{∀ x, Decision (P x)} l : Forall P l → filter P l = l.
Proof.
  induction 1 as [|x l Hx _ IH]; [done|]. by rewrite filter_cons_True, IH.
Qed.

Lemma filter_nil_iff {A} (P : A → Prop) `{∀ x, Decision (P x)} l :
  filter P l = [] ↔ Forall (λ x, ¬ P x) l.
Proof.
  induction l as [|x l IH]; [done|]. rewrite filter_cons, Forall_cons.
  case_decide; [|naive_solver]. split; [done|naive_solver].
Qed.

Lemma filter_Forall_iff {A} (P Q : A → Prop) `{∀ x, Decision (P x)} `{∀ x, Decision (Q x)} l :
  Forall (λ x, P x ↔ Q x) l → filter P l = filter Q l.
Proof.
  induction 1 as [|x l Hx _ IH]; [done|]. rewrite !filter_cons, IH.
  repeat case_decide; (done || tauto).
Qed.

Lemma elem_of_drop_sub {A} (x : A) n l : x ∈ drop n l → x ∈ l.
Proof. rewrite <- (take_drop n l) at 2. set_solver. Qed.

Lemma elem_of_take_sub {A} (x : A) n l : x ∈ take n l → x ∈ l.
Proof. rewrite <- (take_drop n l) at 2. set_solver. Qed.

(** ** Ranging over maps *)
Section range.
Context `{MapRange} {A : Type}.
Implicit Types m : gmap string A.

Lemma range_elem m k v : (k, v) ∈ range m ↔ m !! k = Some v.
Proof. rewrite range_perm. apply elem_of_map_to_list. Qed.

Lemma range_NoDup m : NoDup (range m).
Proof. rewrite range_perm. apply NoDup_map_to_list. Qed.

Lemma range_NoDup_fst m : NoDup (range m).*1.
Proof. rewrite range_perm. apply NoDup_fst_map_to_list. Qed.

Lemma range_nil m : range m = [] ↔ m = ∅.
Proof.
  rewrite <- map_to_list_empty_iff. split; intros E.
  - apply Permutation_nil. rewrite <- E. apply range_perm.
  - apply Permutation_nil. rewrite <- E. symmetry. apply range_perm.
Qed.

Lemma range_length m : length (range m) = size m.
Proof. rewrite (Permutation_length (range_perm m)). apply length_map_to_list. Qed.
End range.

(** Two runs over the same map visit permutations of one another. *)
Lemma range_any (R1 R2 : MapRange) {A} (m : gmap string A) :
  range (MapRange := R1) m ≡ₚ range (MapRange := R2) m.
Proof. by rewrite (range_perm (MapRange := R1)), (range_perm (MapRange := R2)). Qed.
