(* ===== verification/Types.v ===== *)
(** * Types: the API objects

    The Go structs of [src/pkg/apis/cluster/v1alpha1] and
    [src/pkg/apis/tarmak/v1alpha1] the program reads from the configuration
    file, one [Record] per struct with the struct's fields in order.

    - A pointer field [*T] is [option T]; a slice whose nil-ness is observed
      is a [slice]; a Go map is a [gmap string _] (a nil map reads as the
      empty one).  The elements of a slice of pointers are taken to be
      non-nil and distinct, which is what decoding a configuration produces.
    - [metav1.TypeMeta] is left out and [metav1.ObjectMeta] keeps the three
      fields the program uses.  A time is its number of nanoseconds, the zero
      time is [0].
    - A Go [int] is a [Z]; a [resource.Quantity] is its value in bytes; a
      [float64] is a [spec_float]. *)

From Stdlib Require Import Floats.SpecFloat.
From S2P Require Import Prelude.

(** ** Constants *)
Definition CloudAmazon := "amazon".
Definition CloudAzure := "azure".
Definition CloudGoogle := "google".

Definition ClusterTypeHub := "hub".
Definition ClusterTypeClusterSingle := "cluster-single".
Definition ClusterTypeClusterMulti := "cluster-multi".

Definition StateDestroy := "destroy".

Definition PrometheusModeFull := "Full".
Definition PrometheusModeExternalExportersOnly := "ExternalExportersOnly".
Definition PrometheusModeExternalScrapeTargetsOnly := "ExternalScrapeTargetsOnly".

Definition CalicoBackendEtcd := "etcd".
Definition CalicoBackendKubernetes := "kubernetes".

Definition InstancePoolSizeTiny := "tiny".
Definition InstancePoolSizeSmall := "small".
Definition InstancePoolSizeMedium := "medium".
Definition InstancePoolSizeLarge := "large".

Definition InstancePoolTypeMaster := "master".
Definition InstancePoolTypeWorker := "worker".
Definition InstancePoolTypeEtcd := "etcd".
Definition InstancePoolTypeBastion := "bastion".
Definition InstancePoolTypeJenkins := "jenkins".
Definition InstancePoolTypeVault := "vault".
Definition InstancePoolTypeAll := "all".
Definition InstancePoolTypeMasterEtcd := "master-etcd".
Definition InstancePoolTypeHybrid := "hybrid".

Definition VolumeTypeHDD := "hdd".
Definition VolumeTypeSSD := "ssd".

Definition KubernetesMasterRoleName := "master".
Definition KubernetesWorkerRoleName := "worker".
Definition KubernetesEtcdRoleName := "etcd".
Definition ImageBaseDefault := "centos-puppet-agent".
Definition ImageBaseDefaultWorker := "centos-puppet-agent-k8s-worker".

Definition ExistingVPCAnnotationKey := "tarmak.io/existing-vpc-id".
Definition ExistingPublicSubnetIDsAnnotationKey := "tarmak.io/existing-public-subnet-ids".
Definition ExistingPrivateSubnetIDsAnnotationKey := "tarmak.io/existing-private-subnet-ids".
Definition NetworkTypePublic := "public".
Definition NetworkTypePrivate := "private".

Definition LoggingSinkTypePlatform := "platform".
Definition LoggingSinkTypeApplication := "application".
Definition LoggingSinkTypeAudit := "audit".
Definition LoggingSinkTypeAll := "all".

Definition EnvironmentTypeEmpty := "empty".
Definition EnvironmentTypeMulti := "multi".
Definition EnvironmentTypeSingle := "single".

Definition ImageTagEnvironment := "tarmak_environment".
Definition ImageTagBaseImageName := "tarmak_base_image_name".
Definition ImageTagKubernetesVersion := "kubernetes_version".

(** [KubernetesEpoch], in nanoseconds. *)
Definition KubernetesEpoch : Z := (1437436800 * 1000000000)%Z.

(** The zero [metav1.Time]. *)
Definition zeroTime : Z := 0.

(** ** Object metadata *)
Record ObjectMeta := {
  Name : string;
  CreationTimestamp : Z;
  Annotations : gmap string string;
}.

Definition ObjectMeta_zero : ObjectMeta :=
  {| Name := ""; CreationTimestamp := zeroTime; Annotations := ∅ |}.

(** ** Networks, volumes, subnets, firewalls *)
Record InternetGW := { igw_meta : ObjectMeta; igw_Identifier : string }.

Record Network := {
  net_meta : ObjectMeta;
  net_CIDR : string;
  net_Identifier : string;
  net_Type : string;
  net_InternetGW : option InternetGW;
}.

Definition Network_zero : Network :=
  {| net_meta := ObjectMeta_zero; net_CIDR := ""; net_Identifier := "";
     net_Type := ""; net_InternetGW := None |}.

Record Subnet := {
  sn_meta : ObjectMeta;
  sn_Identifier : string;
  sn_CIDR : string;
  sn_Location : string;
  sn_Zone : string;
}.

Record Volume := {
  vol_meta : ObjectMeta;
  vol_Size : option Z;
  vol_Type : string;
}.

Record Shared := { sh_meta : ObjectMeta; sh_Identifier : string }.

Record IngressRule := {
  ing_Shared : Shared;
  ing_IngressFromPort : string;
  ing_IngressToPort : string;
  ing_IngressSource : string;
  ing_IngressProtocol : string;
}.

Record EgressRule := {
  egr_Shared : Shared;
  egr_EgressToPort : string;
  egr_EgressDestination : string;
  egr_EgressProtocol : string;
}.

Record Firewall := {
  fw_meta : ObjectMeta;
  fw_Identifier : string;
  fw_IngressRules : list IngressRule;
  fw_EgressRules : list EgressRule;
}.

Record Label := { lb_Key : string; lb_Value : string }.
Record Taint := { tt_Key : string; tt_Value : string; tt_Effect : string }.

#[global] Instance Label_eq_dec : EqDecision Label.
Proof. solve_decision. Defined.
#[global] Instance Taint_eq_dec : EqDecision Taint.
Proof. solve_decision. Defined.

(** ** Instance pools *)
Record InstancePoolKubernetes := { ipk_Version : string }.
Record InstancePoolAmazon := { ipa_AdditionalIAMPolicies : slice string }.

Record InstancePool := {
  ip_meta : ObjectMeta;
  ip_Identifier : string;
  ip_MinCount : Z;
  ip_MaxCount : Z;
  ip_Type : string;
  ip_Image : string;
  ip_Size : string;
  ip_SpotPrice : string;
  ip_BootstrapScripts : list string;
  ip_Subnets : list Subnet;
  ip_Firewalls : list Firewall;
  ip_Volumes : list Volume;
  ip_Kubernetes : option InstancePoolKubernetes;
  ip_AllowCIDRs : slice string;
  ip_PrivateAllowCIDRs : slice string;
  ip_Labels : list Label;
  ip_Taints : list Taint;
  ip_Amazon : option InstancePoolAmazon;
}.

Definition InstancePool_zero : InstancePool :=
  {| ip_meta := ObjectMeta_zero; ip_Identifier := ""; ip_MinCount := 0;
     ip_MaxCount := 0; ip_Type := ""; ip_Image := ""; ip_Size := "";
     ip_SpotPrice := ""; ip_BootstrapScripts := []; ip_Subnets := [];
     ip_Firewalls := []; ip_Volumes := []; ip_Kubernetes := None;
     ip_AllowCIDRs := None; ip_PrivateAllowCIDRs := None; ip_Labels := [];
     ip_Taints := []; ip_Amazon := None |}.

(** ** Logging sinks *)
Record AmazonESProxy := { esp_Port : Z }.
Record HTTPBasicAuth := { hba_Username : string; hba_Password : string }.

Record LoggingSinkElasticsearch := {
  es_Host : string;
  es_Port : Z;
  es_LogstashPrefix : string;
  es_TLS : option bool;
  es_TLSVerify : bool;
  es_TLSCA : string;
  es_HTTPBasicAuth : option HTTPBasicAuth;
  es_AmazonESProxy : option AmazonESProxy;
}.

Record LoggingSink := {
  ls_Elasticsearch : option LoggingSinkElasticsearch;
  ls_Types : list string;
}.

(** ** Cluster: Kubernetes options *)
Record ClusterKubernetesClusterAutoscalerOverprovisioning := {
  cao_Enabled : bool;
  cao_Image : string;
  cao_Version : string;
  cao_ReservedMillicoresPerReplica : Z;
  cao_ReservedMegabytesPerReplica : Z;
  cao_CoresPerReplica : Z;
  cao_NodesPerReplica : Z;
  cao_ReplicaCount : Z;
}.

Record ClusterKubernetesClusterAutoscaler := {
  ca_Enabled : bool;
  ca_Image : string;
  ca_Version : string;
  ca_ScaleDownUtilizationThreshold : option spec_float;
  ca_Overprovisioning : option ClusterKubernetesClusterAutoscalerOverprovisioning;
}.

Definition ClusterAutoscaler_zero : ClusterKubernetesClusterAutoscaler :=
  {| ca_Enabled := false; ca_Image := ""; ca_Version := "";
     ca_ScaleDownUtilizationThreshold := None; ca_Overprovisioning := None |}.

Record ClusterKubernetesTiller := {
  til_Enabled : bool; til_Image : string; til_Version : string }.
Record ClusterKubernetesDashboard := {
  das_Enabled : bool; das_Image : string; das_Version : string }.

Record ClusterKubernetesAPIServerOIDC := {
  oidc_ClientID : string;
  oidc_GroupsClaim : string;
  oidc_GroupsPrefix : string;
  oidc_IssuerURL : string;
  oidc_SigningAlgs : list string;
  oidc_UsernameClaim : string;
  oidc_UsernamePrefix : string;
}.

Record ClusterKubernetesAPIServerAmazonAccessLogs := {
  al_Enabled : option bool;
  al_Bucket : string;
  al_BucketPrefix : string;
  al_Interval : option Z;
}.

Record ClusterKubernetesAPIServerAmazon := {
  asa_PublicELBAccessLogs : option ClusterKubernetesAPIServerAmazonAccessLogs;
  asa_InternalELBAccessLogs : option ClusterKubernetesAPIServerAmazonAccessLogs;
  asa_AwsIAMAuthenticatorInit : bool;
}.

Record ClusterKubernetesAPIServer := {
  api_Public : bool;
  api_AllowCIDRs : slice string;
  api_PrivateRecord : bool;
  api_PrivateAllowCIDRs : slice string;
  api_EnableAdmissionControllers : list string;
  api_DisableAdmissionControllers : list string;
  api_OIDC : option ClusterKubernetesAPIServerOIDC;
  api_Amazon : option ClusterKubernetesAPIServerAmazon;
  api_AuthTokenWebhookFile : string;
  api_FeatureGates : gmap string bool;
}.

Record ClusterPodSecurityPolicy := { psp_Enabled : bool }.
Record ClusterKubernetesPrometheus := { prom_Enabled : bool; prom_Mode : string }.
Record ClusterKubernetesGrafana := { graf_Enabled : bool }.
Record ClusterKubernetesHeapster := { heap_Enabled : bool }.
Record ClusterKubernetesInfluxDB := { infl_Enabled : bool }.
Record ClusterVaultHelper := { vh_URL : string }.
Record ClusterKubernetesScheduler := { sched_FeatureGates : gmap string bool }.
Record ClusterKubernetesKubelet := { klet_FeatureGates : gmap string bool }.
Record ClusterKubernetesProxy := { prox_FeatureGates : gmap string bool }.
Record ClusterKubernetesControllerManager := { cm_FeatureGates : gmap string bool }.

Record ClusterKubernetesCalico := {
  cal_Backend : string;
  cal_EnableTypha : bool;
  cal_TyphaReplicas : option Z;
}.

Record ClusterKubernetes := {
  ck_Zone : string;
  ck_Version : string;
  ck_PodCIDR : string;
  ck_ServiceCIDR : string;
  ck_ClusterAutoscaler : option ClusterKubernetesClusterAutoscaler;
  ck_Tiller : option ClusterKubernetesTiller;
  ck_Dashboard : option ClusterKubernetesDashboard;
  ck_PodSecurityPolicy : option ClusterPodSecurityPolicy;
  ck_Prometheus : option ClusterKubernetesPrometheus;
  ck_Grafana : option ClusterKubernetesGrafana;
  ck_Heapster : option ClusterKubernetesHeapster;
  ck_InfluxDB : option ClusterKubernetesInfluxDB;
  ck_APIServer : option ClusterKubernetesAPIServer;
  ck_Kubelet : option ClusterKubernetesKubelet;
  ck_Scheduler : option ClusterKubernetesScheduler;
  ck_Proxy : option ClusterKubernetesProxy;
  ck_ControllerManager : option ClusterKubernetesControllerManager;
  ck_Calico : option ClusterKubernetesCalico;
  ck_GlobalFeatureGates : gmap string bool;
  ck_Hyperkube : option bool;
}.

Definition ClusterKubernetes_zero : ClusterKubernetes :=
  {| ck_Zone := ""; ck_Version := ""; ck_PodCIDR := ""; ck_ServiceCIDR := "";
     ck_ClusterAutoscaler := None; ck_Tiller := None; ck_Dashboard := None;
     ck_PodSecurityPolicy := None; ck_Prometheus := None; ck_Grafana := None;
     ck_Heapster := None; ck_InfluxDB := None; ck_APIServer := None;
     ck_Kubelet := None; ck_Scheduler := None; ck_Proxy := None;
     ck_ControllerManager := None; ck_Calico := None;
     ck_GlobalFeatureGates := ∅; ck_Hyperkube := None |}.

(** ** Cluster *)
Record Values := { vals_meta : ObjectMeta; vals_ItemMap : gmap string string }.
Record KubernetesAPI := {
  kapi_meta : ObjectMeta; kapi_Endpoint : string; kapi_Port : string }.

Record ClusterAmazon := {
  cla_AdditionalIAMPolicies : slice string;
  cla_EBSEncrypted : option bool;
}.

Record Cluster := {
  cl_meta : ObjectMeta;
  cl_CloudId : string;
  cl_InstancePools : list InstancePool;
  cl_Cloud : string;
  cl_Location : string;
  cl_Network : option Network;
  cl_LoggingSinks : slice LoggingSink;
  cl_Values : option Values;
  cl_KubernetesAPI : option KubernetesAPI;
  cl_GroupIdentifier : string;
  cl_VaultHelper : option ClusterVaultHelper;
  cl_Environment : string;
  cl_Kubernetes : option ClusterKubernetes;
  cl_Type : string;
  cl_Amazon : option ClusterAmazon;
}.

Definition Cluster_zero : Cluster :=
  {| cl_meta := ObjectMeta_zero; cl_CloudId := ""; cl_InstancePools := [];
     cl_Cloud := ""; cl_Location := ""; cl_Network := None;
     cl_LoggingSinks := None; cl_Values := None; cl_KubernetesAPI := None;
     cl_GroupIdentifier := ""; cl_VaultHelper := None; cl_Environment := "";
     cl_Kubernetes := None; cl_Type := ""; cl_Amazon := None |}.

Definition cl_Name (c : Cluster) : string := Name (cl_meta c).
Definition ip_Name (p : InstancePool) : string := Name (ip_meta p).
Definition vol_Name (v : Volume) : string := Name (vol_meta v).

Definition NewCluster (name : string) : Cluster :=
  {| Cluster_zero with cl_meta := {| ObjectMeta_zero with Name := name |} |}.

(** ** The tarmak configuration *)
Record SSH := {
  ssh_meta : ObjectMeta;
  ssh_User : string;
  ssh_Identifier : string;
  ssh_PublicKeyPath : string;
  ssh_PublicKeyData : list ascii;
  ssh_PublicKeyFingerprint : string;
  ssh_PrivateKeyPath : string;
}.

Record ProviderAmazon := {
  pa_VaultPath : string;
  pa_AllowedAccountIDs : list string;
  pa_Profile : string;
  pa_BucketPrefix : string;
  pa_KeyName : string;
  pa_PublicZone : string;
  pa_PublicHostedZoneID : string;
}.
Record ProviderGCP := { pg_Project : string }.
Record ProviderAzure := { pz_SubscriptionID : string }.

Record Provider := {
  pr_meta : ObjectMeta;
  pr_Amazon : option ProviderAmazon;
  pr_GCP : option ProviderGCP;
  pr_Azure : option ProviderAzure;
}.

Record Environment := {
  env_meta : ObjectMeta;
  env_Provider : string;
  env_Contact : string;
  env_Project : string;
  env_Location : string;
  env_SSH : option SSH;
  env_PrivateZone : string;
  env_AdminCIDRs : slice string;
}.

Definition env_Name (e : Environment) : string := Name (env_meta e).
Definition pr_Name (p : Provider) : string := Name (pr_meta p).

Record Config := {
  cf_meta : ObjectMeta;
  cf_CurrentCluster : string;
  cf_Contact : string;
  cf_Project : string;
  cf_Clusters : list Cluster;
  cf_Providers : list Provider;
  cf_Environments : list Environment;
}.

(** ** Images *)
Record Image := {
  img_meta : ObjectMeta;
  img_BaseImage : string;
  img_Location : string;
  img_Encrypted : bool;
}.
