(* ===== verification/Net.v ===== *)
(** * Net: package net of the Go standard library

    The part of package [net] (Go 1.11, the version the repository builds
    with) that the code calls to read and compare networks: [ParseCIDR],
    [IPNet.Contains] and [IPNet.String].  An [IP] or [IPMask] is the list of
    its bytes; nil is [None].

    [Contains_disjoint] is the lemma the users of this file need: on the
    masks [CIDRMask] builds, two networks share an address exactly when one
    contains the other's base address. *)

From S2P Require Import Prelude.
Local Open Scope Z_scope.

Abbreviation IP := (list Z).
Abbreviation IPMask := (list Z).

Definition IPv4len : nat := 4.
Definition IPv6len : nat := 16.

Record IPNet := { ipn_IP : IP; ipn_Mask : IPMask }.

(** ** Reading *)

(** [big] *)
Definition big : Z := 16777215.

Definition digit (c : ascii) : option Z :=
  let n := Z.of_nat (nat_of_ascii c) in
  if (48 <=? n) && (n <=? 57) then Some (n - 48) else None.

Definition hexdigit (c : ascii) : option Z :=
  let n := Z.of_nat (nat_of_ascii c) in
  if (48 <=? n) && (n <=? 57) then Some (n - 48)
  else if (97 <=? n) && (n <=? 102) then Some (n - 97 + 10)
  else if (65 <=? n) && (n <=? 70) then Some (n - 65 + 10)
  else None.

(** The loop [dtoi] and [xtoi] share: the value read, what is left of the
    input and the number of digits; [None] when the value reaches [big]. *)
Fixpoint toi (dig : ascii → option Z) (base n : Z) (i : nat) (s : string)
    : option (Z * string * nat) :=
  match s with
  | String c s' =>
      match dig c with
      | Some d =>
          let n' := n * base + d in
          if big <=? n' then None else toi dig base n' (S i) s'
      | None => Some (n, s, i)
      end
  | EmptyString => Some (n, s, i)
  end.

(** [dtoi]/[xtoi]: the number at the front of the input and the rest of it. *)
Definition number (dig : ascii → option Z) (base : Z) (s : string) : option (Z * string) :=
  match toi dig base 0 0 s with
  | Some (n, rest, S _) => Some (n, rest)
  | _ => None
  end.
Definition dtoi := number digit 10.
Definition xtoi := number hexdigit 16.

(** [IPv4(a, b, c, d)]: the 16-byte form. *)
Definition v4InV6Prefix : list Z := [0; 0; 0; 0; 0; 0; 0; 0; 0; 0; 255; 255].

(** [s[0] == c], and what follows. *)
Definition skip (c : ascii) (s : string) : option string :=
  match s with
  | String d s' => if decide (d = c) then Some s' else None
  | EmptyString => None
  end.

Fixpoint parseIPv4_from (first : bool) (k : nat) (s : string) : option (list Z) :=
  match k with
  | O => if decide (s = "") then Some [] else None
  | S k' =>
      match (if first then Some s else skip "." s) with
      | None => None
      | Some s =>
          match dtoi s with
          | Some (n, rest) =>
              if 255 <? n then None else (n ::.) <$> parseIPv4_from false k' rest
          | None => None
          end
      end
  end.

Definition parseIPv4 (s : string) : option IP :=
  (v4InV6Prefix ++.) <$> parseIPv4_from true IPv4len s.

(** The loop of [parseIPv6]: the bytes read so far, the position of the
    ellipsis and what is left of the input.  Each round reads two bytes or
    stops, so eight rounds are all there can be. *)
Fixpoint parseIPv6_loop (fuel : nat) (ip : IP) (ellipsis : option nat) (s : string)
    : option (IP * option nat * string) :=
  match fuel with
  | O => Some (ip, ellipsis, s)
  | S fuel' =>
      match xtoi s with
      | None => None
      | Some (n, rest) =>
          if 65535 <? n then None else
          match skip "." rest with
          | Some _ =>
              if is_nil ellipsis && negb (bool_decide (length ip = 12%nat)) then None
              else if bool_decide (12 < length ip)%nat then None
              else match parseIPv4 s with
                   | Some ip4 => Some (ip ++ drop 12 ip4, ellipsis, "")
                   | None => None
                   end
          | None =>
              let ip := ip ++ [Z.shiftr n 8; Z.land n 255] in
              if decide (rest = "") then Some (ip, ellipsis, "") else
              match skip ":" rest with
              | None | Some "" => None
              | Some s' =>
                  match skip ":" s' with
                  | None => parseIPv6_loop fuel' ip ellipsis s'
                  | Some s'' =>
                      if ellipsis then None
                      else if decide (s'' = "") then Some (ip, Some (length ip), "")
                      else parseIPv6_loop fuel' ip (Some (length ip)) s''
                  end
              end
          end
      end
  end.

Definition leading_ellipsis (s : string) : option nat * string :=
  match skip ":" s ≫= skip ":" with Some s' => (Some O, s') | None => (None, s) end.

Definition parseIPv6 (s : string) : option IP :=
  let '(ellipsis, s) := leading_ellipsis s in
  if bool_decide (s = "") && negb (is_nil ellipsis) then Some (replicate IPv6len 0) else
  match parseIPv6_loop 8 [] ellipsis s with
  | Some (ip, ellipsis, "") =>
      if bool_decide (length ip < IPv6len)%nat then
        match ellipsis with
        | None => None
        | Some e => Some (take e ip ++ replicate (IPv6len - length ip) 0 ++ drop e ip)
        end
      else match ellipsis with None => Some ip | Some _ => None end
  | _ => None
  end.

(** ** Masks *)

(** The mask byte that keeps the [n] highest bits: [^byte(0xff >> n)]. *)
Definition mask_byte (n : Z) : Z := Z.lxor 255 (Z.shiftr 255 n).

(** [CIDRMask(ones, 8*l)], for [0 <= ones <= 8*l]. *)
Fixpoint CIDRMask (ones : Z) (l : nat) : IPMask :=
  match l with
  | O => []
  | S l' =>
      if 8 <=? ones then 255 :: CIDRMask (ones - 8) l'
      else mask_byte ones :: CIDRMask 0 l'
  end.

Definition To4 (ip : IP) : option IP :=
  if bool_decide (length ip = IPv4len) then Some ip
  else if bool_decide (length ip = IPv6len) && bool_decide (take 12 ip = v4InV6Prefix)
  then Some (drop 12 ip) else None.

(** [byte & byte], pointwise. *)
Definition and_bytes (a b : list Z) : list Z := zip_with Z.land a b.

(** [ip.Mask(mask)] *)
Definition Mask (ip : IP) (mask : IPMask) : option IP :=
  let mask :=
    if bool_decide (length mask = IPv6len) && bool_decide (length ip = IPv4len)
       && bool_decide (take 12 mask = replicate 12 255)
    then drop 12 mask else mask in
  let ip :=
    if bool_decide (length mask = IPv4len) && bool_decide (length ip = IPv6len)
       && bool_decide (take 12 ip = v4InV6Prefix)
    then drop 12 ip else ip in
  if bool_decide (length ip = length mask) then Some (and_bytes ip mask) else None.

Fixpoint cut (sep : ascii) (s : string) : option (string * string) :=
  match s with
  | "" => None
  | String c s' =>
      if decide (c = sep) then Some ("", s')
      else match cut sep s' with Some (a, b) => Some (String c a, b) | None => None end
  end.

Definition ParseCIDR_error (s : string) : error := Errorf ("invalid CIDR address: " +:+ s).

(** [net.ParseCIDR(s)]; the network is what the callers use. *)
Definition ParseCIDR (s : string) : IPNet + error :=
  match cut "/" s with
  | None => inr (ParseCIDR_error s)
  | Some (addr, mask) =>
      let '(ip, iplen) :=
        match parseIPv4 addr with
        | Some ip => (Some ip, IPv4len)
        | None => (parseIPv6 addr, IPv6len)
        end in
      match ip, dtoi mask with
      | Some ip, Some (n, "") =>
          if n <=? 8 * Z.of_nat iplen then
            let m := CIDRMask n iplen in
            inl {| ipn_IP := default [] (Mask ip m); ipn_Mask := m |}
          else inr (ParseCIDR_error s)
      | _, _ => inr (ParseCIDR_error s)
      end
  end.

(** ** Comparing *)
Definition networkNumberAndMask (n : IPNet) : option (IP * IPMask) :=
  let ip := match To4 (ipn_IP n) with
            | Some ip => Some ip
            | None => if bool_decide (length (ipn_IP n) = IPv6len) then Some (ipn_IP n) else None
            end in
  match ip with
  | None => None
  | Some ip =>
      let m := ipn_Mask n in
      if bool_decide (length m = IPv4len) then
        if bool_decide (length ip = IPv4len) then Some (ip, m) else None
      else if bool_decide (length m = IPv6len) then
        if bool_decide (length ip = IPv4len) then Some (ip, drop 12 m) else Some (ip, m)
      else None
  end.

(** [n.Contains(ip)] *)
Definition Contains (n : IPNet) (ip : IP) : bool :=
  let ip := default ip (To4 ip) in
  match networkNumberAndMask n with
  | Some (nn, m) =>
      bool_decide (length ip = length nn) &&
      bool_decide (and_bytes nn m = and_bytes ip m)
  | None => bool_decide (length ip = 0%nat)
  end.

(** ** Printing *)
Definition hex_char (n : Z) : ascii :=
  ascii_of_nat (Z.to_nat (if n <? 10 then 48 + n else 87 + n)).

(** [appendHex]: no leading zeros. *)
Definition appendHex (n : Z) : string :=
  if n =? 0 then "0" else
  let ds := [Z.land (Z.shiftr n 12) 15; Z.land (Z.shiftr n 8) 15;
             Z.land (Z.shiftr n 4) 15; Z.land n 15] in
  string_of (map hex_char
    (match list_find (λ d, d ≠ 0) ds with Some (i, _) => drop i ds | None => [] end)).

Fixpoint pairs (l : list Z) : list Z :=
  match l with a :: b :: l' => (a * 256 + b) :: pairs l' | _ => [] end.

Fixpoint zero_run (l : list Z) : nat :=
  match l with 0 :: l' => S (zero_run l') | _ => O end.

(** The first longest run of zero groups: its start and length. *)
Fixpoint longest_run (i : nat) (l : list Z) (best : nat * nat) : nat * nat :=
  match l with
  | [] => best
  | g :: l' =>
      let r := zero_run l in
      longest_run (S i) l' (if bool_decide (best.2 < r)%nat then (i, r) else best)
  end.

Definition hexString (b : list Z) : string :=
  string_of (concat (map (λ x, [hex_char (Z.shiftr x 4); hex_char (Z.land x 15)]) b)).

Definition IP_String (ip : IP) : string :=
  if bool_decide (length ip = 0%nat) then "<nil>" else
  match To4 ip with
  | Some p4 => Join (map fmt_d p4) "."
  | None =>
      if negb (bool_decide (length ip = IPv6len)) then "?" +:+ hexString ip else
      let gs := pairs ip in
      let '(e0, len) := longest_run 0 gs (O, O) in
      if bool_decide (len <= 1)%nat then Join (map appendHex gs) ":"
      else Join (map appendHex (take e0 gs)) ":" +:+ "::" +:+
           Join (map appendHex (drop (e0 + len) gs)) ":"
  end.

(** The number of leading ones of a mask that is ones then zeros. *)
Definition simpleMaskLength (m : IPMask) : option Z :=
  match list_find (λ n, CIDRMask (Z.of_nat n) (length m) = m) (seq 0 (8 * length m + 1)) with
  | Some (i, _) => Some (Z.of_nat i)
  | None => None
  end.

Definition IPNet_String (n : IPNet) : string :=
  match networkNumberAndMask n with
  | None => "<nil>"
  | Some (nn, m) =>
      match simpleMaskLength m with
      | None => IP_String nn +:+ "/" +:+ hexString m
      | Some l => IP_String nn +:+ "/" +:+ fmt_d l
      end
  end.

Example ParseCIDR_v4 :
  ParseCIDR "10.99.3.7/16" = inl {| ipn_IP := [10; 99; 0; 0]; ipn_Mask := [255; 255; 0; 0] |}.
Proof. vm_compute. reflexivity. Qed.
Example ParseCIDR_v6 :
  match ParseCIDR "2001:db8::ff00:42:8329/33" with inl n => IPNet_String n | inr _ => "" end
  = "2001:db8::/33".
Proof. vm_compute. reflexivity. Qed.
Example ParseCIDR_bad :
  map (λ s, match ParseCIDR s with inl n => IPNet_String n | inr _ => "-" end)
    ["10.0.0.0"; "10.0.0.256/8"; "10.0.0/8"; "10.0.0.0/33"; "::/129"; "1:2:3/4"; "10.0.0.0/";
     "::ffff:10.1.2.3/104"; "1:2:3:4:5:6:7:8/128"; "1::2::3/8"; "1:0:0:4:0:0:7:8/128"]
  = ["-"; "-"; "-"; "-"; "-"; "-"; "-"; "10.0.0.0/8"; "1:2:3:4:5:6:7:8/128"; "-";
     "1::4:0:0:7:8/128"].
Proof. vm_compute. reflexivity. Qed.

(** ** Lemmas *)

Lemma length_CIDRMask k l : length (CIDRMask k l) = l.
Proof. revert k. induction l as [|l IH]; intros k; simpl; [done|]. case_match; simpl; auto. Qed.

Lemma drop_CIDRMask j k l :
  0 <= k → drop j (CIDRMask k (j + l)) = CIDRMask (Z.max 0 (k - 8 * Z.of_nat j)) l.
Proof.
  revert k. induction j as [|j IH]; intros k Hk.
  - rewrite drop_0. f_equal. lia.
  - simpl. case_match; simpl; go_bool; rewrite IH by lia; f_equal; lia.
Qed.

(** Keeping fewer bits of what keeps more. *)
Lemma mask_byte_le a b :
  0 <= a < 8 → 0 <= b < 8 → a <= b → Z.land (mask_byte b) (mask_byte a) = mask_byte a.
Proof.
  intros Ha Hb Hab.
  assert (Hcase : ∀ z, 0 <= z < 8 → z = 0 ∨ z = 1 ∨ z = 2 ∨ z = 3 ∨ z = 4 ∨ z = 5 ∨ z = 6 ∨ z = 7)
    by lia.
  apply Hcase in Ha, Hb.
  destruct_or!; subst; first [reflexivity | lia].
Qed.

Lemma CIDRMask_le a b l :
  0 <= a <= b → and_bytes (CIDRMask b l) (CIDRMask a l) = CIDRMask a l.
Proof.
  revert a b. induction l as [|l IH]; intros a b H; simpl; [done|].
  destruct (Z.leb_spec 8 a) as [Ha|Ha]; destruct (Z.leb_spec 8 b) as [Hb|Hb];
    unfold and_bytes in *; simpl; try lia.
  - by rewrite IH by lia.
  - rewrite IH by lia. f_equal.
    assert (a = 0 ∨ a = 1 ∨ a = 2 ∨ a = 3 ∨ a = 4 ∨ a = 5 ∨ a = 6 ∨ a = 7) by lia.
    destruct_or!; subst; reflexivity.
  - rewrite IH by lia. by rewrite mask_byte_le by lia.
Qed.

Lemma length_and_bytes a b : length (and_bytes a b) = Nat.min (length a) (length b).
Proof. apply length_zip_with. Qed.

Lemma and_bytes_assoc a b c : and_bytes (and_bytes a b) c = and_bytes a (and_bytes b c).
Proof.
  unfold and_bytes. revert b c. induction a as [|x a IH]; intros [|y b] [|z c]; simpl; try done.
  by rewrite Z.land_assoc, IH.
Qed.

(** The address a network compares with: 4-byte where it can be. *)
Definition norm (ip : IP) : IP := default ip (To4 ip).

(** What [ParseCIDR] builds: a base address and a mask of its length that
    keeps the first [k] bits. *)
Definition prefix_net (n : IPNet) (k : Z) : Prop :=
  0 <= k ∧ networkNumberAndMask n = Some (norm (ipn_IP n), CIDRMask k (length (norm (ipn_IP n)))).

Lemma Contains_norm n k x :
  prefix_net n k →
  Contains n x = true ↔
    length (norm x) = length (norm (ipn_IP n)) ∧
    and_bytes (norm (ipn_IP n)) (CIDRMask k (length (norm x))) =
    and_bytes (norm x) (CIDRMask k (length (norm x))).
Proof.
  intros [Hk Hn]. unfold Contains. fold (norm x). rewrite Hn, andb_true_iff, !bool_decide_eq_true.
  split; intros [Hl H]; split; try done; by rewrite <- ?Hl in *.
Qed.

Lemma Contains_self n k : prefix_net n k → Contains n (ipn_IP n) = true.
Proof. intros H. by rewrite (Contains_norm n k). Qed.

(** A network with fewer bits contains the base address of any network it
    shares an address with. *)
Lemma Contains_shared a ka b kb x :
  prefix_net a ka → prefix_net b kb → ka <= kb →
  Contains a x = true → Contains b x = true → Contains a (ipn_IP b) = true.
Proof.
  intros Ha Hb Hle Hax Hbx. pose proof (proj1 Ha). pose proof (proj1 Hb).
  rewrite (Contains_norm a ka) in Hax |- * by done. rewrite (Contains_norm b kb) in Hbx by done.
  destruct Hax as [Hla Hax], Hbx as [Hlb Hbx]. rewrite <- Hlb, <- Hla in *. split; [done|].
  rewrite Hax. pose proof (CIDRMask_le ka kb (length (norm x)) ltac:(lia)) as Hm.
  rewrite <- Hm at 1 2. by rewrite <- !and_bytes_assoc, <- Hbx.
Qed.

Lemma Contains_overlap a ka b kb :
  prefix_net a ka → prefix_net b kb →
  Contains a (ipn_IP b) || Contains b (ipn_IP a) = true ↔
  ∃ x, Contains a x = true ∧ Contains b x = true.
Proof.
  intros Ha Hb. rewrite orb_true_iff. split.
  - intros [H|H]; eexists; split; try exact H; by eapply Contains_self.
  - intros (x & Hx & Hy). destruct (Z.le_ge_cases ka kb).
    + left. by apply (Contains_shared a ka b kb x).
    + right. by apply (Contains_shared b kb a ka x).
Qed.

Lemma parseIPv4_from_length first k s l : parseIPv4_from first k s = Some l → length l = k.
Proof.
  revert first s l. induction k as [|k IH]; intros first s l; cbn [parseIPv4_from]; [intros; by go_cases|].
  destruct (if first then _ else _) as [s'|]; [|done].
  destruct (dtoi s') as [[n rest]|]; [|done]. case_match; [done|].
  intros (l' & Hl' & ->)%fmap_Some. simpl. f_equal. by eapply IH.
Qed.

Lemma parseIPv4_length s ip :
  parseIPv4 s = Some ip → ∃ l, ip = v4InV6Prefix ++ l ∧ length l = 4%nat.
Proof.
  unfold parseIPv4. intros (l & Hl & ->)%fmap_Some. exists l. split; [done|].
  by eapply parseIPv4_from_length.
Qed.

Lemma parseIPv6_loop_length fuel ip e s r :
  parseIPv6_loop fuel ip e s = Some r → (length ip + 2 * fuel = 16)%nat →
  (length r.1.1 <= 16)%nat.
Proof.
  revert ip e s. induction fuel as [|fuel IH]; intros ip e s; cbn [parseIPv6_loop].
  - intros; simplify_eq/=. lia.
  - intros Hr Hlen.
    repeat (case_match; try discriminate Hr);
      first [ eapply IH; [exact Hr | rewrite length_app; simpl; lia]
            | simplify_eq/=; rewrite length_app; simpl; lia
            | go_bool; simplify_eq/=;
              match goal with H : parseIPv4 _ = Some _ |- _ =>
                apply parseIPv4_length in H as (? & -> & ?) end;
              rewrite length_app, drop_app_length'; simpl; lia ].
Qed.

Lemma parseIPv6_length s ip : parseIPv6 s = Some ip → length ip = 16%nat.
Proof.
  unfold parseIPv6. destruct (leading_ellipsis s) as [e0 s0].
  case_match; [by intros; simplify_eq|].
  destruct (parseIPv6_loop 8 [] e0 s0) as [[[ip' e] rest]|] eqn:Hl; [|done].
  apply parseIPv6_loop_length in Hl; [|done]. simpl in Hl.
  destruct rest; [|done]. unfold IPv6len.
  destruct (bool_decide_reflect (length ip' < 16)%nat), e; intros; simplify_eq; [|lia].
  rewrite !length_app, length_replicate, length_take, length_drop. lia.
Qed.

Lemma toi_nonneg dig base n i s r :
  (∀ c d, dig c = Some d → 0 <= d) → 0 <= base → 0 <= n →
  toi dig base n i s = Some r → 0 <= r.1.1.
Proof.
  intros Hd Hb. revert n i. induction s as [|c s IH]; intros n i Hn; simpl.
  - intros; by simplify_eq.
  - destruct (dig c) eqn:E; [|by intros; simplify_eq].
    case_match; [done|]. apply IH. apply Hd in E. nia.
Qed.

Lemma dtoi_nonneg s n rest : dtoi s = Some (n, rest) → 0 <= n.
Proof.
  unfold dtoi, number. intros H. case_match eqn:E; [|done]. destruct p as [[n' ?] []]; simplify_eq.
  apply toi_nonneg in E; [done| |lia|lia]. unfold digit. intros c d. case_match; go_bool; naive_solver lia.
Qed.

(** Decide the closed length tests the hypotheses leave. *)
Ltac length_tests :=
  change (bool_decide (16%nat = IPv4len)) with false;
  change (bool_decide (16%nat = IPv6len)) with true;
  change (bool_decide (4%nat = IPv4len)) with true;
  cbv beta iota; cbn [andb].

Lemma Mask_v4 l m : length l = 4%nat → length m = 4%nat →
  Mask (v4InV6Prefix ++ l) m = Some (and_bytes l m).
Proof.
  intros Hl Hm.
  destruct l as [|? [|? [|? [|? [|]]]]]; try discriminate Hl.
  destruct m as [|? [|? [|? [|? [|]]]]]; try discriminate Hm. reflexivity.
Qed.

Lemma Mask_v6 ip m : length ip = 16%nat → length m = 16%nat → Mask ip m = Some (and_bytes ip m).
Proof.
  intros Hl Hm. unfold Mask. rewrite Hm, Hl. length_tests. by rewrite Hm, bool_decide_true by done.
Qed.

(** Every network the parser accepts has a prefix mask. *)
Lemma ParseCIDR_prefix s n : ParseCIDR s = inl n → ∃ k, prefix_net n k.
Proof.
  unfold ParseCIDR. destruct (cut "/" s) as [[addr mask]|]; [|done].
  destruct (parseIPv4 addr) as [ip|] eqn:E4.
  - apply parseIPv4_length in E4 as (l & -> & Hl).
    destruct (dtoi mask) as [[k rest]|] eqn:Ek; [|done]. apply dtoi_nonneg in Ek.
    destruct rest; [|done]. case_match; [|done]. intros; simplify_eq.
    exists k.
    assert (Hm : length (CIDRMask k IPv4len) = 4%nat) by apply length_CIDRMask.
    assert (Ha : length (and_bytes l (CIDRMask k IPv4len)) = 4%nat)
      by (rewrite length_and_bytes; lia).
    assert (HT : To4 (and_bytes l (CIDRMask k IPv4len)) = Some (and_bytes l (CIDRMask k IPv4len)))
      by (unfold To4; by rewrite bool_decide_true).
    rewrite (Mask_v4 l) by done. unfold prefix_net, norm, networkNumberAndMask.
    cbn [ipn_IP ipn_Mask default from_option id]. rewrite HT. cbn [from_option id].
    by rewrite Hm, Ha.
  - destruct (parseIPv6 addr) as [ip|] eqn:E6; [|done]. apply parseIPv6_length in E6.
    destruct (dtoi mask) as [[k rest]|] eqn:Ek; [|done]. apply dtoi_nonneg in Ek.
    destruct rest; [|done]. case_match; [|done]. intros; simplify_eq.
    assert (Hm : length (CIDRMask k IPv6len) = 16%nat) by apply length_CIDRMask.
    rewrite (Mask_v6 ip) by done. set (b := and_bytes ip (CIDRMask k IPv6len)).
    assert (Ha : length b = 16%nat) by (unfold b; rewrite length_and_bytes; lia).
    unfold prefix_net, norm, networkNumberAndMask. cbn [ipn_IP ipn_Mask default from_option id].
    destruct (To4 b) as [b4|] eqn:HT; cbn [from_option id].
    + assert (length b4 = 4%nat) as H4.
      { unfold To4 in HT. rewrite Ha in HT. simpl in HT. case_match; [|done]. simplify_eq.
        rewrite length_drop. lia. }
      exists (Z.max 0 (k - 96)). split; [lia|]. rewrite Hm, H4. length_tests.
      f_equal. f_equal. by apply (drop_CIDRMask 12 k 4).
    + exists k. split; [done|]. rewrite Ha, Hm. length_tests. rewrite Ha. by length_tests.
Qed.
