(* ===== verification/Utils.v ===== *)
(** * Utils: slices, maps and networks

    [src/pkg/tarmak/utils/slices.go], [maps.go] and [networks.go]: the
    helpers the other packages share.  The maps ranged over go through
    [MapRange], so what is proved holds for every iteration order. *)

From S2P Require Import Prelude Net.

(** ** slices.go *)

(** The loop of [RemoveDuplicateStrings] and [RemoveDuplicateInts]: the
    result so far and the keys of [seen]. *)
Fixpoint RemoveDuplicates_loop {A} `{Countable A} (l : list A) (result : list A) (seen : gset A)
    : list A :=
  match l with
  | [] => result
  | str :: l' =>
      if decide (str ∈ seen) then RemoveDuplicates_loop l' result seen
      else RemoveDuplicates_loop l' (result ++ [str]) ({[str]} ∪ seen)
  end.

Definition RemoveDuplicateStrings (l : list string) : list string :=
  RemoveDuplicates_loop l [] ∅.

Definition RemoveDuplicateInts (l : list Z) : list Z := RemoveDuplicates_loop l [] ∅.

Fixpoint SliceContains (l : list string) (str : string) : bool :=
  match l with
  | [] => false
  | s :: l' => if decide (s = str) then true else SliceContains l' str
  end.

Fixpoint IndexOfString_from (i : Z) (l : list string) (str : string) : Z :=
  match l with
  | [] => -1
  | s :: l' => if decide (s = str) then i else IndexOfString_from (i + 1) l' str
  end.

Definition IndexOfString : list string → string → Z := IndexOfString_from 0.

Fixpoint SliceContainsPrefix (l : list string) (prefix : string) : bool :=
  match l with
  | [] => false
  | s :: l' => if HasPrefix s prefix then true else SliceContainsPrefix l' prefix
  end.

(** ** maps.go *)
Section maps.
Context `{MapRange}.

(** [for key, value := range vars { base[key] = value }] *)
Definition assign_all {A} (base vars : gmap string A) : gmap string A :=
  foldl (λ b kv, <[kv.1 := kv.2]> b) base (range vars).

(** [MergeMaps] and [MergeMapsBool]; [base] is updated in place and
    returned. *)
Definition MergeMaps {A} (base : gmap string A) (m : list (gmap string A)) : gmap string A :=
  foldl assign_all base m.

Definition DuplicateMapBool (base : gmap string bool) : gmap string bool := assign_all ∅ base.
End maps.

(** A [map[string]bool] used as a set: [for _, k := range l { m[k] = true }]. *)
Definition keyset (l : list string) : gmap string bool := foldl (λ m k, <[k := true]> m) ∅ l.

(** [for k := range m] *)
Definition keys `{MapRange} {A} (m : gmap string A) : list string := (range m).*1.

(** ** networks.go *)

(** One round of the inner loop of [NetworkOverlap]. *)
Definition overlap_step (a : IPNet) (result : option error) (b : IPNet) : option error :=
  if Net.Contains a (ipn_IP b) || Net.Contains b (ipn_IP a) then
    Append result (Some (Errorf
      ("network '" +:+ IPNet_String a +:+ "' overlaps with '" +:+ IPNet_String b +:+ "'")))
  else result.

Fixpoint NetworkOverlap_loop (netCIDRs : list IPNet) (result : option error) : option error :=
  match netCIDRs with
  | [] => result
  | a :: rest => NetworkOverlap_loop rest (foldl (overlap_step a) result rest)
  end.

Definition NetworkOverlap (netCIDRs : list IPNet) : option error :=
  NetworkOverlap_loop netCIDRs None.

(** ** Lemmas on slices *)
Section remove_duplicates.
Context {A : Type} `{Countable A}.
Implicit Types (l r : list A) (s : gset A).

(** What the loop appends: the elements not seen yet, first occurrences
    only. *)
Fixpoint firsts l s : list A :=
  match l with
  | [] => []
  | x :: l' => if decide (x ∈ s) then firsts l' s else x :: firsts l' ({[x]} ∪ s)
  end.

Lemma RemoveDuplicates_loop_firsts l r s : RemoveDuplicates_loop l r s = r ++ firsts l s.
Proof.
  revert r s. induction l as [|x l IH]; intros r s; simpl; [by rewrite app_nil_r|].
  case_decide; rewrite IH; [done|]. by rewrite <- app_assoc.
Qed.

Lemma elem_of_firsts l s x : x ∈ firsts l s ↔ x ∈ l ∧ x ∉ s.
Proof.
  revert s. induction l as [|y l IH]; intros s; simpl; [set_solver|].
  case_decide; rewrite ?elem_of_cons, IH; [set_solver|].
  destruct (decide (x = y)); set_solver.
Qed.

Lemma NoDup_firsts l s : NoDup (firsts l s).
Proof.
  revert s. induction l as [|x l IH]; intros s; simpl; [constructor|].
  case_decide; [done|]. constructor; [|done]. rewrite elem_of_firsts. set_solver.
Qed.

Lemma sublist_firsts l s : firsts l s `sublist_of` l.
Proof.
  revert s. induction l as [|x l IH]; intros s; simpl; [constructor|].
  case_decide; by constructor.
Qed.

Lemma firsts_app l1 l2 s :
  firsts (l1 ++ l2) s = firsts l1 s ++ firsts l2 (list_to_set l1 ∪ s).
Proof.
  revert s. induction l1 as [|x l IH]; intros s; simpl.
  - f_equal. set_solver.
  - case_decide; simpl; rewrite IH; f_equal; [f_equal; set_solver|].
    do 2 f_equal. set_solver.
Qed.

Lemma firsts_filter l s t : firsts l (t ∪ s) = filter (.∉ t) (firsts l s).
Proof.
  revert s. induction l as [|x l IH]; intros s; simpl; [done|].
  destruct (decide (x ∈ s)) as [Hs|Hs].
  - rewrite decide_True by set_solver. apply IH.
  - rewrite filter_cons. destruct (decide (x ∈ t)) as [Ht|Ht].
    + rewrite decide_True, decide_False by set_solver.
      rewrite <- IH. f_equal. set_solver.
    + rewrite decide_False, decide_True by set_solver. f_equal.
      rewrite <- IH. f_equal. set_solver.
Qed.

Lemma firsts_NoDup l s : NoDup l → (∀ x, x ∈ l → x ∉ s) → firsts l s = l.
Proof.
  intros Hl. revert s. induction Hl as [|x l Hx Hl IH]; intros s Hs; simpl; [done|].
  rewrite decide_False by set_solver. rewrite IH; [done|]. set_solver.
Qed.
End remove_duplicates.

Lemma RemoveDuplicateStrings_firsts l : RemoveDuplicateStrings l = firsts l ∅.
Proof. unfold RemoveDuplicateStrings. by rewrite RemoveDuplicates_loop_firsts. Qed.

Lemma SliceContains_true l s : SliceContains l s = true ↔ s ∈ l.
Proof.
  induction l as [|x l IH]; simpl; [set_solver|]. case_decide; set_solver.
Qed.

Lemma IndexOfString_from_spec i l s :
  (s ∉ l ∧ IndexOfString_from i l s = -1)%Z ∨
  ∃ k, IndexOfString_from i l s = (i + Z.of_nat k)%Z ∧ l !! k = Some s ∧ s ∉ take k l.
Proof.
  revert i. induction l as [|x l IH]; intros i; simpl; [set_solver|]. case_decide; subst.
  - right. exists 0. split_and!; [lia|done|]. rewrite take_0. set_solver.
  - destruct (IH (i + 1)%Z) as [[? ->]|(k & -> & Hk & Hn)]; [set_solver|].
    right. exists (S k). split_and!; [lia|done|]. simpl. set_solver.
Qed.

(** ** Lemmas on maps *)
Section map_lemmas.
Context `{MapRange} {A : Type}.
Implicit Types m base : gmap string A.

Lemma foldl_insert (l : list (string * A)) base k :
  NoDup l.*1 →
  foldl (λ b kv, <[kv.1 := kv.2]> b) base l !! k =
    match (list_to_map l : gmap string A) !! k with Some v => Some v | None => base !! k end.
Proof.
  revert base. induction l as [|[k' v'] l IH]; intros base Hl; simpl; [by rewrite lookup_empty|].
  apply NoDup_cons in Hl as [Hk Hl]. rewrite IH by done. simpl.
  destruct (decide (k = k')) as [->|].
  - rewrite not_elem_of_list_to_map_1 by done. by rewrite !lookup_insert_eq.
  - by rewrite !lookup_insert_ne.
Qed.

Lemma assign_all_union base m : assign_all base m = m ∪ base.
Proof.
  apply map_eq. intros k. unfold assign_all.
  rewrite foldl_insert by apply range_NoDup_fst. rewrite lookup_union.
  assert ((list_to_map (range m) : gmap string A) = m) as ->.
  { rewrite <- (list_to_map_to_list m) at 2. apply list_to_map_proper.
    - apply range_NoDup_fst.
    - apply range_perm. }
  by destruct (m !! k), (base !! k).
Qed.

(** Later maps win, whatever order each map is ranged in. *)
Lemma MergeMaps_union base ms : MergeMaps base ms = foldl (λ b m, m ∪ b) base ms.
Proof.
  unfold MergeMaps. revert base. induction ms as [|m ms IH]; intros base; [done|].
  cbn [foldl]. by rewrite IH, assign_all_union.
Qed.
End map_lemmas.

Lemma DuplicateMapBool_id `{MapRange} (m : gmap string bool) : DuplicateMapBool m = m.
Proof. unfold DuplicateMapBool. rewrite assign_all_union. apply map_union_empty. Qed.

Lemma keyset_lookup_from l (m : gmap string bool) k :
  foldl (λ m k, <[k := true]> m) m l !! k = if decide (k ∈ l) then Some true else m !! k.
Proof.
  revert m. induction l as [|x l IH]; intros m; simpl; [done|]. rewrite IH.
  repeat case_decide; try set_solver.
  - assert (k = x) as -> by set_solver. apply lookup_insert_eq.
  - apply lookup_insert_ne. set_solver.
Qed.

Lemma keyset_lookup l k : keyset l !! k = if decide (k ∈ l) then Some true else None.
Proof. unfold keyset. by rewrite keyset_lookup_from, lookup_empty. Qed.

Lemma keys_elem `{MapRange} {A} (m : gmap string A) k : k ∈ keys m ↔ is_Some (m !! k).
Proof.
  unfold keys. rewrite list_elem_of_fmap. split.
  - intros ([k' v] & -> & Hin%range_elem). by exists v.
  - intros [v Hv]. exists (k, v). by rewrite range_elem.
Qed.

Lemma keys_NoDup `{MapRange} {A} (m : gmap string A) : NoDup (keys m).
Proof. apply range_NoDup_fst. Qed.

Lemma keys_keyset `{MapRange} l k : k ∈ keys (keyset l) ↔ k ∈ l.
Proof.
  rewrite keys_elem, keyset_lookup. case_decide; [naive_solver|].
  split; [by intros [? ?]|done].
Qed.

(** The keys are the same up to their order in every run. *)
Lemma keys_perm (R1 R2 : MapRange) {A} (m : gmap string A) :
  keys (H := R1) m ≡ₚ keys (H := R2) m.
Proof. unfold keys. by rewrite (range_any R1 R2). Qed.

(** ** Lemmas on networks *)

(** Two networks with no address in common. *)
Definition disjoint_nets (a b : IPNet) : Prop :=
  ∀ x, Net.Contains a x = true → Net.Contains b x = true → False.

Lemma overlap_step_None a r b :
  overlap_step a r b = None ↔
  r = None ∧ Net.Contains a (ipn_IP b) || Net.Contains b (ipn_IP a) = false.
Proof. unfold overlap_step, Append. case_match; naive_solver. Qed.

Lemma overlap_inner_None a r l :
  foldl (overlap_step a) r l = None ↔
  r = None ∧ Forall (λ b, Net.Contains a (ipn_IP b) || Net.Contains b (ipn_IP a) = false) l.
Proof.
  revert r. induction l as [|b l IH]; intros r; simpl; [naive_solver|].
  rewrite IH, overlap_step_None, Forall_cons. tauto.
Qed.

Lemma NetworkOverlap_loop_None l r :
  NetworkOverlap_loop l r = None ↔
  r = None ∧ ForallOrdPairs
    (λ a b, Net.Contains a (ipn_IP b) || Net.Contains b (ipn_IP a) = false) l.
Proof.
  revert r. induction l as [|a l IH]; intros r; simpl.
  - split; [intros ->; by repeat constructor|tauto].
  - rewrite IH, overlap_inner_None. split.
    + intros [[-> ?] ?]. split; [done|]. by constructor.
    + intros [-> Hp]. inversion Hp; subst. split_and!; try done.
Qed.

Lemma disjoint_nets_iff a ka b kb :
  prefix_net a ka → prefix_net b kb →
  Net.Contains a (ipn_IP b) || Net.Contains b (ipn_IP a) = false ↔ disjoint_nets a b.
Proof.
  intros Ha Hb. rewrite <- not_true_iff_false, (Contains_overlap a ka b kb) by done.
  unfold disjoint_nets. naive_solver.
Qed.

(** [NetworkOverlap] accepts exactly the lists of pairwise disjoint networks. *)
Lemma NetworkOverlap_disjoint l :
  Forall (λ n, ∃ k, prefix_net n k) l →
  NetworkOverlap l = None ↔ ForallOrdPairs disjoint_nets l.
Proof.
  intros Hl. unfold NetworkOverlap. rewrite NetworkOverlap_loop_None.
  transitivity (ForallOrdPairs
    (λ a b, Net.Contains a (ipn_IP b) || Net.Contains b (ipn_IP a) = false) l); [tauto|].
  induction Hl as [|a l [ka Ha] Hl IH]; [split; constructor|].
  split; intros Hp; inversion Hp as [|? ? Hh Ht]; subst; (constructor; [|by apply IH]).
  all: rewrite Forall_forall in Hl, Hh |- *; intros b Hb;
    destruct (Hl b Hb) as [kb ?]; by eapply disjoint_nets_iff; eauto.
Qed.

(** ** Properties *)

(** [RemoveDuplicateStrings] returns each string of its input once, and
    nothing else, as a subsequence of the input; the order is that of first
    occurrences (a longer input appends the strings not met yet), so running
    it again changes nothing. *)
Theorem RemoveDuplicateStrings_correct l :
  NoDup (RemoveDuplicateStrings l) ∧
  (∀ x, x ∈ RemoveDuplicateStrings l ↔ x ∈ l) ∧
  RemoveDuplicateStrings l `sublist_of` l ∧
  (∀ l', RemoveDuplicateStrings (l ++ l') =
         RemoveDuplicateStrings l ++ filter (.∉ l) (RemoveDuplicateStrings l')) ∧
  RemoveDuplicateStrings (RemoveDuplicateStrings l) = RemoveDuplicateStrings l.
Proof.
  rewrite !RemoveDuplicateStrings_firsts. split_and!.
  - apply NoDup_firsts.
  - intros x. rewrite elem_of_firsts. set_solver.
  - apply sublist_firsts.
  - intros l'. rewrite !RemoveDuplicateStrings_firsts, firsts_app. f_equal.
    rewrite firsts_filter. apply list_filter_iff. set_solver.
  - apply firsts_NoDup; [apply NoDup_firsts | set_solver].
Qed.

(** C34: on networks read by [net.ParseCIDR], [NetworkOverlap] returns no
    error exactly when no two of them have an address in common. *)
Theorem NetworkOverlap_correct ss nets :
  Forall2 (λ s n, ParseCIDR s = inl n) ss nets →
  NetworkOverlap nets = None ↔ ForallOrdPairs disjoint_nets nets.
Proof.
  intros H. apply NetworkOverlap_disjoint.
  induction H as [|s n ss nets Hn _ IH]; constructor; [|done].
  by eapply ParseCIDR_prefix.
Qed.

Lemma NetworkOverlap_correct_witness :
  let nets := [ {| ipn_IP := [10; 99; 0; 0]; ipn_Mask := [255; 255; 0; 0] |};
                {| ipn_IP := [10; 98; 0; 0]; ipn_Mask := [255; 255; 0; 0] |} ]%Z in
  ForallOrdPairs disjoint_nets nets.
Proof.
  intros nets.
  apply (NetworkOverlap_correct ["10.99.0.0/16"; "10.98.0.0/16"] nets).
  - repeat constructor.
  - reflexivity.
Defined.
