(* ===== verification/Versions.v ===== *)
(** * Versions: the version of the program

    [src/pkg/version/version.go] (the version of the program without what a
    build adds to it, and the last release of an older minor version) and
    [verifyTerraformBinaryVersion] and [Shell] of [src/pkg/tarmak/cmd.go].

    Semantic versions are those of [src/vendor/github.com/blang/semver]: a
    record with the comparison [Compare]; how a text is parsed and printed
    ([Make] and [String] there) is an argument. *)

From S2P Require Import Prelude Utils.

(** ** Semantic versions *)
Record PRVersion := { VersionStr : string; VersionNum : N; IsNum : bool }.
Record Version := { v_Major : N; v_Minor : N; v_Patch : N; v_Pre : list PRVersion; v_Build : list string }.

Definition PR_Compare (v o : PRVersion) : comparison :=
  match IsNum v, IsNum o with
  | true, false => Lt
  | false, true => Gt
  | true, true => (VersionNum v ?= VersionNum o)%N
  | false, false => String.compare (VersionStr v) (VersionStr o)
  end.

Fixpoint Pre_Compare (v o : list PRVersion) : comparison :=
  match v, o with
  | [], [] => Eq
  | [], _ => Lt
  | _, [] => Gt
  | p :: v', q :: o' => match PR_Compare p q with Eq => Pre_Compare v' o' | c => c end
  end.

(** The next comparison decides when this one does not. *)
Definition then_compare (c d : comparison) : comparison := match c with Eq => d | _ => c end.

Definition Compare (v o : Version) : comparison :=
  then_compare (v_Major v ?= v_Major o)%N
  (then_compare (v_Minor v ?= v_Minor o)%N
  (then_compare (v_Patch v ?= v_Patch o)%N
  match v_Pre v, v_Pre o with
  | [], [] => Eq
  | [], _ => Gt
  | _, [] => Lt
  | p, q => Pre_Compare p q
  end)).

Definition GT (v o : Version) : bool := match Compare v o with Gt => true | _ => false end.
Definition LT (v o : Version) : bool := match Compare v o with Lt => true | _ => false end.

(** [v] does not come after [o]. *)
Definition not_after (v o : Version) : Prop := LT o v = false.
#[global] Instance not_after_dec v o : Decision (not_after v o) := decide (LT o v = false).

Definition release (major minor patch : N) : Version :=
  {| v_Major := major; v_Minor := minor; v_Patch := patch; v_Pre := []; v_Build := [] |}.

(** ** The version of the program *)

Definition pre_release (s : string) : bool := Contains s "alpha" || Contains s "beta" || Contains s "rc".

(** The loop over the parts of the version. *)
Fixpoint clean_parts (parts : list string) : list string :=
  match parts with
  | [] => []
  | s :: parts' =>
      if pre_release s then take 1 (Split "." s)
      else if HasPrefix s "dirty" then []
      else s :: clean_parts parts'
  end.

Definition CleanVersion (gitVersion gitMinor : string) : string :=
  if HasSuffix gitMinor "+" then Join (clean_parts (Split "-" gitVersion)) "-" else gitVersion.

Section versions.
Context (Make : string → Version + error).

Definition older (current v last : Version) : bool :=
  GT v last && bool_decide (v_Pre v = []) && (v_Minor v <? v_Minor current)%N.

(** [sort.Sort] with [Less]. *)
Definition sorted_versions (versions : list Version) : list Version := merge_sort not_after versions.

(** The version that is returned as text. *)
Definition lastVersionFromVersions (cleanVersion : string) (versions : list Version) : Version + error :=
  match versions with
  | [] => inr (Errorf "no versions found in tarmak releases https://api.github.com/repos/jetstack/tarmak/releases")
  | _ =>
      match Make cleanVersion with
      | inr err => inr (Errorf ("failed to parse current version " +:+ cleanVersion +:+ ": " +:+ error_string err))
      | inl currVersion =>
          match Make "0.0.0" with
          | inr err => inr err
          | inl lastVersion => inl (foldl (λ last v, if older currVersion v last then v else last) lastVersion (sorted_versions versions))
          end
      end
  end.

Fixpoint parse_tags (tags : list string) : list Version + error :=
  match tags with
  | [] => inl []
  | t :: tags' =>
      match Make t with
      | inr err => inr (Errorf ("failed to parse release tag: " +:+ error_string err))
      | inl v => match parse_tags tags' with inr err => inr err | inl vs => inl (v :: vs) end
      end
  end.

(** The tags of the releases, as GitHub answers. *)
Definition LastVersion (cleanVersion : string) (tags : list string + error) : Version + error :=
  match tags with
  | inr err => inr err
  | inl tags => match parse_tags tags with inr err => inr err | inl vs => lastVersionFromVersions cleanVersion vs end
  end.

(** ** The version of Terraform *)
Definition TrimPrefix (s prefix : string) : string :=
  if HasPrefix s prefix then String.substring (String.length prefix) (String.length s - String.length prefix) s else s.

(** [reader.ReadLine] on the output: the first line, without its end; an error
    at the end of the output. *)
Definition ReadLine (output : string) : option string :=
  match Split (Ascii.ascii_of_nat 10) output with
  | [] => None
  | [line] => if decide (line = "") then None else Some line
  | line :: _ => Some (if HasSuffix line (String "013" "") then String.substring 0 (String.length line - 1) line else line)
  end.

Definition verifyTerraformBinaryVersion (run : string + error) (terraformVendoredVersion : string) : option error :=
  match run with
  | inr err => Some (Errorf ("failed to run 'terraform version': " +:+ error_string err
                             +:+ ". Please make sure that Terraform is installed"))
  | inl output =>
      match ReadLine output with
      | None => Some (Errorf "failed to read 'terraform version' output: EOF")
      | Some versionLine =>
          let terraformBinaryVersion := TrimPrefix versionLine "Terraform v" in
          match Make terraformBinaryVersion with
          | inr err => Some (Errorf ("failed to parse Terraform binary version: " +:+ error_string err))
          | inl binary =>
              match Make terraformVendoredVersion with
              | inr err => Some (Errorf ("failed to parse Terraform vendored version: " +:+ error_string err))
              | inl vendored =>
                  if GT binary vendored then Some (Errorf ("Terraform binary version (" +:+ terraformBinaryVersion
                    +:+ ") is greater than vendored version (" +:+ terraformVendoredVersion +:+ ")"))
                  else if LT binary vendored then Some (Errorf ("Terraform binary version (" +:+ terraformBinaryVersion
                    +:+ ") is less than vendored version (" +:+ terraformVendoredVersion +:+ ")"))
                  else None
              end
          end
      end
  end.
End versions.

(** The examples of the tests. *)
Example clean1 : CleanVersion "0.6.0-alpha2.6+b364c17a97386f-dirty" "6+" = "0.6.0-alpha2".
Proof. reflexivity. Qed.
Example clean2 : CleanVersion "0.6.0-dirty" "6+" = "0.6.0".
Proof. reflexivity. Qed.
Example clean3 : CleanVersion "0.6.0-rc1.15+337112cd82fadb]" "6+" = "0.6.0-rc1".
Proof. reflexivity. Qed.
Example line1 : ReadLine ("Terraform v0.11.7" +:+ String "010" "") = Some "Terraform v0.11.7".
Proof. reflexivity. Qed.

(** ** The order of versions *)
Lemma then_Eq c d : then_compare c d = Eq ↔ c = Eq ∧ d = Eq.
Proof. destruct c; cbn; naive_solver. Qed.

Lemma Compare_release a b c a' b' c' :
  GT (release a b c) (release a' b' c') = true ↔
  (a' < a ∨ a' = a ∧ (b' < b ∨ b' = b ∧ c' < c))%N.
Proof.
  unfold GT, Compare. cbn. destruct (N.compare_spec a a'), (N.compare_spec b b'), (N.compare_spec c c'); cbn; (split; [intros ?|]); try done; try lia; naive_solver lia.
Qed.

(** Identifiers of a pre-release that count the same. *)
Definition same_pr (p q : PRVersion) : Prop :=
  IsNum p = IsNum q ∧ if IsNum p then VersionNum p = VersionNum q else VersionStr p = VersionStr q.

(** Versions that differ at most in what the build adds. *)
Definition same_version (v o : Version) : Prop :=
  v_Major v = v_Major o ∧ v_Minor v = v_Minor o ∧ v_Patch v = v_Patch o ∧ Forall2 same_pr (v_Pre v) (v_Pre o).

Lemma PR_Compare_Eq p q : PR_Compare p q = Eq ↔ same_pr p q.
Proof.
  unfold PR_Compare, same_pr. destruct (IsNum p), (IsNum q); try naive_solver.
  - rewrite N.compare_eq_iff. naive_solver.
  - split; [intros ?%String.compare_eq_iff; done|]. intros [_ ->].
    pose proof (String.compare_antisym (VersionStr q) (VersionStr q)). by destruct (String.compare _ _).
Qed.

Lemma Pre_Compare_Eq v o : Pre_Compare v o = Eq ↔ Forall2 same_pr v o.
Proof.
  revert o. induction v as [|p v IH]; intros [|q o]; cbn; [by split; [constructor|]|by split; [|inversion 1]|by split; [|inversion 1]|].
  rewrite Forall2_cons, <- IH, <- PR_Compare_Eq. destruct (PR_Compare p q); naive_solver.
Qed.

Lemma Compare_Eq v o : Compare v o = Eq ↔ same_version v o.
Proof.
  unfold Compare, same_version. rewrite !then_Eq, !N.compare_eq_iff, <- Pre_Compare_Eq. destruct (v_Pre v), (v_Pre o); naive_solver.
Qed.

(** Releases, as triples. *)
Definition later (v o : Version) : Prop :=
  (v_Major o < v_Major v ∨ v_Major o = v_Major v ∧
    (v_Minor o < v_Minor v ∨ v_Minor o = v_Minor v ∧ v_Patch o < v_Patch v))%N.

Lemma GT_later v o : v_Pre v = [] → v_Pre o = [] → GT v o = true ↔ later v o.
Proof. destruct v, o. cbn. intros -> ->. apply Compare_release. Qed.

Section last.
Context (current : Version).
Definition candidate (v : Version) : Prop := v_Pre v = [] ∧ (v_Minor v < v_Minor current)%N.

Lemma older_spec v last : v_Pre last = [] → older current v last = true ↔ candidate v ∧ later v last.
Proof.
  intros Hl. unfold older, candidate. rewrite !andb_true_iff, bool_decide_eq_true, N.ltb_lt. split.
  - intros [[Hg Hp] Hm]. split; [done|]. by apply GT_later.
  - intros [[Hp Hm] Hg]. split_and!; [|done..]. by apply GT_later.
Qed.

Lemma last_fold vs last :
  v_Pre last = [] →
  let r := foldl (λ last v, if older current v last then v else last) last vs in
  v_Pre r = [] ∧ (r = last ∨ r ∈ vs ∧ candidate r) ∧ ¬ later last r ∧ ∀ o, o ∈ vs → candidate o → ¬ later o r.
Proof.
  revert last. induction vs as [|v vs IH]; intros last Hl; cbn.
  { split_and!; [done|by left| |by intros o ?%not_elem_of_nil]. unfold later. lia. }
  destruct (older current v last) eqn:Ho.
  - apply older_spec in Ho as [Hv Hlater]; [|done]. destruct (IH v (proj1 Hv)) as (H1 & H2 & H3 & H4). split_and!; [done| | |].
    + right. destruct H2 as [->|[? ?]]; [by split; [left|]|by split; [right|]].
    + unfold later in *. lia.
    + intros o [->|Ho]%elem_of_cons; [done|by apply H4].
  - destruct (IH last Hl) as (H1 & H2 & H3 & H4). split_and!; [done| |done|].
    + destruct H2 as [?|[? ?]]; [by left|right]. split; [by right|done].
    + intros o [->|Hin]%elem_of_cons; [|by apply H4]. intros Hc Hlater.
      assert (¬ later v last) as Hn. { intros Hlv. assert (older current v last = true); [by apply older_spec|congruence]. }
      unfold later in *. lia.
Qed.
End last.

(** The last version is the latest release among those whose minor version
    is below the one of the program, and 0.0.0 if there is none; the order in
    which GitHub lists them does not matter. *)
Theorem LastVersion_correct Make cleanVersion tags vs current :
  Make cleanVersion = inl current → Make "0.0.0" = inl (release 0 0 0) → parse_tags Make tags = inl vs → vs ≠ [] →
  ∃ v, LastVersion Make cleanVersion (inl tags) = inl v ∧
    (v = release 0 0 0 ∨ v ∈ vs ∧ candidate current v) ∧
    ∀ o, o ∈ vs → candidate current o → GT o v = false.
Proof.
  intros Hc H0 Hvs Hne. unfold LastVersion. rewrite Hvs. unfold lastVersionFromVersions. rewrite Hc, H0.
  destruct (last_fold current (sorted_versions vs) (release 0 0 0) eq_refl) as (H1 & H2 & _ & H4).
  destruct vs as [|v0 vs']; [done|]. set (vs := v0 :: vs') in *. eexists. split; [done|].
  assert (∀ v, v ∈ sorted_versions vs ↔ v ∈ vs) as Hin by (intros v; unfold sorted_versions; by rewrite merge_sort_Permutation).
  split; [by setoid_rewrite Hin in H2|]. intros o Ho Hco. apply not_true_iff_false. rewrite GT_later; [|apply Hco|done].
  apply H4; [by apply Hin|done].
Qed.

(** The major version is not looked at: the last version before 1.0.0 is taken
    to be 0.0.0, whatever was released. *)
Lemma LastVersion_of_major Make cleanVersion tags vs major patch :
  Make cleanVersion = inl (release major 0 patch) → Make "0.0.0" = inl (release 0 0 0) → parse_tags Make tags = inl vs →
  vs ≠ [] → LastVersion Make cleanVersion (inl tags) = inl (release 0 0 0).
Proof.
  intros Hc H0 Hvs Hne. unfold LastVersion. rewrite Hvs. unfold lastVersionFromVersions. rewrite Hc, H0.
  destruct (last_fold (release major 0 patch) (sorted_versions vs) (release 0 0 0) eq_refl) as (_ & [Hr|[_ [_ Hr]]] & _);
    [|cbn in Hr; lia]. destruct vs as [|v0 vs']; [done|]. set (vs := v0 :: vs') in *. by rewrite Hr.
Qed.

(** The shell of Terraform is opened exactly with the version Tarmak was built
    with, up to what a build adds to it. *)
Theorem verifyTerraformBinaryVersion_correct Make run vendored :
  verifyTerraformBinaryVersion Make run vendored = None ↔
  ∃ output line b v, run = inl output ∧ ReadLine output = Some line ∧ Make (TrimPrefix line "Terraform v") = inl b ∧
    Make vendored = inl v ∧ same_version b v.
Proof.
  unfold verifyTerraformBinaryVersion. split.
  - destruct run as [output|]; [|done]. destruct (ReadLine output) as [line|] eqn:Hl; [|done].
    destruct (Make (TrimPrefix line "Terraform v")) as [b|] eqn:Hb; [|done]. destruct (Make vendored) as [v|] eqn:Hv; [|done].
    unfold GT, LT. intros Hcmp. exists output, line, b, v. split_and!; [done..|]. apply Compare_Eq. by destruct (Compare b v).
  - intros (output & line & b & v & -> & Hl & Hb & Hv & Hsame). rewrite Hl, Hb, Hv. apply Compare_Eq in Hsame.
    unfold GT, LT. by rewrite Hsame.
Qed.

(** ** Witnesses *)
Definition make_of (known : list (string * Version)) (s : string) : Version + error :=
  match list_find (λ kv, kv.1 = s) known with Some (_, (_, v)) => inl v | None => inr (Errorf "invalid") end.

Definition known_versions : list (string * Version) :=
  [("0.0.0", release 0 0 0); ("0.6.1", release 0 6 1); ("0.4.1", release 0 4 1); ("0.4.0", release 0 4 0)].

Lemma LastVersion_correct_witness :
  ∃ v, LastVersion (make_of known_versions) "0.6.1" (inl ["0.6.1"; "0.4.1"; "0.4.0"]) = inl v ∧
    (v = release 0 0 0 ∨ v ∈ [release 0 6 1; release 0 4 1; release 0 4 0] ∧ candidate (release 0 6 1) v) ∧
    ∀ o, o ∈ [release 0 6 1; release 0 4 1; release 0 4 0] → candidate (release 0 6 1) o → GT o v = false.
Proof. apply LastVersion_correct; [reflexivity|reflexivity|reflexivity|done]. Defined.

Example last_version : LastVersion (make_of known_versions) "0.6.1" (inl ["0.6.1"; "0.4.1"; "0.4.0"]) = inl (release 0 4 1).
Proof. vm_compute. reflexivity. Qed.
