(* ===== verification/Defaults.v ===== *)
(** * Defaults: the defaulting functions of the API objects

    [src/pkg/apis/cluster/v1alpha1/defaults.go] and
    [src/pkg/apis/tarmak/v1alpha1/defaults.go] with the traversals the
    generated [zz_generated.defaults.go] files make of them.  A configuration
    passes through [SetObjectDefaults_Config] once after it is decoded.

    [now] is the reading of [time.Now()]; the fields a default depends on are
    assigned in the order of the source. *)

From Stdlib Require Import Floats.SpecFloat.
From S2P Require Import Prelude Types.

(** [if x == "" { x = d }] *)
Definition if_empty (d x : string) : string := if decide (x = "") then d else x.

(** [if p == nil { p = &d }] *)
Definition if_nil {A} (d : A) (p : option A) : option A :=
  match p with None => Some d | Some _ => p end.

(** [if n == 0 { n = d }] *)
Definition if_zero (d n : Z) : Z := if decide (n = 0%Z) then d else n.

Arguments if_empty : simpl never.
Arguments if_zero : simpl never.

(** [if obj.CreationTimestamp == zeroTime { obj.CreationTimestamp.Time = time.Now() }] *)
Definition set_creation (now : Z) (m : ObjectMeta) : ObjectMeta :=
  {| m with CreationTimestamp := if_zero now (CreationTimestamp m) |}.

(** ** Elasticsearch proxy ports *)

(** The keys of [allocatedPorts]. *)
Definition allocatedPorts (loggingSinks : list LoggingSink) : list Z :=
  omap (λ s, ls_Elasticsearch s ≫= λ es, esp_Port <$> es_AmazonESProxy es) loggingSinks.

(** [for { if _, ok := allocatedPorts[currentPort]; ok { currentPort++; continue }
     return currentPort }]; [None] is running out of fuel. *)
Fixpoint allocate_loop (fuel : nat) (ports : list Z) (currentPort : Z) : option Z :=
  match fuel with
  | O => None
  | S fuel' =>
      if decide (currentPort ∈ ports) then allocate_loop fuel' ports (currentPort + 1)
      else Some currentPort
  end.

(** One round more than there are ports is enough: see
    [allocate_loop_total]. *)
Definition allocateAmazonESProxyPort (loggingSinks : list LoggingSink) : Z :=
  let ports := allocatedPorts loggingSinks in
  default 0%Z (allocate_loop (S (length ports)) ports 9200).

(** ** Logging sinks *)
Definition default_es (es : LoggingSinkElasticsearch) : LoggingSinkElasticsearch :=
  let tls := if_nil true (es_TLS es) in
  {| es with
     es_Host := if_empty "127.0.0.1" (es_Host es);
     es_TLS := tls;
     es_Port := if_zero (if default false tls then 443 else 80) (es_Port es);
     es_LogstashPrefix := if_empty "logstash" (es_LogstashPrefix es) |}.

(** The part of the loop body before the proxy port is allocated. *)
Definition default_sink (s : LoggingSink) : LoggingSink :=
  {| s with ls_Elasticsearch := default_es <$> ls_Elasticsearch s |}.

Definition set_proxy_port (port : Z) (s : LoggingSink) : LoggingSink :=
  {| s with ls_Elasticsearch :=
       (λ es, {| es with es_AmazonESProxy :=
                   (λ p, {| esp_Port := if_zero port (esp_Port p) |}) <$> es_AmazonESProxy es |})
       <$> ls_Elasticsearch s |}.

Definition default_types (s : LoggingSink) : LoggingSink :=
  {| s with ls_Types := match ls_Types s with [] => [LoggingSinkTypeAll] | ts => ts end |}.

(** The loop over [obj.LoggingSinks]: the sinks before the current one have
    been updated in place, and the port is allocated among all of them. *)
Fixpoint default_sinks (done todo : list LoggingSink) : list LoggingSink :=
  match todo with
  | [] => done
  | s :: todo' =>
      let s := default_sink s in
      let port := allocateAmazonESProxyPort (done ++ s :: todo') in
      default_sinks (done ++ [default_types (set_proxy_port port s)]) todo'
  end.

(** ** Clusters *)
Definition default_calico (c : option ClusterKubernetesCalico) : option ClusterKubernetesCalico :=
  let c := default {| cal_Backend := "etcd"; cal_EnableTypha := false; cal_TyphaReplicas := None |} c in
  let c := {| c with cal_Backend := if_empty "etcd" (cal_Backend c) |} in
  Some {| c with cal_TyphaReplicas :=
            if cal_EnableTypha c then if_nil 1%Z (cal_TyphaReplicas c) else cal_TyphaReplicas c |}.

Definition default_kubernetes (k : ClusterKubernetes) : ClusterKubernetes :=
  {| k with
     ck_Version := if_empty "1.16.15" (ck_Version k);
     ck_Zone := if_empty "cluster.local" (ck_Zone k);
     ck_Hyperkube := if_nil true (ck_Hyperkube k);
     ck_PodCIDR := if_empty "100.64.0.0/16" (ck_PodCIDR k);
     ck_ServiceCIDR := if_empty "10.254.0.0/16" (ck_ServiceCIDR k);
     ck_ClusterAutoscaler := if_nil ClusterAutoscaler_zero (ck_ClusterAutoscaler k);
     ck_Tiller := if_nil {| til_Enabled := false; til_Image := ""; til_Version := "" |} (ck_Tiller k);
     ck_Dashboard := if_nil {| das_Enabled := false; das_Image := ""; das_Version := "" |} (ck_Dashboard k);
     ck_Calico := default_calico (ck_Calico k);
     ck_Heapster := if_nil {| heap_Enabled := true |} (ck_Heapster k);
     ck_Grafana := if_nil {| graf_Enabled := true |} (ck_Grafana k);
     ck_InfluxDB := if_nil {| infl_Enabled := true |} (ck_InfluxDB k) |}.

Definition default_network (n : option Network) : option Network :=
  let n := default Network_zero n in
  Some {| n with net_CIDR := if_empty "10.99.0.0/16" (net_CIDR n) |}.

Definition default_amazon (a : option ClusterAmazon) : option ClusterAmazon :=
  let a := default {| cla_AdditionalIAMPolicies := None; cla_EBSEncrypted := None |} a in
  Some {| cla_AdditionalIAMPolicies := if_nil [] (cla_AdditionalIAMPolicies a);
          cla_EBSEncrypted := if_nil false (cla_EBSEncrypted a) |}.

Definition SetDefaults_Cluster (now : Z) (obj : Cluster) : Cluster :=
  {| obj with
     cl_meta := set_creation now (cl_meta obj);
     cl_Network := default_network (cl_Network obj);
     cl_Kubernetes := Some (default_kubernetes (default ClusterKubernetes_zero (cl_Kubernetes obj)));
     cl_Amazon := default_amazon (cl_Amazon obj);
     cl_LoggingSinks := Some (default_sinks [] (elems (cl_LoggingSinks obj)));
     cl_VaultHelper := if_nil {| vh_URL := "" |} (cl_VaultHelper obj) |}.

(** ** Instance pools and volumes *)
Definition SetDefaults_Volume (now : Z) (obj : Volume) : Volume :=
  {| obj with vol_meta := set_creation now (vol_meta obj) |}.

(** [16*1024*1024*1024] bytes. *)
Definition default_volume_size : Z := (16 * 1024 * 1024 * 1024)%Z.

Definition SetDefaults_InstancePool (now : Z) (obj : InstancePool) : InstancePool :=
  let meta := set_creation now (ip_meta obj) in
  {| obj with
     ip_meta := {| meta with Name := if_empty (ip_Type obj) (Name meta) |};
     ip_Image :=
       if_empty (if decide (ip_Type obj = InstancePoolTypeWorker)
                 then ImageBaseDefaultWorker else ImageBaseDefault) (ip_Image obj);
     ip_Volumes :=
       map (λ v, {| v with vol_Size := if_nil default_volume_size (vol_Size v);
                           vol_Type := if_empty VolumeTypeSSD (vol_Type v) |}) (ip_Volumes obj);
     ip_Amazon :=
       let a := default {| ipa_AdditionalIAMPolicies := None |} (ip_Amazon obj) in
       Some {| ipa_AdditionalIAMPolicies := if_nil [] (ipa_AdditionalIAMPolicies a) |} |}.

Definition SetDefaults_ClusterKubernetesAPIServerAmazonAccessLogs
    (obj : ClusterKubernetesAPIServerAmazonAccessLogs)
    : ClusterKubernetesAPIServerAmazonAccessLogs :=
  {| obj with
     al_Enabled := if_nil (negb (bool_decide (al_Bucket obj = ""))) (al_Enabled obj);
     al_Interval := if_nil 5%Z (al_Interval obj) |}.

(** The [float64] 0.5. *)
Definition float_half : spec_float := S754_finite false 4503599627370496 (-53).

Definition SetDefaults_ClusterKubernetesClusterAutoscaler
    (obj : ClusterKubernetesClusterAutoscaler) : ClusterKubernetesClusterAutoscaler :=
  {| obj with ca_ScaleDownUtilizationThreshold :=
                if_nil float_half (ca_ScaleDownUtilizationThreshold obj) |}.

(** ** Environments, providers, configurations *)
Definition SetDefaults_Environment (now : Z) (obj : Environment) : Environment :=
  {| obj with
     env_meta := set_creation now (env_meta obj);
     env_PrivateZone := if_empty "tarmak.local" (env_PrivateZone obj);
     env_AdminCIDRs := if_nil ["0.0.0.0/0"] (env_AdminCIDRs obj) |}.

Definition SetDefaults_Config (now : Z) (obj : Config) : Config :=
  {| obj with cf_meta := set_creation now (cf_meta obj) |}.

Definition SetDefaults_Provider (now : Z) (obj : Provider) : Provider :=
  {| obj with pr_meta := set_creation now (pr_meta obj) |}.

(** ** The generated traversals *)
Definition SetObjectDefaults_InstancePool (now : Z) (obj : InstancePool) : InstancePool :=
  let obj := SetDefaults_InstancePool now obj in
  {| obj with ip_Volumes := map (SetDefaults_Volume now) (ip_Volumes obj) |}.

Definition default_apiserver (a : ClusterKubernetesAPIServer) : ClusterKubernetesAPIServer :=
  {| a with api_Amazon :=
       (λ am, {| am with
          asa_PublicELBAccessLogs :=
            SetDefaults_ClusterKubernetesAPIServerAmazonAccessLogs <$> asa_PublicELBAccessLogs am;
          asa_InternalELBAccessLogs :=
            SetDefaults_ClusterKubernetesAPIServerAmazonAccessLogs <$> asa_InternalELBAccessLogs am
       |}) <$> api_Amazon a |}.

Definition default_nested (k : ClusterKubernetes) : ClusterKubernetes :=
  {| k with
     ck_ClusterAutoscaler :=
       SetDefaults_ClusterKubernetesClusterAutoscaler <$> ck_ClusterAutoscaler k;
     ck_APIServer := default_apiserver <$> ck_APIServer k |}.

Definition SetObjectDefaults_Cluster (now : Z) (obj : Cluster) : Cluster :=
  let obj := SetDefaults_Cluster now obj in
  {| obj with
     cl_InstancePools := map (SetObjectDefaults_InstancePool now) (cl_InstancePools obj);
     cl_Kubernetes := default_nested <$> cl_Kubernetes obj |}.

Definition SetObjectDefaults_Config (now : Z) (obj : Config) : Config :=
  let obj := SetDefaults_Config now obj in
  {| obj with
     cf_Clusters := map (SetObjectDefaults_Cluster now) (cf_Clusters obj);
     cf_Providers := map (SetDefaults_Provider now) (cf_Providers obj);
     cf_Environments := map (SetDefaults_Environment now) (cf_Environments obj) |}.

(** ** Lemmas: the port search *)

(** The search stops within one round more than there are ports, at the
    first free one. *)
Lemma allocate_loop_total ports p fuel :
  (length (filter (λ q, p ≤ q)%Z (remove_dups ports)) < fuel)%nat →
  ∃ r, allocate_loop fuel ports p = Some r ∧
       (p ≤ r)%Z ∧ r ∉ ports ∧ ∀ q, (p ≤ q < r)%Z → q ∈ ports.
Proof.
  revert p. induction fuel as [|fuel IH]; intros p Hf; [lia|]. simpl.
  case_decide as Hp; [|exists p; split_and!; [done|lia|done|lia]].
  destruct (IH (p + 1)%Z) as (r & Hr & Hle & Hfree & Hmin).
  - assert (filter (λ q, p ≤ q)%Z (remove_dups ports) ≡ₚ
            p :: filter (λ q, p + 1 ≤ q)%Z (remove_dups ports)) as Hperm.
    { apply NoDup_Permutation.
      - apply NoDup_filter, NoDup_remove_dups.
      - constructor; [|apply NoDup_filter, NoDup_remove_dups].
        rewrite list_elem_of_filter. lia.
      - intros q. rewrite elem_of_cons, !list_elem_of_filter, !elem_of_remove_dups.
        destruct (decide (q = p)); [naive_solver lia|]. intuition lia. }
    rewrite Hperm in Hf. simpl in Hf. lia.
  - exists r. split_and!; [done|lia|done|]. intros q Hq.
    destruct (decide (q = p)); [by subst|]. apply Hmin. lia.
Qed.

Lemma remove_dups_length {A} `{EqDecision A} (l : list A) :
  (length (remove_dups l) ≤ length l)%nat.
Proof. induction l as [|x l IH]; simpl; [lia|]. case_decide; simpl; lia. Qed.

Lemma allocate_spec sinks :
  let r := allocateAmazonESProxyPort sinks in
  (9200 ≤ r)%Z ∧ r ∉ allocatedPorts sinks ∧
  ∀ q, (9200 ≤ q < r)%Z → q ∈ allocatedPorts sinks.
Proof.
  destruct (allocate_loop_total (allocatedPorts sinks) 9200 (S (length (allocatedPorts sinks))))
    as (r & Hr & ?).
  - pose proof (length_filter (λ q, 9200 ≤ q)%Z (remove_dups (allocatedPorts sinks))).
    pose proof (remove_dups_length (allocatedPorts sinks)). lia.
  - unfold allocateAmazonESProxyPort. by rewrite Hr.
Qed.

(** ** Lemmas: the sink loop *)
Definition port_of (s : LoggingSink) : option Z :=
  ls_Elasticsearch s ≫= λ es, esp_Port <$> es_AmazonESProxy es.

Lemma allocatedPorts_app l1 l2 : allocatedPorts (l1 ++ l2) = allocatedPorts l1 ++ allocatedPorts l2.
Proof. apply omap_app. Qed.

Lemma allocatedPorts_cons s l : allocatedPorts (s :: l) = option_list (port_of s) ++ allocatedPorts l.
Proof. unfold allocatedPorts, port_of. simpl. by case_match. Qed.

Lemma port_of_default_sink s : port_of (default_sink s) = port_of s.
Proof. by destruct s as [[]]. Qed.

Lemma port_of_step p s :
  port_of (default_types (set_proxy_port p (default_sink s))) = if_zero p <$> port_of s.
Proof. by destruct s as [[[? ? ? ? ? ? ? [[]|]]|]]. Qed.

(** What one round does to the port of its sink: a configured port stays,
    a missing one becomes a port from 9200 on. *)
Definition port_filled (s s' : LoggingSink) : Prop :=
  match port_of s with
  | Some 0%Z => ∃ p, port_of s' = Some p ∧ (9200 ≤ p)%Z
  | o => port_of s' = o
  end.

Lemma port_filled_step p s :
  (9200 ≤ p)%Z → port_filled s (default_types (set_proxy_port p (default_sink s))).
Proof.
  intros. unfold port_filled. rewrite port_of_step.
  destruct (port_of s) as [[]|]; simpl; unfold if_zero; try case_decide; naive_solver.
Qed.

Lemma default_sinks_Forall2 done todo :
  ∃ out, default_sinks done todo = done ++ out ∧ Forall2 port_filled todo out.
Proof.
  revert done. induction todo as [|s todo IH]; intros done; simpl.
  - exists []. by rewrite app_nil_r.
  - edestruct IH as (out & -> & Hout). eexists (_ :: out). rewrite <- app_assoc. split; [done|].
    constructor; [|done]. apply port_filled_step. apply allocate_spec.
Qed.

Definition nonzero_ports (l : list LoggingSink) : list Z := filter (λ p, p ≠ 0%Z) (allocatedPorts l).

Lemma default_sinks_NoDup done todo :
  NoDup (allocatedPorts done ++ nonzero_ports todo) →
  NoDup (allocatedPorts (default_sinks done todo)).
Proof.
  revert done. induction todo as [|s todo IH]; intros done; simpl.
  - unfold nonzero_ports. simpl. by rewrite app_nil_r.
  - intros Hd. apply IH. revert Hd. unfold nonzero_ports.
    pose proof (allocate_spec (done ++ default_sink s :: todo)) as (_ & Hfree & _).
    set (p := allocateAmazonESProxyPort _) in *. clearbody p.
    rewrite allocatedPorts_app, !allocatedPorts_cons, port_of_default_sink in Hfree.
    rewrite allocatedPorts_app, !allocatedPorts_cons, port_of_step, filter_app.
    destruct (port_of s) as [q|]; simpl; unfold if_zero; [|by rewrite app_nil_r].
    rewrite filter_cons, filter_nil. destruct (decide (q = 0%Z)) as [->|Hq].
    + rewrite decide_False by tauto. rewrite <- app_assoc. simpl. intros Hd.
      apply NoDup_app. apply NoDup_app in Hd as (Hd1 & Hd2 & Hd3).
      split_and!; [done| |constructor; [|done]].
      * intros x Hx. rewrite elem_of_cons. intros [->|?]; [|by eapply Hd2]. set_solver.
      * rewrite list_elem_of_filter. set_solver.
    + rewrite decide_True by done. by rewrite <- !app_assoc.
Qed.

(** A sink that defaulting leaves alone. *)
Definition defaulted (s : LoggingSink) : Prop :=
  default_sink s = s ∧ default_types s = s ∧ port_of s ≠ Some 0%Z.

Lemma if_zero_id d n : n ≠ 0%Z → if_zero d n = n.
Proof. intros. unfold if_zero. by rewrite decide_False. Qed.

Lemma if_zero_ne d n : d ≠ 0%Z → if_zero d n ≠ 0%Z.
Proof. intros. unfold if_zero. by case_decide. Qed.

Lemma if_zero_twice d d' n : d ≠ 0%Z → if_zero d' (if_zero d n) = if_zero d n.
Proof. intros. by apply if_zero_id, if_zero_ne. Qed.

Lemma if_empty_twice d d' x : d ≠ "" → if_empty d' (if_empty d x) = if_empty d x.
Proof. unfold if_empty. repeat case_decide; congruence. Qed.

Lemma if_nil_twice {A} (d d' : A) p : if_nil d' (if_nil d p) = if_nil d p.
Proof. by destruct p. Qed.

Lemma default_es_twice es : default_es (default_es es) = default_es es.
Proof.
  unfold default_es. simpl. f_equal.
  - by rewrite if_empty_twice.
  - rewrite if_nil_twice. apply if_zero_twice. by case_match.
  - by rewrite if_empty_twice.
  - by rewrite if_nil_twice.
Qed.

Lemma default_types_twice s : default_types (default_types s) = default_types s.
Proof. by destruct s as [? []]. Qed.

Lemma defaulted_step p s :
  (9200 ≤ p)%Z → defaulted (default_types (set_proxy_port p (default_sink s))).
Proof.
  intros Hp. unfold defaulted. split_and!.
  - destruct s as [[es|] ts]; [|done]. unfold default_types, set_proxy_port, default_sink. simpl.
    do 2 f_equal. pose proof (default_es_twice es) as H. unfold default_es in *. simpl in *. congruence.
  - apply default_types_twice.
  - rewrite port_of_step. destruct (port_of s); simpl; [|done].
    intros [= H]. by apply (if_zero_ne p z); [lia|].
Qed.

Lemma default_sinks_defaulted done todo :
  ∃ out, default_sinks done todo = done ++ out ∧ Forall defaulted out.
Proof.
  revert done. induction todo as [|s todo IH]; intros done; simpl.
  - exists []. by rewrite app_nil_r.
  - edestruct IH as (out & -> & Hout). eexists (_ :: out). rewrite <- app_assoc. split; [done|].
    constructor; [|done]. apply defaulted_step. apply allocate_spec.
Qed.

Lemma defaulted_fixed p s : defaulted s → default_types (set_proxy_port p (default_sink s)) = s.
Proof.
  intros (-> & Ht & Hp). rewrite <- Ht at 2. f_equal.
  destruct s as [[[? ? ? ? ? ? ? [[q]|]]|] ts]; try done. unfold set_proxy_port. simpl.
  rewrite if_zero_id; [done|]. intros ->. by apply Hp.
Qed.

Lemma default_sinks_fixed done todo : Forall defaulted todo → default_sinks done todo = done ++ todo.
Proof.
  intros H. revert done. induction H as [|s todo Hs _ IH]; intros done; simpl.
  - by rewrite app_nil_r.
  - rewrite defaulted_fixed by done. rewrite IH. by rewrite <- app_assoc.
Qed.

Lemma default_sinks_twice l : default_sinks [] (default_sinks [] l) = default_sinks [] l.
Proof.
  destruct (default_sinks_defaulted [] l) as (out & -> & Hout). simpl.
  by rewrite (default_sinks_fixed [] out).
Qed.

(** ** Lemmas: defaulting twice *)
Lemma if_empty_same d x : if_empty d (if_empty d x) = if_empty d x.
Proof. unfold if_empty. repeat case_decide; congruence. Qed.

Lemma set_creation_twice now now' m :
  now ≠ 0%Z → set_creation now' (set_creation now m) = set_creation now m.
Proof. intros. unfold set_creation. simpl. by rewrite if_zero_twice. Qed.

Lemma default_calico_twice c : default_calico (default_calico c) = default_calico c.
Proof.
  unfold default_calico. simpl. rewrite !if_empty_twice by done.
  by destruct c as [[? [] [?|]]|].
Qed.

Lemma default_kubernetes_twice k : default_kubernetes (default_kubernetes k) = default_kubernetes k.
Proof.
  unfold default_kubernetes. simpl.
  by rewrite !if_empty_twice, !if_nil_twice, default_calico_twice.
Qed.

Lemma default_network_twice n : default_network (default_network n) = default_network n.
Proof. unfold default_network. simpl. by rewrite if_empty_twice. Qed.

Lemma default_amazon_twice a : default_amazon (default_amazon a) = default_amazon a.
Proof. unfold default_amazon. simpl. by rewrite !if_nil_twice. Qed.

Lemma default_apiserver_twice a : default_apiserver (default_apiserver a) = default_apiserver a.
Proof.
  destruct a as [? ? ? ? ? ? ? [[[[]|] [[]|] ?]|] ? ?]; unfold default_apiserver; simpl;
    unfold SetDefaults_ClusterKubernetesAPIServerAmazonAccessLogs; simpl;
    by rewrite ?if_nil_twice.
Qed.

(** The nested defaults and the cluster's own touch different things, or
    agree. *)
Lemma default_nested_twice k :
  default_nested (default_kubernetes (default_nested (default_kubernetes k))) =
  default_nested (default_kubernetes k).
Proof.
  unfold default_nested, default_kubernetes. simpl.
  rewrite !if_empty_twice, !if_nil_twice, default_calico_twice by done. f_equal.
  - destruct (ck_ClusterAutoscaler k) as [[]|]; simpl;
      unfold SetDefaults_ClusterKubernetesClusterAutoscaler; simpl; by rewrite ?if_nil_twice.
  - destruct (ck_APIServer k); simpl; by rewrite ?default_apiserver_twice.
Qed.

Lemma map_twice {A} (f g : A → A) l : (∀ x, f (g x) = g x) → map f (map g l) = map g l.
Proof. intros H. rewrite map_map. by apply map_ext. Qed.

Lemma SetObjectDefaults_InstancePool_twice now now' p :
  now ≠ 0%Z →
  SetObjectDefaults_InstancePool now' (SetObjectDefaults_InstancePool now p) =
  SetObjectDefaults_InstancePool now p.
Proof.
  intros Hnow. unfold SetObjectDefaults_InstancePool, SetDefaults_InstancePool, SetDefaults_Volume.
  simpl. rewrite !map_map. f_equal.
  - unfold set_creation. simpl. by rewrite if_zero_twice, if_empty_same.
  - apply if_empty_same.
  - apply map_ext. intros v. simpl. f_equal.
    + by apply set_creation_twice.
    + apply if_nil_twice.
    + by apply if_empty_twice.
  - by rewrite if_nil_twice.
Qed.

Lemma SetObjectDefaults_Cluster_twice now now' c :
  now ≠ 0%Z →
  SetObjectDefaults_Cluster now' (SetObjectDefaults_Cluster now c) =
  SetObjectDefaults_Cluster now c.
Proof.
  intros Hnow. unfold SetObjectDefaults_Cluster, SetDefaults_Cluster. simpl. f_equal.
  - by apply set_creation_twice.
  - apply map_twice. intros. by apply SetObjectDefaults_InstancePool_twice.
  - apply default_network_twice.
  - f_equal. apply default_sinks_twice.
  - apply if_nil_twice.
  - f_equal. apply default_nested_twice.
  - apply default_amazon_twice.
Qed.

(** ** Properties *)

(** The port search of [allocateAmazonESProxyPort] terminates, at the
    lowest port from 9200 on that no logging sink uses. *)
Theorem allocateAmazonESProxyPort_correct sinks :
  let ports := allocatedPorts sinks in
  let r := allocateAmazonESProxyPort sinks in
  allocate_loop (S (length ports)) ports 9200 = Some r ∧
  (9200 ≤ r)%Z ∧ r ∉ ports ∧ ∀ q, (9200 ≤ q < r)%Z → q ∈ ports.
Proof.
  intros ports r. split; [|apply allocate_spec].
  destruct (allocate_loop_total ports 9200 (S (length ports))) as (r' & Hr & _).
  - pose proof (length_filter (λ q, 9200 ≤ q)%Z (remove_dups ports)).
    pose proof (remove_dups_length ports). lia.
  - unfold r, allocateAmazonESProxyPort. fold ports. by rewrite Hr.
Qed.

(** Defaulting the logging sinks of a cluster keeps their number and
    order and every configured Elasticsearch proxy port, gives each proxy
    without a port one from 9200 on, and never hands out a port twice: when
    the configured ports are distinct, all of them are. *)
Theorem SetDefaults_Cluster_proxy_ports now obj :
  let sinks := elems (cl_LoggingSinks obj) in
  let sinks' := elems (cl_LoggingSinks (SetDefaults_Cluster now obj)) in
  Forall2 port_filled sinks sinks' ∧
  (NoDup (nonzero_ports sinks) → NoDup (allocatedPorts sinks')).
Proof.
  simpl. split.
  - by destruct (default_sinks_Forall2 [] (elems (cl_LoggingSinks obj))) as (out & -> & ?).
  - intros. by apply default_sinks_NoDup.
Qed.

Definition example_sink (port : Z) : LoggingSink :=
  {| ls_Elasticsearch := Some
       {| es_Host := "es"; es_Port := 0; es_LogstashPrefix := ""; es_TLS := None;
          es_TLSVerify := false; es_TLSCA := ""; es_HTTPBasicAuth := None;
          es_AmazonESProxy := Some {| esp_Port := port |} |};
     ls_Types := [] |}.

Lemma SetDefaults_Cluster_proxy_ports_witness :
  let obj := {| (NewCluster "cluster") with
                cl_LoggingSinks := Some (map example_sink [0; 9201; 0; 9200]%Z) |} in
  allocatedPorts (elems (cl_LoggingSinks (SetDefaults_Cluster 1 obj))) = [9202; 9201; 9203; 9200]%Z ∧
  NoDup (allocatedPorts (elems (cl_LoggingSinks (SetDefaults_Cluster 1 obj)))).
Proof.
  intros obj. split; [reflexivity|]. apply (SetDefaults_Cluster_proxy_ports 1 obj).
  apply (bool_decide_unpack _). vm_compute. exact I.
Defined.

(** Applying the defaults a second time, at whatever later time, changes
    nothing: a configuration written back and read again is stable. *)
Theorem SetObjectDefaults_Config_idempotent now now' c :
  now ≠ 0%Z →
  SetObjectDefaults_Config now' (SetObjectDefaults_Config now c) = SetObjectDefaults_Config now c.
Proof.
  intros Hnow. unfold SetObjectDefaults_Config, SetDefaults_Config. simpl. f_equal.
  - by apply set_creation_twice.
  - apply map_twice. intros. by apply SetObjectDefaults_Cluster_twice.
  - apply map_twice. intros. unfold SetDefaults_Provider. simpl. f_equal. by apply set_creation_twice.
  - apply map_twice. intros. unfold SetDefaults_Environment. simpl. f_equal.
    + by apply set_creation_twice.
    + by apply if_empty_twice.
    + apply if_nil_twice.
Qed.

Definition example_config : Config :=
  {| cf_meta := ObjectMeta_zero; cf_CurrentCluster := "prod-cluster"; cf_Contact := "";
     cf_Project := "";
     cf_Clusters := [{| (NewCluster "cluster") with cl_Environment := "prod";
                        cl_InstancePools := [InstancePool_zero] |}];
     cf_Providers := []; cf_Environments := [] |}.

Lemma SetObjectDefaults_Config_idempotent_witness :
  SetObjectDefaults_Config 2 (SetObjectDefaults_Config 1 example_config)
  = SetObjectDefaults_Config 1 example_config.
Proof. apply (SetObjectDefaults_Config_idempotent 1 2 example_config). discriminate. Defined.
