(* ===== verification/Config.v ===== *)
(** * Config: the configuration store

    [src/pkg/tarmak/config]: the [Config] object keeps the decoded
    configuration in memory and writes it to [tarmak.yaml] after every
    change.  Its state is the in-memory configuration (nil until one is read
    or created), the file and a count of the file system operations made.

    The codec ([Encode], [Decode]) and the outcome of each file system
    operation ([io_error], by its number) are parameters.  [now] is the
    reading of the clock.  Slices that the code shortens in place while it
    ranges over them are modelled with their backing array. *)

From S2P Require Import Prelude Types Defaults.

Record Flags := {
  fl_CurrentCluster : string;
  fl_WingDevMode : bool;
  fl_IgnoreMissingPublicKeyTags : bool;
}.

(** ** The built-in configurations: cluster.go, environments.go, providers.go *)
Definition newConfig : Config :=
  {| cf_meta := ObjectMeta_zero; cf_CurrentCluster := ""; cf_Contact := "";
     cf_Project := ""; cf_Clusters := []; cf_Providers := []; cf_Environments := [] |}.

Definition newCluster (environment name : string) : Cluster :=
  {| (NewCluster name) with cl_Environment := environment |}.

Definition newInstancePool : InstancePool := InstancePool_zero.

Definition Gi : Z := (1024 * 1024 * 1024)%Z.

Definition newVolume (name : string) (size : option Z) : Volume :=
  {| vol_meta := {| ObjectMeta_zero with Name := name |}; vol_Size := size; vol_Type := VolumeTypeSSD |}.

Definition newInstancePoolBastion : InstancePool :=
  {| newInstancePool with ip_Type := InstancePoolTypeBastion; ip_MinCount := 1; ip_MaxCount := 1;
     ip_Size := InstancePoolSizeTiny; ip_Volumes := [newVolume "root" None] |}.

Definition newInstancePoolEtcd : InstancePool :=
  {| newInstancePool with ip_Type := InstancePoolTypeEtcd; ip_MinCount := 3; ip_MaxCount := 3;
     ip_Size := "t3.medium";
     ip_Volumes := [newVolume "root" None; newVolume "data" (Some (5 * Gi)%Z)] |}.

Definition newInstancePoolVault : InstancePool :=
  {| newInstancePool with ip_Type := InstancePoolTypeVault; ip_MinCount := 3; ip_MaxCount := 3;
     ip_Size := "t3.small";
     ip_Volumes := [newVolume "root" None; newVolume "data" (Some (5 * Gi)%Z)] |}.

Definition newInstancePoolMaster : InstancePool :=
  {| newInstancePool with ip_Type := InstancePoolTypeMaster; ip_MinCount := 1; ip_MaxCount := 1;
     ip_Size := "t3.large";
     ip_Volumes := [newVolume "root" None; newVolume "docker" (Some (10 * Gi)%Z)] |}.

Definition newInstancePoolWorker : InstancePool :=
  {| newInstancePool with ip_Type := InstancePoolTypeWorker; ip_MinCount := 3; ip_MaxCount := 3;
     ip_Size := "m5.large";
     ip_Volumes := [newVolume "root" None; newVolume "docker" (Some (50 * Gi)%Z)] |}.

Definition newInstancePoolJenkins : InstancePool :=
  {| newInstancePool with ip_Type := InstancePoolTypeJenkins; ip_MinCount := 1; ip_MaxCount := 1;
     ip_Size := InstancePoolSizeMedium;
     ip_Volumes := [newVolume "root" None; newVolume "data" (Some (16 * Gi)%Z)] |}.

(** [ApplyDefaults] of a cluster is [SetObjectDefaults_Cluster]. *)
Definition NewClusterSingle (now : Z) (environment name : string) : Cluster :=
  SetObjectDefaults_Cluster now
    {| (newCluster environment name) with cl_Type := ClusterTypeClusterSingle;
       cl_InstancePools := [newInstancePoolBastion; newInstancePoolVault; newInstancePoolEtcd;
                            newInstancePoolMaster; newInstancePoolWorker] |}.

Definition NewClusterMulti (now : Z) (environment name : string) : Cluster :=
  SetObjectDefaults_Cluster now
    {| (newCluster environment name) with cl_Type := ClusterTypeClusterMulti;
       cl_InstancePools := [newInstancePoolEtcd; newInstancePoolMaster; newInstancePoolWorker] |}.

Definition AddJenkinsInstancePool (now : Z) (c : Cluster) : Cluster :=
  SetObjectDefaults_Cluster now
    {| c with cl_InstancePools := cl_InstancePools c ++ [newInstancePoolJenkins] |}.

Definition NewHub (now : Z) (environment : string) : Cluster :=
  SetObjectDefaults_Cluster now
    {| (newCluster environment ClusterTypeHub) with cl_Type := ClusterTypeHub;
       cl_InstancePools := [newInstancePoolBastion; newInstancePoolVault] |}.

Definition NewEnvironment (now : Z) (name contact project : string) : Environment :=
  {| env_meta := {| Name := name; CreationTimestamp := now; Annotations := ∅ |};
     env_Provider := ""; env_Contact := contact; env_Project := project; env_Location := "";
     env_SSH := None; env_PrivateZone := ""; env_AdminCIDRs := None |}.

Definition NewAmazonProfileProvider (name profile : string) : Provider :=
  {| pr_meta := {| ObjectMeta_zero with Name := name |};
     pr_Amazon := Some {| pa_VaultPath := ""; pa_AllowedAccountIDs := []; pa_Profile := profile;
                          pa_BucketPrefix := ""; pa_KeyName := ""; pa_PublicZone := "";
                          pa_PublicHostedZoneID := "" |};
     pr_GCP := None; pr_Azure := None |}.

Definition NewAmazonConfigClusterSingle (now : Z) : Config :=
  let provider := NewAmazonProfileProvider "dev" "jetstack-dev" in
  let cluster := {| (NewClusterSingle now "dev" "cluster") with cl_CloudId := pr_Name provider |} in
  SetObjectDefaults_Config now
    {| newConfig with cf_Providers := [provider]; cf_Clusters := [cluster] |}.

(** [c.CurrentCluster = clusterName] *)
Definition with_current (clusterName : string) (c : Config) : Config :=
  {| c with cf_CurrentCluster := clusterName |}.

Section config.
(** The contents of a file, the YAML codec of the scheme and the outcome
    of the n-th file system operation. *)
Context {bytes : Type} (Encode : Config → bytes + error) (Decode : bytes → Config + error).
Context (io_error : nat → option error).
Context (flags : Flags).

Record State := {
  conf : option Config;
  file : option bytes;
  ops : nat;
}.

Implicit Types (st : State).

(** *** Files *)

(** [writeYAML]: create the directory, create (and truncate) the file,
    encode into it. *)
Definition writeYAML st (config : Config) : State * option error :=
  match io_error (ops st) with
  | Some err => ({| st with ops := S (ops st) |}, Some err)
  | None =>
      match io_error (S (ops st)) with
      | Some err => ({| st with ops := S (S (ops st)) |}, Some err)
      | None =>
          let st := {| st with ops := S (S (ops st)); file := None |} in
          match Encode config with
          | inr err => (st, Some err)
          | inl b => ({| st with file := Some b |}, None)
          end
      end
  end.

(** [ReadConfig]: the decoder applies the defaults. *)
Definition ReadConfig (now : Z) st : State * (Config + error) :=
  match io_error (ops st), file st with
  | Some err, _ => ({| st with ops := S (ops st) |}, inr err)
  | None, None => ({| st with ops := S (ops st) |}, inr (Errorf "no such file or directory"))
  | None, Some b =>
      match Decode b with
      | inr err => ({| st with ops := S (ops st) |}, inr err)
      | inl c =>
          let config := SetObjectDefaults_Config now c in
          ({| st with ops := S (ops st); conf := Some config |}, inl config)
      end
  end.

(** *** The current cluster *)
Definition CurrentCluster st : string + error :=
  let check currentCluster :=
    if bool_decide (length (Split "-" currentCluster) = 2) then inl currentCluster
    else inr (Errorf ("current cluster '" +:+ currentCluster +:+
      "' is not in the correct format: <environment>-<clusterName>")) in
  if negb (bool_decide (fl_CurrentCluster flags = "")) then check (fl_CurrentCluster flags)
  else match conf st with
       | None => inr (Errorf "config is nil")
       | Some c => check (cf_CurrentCluster c)
       end.

Definition retrieving (err : error) : error :=
  Errorf ("error retrieving current cluster: " +:+ error_string err).

Definition CurrentClusterName st : GoM (string + error) :=
  match CurrentCluster st with
  | inr err => Ret (inr (retrieving err))
  | inl currentCluster =>
      let split := Split "-" currentCluster in
      if bool_decide (length split < 2) then Ret (inl "") else inl <$> index split 1
  end.

Definition CurrentEnvironmentName st : GoM (string + error) :=
  match CurrentCluster st with
  | inr err => Ret (inr (retrieving err))
  | inl currentCluster => inl <$> index (Split "-" currentCluster) 0
  end.

Definition SetCurrentCluster st (clusterName : string) : GoM (State * option error) :=
  c ← deref (conf st);
  let c := with_current clusterName c in
  mret (writeYAML {| st with conf := Some c |} c).

(** *** Look-ups *)
Definition find_Cluster st (environment name : string) : GoM (Cluster + error) :=
  c ← deref (conf st);
  mret match list_find (λ cl, cl_Environment cl = environment ∧ cl_Name cl = name)
               (cf_Clusters c) with
       | Some (_, cl) => inl cl
       | None => inr (Errorf ("cluster '" +:+ name +:+ "' in environment '" +:+ environment
                              +:+ "' not found"))
       end.

Definition Clusters st (environment : string) : GoM (list Cluster) :=
  c ← deref (conf st);
  mret (filter (λ cl, cl_Environment cl = environment) (cf_Clusters c)).

Definition find_Environment st (name : string) : GoM (Environment + error) :=
  c ← deref (conf st);
  mret match list_find (λ e, env_Name e = name) (cf_Environments c) with
       | Some (_, e) => inl e
       | None => inr (Errorf ("environment '" +:+ name +:+ "' not found"))
       end.

Definition Environments st : list Environment :=
  match conf st with None => [] | Some c => cf_Environments c end.

Definition find_Provider st (name : string) : GoM (Provider + error) :=
  c ← deref (conf st);
  mret match list_find (λ p, pr_Name p = name) (cf_Providers c) with
       | Some (_, p) => inl p
       | None => inr (Errorf ("provider '" +:+ name +:+ "' not found"))
       end.

Definition Providers st : list Provider :=
  match conf st with None => [] | Some c => cf_Providers c end.

(** *** Uniqueness *)
Definition not_unique (name : string) : error := Errorf ("name '" +:+ name +:+ "' not unique").

Definition unique_name (names : list string) (name : string) : option error :=
  if decide (name ∈ names) then Some (not_unique name) else None.

Definition UniqueProviderName st (name : string) : option error :=
  unique_name (map pr_Name (Providers st)) name.

Definition UniqueEnvironmentName st (name : string) : option error :=
  unique_name (map env_Name (Environments st)) name.

Definition UniqueClusterName st (environment name : string) : GoM (option error) :=
  cls ← Clusters st environment;
  mret (unique_name (map cl_Name cls) name).

(** *** Appending *)

(** [if c.conf == nil { c.conf = &Config{}; c.scheme.Default(c.conf) }] *)
Definition ensure_conf (now : Z) st : State :=
  match conf st with
  | None => {| st with conf := Some (SetObjectDefaults_Config now newConfig) |}
  | Some _ => st
  end.

(** Store a changed configuration and write it. *)
Definition store st (c : Config) : State * option error :=
  writeYAML {| st with conf := Some c |} c.

Definition failed_to_add (what : string) (err : error) : error :=
  Errorf ("failed to add " +:+ what +:+ ": " +:+ error_string err).

Definition AppendProvider (now : Z) st (prov : Provider) : GoM (State * option error) :=
  let st := ensure_conf now st in
  match UniqueProviderName st (pr_Name prov) with
  | Some err => mret (st, Some (failed_to_add "provider" err))
  | None =>
      c ← deref (conf st);
      mret (store st {| c with cf_Providers := cf_Providers c ++ [SetDefaults_Provider now prov] |})
  end.

Definition AppendEnvironment (now : Z) st (env : Environment) : GoM (State * option error) :=
  let st := ensure_conf now st in
  match UniqueEnvironmentName st (env_Name env) with
  | Some err => mret (st, Some (failed_to_add "environment" err))
  | None =>
      c ← deref (conf st);
      mret (store st
        {| c with cf_Environments := cf_Environments c ++ [SetDefaults_Environment now env] |})
  end.

Definition AppendCluster (now : Z) st (cluster : Cluster) : GoM (State * option error) :=
  let st := ensure_conf now st in
  r ← UniqueClusterName st (cl_Environment cluster) (cl_Name cluster);
  match r with
  | Some err => mret (st, Some (failed_to_add "cluster" err))
  | None =>
      c ← deref (conf st);
      mret (store st
        {| c with cf_Clusters := cf_Clusters c ++ [SetObjectDefaults_Cluster now cluster] |})
  end.

(** *** Removing an environment *)

(** [for key, env := range s { if env.Name == environment {
     s = append(s[:key], s[key+1:]...) } }], from [key] on.  The range is
    over the slice as it was at the start, [arr]; [m] is the length of the
    slice [s] now, which shares the backing array [arr].  [s[key+1:]]
    panics beyond the length of [s]. *)
Fixpoint remove_env_loop (rounds key : nat) (environment : string)
    (arr : list Environment) (m : nat) : GoM (list Environment) :=
  match rounds with
  | O => Ret (take m arr)
  | S rounds' =>
      env ← deref (arr !! key);
      if decide (env_Name env = environment) then
        if bool_decide (S key <= m) then
          remove_env_loop rounds' (S key) environment
            (take key arr ++ take (m - S key) (drop (S key) arr) ++ drop (m - 1) arr) (m - 1)
        else Panic
      else remove_env_loop rounds' (S key) environment arr m
  end.

Definition remove_environments (environment : string) (l : list Environment)
    : GoM (list Environment) :=
  remove_env_loop (length l) 0 environment l (length l).

(** [for i := 0; i < len(l); i++ { if l[i].Environment == environment {
     l = append(l[:i], l[i+1:]...); i -= 1 } }]: every round shortens what
    is ahead of [i], so [length l] rounds are enough. *)
Fixpoint remove_clusters_loop (fuel i : nat) (environment : string) (l : list Cluster)
    : list Cluster :=
  match fuel, l !! i with
  | S fuel', Some cl =>
      if decide (cl_Environment cl = environment)
      then remove_clusters_loop fuel' i environment (take i l ++ drop (S i) l)
      else remove_clusters_loop fuel' (S i) environment l
  | _, _ => l
  end.

Definition remove_clusters (environment : string) (l : list Cluster) : list Cluster :=
  remove_clusters_loop (length l) 0 environment l.

Definition RemoveEnvironment st (environment : string) : GoM (State * option error) :=
  c ← deref (conf st);
  envs ← remove_environments environment (cf_Environments c);
  let c := {| c with cf_Environments := envs;
                     cf_Clusters := remove_clusters environment (cf_Clusters c) |} in
  let st := {| st with conf := Some c |} in
  cur ← CurrentEnvironmentName st;
  match cur with
  | inr err => mret (st, Some err)
  | inl currentConfigEnvironment =>
      st ← (if bool_decide (currentConfigEnvironment = environment) then
              match cf_Clusters c with
              | [] => mret st
              | cl :: _ => r ← SetCurrentCluster st (cl_Environment cl +:+ "-" +:+ cl_Name cl); mret r.1
              end
            else mret st);
      c ← deref (conf st);
      mret (writeYAML st c)
  end.
End config.

Arguments State : clear implicits.
Arguments conf {_} _.
Arguments file {_} _.
Arguments ops {_} _.

(** ** Lemmas: the removal loops *)

Lemma remove_clusters_loop_filter fuel i environment l :
  length l - i <= fuel →
  remove_clusters_loop fuel i environment l =
  take i l ++ filter (λ cl, cl_Environment cl ≠ environment) (drop i l).
Proof.
  revert i l. induction fuel as [|fuel IH]; intros i l Hf; simpl.
  - rewrite drop_ge, take_ge by lia. by rewrite filter_nil, app_nil_r.
  - destruct (l !! i) as [cl|] eqn:Hi.
    + pose proof (lookup_lt_Some _ _ _ Hi) as Hlt. rewrite (drop_S _ _ _ Hi), filter_cons.
      case_decide as Hcl.
      * rewrite decide_False by tauto. rewrite IH.
        2:{ rewrite length_app, length_take, length_drop. lia. }
        rewrite take_app_length', drop_app_length' by (rewrite length_take; lia). done.
      * rewrite decide_True by done. rewrite IH by lia.
        rewrite (take_S_r _ _ _ Hi). by rewrite <- app_assoc.
    + apply lookup_ge_None in Hi. rewrite drop_ge, take_ge by lia. by rewrite filter_nil, app_nil_r.
Qed.

Lemma remove_clusters_filter environment l :
  remove_clusters environment l = filter (λ cl, cl_Environment cl ≠ environment) l.
Proof. unfold remove_clusters. rewrite remove_clusters_loop_filter by lia. done. Qed.

(** Rounds over elements with another name change nothing. *)
Lemma remove_env_loop_skip rounds more key environment arr m :
  key + rounds <= length arr →
  Forall (λ e, env_Name e ≠ environment) (take rounds (drop key arr)) →
  remove_env_loop (rounds + more) key environment arr m =
  remove_env_loop more (key + rounds) environment arr m.
Proof.
  revert key. induction rounds as [|rounds IH]; intros key Hlen Hall; simpl.
  - by rewrite Nat.add_0_r.
  - destruct (lookup_lt_is_Some_2 arr key) as [e He]; [lia|]. rewrite He. simpl.
    rewrite (drop_S _ _ _ He) in Hall. simpl in Hall. apply Forall_cons in Hall as [Hne Hall].
    rewrite decide_False by done. rewrite IH by (try done; lia). f_equal. lia.
Qed.

(** The round that meets the environment closes the gap. *)
Lemma remove_env_loop_hit more environment l1 e l2 :
  env_Name e = environment →
  remove_env_loop (S more) (length l1) environment (l1 ++ e :: l2) (length (l1 ++ e :: l2)) =
  remove_env_loop more (S (length l1)) environment
    (l1 ++ l2 ++ drop (length (l1 ++ l2)) (l1 ++ e :: l2)) (length (l1 ++ l2)).
Proof.
  intros He. cbn [remove_env_loop].
  rewrite lookup_app_r, Nat.sub_diag by lia. cbn [deref lookup list_lookup mbind GoM_bind].
  rewrite decide_True, bool_decide_true by (try done; rewrite length_app; simpl; lia).
  f_equal.
  - rewrite take_app_length. f_equal. f_equal.
    + rewrite cons_middle, (app_assoc l1), drop_app_length' by (rewrite length_app; simpl; lia).
      apply take_ge. rewrite !length_app. simpl. lia.
    + f_equal. rewrite !length_app. simpl. lia.
  - rewrite !length_app. simpl. lia.
Qed.

Lemma tail_elem {A} (l1 : list A) e l2 x :
  x ∈ drop (length (l1 ++ l2)) (l1 ++ e :: l2) → l2 ≠ [] → x ∈ l2.
Proof.
  intros Hx Hl2. destruct l2 as [|y l2 _] using rev_ind; [done|].
  revert Hx. rewrite app_comm_cons, !app_assoc, drop_app_length'.
  - set_solver.
  - rewrite !length_app. simpl. lia.
Qed.

Lemma remove_environments_filter environment l :
  NoDup (map env_Name l) →
  remove_environments environment l = Ret (filter (λ e, env_Name e ≠ environment) l).
Proof.
  intros Hl. unfold remove_environments.
  destruct (decide (environment ∈ map env_Name l)) as [Hin|Hout].
  - apply list_elem_of_fmap in Hin as (e & He & Hin). apply list_elem_of_split in Hin as (l1 & l2 & ->).
    rewrite map_app in Hl. simpl in Hl. apply NoDup_app in Hl as (_ & Hd & Hl2).
    apply NoDup_cons in Hl2 as [Hl2 _].
    assert (H1 : Forall (λ e, env_Name e ≠ environment) l1).
    { apply Forall_forall. intros x Hx Hn. apply (Hd (env_Name x)); [by apply list_elem_of_fmap_2|].
      rewrite Hn, He. apply elem_of_cons. by left. }
    assert (H2 : Forall (λ e, env_Name e ≠ environment) l2).
    { apply Forall_forall. intros x Hx Hn. apply Hl2. rewrite <- He, <- Hn. by apply list_elem_of_fmap_2. }
    rewrite filter_app, filter_cons_False by (rewrite He; tauto).
    rewrite !filter_all by done.
    replace (length (l1 ++ e :: l2)) with (length l1 + S (length l2)) at 1
      by (rewrite length_app; simpl; lia).
    rewrite remove_env_loop_skip; [|rewrite length_app; lia|].
    2:{ rewrite drop_0, take_app_length. done. }
    rewrite Nat.add_0_l, remove_env_loop_hit by (by symmetry).
    replace (length l2) with (length l2 + 0) at 1 by lia. rewrite remove_env_loop_skip.
    + cbn [remove_env_loop]. f_equal. rewrite app_assoc. apply take_app_length.
    + rewrite !length_app, length_drop, !length_app. simpl. lia.
    + destruct (decide (l2 = [])) as [->|Hne]; [constructor|].
      apply Forall_forall. intros x Hx%elem_of_take_sub%elem_of_drop_sub. revert Hx.
      rewrite app_assoc, !elem_of_app. rewrite Forall_forall in H1, H2.
      intros [[?|?]|Hx]; eauto. apply tail_elem in Hx; eauto.
  - assert (H : Forall (λ e, env_Name e ≠ environment) l).
    { apply Forall_forall. intros x Hx Hn. apply Hout. rewrite <- Hn. by apply list_elem_of_fmap_2. }
    rewrite filter_all by done.
    replace (length l) with (length l + 0) at 1 by lia. rewrite remove_env_loop_skip.
    + simpl. by rewrite take_ge.
    + done.
    + rewrite drop_0, take_ge by done. done.
Qed.

(** ** Lemmas: files, names, uniqueness *)
Section config_lemmas.
Context {bytes : Type} (Encode : Config → bytes + error).
Context (io_error : nat → option error) (flags : Flags).
Implicit Types st : State bytes.

(** The file holds the encoding of the configuration in memory. *)
Definition in_sync st : Prop :=
  ∃ c b, conf st = Some c ∧ Encode c = inl b ∧ file st = Some b.

Lemma store_spec st c :
  let '(st', err) := store Encode io_error st c in
  conf st' = Some c ∧ (err = None → in_sync st').
Proof.
  unfold store, writeYAML. simpl. repeat case_match; simpl; simplify_eq/=; try done.
  split; [done|]. intros _. unfold in_sync. simpl. eauto.
Qed.

Lemma writeYAML_store st c : conf st = Some c → writeYAML Encode io_error st c = store Encode io_error st c.
Proof. intros H. unfold store. f_equal. destruct st; simpl in *. by rewrite <- H. Qed.

Lemma ensure_conf_Some now st : ∃ c, conf (ensure_conf now st) = Some c.
Proof. unfold ensure_conf. destruct (conf st) eqn:E; simpl; eauto. Qed.

Lemma unique_name_None names name : unique_name names name = None ↔ name ∉ names.
Proof. unfold unique_name. case_decide; naive_solver. Qed.

(** Which cluster is current only depends on the flag and on the current
    cluster of the configuration. *)
Lemma CurrentCluster_conf st1 st2 :
  cf_CurrentCluster <$> conf st1 = cf_CurrentCluster <$> conf st2 →
  CurrentCluster flags st1 = CurrentCluster flags st2.
Proof.
  unfold CurrentCluster. destruct (conf st1), (conf st2); simpl; intros H; try discriminate H.
  - injection H as H. by rewrite H.
  - done.
Qed.

Lemma CurrentCluster_split st s :
  CurrentCluster flags st = inl s →
  ∃ env name, Split "-" s = [env; name] ∧ s = env +:+ "-" +:+ name.
Proof.
  unfold CurrentCluster. intros H.
  assert (length (Split "-" s) = 2) as Hl.
  { repeat case_match; simplify_eq; by go_bool. }
  destruct (Split "-" s) as [|a [|b [|]]] eqn:E; try discriminate Hl.
  exists a, b. split; [done|]. by apply Split_inv2.
Qed.

Lemma CurrentEnvironmentName_total st :
  ∃ r, CurrentEnvironmentName flags st = Ret r ∧
    match CurrentCluster flags st with
    | inl s => r = inl (hd "" (Split "-" s))
    | inr err => r = inr (retrieving err)
    end.
Proof.
  unfold CurrentEnvironmentName. destruct (CurrentCluster flags st) as [s|err] eqn:E; [|eauto].
  apply CurrentCluster_split in E as (a & b & -> & _). simpl. eauto.
Qed.
End config_lemmas.

(** Names are unique: environments and providers by name, clusters by name
    within their environment. *)
Record wf_config (c : Config) : Prop := {
  wf_environments : NoDup (map env_Name (cf_Environments c));
  wf_providers : NoDup (map pr_Name (cf_Providers c));
  wf_clusters : NoDup (map (λ cl, (cl_Environment cl, cl_Name cl)) (cf_Clusters c));
}.

Lemma NoDup_map_filter {A B} (f : A → B) (P : A → Prop) `{∀ x, Decision (P x)} l :
  NoDup (map f l) → NoDup (map f (filter P l)).
Proof.
  induction l as [|x l IH]; simpl; [done|]. rewrite NoDup_cons. intros [Hx Hl].
  rewrite filter_cons. case_decide; simpl; [|by auto]. constructor; [|by auto].
  intros (y & Hy & Hin)%list_elem_of_fmap. apply Hx. rewrite Hy.
  apply list_elem_of_fmap_2. by apply list_elem_of_filter in Hin as [_ ?].
Qed.

Lemma NoDup_map_snoc {A B} (f : A → B) l x :
  NoDup (map f l) → f x ∉ map f l → NoDup (map f (l ++ [x])).
Proof.
  intros Hl Hx. rewrite map_app. apply NoDup_app. split_and!; [done| |apply NoDup_singleton].
  simpl. set_solver.
Qed.

(** ** The operations as one system *)
Section system.
Context {bytes : Type} (Encode : Config → bytes + error).
Context (io_error : nat → option error) (flags : Flags).
Implicit Types st : State bytes.

Inductive op :=
| OpAppendProvider (prov : Provider)
| OpAppendEnvironment (env : Environment)
| OpAppendCluster (cluster : Cluster)
| OpRemoveEnvironment (environment : string)
| OpSetCurrentCluster (clusterName : string).

Definition exec (now : Z) (o : op) st : GoM (State bytes * option error) :=
  match o with
  | OpAppendProvider prov => AppendProvider Encode io_error now st prov
  | OpAppendEnvironment env => AppendEnvironment Encode io_error now st env
  | OpAppendCluster cluster => AppendCluster Encode io_error now st cluster
  | OpRemoveEnvironment environment => RemoveEnvironment Encode io_error flags st environment
  | OpSetCurrentCluster clusterName => SetCurrentCluster Encode io_error st clusterName
  end.

(** A configuration is loaded and its names are unique. *)
Definition wf st : Prop := ∃ c, conf st = Some c ∧ wf_config c.

Lemma store_wf st c :
  wf_config c →
  let '(st', err) := store Encode io_error st c in wf st' ∧ (err = None → in_sync Encode st').
Proof.
  intros Hc. pose proof (store_spec Encode io_error st c) as H.
  destruct (store _ _ _ _) as [st' err]. destruct H as [? ?]. split; [by exists c|done].
Qed.

(** What an operation that returns guarantees. *)
Definition good (r : GoM (State bytes * option error)) : Prop :=
  match r with
  | Ret (st', err) => wf st' ∧ (err = None → in_sync Encode st')
  | Panic => False
  end.

Lemma good_store st c : wf_config c → good (Ret (store Encode io_error st c)).
Proof. intros Hc. pose proof (store_wf st c Hc). simpl. by destruct (store _ _ _ _). Qed.

Lemma good_error st err : wf st → good (Ret (st, Some err)).
Proof. done. Qed.

Lemma ensure_conf_wf now st : wf st → ensure_conf now st = st.
Proof. unfold wf, ensure_conf. by intros (c & -> & _). Qed.

Lemma AppendProvider_good now st prov : wf st → good (AppendProvider Encode io_error now st prov).
Proof.
  intros Hwf. unfold AppendProvider. rewrite ensure_conf_wf by done.
  destruct (UniqueProviderName _ _) eqn:E; [by apply good_error|].
  destruct Hwf as (c & Hc & [? ? ?]). rewrite Hc. apply good_store. split; try done. simpl.
  apply NoDup_map_snoc; [done|]. unfold UniqueProviderName, Providers in E. rewrite Hc in E.
  by apply unique_name_None in E.
Qed.

Lemma AppendEnvironment_good now st env :
  wf st → good (AppendEnvironment Encode io_error now st env).
Proof.
  intros Hwf. unfold AppendEnvironment. rewrite ensure_conf_wf by done.
  destruct (UniqueEnvironmentName _ _) eqn:E; [by apply good_error|].
  destruct Hwf as (c & Hc & [? ? ?]). rewrite Hc. apply good_store. split; try done. simpl.
  apply NoDup_map_snoc; [done|]. unfold UniqueEnvironmentName, Environments in E. rewrite Hc in E.
  by apply unique_name_None in E.
Qed.

Lemma AppendCluster_good now st cl : wf st → good (AppendCluster Encode io_error now st cl).
Proof.
  intros Hwf. unfold AppendCluster. rewrite ensure_conf_wf by done.
  destruct Hwf as (c & Hc & Hwf). unfold UniqueClusterName, Clusters. rewrite Hc. simpl.
  destruct (unique_name _ _) eqn:E; [apply good_error; by exists c|].
  apply good_store. destruct Hwf. split; try done. simpl.
  apply NoDup_map_snoc; [done|]. apply unique_name_None in E.
  intros (cl' & [= He Hn] & Hin)%list_elem_of_fmap. apply E. unfold cl_Name in Hn |- *. simpl in Hn.
  rewrite Hn. apply (list_elem_of_fmap_2 cl_Name), list_elem_of_filter. done.
Qed.

Lemma SetCurrentCluster_good st name : wf st → good (SetCurrentCluster Encode io_error st name).
Proof.
  intros (c & Hc & [? ? ?]). unfold SetCurrentCluster. rewrite Hc. cbn [deref mbind GoM_bind].
  by apply good_store.
Qed.

(** The configuration without an environment and its clusters. *)
Definition without (environment : string) (c : Config) : Config :=
  {| c with
     cf_Environments := filter (λ e, env_Name e ≠ environment) (cf_Environments c);
     cf_Clusters := filter (λ cl, cl_Environment cl ≠ environment) (cf_Clusters c) |}.

(** The current cluster after the removal. *)
Definition new_current (environment : string) (current : string) (c : Config) : string :=
  match cf_Clusters c with
  | cl :: _ =>
      if bool_decide (hd "" (Split "-" current) = environment)
      then cl_Environment cl +:+ "-" +:+ cl_Name cl else cf_CurrentCluster c
  | [] => cf_CurrentCluster c
  end.

Lemma same_current c : with_current (cf_CurrentCluster c) c = c.
Proof. by destruct c. Qed.

(** What [RemoveEnvironment] does, on every branch. *)
Lemma RemoveEnvironment_eq st c environment :
  conf st = Some c → NoDup (map env_Name (cf_Environments c)) →
  let c' := without environment c in
  match CurrentCluster flags st with
  | inr err =>
      RemoveEnvironment Encode io_error flags st environment
      = Ret ({| st with conf := Some c' |}, Some (retrieving err))
  | inl current =>
      ∃ st0, RemoveEnvironment Encode io_error flags st environment
             = Ret (store Encode io_error st0
                      (with_current (new_current environment current c') c'))
  end.
Proof.
  intros Hc Hnd c'. unfold RemoveEnvironment. rewrite Hc. cbn [deref mbind GoM_bind].
  rewrite remove_environments_filter by done. cbn [deref mbind GoM_bind].
  rewrite remove_clusters_filter. fold (without environment c). fold c'.
  set (st1 := {| st with conf := Some c' |}).
  assert (CurrentCluster flags st1 = CurrentCluster flags st) as Hcur.
  { apply CurrentCluster_conf. by rewrite Hc. }
  destruct (CurrentEnvironmentName_total flags st1) as (r & -> & Hr). rewrite Hcur in Hr.
  cbn [mbind GoM_bind]. destruct (CurrentCluster flags st) as [cur|err]; subst r; [|done].
  remember (with_current (new_current environment cur c') c') as c2 eqn:Hc2.
  destruct (bool_decide (hd "" (Split "-" cur) = environment)) eqn:Ecur;
    [destruct (cf_Clusters c') as [|cl cls] eqn:Ecl|].
  - replace (new_current environment cur c') with (cf_CurrentCluster c') in Hc2
      by (unfold new_current; by rewrite Ecl).
    rewrite same_current in Hc2. subst c2. exists st1. by rewrite <- (writeYAML_store _ _ st1).
  - replace (new_current environment cur c') with (cl_Environment cl +:+ "-" +:+ cl_Name cl) in Hc2
      by (unfold new_current; by rewrite Ecl, Ecur).
    unfold SetCurrentCluster. cbn [deref mbind GoM_bind conf st1 mret GoM_ret]. rewrite <- Hc2.
    pose proof (store_spec Encode io_error st1 c2) as Hst. unfold store in Hst.
    destruct (writeYAML _ _ _ _) as [st2 err2]. destruct Hst as [Hst _]. cbn [fst].
    rewrite Hst. cbn [deref mbind GoM_bind]. exists st2. by rewrite writeYAML_store.
  - replace (new_current environment cur c') with (cf_CurrentCluster c') in Hc2
      by (unfold new_current; rewrite Ecur; by case_match).
    rewrite same_current in Hc2. subst c2. exists st1. by rewrite <- (writeYAML_store _ _ st1).
Qed.

Lemma without_wf environment c : wf_config c → wf_config (without environment c).
Proof. intros [? ? ?]. split; simpl; try done; by apply NoDup_map_filter. Qed.

Lemma RemoveEnvironment_good st environment :
  wf st → good (RemoveEnvironment Encode io_error flags st environment).
Proof.
  intros (c & Hc & Hwf). pose proof (RemoveEnvironment_eq st c environment Hc (wf_environments _ Hwf)) as H.
  pose proof (without_wf environment c Hwf) as [? ? ?].
  destruct (CurrentCluster flags st); [destruct H as [st0 ->]; by apply good_store|].
  simpl in H. rewrite H. apply good_error. by eexists.
Qed.
End system.

(** ** Properties *)
Section properties.
Context {bytes : Type} (Encode : Config → bytes + error).
Context (io_error : nat → option error) (flags : Flags).
Implicit Types st : State bytes.

(** Operations one after the other, each at its own time. *)
Fixpoint run (ops : list (Z * op)) st : GoM (State bytes) :=
  match ops with
  | [] => Ret st
  | (now, o) :: ops' =>
      r ← exec Encode io_error flags now o st;
      run ops' r.1
  end.

Lemma exec_good now o st : wf st → good Encode (exec Encode io_error flags now o st).
Proof.
  destruct o; simpl; eauto using AppendProvider_good, AppendEnvironment_good,
    AppendCluster_good, RemoveEnvironment_good, SetCurrentCluster_good.
Qed.

(** C1: from a loaded configuration with unique names, any sequence of
    appends, removals and changes of the current cluster runs without a
    panic and leaves a configuration with unique names; and an operation
    that reports success leaves in the file the encoding of the
    configuration in memory. *)
Theorem config_run_invariant ops st :
  wf st →
  (∃ st', run ops st = Ret st' ∧ wf st' ∧
    ∀ now o st'' err,
      exec Encode io_error flags now o st' = Ret (st'', err) → err = None → in_sync Encode st'').
Proof.
  revert st. induction ops as [|[now o] ops IH]; intros st Hwf; simpl.
  - exists st. split_and!; try done. intros now o st'' err Hex ->.
    pose proof (exec_good now o st Hwf) as Hg. rewrite Hex in Hg. by apply Hg.
  - pose proof (exec_good now o st Hwf) as Hg.
    destruct (exec _ _ _ _ _ _) as [[st1 err]|]; [|done]. apply IH, Hg.
Qed.

(** [RemoveEnvironment] deletes exactly the environment named and all
    of its clusters and nothing else; when the current cluster was in it and
    a cluster is left, the first one left becomes current; on success that
    configuration is the one in the file.  When the current cluster's name
    is malformed the removal stays in memory, the error is returned and the
    file is not touched. *)
Theorem RemoveEnvironment_correct st c environment :
  conf st = Some c → NoDup (map env_Name (cf_Environments c)) →
  let c' := without environment c in
  match CurrentCluster flags st with
  | inr err =>
      RemoveEnvironment Encode io_error flags st environment
      = Ret ({| st with conf := Some c' |}, Some (retrieving err))
  | inl current =>
      ∃ st' err, RemoveEnvironment Encode io_error flags st environment = Ret (st', err) ∧
        conf st' = Some (with_current (new_current environment current c') c') ∧
        (err = None → in_sync Encode st')
  end.
Proof.
  intros Hc Hnd c'. pose proof (RemoveEnvironment_eq Encode io_error flags st c environment Hc Hnd) as H.
  fold c' in H. destruct (CurrentCluster flags st) as [cur|]; [|done]. destruct H as [st0 ->].
  pose proof (store_spec Encode io_error st0 (with_current (new_current environment cur c') c')) as Hs.
  destruct (store _ _ _ _) as [st' err]. by exists st', err.
Qed.

(** A cluster name that is taken in its environment is refused and
    changes nothing; otherwise the cluster, with its defaults, is what a
    look-up of its environment and name finds afterwards, and every other
    look-up finds what it found before. *)
Theorem AppendCluster_lookup now st cl st' err :
  wf st → AppendCluster Encode io_error now st cl = Ret (st', err) →
  match find_Cluster st (cl_Environment cl) (cl_Name cl) with
  | Ret (inl _) => st' = st ∧ err = Some (failed_to_add "cluster" (not_unique (cl_Name cl)))
  | _ =>
      find_Cluster st' (cl_Environment cl) (cl_Name cl)
      = Ret (inl (SetObjectDefaults_Cluster now cl)) ∧
      ∀ environment name, (environment, name) ≠ (cl_Environment cl, cl_Name cl) →
        find_Cluster st' environment name = find_Cluster st environment name
  end.
Proof.
  intros Hwf. pose proof Hwf as (c & Hc & _). unfold AppendCluster.
  rewrite ensure_conf_wf by done. unfold UniqueClusterName, Clusters, find_Cluster. rewrite Hc. simpl.
  unfold unique_name. destruct (decide _) as [Hin|Hout].
  - intros [= <- <-]. apply list_elem_of_fmap in Hin as (cl0 & Hn & [He Hin]%list_elem_of_filter).
    destruct (list_find _ _) as [[]|] eqn:E; [done|].
    apply list_find_None in E. rewrite Forall_forall in E. exfalso. by apply (E cl0).
  - set (cl' := SetObjectDefaults_Cluster now cl). intros Hst.
    pose proof (store_spec Encode io_error st
      {| c with cf_Clusters := cf_Clusters c ++ [cl'] |}) as Hs.
    injection Hst as Hst. rewrite Hst in Hs. destruct Hs as [Hs _]. rewrite Hs. simpl.
    assert (E : list_find (λ x, cl_Environment x = cl_Environment cl ∧ cl_Name x = cl_Name cl)
      (cf_Clusters c) = None).
    { apply list_find_None, Forall_forall. intros x Hx [He Hn]. apply Hout. rewrite <- Hn.
      apply (list_elem_of_fmap_2 cl_Name), list_elem_of_filter. done. }
    rewrite E. split.
    + rewrite list_find_app_r by done. simpl. by rewrite decide_True.
    + intros environment name Hne.
      destruct (list_find (λ x, cl_Environment x = environment ∧ cl_Name x = name) (cf_Clusters c))
        as [[i x]|] eqn:E'.
      * by rewrite (list_find_app_l _ _ _ _ _ E').
      * rewrite list_find_app_r by done. simpl. rewrite decide_False; [done|].
        intros [He Hn]. apply Hne. by rewrite <- He, <- Hn.
Qed.
End properties.

(** The current cluster is accepted exactly when it has one dash, and
    then the names of the current environment and cluster are the two parts
    of it; the command line flag, when set, takes precedence over the
    configuration. *)
Theorem CurrentCluster_names {bytes} flags (st : State bytes) c :
  conf st = Some c →
  let s := if bool_decide (fl_CurrentCluster flags = "") then cf_CurrentCluster c
           else fl_CurrentCluster flags in
  (∀ environment name, has_byte "-" environment = false → has_byte "-" name = false →
     s = environment +:+ "-" +:+ name →
     CurrentCluster flags st = inl s ∧
     CurrentEnvironmentName flags st = Ret (inl environment) ∧
     CurrentClusterName flags st = Ret (inl name)) ∧
  (∀ s', CurrentCluster flags st = inl s' →
     s' = s ∧ ∃ environment name, s = environment +:+ "-" +:+ name ∧
       has_byte "-" environment = false ∧ has_byte "-" name = false).
Proof.
  intros Hc s.
  assert (Hs : ∀ s', CurrentCluster flags st = inl s' → s' = s).
  { unfold CurrentCluster. rewrite Hc. unfold s. intros s' H.
    destruct (bool_decide (fl_CurrentCluster flags = "")); simpl in H; by case_match; simplify_eq. }
  split.
  - intros environment name He Hn Heq.
    assert (Hsp : Split "-" s = [environment; name]).
    { rewrite Heq. change ("-" +:+ name) with (String "-" name).
      rewrite Split_app by done. by rewrite Split_no_sep. }
    assert (Hcur : CurrentCluster flags st = inl s).
    { unfold CurrentCluster. rewrite Hc. revert Hsp. unfold s.
      destruct (bool_decide (fl_CurrentCluster flags = "")); simpl; intros ->; done. }
    unfold CurrentEnvironmentName, CurrentClusterName. rewrite Hcur, Hsp. done.
  - intros s' H. split; [by apply Hs|]. pose proof (Hs s' H) as ->.
    apply CurrentCluster_split in H as (a & b & Hsp & ->). exists a, b. split; [done|].
    split; apply (Split_elem_no_sep "-" (a +:+ "-" +:+ b)); rewrite Hsp; set_solver.
Qed.

(** *** Witnesses *)
Definition no_flags : Flags :=
  {| fl_CurrentCluster := ""; fl_WingDevMode := false; fl_IgnoreMissingPublicKeyTags := false |}.

Definition env_named (name : string) : Environment := NewEnvironment 1 name "" "".

(** A codec that stores the configuration itself, on a disk without
    failures. *)
Definition two_environments : State Config :=
  {| conf := Some {| newConfig with cf_CurrentCluster := "dev-cluster";
               cf_Environments := [env_named "dev"; env_named "prod"];
               cf_Clusters := [NewClusterSingle 1 "dev" "cluster"; NewHub 1 "prod"] |};
     file := None; ops := 0 |}.

Ltac decide_compute := apply (bool_decide_unpack _); vm_compute; exact I.

Lemma two_environments_wf : wf two_environments.
Proof. eexists. split; [reflexivity|]. constructor; decide_compute. Qed.

Lemma config_run_invariant_witness :
  ∃ st', run (bytes := Config) inl (λ _, None) no_flags
           [(1%Z, OpRemoveEnvironment "dev"); (2%Z, OpAppendCluster (NewClusterMulti 2 "prod" "blue"))]
           two_environments = Ret st' ∧ wf st'.
Proof.
  destruct (config_run_invariant (bytes := Config) inl (λ _, None) no_flags
    [(1%Z, OpRemoveEnvironment "dev"); (2%Z, OpAppendCluster (NewClusterMulti 2 "prod" "blue"))]
    two_environments two_environments_wf) as (st' & H & Hwf & _).
  by exists st'.
Defined.

Lemma RemoveEnvironment_correct_witness :
  ∃ st' err, RemoveEnvironment (bytes := Config) inl (λ _, None) no_flags two_environments "dev"
    = Ret (st', err) ∧
    (cf_CurrentCluster <$> conf st') = Some "prod-hub".
Proof.
  destruct (RemoveEnvironment_correct (bytes := Config) inl (λ _, None) no_flags two_environments
    (default newConfig (conf two_environments)) "dev") as (st' & err & H & Hc & _).
  - reflexivity.
  - decide_compute.
  - exists st', err. split; [exact H|]. rewrite Hc. vm_compute. reflexivity.
Defined.

Lemma AppendCluster_lookup_witness :
  ∃ st' err,
    AppendCluster (bytes := Config) inl (λ _, None) 2 two_environments (NewHub 2 "dev") = Ret (st', err) ∧
    find_Cluster st' "dev" "hub" = Ret (inl (SetObjectDefaults_Cluster 2 (NewHub 2 "dev"))).
Proof.
  eexists _, _. split; [reflexivity|].
  apply (AppendCluster_lookup (bytes := Config) inl (λ _, None) 2 two_environments (NewHub 2 "dev") _ _
    two_environments_wf eq_refl).
Defined.

Lemma CurrentCluster_names_witness :
  CurrentEnvironmentName no_flags two_environments = Ret (inl "dev") ∧
  CurrentClusterName no_flags two_environments = Ret (inl "cluster").
Proof.
  by apply (CurrentCluster_names no_flags two_environments
    (default newConfig (conf two_environments)) eq_refl).
Defined.

(** Without the uniqueness of names the removal is not safe: with an
    environment listed twice at the end of the list the range loop, which
    runs over the original length, slices beyond the shortened one and
    panics. *)
Theorem RemoveEnvironment_duplicate_panics environment :
  remove_environments environment [env_named environment; env_named environment] = Panic.
Proof. unfold remove_environments. simpl. by rewrite !decide_True. Qed.
