(* ===== verification/Regexp.v ===== *)
(** * Regexp: the regular expressions the code matches with

    Package [regexp] as far as the sources need it: an expression is matched
    by taking derivatives, [matches_correct] relates the matcher to the
    usual inductive reading.  [MatchString] looks for a match anywhere in the
    text, so an expression without an anchor is surrounded by [any]. *)

From S2P Require Import Prelude.

Inductive re :=
| Nothing
| Eps
| Char (p : ascii → bool)
| Cat (r1 r2 : re)
| Alt (r1 r2 : re)
| Star (r : re).

(** The strings an expression stands for. *)
Inductive Matches : re → list ascii → Prop :=
| M_Eps : Matches Eps []
| M_Char p c : p c = true → Matches (Char p) [c]
| M_Cat r1 r2 s1 s2 : Matches r1 s1 → Matches r2 s2 → Matches (Cat r1 r2) (s1 ++ s2)
| M_Alt_l r1 r2 s : Matches r1 s → Matches (Alt r1 r2) s
| M_Alt_r r1 r2 s : Matches r2 s → Matches (Alt r1 r2) s
| M_Star_nil r : Matches (Star r) []
| M_Star_cons r s1 s2 : Matches r s1 → Matches (Star r) s2 → Matches (Star r) (s1 ++ s2).

Fixpoint nullable (r : re) : bool :=
  match r with
  | Nothing | Char _ => false
  | Eps | Star _ => true
  | Cat r1 r2 => nullable r1 && nullable r2
  | Alt r1 r2 => nullable r1 || nullable r2
  end.

Fixpoint deriv (c : ascii) (r : re) : re :=
  match r with
  | Nothing | Eps => Nothing
  | Char p => if p c then Eps else Nothing
  | Cat r1 r2 =>
      if nullable r1 then Alt (Cat (deriv c r1) r2) (deriv c r2) else Cat (deriv c r1) r2
  | Alt r1 r2 => Alt (deriv c r1) (deriv c r2)
  | Star r => Cat (deriv c r) (Star r)
  end.

(** Drop the parts that cannot match, so that derivatives stay small. *)
Definition cat (r1 r2 : re) : re :=
  match r1, r2 with
  | Nothing, _ | _, Nothing => Nothing
  | Eps, r | r, Eps => r
  | _, _ => Cat r1 r2
  end.
Definition alt (r1 r2 : re) : re :=
  match r1, r2 with
  | Nothing, r | r, Nothing => r
  | _, _ => Alt r1 r2
  end.
Fixpoint simplify (r : re) : re :=
  match r with
  | Cat r1 r2 => cat (simplify r1) (simplify r2)
  | Alt r1 r2 => alt (simplify r1) (simplify r2)
  | r => r
  end.

Fixpoint matches (r : re) (s : list ascii) : bool :=
  match s with
  | [] => nullable r
  | c :: s' => matches (simplify (deriv c r)) s'
  end.

(** ** Character classes and building blocks *)
Definition range_of (lo hi : ascii) (c : ascii) : bool :=
  (nat_of_ascii lo <=? nat_of_ascii c) && (nat_of_ascii c <=? nat_of_ascii hi).
Definition alnum (c : ascii) : bool := range_of "a" "z" c || range_of "A" "Z" c || range_of "0" "9" c.
Definition one_of (l : list ascii) (c : ascii) : bool := bool_decide (c ∈ l).
Definition any : re := Star (Char (λ _, true)).
Definition lit (s : string) : re := foldr (λ c r, Cat (Char (Ascii.eqb c)) r) Eps (bytes_of s).
Definition opt (r : re) : re := Alt Eps r.
Definition plus (r : re) : re := Cat r (Star r).

Definition MatchString (r : re) (s : string) : bool := matches r (bytes_of s).

(** ** The matcher is right *)
Lemma Matches_Nothing s : ¬ Matches Nothing s.
Proof. by inversion 1. Qed.

Lemma Matches_Eps s : Matches Eps s ↔ s = [].
Proof. split; [by inversion 1|]. intros ->. constructor. Qed.

Lemma Matches_Char p s : Matches (Char p) s ↔ ∃ c, s = [c] ∧ p c = true.
Proof.
  split.
  - inversion 1; subst; eauto.
  - intros (c & -> & ?). by constructor.
Qed.

Lemma Matches_Cat r1 r2 s :
  Matches (Cat r1 r2) s ↔ ∃ s1 s2, s = s1 ++ s2 ∧ Matches r1 s1 ∧ Matches r2 s2.
Proof.
  split.
  - inversion 1; subst; eauto 10.
  - intros (s1 & s2 & -> & ? & ?). by constructor.
Qed.

Lemma Matches_Alt r1 r2 s : Matches (Alt r1 r2) s ↔ Matches r1 s ∨ Matches r2 s.
Proof.
  split; [by inversion 1; auto|]. intros [?|?]; [by apply M_Alt_l|by apply M_Alt_r].
Qed.

Lemma nullable_correct r : nullable r = true ↔ Matches r [].
Proof.
  induction r as [| |p|r1 IH1 r2 IH2|r1 IH1 r2 IH2|r IH]; simpl.
  - split; [done|]. by intros ?%Matches_Nothing.
  - by rewrite Matches_Eps.
  - rewrite Matches_Char. naive_solver.
  - rewrite andb_true_iff, IH1, IH2, Matches_Cat. split.
    + intros [? ?]. by exists [], [].
    + intros (s1 & s2 & Heq & ? & ?). symmetry in Heq. apply app_eq_nil in Heq as [-> ->]. done.
  - by rewrite orb_true_iff, IH1, IH2, Matches_Alt.
  - split; [constructor|done].
Qed.

Lemma Star_cons_inv r c s :
  Matches (Star r) (c :: s) → ∃ s1 s2, s = s1 ++ s2 ∧ Matches r (c :: s1) ∧ Matches (Star r) s2.
Proof.
  remember (Star r) as r' eqn:Hr. remember (c :: s) as t eqn:Ht. intros H. revert Hr Ht.
  induction H as [| | | | | |r0 s1 s2 H1 _ H2 IH]; intros Hr Ht; try discriminate.
  injection Hr as ->. destruct s1 as [|c' s1]; [by apply IH|].
  simpl in Ht. injection Ht as -> <-. by exists s1, s2.
Qed.

Lemma deriv_correct r c s : Matches (deriv c r) s ↔ Matches r (c :: s).
Proof.
  revert s. induction r as [| |p|r1 IH1 r2 IH2|r1 IH1 r2 IH2|r IH]; intros s; simpl.
  - split; by intros ?%Matches_Nothing.
  - rewrite Matches_Eps. split; [by intros ?%Matches_Nothing|done].
  - rewrite Matches_Char. destruct (p c) eqn:Hp.
    + rewrite Matches_Eps. split; [intros ->; eauto|]. by intros (c' & [= -> ->] & ?).
    + split; [by intros ?%Matches_Nothing|]. intros (c' & [= -> ->] & ?). congruence.
  - transitivity (Matches (Cat (deriv c r1) r2) s ∨ (nullable r1 = true ∧ Matches (deriv c r2) s)).
    { destruct (nullable r1); rewrite ?Matches_Alt; naive_solver. }
    rewrite nullable_correct, !Matches_Cat, IH2. split.
    + intros [(s1 & s2 & -> & H1%IH1 & H2)|[H1 H2]].
      * by exists (c :: s1), s2.
      * by exists [], (c :: s).
    + intros ([|c' s1] & s2 & Heq & H1 & H2); simpl in Heq.
      * subst s2. by right.
      * injection Heq as -> ->. left. exists s1, s2. by rewrite IH1.
  - by rewrite !Matches_Alt, IH1, IH2.
  - rewrite Matches_Cat. split.
    + intros (s1 & s2 & -> & H1%IH & H2). rewrite app_comm_cons. by constructor.
    + intros (s1 & s2 & -> & H1 & H2)%Star_cons_inv. exists s1, s2. by rewrite IH.
Qed.

Lemma cat_correct r1 r2 s : Matches (cat r1 r2) s ↔ Matches (Cat r1 r2) s.
Proof.
  assert (He1 : ∀ r s, Matches (Cat Eps r) s ↔ Matches r s).
  { intros r t. rewrite Matches_Cat. setoid_rewrite Matches_Eps. split.
    - by intros (s1 & s2 & -> & -> & ?).
    - intros. by exists [], t. }
  assert (He2 : ∀ r s, Matches (Cat r Eps) s ↔ Matches r s).
  { intros r t. rewrite Matches_Cat. setoid_rewrite Matches_Eps. split.
    - intros (s1 & s2 & -> & ? & ->). by rewrite app_nil_r.
    - intros. exists t, []. by rewrite app_nil_r. }
  assert (Hn : ∀ r s, Matches (Cat Nothing r) s ↔ Matches Nothing s).
  { intros r t. rewrite Matches_Cat. split; [|by intros ?%Matches_Nothing].
    by intros (? & ? & ? & ?%Matches_Nothing & ?). }
  assert (Hn2 : ∀ r s, Matches (Cat r Nothing) s ↔ Matches Nothing s).
  { intros r t. rewrite Matches_Cat. split; [|by intros ?%Matches_Nothing].
    by intros (? & ? & ? & ? & ?%Matches_Nothing). }
  destruct r1, r2; simpl; rewrite ?He1, ?He2, ?Hn, ?Hn2; done.
Qed.

Lemma alt_correct r1 r2 s : Matches (alt r1 r2) s ↔ Matches (Alt r1 r2) s.
Proof.
  assert (H1 : ∀ r s, Matches (Alt Nothing r) s ↔ Matches r s).
  { intros r t. rewrite Matches_Alt. split; [|by right]. by intros [?%Matches_Nothing|?]. }
  assert (H2 : ∀ r s, Matches (Alt r Nothing) s ↔ Matches r s).
  { intros r t. rewrite Matches_Alt. split; [|by left]. by intros [?|?%Matches_Nothing]. }
  destruct r1, r2; simpl; rewrite ?H1, ?H2; done.
Qed.

Lemma simplify_correct r s : Matches (simplify r) s ↔ Matches r s.
Proof.
  revert s. induction r as [| |p|r1 IH1 r2 IH2|r1 IH1 r2 IH2|r IH]; intros s; simpl; try done.
  - rewrite cat_correct, !Matches_Cat. by setoid_rewrite IH1; setoid_rewrite IH2.
  - by rewrite alt_correct, !Matches_Alt, IH1, IH2.
Qed.

Lemma matches_correct r s : matches r s = true ↔ Matches r s.
Proof.
  revert r. induction s as [|c s IH]; intros r; simpl.
  - apply nullable_correct.
  - by rewrite IH, simplify_correct, deriv_correct.
Qed.

Lemma Matches_any s : Matches any s.
Proof.
  induction s as [|c s IH]; [constructor|]. apply (M_Star_cons _ [c]); [by constructor|done].
Qed.

Lemma Matches_lit_list l s :
  Matches (foldr (λ c r, Cat (Char (Ascii.eqb c)) r) Eps l) s ↔ s = l.
Proof.
  revert s. induction l as [|c l IH]; intros s; simpl.
  - apply Matches_Eps.
  - rewrite Matches_Cat. setoid_rewrite Matches_Char. setoid_rewrite IH. split.
    + intros (s1 & s2 & -> & (c' & -> & Hc%Ascii.eqb_eq) & ->). by subst.
    + intros ->. exists [c], l. split_and!; try done. exists c. by rewrite Ascii.eqb_refl.
Qed.

Lemma Matches_lit t s : Matches (lit t) s ↔ s = bytes_of t.
Proof. apply Matches_lit_list. Qed.

Lemma Matches_prefix t s : Matches (Cat (lit t) any) s ↔ ∃ u, s = bytes_of t ++ u.
Proof.
  rewrite Matches_Cat. split.
  - intros (s1 & s2 & -> & ->%Matches_lit & _). eauto.
  - intros [u ->]. exists (bytes_of t), u. rewrite Matches_lit. eauto using Matches_any.
Qed.

Lemma Matches_suffix t s : Matches (Cat any (lit t)) s ↔ ∃ u, s = u ++ bytes_of t.
Proof.
  rewrite Matches_Cat. split.
  - intros (s1 & s2 & -> & _ & ->%Matches_lit). eauto.
  - intros [u ->]. exists u, (bytes_of t). rewrite Matches_lit. eauto using Matches_any.
Qed.

Lemma Matches_infix t s :
  Matches (Cat any (Cat (lit t) any)) s ↔ ∃ u1 u2, s = u1 ++ bytes_of t ++ u2.
Proof.
  rewrite Matches_Cat. split.
  - intros (s1 & s2 & -> & _ & [u ->]%Matches_prefix). eauto.
  - intros (u1 & u2 & ->). exists u1, (bytes_of t ++ u2). rewrite Matches_prefix.
    eauto using Matches_any.
Qed.
