(* ===== verification/Role.v ===== *)
(** * Role: what an instance pool is for

    [src/pkg/tarmak/role/role.go] and [src/pkg/tarmak/cluster/roles.go]: a
    role's names and permissions, and the table of roles every cluster
    defines, by instance pool type. *)

From S2P Require Import Prelude Types.

Record RoleAWS := {
  ELBIngress : bool;
  ELBAPI : bool;
  ELBAPIPublic : bool;
  ELBAPIPrivateRecord : bool;
  EnableInternalELBAccessLogs : bool;
  EnablePublicELBAccessLogs : bool;
  IAMELBController : bool;
  IAMEC2Controller : bool;
  IAMClusterAutoscaler : bool;
  IAMEC2Read : bool;
  IAMEC2ModifyInstanceAttributes : bool;
}.

Definition RoleAWS_zero : RoleAWS :=
  {| ELBIngress := false; ELBAPI := false; ELBAPIPublic := false; ELBAPIPrivateRecord := false;
     EnableInternalELBAccessLogs := false; EnablePublicELBAccessLogs := false;
     IAMELBController := false; IAMEC2Controller := false; IAMClusterAutoscaler := false;
     IAMEC2Read := false; IAMEC2ModifyInstanceAttributes := false |}.

Record Role := {
  role_name : string;
  role_prefix : string;
  role_Stateful : bool;
  role_AWS : option RoleAWS;
}.

Definition WithName (name : string) (r : Role) : Role := {| r with role_name := name |}.
Definition WithPrefix (prefix : string) (r : Role) : Role := {| r with role_prefix := prefix |}.

Definition Prefix (r : Role) (delimiter : string) : string :=
  if decide (role_prefix r = "") then "" else role_prefix r +:+ delimiter.

Definition role_TFName (r : Role) : string := Prefix r "_" +:+ role_name r.
Definition role_DNSName (r : Role) : string := Prefix r "-" +:+ role_name r.

Definition HasELB (r : Role) : GoM bool :=
  aws ← deref (role_AWS r); mret (ELBIngress aws || ELBAPI aws).

Definition HasEtcd (r : Role) : bool :=
  bool_decide (role_name r = "etcd") || bool_decide (role_name r = "etcd-master").
Definition HasMaster (r : Role) : bool :=
  bool_decide (role_name r = "master") || bool_decide (role_name r = "etcd-master").
Definition HasWorker (r : Role) : bool := bool_decide (role_name r = "worker").

Definition ELBIngressExternalName (r : Role) : string := role_name r +:+ "-ingress".
Definition ELBAPIName (r : Role) : string := role_name r +:+ "-api".
Definition role_HasPrefix (r : Role) : bool := negb (bool_decide (role_prefix r = "")).

(** ** roles.go *)
Abbreviation RoleMap := (gmap string Role).

Definition new_role (stateful : bool) (aws : RoleAWS) : Role :=
  {| role_name := ""; role_prefix := ""; role_Stateful := stateful; role_AWS := Some aws |}.

Definition defineToolsRoles (roleMap : RoleMap) : RoleMap :=
  <[InstancePoolTypeBastion := WithName "bastion" (new_role true RoleAWS_zero)]>
  (<[InstancePoolTypeJenkins :=
       WithName "jenkins" (new_role true {| RoleAWS_zero with ELBIngress := true |})]> roleMap).

Definition defineVaultRoles (roleMap : RoleMap) : RoleMap :=
  <[InstancePoolTypeVault := WithName "vault" (new_role true RoleAWS_zero)]> roleMap.

(** The permissions of a master. *)
Definition masterAWS : RoleAWS :=
  {| RoleAWS_zero with ELBAPI := true; IAMEC2Controller := true; IAMELBController := true;
     IAMClusterAutoscaler := true |}.

Definition defineKubernetesRoles (roleMap : RoleMap) : RoleMap :=
  let kubernetes name r := WithPrefix "kubernetes" (WithName name r) in
  <[InstancePoolTypeMasterEtcd := kubernetes "etcd-master" (new_role false masterAWS)]>
  (<[InstancePoolTypeEtcd := kubernetes "etcd" (new_role true RoleAWS_zero)]>
  (<[InstancePoolTypeWorker :=
       kubernetes "worker" (new_role false {| RoleAWS_zero with IAMEC2Read := true |})]>
  (<[InstancePoolTypeMaster := kubernetes "master" (new_role false masterAWS)]> roleMap))).

Definition all_roles : RoleMap :=
  defineKubernetesRoles (defineVaultRoles (defineToolsRoles ∅)).

(** ** Properties *)

(** The instance pool types that have a role, and whether it is stateful. *)
Definition role_types : list (string * bool) :=
  [(InstancePoolTypeJenkins, true); (InstancePoolTypeBastion, true); (InstancePoolTypeVault, true);
   (InstancePoolTypeMaster, false); (InstancePoolTypeWorker, false); (InstancePoolTypeEtcd, true);
   (InstancePoolTypeMasterEtcd, false)].

Lemma all_roles_lookup t :
  role_Stateful <$> all_roles !! t =
  (list_find (λ p, p.1 = t) role_types) ≫= λ r, Some r.2.2.
Proof.
  unfold all_roles, defineKubernetesRoles, defineVaultRoles, defineToolsRoles, role_types.
  repeat match goal with
  | |- context [(<[?k := _]> _ : RoleMap) !! t] =>
      destruct (decide (k = t)) as [<-|];
      [rewrite lookup_insert_eq; reflexivity | rewrite lookup_insert_ne by done]
  end.
  rewrite lookup_empty. simpl. by repeat rewrite decide_False by (simpl; congruence).
Qed.

(** The name of a role never contains the delimiter of Terraform names, so a
    prefixed name splits back into prefix and role. *)
Lemma all_roles_names t r :
  all_roles !! t = Some r → has_byte "_" (role_name r) = false ∧ has_byte "_" (role_prefix r) = false.
Proof.
  unfold all_roles, defineKubernetesRoles, defineVaultRoles, defineToolsRoles.
  rewrite !lookup_insert_Some, lookup_empty.
  intros H; repeat destruct H as [[<- <-]|[_ H]]; done.
Qed.
