(* ===== verification/Provider.v ===== *)
(** * Provider: cloud providers

    [CloudProvider] is what the rest of the program asks of a provider
    ([interfaces.Provider] in [src/pkg/tarmak/interfaces/interfaces.go]); the
    second half models the Amazon implementation,
    [src/pkg/tarmak/provider/amazon/amazon.go].  EC2 answers are arguments. *)

From S2P Require Import Prelude Types Net Utils.

(** A [map[string]interface{}] of Terraform variables holds these. *)
Inductive value :=
| VStr (s : string)
| VStrs (l : slice string)
| VInt (z : Z)
| VNet (n : IPNet).

Class CloudProvider := {
  Cloud : string;
  prov_Name : string;
  InstanceType : string → string + error;
  VolumeType : string → string + error;
  PublicZone : string;
  prov_String : string;
}.

(** ** Amazon *)
Module Amazon.

Record Amazon := {
  conf : Provider;
  availabilityZones : option (list string);
  remoteStateKMS : string;
}.

Definition Name (a : Amazon) : string := pr_Name (conf a).

(** [typeIn] is passed on when it is not one of the generic sizes. *)
Definition InstanceType (typeIn : string) : string + error :=
  if decide (typeIn = InstancePoolSizeTiny) then inl "t2.nano"
  else if decide (typeIn = InstancePoolSizeSmall) then inl "t2.medium"
  else if decide (typeIn = InstancePoolSizeMedium) then inl "m4.large"
  else if decide (typeIn = InstancePoolSizeLarge) then inl "m4.xlarge"
  else inl typeIn.

Definition VolumeType (typeIn : string) : string + error :=
  if decide (typeIn = VolumeTypeHDD) then inl "st2"
  else if decide (typeIn = VolumeTypeSSD) then inl "gp2"
  else inl typeIn.

Definition String (a : Amazon) : string := CloudAmazon +:+ "[" +:+ Name a +:+ "]".

#[global] Instance provider (a : Amazon) (zone : string) : CloudProvider := {
  Cloud := CloudAmazon;
  prov_Name := Name a;
  InstanceType := InstanceType;
  VolumeType := VolumeType;
  PublicZone := zone;
  prov_String := String a;
}.

(** [Reset], on the cached state kept here. *)
Definition Reset (a : Amazon) : Amazon := {| a with availabilityZones := None |}.

(** [location] is [None] without an environment. *)
Definition Region (location : option string) : string := default "us-east-1" location.

Definition Parameters (a : Amazon) : GoM (gmap string string) :=
  am ← deref (pr_Amazon (conf a));
  let p := <["bucket_prefix" := pa_BucketPrefix am]> (<["public_zone" := pa_PublicZone am]>
           (<["cloud" := CloudAmazon]> (<["name" := Name a]> ∅))) in
  let p := if decide (pa_VaultPath am = "") then p else <["vault_path" := pa_VaultPath am]> p in
  mret (if decide (pa_Profile am = "") then p else <["amazon_profile" := pa_Profile am]> p).

(** [regions] is the answer of DescribeRegions. *)
Definition ListRegions (regions : list string + error) : list string * option error :=
  match regions with
  | inr err => ([], Some err)
  | inl l => (sort_strings l, None)
  end.

Section zones.
Context `{MapRange}.

Definition AvailabilityZones (subnets : list Subnet) (a : Amazon) : Amazon * list string :=
  match availabilityZones a with
  | Some zones => (a, zones)
  | None =>
      let zones := sort_strings (keys (keyset (map sn_Zone subnets))) in
      ({| a with availabilityZones := Some zones |}, zones)
  end.

Definition Variables (key_name : string) (location : option string) (subnets : list Subnet)
    (a : Amazon) : GoM (Amazon * gmap string value) :=
  am ← deref (pr_Amazon (conf a));
  let output := <["key_name" := VStr key_name]> ∅ in
  let output := match pa_AllowedAccountIDs am with
                | [] => output
                | ids => <["allowed_account_ids" := VStrs (Some ids)]> output
                end in
  let '(a, zones) := AvailabilityZones subnets a in
  mret (a,
    <["remote_kms_key_id" := VStr (remoteStateKMS a)]>
    (<["bucket_prefix" := VStr (pa_BucketPrefix am)]>
    (<["public_zone_id" := VStr (pa_PublicHostedZoneID am)]>
    (<["public_zone" := VStr (pa_PublicZone am)]>
    (<["region" := VStr (Region location)]>
    (<["availability_zones" := VStrs (Some zones)]> output)))))).

(** [zones] is the answer of DescribeAvailabilityZones. *)
Definition getAvailablityZoneByRegion (zones : list string + error) : list string + error :=
  match zones with
  | inr err => inr err
  | inl l => inl (sort_strings l)
  end.

Definition verify_zone (location : option string) (zones : list string) (zoneConfigured : string)
    : option error :=
  if existsb (λ zone, negb (bool_decide (zone = "")) && bool_decide (zone = zoneConfigured)) zones
  then None
  else Some (Errorf ("specified invalid availability zone '" +:+ zoneConfigured +:+
                     "' for region '" +:+ Region location +:+ "'")).

Definition verifyAvailabilityZones (answer : list string + error) (location : option string)
    (subnets : list Subnet) (a : Amazon) : GoM (Amazon * option error) :=
  match getAvailablityZoneByRegion answer with
  | inr err => Ret (a, Some err)
  | inl [] =>
      Ret (a, Some (Errorf ("no availability zone found for region '" +:+ Region location +:+ "'")))
  | inl zones =>
      let '(a, configured) := AvailabilityZones subnets a in
      match collect (verify_zone location zones) configured None with
      | Some err => Ret (a, Some err)
      | None =>
          match configured with
          | [] =>
              zone ← index zones 0;
              if decide (zone = "") then Ret (a, Some (Errorf "error determining availabilty zone"))
              else Ret ({| a with availabilityZones := Some [zone] |}, None)
          | _ => Ret (a, None)
          end
      end
  end.

End zones.

(** [offered] is whether EC2 lists an offering of an instance type: an error
    when it cannot be reached. *)
Definition verifyInstanceType (offered : string → bool + error) (region : string)
    (instanceType : string) : option error :=
  match offered instanceType with
  | inr err =>
      Some (Errorf ("error reaching aws to verify instance type " +:+ instanceType +:+ ": "
                    +:+ error_string err))
  | inl true => None
  | inl false =>
      Append None (Some (Errorf ("type " +:+ instanceType +:+ " is not available in the "
                                 +:+ region +:+ " region")))
  end.

Fixpoint verifyInstanceTypes (offered : string → bool + error) (region : string)
    (sizes : list string) (result : option error) : option error :=
  match sizes with
  | [] => result
  | size :: sizes' =>
      match InstanceType size with
      | inr err => Some err
      | inl t =>
          verifyInstanceTypes offered region sizes' (AppendIf result (verifyInstanceType offered region t))
      end
  end.

(** ** Lemmas *)
Lemma AvailabilityZones_fresh `{MapRange} subnets a :
  availabilityZones a = None →
  let zones := (AvailabilityZones subnets a).2 in
  StronglySorted String.le zones ∧ NoDup zones ∧ ∀ z, z ∈ zones ↔ z ∈ map sn_Zone subnets.
Proof.
  intros Hn. unfold AvailabilityZones. rewrite Hn. simpl. split_and!.
  - apply sort_strings_sorted.
  - rewrite sort_strings_perm. apply keys_NoDup.
  - intros z. by rewrite sort_strings_perm, keys_keyset.
Qed.

Lemma AvailabilityZones_order (R1 R2 : MapRange) subnets a :
  AvailabilityZones (H := R1) subnets a = AvailabilityZones (H := R2) subnets a.
Proof.
  unfold AvailabilityZones. destruct (availabilityZones a); [done|].
  by rewrite (sort_strings_proper _ _ (keys_perm R1 R2 _)).
Qed.

Lemma verify_zone_None location zones z :
  verify_zone location zones z = None ↔ z ≠ "" ∧ z ∈ zones.
Proof.
  unfold verify_zone. destruct (existsb _ _) eqn:E.
  - apply existsb_exists in E as (x & Hx & Hz). go_bool. subst.
    apply list_elem_of_In in Hx. naive_solver.
  - split; [done|]. intros [Hz Hin]. exfalso.
    assert (existsb (λ zone, negb (bool_decide (zone = "")) && bool_decide (zone = z)) zones = true) as Ht;
      [|congruence].
    apply existsb_exists. exists z. rewrite <- list_elem_of_In. split; [done|].
    by rewrite bool_decide_false, bool_decide_true.
Qed.

(** ** Properties *)

(** The zones of a provider are the distinct zones of the cluster's
    subnets in ascending order, the same in every map iteration order, and
    stay the same on later calls until the provider is reset. *)
Theorem AvailabilityZones_correct (R1 R2 : MapRange) subnets subnets' a :
  availabilityZones a = None →
  let '(a', zones) := AvailabilityZones (H := R1) subnets a in
  (StronglySorted String.le zones ∧ NoDup zones ∧ ∀ z, z ∈ zones ↔ z ∈ map sn_Zone subnets) ∧
  AvailabilityZones (H := R2) subnets a = (a', zones) ∧
  AvailabilityZones (H := R2) subnets' a' = (a', zones) ∧
  Reset a' = a.
Proof.
  intros Hn. pose proof (AvailabilityZones_fresh (H := R1) subnets a Hn) as Hs.
  rewrite (AvailabilityZones_order R2 R1 subnets). unfold AvailabilityZones in *.
  rewrite Hn in *. simpl in *. split; [done|]. split_and!; try done.
  unfold Reset. simpl. destruct a; simpl in *. by subst.
Qed.

(** The verification of availability zones passes exactly when every
    configured zone is a (named) zone of the region, or none is configured
    and the first zone of the region gets chosen; the choice is remembered,
    so that afterwards the provider's zones are never empty. *)
Theorem verifyAvailabilityZones_correct `{MapRange} answer location subnets a :
  let configured := (AvailabilityZones subnets a).2 in
  match verifyAvailabilityZones (inl answer) location subnets a with
  | Panic => False
  | Ret (a', None) =>
      (∀ z, z ∈ configured → z ≠ "" ∧ z ∈ answer) ∧
      (AvailabilityZones subnets a').2 = match configured with
                                         | [] => take 1 (sort_strings answer)
                                         | _ => configured
                                         end ∧
      (AvailabilityZones subnets a').2 ≠ []
  | Ret (a', Some _) =>
      answer = [] ∨ (∃ z, z ∈ configured ∧ (z = "" ∨ z ∉ answer)) ∨
      (configured = [] ∧ hd "" (sort_strings answer) = "")
  end.
Proof.
  unfold verifyAvailabilityZones. cbn [getAvailablityZoneByRegion].
  destruct (sort_strings answer) as [|z0 zs] eqn:Es.
  { left. apply Permutation_nil. rewrite <- Es. apply sort_strings_perm. }
  destruct (AvailabilityZones subnets a) as [a' configured] eqn:Ea. cbn [snd].
  assert (Ha' : AvailabilityZones subnets a' = (a', configured)).
  { unfold AvailabilityZones in Ea. destruct (availabilityZones a) eqn:Ha; simplify_eq; [|done].
    unfold AvailabilityZones. by rewrite Ha. }
  assert (Hin : ∀ z, z ∈ z0 :: zs ↔ z ∈ answer).
  { intros z. rewrite <- Es. by rewrite sort_strings_perm. }
  destruct (collect _ _ _) as [err|] eqn:Ec.
  - right; left. destruct (decide (Forall (λ z, z ≠ "" ∧ z ∈ answer) configured)) as [Hall|Hex].
    + assert (collect (verify_zone location (z0 :: zs)) configured None = None); [|congruence].
      apply collect_None. split; [done|]. eapply Forall_impl; [exact Hall|].
      intros z ?. by rewrite verify_zone_None, Hin.
    + apply not_Forall_Exists in Hex; [|solve_decision].
      apply Exists_exists in Hex as (z & Hz & Hn). exists z. split; [done|].
      destruct (decide (z = "")); [by left|]. right. naive_solver.
  - apply collect_None in Ec as [_ Ec].
    assert (Hall : ∀ z, z ∈ configured → z ≠ "" ∧ z ∈ answer).
    { intros z Hz. rewrite Forall_forall in Ec. by rewrite <- Hin, <- verify_zone_None; eauto. }
    destruct configured as [|c cs].
    + simpl. case_decide; [by right; right|]. split_and!; try done.
    + rewrite Ha'. done.
Qed.

Lemma AvailabilityZones_correct_witness :
  let sub z := {| sn_meta := ObjectMeta_zero; sn_Identifier := ""; sn_CIDR := "";
                  sn_Location := ""; sn_Zone := z |} in
  let a := {| conf := {| pr_meta := ObjectMeta_zero; pr_Amazon := None; pr_GCP := None;
                         pr_Azure := None |};
              availabilityZones := None; remoteStateKMS := "" |} in
  AvailabilityZones (H := range_rev) (map sub ["b"; "a"; "b"]) a =
  ({| a with availabilityZones := Some ["a"; "b"] |}, ["a"; "b"]).
Proof.
  intros sub a.
  apply (AvailabilityZones_correct range_list range_rev (map sub ["b"; "a"; "b"]) [] a eq_refl).
Defined.

End Amazon.
