(* ===== verification/InstancePool.v ===== *)
(** * InstancePool: instance pools and their volumes

    [src/pkg/tarmak/instance_pool]: building a pool from its configuration
    ([NewFromConfig], [NewVolumeFromConfig]) and the values derived from it.
    The cluster is seen through the role table, the provider through
    [CloudProvider]; [ValidateLabels] is apimachinery's label validation,
    [None] when it reports nothing and its rendered errors otherwise. *)

From S2P Require Import Prelude Types Net Utils Regexp Role Provider.

(** ** volume.go *)
Record PoolVolume := {
  pv_conf : Volume;
  pv_volumeType : string;
  pv_device : string;
  pv_encrypted : bool;
}.

Definition letters : string := "defghijklmnop".

(** [letters[pos]] panics past the end. *)
Definition device_of (pos : nat) : GoM string :=
  c ← deref (String.get pos letters); mret ("/dev/sd" +:+ String c "").

Definition NewVolumeFromConfig `{CloudProvider} (pos : nat) (conf : Volume)
    : GoM (PoolVolume + error) :=
  match VolumeType (vol_Type conf) with
  | inr err => mret (inr err)
  | inl t =>
      dev ← (if decide (Cloud = CloudAmazon) then device_of pos else mret "");
      mret (inl {| pv_conf := conf; pv_volumeType := t; pv_device := dev; pv_encrypted := false |})
  end.

Definition pv_Name (v : PoolVolume) : string := vol_Name (pv_conf v).

(** [int(v.conf.Size.Value() / 1024 / 1024 / 1024)], a nil size panics. *)
Definition pv_Size (v : PoolVolume) : GoM Z :=
  s ← deref (vol_Size (pv_conf v));
  mret (Z.quot (Z.quot (Z.quot s 1024) 1024) 1024).

(** ** instance_pool.go *)
Record Pool := {
  p_conf : InstancePool;
  p_volumes : list PoolVolume;
  p_rootVolume : option PoolVolume;
  p_instanceType : string;
  p_role : Role;
}.

(** The counts, each defaulting to the other when it is zero. *)
Definition default_counts (conf : InstancePool) : InstancePool :=
  if decide (ip_MinCount conf = 0%Z) then {| conf with ip_MinCount := ip_MaxCount conf |}
  else if decide (ip_MaxCount conf = 0%Z) then {| conf with ip_MaxCount := ip_MinCount conf |}
  else conf.

Definition counts_message (conf : InstancePool) : string :=
  ". minCount=" +:+ fmt_d (ip_MinCount conf) +:+ " maxCount=" +:+ fmt_d (ip_MaxCount conf).

(** The loop over the volumes: [count] numbers the volumes other than the
    root volume; of several root volumes the last one stays. *)
Fixpoint add_volumes `{CloudProvider} (confs : list Volume) (count : nat)
    (volumes : list PoolVolume) (root : option PoolVolume) (result : option error)
    : GoM (list PoolVolume * option PoolVolume * option error) :=
  match confs with
  | [] => Ret (volumes, root, result)
  | conf :: confs' =>
      r ← NewVolumeFromConfig count conf;
      match r with
      | inr err => add_volumes confs' count volumes root (Append result (Some err))
      | inl volume =>
          if decide (pv_Name volume = "root")
          then add_volumes confs' count volumes (Some volume) result
          else add_volumes confs' (S count) (volumes ++ [volume]) root result
      end
  end.

Definition NewFromConfig `{CloudProvider} (roles : RoleMap) (conf : InstancePool)
    : GoM (option Pool * option error) :=
  match roles !! ip_Type conf with
  | None =>
      Ret (None, Some (Errorf ("role '" +:+ ip_Type conf +:+ "' is not valid for this cluster")))
  | Some role =>
      match InstanceType (ip_Size conf) with
      | inr _ =>
          Ret (None, Some (Errorf ("instanceType '" +:+ ip_Size conf +:+
                                   "' is not valid for this provier")))
      | inl instanceType =>
          if bool_decide (ip_MinCount conf = 0%Z) && bool_decide (ip_MaxCount conf = 0%Z) then
            Ret (None, Some (Errorf "minCount and maxCount both not set or set to 0"))
          else
          let conf := default_counts conf in
          if (ip_MaxCount conf <? ip_MinCount conf)%Z then
            Ret (None, Some (Errorf ("minCount is larger than maxCount" +:+ counts_message conf)))
          else if role_Stateful role && negb (ip_MinCount conf =? ip_MaxCount conf)%Z then
            Ret (None, Some (Errorf ("minCount does not equal maxCount but role is stateful"
                                     +:+ counts_message conf)))
          else
          r ← add_volumes (ip_Volumes conf) 0 [] None None;
          let '(volumes, root, result) := r in
          match root with
          | None => Ret (None, Some (Errorf "no root volume given"))
          | Some _ =>
              Ret (Some {| p_conf := conf; p_volumes := volumes; p_rootVolume := root;
                           p_instanceType := instanceType; p_role := role |}, result)
          end
      end
  end.

Definition p_Image (n : Pool) : string := ip_Image (p_conf n).

Definition Zones (n : Pool) : list string :=
  sort_strings (RemoveDuplicateStrings (map sn_Zone (ip_Subnets (p_conf n)))).

(** The double quote, and a string between two of them. *)
Definition dq : string := String (ascii_of_nat 34) "".
Definition quoted (s : string) : string := dq +:+ s +:+ dq.

(** A Terraform list of quoted strings. *)
Definition quoted_list (l : list string) : string := "[" +:+ Join (map quoted l) "," +:+ "]".

Definition ZonesString (n : Pool) : string := quoted_list (Zones n).

Definition p_Name (n : Pool) : string :=
  if decide (ip_Name (p_conf n) = "") then role_name (p_role n) else ip_Name (p_conf n).

Definition p_DNSName (n : Pool) : string := Prefix (p_role n) "-" +:+ p_Name n.
Definition p_TFName (n : Pool) : string := Prefix (p_role n) "_" +:+ p_Name n.

Definition AmazonAdditionalIAMPolicies (cluster : Cluster) (n : Pool) : list string :=
  let policies := match cl_Amazon cluster with
                  | Some a => elems (cla_AdditionalIAMPolicies a)
                  | None => []
                  end in
  RemoveDuplicateStrings
    (policies ++ match ip_Amazon (p_conf n) with
                 | Some a => elems (ipa_AdditionalIAMPolicies a)
                 | None => []
                 end).

Definition AmazonAdditionalIAMPoliciesString (cluster : Cluster) (n : Pool) : string :=
  quoted_list (AmazonAdditionalIAMPolicies cluster n).

Definition invalid_cidr (suffix cidr : string) : option error :=
  match ParseCIDR cidr with
  | inl _ => None
  | inr _ => Some (Errorf (cidr +:+ " is not a valid CIDR format" +:+ suffix))
  end.

Definition ValidateAllowCIDRs (n : Pool) : option error :=
  let result := collect (invalid_cidr "") (elems (ip_AllowCIDRs (p_conf n))) None in
  collect (invalid_cidr "") (elems (ip_PrivateAllowCIDRs (p_conf n))) result.

Definition Validate_pool (n : Pool) : option error := ValidateAllowCIDRs n.

(** *** Labels and taints *)
Definition label_map (labels : list Label) : gmap string string :=
  foldl (λ m l, <[lb_Key l := lb_Value l]> m) ∅ labels.

Definition newline : string := String (ascii_of_nat 10) "".

Definition Labels (ValidateLabels : gmap string string → option string) (n : Pool)
    : string * option error :=
  match ValidateLabels (label_map (ip_Labels (p_conf n))) with
  | Some errs => ("", Some (Errorf errs))
  | None =>
      (Join (map (λ l, "  " +:+ lb_Key l +:+ ": " +:+ quoted (lb_Value l))
               (ip_Labels (p_conf n))) newline, None)
  end.

(** [[\w_\-\.]] *)
Definition wordish : re := Char (λ c, alnum c || one_of ["_"; "-"; "."]%char c).
Definition slash : re := Char (Ascii.eqb "/"%char).

(** [^[a-zA-Z0-9][\w_\-\.]*\/?[\w_\-\.]*[a-zA-Z0-9]$] *)
Definition validKey : re :=
  Cat (Char alnum) (Cat (Star wordish) (Cat (opt slash) (Cat (Star wordish) (Char alnum)))).

(** [^[a-zA-Z0-9][\w_\-\.]*[a-zA-Z0-9]$] *)
Definition validValue : re := Cat (Char alnum) (Cat (Star wordish) (Char alnum)).

(** [^PreferNoSchedule|NoSchedule|NoExecute$]: the anchors belong to the
    first and the last alternative only. *)
Definition validEffect : re :=
  Alt (Cat (lit "PreferNoSchedule") any)
      (Alt (Cat any (Cat (lit "NoSchedule") any)) (Cat any (lit "NoExecute"))).

(** ["%+v"] of a taint pointer. *)
Definition fmt_taint (t : Taint) : string :=
  "&{Key:" +:+ tt_Key t +:+ " Value:" +:+ tt_Value t +:+ " Effect:" +:+ tt_Effect t +:+ "}".

Definition taint_error (what : string) (t : Taint) : option error :=
  Some (Errorf (what +:+ " was invalid for taint: " +:+ fmt_taint t)).

Definition check_taint (result : option error) (t : Taint) : option error :=
  let result := if MatchString validKey (tt_Key t) then result
                else Append result (taint_error "key" t) in
  let result := if bool_decide (tt_Value t = "") || MatchString validValue (tt_Value t) then result
                else Append result (taint_error "value" t) in
  if MatchString validEffect (tt_Effect t) then result
  else Append result (taint_error "effect" t).

Definition validTaints (n : Pool) : option error := foldl check_taint None (ip_Taints (p_conf n)).

Definition Taints (n : Pool) : string * option error :=
  match validTaints n with
  | Some err => ("", Some err)
  | None =>
      (Join (map (λ t, "  " +:+ tt_Key t +:+ ": " +:+ quoted (tt_Value t +:+ ":" +:+ tt_Effect t))
               (ip_Taints (p_conf n))) newline, None)
  end.

(** ** Lemmas: volumes *)

Lemma String_get_lt n s : n < String.length s → ∃ c, String.get n s = Some c.
Proof.
  revert n. induction s as [|c s IH]; intros [|n] Hn; simpl in *; try lia; eauto.
  apply IH. lia.
Qed.

Lemma device_of_lt pos : pos < 13 → ∃ d, device_of pos = Ret d.
Proof.
  intros H. destruct (String_get_lt pos letters) as [c Hc]; [exact H|].
  unfold device_of. rewrite Hc. simpl. eauto.
Qed.

Lemma device_of_bound pos d : device_of pos = Ret d → pos < 13.
Proof.
  intros H. destruct (decide (pos < 13)); [done|]. exfalso. revert H. unfold device_of.
  assert (∀ n s, String.length s <= n → String.get n s = None) as Hg.
  { clear. intros n s. revert n. induction s as [|c s IH]; intros [|n] Hn; simpl in *; try done; try lia.
    apply IH. lia. }
  rewrite Hg; [done|]. simpl. lia.
Qed.

(** The letters are all different. *)
Lemma device_of_inj i j d : device_of i = Ret d → device_of j = Ret d → i = j.
Proof.
  intros Hi Hj. pose proof (device_of_bound i d Hi). pose proof (device_of_bound j d Hj).
  assert (Hall : forallb (λ i, forallb (λ j,
            bool_decide (i = j) ||
            negb match device_of i, device_of j with Ret a, Ret b => bool_decide (a = b) | _, _ => false end)
          (seq 0 13)) (seq 0 13) = true) by (vm_compute; reflexivity).
  rewrite forallb_forall in Hall. specialize (Hall i). rewrite forallb_forall in Hall.
  specialize (Hall ltac:(apply in_seq; lia) j ltac:(apply in_seq; lia)).
  rewrite Hi, Hj in Hall. rewrite (bool_decide_true (d = d)) in Hall by done. simpl in Hall.
  rewrite orb_false_r in Hall. by go_bool.
Qed.

Section volumes.
Context `{CloudProvider}.

(** Volume [i] has the device of position [i]. *)
Definition devices_ok (volumes : list PoolVolume) : Prop :=
  Cloud = CloudAmazon → ∀ i v, volumes !! i = Some v → device_of i = Ret (pv_device v).

Lemma NewVolumeFromConfig_inv pos conf v :
  NewVolumeFromConfig pos conf = Ret (inl v) →
  pv_conf v = conf ∧ VolumeType (vol_Type conf) = inl (pv_volumeType v) ∧
  (Cloud = CloudAmazon → device_of pos = Ret (pv_device v)).
Proof.
  unfold NewVolumeFromConfig. destruct (VolumeType _) eqn:E; [|done].
  case_decide; [destruct (device_of pos) eqn:Ed|];
    cbn [mbind GoM_bind mret GoM_ret]; intros [=]; subst; simpl; split_and!; try done; tauto.
Qed.

Lemma devices_ok_snoc volumes v :
  devices_ok volumes → (Cloud = CloudAmazon → device_of (length volumes) = Ret (pv_device v)) →
  devices_ok (volumes ++ [v]).
Proof.
  intros Hv Hd Hc i w [Hi|[Hi Hw]]%lookup_app_Some; [by apply Hv|].
  apply list_lookup_singleton_Some in Hw as [Hz <-].
  replace i with (length volumes) by lia. by apply Hd.
Qed.

(** What the loop has built when it is through. *)
Record volumes_spec (confs : list Volume) (volumes : list PoolVolume) (root : option PoolVolume)
    (result : option error) (volumes' : list PoolVolume) (root' : option PoolVolume)
    (result' : option error) : Prop := {
  vs_devices : devices_ok volumes → devices_ok volumes';
  vs_names : Forall (λ v, pv_Name v ≠ "root") volumes → Forall (λ v, pv_Name v ≠ "root") volumes';
  vs_root : (∀ v, root = Some v → pv_Name v = "root") → (∀ v, root' = Some v → pv_Name v = "root");
  vs_result : result' = None → result = None ∧
    map pv_conf volumes' = map pv_conf volumes ++ filter (λ c, vol_Name c ≠ "root") confs;
  vs_types : Forall (λ v, VolumeType (vol_Type (pv_conf v)) = inl (pv_volumeType v)) volumes →
    Forall (λ v, VolumeType (vol_Type (pv_conf v)) = inl (pv_volumeType v)) volumes';
}.

Lemma add_volumes_spec confs volumes root result volumes' root' result' :
  add_volumes confs (length volumes) volumes root result = Ret (volumes', root', result') →
  volumes_spec confs volumes root result volumes' root' result'.
Proof.
  revert volumes root result. induction confs as [|conf confs IH]; intros volumes root result; simpl.
  { intros; simplify_eq. split; try done. by rewrite app_nil_r. }
  destruct (NewVolumeFromConfig _ _) as [[v|err]|] eqn:Ev; simpl; [|..|done].
  - apply NewVolumeFromConfig_inv in Ev as (Hc & Ht & Hd). unfold pv_Name. rewrite Hc.
    destruct (decide (vol_Name conf = "root")) as [Hr|Hr].
    + intros [? ? Hroot ? ?]%IH. split; try done.
      * intros _. apply Hroot. intros ? [= <-]. unfold pv_Name. by rewrite Hc.
      * rewrite filter_cons_False by tauto. done.
    + replace (S (length volumes)) with (length (volumes ++ [v])) by (rewrite length_app; simpl; lia).
      intros [Hdev Hn ? Hres Hty]%IH. split; try done.
      * intros. apply Hdev, devices_ok_snoc; done.
      * intros. apply Hn, Forall_app. split; [done|]. constructor; [|done]. unfold pv_Name. by rewrite Hc.
      * intros Hnone. destruct (Hres Hnone) as [? ->]. split; [done|].
        rewrite filter_cons_True by done. rewrite map_app, <- app_assoc. simpl. by rewrite Hc.
      * intros. apply Hty, Forall_app. split; [done|]. constructor; [|done]. by rewrite Hc.
  - intros [? ? ? Hres ?]%IH. split; try done. intros Hnone. by destruct (Hres Hnone) as [? _].
Qed.

(** Fewer than fourteen volumes never run out of letters. *)
Lemma add_volumes_total confs count volumes root result :
  count + length confs <= 13 → ∃ r, add_volumes confs count volumes root result = Ret r.
Proof.
  revert count volumes root result.
  induction confs as [|conf confs IH]; intros count volumes root result Hlen; simpl in *; [eauto|].
  unfold NewVolumeFromConfig. destruct (VolumeType _); [|apply IH; lia].
  assert (∃ dev, (if decide (Cloud = CloudAmazon) then device_of count else mret "") = Ret dev) as [dev ->].
  { case_decide; [apply device_of_lt; lia|by eexists]. }
  simpl. case_decide; apply IH; lia.
Qed.
End volumes.

(** ** Lemmas: building a pool *)
Section pool.
Context `{CloudProvider}.

(** The facts about a pool that was built. *)
Record pool_spec (roles : RoleMap) (conf : InstancePool) (n : Pool) (result : option error) : Prop := {
  ps_role : roles !! ip_Type conf = Some (p_role n);
  ps_type : InstanceType (ip_Size conf) = inl (p_instanceType n);
  ps_conf : p_conf n = default_counts conf;
  ps_set : ip_MinCount (p_conf n) ≠ 0%Z ∧ ip_MaxCount (p_conf n) ≠ 0%Z;
  ps_le : (ip_MinCount (p_conf n) ≤ ip_MaxCount (p_conf n))%Z;
  ps_stateful : role_Stateful (p_role n) = true → ip_MinCount (p_conf n) = ip_MaxCount (p_conf n);
  ps_root : ∃ root, p_rootVolume n = Some root ∧ pv_Name root = "root";
  ps_volumes : volumes_spec (ip_Volumes conf) [] None None (p_volumes n) (p_rootVolume n) result;
}.

Lemma default_counts_set conf :
  bool_decide (ip_MinCount conf = 0%Z) && bool_decide (ip_MaxCount conf = 0%Z) = false →
  ip_MinCount (default_counts conf) ≠ 0%Z ∧ ip_MaxCount (default_counts conf) ≠ 0%Z.
Proof.
  unfold default_counts. repeat case_bool_decide; repeat case_decide; simpl; try done; lia.
Qed.

Lemma default_counts_Volumes conf : ip_Volumes (default_counts conf) = ip_Volumes conf.
Proof. unfold default_counts. by repeat case_decide. Qed.

Lemma NewFromConfig_inv roles conf n result :
  NewFromConfig roles conf = Ret (Some n, result) → pool_spec roles conf n result.
Proof.
  unfold NewFromConfig. destruct (roles !! ip_Type conf) as [role|] eqn:Er; [|done].
  destruct (InstanceType (ip_Size conf)) as [t|] eqn:Et; [|done].
  destruct (bool_decide (ip_MinCount conf = 0%Z) && _) eqn:Ez; [done|]. apply default_counts_set in Ez.
  rewrite default_counts_Volumes.
  destruct (Z.ltb_spec (ip_MaxCount (default_counts conf)) (ip_MinCount (default_counts conf))); [done|].
  destruct (role_Stateful role && _) eqn:Es; [done|].
  destruct (add_volumes _ _ _ _ _) as [[[vs [root|]] res]|] eqn:Ea; [|done..].
  cbn [mbind GoM_bind]. intros [= <- <-].
  apply (add_volumes_spec (ip_Volumes conf) []) in Ea.
  split; simpl; try done.
  - intros Hst. rewrite Hst in Es. simpl in Es. by go_bool.
  - exists root. split; [done|]. by apply (vs_root _ _ _ _ _ _ _ Ea).
Qed.

(** There is a pool or an error. *)
Lemma NewFromConfig_result roles conf : NewFromConfig roles conf ≠ Ret (None, None).
Proof.
  unfold NewFromConfig. destruct (roles !! _); [|done]. destruct (InstanceType _); [|done].
  repeat (case_match; [done|]). by destruct (add_volumes _ _ _ _ _) as [[[? []] ?]|].
Qed.
End pool.

Lemma check_taint_None r t :
  check_taint r t = None ↔ r = None ∧ MatchString validKey (tt_Key t) = true ∧
    (tt_Value t = "" ∨ MatchString validValue (tt_Value t) = true) ∧
    MatchString validEffect (tt_Effect t) = true.
Proof.
  unfold check_taint, Append, taint_error.
  destruct (MatchString validKey _), (MatchString validValue _), (MatchString validEffect _);
    case_bool_decide; simpl; naive_solver.
Qed.

Lemma validTaints_None_from l r :
  foldl check_taint r l = None ↔ r = None ∧ Forall (λ t, check_taint None t = None) l.
Proof.
  revert r. induction l as [|t l IH]; intros r; simpl; [naive_solver|].
  rewrite IH, Forall_cons, !check_taint_None. tauto.
Qed.

Lemma validEffect_correct s :
  MatchString validEffect s = true ↔
  (∃ t, bytes_of s = bytes_of "PreferNoSchedule" ++ t) ∨
  (∃ t1 t2, bytes_of s = t1 ++ bytes_of "NoSchedule" ++ t2) ∨
  (∃ t, bytes_of s = t ++ bytes_of "NoExecute").
Proof.
  unfold MatchString, validEffect.
  by rewrite matches_correct, !Matches_Alt, Matches_prefix, Matches_infix, Matches_suffix.
Qed.

(** ** Properties *)

(** A pool that [NewFromConfig] returns has a role of the cluster, a
    valid instance type and counts that are both set, ordered and, for a
    stateful role, equal; a count that was given is kept.  It has a root
    volume, its other volumes are the configured ones in their order (when no
    error is reported), and on Amazon no two of them share a device. *)
Theorem NewFromConfig_pool `{CloudProvider} roles conf n result :
  NewFromConfig roles conf = Ret (Some n, result) →
  pool_spec roles conf n result ∧
  (ip_MinCount conf ≠ 0%Z → ip_MinCount (p_conf n) = ip_MinCount conf) ∧
  (ip_MaxCount conf ≠ 0%Z → ip_MaxCount (p_conf n) = ip_MaxCount conf) ∧
  Forall (λ v, pv_Name v ≠ "root") (p_volumes n) ∧
  (result = None → map pv_conf (p_volumes n) = filter (λ c, vol_Name c ≠ "root") (ip_Volumes conf)) ∧
  (Cloud = CloudAmazon → NoDup (map pv_device (p_volumes n))).
Proof.
  intros Hn. apply NewFromConfig_inv in Hn as Hs. destruct (ps_volumes _ _ _ _ Hs) as [Hd Hnm ? Hres ?].
  split; [done|]. split_and!.
  - intros. rewrite (ps_conf _ _ _ _ Hs). unfold default_counts.
    rewrite decide_False by done. by case_decide.
  - intros. rewrite (ps_conf _ _ _ _ Hs). unfold default_counts.
    case_decide; [done|]. by rewrite decide_False.
  - by apply Hnm.
  - intros Hnone. by destruct (Hres Hnone).
  - intros Hc. apply NoDup_alt. intros i j d Hi Hj.
    rewrite list_lookup_fmap in Hi, Hj.
    apply fmap_Some in Hi as (vi & Hi & ->), Hj as (vj & Hj & Heq).
    apply (Hd ltac:(done) Hc) in Hi. apply (Hd ltac:(done) Hc) in Hj. rewrite <- Heq in Hj.
    by eapply device_of_inj.
Qed.


(** Taints pass validation exactly when every key and every non-empty
    value has the documented form and every effect satisfies the pattern as
    it is anchored: a prefix [PreferNoSchedule], [NoSchedule] anywhere, or a
    suffix [NoExecute]. *)
Theorem validTaints_correct n :
  validTaints n = None ↔
  ∀ t, t ∈ ip_Taints (p_conf n) →
    Matches validKey (bytes_of (tt_Key t)) ∧
    (tt_Value t = "" ∨ Matches validValue (bytes_of (tt_Value t))) ∧
    ((∃ s, bytes_of (tt_Effect t) = bytes_of "PreferNoSchedule" ++ s) ∨
     (∃ s1 s2, bytes_of (tt_Effect t) = s1 ++ bytes_of "NoSchedule" ++ s2) ∨
     (∃ s, bytes_of (tt_Effect t) = s ++ bytes_of "NoExecute")).
Proof.
  unfold validTaints. rewrite validTaints_None_from, Forall_forall.
  setoid_rewrite check_taint_None. setoid_rewrite validEffect_correct.
  unfold MatchString. setoid_rewrite matches_correct. naive_solver.
Qed.

(** *** Witnesses *)
Definition example_provider : CloudProvider :=
  Amazon.provider {| Amazon.conf := {| pr_meta := ObjectMeta_zero; pr_Amazon := None; pr_GCP := None;
                                       pr_Azure := None |};
                     Amazon.availabilityZones := None; Amazon.remoteStateKMS := "" |} "example.com".

Definition example_volume (name : string) : Volume :=
  {| vol_meta := {| ObjectMeta_zero with Name := name |}; vol_Size := Some 5368709120%Z; vol_Type := "ssd" |}.

Definition example_etcd : InstancePool :=
  {| InstancePool_zero with ip_Type := "etcd"; ip_MaxCount := 3; ip_Size := "small";
     ip_Volumes := map example_volume ["data"; "root"; "logs"] |}.

Lemma NewFromConfig_pool_witness :
  ∃ n, NewFromConfig (H := example_provider) all_roles example_etcd = Ret (Some n, None) ∧
       map pv_device (p_volumes n) = ["/dev/sdd"; "/dev/sde"] ∧ ip_MinCount (p_conf n) = 3%Z ∧
       NoDup (map pv_device (p_volumes n)).
Proof.
  eexists. split; [vm_compute; reflexivity|]. split; [reflexivity|]. split; [reflexivity|].
  apply (NewFromConfig_pool (H := example_provider) all_roles example_etcd _ None); reflexivity.
Defined.

Definition example_many : InstancePool :=
  {| example_etcd with ip_Volumes := map example_volume ("root" :: replicate 14 "data") |}.


(** An effect Kubernetes does not have is accepted. *)
Example validTaints_lax :
  validTaints {| p_conf := {| InstancePool_zero with
      ip_Taints := [{| tt_Key := "team/gpu"; tt_Value := ""; tt_Effect := "NoScheduleAtAll" |}] |};
    p_volumes := []; p_rootVolume := None; p_instanceType := "";
    p_role := new_role false RoleAWS_zero |} = None.
Proof. vm_compute. reflexivity. Qed.
