(* ===== verification/Cluster.v ===== *)
(** * Cluster: validation and derived values of a cluster

    [src/pkg/tarmak/cluster/cluster.go].  A cluster keeps its configuration,
    the parsed network, the cached image IDs, its instance pools, its roles
    and the Terraform state.  It is part of an environment, seen through
    [Env]: the interface [src/pkg/tarmak/interfaces/interfaces.go] gives to
    clusters, as far as this file uses it.

    The version comparison of go-version ([NewVersion], which fails with a
    message, and [LessThan]) and the
    rendering of floats ([fmt_float]) are parameters. *)

From Stdlib Require Import Floats.SpecFloat.
From S2P Require Import Prelude Types Net Utils Role Provider InstancePool.

(** What a cluster asks of its environment: its configuration, the number of
    clusters configured for it, the configuration of the hub (if one is set),
    the provider and the Terraform variables of the environment. *)
Class Env := {
  env_conf : Environment;
  env_clusters : nat;
  env_hub : option Cluster;
  #[global] env_provider :: CloudProvider;
  env_variables : gmap string value;
}.

Record ClusterT := {
  c_conf : Cluster;
  c_networkCIDR : option IPNet;
  c_imageIDs : option (gmap string string);
  c_instancePools : list Pool;
  c_roles : RoleMap;
  c_state : string;
}.

Definition JenkinsCertificateARNAnnotationKey := "tarmak.io/jenkins-certificate-arn".

(** ["%s"] of a []string. *)
Definition fmt_strings (l : list string) : string := "[" +:+ Join l " " +:+ "]".

Section cluster.
Context `{MapRange} `{Env}.
Context {V : Type} (NewVersion : string → V + string) (LessThan : V → V → bool).
Context (fmt_float : spec_float → string).
Implicit Types c : ClusterT.

(** ** Type and names *)
Definition c_Name c : string := cl_Name (c_conf c).

Definition Type_ c : string :=
  if negb (bool_decide (cl_Type (c_conf c) = "")) then cl_Type (c_conf c)
  else if bool_decide (env_clusters = 1) then ClusterTypeClusterSingle
  else if bool_decide (c_Name c = ClusterTypeHub) then ClusterTypeHub
  else ClusterTypeClusterMulti.

Definition ClusterName c : string := env_Name env_conf +:+ "-" +:+ c_Name c.

(** ** Instance pools *)
Definition InstancePool_ c (roleName : string) : option Pool :=
  snd <$> list_find (λ p, role_name (p_role p) = roleName) (c_instancePools c).

(** [m[pool.Type] = append(m[pool.Type], pool)] for every pool. *)
Definition pools_by_type (pools : list InstancePool) : gmap string (list InstancePool) :=
  foldl (λ m p, <[ip_Type p := default [] (m !! ip_Type p) ++ [p]]> m) ∅ pools.

Definition InstancePoolsMap c : gmap string (list InstancePool) :=
  pools_by_type (cl_InstancePools (c_conf c)).

(** The pool types allowed in a cluster type. *)
Definition allowed_pool_types (type : string) : option (list string) :=
  if decide (type = ClusterTypeHub) then
    Some [InstancePoolTypeVault; InstancePoolTypeBastion; InstancePoolTypeJenkins]
  else if decide (type = ClusterTypeClusterMulti) then
    Some [InstancePoolTypeMaster; InstancePoolTypeWorker; InstancePoolTypeEtcd;
          InstancePoolTypeMasterEtcd; InstancePoolTypeHybrid; InstancePoolTypeAll]
  else if decide (type = ClusterTypeClusterSingle) then
    Some [InstancePoolTypeMaster; InstancePoolTypeWorker; InstancePoolTypeEtcd;
          InstancePoolTypeBastion; InstancePoolTypeJenkins; InstancePoolTypeVault;
          InstancePoolTypeAll; InstancePoolTypeMasterEtcd; InstancePoolTypeHybrid]
  else None.

Definition validateClusterInstancePoolTypes c : option error :=
  match allowed_pool_types (Type_ c) with
  | None => Some (Errorf ("cluster type '" +:+ Type_ c +:+ "' not supported"))
  | Some poolMap =>
      let errMap := keyset (filter (λ t, t ∉ poolMap) (map ip_Type (cl_InstancePools (c_conf c)))) in
      ErrorOrNil (foldl (λ result t, Append result (Some (Errorf
        ("instance pool type '" +:+ t +:+ "' not valid in cluster type '" +:+ Type_ c +:+ "'"))))
        None (keys errMap))
  end.

Definition validateSingleInstancePoolMap c (poolMap : gmap string (list InstancePool))
    (singleList : list string) : option error :=
  ErrorOrNil (collect (λ i,
    if bool_decide (length (default [] (poolMap !! i)) = 1) then None
    else Some (Errorf ("cluster type '" +:+ Type_ c +:+ "' requires exactly one '" +:+ i
                       +:+ "' instance pool"))) singleList None).

Definition validateMultiInstancePoolMap c (poolMap : gmap string (list InstancePool))
    (instanceType : string) : option error :=
  if bool_decide (length (default [] (poolMap !! instanceType)) < 1) then
    Some (Errorf ("cluster type '" +:+ Type_ c +:+
                  "' requires one or more instance pool of type '" +:+ instanceType +:+ "'"))
  else None.

Definition validateClusterInstancePoolCount c : option error :=
  let poolMap := pools_by_type (cl_InstancePools (c_conf c)) in
  let single := validateSingleInstancePoolMap c poolMap in
  let multi := validateMultiInstancePoolMap c poolMap in
  let result := if decide (Type_ c = ClusterTypeHub) then None
                else AppendIf None (multi InstancePoolTypeWorker) in
  if decide (Type_ c = ClusterTypeClusterSingle) then
    ErrorOrNil (AppendIf (AppendIf result
      (single [InstancePoolTypeBastion; InstancePoolTypeVault; InstancePoolTypeEtcd]))
      (multi InstancePoolTypeMaster))
  else if decide (Type_ c = ClusterTypeHub) then
    ErrorOrNil (AppendIf result (single [InstancePoolTypeBastion; InstancePoolTypeVault]))
  else if decide (Type_ c = ClusterTypeClusterMulti) then
    ErrorOrNil (AppendIf (AppendIf result (single [InstancePoolTypeEtcd]))
      (multi InstancePoolTypeMaster))
  else Some (Errorf ("cluster type '" +:+ Type_ c +:+ "' is not a supported type")).

(** ** Subnets and images *)

(** [Subnets()] of a cluster configuration: one per zone, in map order. *)
Definition subnets_of (conf : Cluster) : list Subnet :=
  map (λ zone, {| sn_meta := ObjectMeta_zero; sn_Identifier := ""; sn_CIDR := "";
                  sn_Location := ""; sn_Zone := zone |})
    (keys (keyset (concat (map (λ sp, map sn_Zone (ip_Subnets sp)) (cl_InstancePools conf))))).

Definition Subnets c : list Subnet := subnets_of (c_conf c).

Definition Images c : list string :=
  keys (keyset (map ip_Image (cl_InstancePools (c_conf c)))).

Definition validateSubnets c : option error :=
  if decide (Type_ c = ClusterTypeClusterMulti) then
    match env_hub with
    | None => None
    | Some hub =>
        let hSubnets := subnets_of hub in
        ErrorOrNil (collect (λ cNet,
          if existsb (λ hNet, bool_decide (sn_Zone cNet = sn_Zone hNet)) hSubnets then None
          else Some (Errorf ("hub cluster does not include zone '" +:+ sn_Zone cNet +:+ "'")))
          (Subnets c) None)
    end
  else None.

Definition validateInstancePools c : option error :=
  match ErrorOrNil (collect Validate_pool (c_instancePools c) None) with
  | Some err => Some err
  | None =>
      match validateClusterInstancePoolTypes c with
      | Some err => Some err
      | None =>
          match validateClusterInstancePoolCount c with
          | Some err => Some err
          | None => validateSubnets c
          end
      end
  end.

(** ** The other validations *)

(** Both branches of the source, with and without an existing VPC, do the
    same.  A nil network panics. *)
Definition validateNetwork c : GoM (ClusterT * option error) :=
  n ← deref (cl_Network (c_conf c));
  match ParseCIDR (net_CIDR n) with
  | inr err => mret (c, Some (Errorf ("error parsing network: " +:+ error_string err)))
  | inl net => mret ({| c with c_networkCIDR := Some net |}, None)
  end.

Fixpoint check_sinks (index : nat) (sinks : list LoggingSink) : option error :=
  match sinks with
  | [] => None
  | s :: sinks' =>
      let fail what :=
        Some (Errorf ("cannot enable AWS elasticsearch proxy and " +:+ what +:+
                      " for logging sink " +:+ pretty index)) in
      match ls_Elasticsearch s with
      | Some es =>
          match es_AmazonESProxy es with
          | Some _ =>
              if es_HTTPBasicAuth es then fail "HTTP basic auth"
              else if es_TLSVerify es then fail "force certificate validation"
              else if negb (bool_decide (es_TLSCA es = "")) then fail "specify a custom CA"
              else check_sinks (S index) sinks'
          | None => check_sinks (S index) sinks'
          end
      | None => check_sinks (S index) sinks'
      end
  end.

Definition validateLoggingSinks c : option error :=
  match cl_LoggingSinks (c_conf c) with
  | None => None
  | Some sinks => check_sinks 0 sinks
  end.

(** The float constants 0 and 1. *)
Definition float_zero : spec_float := S754_zero false.
Definition float_one : spec_float := S754_finite false 4503599627370496 (-52).

Definition validateClusterAutoscaler c : option error :=
  match cl_Kubernetes (c_conf c) ≫= ck_ClusterAutoscaler with
  | None => None
  | Some ca =>
      match ca_Overprovisioning ca with
      | None => None
      | Some o =>
          if negb (cao_Enabled o) then None
          else if cao_Enabled o && negb (ca_Enabled ca) then
            Some (Errorf "cannot enable overprovisioning if cluster autoscaling is disabled")
          else if ((cao_ReservedMegabytesPerReplica o <? 0)
                   || (cao_ReservedMillicoresPerReplica o <? 0)
                   || (cao_CoresPerReplica o <? 0) || (cao_NodesPerReplica o <? 0)
                   || (cao_ReplicaCount o <? 0))%Z then
            Some (Errorf "cannot set negative overprovisioning parameters")
          else if ((cao_ReservedMegabytesPerReplica o =? 0)
                   && (cao_ReservedMillicoresPerReplica o =? 0))%Z then
            Some (Errorf "one of reservedMillicoresPerReplica and reservedMegabytesPerReplica must be set")
          else if (((0 <? cao_CoresPerReplica o) || (0 <? cao_NodesPerReplica o))
                   && (0 <? cao_ReplicaCount o))%Z then
            Some (Errorf "cannot configure both static and per replica overprovisioning rules")
          else if (negb (bool_decide (cao_Image o = "")) || negb (bool_decide (cao_Version o = "")))
                   && ((cao_CoresPerReplica o =? 0) && (cao_NodesPerReplica o =? 0))%Z then
            Some (Errorf "setting overprovisioning image or version is only valid when proportional overprovisioning is enabled")
          else match ca_ScaleDownUtilizationThreshold ca with
               | Some s =>
                   if SFltb s float_zero || SFltb float_one s then
                     Some (Errorf ("scale down threshold '" +:+ fmt_float s +:+
                                   "' unacceptable, must be value between 0 and 1"))
                   else None
               | None => None
               end
      end
  end.

(** One entry of the access log loop of [validateAPIServer]. *)
Definition check_access_logs (result : option error)
    (l : option ClusterKubernetesAPIServerAmazonAccessLogs) : GoM (option error) :=
  match l with
  | None => mret result
  | Some l =>
      enabled ← deref (al_Enabled l);
      if (enabled : bool) then
        let result := if decide (al_Bucket l = "")
                      then Append result (Some (Errorf "access logs enabled with no bucket name"))
                      else result in
        interval ← deref (al_Interval l);
        mret (if bool_decide (interval = 5%Z) || bool_decide (interval = 60%Z) then result
              else Append result (Some (Errorf "access logs interval may only be a value of 5 or 60")))
      else mret result
  end.

Definition validateAPIServer (k : ClusterKubernetes) (api : ClusterKubernetesAPIServer)
    : GoM (option error) :=
  let result := collect (invalid_cidr " in AllowCIDRs") (elems (api_AllowCIDRs api)) None in
  let result := collect (invalid_cidr " in PrivateAllowCIDRs") (elems (api_PrivateAllowCIDRs api)) result in
  result ← match api_Amazon api with
           | None => mret result
           | Some a =>
               r ← check_access_logs result (asa_PublicELBAccessLogs a);
               check_access_logs r (asa_InternalELBAccessLogs a)
           end;
  match NewVersion (ck_Version k), NewVersion "1.11.0" with
  | inr err, _ | _, inr err => mret (Append result (Some (Errorf err)))
  | inl vK, inl v11 =>
      if LessThan vK v11 && negb (bool_decide (api_DisableAdmissionControllers api = [])) then
        mret (Append result (Some (Errorf
          ("kubernetes version less than 1.11.0 expects no disable admission controllers, found: "
           +:+ fmt_strings (api_DisableAdmissionControllers api)))))
      else mret result
  end.

Definition allowedModes : list string :=
  sort_strings [PrometheusModeFull; PrometheusModeExternalScrapeTargetsOnly;
                PrometheusModeExternalExportersOnly].

Definition validatePrometheusMode (p : ClusterKubernetesPrometheus) : option error :=
  if bool_decide (prom_Mode p = "") || bool_decide (prom_Mode p ∈ allowedModes) then None
  else Some (Errorf (prom_Mode p +:+ " is not a valid Prometheus mode, allowed modes: "
                     +:+ fmt_strings allowedModes)).

Definition validateCalico (calico : ClusterKubernetesCalico) : option error :=
  let result :=
    if bool_decide (cal_Backend calico = CalicoBackendEtcd)
       || bool_decide (cal_Backend calico = CalicoBackendKubernetes) then None
    else Append None (Some (Errorf ("calico's backend may only be set to [etcd kubernetes], got="
                                    +:+ cal_Backend calico))) in
  let result :=
    if negb (bool_decide (cal_Backend calico = CalicoBackendKubernetes)) && cal_EnableTypha calico
    then Append result (Some (Errorf ("typha enabled but backend is not 'kubernetes', got="
                                      +:+ cal_Backend calico)))
    else result in
  ErrorOrNil
    (if cal_EnableTypha calico &&
        match cal_TyphaReplicas calico with None => true | Some r => (r <=? 0)%Z end
     then Append result (Some (Errorf
            ("typha enabled so expecting a non-zero positive replica count, got="
             +:+ match cal_TyphaReplicas calico with None => "nil" | Some r => fmt_d r end)))
     else result).

(** ** Validate *)
Definition Validate c : GoM (ClusterT * option error) :=
  let result := AppendIf None (validateInstancePools c) in
  r ← validateNetwork c;
  let '(c, err) := (r : ClusterT * option error) in
  let result := AppendIf result err in
  let result := AppendIf result (validateLoggingSinks c) in
  let result := AppendIf result
    ((λ err, Errorf ("invalid overprovisioning configuration: " +:+ error_string err))
     <$> validateClusterAutoscaler c) in
  match cl_Kubernetes (c_conf c) with
  | None => mret (c, ErrorOrNil result)
  | Some k =>
      result ← match ck_APIServer k with
               | None => mret result
               | Some api => err ← validateAPIServer k api; mret (AppendIf result err)
               end;
      let result := match ck_Prometheus k with
                    | None => result
                    | Some p => AppendIf result (validatePrometheusMode p)
                    end in
      let result := match ck_Calico k with
                    | None => result
                    | Some calico => AppendIf result (validateCalico calico)
                    end in
      mret (c, ErrorOrNil result)
  end.

(** ** NewFromConfig *)

(** The master role gets the load balancer options of the API server. *)
Definition set_master_aws (api : ClusterKubernetesAPIServer) (aws : RoleAWS) : GoM RoleAWS :=
  let aws := if api_PrivateRecord api then {| aws with ELBAPIPrivateRecord := true |} else aws in
  aws ← (if api_Public api then
           let aws := {| aws with ELBAPIPublic := true |} in
           match api_Amazon api ≫= asa_PublicELBAccessLogs with
           | Some l => e ← deref (al_Enabled l); mret {| aws with EnablePublicELBAccessLogs := e |}
           | None => mret aws
           end
         else mret aws);
  match api_Amazon api ≫= asa_InternalELBAccessLogs with
  | Some l => e ← deref (al_Enabled l); mret {| aws with EnableInternalELBAccessLogs := e |}
  | None => mret aws
  end.

Definition set_api_roles (conf : Cluster) (roles : RoleMap) : GoM RoleMap :=
  match cl_Kubernetes conf ≫= ck_APIServer with
  | None => mret roles
  | Some api =>
      match roles !! "master" with
      | None => mret roles
      | Some master =>
          aws ← deref (role_AWS master);
          aws' ← set_master_aws api aws;
          mret (<["master" := {| master with role_AWS := Some aws' |}]> roles)
      end
  end.

(** The loop over the configured pools. *)
Fixpoint make_pools (roles : RoleMap) (confs : list InstancePool) (pools : list Pool)
    (result : option error) : GoM (list Pool * option error) :=
  match confs with
  | [] => mret (pools, result)
  | conf :: confs' =>
      r ← InstancePool.NewFromConfig roles conf;
      match r with
      | (_, Some err) => make_pools roles confs' pools (Append result (Some err))
      | (Some pool, None) => make_pools roles confs' (pools ++ [pool]) result
      | (None, None) => make_pools roles confs' pools result
      end
  end.

Definition new_cluster (conf : Cluster) : ClusterT :=
  {| c_conf := conf; c_networkCIDR := None; c_imageIDs := None; c_instancePools := [];
     c_roles := ∅; c_state := "" |}.

Definition NewFromConfig (conf : Cluster) : GoM (option ClusterT * option error) :=
  r ← Validate (new_cluster conf);
  match r with
  | (_, Some err) => mret (None, Some err)
  | (c, None) =>
      roles ← set_api_roles conf all_roles;
      r ← make_pools roles (cl_InstancePools conf) [] None;
      let '(pools, result) := (r : list Pool * option error) in
      mret (Some {| c with c_roles := roles; c_instancePools := pools |}, result)
  end.

(** ** Roles *)
Definition Role_ c (roleName : string) : option Role := c_roles c !! roleName.

Fixpoint roles_loop (pools : list Pool) (seen : gset string) (roles : list Role) : list Role :=
  match pools with
  | [] => roles
  | p :: pools' =>
      let r := p_role p in
      if decide (role_name r ∈ seen) then roles_loop pools' seen roles
      else roles_loop pools' ({[role_name r]} ∪ seen) (roles ++ [r])
  end.

Definition Roles c : list Role := roles_loop (c_instancePools c) ∅ [].

(** ** Images *)
Definition AmazonEBSEncrypted c : bool :=
  default false (cl_Amazon (c_conf c) ≫= cla_EBSEncrypted).

(** [ids] is [Packer().IDs]; its answer is cached. *)
Definition ImageIDs (ids : bool → gmap string string + error) c
    : ClusterT * (gmap string string + error) :=
  match c_imageIDs c with
  | Some m => (c, inl m)
  | None =>
      match ids (AmazonEBSEncrypted c) with
      | inr err => (c, inr err)
      | inl m => ({| c with c_imageIDs := Some m |}, inl m)
      end
  end.

Definition check_pool_image (imageIDs : gmap string string) (p : Pool) : option error :=
  match imageIDs !! p_Image p with
  | Some (String _ _) => None
  | _ => Some (Errorf ("failed to find the image ID of image '" +:+ p_Image p +:+
                       "' used by instance pool '" +:+ p_TFName p +:+ "'"))
  end.

Definition VerifyInstancePools (ids : bool → gmap string string + error) c
    : ClusterT * option error :=
  let '(c, r) := ImageIDs ids c in
  match r with
  | inr err => (c, Some (Errorf ("error getting image IDs: " +:+ error_string err +:+ "]")))
  | inl imageIDs =>
      if decide (imageIDs = ∅) then
        (c, Some (Errorf "no images found, please run `$ tarmak cluster images build`"))
      else (c, ErrorOrNil (collect (check_pool_image imageIDs) (c_instancePools c) None))
  end.

(** ** Verify *)
Definition requiredHubResources : list string :=
  ["bastion_bastion_instance_id"; "bastion_bastion_security_group_id"; "instance_fqdns";
   "network_availability_zones"; "network_private_subnet_ids"; "network_private_zone";
   "network_private_zone_id"; "network_public_subnet_ids"; "network_vpc_id"; "state_public_zone";
   "state_public_zone_id"; "state_secrets_bucket"; "vault_ca"; "vault_instance_fqdns";
   "vault_vault_ca"; "vault_vault_kms_key_id"; "vault_vault_security_group_id";
   "vault_vault_unseal_key_name"; "vault_vault_url"; "tagging_control_tagging_control_policy_arn";
   "bastion_bastion_wing_binary_read_policy_arn"].

Definition hub_first : string := "hub cluster must be applied once first".

(** [prepare] and [output] are what Terraform answers for the hub; a nil
    output value is [None]. *)
Definition verifyHubState (prepare : option error) (output : gmap string (option value) + error)
    : option error :=
  match prepare with
  | Some err =>
      Some (Errorf ("failed to prepare hub cluster for output, " +:+ hub_first +:+ ": "
                    +:+ error_string err))
  | None =>
      match output with
      | inr err =>
          Some (Errorf ("failed to get hub cluster output values, " +:+ hub_first +:+ ": "
                        +:+ error_string err))
      | inl output =>
          match ErrorOrNil (collect (λ r,
                  match output !! r with
                  | Some (Some _) => None
                  | _ => Some (Errorf ("'" +:+ r +:+ "' not found"))
                  end) requiredHubResources None) with
          | Some err =>
              Some (Errorf ("required hub cluster resource(s) not found, " +:+ hub_first +:+ ": "
                            +:+ error_string err))
          | None => None
          end
      end
  end.

Definition Verify (env_verify : option error) (ids : bool → gmap string string + error)
    (prepare : option error) (output : gmap string (option value) + error) c
    : ClusterT * option error :=
  match env_verify with
  | Some err => (c, Some (Errorf ("failed to verify tarmak provider: " +:+ error_string err)))
  | None =>
      let '(c, err) := VerifyInstancePools ids c in
      let result := AppendIf None err in
      (c, ErrorOrNil (if decide (Type_ c = ClusterTypeClusterMulti)
                      then AppendIf result (verifyHubState prepare output) else result))
  end.

(** ** Terraform variables *)

(** The nil slice for no elements, which is what appending to nil leaves. *)
Definition from_nil {A} (l : list A) : slice A := match l with [] => None | _ => Some l end.

Definition pool_variables (imageIDs : gmap string string) c (output : gmap string value) (p : Pool)
    : GoM (gmap string value) :=
  let name suffix := p_TFName p +:+ suffix in
  let output := match imageIDs !! p_Image p with
                | Some ids => <[name "_ami" := VStr ids]> output
                | None => output
                end in
  let output := <[name "_admin_cidrs" := VStrs match ip_AllowCIDRs (p_conf p) with
                                               | Some l => Some l
                                               | None => env_AdminCIDRs env_conf
                                               end]> output in
  let output := match ip_PrivateAllowCIDRs (p_conf p) with
                | Some l => <[name "_private_admin_cidrs" := VStrs (Some l)]> output
                | None => output
                end in
  root ← deref (p_rootVolume p);
  size ← pv_Size root;
  mret (<[name "_iam_additional_policy_arns" :=
            VStrs (from_nil (AmazonAdditionalIAMPolicies (c_conf c) p))]>
       (<[name "_root_volume_type" := VStr (pv_volumeType root)]>
       (<[name "_root_volume_size" := VInt size]>
       (<[name "_max_instance_count" := VInt (ip_MaxCount (p_conf p))]>
       (<[name "_min_instance_count" := VInt (ip_MinCount (p_conf p))]> output))))).

Fixpoint pools_variables (imageIDs : gmap string string) c (pools : list Pool)
    (output : gmap string value) : GoM (gmap string value) :=
  match pools with
  | [] => mret output
  | p :: pools' => output ← pool_variables imageIDs c output p; pools_variables imageIDs c pools' output
  end.

(** The certificate of the first jenkins pool that has one. *)
Definition jenkins_certificate (pools : list Pool) : option string :=
  head (omap (λ p, if decide (role_name (p_role p) = "jenkins")
                   then Annotations (ip_meta (p_conf p)) !! JenkinsCertificateARNAnnotationKey
                   else None) pools).

Definition set_opt (k : string) (v : option string) (m : gmap string value) : gmap string value :=
  match v with Some s => <[k := VStr s]> m | None => m end.

(** The four variables of one kind of ELB access log. *)
Definition access_log_variables (kind : string)
    (l : option ClusterKubernetesAPIServerAmazonAccessLogs) (output : gmap string value)
    : GoM (gmap string value) :=
  let name suffix := "elb_access_logs_" +:+ kind +:+ suffix in
  match l with
  | None => mret (<[name "_enabled" := VStr "false"]> output)
  | Some p =>
      e ← deref (al_Enabled p);
      i ← deref (al_Interval p);
      mret (<[name "_bucket_interval" := VInt i]>
           (<[name "_bucket_prefix" := VStr (al_BucketPrefix p)]>
           (<[name "_bucket" := VStr (al_Bucket p)]>
           (<[name "_enabled" := VStr (fmt_t e)]> output))))
  end.

Definition all_access_logs (k : option ClusterKubernetes) (output : gmap string value)
    : GoM (gmap string value) :=
  match (k ≫= ck_APIServer) ≫= api_Amazon with
  | Some am =>
      output ← access_log_variables "public" (asa_PublicELBAccessLogs am) output;
      access_log_variables "internal" (asa_InternalELBAccessLogs am) output
  | None =>
      mret (<["elb_access_logs_internal_enabled" := VStr "false"]>
           (<["elb_access_logs_public_enabled" := VStr "false"]> output))
  end.

Definition api_variables (k : option ClusterKubernetes) (output : gmap string value)
    : gmap string value :=
  match k with
  | None => <["api_admin_cidrs" := VStrs (env_AdminCIDRs env_conf)]> output
  | Some k =>
      let output := <["api_admin_cidrs" :=
        VStrs match ck_APIServer k ≫= api_AllowCIDRs with
              | Some l => Some l
              | None => env_AdminCIDRs env_conf
              end]> output in
      <["api_private_admin_cidrs" :=
        VStrs match ck_APIServer k ≫= api_PrivateAllowCIDRs with
              | Some l => Some l
              | None => Some []
              end]> output
  end.

(** [Variables()]; [log.Fatalf] ends the program, which is a [Panic] here. *)
Definition Variables (ids : bool → gmap string string + error) c
    : GoM (ClusterT * gmap string value) :=
  let '(c, r) := ImageIDs ids c in
  match r with
  | inr _ => Panic
  | inl imageIDs =>
      output ← pools_variables imageIDs c (c_instancePools c) env_variables;
      let output := match c_networkCIDR c with
                    | Some n => <["network" := VNet n]> output
                    | None => output
                    end in
      net ← deref (cl_Network (c_conf c));
      let annotation key := Annotations (net_meta net) !! key in
      let output := set_opt "vpc_id" (annotation ExistingVPCAnnotationKey) output in
      let output := set_opt "private_subnets" (annotation ExistingPrivateSubnetIDsAnnotationKey) output in
      let output := set_opt "public_subnets" (annotation ExistingPublicSubnetIDsAnnotationKey) output in
      let output := set_opt "jenkins_certificate_arn" (jenkins_certificate (c_instancePools c)) output in
      let k := cl_Kubernetes (c_conf c) in
      let output := api_variables k output in
      let output := if decide (env_PrivateZone env_conf = "") then output
                    else <["private_zone" := VStr (env_PrivateZone env_conf)]> output in
      output ← all_access_logs k output;
      mret (c, <["name" := VStr (c_Name c)]> output)
  end.

(** ** Hostnames, parameters, state *)
Definition PublicAPIHostname c : string :=
  match cl_Kubernetes (c_conf c) ≫= ck_APIServer with
  | Some api =>
      if api_Public api
      then "api." +:+ env_Name env_conf +:+ "-" +:+ c_Name c +:+ "." +:+ PublicZone else ""
  | None => ""
  end.

Definition PrivateAPIHostname c : string :=
  match cl_Kubernetes (c_conf c) ≫= ck_APIServer with
  | Some api =>
      if api_PrivateRecord api
      then "api-internal." +:+ env_Name env_conf +:+ "-" +:+ c_Name c +:+ "." +:+ PublicZone else ""
  | None => ""
  end.

Definition Parameters c : gmap string string :=
  <["provider" := prov_String]> (<["environment" := env_Name env_conf]> (<["name" := c_Name c]> ∅)).

Definition SetState (state : string) c : ClusterT := {| c with c_state := state |}.
Definition GetState c : string := c_state c.
End cluster.

(** ** Lemmas: instance pool counts and types *)

(** The number of configured pools of a type. *)
Definition count_pools (conf : Cluster) (t : string) : nat :=
  length (filter (λ p, ip_Type p = t) (cl_InstancePools conf)).

Lemma pools_by_type_from pools m t :
  default [] (foldl (λ m p, <[ip_Type p := default [] (m !! ip_Type p) ++ [p]]> m) m pools !! t) =
  default [] ((m : gmap string (list InstancePool)) !! t) ++ filter (λ p, ip_Type p = t) pools.
Proof.
  revert m. induction pools as [|p pools IH]; intros m; simpl; [by rewrite app_nil_r|].
  rewrite IH, filter_cons. destruct (decide (ip_Type p = t)) as [<-|].
  - rewrite lookup_insert_eq. simpl. by rewrite <- app_assoc.
  - by rewrite lookup_insert_ne.
Qed.

Lemma pools_by_type_lookup pools t :
  default [] (pools_by_type pools !! t) = filter (λ p, ip_Type p = t) pools.
Proof. unfold pools_by_type. by rewrite pools_by_type_from, lookup_empty. Qed.

Section cluster_lemmas.
Context `{MapRange} `{Env}.
Implicit Types c : ClusterT.

(** Appending an error for every element leaves nil only for no elements. *)
Lemma append_all_None {A} (f : A → error) l r :
  foldl (λ result t, Append result (Some (f t))) r l = None ↔ r = None ∧ l = [].
Proof.
  revert r. induction l as [|x l IH]; intros r; simpl; [naive_solver|].
  rewrite IH. unfold Append. naive_solver.
Qed.

Lemma append_all_proper {A} (f : A → string) l r :
  proper r → proper (foldl (λ result t, Append result (Some (Errorf (f t)))) r l).
Proof.
  revert r. induction l as [|x l IH]; intros r Hr; simpl; [done|].
  apply IH. unfold proper, Append. simpl. intros [= E]. by destruct (flatten r).
Qed.

Lemma keys_nil {A} (m : gmap string A) : keys m = [] ↔ m = ∅.
Proof. unfold keys. rewrite <- range_nil. by destruct (range m). Qed.

Lemma keyset_empty l : keyset l = ∅ ↔ l = [].
Proof.
  split; [|by intros ->]. intros E. destruct l as [|x l]; [done|]. exfalso.
  assert (keyset (x :: l) !! x = Some true) as Hx.
  { rewrite keyset_lookup, decide_True; [done|set_solver]. }
  by rewrite E, lookup_empty in Hx.
Qed.

Lemma validateClusterInstancePoolTypes_None c :
  validateClusterInstancePoolTypes c = None ↔
  ∃ allowed, allowed_pool_types (Type_ c) = Some allowed ∧
    ∀ p, p ∈ cl_InstancePools (c_conf c) → ip_Type p ∈ allowed.
Proof.
  unfold validateClusterInstancePoolTypes.
  destruct (allowed_pool_types (Type_ c)) as [allowed|]; [|naive_solver].
  rewrite ErrorOrNil_None by (by apply (append_all_proper (λ t, _))).
  rewrite (append_all_None (λ t, Errorf _)), keys_nil, keyset_empty, filter_nil_iff, Forall_fmap, Forall_forall.
  split.
  - intros [_ Hp]. exists allowed. split; [done|]. intros p Hin. apply dec_stable. by apply Hp.
  - intros (? & [= <-] & Hp). split; [done|]. intros p Hin Hn. by apply Hn, Hp.
Qed.

Lemma validateSingle_None c pools l :
  validateSingleInstancePoolMap c (pools_by_type pools) l = None ↔
  Forall (λ t, length (filter (λ p, ip_Type p = t) pools) = 1) l.
Proof.
  unfold validateSingleInstancePoolMap. rewrite ErrorOrNil_None.
  2:{ apply collect_proper; [done|]. intros. case_bool_decide; done. }
  rewrite collect_None. split.
  - intros [_ Hl]. eapply Forall_impl; [exact Hl|]. intros t. simpl.
    rewrite pools_by_type_lookup. by case_bool_decide.
  - intros Hl. split; [done|]. eapply Forall_impl; [exact Hl|]. intros t Ht. simpl.
    rewrite pools_by_type_lookup. by rewrite bool_decide_true.
Qed.

Lemma validateMulti_None c pools t :
  validateMultiInstancePoolMap c (pools_by_type pools) t = None ↔
  1 <= length (filter (λ p, ip_Type p = t) pools).
Proof.
  unfold validateMultiInstancePoolMap. rewrite pools_by_type_lookup.
  case_bool_decide; split; try done; lia.
Qed.

(** The numbers of pools a cluster type needs. *)
Definition counts_ok c : Prop :=
  let n := count_pools (c_conf c) in
  (Type_ c = ClusterTypeClusterSingle ∧
     1 <= n InstancePoolTypeWorker ∧ 1 <= n InstancePoolTypeMaster ∧
     n InstancePoolTypeBastion = 1 ∧ n InstancePoolTypeVault = 1 ∧ n InstancePoolTypeEtcd = 1) ∨
  (Type_ c = ClusterTypeHub ∧ n InstancePoolTypeBastion = 1 ∧ n InstancePoolTypeVault = 1) ∨
  (Type_ c = ClusterTypeClusterMulti ∧
     1 <= n InstancePoolTypeWorker ∧ 1 <= n InstancePoolTypeMaster ∧ n InstancePoolTypeEtcd = 1).

Lemma single_proper c m l : proper (validateSingleInstancePoolMap c m l).
Proof. apply ErrorOrNil_proper. Qed.
Lemma multi_proper c m t : proper (validateMultiInstancePoolMap c m t).
Proof. unfold validateMultiInstancePoolMap. by case_bool_decide. Qed.

Lemma validateClusterInstancePoolCount_None c :
  validateClusterInstancePoolCount c = None ↔ counts_ok c.
Proof.
  unfold validateClusterInstancePoolCount, counts_ok, count_pools.
  assert (Hp : ∀ r l t, proper r →
    proper (AppendIf (AppendIf r (validateSingleInstancePoolMap c
      (pools_by_type (cl_InstancePools (c_conf c))) l)) (validateMultiInstancePoolMap c
      (pools_by_type (cl_InstancePools (c_conf c))) t))).
  { intros. repeat apply AppendIf_proper; auto using single_proper, multi_proper. }
  destruct (decide (Type_ c = ClusterTypeHub)) as [E|E]; [rewrite E; simpl|].
  - rewrite ErrorOrNil_None by (apply AppendIf_proper; [done|apply single_proper]).
    rewrite AppendIf_None, validateSingle_None, !Forall_cons, Forall_nil.
    split; [intuition|]. intros [[? _]|[?|[? _]]]; try discriminate; intuition.
  - destruct (decide (Type_ c = ClusterTypeClusterSingle)) as [E1|E1];
      [|destruct (decide (Type_ c = ClusterTypeClusterMulti)) as [E2|E2]].
    + rewrite E1 in *. rewrite ErrorOrNil_None by (apply Hp, AppendIf_proper; [done|apply multi_proper]).
      rewrite !AppendIf_None, validateSingle_None, !validateMulti_None, !Forall_cons, Forall_nil.
      split; [intuition|]. intros [?|[[? _]|[? _]]]; try discriminate; intuition.
    + rewrite E2 in *. rewrite ErrorOrNil_None by (apply Hp, AppendIf_proper; [done|apply multi_proper]).
      rewrite !AppendIf_None, validateSingle_None, !validateMulti_None, !Forall_cons, Forall_nil.
      split; [intuition|]. intros [[? _]|[[? _]|?]]; try discriminate; intuition.
    + split; [done|]. intros [[? _]|[[? _]|[? _]]]; congruence.
Qed.

(** The zones of a cluster configuration. *)
Definition zones_of (conf : Cluster) : list string :=
  concat (map (λ sp, map sn_Zone (ip_Subnets sp)) (cl_InstancePools conf)).

Lemma subnets_of_zones conf : map sn_Zone (subnets_of conf) = keys (keyset (zones_of conf)).
Proof. unfold subnets_of. rewrite map_map. apply map_id. Qed.

Lemma subnets_of_elem conf z : z ∈ map sn_Zone (subnets_of conf) ↔ z ∈ zones_of conf.
Proof. by rewrite subnets_of_zones, keys_keyset. Qed.

Definition subnets_ok c : Prop :=
  ∀ hub, Type_ c = ClusterTypeClusterMulti → env_hub = Some hub →
    ∀ z, z ∈ zones_of (c_conf c) → z ∈ zones_of hub.

Lemma existsb_zone z (l : list Subnet) :
  existsb (λ hNet, bool_decide (z = sn_Zone hNet)) l = true ↔ z ∈ map sn_Zone l.
Proof.
  rewrite existsb_exists, list_elem_of_fmap. setoid_rewrite <- list_elem_of_In.
  split; intros (x & ? & ?); exists x; go_bool; try done. split; [done|]. by apply bool_decide_true.
Qed.

Lemma validateSubnets_None c : validateSubnets c = None ↔ subnets_ok c.
Proof.
  unfold validateSubnets, subnets_ok. case_decide as Ht; [|naive_solver].
  destruct env_hub as [hub|]; [|naive_solver].
  rewrite ErrorOrNil_None by (apply collect_proper; [done|]; intros; case_match; done).
  rewrite collect_None, Forall_forall. split.
  - intros [_ Hall] hub' _ [= <-] z Hz. rewrite <- subnets_of_elem in Hz |- *.
    apply list_elem_of_fmap in Hz as (s & -> & Hs). apply Hall in Hs.
    apply existsb_zone. by destruct (existsb _ _).
  - intros Hall. split; [done|]. intros s Hs.
    assert (existsb (λ hNet, bool_decide (sn_Zone s = sn_Zone hNet)) (subnets_of hub) = true) as ->; [|done].
    apply existsb_zone. rewrite subnets_of_elem. apply (Hall hub); [done..|].
    rewrite <- subnets_of_elem. by apply list_elem_of_fmap_2.
Qed.
End cluster_lemmas.

(** ** Lemmas: the other validations *)

Lemma if_error_None (b : bool) (e : error) x :
  (if b then Some e else x) = None ↔ b = false ∧ x = None.
Proof. destruct b; naive_solver. Qed.

Definition sinks_ok (conf : Cluster) : Prop :=
  ∀ s es, s ∈ elems (cl_LoggingSinks conf) → ls_Elasticsearch s = Some es →
    es_AmazonESProxy es ≠ None →
    es_HTTPBasicAuth es = None ∧ es_TLSVerify es = false ∧ es_TLSCA es = "".

Lemma check_sinks_None i sinks :
  check_sinks i sinks = None ↔
  ∀ s es, s ∈ sinks → ls_Elasticsearch s = Some es → es_AmazonESProxy es ≠ None →
    es_HTTPBasicAuth es = None ∧ es_TLSVerify es = false ∧ es_TLSCA es = "".
Proof.
  revert i. induction sinks as [|s sinks IH]; intros i; simpl; [set_solver|].
  transitivity ((∀ es, ls_Elasticsearch s = Some es → es_AmazonESProxy es ≠ None →
    es_HTTPBasicAuth es = None ∧ es_TLSVerify es = false ∧ es_TLSCA es = "") ∧
    check_sinks (S i) sinks = None).
  - destruct (ls_Elasticsearch s) as [es|]; [|naive_solver].
    destruct (es_AmazonESProxy es) eqn:E1; [|naive_solver].
    destruct (es_HTTPBasicAuth es) eqn:E2.
    { split; [done|]. intros [Hh _]. destruct (Hh es eq_refl) as [? _]; congruence. }
    rewrite !if_error_None, negb_false_iff, bool_decide_eq_true. split.
    + intros (? & ? & ?). split; [|done]. by intros ? [= <-] _.
    + intros [Hh ?]. by destruct (Hh es eq_refl) as (? & ? & ?); [congruence|].
  - rewrite IH. split.
    + intros [Hs Hr] s' es Hin. apply elem_of_cons in Hin as [->|?]; [by apply Hs|by apply Hr].
    + intros Hall. split; intros; eapply Hall; eauto; set_solver.
Qed.

Lemma check_sinks_proper i sinks : proper (check_sinks i sinks).
Proof. revert i. induction sinks as [|s l IH]; intros i; simpl; [done|]. repeat case_match; done. Qed.

Lemma validateLoggingSinks_None c : validateLoggingSinks c = None ↔ sinks_ok (c_conf c).
Proof.
  unfold validateLoggingSinks, sinks_ok.
  destruct (cl_LoggingSinks (c_conf c)) as [sinks|]; simpl; [apply check_sinks_None|set_solver].
Qed.

(** A valid overprovisioning configuration. *)
Definition overprovisioning_ok (ca : ClusterKubernetesClusterAutoscaler)
    (o : ClusterKubernetesClusterAutoscalerOverprovisioning) : Prop :=
  ca_Enabled ca = true ∧
  (0 ≤ cao_ReservedMegabytesPerReplica o ∧ 0 ≤ cao_ReservedMillicoresPerReplica o ∧
   0 ≤ cao_CoresPerReplica o ∧ 0 ≤ cao_NodesPerReplica o ∧ 0 ≤ cao_ReplicaCount o)%Z ∧
  (cao_ReservedMegabytesPerReplica o ≠ 0 ∨ cao_ReservedMillicoresPerReplica o ≠ 0)%Z ∧
  ((0 < cao_CoresPerReplica o ∨ 0 < cao_NodesPerReplica o) → cao_ReplicaCount o = 0)%Z ∧
  (cao_Image o ≠ "" ∨ cao_Version o ≠ "" → cao_CoresPerReplica o ≠ 0 ∨ cao_NodesPerReplica o ≠ 0)%Z ∧
  (∀ s, ca_ScaleDownUtilizationThreshold ca = Some s →
     SFltb s float_zero = false ∧ SFltb float_one s = false).

Definition autoscaler_ok (conf : Cluster) : Prop :=
  ∀ k ca o, cl_Kubernetes conf = Some k → ck_ClusterAutoscaler k = Some ca →
    ca_Overprovisioning ca = Some o → cao_Enabled o = true → overprovisioning_ok ca o.

Lemma validateClusterAutoscaler_None fmt c :
  validateClusterAutoscaler fmt c = None ↔ autoscaler_ok (c_conf c).
Proof.
  unfold validateClusterAutoscaler, autoscaler_ok.
  destruct (cl_Kubernetes (c_conf c)) as [k|]; simpl; [|naive_solver].
  destruct (ck_ClusterAutoscaler k) as [ca|] eqn:Eca; [|naive_solver].
  destruct (ca_Overprovisioning ca) as [o|] eqn:Eo; [|naive_solver].
  destruct (cao_Enabled o) eqn:Een; simpl.
  2:{ split; [|done]. intros _ ? ? ? [= <-] Ha Hb. congruence. }
  transitivity (overprovisioning_ok ca o).
  2:{ split; [intros ? ? ? ? [= <-] Ha Hb; congruence|]. intros Hall. by eapply Hall. }
  unfold overprovisioning_ok.
  assert (Hthr : match ca_ScaleDownUtilizationThreshold ca with
                 | Some s => if SFltb s float_zero || SFltb float_one s
                             then Some (Errorf ("scale down threshold '" +:+ fmt s +:+
                                                "' unacceptable, must be value between 0 and 1"))
                             else None
                 | None => None
                 end = None ↔
                 ∀ s, ca_ScaleDownUtilizationThreshold ca = Some s →
                   SFltb s float_zero = false ∧ SFltb float_one s = false).
  { destruct (ca_ScaleDownUtilizationThreshold ca) as [s|]; [|naive_solver].
    rewrite if_error_None, orb_false_iff. split.
    - by intros [[? ?] _] s' [= <-].
    - intros Hs. split; [by apply Hs|done]. }
  rewrite !if_error_None, Hthr. clear Hthr.
  rewrite !orb_false_iff, !andb_false_iff, !orb_false_iff, !negb_false_iff, !bool_decide_eq_true,
    !Z.ltb_ge, !Z.eqb_neq.
  destruct (ca_Enabled ca); simpl; [|naive_solver].
  destruct (decide (cao_Image o = "")), (decide (cao_Version o = "")); intuition (try congruence; lia).
Qed.

Lemma validateClusterAutoscaler_proper fmt c : proper (validateClusterAutoscaler fmt c).
Proof. unfold validateClusterAutoscaler. repeat case_match; done. Qed.

Definition calico_ok (calico : ClusterKubernetesCalico) : Prop :=
  (cal_Backend calico = CalicoBackendEtcd ∨ cal_Backend calico = CalicoBackendKubernetes) ∧
  (cal_EnableTypha calico = true →
     cal_Backend calico = CalicoBackendKubernetes ∧
     ∃ r, cal_TyphaReplicas calico = Some r ∧ (0 < r)%Z).

Lemma Append_None r e : Append r e = None ↔ False.
Proof. unfold Append. naive_solver. Qed.

Lemma Append_Errorf_proper r s : proper (Append r (Some (Errorf s))).
Proof. unfold proper, Append. simpl. intros [= E]. by destruct (flatten r). Qed.

Lemma if_append_None (b : bool) r e :
  (if b then Append r (Some e) else r) = None ↔ b = false ∧ r = None.
Proof. destruct b; rewrite ?Append_None; naive_solver. Qed.

Lemma if_ok_None (b : bool) e : (if b then None else Append None e) = None ↔ b = true.
Proof. destruct b; rewrite ?Append_None; naive_solver. Qed.

Lemma validateCalico_None calico : validateCalico calico = None ↔ calico_ok calico.
Proof.
  unfold validateCalico, calico_ok.
  rewrite ErrorOrNil_None by (repeat case_match; auto using Append_Errorf_proper, None_proper).
  rewrite !if_append_None, if_ok_None, !andb_false_iff, negb_false_iff, orb_true_iff, !bool_decide_eq_true.
  destruct (cal_EnableTypha calico), (cal_TyphaReplicas calico) as [r|]; rewrite ?Z.leb_gt;
    [|naive_solver..].
  split; [|naive_solver]. intros ([?|?] & [?|?] & ?); try done. split; [done|]. eauto.
Qed.

Definition prometheus_ok (p : ClusterKubernetesPrometheus) : Prop :=
  prom_Mode p = "" ∨ prom_Mode p ∈ [PrometheusModeFull; PrometheusModeExternalScrapeTargetsOnly;
                                    PrometheusModeExternalExportersOnly].

Lemma validatePrometheusMode_None p : validatePrometheusMode p = None ↔ prometheus_ok p.
Proof.
  unfold validatePrometheusMode, prometheus_ok.
  assert (prom_Mode p ∈ allowedModes ↔
    prom_Mode p ∈ [PrometheusModeFull; PrometheusModeExternalScrapeTargetsOnly;
                   PrometheusModeExternalExportersOnly]) as Hm.
  { unfold allowedModes. by rewrite sort_strings_perm. }
  destruct (bool_decide_reflect (prom_Mode p = "")), (bool_decide_reflect (prom_Mode p ∈ allowedModes));
    simpl; rewrite <- Hm; naive_solver.
Qed.

Definition access_logs_ok (l : option ClusterKubernetesAPIServerAmazonAccessLogs) : Prop :=
  ∀ l', l = Some l' → ∃ e, al_Enabled l' = Some e ∧
    (e = true → al_Bucket l' ≠ "" ∧ (al_Interval l' = Some 5%Z ∨ al_Interval l' = Some 60%Z)).

Lemma check_access_logs_None r l :
  check_access_logs r l = Ret None ↔ r = None ∧ access_logs_ok l.
Proof.
  unfold check_access_logs, access_logs_ok. destruct l as [[en b bp iv]|]; simpl.
  2:{ split; [intros [= ->]; done|by intros [-> _]]. }
  destruct en as [[]|]; simpl.
  - destruct iv as [i|]; simpl.
    + transitivity (r = None ∧ b ≠ "" ∧ (i = 5 ∨ i = 60)%Z).
      * destruct (decide (b = "")), (bool_decide_reflect (i = 5%Z)), (bool_decide_reflect (i = 60%Z));
          simpl; (split; [intros [=]; subst; tauto|]); intros (-> & ? & [?|?]); tauto.
      * split.
        -- intros (-> & Hb & Hi). split; [done|]. intros l' [= <-]. exists true. simpl.
           split; [done|]. intros _. split; [done|]. destruct Hi; subst; auto.
        -- intros [-> Hl]. destruct (Hl _ eq_refl) as (e & [= <-] & He). simpl in He.
           destruct (He eq_refl) as [? [[= ->]|[= ->]]]; auto.
    + split; [done|]. intros [-> Hl]. destruct (Hl _ eq_refl) as (e & [= <-] & He).
      by destruct (He eq_refl) as [_ [?|?]].
  - split.
    + intros [= ->]. split; [done|]. intros l' [= <-]. by exists false.
    + by intros [-> _].
  - split; [done|]. intros [-> Hl]. by destruct (Hl _ eq_refl) as (e & ? & _).
Qed.

Definition parses (cidr : string) : Prop := ∃ n, ParseCIDR cidr = inl n.

Lemma invalid_cidr_None suffix cidr : invalid_cidr suffix cidr = None ↔ parses cidr.
Proof. unfold invalid_cidr, parses. destruct (ParseCIDR cidr); naive_solver. Qed.

Lemma invalid_cidr_proper suffix cidr : proper (invalid_cidr suffix cidr).
Proof. unfold invalid_cidr. by case_match. Qed.

Lemma Validate_pool_None n :
  Validate_pool n = None ↔
  Forall parses (elems (ip_AllowCIDRs (p_conf n)) ++ elems (ip_PrivateAllowCIDRs (p_conf n))).
Proof.
  unfold Validate_pool, ValidateAllowCIDRs. rewrite !collect_None, Forall_app.
  setoid_rewrite invalid_cidr_None. tauto.
Qed.

Lemma Validate_pool_proper n : proper (Validate_pool n).
Proof.
  unfold Validate_pool, ValidateAllowCIDRs.
  repeat apply collect_proper; auto using None_proper, invalid_cidr_proper.
Qed.

Section validate_lemmas.
Context `{MapRange} `{Env}.
Context {V : Type} (NewVersion : string → V + string) (LessThan : V → V → bool).
Context (fmt_float : spec_float → string).
Implicit Types c : ClusterT.

Definition apiserver_ok (k : ClusterKubernetes) (api : ClusterKubernetesAPIServer) : Prop :=
  Forall parses (elems (api_AllowCIDRs api) ++ elems (api_PrivateAllowCIDRs api)) ∧
  (∀ a, api_Amazon api = Some a →
     access_logs_ok (asa_PublicELBAccessLogs a) ∧ access_logs_ok (asa_InternalELBAccessLogs a)) ∧
  ∃ vK v11, NewVersion (ck_Version k) = inl vK ∧ NewVersion "1.11.0" = inl v11 ∧
    (LessThan vK v11 = true → api_DisableAdmissionControllers api = []).

Lemma validateAPIServer_None k api :
  validateAPIServer NewVersion LessThan k api = Ret None ↔ apiserver_ok k api.
Proof.
  unfold validateAPIServer, apiserver_ok.
  set (r0 := collect _ (elems (api_PrivateAllowCIDRs api)) _).
  assert (Hr0 : r0 = None ↔
    Forall parses (elems (api_AllowCIDRs api) ++ elems (api_PrivateAllowCIDRs api))).
  { unfold r0. rewrite !collect_None, Forall_app. setoid_rewrite invalid_cidr_None. tauto. }
  set (logs := match api_Amazon api with Some _ => _ | None => _ end).
  assert (Hlogs : logs = Ret None ↔ r0 = None ∧ ∀ a, api_Amazon api = Some a →
     access_logs_ok (asa_PublicELBAccessLogs a) ∧ access_logs_ok (asa_InternalELBAccessLogs a)).
  { unfold logs. destruct (api_Amazon api) as [a|].
    - destruct (check_access_logs r0 _) as [r1|] eqn:E; cbn [mbind GoM_bind].
      + rewrite check_access_logs_None. split.
        * intros [-> Hi]. apply check_access_logs_None in E as [-> Hp]. naive_solver.
        * intros [-> Ha]. destruct (Ha a eq_refl) as [Hp Hi]. split; [|done].
          assert (check_access_logs None (asa_PublicELBAccessLogs a) = Ret None)
            by (by apply check_access_logs_None). congruence.
      + split; [done|]. intros [-> Ha]. destruct (Ha a eq_refl) as [Hp _].
        assert (check_access_logs None (asa_PublicELBAccessLogs a) = Ret None)
          by (by apply check_access_logs_None). congruence.
    - split; [intros [= ->]; naive_solver|by intros [-> _]]. }
  rewrite <- Hr0, <- Logic.and_assoc, <- Hlogs. clearbody logs. clear Hr0 Hlogs r0.
  destruct logs as [r|]; cbn [mbind GoM_bind]; [|naive_solver].
  destruct (NewVersion (ck_Version k)) as [vK|err]; [|split; [by intros [= ?%Append_None]|naive_solver]].
  destruct (NewVersion "1.11.0") as [v11|err]; [|split; [by intros [= ?%Append_None]|naive_solver]].
  destruct (LessThan vK v11) eqn:E, (bool_decide_reflect (api_DisableAdmissionControllers api = []));
    simpl; split; try (by intros [= ?%Append_None]); try naive_solver.
  intros [= ->]. split; [done|]. exists vK, v11. rewrite E. done.
Qed.

Lemma check_access_logs_proper r l r' :
  proper r → check_access_logs r l = Ret r' → proper r'.
Proof.
  unfold check_access_logs. destruct l as [[[[]|] b ? [i|]]|]; simpl; intros Hr Heq;
    try discriminate Heq; injection Heq as <-; try done;
    repeat case_match; auto using Append_Errorf_proper.
Qed.

Lemma validateAPIServer_proper k api r :
  validateAPIServer NewVersion LessThan k api = Ret r → proper r.
Proof.
  unfold validateAPIServer.
  set (r0 := collect _ (elems (api_PrivateAllowCIDRs api)) _).
  assert (proper r0) as Hr0.
  { unfold r0. repeat apply collect_proper; auto using None_proper, invalid_cidr_proper. }
  clearbody r0. set (logs := match api_Amazon api with Some _ => _ | None => _ end).
  assert (∀ r1, logs = Ret r1 → proper r1) as Hlogs.
  { unfold logs. destruct (api_Amazon api) as [a|]; [|by intros ? [= <-]].
    destruct (check_access_logs r0 _) eqn:E; cbn [mbind GoM_bind]; [|done].
    intros r1. apply check_access_logs_proper. by eapply check_access_logs_proper. }
  clearbody logs. destruct logs as [r1|]; cbn [mbind GoM_bind]; [|done].
  specialize (Hlogs r1 eq_refl).
  repeat case_match; intros [= <-]; auto using Append_Errorf_proper.
Qed.
End validate_lemmas.
