(* ===== verification/ClusterSpec.v ===== *)
(** * ClusterSpec: what validating and building a cluster promises

    The properties of [Cluster.v]: [Validate] accepts exactly the
    configurations described by [valid_cluster], it never panics on a
    configuration that went through the defaults, and [NewFromConfig] builds
    one pool per configured pool. *)

From Stdlib Require Import Floats.SpecFloat.
From S2P Require Import Prelude Types Net Utils Defaults Config Role Provider InstancePool Cluster.

Section spec.
Context `{MapRange} `{Env}.
Context {V : Type} (NewVersion : string → V + string) (LessThan : V → V → bool).
Context (fmt_float : spec_float → string).
Implicit Types c : ClusterT.

Abbreviation Validate := (Cluster.Validate NewVersion LessThan fmt_float).
Abbreviation NewFromConfig := (Cluster.NewFromConfig NewVersion LessThan fmt_float).

(** The instance pools are right for the type of the cluster. *)
Record pools_ok c : Prop := {
  po_cidrs : ∀ n, n ∈ c_instancePools c →
    Forall parses (elems (ip_AllowCIDRs (p_conf n)) ++ elems (ip_PrivateAllowCIDRs (p_conf n)));
  po_types : ∃ allowed, allowed_pool_types (Type_ c) = Some allowed ∧
    ∀ p, p ∈ cl_InstancePools (c_conf c) → ip_Type p ∈ allowed;
  po_counts : counts_ok c;
  po_subnets : subnets_ok c;
}.

Record kubernetes_ok (k : ClusterKubernetes) : Prop := {
  ko_api : ∀ api, ck_APIServer k = Some api → apiserver_ok NewVersion LessThan k api;
  ko_prometheus : ∀ p, ck_Prometheus k = Some p → prometheus_ok p;
  ko_calico : ∀ cal, ck_Calico k = Some cal → calico_ok cal;
}.

(** A cluster that validation accepts. *)
Record valid_cluster c (net : IPNet) : Prop := {
  vc_pools : pools_ok c;
  vc_network : ∃ n, cl_Network (c_conf c) = Some n ∧ ParseCIDR (net_CIDR n) = inl net;
  vc_sinks : sinks_ok (c_conf c);
  vc_autoscaler : autoscaler_ok (c_conf c);
  vc_kubernetes : ∀ k, cl_Kubernetes (c_conf c) = Some k → kubernetes_ok k;
}.

Lemma validateInstancePools_None c : validateInstancePools c = None ↔ pools_ok c.
Proof.
  unfold validateInstancePools.
  assert (Hc : ErrorOrNil (collect Validate_pool (c_instancePools c) None) = None ↔
    ∀ n, n ∈ c_instancePools c →
      Forall parses (elems (ip_AllowCIDRs (p_conf n)) ++ elems (ip_PrivateAllowCIDRs (p_conf n)))).
  { rewrite ErrorOrNil_None by (apply collect_proper; auto using None_proper, Validate_pool_proper).
    rewrite collect_None, Forall_forall. setoid_rewrite Validate_pool_None. tauto. }
  transitivity (ErrorOrNil (collect Validate_pool (c_instancePools c) None) = None ∧
    validateClusterInstancePoolTypes c = None ∧ validateClusterInstancePoolCount c = None ∧
    validateSubnets c = None).
  { repeat case_match; naive_solver. }
  rewrite Hc, validateClusterInstancePoolTypes_None, validateClusterInstancePoolCount_None,
    validateSubnets_None.
  split; [intros (? & ? & ? & ?); by split | by intros [? ? ? ?]].
Qed.

Lemma validateClusterInstancePoolCount_proper c : proper (validateClusterInstancePoolCount c).
Proof.
  unfold validateClusterInstancePoolCount. repeat case_decide; auto using ErrorOrNil_proper, Errorf_proper.
Qed.

Lemma validateInstancePools_proper c : proper (validateInstancePools c).
Proof.
  unfold validateInstancePools.
  destruct (ErrorOrNil _) eqn:E1; [rewrite <- E1; apply ErrorOrNil_proper|].
  destruct (validateClusterInstancePoolTypes c) eqn:E2.
  { rewrite <- E2. unfold validateClusterInstancePoolTypes.
    destruct (allowed_pool_types _); auto using ErrorOrNil_proper, Errorf_proper. }
  destruct (validateClusterInstancePoolCount c) eqn:E3.
  { rewrite <- E3. apply validateClusterInstancePoolCount_proper. }
  unfold validateSubnets. repeat case_match; auto using ErrorOrNil_proper, None_proper.
Qed.

(** The part of [Validate] about Kubernetes, with the errors so far. *)
Definition kubernetes_errors (k : ClusterKubernetes) (result : option error) : GoM (option error) :=
  result ← match ck_APIServer k with
           | None => mret result
           | Some api => err ← validateAPIServer NewVersion LessThan k api; mret (AppendIf result err)
           end;
  let result := match ck_Prometheus k with
                | None => result
                | Some p => AppendIf result (validatePrometheusMode p)
                end in
  mret match ck_Calico k with
       | None => result
       | Some calico => AppendIf result (validateCalico calico)
       end.

Lemma kubernetes_errors_None k r :
  kubernetes_errors k r = Ret None ↔ r = None ∧ kubernetes_ok k.
Proof.
  unfold kubernetes_errors. split.
  - destruct (ck_APIServer k) as [api|] eqn:Ea.
    + destruct (validateAPIServer _ _ k api) as [e|] eqn:Ev; cbn [mbind GoM_bind mret GoM_ret]; [|done].
      intros [= Hc].
      destruct (ck_Calico k) eqn:Ec, (ck_Prometheus k) eqn:Ep; rewrite ?AppendIf_None in Hc;
        destruct_and?; subst; (split; [done|]); split; intros ? ?; simplify_eq;
        first [by apply validateAPIServer_None | by apply validatePrometheusMode_None
              | by apply validateCalico_None].
    + cbn [mbind GoM_bind mret GoM_ret]. intros [= Hc].
      destruct (ck_Calico k) eqn:Ec, (ck_Prometheus k) eqn:Ep; rewrite ?AppendIf_None in Hc;
        destruct_and?; subst; (split; [done|]); split; intros ? ?; simplify_eq;
        first [by apply validatePrometheusMode_None | by apply validateCalico_None].
  - intros [-> [Ha Hp Hc]].
    assert (match ck_APIServer k with
            | None => mret None
            | Some api => err ← validateAPIServer NewVersion LessThan k api; mret (AppendIf None err)
            end = Ret None) as ->.
    { destruct (ck_APIServer k) as [api|]; [|done].
      destruct (validateAPIServer_None NewVersion LessThan k api) as [_ Hv].
      by rewrite (Hv (Ha api eq_refl)). }
    cbn [mbind GoM_bind mret GoM_ret]. f_equal.
    destruct (ck_Prometheus k) as [p|]; [rewrite (proj2 (validatePrometheusMode_None p)) by auto|]; simpl;
      (destruct (ck_Calico k) as [cal|]; [rewrite (proj2 (validateCalico_None cal)) by auto|]); done.
Qed.

Lemma validatePrometheusMode_proper p : proper (validatePrometheusMode p).
Proof. unfold validatePrometheusMode. by case_match. Qed.
Lemma validateCalico_proper p : proper (validateCalico p).
Proof. apply ErrorOrNil_proper. Qed.

Lemma kubernetes_errors_proper k r r' :
  proper r → kubernetes_errors k r = Ret r' → proper r'.
Proof.
  intros Hr. unfold kubernetes_errors.
  set (first := match ck_APIServer k with Some _ => _ | None => _ end).
  assert (∀ r1, first = Ret r1 → proper r1) as Hf.
  { unfold first. destruct (ck_APIServer k) as [api|]; [|by intros ? [= <-]].
    destruct (validateAPIServer _ _ k api) eqn:Ev; cbn [mbind GoM_bind mret GoM_ret]; [|done].
    intros ? [= <-]. apply AppendIf_proper; [done|]. by eapply validateAPIServer_proper. }
  destruct first as [r1|]; cbn [mbind GoM_bind mret GoM_ret]; [|done]. specialize (Hf r1 eq_refl).
  intros [= <-]. repeat case_match;
    auto using AppendIf_proper, validatePrometheusMode_proper, validateCalico_proper.
Qed.

(** The errors of [Validate] before the Kubernetes part. *)
Definition early_errors c (network : option error) : option error :=
  AppendIf (AppendIf (AppendIf (AppendIf None (validateInstancePools c)) network)
    (validateLoggingSinks c))
    ((λ err, Errorf ("invalid overprovisioning configuration: " +:+ error_string err))
     <$> validateClusterAutoscaler fmt_float c).

Lemma early_errors_None c network :
  early_errors c network = None ↔
  pools_ok c ∧ network = None ∧ sinks_ok (c_conf c) ∧ autoscaler_ok (c_conf c).
Proof.
  unfold early_errors. rewrite !AppendIf_None, validateInstancePools_None, validateLoggingSinks_None.
  rewrite fmap_None, validateClusterAutoscaler_None. tauto.
Qed.

Lemma early_errors_proper c network : proper network → proper (early_errors c network).
Proof.
  intros. unfold early_errors. repeat apply AppendIf_proper; try done.
  - apply validateInstancePools_proper.
  - unfold validateLoggingSinks. case_match; [apply check_sinks_proper|done].
  - by destruct (validateClusterAutoscaler _ _).
Qed.

(** [Validate] in terms of its parts. *)
Lemma Validate_eq c :
  Validate c =
  match cl_Network (c_conf c) with
  | None => Panic
  | Some n =>
      let '(c', network) :=
        match ParseCIDR (net_CIDR n) with
        | inr err => (c, Some (Errorf ("error parsing network: " +:+ error_string err)))
        | inl net => ({| c with c_networkCIDR := Some net |}, None)
        end in
      match cl_Kubernetes (c_conf c) with
      | None => Ret (c', ErrorOrNil (early_errors c network))
      | Some k => r ← kubernetes_errors k (early_errors c network); Ret (c', ErrorOrNil r)
      end
  end.
Proof.
  unfold Cluster.Validate, validateNetwork, early_errors.
  destruct (cl_Network (c_conf c)) as [n|]; [|done]. cbn [deref mbind GoM_bind mret GoM_ret].
  destruct (ParseCIDR (net_CIDR n)); cbn [mbind GoM_bind mret GoM_ret c_conf].
  all: destruct (cl_Kubernetes (c_conf c)) as [k|] eqn:Ek.
  all: unfold kubernetes_errors, validateLoggingSinks, validateClusterAutoscaler;
    cbn [c_conf mbind GoM_bind mret GoM_ret]; rewrite ?Ek; try done.
  all: destruct (ck_APIServer k) as [api|]; [destruct (validateAPIServer _ _ k api)|]; done.
Qed.

Lemma Validate_ok c c' :
  Validate c = Ret (c', None) ↔
  ∃ net, valid_cluster c net ∧ c' = {| c with c_networkCIDR := Some net |}.
Proof.
  rewrite Validate_eq. destruct (cl_Network (c_conf c)) as [n|] eqn:En.
  2:{ split; [done|]. intros (net & [_ (n & Hn & _) _ _ _] & _). congruence. }
  set (network := match ParseCIDR (net_CIDR n) with inl _ => _ | inr _ => _ end).
  assert (Hsnd : proper network.2) by (unfold network; by case_match).
  assert (Hnet : network.2 = None ↔ ∃ net, ParseCIDR (net_CIDR n) = inl net ∧
            network.1 = {| c with c_networkCIDR := Some net |}).
  { unfold network. destruct (ParseCIDR (net_CIDR n)); simpl; naive_solver. }
  assert (Huniq : ∀ net, ParseCIDR (net_CIDR n) = inl net →
            network = ({| c with c_networkCIDR := Some net |}, None)).
  { intros net Hp. unfold network. by rewrite Hp. }
  clearbody network. destruct network as [c1 network]. simpl in *.
  assert (Hk : match cl_Kubernetes (c_conf c) with
               | Some k => r ← kubernetes_errors k (early_errors c network); Ret (c1, ErrorOrNil r)
               | None => Ret (c1, ErrorOrNil (early_errors c network))
               end = Ret (c', None) ↔
               c1 = c' ∧ early_errors c network = None ∧
               ∀ k, cl_Kubernetes (c_conf c) = Some k → kubernetes_ok k).
  { pose proof (early_errors_proper c network Hsnd) as Hp.
    destruct (cl_Kubernetes (c_conf c)) as [k|].
    - pose proof (kubernetes_errors_None k (early_errors c network)) as HN.
      destruct (kubernetes_errors k _) as [r|] eqn:Er; cbn [mbind GoM_bind].
      + apply kubernetes_errors_proper in Er; [|done]. split.
        * intros [= -> Hr]. rewrite ErrorOrNil_None in Hr by done. subst r.
          destruct (proj1 HN eq_refl) as [? ?]. split_and!; try done. by intros ? [= <-].
        * intros (-> & He & Hall). by pose proof (proj2 HN (conj He (Hall k eq_refl))) as [= ->].
      + split; [done|]. intros (_ & He & Hall). by discriminate (proj2 HN (conj He (Hall k eq_refl))).
    - split.
      + intros [= -> Hr]. rewrite ErrorOrNil_None in Hr by done. naive_solver.
      + intros (-> & -> & _). done. }
  rewrite Hk, early_errors_None. split.
  - intros (-> & (? & Hn & ? & ?) & ?). apply Hnet in Hn as (net & Hp & ->).
    exists net. split; [|done]. split; eauto.
  - intros (net & [? (n' & Hn' & Hp) ? ? ?] & ->). assert (n' = n) as -> by congruence.
    specialize (Huniq net Hp). injection Huniq as -> ->. split_and!; eauto.
Qed.

(** ** Lemmas: no panic after the defaults *)
Definition access_logs_set (l : option ClusterKubernetesAPIServerAmazonAccessLogs) : Prop :=
  ∀ l', l = Some l' → al_Enabled l' ≠ None ∧ al_Interval l' ≠ None.

Lemma check_access_logs_total r l : access_logs_set l → ∃ r', check_access_logs r l = Ret r'.
Proof.
  unfold access_logs_set, check_access_logs. destruct l as [[en ? ? iv]|]; [|eauto].
  intros Hl. destruct (Hl _ eq_refl) as [He Hi]. simpl in *.
  destruct en as [[]|]; [|by eexists|done]. destruct iv; [by eexists|done].
Qed.

Lemma validateAPIServer_total k api :
  (∀ a, api_Amazon api = Some a →
     access_logs_set (asa_PublicELBAccessLogs a) ∧ access_logs_set (asa_InternalELBAccessLogs a)) →
  ∃ r, validateAPIServer NewVersion LessThan k api = Ret r.
Proof.
  intros Ha. unfold validateAPIServer.
  set (r0 := collect _ (elems (api_PrivateAllowCIDRs api)) _). clearbody r0.
  assert (∃ r1, match api_Amazon api with
                | Some a => r ← check_access_logs r0 (asa_PublicELBAccessLogs a);
                            check_access_logs r (asa_InternalELBAccessLogs a)
                | None => mret r0
                end = Ret r1) as [r1 ->].
  { destruct (api_Amazon api) as [a|]; [|by eexists]. destruct (Ha a eq_refl) as [Hp Hi].
    destruct (check_access_logs_total r0 _ Hp) as [r1 ->]. by apply check_access_logs_total. }
  cbn [mbind GoM_bind]. repeat case_match; by eexists.
Qed.

Lemma SetDefaults_access_logs_set l :
  access_logs_set (SetDefaults_ClusterKubernetesAPIServerAmazonAccessLogs <$> l).
Proof.
  intros l' Hl. apply fmap_Some in Hl as (l0 & -> & ->). simpl.
  by destruct (al_Enabled l0), (al_Interval l0).
Qed.

Lemma defaulted_Kubernetes now conf k api a :
  cl_Kubernetes (SetObjectDefaults_Cluster now conf) = Some k → ck_APIServer k = Some api →
  api_Amazon api = Some a →
  access_logs_set (asa_PublicELBAccessLogs a) ∧ access_logs_set (asa_InternalELBAccessLogs a).
Proof.
  simpl. intros [= <-]. simpl. intros (api0 & _ & ->)%fmap_Some. simpl.
  intros (a0 & _ & ->)%fmap_Some. simpl. split; apply SetDefaults_access_logs_set.
Qed.

Lemma Validate_total now conf c :
  c_conf c = SetObjectDefaults_Cluster now conf → ∃ r, Validate c = Ret r.
Proof.
  intros Hc. rewrite Validate_eq.
  assert (∃ n, cl_Network (c_conf c) = Some n) as [n ->] by (rewrite Hc; simpl; by eexists).
  destruct (match ParseCIDR (net_CIDR n) with inl _ => _ | inr _ => _ end) as [c' network].
  destruct (cl_Kubernetes (c_conf c)) as [k|] eqn:Ek; [|by eexists].
  unfold kubernetes_errors.
  assert (∃ r1, match ck_APIServer k with
                | None => mret (early_errors c network)
                | Some api => err ← validateAPIServer NewVersion LessThan k api;
                              mret (AppendIf (early_errors c network) err)
                end = Ret r1) as [r1 ->].
  { destruct (ck_APIServer k) as [api|] eqn:Ea; [|by eexists].
    destruct (validateAPIServer_total k api) as [r ->]; [|by eexists].
    intros a Haa. rewrite Hc in Ek. by eapply defaulted_Kubernetes. }
  by eexists.
Qed.

(** ** Lemmas: building the pools *)
Lemma make_pools_error roles confs pools e r :
  make_pools roles confs pools (Some e) = Ret r → r.2 ≠ None.
Proof.
  revert pools e. induction confs as [|conf confs IH]; intros pools e; simpl.
  - by intros [= <-].
  - destruct (InstancePool.NewFromConfig roles conf) as [[[n|] [err|]]|]; simpl; try apply IH. done.
Qed.

Lemma make_pools_ok roles confs pools pools' :
  make_pools roles confs pools None = Ret (pools', None) →
  ∃ new, pools' = pools ++ new ∧
    Forall2 (λ conf n, InstancePool.NewFromConfig roles conf = Ret (Some n, None)) confs new.
Proof.
  revert pools. induction confs as [|conf confs IH]; intros pools; simpl.
  - intros [= <-]. exists []. by rewrite app_nil_r.
  - destruct (InstancePool.NewFromConfig roles conf) as [[[n|] [err|]]|] eqn:En; cbn [mbind GoM_bind];
      try (intros Hm; by apply make_pools_error in Hm); try done.
    + intros (new & -> & Hnew)%IH. exists (n :: new). rewrite <- app_assoc. by split; [|constructor].
    + by apply NewFromConfig_result in En.
Qed.

Lemma NewFromConfig_ok conf c :
  NewFromConfig conf = Ret (Some c, None) →
  (∃ net, valid_cluster (new_cluster conf) net ∧ c_networkCIDR c = Some net) ∧ c_conf c = conf ∧
  set_api_roles conf all_roles = Ret (c_roles c) ∧
  Forall2 (λ p n, InstancePool.NewFromConfig (c_roles c) p = Ret (Some n, None))
    (cl_InstancePools conf) (c_instancePools c).
Proof.
  unfold Cluster.NewFromConfig.
  destruct (Validate (new_cluster conf)) as [[c0 [err|]]|] eqn:Ev; cbn [mbind GoM_bind]; try done.
  destruct (set_api_roles conf all_roles) as [roles|] eqn:Er; cbn [mbind GoM_bind]; [|done].
  destruct (make_pools _ _ _ _) as [[pools result]|] eqn:Em; cbn [mbind GoM_bind]; [|done].
  intros [= <- ->]. apply Validate_ok in Ev as (net & Hvalid & ->). simpl.
  apply make_pools_ok in Em as (new & -> & Hnew). split_and!; try done. by exists net.
Qed.

Lemma set_api_roles_lookup conf roles t :
  set_api_roles conf all_roles = Ret roles → all_roles !! t = None → roles !! t = None.
Proof.
  unfold set_api_roles. destruct (cl_Kubernetes conf ≫= ck_APIServer) as [api|]; [|by intros [= <-]].
  destruct (all_roles !! "master") as [m|] eqn:Em; [|by intros [= <-]].
  destruct (role_AWS m); cbn [deref mbind GoM_bind]; [|done].
  destruct (set_master_aws api r); cbn [mbind GoM_bind]; [|done].
  intros [= <-] Hn. rewrite lookup_insert_ne; [done|]. intros <-. congruence.
Qed.

(** ** Properties *)

(** C3: [Validate] accepts a cluster exactly when it is a [valid_cluster]:
    pool CIDRs parse, the pool types and their numbers fit the cluster type,
    the hub has every zone used, the network parses, logging sinks,
    overprovisioning, API server, Prometheus and Calico options are
    consistent; and all it changes is to record the parsed network. *)
Theorem Validate_correct c c' :
  Validate c = Ret (c', None) ↔
  ∃ net, valid_cluster c net ∧ c' = {| c with c_networkCIDR := Some net |}.
Proof. apply Validate_ok. Qed.

(** On a configuration that went through the defaults, validation never
    dereferences a nil pointer: it always returns. *)
Theorem Validate_defaulted_returns now conf c :
  c_conf c = SetObjectDefaults_Cluster now conf → Validate c ≠ Panic.
Proof. intros Hc. by destruct (Validate_total now conf c Hc) as [r ->]. Qed.

(** C35: a cluster [NewFromConfig] returns without an error is valid, keeps
    its configuration, and has one instance pool per configured pool, in
    their order, each with the facts of [pool_spec] for its configuration. *)
Theorem NewFromConfig_cluster conf c :
  NewFromConfig conf = Ret (Some c, None) →
  (∃ net, valid_cluster (new_cluster conf) net ∧ c_networkCIDR c = Some net) ∧
  c_conf c = conf ∧
  Forall2 (λ p n, pool_spec (c_roles c) p n None) (cl_InstancePools conf) (c_instancePools c).
Proof.
  intros (Hv & Hc & _ & Hp)%NewFromConfig_ok. split_and!; try done.
  eapply Forall2_impl; [exact Hp|]. intros p n. apply NewFromConfig_inv.
Qed.

(** The pool types [all] and [hybrid] are accepted by the validation of
    pool types in single and multi clusters, but no role is defined for them:
    a cluster with such a pool cannot be built. *)
Theorem NewFromConfig_no_role conf p c :
  p ∈ cl_InstancePools conf → ip_Type p ∈ [InstancePoolTypeAll; InstancePoolTypeHybrid] →
  (∀ t allowed, t ≠ ClusterTypeHub → allowed_pool_types t = Some allowed → ip_Type p ∈ allowed) ∧
  NewFromConfig conf ≠ Ret (Some c, None).
Proof.
  intros Hin Ht. split.
  - intros t allowed Hhub. unfold allowed_pool_types. rewrite decide_False by done.
    repeat case_decide; intros [= <-]; set_solver.
  - intros (_ & _ & Hr & Hp)%NewFromConfig_ok.
    apply list_elem_of_lookup in Hin as [i Hi].
    destruct (Forall2_lookup_l _ _ _ _ _ Hp Hi) as (n & _ & Hn). apply NewFromConfig_inv in Hn.
    pose proof (ps_role _ _ _ _ Hn) as Hrole.
    assert (all_roles !! ip_Type p = None) as Hnone.
    { rewrite !elem_of_cons in Ht. by destruct Ht as [->|[->|?%elem_of_nil]]. }
    by rewrite (set_api_roles_lookup _ _ _ Hr Hnone) in Hrole.
Qed.

(** A hub that is the only cluster of its environment, as it is read
    back from the configuration file (the type is not stored there), counts
    as a single cluster and fails validation for lack of a worker pool. *)
Theorem lone_hub_invalid now environment c c' :
  env_clusters = 1 →
  c_conf c = {| (NewHub now environment) with cl_Type := "" |} →
  Type_ c = ClusterTypeClusterSingle ∧ Validate c ≠ Ret (c', None).
Proof.
  intros Hn Hc.
  assert (Type_ c = ClusterTypeClusterSingle) as Ht.
  { unfold Type_. rewrite Hc, Hn. done. }
  split; [done|]. intros (net & [[_ _ Hcounts _] _ _ _ _] & _)%Validate_ok.
  unfold counts_ok, count_pools in Hcounts. rewrite Ht, Hc in Hcounts.
  destruct Hcounts as [[_ [Hw _]]|[[? _]|[? _]]]; [|discriminate..].
  vm_compute in Hw. lia.
Qed.
End spec.

(** ** Verification *)
Section verify.
Context `{Env}.

(** The hub's state is accepted exactly when Terraform can be asked and
    every required output is there with a value. *)
Theorem verifyHubState_correct prepare output :
  verifyHubState prepare output = None ↔
  prepare = None ∧ ∃ m, output = inl m ∧
    ∀ r, r ∈ requiredHubResources → ∃ v, m !! r = Some (Some v).
Proof.
  unfold verifyHubState. destruct prepare; [naive_solver|].
  destruct output as [m|]; [|naive_solver].
  assert (Hc : ErrorOrNil (collect (λ r, match m !! r with
                  | Some (Some _) => None
                  | _ => Some (Errorf ("'" +:+ r +:+ "' not found"))
                  end) requiredHubResources None) = None ↔
    ∀ r, r ∈ requiredHubResources → ∃ v, m !! r = Some (Some v)).
  { rewrite ErrorOrNil_None by (apply collect_proper; [done|]; intros; by repeat case_match).
    rewrite collect_None, Forall_forall. split.
    - intros [_ Hall] r Hr. specialize (Hall r Hr). simpl in Hall. repeat case_match; naive_solver.
    - intros Hall. split; [done|]. intros r Hr. destruct (Hall r Hr) as [v ->]. done. }
  destruct (ErrorOrNil _).
  - split; [done|]. intros (_ & m' & [= <-] & Hm). by apply Hc in Hm.
  - split; [|done]. intros _. split; [done|]. exists m. split; [done|]. by apply Hc.
Qed.

Lemma VerifyInstancePools_spec ids c c' err :
  VerifyInstancePools ids c = (c', err) →
  (err = None ↔ ∃ m, (ImageIDs ids c).2 = inl m ∧ m ≠ ∅ ∧
     ∀ n, n ∈ c_instancePools c → ∃ id, m !! p_Image n = Some id ∧ id ≠ "") ∧
  (err = None → is_Some (c_imageIDs c')).
Proof.
  unfold VerifyInstancePools. destruct (ImageIDs ids c) as [c0 r] eqn:Ei.
  assert (Hc0 : c_instancePools c0 = c_instancePools c ∧ (∀ m, r = inl m → c_imageIDs c0 = Some m)).
  { unfold ImageIDs in Ei. repeat case_match; simplify_eq/=; naive_solver. }
  destruct Hc0 as [Hpools Hids]. destruct r as [m|e]; [|intros [= <- <-]; simpl; naive_solver].
  case_decide as Hm; [intros [= <- <-]; simpl; naive_solver|].
  intros [= <- <-]. rewrite Hpools.
  rewrite ErrorOrNil_None.
  2:{ apply collect_proper; [done|]. intros n. unfold check_pool_image. by repeat case_match. }
  rewrite collect_None, Forall_forall. split; [|rewrite (Hids m eq_refl); eauto].
  assert (Hcheck : ∀ n, check_pool_image m n = None ↔ ∃ id, m !! p_Image n = Some id ∧ id ≠ "").
  { intros n. unfold check_pool_image. destruct (m !! p_Image n) as [[]|]; naive_solver. }
  setoid_rewrite Hcheck. simpl. split.
  - intros [_ Hall]. by exists m.
  - intros (m' & [= <-] & _ & Hall). done.
Qed.

(** The instance pools pass verification exactly when the image IDs are
    known and every pool's image has a non-empty one; the IDs asked for are
    remembered. *)
Theorem VerifyInstancePools_correct ids c c' err :
  VerifyInstancePools ids c = (c', err) →
  (err = None ↔ ∃ m, (ImageIDs ids c).2 = inl m ∧ m ≠ ∅ ∧
     ∀ n, n ∈ c_instancePools c → ∃ id, m !! p_Image n = Some id ∧ id ≠ "") ∧
  (err = None → is_Some (c_imageIDs c')).
Proof. apply VerifyInstancePools_spec. Qed.
End verify.

(** ** Witnesses *)
Definition example_env (clusters : nat) : Env := {|
  env_conf := NewEnvironment 1 "dev" "" "";
  env_clusters := clusters;
  env_hub := None;
  env_provider := example_provider;
  env_variables := ∅;
|}.

(** Versions compared as strings; no float is printed. *)
Abbreviation example_new := (Cluster.NewFromConfig (H := range_list) (H0 := example_env 1)
  (V := string) inl String.ltb (λ _, "")).
Abbreviation example_validate := (Cluster.Validate (H := range_list) (H0 := example_env 1)
  (V := string) inl String.ltb (λ _, "")).

Definition is_ok (r : GoM (option ClusterT * option error)) : bool :=
  match r with Ret (Some _, None) => true | _ => false end.

Lemma example_new_ok : ∃ c, example_new (NewClusterSingle 1 "dev" "cluster") = Ret (Some c, None).
Proof.
  assert (is_ok (example_new (NewClusterSingle 1 "dev" "cluster")) = true) as Hok
    by (vm_compute; reflexivity).
  destruct (example_new _) as [[[c|] [|]]|]; try discriminate Hok. by exists c.
Qed.

Lemma Validate_defaulted_returns_witness :
  example_validate (new_cluster (SetObjectDefaults_Cluster 1 (NewCluster "cluster"))) ≠ Panic.
Proof.
  apply (Validate_defaulted_returns (H := range_list) (H0 := example_env 1) (V := string)
    inl String.ltb (λ _, "") 1 (NewCluster "cluster")).
  reflexivity.
Defined.

Lemma NewFromConfig_cluster_witness :
  ∃ c, example_new (NewClusterSingle 1 "dev" "cluster") = Ret (Some c, None) ∧
       length (c_instancePools c) = 5.
Proof.
  destruct example_new_ok as [c Hc]. exists c. split; [exact Hc|].
  destruct (NewFromConfig_cluster (H := range_list) (H0 := example_env 1) (V := string)
    inl String.ltb (λ _, "") _ c Hc) as (_ & _ & Hp).
  rewrite <- (Forall2_length _ _ _ Hp). vm_compute. reflexivity.
Defined.

Lemma NewFromConfig_no_role_witness :
  let p := {| newInstancePoolWorker with ip_Type := InstancePoolTypeHybrid |} in
  let conf := {| (NewClusterSingle 1 "dev" "cluster") with cl_InstancePools := [p] |} in
  example_new conf ≠ Ret (Some (new_cluster conf), None).
Proof.
  intros p conf.
  apply (NewFromConfig_no_role (H := range_list) (H0 := example_env 1) (V := string)
    inl String.ltb (λ _, "") conf p (new_cluster conf)).
  - simpl. set_solver.
  - simpl. set_solver.
Defined.

Lemma lone_hub_invalid_witness :
  let conf := {| (NewHub 1 "dev") with cl_Type := "" |} in
  example_validate (new_cluster conf) ≠ Ret (new_cluster conf, None).
Proof.
  intros conf.
  apply (lone_hub_invalid (H := range_list) (H0 := example_env 1) (V := string)
    inl String.ltb (λ _, "") 1 "dev" (new_cluster conf) (new_cluster conf)); reflexivity.
Defined.

Lemma VerifyInstancePools_correct_witness :
  let ids := λ _ : bool, inl {["centos" := "ami-1"]} in
  let c := new_cluster (NewCluster "c") in
  is_Some (c_imageIDs (VerifyInstancePools ids c).1).
Proof.
  intros ids c.
  apply (VerifyInstancePools_correct ids c (VerifyInstancePools ids c).1 None); reflexivity.
Defined.
