(* ===== verification/Firewall.v ===== *)
(** * Firewall: the rules between roles and their Amazon security groups

    [src/pkg/tarmak/cluster/firewall/rules.go],
    [src/pkg/tarmak/provider/amazon/security_group.go] and
    [generateAWSSecurityGroup] of [src/pkg/terraform/templating.go].  A
    [uint16] port is a [Z]. *)

From S2P Require Import Prelude Types Net Utils Role Provider InstancePool Cluster.

(** ** rules.go *)
Record FwHost := { host_Name : string; host_Role : string; host_CIDR : option IPNet }.

Record Port := {
  port_Identifier : option string;
  port_RangeFrom : option Z;
  port_RangeTo : option Z;
  port_Single : option Z;
}.

Record Service := { svc_Name : string; svc_Protocol : string; svc_Ports : list Port }.

Record Rule := {
  rule_Comment : string;
  rule_Services : list Service;
  rule_Direction : string;
  rule_Sources : list FwHost;
  rule_Destinations : list FwHost;
}.

Definition single (p : Z) : Port :=
  {| port_Identifier := None; port_RangeFrom := None; port_RangeTo := None; port_Single := Some p |}.
Definition single_id (p : Z) (id : string) : Port :=
  {| (single p) with port_Identifier := Some id |}.

Definition zeroPort : Z := 0.
Definition sshPort : Z := 22.
Definition bgpPort : Z := 179.
Definition overlayPort : Z := 2359.
Definition k8sEventsPort : Z := 2369.
Definition k8sPort : Z := 2379.
Definition apiPort : Z := 6443.
Definition consulSerfPort : Z := 8301.
Definition vaultPort : Z := 8200.
Definition clusterAutoscalerMetricsPort : Z := 8085.
Definition calicoMetricsPort : Z := 9091.
Definition nodePort : Z := 9100.
Definition blackboxPort : Z := 9115.
Definition wingPort : Z := 9443.
Definition maxPort : Z := 65535.

Definition newWingService : Service :=
  {| svc_Name := "wing"; svc_Protocol := "tcp"; svc_Ports := [single wingPort] |}.
Definition newAllServices : Service :=
  {| svc_Name := "all"; svc_Protocol := "-1"; svc_Ports := [single zeroPort] |}.
Definition newToMaxPort : Service :=
  {| svc_Name := "toMax"; svc_Protocol := "-1";
     svc_Ports := [{| port_Identifier := None; port_RangeFrom := Some zeroPort;
                      port_RangeTo := Some maxPort; port_Single := None |}] |}.
Definition newSSHService : Service :=
  {| svc_Name := "ssh"; svc_Protocol := "tcp"; svc_Ports := [single sshPort] |}.
Definition newCalicoMetricsService : Service :=
  {| svc_Name := "calico"; svc_Protocol := "tcp"; svc_Ports := [single calicoMetricsPort] |}.
Definition newClusterAutoscalerMetricsService : Service :=
  {| svc_Name := "cluster_autoscaler"; svc_Protocol := "tcp";
     svc_Ports := [single clusterAutoscalerMetricsPort] |}.
Definition newIPIPService : Service :=
  {| svc_Name := "ipip"; svc_Protocol := "4"; svc_Ports := [single zeroPort] |}.
Definition newAPIService : Service :=
  {| svc_Name := "api"; svc_Protocol := "tcp"; svc_Ports := [single apiPort] |}.
Definition newVaultService : Service :=
  {| svc_Name := "vault"; svc_Protocol := "tcp"; svc_Ports := [single vaultPort] |}.
Definition newConsulTCPService : Service :=
  {| svc_Name := "consul-tcp"; svc_Protocol := "tcp"; svc_Ports := [single consulSerfPort] |}.
Definition newConsulUDPService : Service :=
  {| svc_Name := "consul-udp"; svc_Protocol := "udp"; svc_Ports := [single consulSerfPort] |}.
Definition newBlackboxExporterService : Service :=
  {| svc_Name := "blackbox_exporter"; svc_Protocol := "tcp"; svc_Ports := [single blackboxPort] |}.
Definition newNodeExporterService : Service :=
  {| svc_Name := "node_exporter"; svc_Protocol := "tcp"; svc_Ports := [single nodePort] |}.
Definition newEtcdOverlayService : Service :=
  {| svc_Name := "etcd"; svc_Protocol := "tcp";
     svc_Ports := [single_id k8sPort "k8s"; single_id k8sEventsPort "k8sevents";
                   single_id overlayPort "overlay"] |}.
Definition newBGPService : Service :=
  {| svc_Name := "bgp"; svc_Protocol := "tcp"; svc_Ports := [single bgpPort] |}.

(** [cidrAll()]: 0.0.0.0/0. *)
Definition cidrAll : option IPNet :=
  match ParseCIDR "0.0.0.0/0" with inl n => Some n | inr _ => None end.

Definition by_role (r : string) : FwHost := {| host_Name := ""; host_Role := r; host_CIDR := None |}.
Definition by_name (n : string) (cidr : option IPNet) : FwHost :=
  {| host_Name := n; host_Role := ""; host_CIDR := cidr |}.

Definition rule (comment direction : string) (services : list Service)
    (sources destinations : list FwHost) : Rule :=
  {| rule_Comment := comment; rule_Services := services; rule_Direction := direction;
     rule_Sources := sources; rule_Destinations := destinations |}.

Definition Rules : list Rule :=
  [ rule "allow all instance to egress to anywhere" "egress" [newAllServices]
      [by_name "all" cidrAll]
      (map by_role ["bastion"; "vault"; "etcd"; "worker"; "master"]);
    rule "all components should be able to communicate with each other" "ingress" [newAllServices]
      [by_name "all" None]
      (map by_role ["bastion"; "vault"; "etcd"; "worker"; "master"]);
    rule "allow everyone to connect to the bastion via SSH" "ingress" [newSSHService]
      [by_name "admin_ips" cidrAll] [by_role "bastion"];
    rule "allow instances to access wing server" "ingress" [newWingService]
      [by_role "bastion"] [by_name "all" None];
    rule "allow bastion to connect to all instances via SSH" "ingress" [newSSHService]
      [by_role "bastion"] (map by_role ["vault"; "etcd"; "worker"; "master"]);
    rule "allow all instances to connect to vault" "ingress" [newVaultService]
      [by_role "vault"] [by_name "all" None];
    rule "allow vault instances to connect to each other's consul" "ingress"
      [newConsulTCPService; newConsulUDPService] [by_role "vault"] [by_role "vault"];
    rule "allow prometheus connections to node_exporter and blackbox_exporter" "ingress"
      [newEtcdOverlayService] (map by_role ["worker"; "master"]) [by_role "etcd"];
    rule "allow prometheus connections to node_exporter and blackbox_exporter" "ingress"
      [newBlackboxExporterService; newNodeExporterService] [by_role "worker"] [by_role "etcd"];
    rule "allow workers/master to connect to calico's service, cluster autoscaler's service + api server"
      "ingress"
      [newBGPService; newIPIPService; newCalicoMetricsService; newClusterAutoscalerMetricsService;
       newAPIService] (map by_role ["master"; "worker"]) [by_role "master"];
    rule "allow ELB to connect to API server" "ingress" [newAPIService]
      [by_role "master_elb"] [by_role "master"];
    rule "allow ELB to connect to API server" "ingress" [newAPIService]
      (map by_role ["master"; "master_elb"; "bastion"; "worker"]) [by_role "master_elb"];
    rule "allow ELB to connect to API server" "egress" [newAPIService]
      [by_role "master"] [by_role "master_elb"];
    rule "allow master and workers to connect to anything on workers" "ingress" [newAllServices]
      [by_role "master"] [by_role "worker"] ].

(** ** security_group.go *)
Definition masterELB : string := "master_elb".

Record AWSSGRule := {
  sg_Comment : string;
  sg_Destination : string;
  sg_Source : string;
  sg_Service : string;
  sg_Direction : string;
  sg_Identifier : option string;
  sg_FromPort : Z;
  sg_ToPort : Z;
  sg_Protocol : string;
  sg_CIDRBlock : option IPNet;
  sg_SourceSGGroupID : string;
  sg_SGID : string;
}.

Definition awsGroupID (role : string) : string :=
  if decide (role = "vault") then "${var.vault_security_group_id}"
  else if decide (role = "bastion") then "${var.bastion_security_group_id}"
  else "${aws_security_group.kubernetes_" +:+ role +:+ ".id}".

(** The body of the innermost loop of [generateFromRule]. *)
Definition generate_one (r : Rule) (role : Role) (destination source : FwHost) (service : Service)
    (port : Port) : GoM AWSSGRule :=
  ports ← (match port_Single port with
           | Some p => mret (p, p)
           | None => f ← deref (port_RangeFrom port); t ← deref (port_RangeTo port); mret (f, t)
           end : GoM (Z * Z));
  let '(sourceName, group) :=
    if decide (host_Role source = "") then
      if decide (host_Name source = "all")
      then (role_name role, awsGroupID (role_name role))
      else (host_Name source, awsGroupID (host_Name source))
    else (host_Role source, awsGroupID (host_Role source)) in
  mret {| sg_Comment := rule_Comment r;
          sg_Destination := if decide (host_Role destination = masterELB)
                            then role_TFName role +:+ "_elb" else role_TFName role;
          sg_Source := sourceName;
          sg_Service := svc_Name service;
          sg_Direction := rule_Direction r;
          sg_Identifier := port_Identifier port;
          sg_FromPort := ports.1;
          sg_ToPort := ports.2;
          sg_Protocol := svc_Protocol service;
          sg_CIDRBlock := host_CIDR source;
          sg_SourceSGGroupID := group;
          sg_SGID := awsGroupID (host_Role destination) |}.

(** The loop [for _, x := range l { out = append(out, f(x)...) }]. *)
Fixpoint append_each {A B} (f : A → GoM (list B)) (l : list A) : GoM (list B) :=
  match l with
  | [] => Ret []
  | x :: l' => bs ← f x; rest ← append_each f l'; mret (bs ++ rest)
  end.

Definition generateFromRule (r : Rule) (role : Role) (destination : FwHost)
    : GoM (list AWSSGRule) :=
  append_each (λ source,
    append_each (λ service,
      append_each (λ port, x ← generate_one r role destination source service port; mret [x])
        (svc_Ports service)) (rule_Services r)) (rule_Sources r).

Definition applies (role : Role) (destination : FwHost) : bool :=
  bool_decide (host_Role destination = role_name role)
  || (bool_decide (role_name role = "master") && bool_decide (host_Role destination = masterELB)).

Definition GenerateAWSRules (role : Role) : GoM (list AWSSGRule) :=
  append_each (λ r,
    append_each (λ destination,
      if applies role destination then generateFromRule r role destination else mret [])
      (rule_Destinations r)) Rules.

(** ** templating.go *)
Fixpoint generateAWSSecurityGroup (roles : list Role) (rules : gmap string (list AWSSGRule))
    : GoM (gmap string (list AWSSGRule)) :=
  match roles with
  | [] => mret rules
  | role :: roles' =>
      if bool_decide (role_name role = "bastion") || bool_decide (role_name role = "vault")
      then generateAWSSecurityGroup roles' rules
      else r ← GenerateAWSRules role; generateAWSSecurityGroup roles' (<[role_name role := r]> rules)
  end.

(** The Terraform resource the template declares for a rule. *)
Definition resource_name (r : AWSSGRule) : string :=
  sg_Destination r +:+ "_allow_" +:+ sg_Service r +:+ default "" (sg_Identifier r) +:+ "_" +:+
  (if decide (sg_Direction r = "ingress") then "from" else "to") +:+ "_" +:+ sg_Source r.

(** ** Lemmas *)

(** The rules as a pure list, for a port list without nil dereferences. *)
Lemma append_each_Ret {A B} (f : A → GoM (list B)) (g : A → list B) l :
  (∀ x, x ∈ l → f x = Ret (g x)) → append_each f l = Ret (concat (map g l)).
Proof.
  induction l as [|x l IH]; intros Hf; simpl; [done|].
  rewrite Hf by set_solver. simpl. rewrite IH by set_solver. done.
Qed.

(** Which roles the table mentions only matters through their name: a role
    whose name no rule has as destination gets no rules. *)
Definition mentioned : list string := ["bastion"; "vault"; "etcd"; "worker"; "master"].

Lemma append_each_nil {A B} (f : A → GoM (list B)) l :
  Forall (λ x, f x = Ret []) l → append_each f l = Ret [].
Proof. induction 1 as [|x l Hx _ IH]; simpl; [done|]. rewrite Hx. simpl. by rewrite IH. Qed.

Lemma GenerateAWSRules_unmentioned role :
  role_name role ∉ "" :: mentioned → role_name role ≠ masterELB → GenerateAWSRules role = Ret [].
Proof.
  intros Hn Helb. unfold GenerateAWSRules. apply append_each_nil.
  assert (Hap : ∀ d, host_Role d ∈ masterELB :: "" :: mentioned → applies role d = false).
  { intros d Hd. unfold applies. apply orb_false_iff. split.
    - apply bool_decide_false. intros Heq. rewrite Heq in Hd.
      apply elem_of_cons in Hd as [?|?]; congruence.
    - apply andb_false_iff. left. apply bool_decide_false. intros Hm. apply Hn. rewrite Hm.
      unfold mentioned. set_solver. }
  assert (Hall : Forall (λ r, Forall (λ d, host_Role d ∈ masterELB :: "" :: mentioned)
                                (rule_Destinations r)) Rules).
  { apply (bool_decide_unpack _). vm_compute. exact I. }
  eapply Forall_impl; [exact Hall|]. intros r Hr. simpl. apply append_each_nil.
  eapply Forall_impl; [exact Hr|]. intros d Hd. simpl. by rewrite Hap.
Qed.

(** The rules of a role only depend on its name and prefix. *)
Lemma GenerateAWSRules_name role :
  GenerateAWSRules role =
  GenerateAWSRules (WithPrefix (role_prefix role) (WithName (role_name role) (new_role false RoleAWS_zero))).
Proof. by destruct role. Qed.

Lemma known_name role :
  role_name role ≠ "" → role_name role ∈ masterELB :: mentioned ∨ GenerateAWSRules role = Ret [].
Proof.
  intros Hne. destruct (decide (role_name role ∈ masterELB :: mentioned)) as [|Hn]; [by left|right].
  apply GenerateAWSRules_unmentioned; set_solver.
Qed.

(** Case analysis on the name of a role: the named ones by computation. *)
Ltac by_role_name role Hne :=
  let Hin := fresh in
  destruct (known_name role Hne) as [Hin| ->];
  [ rewrite GenerateAWSRules_name; set_unfold in Hin; destruct_or! Hin; rewrite Hin;
    generalize (role_prefix role); intros | ].

(** A rule that lets traffic in from an address range. *)
Definition open_ingress (r : AWSSGRule) : Prop := sg_Direction r = "ingress" ∧ sg_CIDRBlock r ≠ None.

Lemma NoDup_map_inv {A B} (f : A → B) l x y :
  NoDup (map f l) → x ∈ l → y ∈ l → f x = f y → x = y.
Proof.
  induction l as [|z l IH]; simpl; [set_solver|]. rewrite NoDup_cons. intros [Hz Hl].
  rewrite !elem_of_cons. intros [->|Hx] [->|Hy] Heq; try done; [| |by apply IH].
  - exfalso. apply Hz. rewrite Heq. by apply list_elem_of_fmap_2.
  - exfalso. apply Hz. rewrite <- Heq. by apply list_elem_of_fmap_2.
Qed.

Lemma generateAWSSecurityGroup_lookup roles m0 m n rs :
  generateAWSSecurityGroup roles m0 = Ret m → m !! n = Some rs →
  m0 !! n = Some rs ∨
  ∃ role, role ∈ roles ∧ role_name role = n ∧ n ∉ ["bastion"; "vault"] ∧ GenerateAWSRules role = Ret rs.
Proof.
  revert m0. induction roles as [|role roles IH]; intros m0; simpl.
  { intros [= ->]. by left. }
  destruct (_ || _) eqn:Eb.
  - intros Hg Hm. destruct (IH _ Hg Hm) as [?|(r & ? & ?)]; [by left|]. right. exists r. set_solver.
  - destruct (GenerateAWSRules role) as [rs0|] eqn:Er; cbn [mbind GoM_bind]; [|done].
    intros Hg Hm. destruct (IH _ Hg Hm) as [Hi|(r & ? & ?)]; [|right; exists r; set_solver].
    destruct (decide (role_name role = n)) as [<-|Hne].
    + rewrite lookup_insert_eq in Hi. injection Hi as ->. right. exists role.
      go_bool. split_and!; try done; set_solver.
    + rewrite lookup_insert_ne in Hi by done. by left.
Qed.

(** A role of the cluster's role table, up to its permissions. *)
Definition known_role (role : Role) : Prop :=
  ∃ t r, all_roles !! t = Some r ∧ role_name role = role_name r ∧ role_prefix role = role_prefix r.

Definition kubernetes_roles : list string := ["master"; "worker"; "etcd"].

Definition rules_of (n : string) : list AWSSGRule :=
  match GenerateAWSRules (WithPrefix "kubernetes" (WithName n (new_role false RoleAWS_zero))) with
  | Ret rs => rs
  | Panic => []
  end.

Lemma known_role_cases role :
  known_role role →
  (role_prefix role = "kubernetes" ∧ role_name role ∈ "etcd-master" :: kubernetes_roles) ∨
  role_name role ∈ ["jenkins"; "bastion"; "vault"].
Proof.
  intros (t & r & Hr & -> & ->). revert Hr.
  unfold all_roles, defineKubernetesRoles, defineVaultRoles, defineToolsRoles.
  rewrite !lookup_insert_Some, lookup_empty. unfold kubernetes_roles.
  intros Hr; repeat destruct Hr as [[_ <-]|[_ Hr]]; simpl; set_solver.
Qed.

Lemma known_role_rules role rs :
  known_role role → role_name role ∉ ["bastion"; "vault"] → GenerateAWSRules role = Ret rs →
  rs = [] ∨ (role_name role ∈ kubernetes_roles ∧ rs = rules_of (role_name role)).
Proof.
  intros Hk Hnot Hg. destruct (known_role_cases role Hk) as [[Hp Hn]|Hn].
  - destruct (decide (role_name role ∈ kubernetes_roles)) as [Hin|Hout].
    + right. split; [done|]. unfold rules_of. rewrite GenerateAWSRules_name, Hp in Hg. by rewrite Hg.
    + left. apply elem_of_cons in Hn as [Hn|?]; [|done].
      rewrite GenerateAWSRules_unmentioned in Hg; [by injection Hg as <-|rewrite Hn..].
      all: by apply (bool_decide_unpack _).
  - left. apply elem_of_cons in Hn as [Hn|?]; [|done].
    rewrite GenerateAWSRules_unmentioned in Hg; [by injection Hg as <-|rewrite Hn..].
    all: by apply (bool_decide_unpack _).
Qed.

(** Every rule of the Kubernetes roles with its role and position. *)
Definition entries : list (string * nat * AWSSGRule) :=
  concat (map (λ n, imap (λ i r, (n, i, r)) (rules_of n)) kubernetes_roles).

Lemma entries_NoDup : NoDup (map (λ e, resource_name e.2) entries).
Proof. apply (bool_decide_unpack _). vm_compute. exact I. Qed.

Lemma entries_elem n i r : n ∈ kubernetes_roles → rules_of n !! i = Some r → (n, i, r) ∈ entries.
Proof.
  intros Hn Hi. unfold entries. apply list_elem_of_In, in_concat.
  exists (imap (λ i r, (n, i, r)) (rules_of n)). split.
  - apply in_map_iff. exists n. split; [done|]. by apply list_elem_of_In.
  - apply list_elem_of_In, list_elem_of_lookup. exists i. by rewrite list_lookup_imap, Hi.
Qed.

(** ** Properties *)

(** C9: the rules generated for a role never let traffic in from an address
    range, the internet included, except SSH to the bastion: for any role the
    generation succeeds, and an ingress rule with a CIDR block is the SSH
    rule of the bastion. *)
Theorem GenerateAWSRules_no_open_ingress role :
  role_name role ≠ "" →
  ∃ rules, GenerateAWSRules role = Ret rules ∧
    ∀ r, r ∈ rules → open_ingress r →
      role_name role = "bastion" ∧ sg_Service r = "ssh" ∧ sg_FromPort r = 22%Z ∧ sg_ToPort r = 22%Z.
Proof.
  intros Hne. by_role_name role Hne; [..|by exists []; set_solver].
  all: eexists; split; [reflexivity|]; refine (proj1 (Forall_forall _ _) _);
    repeat (apply Forall_cons; split;
      [unfold open_ingress; simpl; intros [? ?]; first [by split_and! | done]|]); apply Forall_nil; done.
Qed.

(** Only masters and workers reach etcd beyond SSH from the bastion and
    etcd itself, and only on the etcd client ports and, for workers, the
    metrics exporters. *)
Theorem GenerateAWSRules_etcd role :
  role_name role = "etcd" →
  ∃ rules, GenerateAWSRules role = Ret rules ∧
    ∀ r, r ∈ rules → sg_Direction r = "ingress" →
      sg_FromPort r = sg_ToPort r ∧
      (sg_Source r = "etcd" ∨
       (sg_Source r = "bastion" ∧ sg_FromPort r = 22%Z) ∨
       (sg_Source r ∈ ["worker"; "master"] ∧ sg_FromPort r ∈ [2379; 2369; 2359]%Z) ∨
       (sg_Source r = "worker" ∧ sg_FromPort r ∈ [9115; 9100]%Z)).
Proof.
  intros Hn. rewrite GenerateAWSRules_name, Hn. generalize (role_prefix role). intros p.
  eexists. split; [reflexivity|]. refine (proj1 (Forall_forall _ _) _).
  repeat (apply Forall_cons; split; [simpl; intros ?; split; [done|]; set_solver|]).
  apply Forall_nil. done.
Qed.

(** The Terraform resources declared for the rules of a cluster have
    different names: a resource name determines the role and the position of
    its rule. *)
Theorem generateAWSSecurityGroup_unique roles m :
  Forall known_role roles → generateAWSSecurityGroup roles ∅ = Ret m →
  ∀ n1 n2 rs1 rs2 i1 i2 r1 r2,
    m !! n1 = Some rs1 → rs1 !! i1 = Some r1 → m !! n2 = Some rs2 → rs2 !! i2 = Some r2 →
    resource_name r1 = resource_name r2 → n1 = n2 ∧ i1 = i2.
Proof.
  intros Hk Hg n1 n2 rs1 rs2 i1 i2 r1 r2 Hm1 H1 Hm2 H2 Heq.
  assert (Hin : ∀ n rs i r, m !! n = Some rs → rs !! i = Some r → (n, i, r) ∈ entries).
  { intros n rs i r Hm Hi.
    destruct (generateAWSSecurityGroup_lookup _ _ _ _ _ Hg Hm) as [He|(role & Hr & <- & Hnot & Hgen)].
    - by rewrite lookup_empty in He.
    - rewrite Forall_forall in Hk.
      destruct (known_role_rules role rs (Hk _ Hr) Hnot Hgen) as [->|[Hn ->]]; [done|].
      by apply entries_elem. }
  pose proof (NoDup_map_inv _ _ _ _ entries_NoDup (Hin _ _ _ _ Hm1 H1) (Hin _ _ _ _ Hm2 H2) Heq) as [=].
  done.
Qed.

(** The rules named for letting instances connect to vault and to the
    wing server have the group name [all] as destination, which is the
    destination of no role: no role gets a rule for either service. *)
Theorem GenerateAWSRules_no_vault_no_wing role :
  role_name role ≠ "" →
  ∃ rules, GenerateAWSRules role = Ret rules ∧
    ∀ r, r ∈ rules → sg_Service r ≠ "vault" ∧ sg_Service r ≠ "wing".
Proof.
  intros Hne. by_role_name role Hne; [..|by exists []; set_solver].
  all: eexists; split; [reflexivity|]; refine (proj1 (Forall_forall _ _) _);
    repeat (apply Forall_cons; split; [by split|]); by apply Forall_nil.
Qed.

(** The role of a combined master and etcd pool is called [etcd-master],
    which no rule mentions: its instances get no security group rules at
    all. *)
Theorem GenerateAWSRules_etcd_master_empty :
  (∀ r, all_roles !! InstancePoolTypeMasterEtcd = Some r → GenerateAWSRules r = Ret []) ∧
  is_Some (all_roles !! InstancePoolTypeMasterEtcd).
Proof.
  split; [|vm_compute; by eexists]. intros r Hr. apply GenerateAWSRules_unmentioned.
  all: assert (role_name r = "etcd-master") as ->
    by (vm_compute in Hr; by injection Hr as <-); by apply (bool_decide_unpack _).
Qed.

(** *** Witnesses *)
Definition example_role (n : string) : Role :=
  WithPrefix "kubernetes" (WithName n (new_role false RoleAWS_zero)).

Lemma GenerateAWSRules_no_open_ingress_witness :
  ∃ rules, GenerateAWSRules (example_role "master") = Ret rules ∧ ∀ r, r ∈ rules → ¬ open_ingress r.
Proof.
  destruct (GenerateAWSRules_no_open_ingress (example_role "master")) as (rules & H & Hr); [discriminate|].
  exists rules. split; [exact H|]. intros r Hin Ho. destruct (Hr r Hin Ho) as [Hb _]. discriminate Hb.
Defined.

Lemma GenerateAWSRules_etcd_witness :
  ∃ rules, GenerateAWSRules (example_role "etcd") = Ret rules ∧ length rules = 11.
Proof.
  destruct (GenerateAWSRules_etcd (example_role "etcd") eq_refl) as (rules & H & _).
  exists rules. split; [exact H|]. vm_compute in H. injection H as <-. reflexivity.
Defined.

Lemma generateAWSSecurityGroup_unique_witness :
  ∃ m, generateAWSSecurityGroup (map example_role ["master"; "worker"; "etcd"]) ∅ = Ret m ∧
  ∀ n1 n2 rs1 rs2 i1 i2 r1 r2,
    m !! n1 = Some rs1 → rs1 !! i1 = Some r1 → m !! n2 = Some rs2 → rs2 !! i2 = Some r2 →
    resource_name r1 = resource_name r2 → n1 = n2 ∧ i1 = i2.
Proof.
  eexists. split; [reflexivity|].
  apply (generateAWSSecurityGroup_unique (map example_role ["master"; "worker"; "etcd"])); [|reflexivity].
  repeat constructor.
  - exists "master". eexists. by split.
  - exists "worker". eexists. by split.
  - exists "etcd". eexists. by split.
Defined.

Lemma GenerateAWSRules_no_vault_no_wing_witness :
  ∃ rules, GenerateAWSRules (example_role "worker") = Ret rules ∧
    ∀ r, r ∈ rules → sg_Service r ≠ "vault" ∧ sg_Service r ≠ "wing".
Proof. apply (GenerateAWSRules_no_vault_no_wing (example_role "worker")). discriminate. Defined.
