(* ===== verification/Puppet.v ===== *)
(** * Puppet: the hiera data of a cluster

    [src/pkg/puppet/puppet.go]: what the program hands to Puppet.  A
    [hieraData] collects classes and variables; [contentClusterConfig] and
    [contentInstancePoolConfig] fill it from the configuration, and
    [writeHieraData] writes one file for the cluster and two per instance
    pool.

    Parameters: [fmt_float] renders a float, [json_sinks] is the JSON
    encoding of the logging sinks, [ValidateLabels] apimachinery's label
    validation and [write_error] the outcome of writing a file (nil, or the error of
    [writeLines]).  File names are relative to the hieradata directory.

    The theorems: the feature gates of a component are the global ones
    overridden by its own, in an order that does not depend on the run; the
    pool configuration panics exactly when Heapster is configured and InfluxDB
    is not, which defaulting excludes; a successful run has written the
    cluster file and the files of every pool, in order. *)

From Stdlib Require Import Floats.SpecFloat.
From S2P Require Import Prelude Types Defaults Net Utils Role Provider InstancePool Config Cluster ClusterSpec.

Record hieraData := { classes : list string; variables : list string }.

Definition hiera_empty : hieraData := {| classes := []; variables := [] |}.

(** [hieraData.variables = append(...)], [hieraData.classes = append(...)] *)
Definition add_var (s : string) (h : hieraData) : hieraData :=
  {| h with variables := variables h ++ [s] |}.
Definition add_class (s : string) (h : hieraData) : hieraData :=
  {| h with classes := classes h ++ [s] |}.

(** [if b { ... }] *)
Definition when (b : bool) (f : hieraData → hieraData) (h : hieraData) : hieraData :=
  if b then f h else h.

(** [if p := ...; p != nil { ... }] *)
Definition with_some {A} (p : option A) (f : A → hieraData → hieraData) (h : hieraData) : hieraData :=
  match p with Some a => f a h | None => h end.

Definition nonempty (s : string) : bool := negb (bool_decide (s = "")).

(** A key and a value in double quotes. *)
Definition var_quoted (key v : string) : hieraData → hieraData := add_var (key +:+ ": " +:+ quoted v).

(** ** JSON of a []string *)
Definition hex2 (n : nat) : string :=
  String (hex_char (Z.of_nat (n / 16))) (String (hex_char (Z.of_nat (n mod 16))) "").

Definition backslash : string := String (ascii_of_nat 92) "".

(** [encoding/json] escapes the quote, the backslash, control characters and
    the HTML characters. *)
Definition json_char (c : ascii) : string :=
  let n := nat_of_ascii c in
  if decide (n = 34) then backslash +:+ dq
  else if decide (n = 92) then backslash +:+ backslash
  else if decide (n = 10) then backslash +:+ "n"
  else if decide (n = 13) then backslash +:+ "r"
  else if decide (n = 9) then backslash +:+ "t"
  else if bool_decide (n < 32) || bool_decide (n ∈ [60; 62; 38]) then backslash +:+ "u00" +:+ hex2 n
  else String c "".

Definition json_string (s : string) : string :=
  quoted (String.concat "" (map json_char (bytes_of s))).

Definition json_strings (l : list string) : string := "[" +:+ Join (map json_string l) "," +:+ "]".
Definition json_ints (l : list Z) : string := "[" +:+ Join (map fmt_d l) "," +:+ "]".

(** ** Feature gates *)
Section gates.
Context `{MapRange}.

Definition overprovisioning_enabled (conf : option ClusterKubernetesClusterAutoscaler) : bool :=
  match conf ≫= ca_Overprovisioning with Some o => cao_Enabled o | None => false end.

Definition gate_line (kv : string * bool) : string := "  " +:+ kv.1 +:+ ": " +:+ fmt_t kv.2.

Definition featureGatesString (globalGates componentGates : gmap string bool) (usePodPriority : bool)
    (conf : option ClusterKubernetesClusterAutoscaler) : string :=
  let gates := DuplicateMapBool globalGates in
  let gates := if usePodPriority && overprovisioning_enabled conf
               then <["PodPriority" := true]> gates else gates in
  let gates := MergeMaps gates [componentGates] in
  if decide (gates = ∅) then ""
  else newline +:+ Join (sort_strings (map gate_line (range gates))) newline.
End gates.

Section puppet.
Context `{MapRange} `{Env}.
Context (fmt_float : spec_float → string).
Context (json_sinks : list LoggingSink → string + error).
Context (ValidateLabels : gmap string string → option string).

Definition amazonClusterConfig (conf : option ClusterAmazon) : hieraData → hieraData :=
  with_some conf (λ c,
    when (negb (is_nil (cla_EBSEncrypted c))) (add_var "kubernetes::storage_encrypted: true")).

(** The loop over the fields of the OIDC options with their hiera tags. *)
Definition oidcConfig (o : ClusterKubernetesAPIServerOIDC) (h : hieraData) : hieraData :=
  let field tag v := when (nonempty v) (var_quoted ("kubernetes::apiserver::" +:+ tag) v) in
  let h := field "oidc_client_id" (oidc_ClientID o) h in
  let h := field "oidc_groups_claim" (oidc_GroupsClaim o) h in
  let h := field "oidc_groups_prefix" (oidc_GroupsPrefix o) h in
  let h := field "oidc_issuer_url" (oidc_IssuerURL o) h in
  let h := when (negb (bool_decide (oidc_SigningAlgs o = [])))
             (add_var ("kubernetes::apiserver::oidc_signing_algs: " +:+ json_strings (oidc_SigningAlgs o))) h in
  let h := field "oidc_username_claim" (oidc_UsernameClaim o) h in
  field "oidc_username_prefix" (oidc_UsernamePrefix o) h.

(** [["%s"]] of a joined list. *)
Definition controllers (key : string) (l : list string) : hieraData → hieraData :=
  when (negb (bool_decide (l = []))) (add_var (key +:+ ": [" +:+ quoted (Join l ",") +:+ "]")).

Definition serviceCIDRConfig (cidr : string) : hieraData → hieraData :=
  when (nonempty cidr) (λ h,
    match Split "/" cidr with
    | [network; mask] =>
        var_quoted "kubernetes::service_ip_range_mask" mask
          (var_quoted "kubernetes::service_ip_range_network" network h)
    | _ => h
    end).

Definition prometheusConfig (p : option ClusterKubernetesPrometheus) (h : hieraData) : hieraData :=
  let h := add_class "prometheus" h in
  if match p with None => true | Some p => prom_Enabled p end then
    let mode := match p with
                | Some p => if nonempty (prom_Mode p) then prom_Mode p else PrometheusModeFull
                | None => PrometheusModeFull
                end in
    var_quoted "prometheus::ensure" "present" (add_var ("prometheus::mode: " +:+ mode) h)
  else var_quoted "prometheus::ensure" "absent" h.

(** One component's feature gates. *)
Definition gatesConfig (conf : ClusterKubernetes) (component : string)
    (compGates : gmap string bool) (usePodPriority : bool) (h : hieraData) : hieraData :=
  let gates := featureGatesString (ck_GlobalFeatureGates conf) compGates usePodPriority
                 (ck_ClusterAutoscaler conf) in
  when (nonempty gates) (add_var ("kubernetes::" +:+ component +:+ "::feature_gates:" +:+ gates)) h.

Definition calicoConfig (c : ClusterKubernetesCalico) (h : hieraData) : hieraData :=
  let h := add_var ("tarmak::calico_backend: " +:+ cal_Backend c) h in
  let h := add_var ("calico::typha_enabled: " +:+ fmt_t (cal_EnableTypha c)) h in
  let h := with_some (cal_TyphaReplicas c) (λ r, add_var ("calico::typha_replicas: " +:+ fmt_d r)) h in
  when (bool_decide (cal_Backend c = "kubernetes")) (λ h,
    add_var "calico::node::ipv4_pool_ipip_mode: cross-subnet"
      (add_var "kubernetes::controller_manager::allocate_node_cidrs: true" h)) h.

Definition kubernetesClusterConfig (conf : option ClusterKubernetes) (h : hieraData) : hieraData :=
  match conf with
  | None => h
  | Some conf =>
      let h := when (nonempty (ck_Version conf))
                 (var_quoted "tarmak::kubernetes_version" (ck_Version conf)) h in
      let h := when (nonempty (ck_PodCIDR conf))
                 (var_quoted "tarmak::kubernetes_pod_network" (ck_PodCIDR conf)) h in
      let h := serviceCIDRConfig (ck_ServiceCIDR conf) h in
      let h := with_some (ck_APIServer conf) (λ a h,
        let h := controllers "kubernetes::apiserver::admission_control"
                   (api_EnableAdmissionControllers a) h in
        let h := controllers "kubernetes::apiserver::disable_admission_control"
                   (api_DisableAdmissionControllers a) h in
        let h := with_some (api_OIDC a) oidcConfig h in
        let h := when (nonempty (api_AuthTokenWebhookFile a))
                   (var_quoted "kubernetes::apiserver::auth_token_webhook_file"
                      (api_AuthTokenWebhookFile a)) h in
        with_some (api_Amazon a) (λ am, when (asa_AwsIAMAuthenticatorInit am)
          (add_var "kubernetes::apiserver::aws_iam_authenticator_init: true")) h) h in
      let h := with_some (ck_PodSecurityPolicy conf) (λ p,
        add_var ("tarmak::kubernetes_pod_security_policy: " +:+ fmt_t (psp_Enabled p))) h in
      let h := prometheusConfig (ck_Prometheus conf) h in
      let h := gatesConfig conf "apiserver" (default ∅ (api_FeatureGates <$> ck_APIServer conf)) true h in
      let h := gatesConfig conf "kubelet" (default ∅ (klet_FeatureGates <$> ck_Kubelet conf)) true h in
      let h := gatesConfig conf "scheduler" (default ∅ (sched_FeatureGates <$> ck_Scheduler conf)) true h in
      let h := gatesConfig conf "proxy" (default ∅ (prox_FeatureGates <$> ck_Proxy conf)) false h in
      let h := gatesConfig conf "controller_manager"
                 (default ∅ (cm_FeatureGates <$> ck_ControllerManager conf)) false h in
      with_some (ck_Calico conf) calicoConfig h
  end.

(** ** Per role *)
Definition addon (name key v : string) : hieraData → hieraData :=
  var_quoted ("kubernetes_addons::" +:+ name +:+ "::" +:+ key) v.

Definition addon_d (key : string) (v : Z) : hieraData → hieraData :=
  add_var ("kubernetes_addons::cluster_autoscaler::" +:+ key +:+ ": " +:+ fmt_d v).

Definition ensure (name : string) (present : bool) : hieraData → hieraData :=
  addon name "ensure" (if present then "present" else "absent").

Definition autoscalerConfig (ca : option ClusterKubernetesClusterAutoscaler) (h : hieraData) : hieraData :=
  let name := "cluster_autoscaler" in
  let h := add_class "kubernetes_addons::cluster_autoscaler" h in
  match ca with
  | Some ca =>
      if ca_Enabled ca then
        let h := ensure name true h in
        let h := when (nonempty (ca_Image ca)) (addon name "image" (ca_Image ca)) h in
        let h := when (nonempty (ca_Version ca)) (addon name "version" (ca_Version ca)) h in
        let h := with_some (ca_ScaleDownUtilizationThreshold ca) (λ t,
          add_var ("kubernetes_addons::cluster_autoscaler::scale_down_utilization_threshold: "
                   +:+ fmt_float t)) h in
        with_some (ca_Overprovisioning ca) (λ o, when (cao_Enabled o) (λ h,
          let h := add_var "kubernetes_addons::cluster_autoscaler::enable_overprovisioning: true" h in
          let h := add_var "kubernetes::enable_pod_priority: true" h in
          let h := when (nonempty (cao_Image o)) (addon name "proportional_image" (cao_Image o)) h in
          let h := when (nonempty (cao_Version o)) (addon name "proportional_version" (cao_Version o)) h in
          let h := addon_d "reserved_millicores_per_replica" (cao_ReservedMillicoresPerReplica o) h in
          let h := addon_d "reserved_megabytes_per_replica" (cao_ReservedMegabytesPerReplica o) h in
          let h := addon_d "cores_per_replica" (cao_CoresPerReplica o) h in
          let h := addon_d "nodes_per_replica" (cao_NodesPerReplica o) h in
          addon_d "replica_count" (cao_ReplicaCount o) h)) h
      else ensure name false h
  | None => ensure name false h
  end.

(** The Tiller and Dashboard add-ons: an image and a version. *)
Definition image_addon (name : string) (enabled : bool) (image version : string) (h : hieraData)
    : hieraData :=
  let h := add_class ("kubernetes_addons::" +:+ name) h in
  if enabled then
    let h := ensure name true h in
    let h := when (nonempty image) (addon name "image" image) h in
    when (nonempty version) (addon name "version" version) h
  else ensure name false h.

Definition kubernetesClusterConfigPerRole (conf : option ClusterKubernetes) (roleName : string)
    (h : hieraData) : GoM hieraData :=
  match conf with
  | None => mret h
  | Some conf =>
      let master := bool_decide (roleName = KubernetesMasterRoleName) in
      let h := add_var ("kubernetes::use_hyperkube: " +:+ fmt_t (default true (ck_Hyperkube conf))) h in
      let h := var_quoted "kubernetes::release_type" (if master then "server" else "node") h in
      let h := when master (autoscalerConfig (ck_ClusterAutoscaler conf)) h in
      let h := when (bool_decide (roleName = KubernetesWorkerRoleName)
                     && match ck_ClusterAutoscaler conf with Some ca => ca_Enabled ca | None => false end
                     && overprovisioning_enabled (ck_ClusterAutoscaler conf))
                 (add_var "kubernetes::enable_pod_priority: true") h in
      let h := when master
        (let t := default {| til_Enabled := false; til_Image := ""; til_Version := "" |} (ck_Tiller conf) in
         image_addon "tiller" (til_Enabled t) (til_Image t) (til_Version t)) h in
      let h := when master
        (let d := default {| das_Enabled := false; das_Image := ""; das_Version := "" |} (ck_Dashboard conf) in
         image_addon "dashboard" (das_Enabled d) (das_Image d) (das_Version d)) h in
      let h := ensure "grafana" (match ck_Grafana conf with Some g => graf_Enabled g | None => false end) h in
      let h := ensure "heapster" (match ck_Heapster conf with Some g => heap_Enabled g | None => false end) h in
      influx ← match ck_Heapster conf with
               | Some _ => i ← deref (ck_InfluxDB conf); mret (infl_Enabled i)
               | None => mret false
               end;
      mret (ensure "influxdb" influx h)
  end.

Definition kubernetesInstancePoolConfig (conf : option InstancePoolKubernetes) : hieraData → hieraData :=
  with_some conf (λ c, when (nonempty (ipk_Version c))
    (var_quoted "tarmak::kubernetes_version" (ipk_Version c))).

Definition serialiseHieraData (h : hieraData) : list string * list string :=
  (match classes h with [] => [] | cs => ["classes:"] ++ map (λ c, "- " +:+ c) cs ++ [""; ""] end,
   match variables h with [] => [] | vs => vs ++ [""; ""] end).

(** ** Cluster and pool contents *)
Definition contentClusterConfig (packerBuild : bool) (c : ClusterT) : list string + error :=
  let sans := (if nonempty (PublicAPIHostname c) then [PublicAPIHostname c] else []) ++
              (if nonempty (PrivateAPIHostname c) then [PrivateAPIHostname c] else []) in
  let h := match sans with
           | [] => hiera_empty
           | _ => add_var ("tarmak::master::apiserver_additional_san_domains: " +:+ json_strings sans)
                    hiera_empty
           end in
  let h := kubernetesClusterConfig (cl_Kubernetes (c_conf c)) h in
  let h := amazonClusterConfig (cl_Amazon (c_conf c)) h in
  let h := add_class "tarmak::fluent_bit" h in
  let finish h :=
    let h := with_some (cl_VaultHelper (c_conf c)) (λ v, when (nonempty (vh_URL v))
               (add_var ("vault_client::_download_url: " +:+ vh_URL v))) h in
    let h := when packerBuild (λ h, var_quoted "tarmak::service_ensure" "stopped"
                                      (add_var "vault_client::run_exec: false" h)) h in
    let '(cs, vs) := serialiseHieraData h in cs ++ vs in
  match elems (cl_LoggingSinks (c_conf c)) with
  | [] => inl (finish (var_quoted "fluent_bit::ensure" "absent" h))
  | sinks =>
      match json_sinks sinks with
      | inr err => inr (Errorf ("unable to marshall logging sinks: " +:+ error_string err))
      | inl json =>
          inl (finish (var_quoted "fluent_bit::ensure" "present"
                         (add_var ("tarmak::fluent_bit_configs: " +:+ json) h)))
      end
  end.

Definition contentInstancePoolConfig (clusterConf : Cluster) (instanceConf : InstancePool)
    (roleName : string) : GoM (list string * list string) :=
  h ← kubernetesClusterConfigPerRole (cl_Kubernetes clusterConf) roleName hiera_empty;
  mret (serialiseHieraData (kubernetesInstancePoolConfig (ip_Kubernetes instanceConf) h)).

(** ** Writing *)

(** Attempted writes, in order: file and lines. *)
Abbreviation writes := (list (string * list string)).

Context (write_error : string → option error).

(** [writeLines]: nothing is written for no lines. *)
Definition writeLines (file : string) (lines : list string) (w : writes) : writes * option error :=
  match lines with
  | [] => (w, None)
  | _ => (w ++ [(file, lines)], write_error file)
  end.

Definition autoscaler_on (k : ClusterKubernetes) : bool :=
  match ck_ClusterAutoscaler k with Some ca => ca_Enabled ca | None => false end.

Definition is_role (name : string) (p : Pool) : bool := bool_decide (role_name (p_role p) = name).

Definition worker_pools (k : ClusterKubernetes) (pools : list Pool) : list Pool :=
  if autoscaler_on k
  then filter (λ p, is_role KubernetesWorkerRoleName p = true) pools else [].

(** The lines the loop adds for the autoscaler of a master pool. *)
Definition autoscaler_lines (workers : list Pool) : list string :=
  ["kubernetes_addons::cluster_autoscaler::min_instances: "
     +:+ json_ints (map (λ p, ip_MinCount (p_conf p)) workers);
   "kubernetes_addons::cluster_autoscaler::max_instances: "
     +:+ json_ints (map (λ p, ip_MaxCount (p_conf p)) workers);
   "kubernetes_addons::cluster_autoscaler::instance_pool_names: ['"
     +:+ Join (map p_Name workers) "','" +:+ "']"].

(** Labels and taints: the lines to add, and the errors. *)
Definition label_taint_lines (p : Pool) : list string * option error :=
  let '(lines, result) :=
    match ip_Labels (p_conf p) with
    | [] => ([], None)
    | _ => match Labels ValidateLabels p with
           | (_, Some err) =>
               ([], Append None (Some (Errorf ("error reading instance pool labels: " +:+ error_string err))))
           | (labels, None) => (["kubernetes::kubelet::node_labels:" +:+ newline +:+ labels], None)
           end
    end in
  match ip_Taints (p_conf p) with
  | [] => (lines, result)
  | _ => match Taints p with
         | (_, Some err) =>
             (lines, Append result (Some (Errorf ("error reading instance pool taints: " +:+ error_string err))))
         | (taints, None) => (lines ++ ["kubernetes::kubelet::node_taints:" +:+ newline +:+ taints], result)
         end
  end.

Definition pool_file (p : Pool) (what : string) : string :=
  "instance_pools/" +:+ p_Name p +:+ "_" +:+ what +:+ ".yaml".

(** One round of the loop over the instance pools. *)
Definition write_pool (conf : Cluster) (k : ClusterKubernetes) (workers : list Pool) (p : Pool)
    (w : writes) : GoM (writes * option error) :=
  r ← contentInstancePoolConfig conf (p_conf p) (role_name (p_role p));
  let '(cls, vars) := (r : list string * list string) in
  let vars := if is_role KubernetesMasterRoleName p && autoscaler_on k
              then vars ++ autoscaler_lines workers else vars in
  let '(lines, err) := label_taint_lines p in
  match err with
  | Some err => mret (w, Some err)
  | None =>
      let vars := vars ++ lines in
      let vars := if is_role KubernetesEtcdRoleName p
                  then vars ++ ["tarmak::etcd_instances: " +:+ fmt_d (ip_MinCount (p_conf p));
                                "tarmak::etcd_mount_unit: " +:+ quoted "var-lib-etcd.mount"]
                  else vars in
      let '(w, _) := writeLines (pool_file p "classes") cls w in
      let '(w, err) := writeLines (pool_file p "variables") vars w in
      mret (w, (λ err, Errorf ("error writing global hiera for instancePool " +:+ p_Name p +:+ ": "
                               +:+ error_string err)) <$> err)
  end.

Fixpoint write_pools (conf : Cluster) (k : ClusterKubernetes) (workers pools : list Pool)
    (w : writes) : GoM (writes * option error) :=
  match pools with
  | [] => mret (w, None)
  | p :: pools' =>
      r ← write_pool conf k workers p w;
      match r with
      | (w, Some err) => mret (w, Some err)
      | (w, None) => write_pools conf k workers pools' w
      end
  end.

Definition writeHieraData (packerBuild : bool) (c : ClusterT) : GoM (writes * option error) :=
  match contentClusterConfig packerBuild c with
  | inr err => mret ([], Some (Errorf ("unable to retrieve cluster config: " +:+ error_string err)))
  | inl lines =>
      let '(w, err) := writeLines "tarmak.yaml" lines [] in
      match err with
      | Some err => mret (w, Some (Errorf ("error writing global hiera config: " +:+ error_string err)))
      | None =>
          k ← deref (cl_Kubernetes (c_conf c));
          write_pools (c_conf c) k (worker_pools k (c_instancePools c)) (c_instancePools c) w
      end
  end.
End puppet.

(** ** Feature gates *)

(** What a component runs with: its own gates before the global ones, and
    [PodPriority] where overprovisioning asks for it. *)
Definition effective_gates (globalGates componentGates : gmap string bool) (podPriority : bool)
    : gmap string bool :=
  componentGates ∪ (if podPriority then <["PodPriority" := true]> globalGates else globalGates).

Lemma newline_app_nonempty s : newline +:+ s ≠ "".
Proof. done. Qed.

(** The feature gates handed to a component are its own ones, overriding
    the global ones and, for the components that use it, the pod priority gate
    that enabled overprovisioning switches on; they are rendered one line per
    gate in sorted order, whatever order the maps are visited in, and the text
    is empty exactly when there is no gate. *)
Theorem featureGatesString_correct `{MapRange} globalGates componentGates usePodPriority conf :
  let gates := effective_gates globalGates componentGates
                 (usePodPriority && overprovisioning_enabled conf) in
  let out := featureGatesString globalGates componentGates usePodPriority conf in
  (out = "" ↔ gates = ∅) ∧
  (gates ≠ ∅ → ∃ lines,
     out = newline +:+ Join lines newline ∧ StronglySorted String.le lines ∧
     lines ≡ₚ map gate_line (map_to_list gates) ∧
     ∀ k b, gates !! k = Some b → "  " +:+ k +:+ ": " +:+ fmt_t b ∈ lines).
Proof.
  set (pp := usePodPriority && overprovisioning_enabled conf).
  assert (featureGatesString globalGates componentGates usePodPriority conf =
    let gates := effective_gates globalGates componentGates pp in
    if decide (gates = ∅) then ""
    else newline +:+ Join (sort_strings (map gate_line (range gates))) newline) as ->.
  { unfold featureGatesString. fold pp. rewrite DuplicateMapBool_id, MergeMaps_union. done. }
  simpl. case_decide as Hg; [done|]. split; [done|]. intros _. eexists. split; [done|].
  assert (sort_strings (map gate_line (range (effective_gates globalGates componentGates pp)))
    ≡ₚ map gate_line (map_to_list (effective_gates globalGates componentGates pp))) as Hp.
  { rewrite sort_strings_perm. by rewrite range_perm. }
  split; [apply sort_strings_sorted|]. split; [exact Hp|].
  intros k b Hk. rewrite Hp. apply list_elem_of_fmap. exists (k, b).
  split; [done|]. by apply elem_of_map_to_list.
Qed.

Lemma featureGatesString_correct_witness :
  ∃ lines, @featureGatesString range_rev {[ "A" := true; "B" := true ]} {[ "B" := false ]} false None
    = newline +:+ Join lines newline ∧ lines ≡ₚ ["  A: true"; "  B: false"].
Proof.
  destruct (@featureGatesString_correct range_rev {[ "A" := true; "B" := true ]} {[ "B" := false ]} false None)
    as [_ Hne].
  destruct Hne as (lines & Heq & _ & Hp & _); [vm_compute; congruence|].
  exists lines. split; [exact Heq|]. rewrite Hp. by vm_compute.
Defined.

(** ** Configuration per pool *)

(** What the pool configuration needs: an InfluxDB section wherever there is
    a Heapster section. *)
Definition influx_ok (k : option ClusterKubernetes) : Prop :=
  match k with
  | Some k => ck_Heapster k = None ∨ ck_InfluxDB k ≠ None
  | None => True
  end.

Definition extends (h h' : hieraData) : Prop :=
  classes h `prefix_of` classes h' ∧ variables h `prefix_of` variables h'.

#[global] Instance extends_preorder : PreOrder extends.
Proof.
  split; [intros h; by split|]. intros h1 h2 h3 [? ?] [? ?]. split; by etrans.
Qed.

Lemma add_var_extends s h : extends h (add_var s h).
Proof. split; [done|]. by apply prefix_app_r. Qed.

Lemma add_class_extends s h : extends h (add_class s h).
Proof. split; [|done]. by apply prefix_app_r. Qed.

Lemma when_extends b f h : (∀ h, extends h (f h)) → extends h (when b f h).
Proof. intros Hf. by destruct b; [apply Hf|]. Qed.

Lemma with_some_extends {A} (p : option A) f h :
  (∀ a h, extends h (f a h)) → extends h (with_some p f h).
Proof. intros Hf. destruct p; [apply Hf|done]. Qed.

Create HintDb hiera.
#[export] Hint Resolve add_var_extends add_class_extends : hiera.

Ltac hiera :=
  repeat first
    [ progress intros
    | apply when_extends | apply with_some_extends
    | solve [auto with hiera]
    | match goal with
      | |- extends ?h ?h => reflexivity
      | |- extends _ (if ?b then _ else _) => destruct b
      | |- extends _ (match ?x with _ => _ end) => destruct x
      | |- extends _ (add_var _ ?h) => transitivity h
      | |- extends _ (add_class _ ?h) => transitivity h
      | |- extends _ (when _ _ ?h) => transitivity h
      | |- extends _ (with_some _ _ ?h) => transitivity h
      end ].

Lemma var_quoted_extends k v h : extends h (var_quoted k v h).
Proof. apply add_var_extends. Qed.

Lemma ensure_extends name b h : extends h (ensure name b h).
Proof. apply add_var_extends. Qed.

Lemma ensure_variables name b h : variables (ensure name b h) ≠ [].
Proof. intros Hv. by apply app_eq_nil in Hv as [_ ?]. Qed.

Section per_role.
Context (fmt_float : spec_float → string).

Lemma autoscalerConfig_extends ca h : extends h (autoscalerConfig fmt_float ca h).
Proof.
  unfold autoscalerConfig, ensure, addon, addon_d, var_quoted. destruct ca; cbv zeta; hiera.
Qed.

Lemma image_addon_extends name b i v h : extends h (image_addon name b i v h).
Proof. unfold image_addon, ensure, addon, var_quoted. cbv zeta. hiera. Qed.

(** The lines every pool gets. *)
Lemma kubernetesClusterConfigPerRole_inv conf role h :
  (influx_ok conf → ∃ h', kubernetesClusterConfigPerRole fmt_float conf role h = Ret h') ∧
  (∀ h', kubernetesClusterConfigPerRole fmt_float conf role h = Ret h' →
    influx_ok conf ∧ extends h h' ∧ (conf ≠ None → variables h' ≠ [])).
Proof.
  destruct conf as [k|]; simpl; [|split; [by eexists|intros ? [= <-]; split; [done|split; done]]].
  set (h0 := when _ (image_addon "dashboard" _ _ _) _).
  assert (extends h h0) as Hext.
  { subst h0. repeat (etrans; [|apply when_extends; intros; apply image_addon_extends]).
    etrans; [|apply when_extends; intros; apply add_var_extends].
    etrans; [|apply when_extends; intros; apply autoscalerConfig_extends].
    etrans; apply add_var_extends. }
  clearbody h0. split.
  - intros Hok. destruct (ck_Heapster k) as [hp|]; [|by eexists].
    destruct (ck_InfluxDB k); [by eexists|]. by destruct Hok.
  - intros h'. destruct (ck_Heapster k) as [hp|]; simpl.
    + destruct (ck_InfluxDB k) as [i|]; simpl; [|done]. intros [= <-].
      split; [by right|]. split; [|intros _; apply ensure_variables].
      by repeat (etrans; [|apply ensure_extends]).
    + intros [= <-]. split; [by left|]. split; [|intros _; apply ensure_variables].
      by repeat (etrans; [|apply ensure_extends]).
Qed.
End per_role.

(** ** Files *)
Section write_lemmas.
Context `{MapRange} `{Env}.
Context (fmt_float : spec_float → string).
Context (json_sinks : list LoggingSink → string + error).
Context (ValidateLabels : gmap string string → option string).

Lemma serialise_classes h : classes h ≠ [] → (serialiseHieraData h).1 ≠ [].
Proof. by destruct h as [[|] ?]. Qed.

Lemma serialise_variables h : variables h ≠ [] → (serialiseHieraData h).2 ≠ [].
Proof. destruct h as [? [|v vs]]; simpl; [done|]. by intros _. Qed.

Lemma extends_classes h h' : extends h h' → classes h ≠ [] → classes h' ≠ [].
Proof. intros [[l ->] _] Hne Heq. by apply app_eq_nil in Heq as [? _]. Qed.

Lemma extends_variables h h' : extends h h' → variables h ≠ [] → variables h' ≠ [].
Proof. intros [_ [l ->]] Hne Heq. by apply app_eq_nil in Heq as [? _]. Qed.

Lemma contentClusterConfig_nonempty packerBuild c lines :
  contentClusterConfig json_sinks packerBuild c = inl lines → lines ≠ [].
Proof.
  unfold contentClusterConfig.
  set (h0 := add_class "tarmak::fluent_bit" _).
  assert (classes h0 ≠ []) as Hne.
  { intros Hv. by apply app_eq_nil in Hv as [_ ?]. }
  clearbody h0. cbv zeta. intros Heq Hnil. subst lines.
  assert (∀ h, extends h0 h →
    (serialiseHieraData h).1 ++ (serialiseHieraData h).2 ≠ []) as Hs.
  { intros h Hh Hv. apply app_eq_nil in Hv as [Hv _].
    revert Hv. apply serialise_classes. by eapply extends_classes. }
  destruct (elems _) as [|s sinks].
  - injection Heq as Heq. refine (Hs _ _ Heq). unfold var_quoted. hiera.
  - destruct (json_sinks _); [|done]. injection Heq as Heq. refine (Hs _ _ Heq). unfold var_quoted. hiera.
Qed.

Lemma contentInstancePoolConfig_inv conf p role :
  (influx_ok (cl_Kubernetes conf) → ∃ r, contentInstancePoolConfig fmt_float conf p role = Ret r) ∧
  (∀ r, contentInstancePoolConfig fmt_float conf p role = Ret r →
    influx_ok (cl_Kubernetes conf) ∧ (cl_Kubernetes conf ≠ None → r.2 ≠ [])).
Proof.
  unfold contentInstancePoolConfig.
  destruct (kubernetesClusterConfigPerRole_inv fmt_float (cl_Kubernetes conf) role hiera_empty) as [Ht Hi].
  split.
  - intros Hok. destruct (Ht Hok) as [h' ->]. by eexists.
  - intros r. destruct (kubernetesClusterConfigPerRole _ _ _ _) as [h'|] eqn:Hk; simpl; [|done].
    intros [= <-]. destruct (Hi h' eq_refl) as (Hok & _ & Hv). split; [done|]. intros Hn.
    apply serialise_variables. eapply extends_variables; [|exact (Hv Hn)].
    unfold kubernetesInstancePoolConfig, var_quoted. hiera.
Qed.

(** The content of a pool's variables file. *)
Definition pool_variables_lines (k : ClusterKubernetes) (workers : list Pool) (p : Pool)
    (vars labels_taints : list string) : list string :=
  vars ++ (if is_role KubernetesMasterRoleName p && autoscaler_on k then autoscaler_lines workers else [])
  ++ labels_taints
  ++ (if is_role KubernetesEtcdRoleName p
      then ["tarmak::etcd_instances: " +:+ fmt_d (ip_MinCount (p_conf p));
            "tarmak::etcd_mount_unit: " +:+ quoted "var-lib-etcd.mount"] else []).

Section writing.
Context (write_error : string → option error).

(** [ws] are the writes of a pool whose round succeeds. *)
Definition pool_written (conf : Cluster) (k : ClusterKubernetes) (workers : list Pool) (p : Pool)
    (ws : list (string * list string)) : Prop :=
  ∃ cls vars lt,
    contentInstancePoolConfig fmt_float conf (p_conf p) (role_name (p_role p)) = Ret (cls, vars) ∧
    label_taint_lines ValidateLabels p = (lt, None) ∧
    write_error (pool_file p "variables") = None ∧
    ws = (if decide (cls = []) then [] else [(pool_file p "classes", cls)]) ++
         [(pool_file p "variables", pool_variables_lines k workers p vars lt)].

Lemma writeLines_fst file lines w :
  (writeLines write_error file lines w).1 = w ++ (if decide (lines = []) then [] else [(file, lines)]).
Proof. destruct lines; simpl; [by rewrite app_nil_r|done]. Qed.

Lemma writeLines_nonempty file lines w :
  lines ≠ [] → writeLines write_error file lines w = (w ++ [(file, lines)], write_error file).
Proof. by destruct lines. Qed.

Lemma write_pool_ok conf k workers p w w' :
  cl_Kubernetes conf = Some k →
  write_pool fmt_float ValidateLabels write_error conf k workers p w = Ret (w', None) ↔
  ∃ ws, pool_written conf k workers p ws ∧ w' = w ++ ws.
Proof.
  intros Hk. unfold write_pool, pool_written.
  destruct (contentInstancePoolConfig_inv conf (p_conf p) (role_name (p_role p))) as [_ Hne].
  destruct (contentInstancePoolConfig _ _ _ _) as [[cls vars]|]; simpl;
    [|split; [done|by intros (ws & (? & ? & ? & ? & _) & _)]].
  destruct (Hne _ eq_refl) as [_ Hvars]. rewrite Hk in Hvars. specialize (Hvars ltac:(done)). simpl in Hvars.
  destruct (label_taint_lines ValidateLabels p) as [lt [err|]].
  { split; [done|]. by intros (ws & (? & ? & ? & _ & ? & _) & _). }
  destruct (writeLines write_error (pool_file p "classes") cls w) as [w1 e1] eqn:Hw1.
  pose proof (writeLines_fst (pool_file p "classes") cls w) as Hw1'. rewrite Hw1 in Hw1'. simpl in Hw1'.
  set (all := if is_role KubernetesEtcdRoleName p then _ else _).
  assert (all = pool_variables_lines k workers p vars lt) as ->.
  { unfold all, pool_variables_lines.
    destruct (is_role KubernetesEtcdRoleName p), (is_role KubernetesMasterRoleName p && autoscaler_on k);
      by rewrite <- ?(assoc_L (++)), ?app_nil_l, ?app_nil_r. }
  rewrite writeLines_nonempty by (unfold pool_variables_lines; by destruct vars).
  subst w1. simpl. split.
  - intros [= <- Herr]. destruct (write_error (pool_file p "variables")) eqn:He; [done|].
    eexists. split; [by exists cls, vars, lt|]. by rewrite (assoc_L (++)).
  - intros (ws & (cls' & vars' & lt' & [= <- <-] & [= <-] & He & ->) & ->). rewrite He. simpl.
    by rewrite (assoc_L (++)).
Qed.

Lemma write_pools_ok conf k workers pools w w' :
  cl_Kubernetes conf = Some k →
  write_pools fmt_float ValidateLabels write_error conf k workers pools w = Ret (w', None) ↔
  ∃ wss, Forall2 (pool_written conf k workers) pools wss ∧ w' = w ++ concat wss.
Proof.
  intros Hk. revert w. induction pools as [|p pools IH]; intros w; simpl.
  - split.
    + intros [= <-]. exists []. simpl. by rewrite app_nil_r.
    + intros (wss & Hf & ->). inversion Hf; subst. simpl. by rewrite app_nil_r.
  - destruct (write_pool _ _ _ conf k workers p w) as [[w1 [err|]]|] eqn:Hp; simpl.
    + split; [done|]. intros (wss & Hf & _). inversion Hf as [|? ws ? ? Hpw]; subst.
      pose proof (proj2 (write_pool_ok conf k workers p w (w ++ ws) Hk) (ex_intro _ ws (conj Hpw eq_refl))).
      congruence.
    + apply (write_pool_ok conf k workers p w w1 Hk) in Hp as Hp'. destruct Hp' as (ws & Hpw & ->).
      rewrite IH. split.
      * intros (wss & Hf & ->). exists (ws :: wss). simpl. split; [by constructor|]. by rewrite (assoc_L (++)).
      * intros (wss & Hf & ->). inversion Hf as [|? ws' ? wss' Hpw' Hf']; subst.
        pose proof (proj2 (write_pool_ok conf k workers p w (w ++ ws') Hk) (ex_intro _ ws' (conj Hpw' eq_refl))) as Hp'.
        rewrite Hp in Hp'. injection Hp' as ->%(inj (app w)). exists wss'. simpl. by rewrite (assoc_L (++)).
    + split; [done|]. intros (wss & Hf & _). inversion Hf as [|? ws ? ? Hpw]; subst.
      pose proof (proj2 (write_pool_ok conf k workers p w (w ++ ws) Hk) (ex_intro _ ws (conj Hpw eq_refl))).
      congruence.
Qed.

Lemma write_pools_total conf k workers pools w :
  influx_ok (cl_Kubernetes conf) →
  ∃ r, write_pools fmt_float ValidateLabels write_error conf k workers pools w = Ret r.
Proof.
  intros Hok. revert w. induction pools as [|p pools IH]; intros w; simpl; [by eexists|].
  assert (∃ r, write_pool fmt_float ValidateLabels write_error conf k workers p w = Ret r) as [[w1 e] ->].
  { unfold write_pool.
    destruct (contentInstancePoolConfig_inv conf (p_conf p) (role_name (p_role p))) as [Ht _].
    destruct (Ht Hok) as [[cls vars] ->]. simpl. repeat case_match; by eexists. }
  simpl. destruct e; [by eexists|]. apply IH.
Qed.
End writing.
(** Only the result of writing the variables file counts. *)
Lemma write_pool_agree we we' conf k workers p w :
  we (pool_file p "variables") = we' (pool_file p "variables") →
  write_pool fmt_float ValidateLabels we conf k workers p w =
  write_pool fmt_float ValidateLabels we' conf k workers p w.
Proof.
  intros Hp. unfold write_pool.
  destruct (contentInstancePoolConfig _ _ _ _) as [[cls vars]|]; simpl; [|done].
  destruct (label_taint_lines ValidateLabels p) as [lt [err|]]; [done|].
  generalize (writeLines_fst we (pool_file p "classes") cls w).
  generalize (writeLines_fst we' (pool_file p "classes") cls w).
  destruct (writeLines we' _ cls _) as [w1 e1], (writeLines we _ cls _) as [w2 e2]. simpl. intros -> ->.
  unfold writeLines. by rewrite Hp.
Qed.

Lemma write_pools_agree we we' conf k workers pools w :
  (∀ p, p ∈ pools → we (pool_file p "variables") = we' (pool_file p "variables")) →
  write_pools fmt_float ValidateLabels we conf k workers pools w =
  write_pools fmt_float ValidateLabels we' conf k workers pools w.
Proof.
  revert w. induction pools as [|p pools IH]; intros w Hp; simpl; [done|].
  rewrite (write_pool_agree we we') by (apply Hp; by left).
  destruct (write_pool _ _ _ _ _ _ _ _) as [[w1 [err|]]|]; simpl; [done| |done].
  apply IH. intros q Hq. apply Hp. by right.
Qed.
End write_lemmas.

Section theorems.
Context `{MapRange} `{Env}.
Context (fmt_float : spec_float → string).
Context (json_sinks : list LoggingSink → string + error).
Context (ValidateLabels : gmap string string → option string).

(** Writing the hiera data succeeds exactly when the cluster content can
    be built, its file is written, and every pool has content, valid labels
    and taints and a written variables file; the attempted writes are then
    [tarmak.yaml] followed by the files of the pools, in the order of the
    pools, the autoscaler lines of a master naming the worker pools. *)
Theorem writeHieraData_correct write_error packerBuild c w :
  writeHieraData fmt_float json_sinks ValidateLabels write_error packerBuild c = Ret (w, None) ↔
  ∃ lines k wss,
    contentClusterConfig json_sinks packerBuild c = inl lines ∧
    write_error "tarmak.yaml" = None ∧
    cl_Kubernetes (c_conf c) = Some k ∧
    Forall2 (pool_written fmt_float ValidateLabels write_error (c_conf c) k
               (worker_pools k (c_instancePools c))) (c_instancePools c) wss ∧
    w = ("tarmak.yaml", lines) :: concat wss.
Proof.
  unfold writeHieraData.
  destruct (contentClusterConfig json_sinks packerBuild c) as [lines|] eqn:Hc;
    [|split; [done|by intros (? & ? & ? & ? & _)]].
  rewrite writeLines_nonempty by (by eapply contentClusterConfig_nonempty).
  destruct (write_error "tarmak.yaml") eqn:He; [split; [done|by intros (? & ? & ? & _ & ? & _)]|].
  destruct (cl_Kubernetes (c_conf c)) as [k|] eqn:Hk; simpl;
    [|split; [done|by intros (? & ? & ? & _ & _ & ? & _)]].
  rewrite write_pools_ok by done. split.
  - intros (wss & Hf & ->). by exists lines, k, wss.
  - intros (l & k' & wss & [= <-] & _ & [= <-] & Hf & ->). by exists wss.
Qed.

(** Writing the hiera data of a cluster whose configuration was defaulted
    never panics, whatever the writes return. *)
Theorem writeHieraData_returns write_error packerBuild c now conf :
  c_conf c = SetDefaults_Cluster now conf →
  ∃ r, writeHieraData fmt_float json_sinks ValidateLabels write_error packerBuild c = Ret r.
Proof.
  intros Hconf. unfold writeHieraData.
  destruct (contentClusterConfig json_sinks packerBuild c); [|by eexists].
  destruct (writeLines _ _ _ _) as [w [err|]]; [by eexists|].
  assert (∃ k, cl_Kubernetes (c_conf c) = Some k ∧ ck_InfluxDB k ≠ None) as (k & Hk & Hi).
  { rewrite Hconf. eexists. split; [reflexivity|]. simpl. by destruct (ck_InfluxDB _). }
  rewrite Hk. apply write_pools_total. rewrite Hk. by right.
Qed.

(** The outcome does not depend on whether the classes files of the pools
    could be written: two file systems that agree on [tarmak.yaml] and on the
    variables files give the same result, errors included. *)
Theorem writeHieraData_ignores_classes_error we we' packerBuild c :
  we "tarmak.yaml" = we' "tarmak.yaml" →
  (∀ p, p ∈ c_instancePools c → we (pool_file p "variables") = we' (pool_file p "variables")) →
  writeHieraData fmt_float json_sinks ValidateLabels we packerBuild c =
  writeHieraData fmt_float json_sinks ValidateLabels we' packerBuild c.
Proof.
  intros Ht Hp. unfold writeHieraData.
  destruct (contentClusterConfig json_sinks packerBuild c) as [lines|] eqn:Hc; [|done].
  rewrite !writeLines_nonempty by (by eapply contentClusterConfig_nonempty). rewrite <- Ht.
  destruct (we "tarmak.yaml"); [done|].
  destruct (cl_Kubernetes (c_conf c)) as [k|]; simpl; [|done].
  by apply write_pools_agree.
Qed.

(** With EBS encryption switched off explicitly the Terraform variable
    says that volumes are not encrypted, and Puppet is told that storage is
    encrypted. *)
Theorem amazonClusterConfig_encrypted_mismatch c a h :
  cl_Amazon (c_conf c) = Some a → cla_EBSEncrypted a = Some false →
  AmazonEBSEncrypted c = false ∧
  "kubernetes::storage_encrypted: true" ∈ variables (amazonClusterConfig (cl_Amazon (c_conf c)) h).
Proof.
  intros Ha He. split.
  - unfold AmazonEBSEncrypted. rewrite Ha. simpl. by rewrite He.
  - rewrite Ha. simpl. unfold amazonClusterConfig. simpl. rewrite He. simpl. set_solver.
Qed.
End theorems.

(** ** Witnesses *)
Definition example_master : Pool := {|
  p_conf := newInstancePoolMaster; p_volumes := []; p_rootVolume := None;
  p_instanceType := ""; p_role := {| role_name := KubernetesMasterRoleName; role_prefix := "kubernetes"; role_Stateful := false;
               role_AWS := None |} |}.

Definition example_cluster : ClusterT :=
  {| (new_cluster (SetDefaults_Cluster 1 (NewCluster "cluster"))) with c_instancePools := [example_master] |}.

Abbreviation example_write we := (writeHieraData (H := range_list) (H0 := example_env 1)
  (λ _, "") (λ _, inl "") (λ _, None) we false example_cluster).

Lemma writeHieraData_returns_witness : ∃ r, example_write (λ _, None) = Ret r.
Proof.
  apply (writeHieraData_returns (H := range_list) (H0 := example_env 1)
    (λ _, "") (λ _, inl "") (λ _, None) (λ _, None) false example_cluster 1 (NewCluster "cluster")).
  reflexivity.
Defined.

(** The classes file of the master fails, and the run succeeds. *)
Lemma writeHieraData_ignores_classes_error_witness :
  let we f := if decide (f = "instance_pools/master_classes.yaml") then Some (Errorf "disk full") else None in
  example_write we = example_write (λ _, None) ∧ ∃ w, example_write we = Ret (w, None).
Proof.
  intros we. split.
  - apply (writeHieraData_ignores_classes_error (H := range_list) (H0 := example_env 1)
      (λ _, "") (λ _, inl "") (λ _, None) we (λ _, None) false example_cluster); [reflexivity|].
    intros p [->|Hp]%elem_of_cons; [reflexivity|]. by apply elem_of_nil in Hp.
  - vm_compute. by eexists.
Defined.

Lemma amazonClusterConfig_encrypted_mismatch_witness :
  let c := new_cluster {| (NewCluster "cluster") with
    cl_Amazon := Some {| cla_AdditionalIAMPolicies := None; cla_EBSEncrypted := Some false |} |} in
  AmazonEBSEncrypted c = false ∧
  "kubernetes::storage_encrypted: true" ∈ variables (amazonClusterConfig (cl_Amazon (c_conf c)) hiera_empty).
Proof.
  intros c. by eapply (amazonClusterConfig_encrypted_mismatch c _ hiera_empty).
Defined.
