(* ===== verification/Environment.v ===== *)
(** * Environment: environments and the current cluster

    [src/pkg/tarmak/environment/environment.go], the look-ups by name in
    [src/pkg/tarmak/environments.go] and [src/pkg/tarmak/providers.go], the
    choice of a provider in [src/pkg/tarmak/provider/provider.go], and the
    parts of [src/pkg/tarmak/tarmak.go] that find the current cluster
    ([initializeConfig]) and set it after [cluster init].

    An environment builds its clusters one by one; each of them validates
    itself against the environment as far as it is built, so the [Env] a
    cluster sees has the hub found among the clusters before it.  What a
    provider answers about keys and buckets is an argument of [Variables]. *)

From Stdlib Require Import Floats.SpecFloat.
From S2P Require Import Prelude Types Defaults Net Utils Role Provider InstancePool Config Cluster ClusterSpec.

Record EnvT := {
  e_conf : Environment;
  e_clusters : list ClusterT;
  e_hub : option ClusterT;
  e_provider : Amazon.Amazon;
}.

Definition e_Name (e : EnvT) : string := env_Name (e_conf e).
Definition HubName (e : EnvT) : string := e_Name e +:+ "-" +:+ ClusterTypeHub.

(** [amazon.NewFromConfig] *)
Definition new_amazon (conf : Provider) : Amazon.Amazon :=
  {| Amazon.conf := conf; Amazon.availabilityZones := None; Amazon.remoteStateKMS := "" |}.

(** [provider.NewFromConfig] *)
Definition provider_NewFromConfig (conf : Provider) : Amazon.Amazon + error :=
  match pr_Amazon conf with
  | Some _ => inl (new_amazon conf)
  | None => inr (Errorf ("Unknown provider '" +:+ pr_Name conf +:+ "'"))
  end.

(** [a.conf.Amazon.PublicZone]; a provider that was built has Amazon options. *)
Definition public_zone (a : Amazon.Amazon) : string :=
  match pr_Amazon (Amazon.conf a) with Some am => pa_PublicZone am | None => "" end.

(** The environment a cluster sees: [clusters] are configured for it and
    [hub] is set so far. *)
Definition env_view (conf : Environment) (clusters : nat) (hub : option ClusterT)
    (prov : Amazon.Amazon) (vars : gmap string value) : Env := {|
  env_conf := conf;
  env_clusters := clusters;
  env_hub := c_conf <$> hub;
  env_provider := Amazon.provider prov (public_zone prov);
  env_variables := vars;
|}.

Section environment.
Context `{MapRange}.
Context {V : Type} (NewVersion : string → V + string) (LessThan : V → V → bool).
Context (fmt_float : spec_float → string).
Context {bytes : Type}.
Implicit Types (st : State bytes) (e : EnvT).

Definition providerByName st (providerName : string) : GoM (Amazon.Amazon + error) :=
  r ← find_Provider st providerName;
  mret match r with
       | inr _ => inr (Errorf ("error finding provider '" +:+ providerName +:+ "'"))
       | inl conf =>
           match provider_NewFromConfig conf with
           | inr err => inr (Errorf ("error initializing provider '" +:+ providerName +:+ "': "
                                     +:+ error_string err))
           | inl prov => inl prov
           end
       end.

(** A cluster of the environment, seen with the hub found so far. *)
Definition new_in_env (conf : Environment) (clusters : nat) (hub : option ClusterT)
    (prov : Amazon.Amazon) (clusterConf : Cluster) : GoM (option ClusterT * option error) :=
  Cluster.NewFromConfig (H0 := env_view conf clusters hub prov ∅) NewVersion LessThan fmt_float clusterConf.

Definition is_hub (total : nat) (clusterConf : Cluster) : bool :=
  bool_decide (total = 1) || bool_decide (cl_Name clusterConf = "hub").

(** The loop over the cluster configurations; [total] is [len(clusters)] and
    [configured] the number of clusters the configuration has for the
    environment. *)
Fixpoint build_clusters (conf : Environment) (configured total : nat) (prov : Amazon.Amazon)
    (confs : list Cluster) (clusters : list ClusterT) (hub : option ClusterT) (result : option error)
    : GoM (list ClusterT * option ClusterT * option error) :=
  match confs with
  | [] => mret (clusters, hub, result)
  | clusterConf :: confs' =>
      r ← new_in_env conf configured hub prov clusterConf;
      match r with
      | (Some c, None) =>
          build_clusters conf configured total prov confs' (clusters ++ [c])
            (if is_hub total clusterConf then Some c else hub) result
      | (_, err) => build_clusters conf configured total prov confs' clusters hub (Append result err)
      end
  end.

(** [environment.NewFromConfig]; creating the Vault client never fails. *)
Definition NewFromConfig st (conf : Environment) (confs : list Cluster) : GoM (EnvT + error) :=
  p ← providerByName st (env_Provider conf);
  match p with
  | inr _ => mret (inr (Errorf ("error initializing provider '" +:+ env_Provider conf +:+ "'")))
  | inl prov =>
      configured ← Clusters st (env_Name conf);
      r ← build_clusters conf (length configured) (length confs) prov confs [] None None;
      let '(clusters, hub, result) := (r : list ClusterT * option ClusterT * option error) in
      mret match result with
           | Some err => inr err
           | None => inl {| e_conf := conf; e_clusters := clusters; e_hub := hub; e_provider := prov |}
           end
  end.

(** [e.Cluster(name)] *)
Definition env_Cluster e (name : string) : ClusterT + error :=
  match list_find (λ c, c_Name c = name) (e_clusters e) with
  | Some (_, c) => inl c
  | None => inr (Errorf ("cluster '" +:+ name +:+ "' in environment '" +:+ e_Name e +:+ "' not found"))
  end.

(** The variables of the environment: the provider's own are copied over the
    contact and project; without a hub the last entries panic. *)
Definition Variables (key_name : string) (location : option string) (subnets : list Subnet)
    (bucket : string) e : GoM (EnvT * gmap string value) :=
  let output := <["environment" := VStr (e_Name e)]> ∅ in
  let output := if decide (env_Contact (e_conf e) = "") then output
                else <["contact" := VStr (env_Contact (e_conf e))]> output in
  let output := if decide (env_Project (e_conf e) = "") then output
                else <["project" := VStr (env_Project (e_conf e))]> output in
  r ← Amazon.Variables key_name location subnets (e_provider e);
  let '(prov, vars) := (r : Amazon.Amazon * gmap string value) in
  let output := <["state_bucket" := VStr bucket]> (assign_all output vars) in
  hub ← deref (e_hub e);
  mret ({| e with e_provider := prov |},
        <["vault_cluster_name" := VStr (c_Name hub)]>
        (<["tools_cluster_name" := VStr (c_Name hub)]>
        (<["state_cluster_name" := VStr (c_Name hub)]> output))).

(** [e.Type()], from the clusters configured for the environment. *)
Definition env_Type st e : GoM string :=
  confs ← Clusters st (e_Name e);
  mret match confs with
       | [] => EnvironmentTypeEmpty
       | _ => if existsb (λ c, bool_decide (cl_Name c = "hub")) confs
              then EnvironmentTypeMulti else EnvironmentTypeSingle
       end.

Definition ValidateAdminCIDRs e : option error :=
  foldl (λ result cidr,
    match ParseCIDR cidr with
    | inl _ => result
    | inr _ => Append result (Some (Errorf (cidr +:+ " is not a valid CIDR format")))
    end) None (elems (env_AdminCIDRs (e_conf e))).

(** [e.Validate()]; the provider's own validation returns nil. *)
Definition env_Validate (ssh : option error) e : option error :=
  ErrorOrNil (AppendIf (AppendIf None (ValidateAdminCIDRs e)) ssh).

Definition env_Parameters e : gmap string string :=
  <["provider" := Amazon.String (e_provider e)]>
  (<["location" := env_Location (e_conf e)]> (<["name" := e_Name e]> ∅)).

(** ** Tarmak *)
Definition environmentByName st (environmentName : string) : GoM (EnvT + error) :=
  r ← find_Environment st environmentName;
  match r with
  | inr _ => mret (inr (Errorf ("error finding environment '" +:+ environmentName +:+ "'")))
  | inl conf =>
      confs ← Clusters st environmentName;
      e ← NewFromConfig st conf confs;
      mret match e with
           | inr err => inr (Errorf ("error initializing environment '" +:+ environmentName +:+ "': "
                                     +:+ error_string err))
           | inl e => inl e
           end
  end.

(** [t.Environments()]: those that can be built. *)
Fixpoint list_environments st (confs : list Environment) : GoM (list EnvT) :=
  match confs with
  | [] => mret []
  | conf :: confs' =>
      r ← environmentByName st (env_Name conf);
      es ← list_environments st confs';
      mret match r with inl e => e :: es | inr _ => es end
  end.

Context (flags : Flags).

(** [initializeConfig]: the environment and the cluster of the run. *)
Definition initializeConfig st : GoM ((EnvT * ClusterT) + error) :=
  n ← CurrentEnvironmentName flags st;
  match n with
  | inr err => mret (inr (Errorf ("error retrieving current environment name: " +:+ error_string err)))
  | inl envName =>
      r ← environmentByName st envName;
      match r with
      | inr err => mret (inr err)
      | inl e =>
          n ← CurrentClusterName flags st;
          mret match n with
               | inr err => inr (Errorf ("failed to retrieve current cluster name: " +:+ error_string err))
               | inl clusterName =>
                   match env_Cluster e clusterName with
                   | inr err => inr (Errorf ("error finding current cluster '" +:+ clusterName +:+ "': "
                                             +:+ error_string err))
                   | inl c => inl (e, c)
                   end
               end
      end
  end.

Context (Encode : Config → bytes + error) (io_error : nat → option error).

(** [CmdClusterInit] after the questions: cluster [c] of environment [e]. *)
Definition CmdClusterInit_current st e (type : string) (clusterName : string)
    : GoM (State bytes * option error) :=
  r ← (if decide (type = ClusterTypeClusterMulti) then
         es ← list_environments st (Environments st);
         if decide (length es = 1)
         then SetCurrentCluster Encode io_error st (HubName e) : GoM (State bytes * option error)
         else mret (st, None)
       else mret (st, None));
  let '(st, err) := (r : State bytes * option error) in
  match err with
  | Some err => mret (st, Some (Errorf ("error setting current cluster: " +:+ error_string err)))
  | None => SetCurrentCluster Encode io_error st clusterName
  end.
End environment.

(** ** Lemmas: building an environment *)
Section lemmas.
Context `{MapRange}.
Context {V : Type} (NewVersion : string → V + string) (LessThan : V → V → bool).
Context (fmt_float : spec_float → string).

Abbreviation new_in_env := (new_in_env NewVersion LessThan fmt_float).
Abbreviation build_clusters := (build_clusters NewVersion LessThan fmt_float).

(** The clusters built one after the other: each sees the hub of the clusters
    before it. *)
Inductive built (conf : Environment) (configured total : nat) (prov : Amazon.Amazon)
    : option ClusterT → list Cluster → list ClusterT → option ClusterT → Prop :=
| built_nil hub : built conf configured total prov hub [] [] hub
| built_cons hub hub' clusterConf confs c cs :
    new_in_env conf configured hub prov clusterConf = Ret (Some c, None) →
    built conf configured total prov (if is_hub total clusterConf then Some c else hub) confs cs hub' →
    built conf configured total prov hub (clusterConf :: confs) (c :: cs) hub'.

Lemma new_in_env_some conf n hub prov cc c :
  new_in_env conf n hub prov cc = Ret (Some c, None) → c_conf c = cc.
Proof. by intros (_ & ? & _)%NewFromConfig_ok. Qed.

Lemma build_clusters_error conf n total prov confs cs hub e r :
  build_clusters conf n total prov confs cs hub (Some e) = Ret r → r.2 ≠ None.
Proof.
  revert cs hub e. induction confs as [|cc confs IH]; intros cs hub e; simpl; [by intros [= <-]|].
  destruct (new_in_env conf n hub prov cc) as [[[c|] [err|]]|]; simpl; try apply IH. done.
Qed.

Lemma build_clusters_ok conf n total prov confs cs hub cs' hub' :
  build_clusters conf n total prov confs cs hub None = Ret (cs', hub', None) ↔
  ∃ new, cs' = cs ++ new ∧ built conf n total prov hub confs new hub'.
Proof.
  revert cs hub. induction confs as [|cc confs IH]; intros cs hub; simpl.
  - split.
    + intros [= <- <-]. exists []. rewrite app_nil_r. split; [done|constructor].
    + intros (new & -> & Hb). inversion Hb; subst. by rewrite app_nil_r.
  - split.
    + destruct (new_in_env conf n hub prov cc) as [[[c|] [err|]]|] eqn:Hc; simpl;
        try (intros Hb; by apply build_clusters_error in Hb); try done.
      intros (new & -> & Hb)%IH. exists (c :: new). rewrite <- app_assoc. split; [done|]. by econstructor.
    + intros (new & -> & Hb). inversion Hb as [|? ? ? ? c cs0 Hc Hb']; subst. rewrite Hc. simpl.
      apply IH. exists cs0. by rewrite <- app_assoc.
Qed.

Lemma built_app conf n total prov hub confs1 confs2 cs hub' :
  built conf n total prov hub (confs1 ++ confs2) cs hub' →
  ∃ cs1 cs2 mid, cs = cs1 ++ cs2 ∧ built conf n total prov hub confs1 cs1 mid ∧
    built conf n total prov mid confs2 cs2 hub'.
Proof.
  revert hub cs. induction confs1 as [|cc confs1 IH]; intros hub cs; simpl.
  - intros Hb. exists [], cs, hub. split; [done|]. split; [constructor|done].
  - intros Hb. inversion Hb as [|? ? ? ? c cs0 Hc Hb']; subst.
    apply IH in Hb' as (cs1 & cs2 & mid & -> & H1 & H2).
    exists (c :: cs1), cs2, mid. split; [done|]. split; [by econstructor|done].
Qed.

Lemma built_confs conf n total prov hub confs cs hub' :
  built conf n total prov hub confs cs hub' → map c_conf cs = confs.
Proof.
  induction 1 as [|? ? ? ? ? ? Hc _ IH]; simpl; [done|]. by rewrite (new_in_env_some _ _ _ _ _ _ Hc), IH.
Qed.

(** Without another hub the hub stays. *)
Lemma built_hub_kept conf n total prov hub confs cs hub' :
  built conf n total prov hub confs cs hub' →
  Forall (λ cc, is_hub total cc = false) confs → hub' = hub.
Proof.
  induction 1 as [|? ? ? ? ? ? Hc _ IH]; [done|]. intros [Hh Hf]%Forall_cons. rewrite Hh in IH. auto.
Qed.

(** A hub is found when there is one. *)
Lemma built_hub_some conf n total prov hub confs cs hub' :
  built conf n total prov hub confs cs hub' →
  (is_Some hub ∨ Exists (λ cc, is_hub total cc = true) confs) ↔ is_Some hub'.
Proof.
  induction 1 as [hub|hub hub' cc confs c cs Hc _ IH].
  - rewrite Exists_nil. tauto.
  - rewrite Exists_cons, <- IH. destruct (is_hub total cc).
    + split; intros _; [left; by eexists|right; by left].
    + split; [intros [?|[?|?]]; [by left|done|by right]|intros [?|?]; [by left|by right; right]].
Qed.

(** The hub is the cluster of a configuration that counts as one. *)
Lemma built_hub_from conf n total prov hub confs cs hub' :
  built conf n total prov hub confs cs hub' →
  hub' = hub ∨ ∃ c, hub' = Some c ∧ c ∈ cs ∧ is_hub total (c_conf c) = true.
Proof.
  induction 1 as [|hub hub' cc confs c cs Hc _ IH]; [by left|].
  destruct IH as [->|(c' & -> & Hin & Hh)].
  - destruct (is_hub total cc) eqn:Hh; [right|by left].
    exists c. split; [done|]. split; [by left|]. by rewrite (new_in_env_some _ _ _ _ _ _ Hc).
  - right. exists c'. split; [done|]. split; [by right|done].
Qed.

(** Clusters built after the hub of a multi environment use its zones. *)
Lemma built_zones conf n total prov h confs cs hub' :
  built conf n total prov (Some h) confs cs hub' →
  Forall (λ cc, is_hub total cc = false) confs →
  ∀ cc, cc ∈ confs → Type_ (H0 := env_view conf n (Some h) prov ∅) (new_cluster cc) = ClusterTypeClusterMulti →
    ∀ z, z ∈ zones_of cc → z ∈ zones_of (c_conf h).
Proof.
  remember (Some h) as hub eqn:Hhub. intros Hb. revert Hhub.
  induction Hb as [|hub hub' cc confs c cs Hc _ IH]; intros -> Hf cc' Hin; [by apply elem_of_nil in Hin|].
  apply Forall_cons in Hf as [Hh Hf]. rewrite Hh in IH.
  apply elem_of_cons in Hin as [->|Hin]; [|by apply IH].
  intros Ht z Hz. apply NewFromConfig_ok in Hc as ((net & Hv & _) & _).
  exact (po_subnets _ (vc_pools _ _ _ _ Hv) (c_conf h) Ht eq_refl z Hz).
Qed.
End lemmas.

(** ** Properties *)
Section properties.
Context `{MapRange}.
Context {V : Type} (NewVersion : string → V + string) (LessThan : V → V → bool).
Context (fmt_float : spec_float → string).
Context {bytes : Type}.
Implicit Types (st : State bytes).

Lemma environment_inv st conf confs e :
  NewFromConfig NewVersion LessThan fmt_float st conf confs = Ret (inl e) →
  ∃ configured, Clusters st (env_Name conf) = Ret configured ∧ e_conf e = conf ∧
    providerByName st (env_Provider conf) = Ret (inl (e_provider e)) ∧
    built NewVersion LessThan fmt_float conf (length configured) (length confs) (e_provider e) None confs
      (e_clusters e) (e_hub e).
Proof.
  unfold NewFromConfig. destruct (providerByName st _) as [[prov|]|]; simpl; [|done..].
  destruct (Clusters st _) as [configured|]; simpl; [|done].
  destruct (build_clusters _ _ _ _ _ _ _ _ _ _ _) as [[[cs hub] [err|]]|] eqn:Hb; simpl; [done| |done].
  intros [= <-]. simpl. apply build_clusters_ok in Hb as (new & -> & Hb). by exists configured.
Qed.

Lemma providerByName_amazon st name prov :
  providerByName st name = Ret (inl prov) → is_Some (pr_Amazon (Amazon.conf prov)).
Proof.
  unfold providerByName, provider_NewFromConfig.
  destruct (find_Provider st name) as [[conf|]|]; simpl; [|done..].
  destruct (pr_Amazon conf) eqn:Ha; [|done]. intros [= <-]. simpl. by rewrite Ha.
Qed.

Lemma environmentByName_inv st name e :
  environmentByName NewVersion LessThan fmt_float st name = Ret (inl e) →
  ∃ confs, find_Environment st name = Ret (inl (e_conf e)) ∧ Clusters st name = Ret confs ∧
    NewFromConfig NewVersion LessThan fmt_float st (e_conf e) confs = Ret (inl e).
Proof.
  unfold environmentByName. destruct (find_Environment st name) as [[conf|]|]; simpl; [|done..].
  destruct (Clusters st name) as [confs|]; simpl; [|done].
  destruct (NewFromConfig _ _ _ st conf confs) as [[e'|]|] eqn:Hn; simpl; [|done..].
  intros [= <-]. destruct (environment_inv _ _ _ _ Hn) as (_ & _ & -> & _). by exists confs.
Qed.

Lemma find_Environment_name st name conf :
  find_Environment st name = Ret (inl conf) → env_Name conf = name.
Proof.
  unfold find_Environment. destruct (Config.conf st) as [c|]; simpl; [|done].
  destruct (list_find _ _) as [[i e]|] eqn:Hf; [|done]. intros [= <-].
  by apply list_find_Some in Hf as (_ & ? & _).
Qed.

Definition hub_configured (confs : list Cluster) : Prop :=
  length confs = 1 ∨ ∃ cc, cc ∈ confs ∧ cl_Name cc = "hub".

Lemma hub_configured_Exists confs :
  Exists (λ cc, is_hub (length confs) cc = true) confs ↔ hub_configured confs.
Proof.
  unfold hub_configured, is_hub. rewrite Exists_exists. split.
  - intros (cc & Hin & [Hl|Hn]%orb_true_iff); go_bool; [by left|right; by exists cc].
  - intros [Hl|(cc & Hin & Hn)].
    + destruct confs as [|cc confs]; [done|]. exists cc. split; [by left|]. by rewrite bool_decide_true.
    + exists cc. split; [done|]. apply orb_true_iff. right. by apply bool_decide_true.
Qed.


(** The Terraform variables of an environment found by name can be built
    exactly when the environment has a hub (a single cluster or one called
    [hub]), and then name the hub as the home of state, tools and Vault;
    otherwise the program panics. *)
Theorem environment_Variables st name e confs key_name location subnets bucket :
  environmentByName NewVersion LessThan fmt_float st name = Ret (inl e) → Clusters st name = Ret confs →
  match Variables key_name location subnets bucket e with
  | Ret (e', vars) => ∃ h, hub_configured confs ∧ e_hub e = Some h ∧
      vars !! "state_cluster_name" = Some (VStr (c_Name h)) ∧
      vars !! "vault_cluster_name" = Some (VStr (c_Name h)) ∧
      vars !! "state_bucket" = Some (VStr bucket) ∧ vars !! "environment" = Some (VStr name)
  | Panic => ¬ hub_configured confs
  end.
Proof.
  intros (confs' & Hf & Hcl & Hn)%environmentByName_inv Hcl'. rewrite Hcl in Hcl'. injection Hcl' as ->.
  destruct (environment_inv _ _ _ _ Hn) as (configured & _ & _ & Hp & Hb).
  apply find_Environment_name in Hf.
  pose proof (built_hub_some _ _ _ _ _ _ _ _ _ _ _ Hb) as Hs. rewrite hub_configured_Exists in Hs.
  apply providerByName_amazon in Hp as [am Ham].
  unfold Variables, Amazon.Variables. rewrite Ham. cbn [deref mbind GoM_bind].
  destruct (Amazon.AvailabilityZones subnets (e_provider e)) as [prov zones]. simpl.
  destruct (e_hub e) as [h|]; simpl.
  - exists h. split; [destruct (proj2 Hs) as [[? ?]|?]; [by eexists|done|done]|].
    split; [done|]. rewrite assign_all_union.
    split_and!; repeat first [rewrite lookup_insert_eq; done|rewrite lookup_insert_ne by done].
    rewrite lookup_union_r.
    + unfold e_Name. rewrite Hf.
      repeat case_decide; repeat (rewrite lookup_insert_ne by done); by rewrite lookup_insert_eq.
    + destruct (pa_AllowedAccountIDs am); repeat (rewrite lookup_insert_ne by done); done.
  - intros Hh. by destruct (proj1 Hs (or_intror Hh)).
Qed.

(** The cluster a run works on is the one the configuration (or the
    flag) names: environment and cluster name, joined by a dash, are the
    current cluster, the cluster belongs to the environment, and its full name
    is the current cluster again. *)
Theorem initializeConfig_current flags st e c :
  initializeConfig NewVersion LessThan fmt_float flags st = Ret (inl (e, c)) →
  CurrentCluster flags st = inl (e_Name e +:+ "-" +:+ c_Name c) ∧ c ∈ e_clusters e ∧
  environmentByName NewVersion LessThan fmt_float st (e_Name e) = Ret (inl e) ∧
  ∀ n hub vars, ClusterName (H0 := env_view (e_conf e) n hub (e_provider e) vars) c
                = e_Name e +:+ "-" +:+ c_Name c.
Proof.
  unfold initializeConfig, CurrentEnvironmentName, CurrentClusterName.
  destruct (CurrentCluster flags st) as [s|] eqn:Hs; simpl; [|done].
  destruct (CurrentCluster_split _ _ _ Hs) as (a & b & Hsp & ->). rewrite Hsp. simpl.
  destruct (environmentByName _ _ _ st a) as [[e'|]|] eqn:He; simpl; [|done..].
  unfold env_Cluster. destruct (list_find _ _) as [[i c']|] eqn:Hf; simpl; [|done].
  intros [= -> ->]. apply list_find_Some in Hf as (Hi & Hn & _).
  destruct (environmentByName_inv _ _ _ He) as (confs & Hfe & _). apply find_Environment_name in Hfe.
  unfold e_Name. rewrite Hfe, Hn. split; [done|]. split; [by eapply list_elem_of_lookup_2|]. split; [done|].
  intros n hub vars. unfold ClusterName. simpl. by rewrite Hfe, Hn.
Qed.

(** After [cluster init] the current cluster is the new cluster, whatever
    its type and however many environments there are: the hub that is made
    current first, for a multi cluster of the only environment, does not stay
    the current cluster. *)
Theorem CmdClusterInit_current_cluster Encode io_error st e type clusterName st' :
  CmdClusterInit_current NewVersion LessThan fmt_float Encode io_error st e type clusterName
    = Ret (st', None) →
  cf_CurrentCluster <$> Config.conf st' = Some clusterName.
Proof.
  unfold CmdClusterInit_current.
  destruct (if decide _ then _ else _) as [[st1 [err|]]|]; simpl; [done| |done].
  unfold SetCurrentCluster. destruct (Config.conf st1) as [c|]; simpl; [|done].
  rewrite writeYAML_store by done. intros [= Hw].
  pose proof (store_spec Encode io_error {| st1 with Config.conf := Some (with_current clusterName c) |}
                (with_current clusterName c)) as Hc.
  rewrite Hw in Hc. destruct Hc as [-> _]. done.
Qed.
End properties.

(** ** Witnesses *)
Definition in_zone (zone : string) (p : InstancePool) : InstancePool :=
  {| p with ip_Subnets := [{| sn_meta := ObjectMeta_zero; sn_Identifier := ""; sn_CIDR := "";
                             sn_Location := ""; sn_Zone := zone |}] |}.

Definition example_hub : Cluster :=
  let h := NewHub 1 "dev" in {| h with cl_InstancePools := map (in_zone "eu-west-1a") (cl_InstancePools h) |}.

Definition example_multi (zone : string) : Cluster :=
  let c := NewClusterMulti 1 "dev" "cluster" in
  {| c with cl_InstancePools := map (in_zone zone) (cl_InstancePools c) |}.

(** The environment [dev] with the given clusters, [current] being current. *)
Definition example_state (current : string) (confs : list Cluster) : State Config :=
  {| Config.conf := Some {| newConfig with cf_CurrentCluster := current;
       cf_Providers := [NewAmazonProfileProvider "aws" "dev"];
       cf_Environments := [{| (NewEnvironment 1 "dev" "" "") with env_Provider := "aws" |}];
       cf_Clusters := confs |};
     file := None; ops := 0 |}.

Abbreviation example_environment st := (environmentByName (H := range_list) (V := string)
  inl String.ltb (λ _, "") st "dev").

Definition env_ok (r : GoM (EnvT + error)) : bool :=
  match r with Ret (inl _) => true | _ => false end.

Definition hub_and_cluster : State Config :=
  example_state "dev-cluster" [example_hub; example_multi "eu-west-1a"].

Lemma example_environment_ok : ∃ e, example_environment hub_and_cluster = Ret (inl e).
Proof.
  assert (env_ok (example_environment hub_and_cluster) = true) as Hok by (vm_compute; reflexivity).
  destruct (example_environment hub_and_cluster) as [[e|]|]; try discriminate Hok. by exists e.
Qed.


Lemma environment_Variables_witness :
  ∃ e, example_environment hub_and_cluster = Ret (inl e) ∧
    ∀ e' vars, Variables (H := range_list) "key" None [] "bucket" e = Ret (e', vars) →
      vars !! "state_bucket" = Some (VStr "bucket").
Proof.
  destruct example_environment_ok as [e He]. exists e. split; [exact He|]. intros e' vars Hv.
  pose proof (environment_Variables (H := range_list) inl String.ltb (λ _, "") hub_and_cluster "dev" e
    [example_hub; example_multi "eu-west-1a"] "key" None [] "bucket" He) as Hp.
  rewrite Hv in Hp. destruct Hp as (h & _ & _ & _ & _ & Hb & _); [vm_compute; reflexivity|exact Hb].
Defined.

Abbreviation example_run st := (initializeConfig (H := range_list) (V := string)
  inl String.ltb (λ _, "") no_flags st).

Lemma initializeConfig_current_witness :
  ∃ e c, example_run hub_and_cluster = Ret (inl (e, c)) ∧ e_Name e +:+ "-" +:+ c_Name c = "dev-cluster".
Proof.
  assert (match example_run hub_and_cluster with Ret (inl _) => true | _ => false end = true) as Hok
    by (vm_compute; reflexivity).
  destruct (example_run hub_and_cluster) as [[[e c]|]|] eqn:Hr; try discriminate Hok.
  exists e, c. split; [reflexivity|].
  destruct (initializeConfig_current (H := range_list) inl String.ltb (λ _, "") _ _ _ _ Hr) as [Hc _].
  vm_compute in Hc. injection Hc as Hc. symmetry. exact Hc.
Defined.

(** The new cluster is a multi cluster of the only environment. *)
Lemma CmdClusterInit_current_cluster_witness :
  ∃ st', CmdClusterInit_current (H := range_list) (V := string) inl String.ltb (λ _, "") inl (λ _, None)
      hub_and_cluster {| e_conf := NewEnvironment 1 "dev" "" ""; e_clusters := []; e_hub := None;
                         e_provider := new_amazon (NewAmazonProfileProvider "aws" "dev") |}
      ClusterTypeClusterMulti "dev-cluster" = Ret (st', None) ∧
    cf_CurrentCluster <$> Config.conf st' = Some "dev-cluster".
Proof.
  eexists. split; [vm_compute; reflexivity|].
  apply (CmdClusterInit_current_cluster (H := range_list) (V := string) inl String.ltb (λ _, "")
    inl (λ _, None) hub_and_cluster
    {| e_conf := NewEnvironment 1 "dev" "" ""; e_clusters := []; e_hub := None;
       e_provider := new_amazon (NewAmazonProfileProvider "aws" "dev") |} ClusterTypeClusterMulti "dev-cluster").
  vm_compute. reflexivity.
Defined.

(** Whether a cluster's zones are checked against the hub depends on the
    order of the configuration: the same two clusters, one of them using a
    zone the hub does not have, are refused with the hub listed first and
    accepted with the hub listed last. *)
Theorem environment_zone_order :
  let c := example_multi "eu-west-1b" in
  env_ok (example_environment (example_state "dev-cluster" [example_hub; c])) = false ∧
  env_ok (example_environment (example_state "dev-cluster" [c; example_hub])) = true ∧
  "eu-west-1b" ∈ zones_of c ∧ "eu-west-1b" ∉ zones_of example_hub.
Proof.
  split; [vm_compute; reflexivity|]. split; [vm_compute; reflexivity|].
  split; [by apply (bool_decide_unpack _)|by apply (bool_decide_unpack _)].
Qed.
