(* ===== verification/Tagging.v ===== *)
(** * Tagging: SSH host keys of instances, from tags to known hosts

    Instances publish their SSH host keys as EC2 tags.  The tagging control
    function ([src/pkg/tagging_control/tagging_control.go]) verifies a request
    and splits the keys into tags ([createTags]), but never changes tags that
    exist; the command line tool reads them back
    ([src/pkg/tarmak/provider/amazon/hosts.go], [SSHHostPublicKeys]).

    Parameters: the checks of the identity document and of the keys
    ([CheckSignature], [ParseAuthorizedKey], [VerifyKey]) and the outcome of
    the EC2 calls.  Byte slices are lists of [ascii]. *)

From S2P Require Import Prelude Types Net Utils Provider InstancePool.

(** ** The tagging control function *)
Definition tagSize : nat := 255.
Definition tagPrefix : string := "tarmak.io".
Definition EOF : string := "==EOF".

Record TagInstanceRequest {Signature : Type} := {
  PublicKeys : gmap string (list ascii);
  KeySignatures : gmap string Signature;
  InstanceDocumentRaw : string;
  RSASignature : string;
}.
Arguments TagInstanceRequest : clear implicits.

Definition tagName (keyName : string) (i : nat) : string :=
  tagPrefix +:+ "/" +:+ keyName +:+ "-" +:+ fmt_d (Z.of_nat i).

(** [for i := 0; i < len(data); i += tagSize], with fuel for the rounds. *)
Fixpoint add_chunks (fuel : nat) (keyName : string) (data : list ascii) (i : nat)
    (tags : gmap string string) : gmap string string :=
  match fuel with
  | O => tags
  | S fuel' =>
      if decide (i < length data) then
        let end_ := if decide (length data < i + tagSize) then length data else i + tagSize in
        add_chunks fuel' keyName data (i + tagSize)
          (<[tagName keyName (i / tagSize) := string_of (take (end_ - i) (drop i data))]> tags)
      else tags
  end.

Section control.
Context `{MapRange} {Signature Key : Type}.
Abbreviation Request := (TagInstanceRequest Signature).

Definition createTags (request : Request) : gmap string string :=
  foldl (λ tags kv,
    let data := kv.2 ++ bytes_of EOF in
    add_chunks (length data) kv.1 data 0 tags) ∅ (range (PublicKeys request)).

(** [CheckSignature doc sig] is the check of the decoded signature against the
    AWS certificate; [ParseAuthorizedKey] returns the key and what follows it. *)
Context (CheckSignature : string → string → option error).
Context (ParseAuthorizedKey : list ascii → (Key * list ascii) + error).
Context (VerifyKey : Key → string → Signature → option error).

Fixpoint verify_keys (request : Request) (keys : list (string * list ascii)) : option error :=
  match keys with
  | [] => None
  | (k, v) :: keys' =>
      match ParseAuthorizedKey v with
      | inr err => Some (Errorf ("failed to parse public key: " +:+ error_string err))
      | inl (pk, rest) =>
          if negb (bool_decide (rest = [])) then
            Some (Errorf ("got rest parsing public key: " +:+ string_of rest))
          else match KeySignatures request !! k with
               | None => Some (Errorf ("did not receive signature for public key " +:+ k))
               | Some sig =>
                   match VerifyKey pk (InstanceDocumentRaw request) sig with
                   | Some err => Some (Errorf ("could not verify public key " +:+ k +:+ ": "
                                               +:+ error_string err))
                   | None => verify_keys request keys'
                   end
               end
      end
  end.

Definition verify (request : Request) : option error :=
  match CheckSignature (InstanceDocumentRaw request) (RSASignature request) with
  | Some err => Some (Errorf ("failed to verify identity document signature against AWS: "
                              +:+ error_string err))
  | None => verify_keys request (range (PublicKeys request))
  end.

Definition mismatch : error := Errorf "mismatch tags, rejected".

(** The loop over the tags of the instance. *)
Fixpoint check_tags (tags : gmap string string) (existing : list (string * string)) (tagsExist : bool)
    : bool * option error :=
  match existing with
  | [] => (tagsExist, None)
  | (k, v) :: existing' =>
      if HasPrefix k tagPrefix then
        match tags !! k with
        | None => (true, Some mismatch)
        | Some value => if decide (v = value) then check_tags tags existing' true else (true, Some mismatch)
        end
      else check_tags tags existing' tagsExist
  end.

(** The tags of all instances, by instance ID. *)
Abbreviation Instances := (gmap string (gmap string string)).
Definition tags_of (instances : Instances) (id : string) : gmap string string :=
  default ∅ (instances !! id).

(** [HandleRequests]: [InstanceID] decodes the identity document, [describe]
    and [create] are the errors of the two EC2 calls. *)
Definition HandleRequests (InstanceID : string → string + error) (describe create : option error)
    (request : Request) (instances : Instances) : Instances * option error :=
  match verify request with
  | Some _ => (instances, Some (Errorf "rejected"))
  | None =>
      match InstanceID (InstanceDocumentRaw request) with
      | inr err => (instances, Some err)
      | inl id =>
          let tags := createTags request in
          match describe with
          | Some err => (instances, Some (Errorf ("failed to list tags of instance " +:+ id +:+ ": "
                                                  +:+ error_string err)))
          | None =>
              match check_tags tags (range (tags_of instances id)) false with
              | (_, Some err) => (instances, Some err)
              | (true, None) => (instances, None)
              | (false, None) =>
                  match create with
                  | Some err => (instances, Some (Errorf ("failed to create tags for instance " +:+ id
                                                          +:+ ": " +:+ error_string err)))
                  | None => (<[id := tags ∪ tags_of instances id]> instances, None)
                  end
              end
          end
      end
  end.
End control.

(** ** Reading the keys back *)

(** [strconv.ParseInt(s, 10, 64)] *)
Fixpoint parse_digits (s : string) (acc : Z) : option Z :=
  match s with
  | EmptyString => Some acc
  | String c s' => d ← digit c; parse_digits s' (acc * 10 + d)%Z
  end.

Definition ParseInt (s : string) : option Z :=
  let '(neg, digits) := match s with
                        | String c s' => if decide (c = "-"%char) then (true, s')
                                         else if decide (c = "+"%char) then (false, s') else (false, s)
                        | EmptyString => (false, s)
                        end in
  if decide (digits = "") then None
  else v ← parse_digits digits 0;
       let v := if neg then (- v)%Z else v in
       if bool_decide (- 2 ^ 63 ≤ v < 2 ^ 63)%Z then Some v else None.

(** Addition on int64. *)
Definition add64 (a b : Z) : Z := ((a + b + 2 ^ 63) mod 2 ^ 64 - 2 ^ 63)%Z.

(** The state of the loop: the keys put together so far, the tags they start
    with and the tag expected next. *)
Record Reader := { hostKeysBase64 : list string; hostKeysTagKeys : list string; nextKey : string }.

(** [hostKeysBase64[len(hostKeysTagKeys)-1] += entry] *)
Definition append_entry (entry : string) (r : Reader) : GoM Reader :=
  let i := (Z.of_nat (length (hostKeysTagKeys r)) - 1)%Z in
  old ← index (hostKeysBase64 r) i;
  mret {| r with hostKeysBase64 := <[Z.to_nat i := old +:+ entry]> (hostKeysBase64 r) |}.

(** The key expected after [key]; [None] when its number does not parse. *)
Definition following (key : string) : option string :=
  let parts := Split "-" key in
  posKey ← ParseInt (List.last parts "");
  Some (Join (removelast parts ++ [fmt_d (add64 posKey 1)]) "-").

(** The rest of a round, once a new key has been started. *)
Definition read_entry (r : Reader) (key entry : string) : GoM Reader :=
  if negb (bool_decide (nextKey r = key)) then mret r
  else if HasSuffix entry EOF then
    entry ← substring entry 0 (Z.of_nat (String.length entry) - (Z.of_nat (String.length EOF) + 1))%Z;
    append_entry entry {| r with nextKey := "" |}
  else match following key with
       | None => mret {| r with nextKey := "" |}
       | Some next => append_entry entry {| r with nextKey := next |}
       end.

(** One round of the loop over the sorted tags. *)
Definition read_tag (r : Reader) (tag : string * string) : GoM Reader :=
  let '(key, entry) := tag in
  if negb (HasPrefix key "tarmak.io/") then mret r
  else
    let r := if HasSuffix key "key-0"
             then {| hostKeysBase64 := hostKeysBase64 r ++ [""];
                     hostKeysTagKeys := hostKeysTagKeys r ++ [key]; nextKey := key |}
             else r in
    read_entry r key entry.

Fixpoint read_tags (r : Reader) (tags : list (string * string)) : GoM Reader :=
  match tags with
  | [] => mret r
  | tag :: tags' => r ← read_tag r tag; read_tags r tags'
  end.

(** [sort.Slice] by key; the tags of an instance have different keys. *)
Definition key_le (t1 t2 : string * string) : Prop := String.le t1.1 t2.1.
#[global] Instance key_le_dec : RelDecision key_le := λ t1 t2, _.
Definition sort_tags (tags : list (string * string)) : list (string * string) := merge_sort key_le tags.

Definition collect_keys (tags : list (string * string)) : GoM Reader :=
  read_tags {| hostKeysBase64 := []; hostKeysTagKeys := []; nextKey := "" |} (sort_tags tags).

(** Keys that do not parse are logged and left out. *)
Definition SSHHostPublicKeys {Key} (parse : string → Key + error) (tags : list (string * string))
    : GoM (list Key) :=
  r ← collect_keys tags;
  mret (omap (λ s, match parse s with inl k => Some k | inr _ => None end) (hostKeysBase64 r)).

(** ** Lemmas: the tags of a key *)
Definition chunk (data : list ascii) (j : nat) : list ascii := take tagSize (drop (tagSize * j) data).

(** Rounds of the loop. *)
Definition nchunks (data : list ascii) : nat := (length data + 254) / 255.

Definition key_tag (name : string) (data : list ascii) (j : nat) : string * string :=
  (tagName name j, string_of (chunk data j)).

Definition key_tags (name : string) (data : list ascii) : list (string * string) :=
  map (key_tag name data) (seq 0 (nchunks data)).

Abbreviation put := (foldl (λ (m : gmap string string) (kv : string * string), <[kv.1 := kv.2]> m)).

Lemma nchunks_le data j : nchunks data ≤ j ↔ length data ≤ tagSize * j.
Proof.
  unfold nchunks, tagSize. pose proof (Nat.div_mod (length data + 254) 255 ltac:(lia)).
  pose proof (Nat.mod_upper_bound (length data + 254) 255 ltac:(lia)). lia.
Qed.

Lemma add_chunks_put fuel name data j tags :
  length data ≤ tagSize * j + fuel →
  add_chunks fuel name data (tagSize * j) tags
    = put tags (map (key_tag name data) (seq j (nchunks data - j))).
Proof.
  revert j tags. induction fuel as [|fuel IH]; intros j tags Hf; cbn [add_chunks].
  - rewrite (proj2 (Nat.sub_0_le _ _)) by (apply nchunks_le; lia). done.
  - case_decide as Hj.
    + assert (¬ nchunks data ≤ j) as Hn by (rewrite nchunks_le; lia).
      destruct (nchunks data - j) as [|n] eqn:En; [lia|]. cbn [seq map foldl].
      replace (tagSize * j + tagSize) with (tagSize * S j) by lia.
      rewrite IH by (unfold tagSize in *; lia). replace (nchunks data - S j) with n by lia. f_equal.
      unfold key_tag. cbn [fst snd]. f_equal.
      * f_equal. rewrite (Nat.mul_comm tagSize j). by apply Nat.div_mul.
      * f_equal. unfold chunk. case_decide as He.
        -- rewrite !take_ge; [done|rewrite length_drop; lia..].
        -- f_equal. lia.
    + rewrite (proj2 (Nat.sub_0_le _ _)) by (apply nchunks_le; lia). done.
Qed.

Lemma createTags_put `{MapRange} {Signature} (request : TagInstanceRequest Signature) :
  createTags request
    = put ∅ (concat (map (λ kv, key_tags kv.1 (kv.2 ++ bytes_of EOF)) (range (PublicKeys request)))).
Proof.
  unfold createTags. generalize (∅ : gmap string string).
  induction (range (PublicKeys request)) as [|[n d] l IH]; intros tags; [done|].
  cbn [foldl map concat fst snd]. rewrite IH, foldl_app. f_equal.
  pose proof (add_chunks_put (length (d ++ bytes_of EOF)) n (d ++ bytes_of EOF) 0 tags) as Hp.
  rewrite Nat.mul_0_r, Nat.sub_0_r in Hp. apply Hp. lia.
Qed.

Lemma put_keys l tags k v : put tags l !! k = Some v → tags !! k = Some v ∨ k ∈ l.*1.
Proof.
  revert tags. induction l as [|[k' v'] l IH]; intros tags; simpl; [by left|].
  intros [Hk|Hk]%IH; [|right; by right].
  destruct (decide (k = k')) as [->|Hne]; [right; by left|]. rewrite lookup_insert_ne in Hk by done. by left.
Qed.

Lemma put_NoDup l : NoDup l.*1 → put ∅ l = list_to_map l.
Proof.
  intros Hl. apply map_eq. intros k. rewrite foldl_insert by done.
  by destruct (_ !! k); rewrite ?lookup_empty.
Qed.

Lemma createTags_prefix `{MapRange} {Signature} (request : TagInstanceRequest Signature) k v :
  createTags request !! k = Some v → HasPrefix k tagPrefix = true.
Proof.
  rewrite createTags_put. intros [Hk|Hk]%put_keys; [by rewrite lookup_empty in Hk|].
  apply list_elem_of_fmap in Hk as ([k' v'] & -> & Hk).
  apply list_elem_of_In, in_concat in Hk as (tags & Ht & Hk).
  apply in_map_iff in Ht as ([n d] & <- & _). apply in_map_iff in Hk as (j & [= <- <-] & _).
  apply HasPrefix_spec. by eexists.
Qed.

(** ** Requests *)
Section requests.
Context `{MapRange} {Signature Key : Type}.
Context (CheckSignature : string → string → option error).
Context (ParseAuthorizedKey : list ascii → (Key * list ascii) + error).
Context (VerifyKey : Key → string → Signature → option error).
Context (InstanceID : string → string + error).
Abbreviation Request := (TagInstanceRequest Signature).
Abbreviation Instances := (gmap string (gmap string string)).

(** A request signed by AWS for the instance, each key with a signature by
    the key itself. *)
Definition verified (request : Request) (id : string) : Prop :=
  CheckSignature (InstanceDocumentRaw request) (RSASignature request) = None ∧
  InstanceID (InstanceDocumentRaw request) = inl id ∧
  ∀ k v, PublicKeys request !! k = Some v → ∃ pk sig,
    ParseAuthorizedKey v = inl (pk, []) ∧ KeySignatures request !! k = Some sig ∧
    VerifyKey pk (InstanceDocumentRaw request) sig = None.

Definition no_key_tags (tags : gmap string string) : Prop :=
  ∀ k v, tags !! k = Some v → HasPrefix k tagPrefix = false.

Lemma verify_keys_None request keys :
  verify_keys ParseAuthorizedKey VerifyKey request keys = None →
  ∀ k v, (k, v) ∈ keys → ∃ pk sig,
    ParseAuthorizedKey v = inl (pk, []) ∧ KeySignatures request !! k = Some sig ∧
    VerifyKey pk (InstanceDocumentRaw request) sig = None.
Proof.
  induction keys as [|[k0 v0] keys IH]; simpl; [intros _ k v Hin; by apply elem_of_nil in Hin|].
  destruct (ParseAuthorizedKey v0) as [[pk rest]|] eqn:Hp; [|done].
  destruct (bool_decide (rest = [])) eqn:Hr; simpl; [|done]. apply bool_decide_eq_true in Hr as ->.
  destruct (KeySignatures request !! k0) as [sig|] eqn:Hs; [|done].
  destruct (VerifyKey pk _ sig) eqn:Hv; [done|]. intros Hk k v [[= -> ->]|Hin]%elem_of_cons; [|by apply IH].
  by exists pk, sig.
Qed.

Lemma check_tags_exists tags existing b :
  check_tags tags existing b = (false, None) →
  b = false ∧ ∀ k v, (k, v) ∈ existing → HasPrefix k tagPrefix = false.
Proof.
  revert b. induction existing as [|[k0 v0] existing IH]; intros b; simpl.
  - intros [= ->]. split; [done|]. intros k v Hin. by apply elem_of_nil in Hin.
  - destruct (HasPrefix k0 tagPrefix) eqn:Hp.
    + destruct (tags !! k0); [|done]. case_decide; [|done]. by intros [? _]%IH.
    + intros [-> Hall]%IH. split; [done|]. intros k v [[= -> ->]|Hin]%elem_of_cons; [done|]. by eapply Hall.
Qed.

Abbreviation handle := (HandleRequests CheckSignature ParseAuthorizedKey VerifyKey InstanceID).

(** A request leaves an instance alone or adds its tags to one that has no
    key tags yet. *)
Lemma HandleRequests_step describe create request (instances : Instances) id :
  let '(instances', err) := handle describe create request instances in
  tags_of instances' id = tags_of instances id ∨
  (err = None ∧ verified request id ∧ no_key_tags (tags_of instances id) ∧
   tags_of instances' id = createTags request ∪ tags_of instances id).
Proof.
  unfold HandleRequests, verify.
  destruct (CheckSignature _ _) eqn:Hc; [by left|].
  destruct (verify_keys _ _ _ _) eqn:Hv; [by left|].
  destruct (InstanceID _) as [id'|] eqn:Hi; [|by left].
  destruct describe; [by left|].
  destruct (check_tags _ _ _) as [[|] [e|]] eqn:Ht; [by left..|].
  destruct create; [by left|].
  destruct (decide (id = id')) as [->|Hne].
  - right. split; [done|]. split.
    + split; [done|]. split; [done|]. intros k v Hk. apply (verify_keys_None _ _ Hv). by apply range_elem.
    + apply check_tags_exists in Ht as [_ Hall]. split.
      * intros k v Hk. apply (Hall k v). by apply range_elem.
      * unfold tags_of at 1. by rewrite lookup_insert_eq.
  - left. unfold tags_of. by rewrite lookup_insert_ne.
Qed.

Lemma verify_keys_ok request keys :
  (∀ k v, (k, v) ∈ keys → ∃ pk sig,
    ParseAuthorizedKey v = inl (pk, []) ∧ KeySignatures request !! k = Some sig ∧
    VerifyKey pk (InstanceDocumentRaw request) sig = None) →
  verify_keys ParseAuthorizedKey VerifyKey request keys = None.
Proof.
  induction keys as [|[k v] keys IH]; intros Hk; [done|]. cbn [verify_keys].
  destruct (Hk k v) as (pk & sig & -> & -> & ->); [by left|]. rewrite bool_decide_true by done.
  apply IH. intros k' v' Hin. apply Hk. by right.
Qed.

Lemma check_tags_matching tags existing b :
  (∀ k v, (k, v) ∈ existing → HasPrefix k tagPrefix = true → tags !! k = Some v) →
  check_tags tags existing b = (b || existsb (λ t, HasPrefix t.1 tagPrefix) existing, None).
Proof.
  revert b. induction existing as [|[k v] existing IH]; intros b He; cbn [check_tags existsb fst].
  { by rewrite orb_false_r. }
  assert (∀ k v, (k, v) ∈ existing → HasPrefix k tagPrefix = true → tags !! k = Some v) as He'.
  { intros k' v' Hin. apply He. by right. }
  destruct (HasPrefix k tagPrefix) eqn:Hp; [|by rewrite IH].
  rewrite (He k v) by (done || by left). rewrite decide_True, IH by done. by rewrite orb_true_r.
Qed.

(** A verified request for an instance without keys is carried out. *)
Lemma HandleRequests_publishes request (instances : Instances) id :
  verified request id → no_key_tags (tags_of instances id) →
  handle None None request instances = (<[id := createTags request ∪ tags_of instances id]> instances, None).
Proof.
  intros (Hc & Hi & Hk) Hno. unfold HandleRequests, verify. rewrite Hc, verify_keys_ok.
  2:{ intros k v Hin%range_elem. by apply Hk. }
  assert (∀ k v, (k, v) ∈ range (tags_of instances id) → HasPrefix k tagPrefix = false) as Hr.
  { intros k v Hin%range_elem. by apply (Hno k v). }
  rewrite Hi, check_tags_matching by (intros k v Hin Hp; rewrite (Hr k v Hin) in Hp; done).
  destruct (existsb _ _) eqn:He; [|done]. apply existsb_exists in He as ([k v] & Hin%list_elem_of_In & Hp).
  cbn [fst] in Hp. by rewrite (Hr k v Hin) in Hp.
Qed.

(** Where these very keys are published already, nothing changes. *)
Lemma HandleRequests_again request (instances : Instances) id old :
  verified request id → no_key_tags old → instances !! id = Some (createTags request ∪ old) →
  handle None None request instances = (instances, None).
Proof.
  intros (Hc & Hi & Hk) Hno Hid. unfold HandleRequests, verify. rewrite Hc, verify_keys_ok.
  2:{ intros k v Hin%range_elem. by apply Hk. }
  unfold tags_of. rewrite Hi, Hid. cbn [default].
  rewrite check_tags_matching.
  2:{ intros k v Hin%range_elem Hp. apply lookup_union_Some_raw in Hin as [Hin|[_ Hin]]; [done|].
      by rewrite (Hno k v Hin) in Hp. }
  destruct (existsb _ _); [done|]. cbn. f_equal. apply insert_id. rewrite Hid. f_equal.
  by rewrite (assoc_L (∪)), (idemp_L (∪)).
Qed.

(** A sequence of requests, each with the outcome of its EC2 calls. *)
Definition handle_all (requests : list (Request * (option error * option error)))
    (instances : Instances) : Instances :=
  foldl (λ i r, (handle r.2.1 r.2.2 r.1 i).1) instances requests.

(** C11: the keys of an instance are bound once: whatever sequence of requests
    reaches the tagging function, the tags of an instance end up unchanged or
    are its former ones, without any key, and the tags of a single request,
    which AWS signed for this very instance and in which each key is vouched
    for by its own signature.  In particular keys that are published are
    never replaced. *)
Theorem handle_all_bind_once requests instances id :
  let final := tags_of (handle_all requests instances) id in
  final = tags_of instances id ∨
  (no_key_tags (tags_of instances id) ∧
   ∃ request outcome, (request, outcome) ∈ requests ∧ verified request id ∧
     final = createTags request ∪ tags_of instances id).
Proof.
  revert instances. induction requests as [|[request [d c]] requests IH]; intros instances; [by left|].
  cbn [handle_all foldl fst snd]. pose proof (HandleRequests_step d c request instances id) as Hstep.
  destruct (handle d c request instances) as [instances1 err]. cbn [fst].
  specialize (IH instances1). fold (handle_all requests instances1).
  destruct Hstep as [Heq|(_ & Hv & Hno & Heq)].
  - rewrite Heq in IH. destruct IH as [IH|(Hn & r & o & Hin & ?)]; [by left|].
    right. split; [done|]. exists r, o. split; [by right|done].
  - destruct IH as [IH|(Hn & r & o & Hin & Hr & Hf)]; cbn zeta in *.
    + right. split; [done|]. exists request, (d, c). split; [by left|]. split; [done|]. by rewrite IH.
    + assert (createTags request = ∅) as Hempty.
      { apply map_empty. intros k. destruct (createTags request !! k) as [v|] eqn:Hk; [|done].
        pose proof (createTags_prefix _ _ _ Hk) as Hp. specialize (Hn k v).
        rewrite Heq, (lookup_union_Some_l _ _ _ _ Hk) in Hn. rewrite Hn in Hp; done. }
      right. split; [done|]. exists r, o. split; [by right|]. split; [done|].
      rewrite Hf, Heq, Hempty. f_equal. apply map_empty_union.
Qed.
End requests.

(** ** Lemmas: reading one key *)

(** Keys that are split sensibly: the name of a key file, the text without
    the end marker in it, and a length for which the marker is in the last of
    at most ten tags. *)
Record taggable (name : string) (data : list ascii) : Prop := {
  rd_name : HasSuffix name "key" = true;
  rd_eof : ∀ p s, data ≠ p ++ bytes_of EOF ++ s;
  rd_last : length data mod 255 ≤ 250;
  rd_size : length data ≤ 2545;
}.

(** Keys that survive the trip: the byte before the marker is in the last tag
    as well. *)
Definition readable (name : string) (data : list ascii) : Prop :=
  taggable name data ∧ length data mod 255 ≠ 0.

Lemma single_digit (P : nat → Prop) j : Forall P (seq 0 10) → j < 10 → P j.
Proof. intros Hf Hj. refine (proj1 (Forall_forall _ _) Hf j _). apply elem_of_seq. lia. Qed.

(** The number of a tag is one digit, "0" only for the first. *)
Lemma fmt_digit j : j < 10 → ∃ c, fmt_d (Z.of_nat j) = String c "" ∧ (c = "0"%char → j = 0) ∧
  has_byte "-" (String c "") = false ∧ ParseInt (fmt_d (Z.of_nat j)) = Some (Z.of_nat j).
Proof.
  intros Hj. pattern j. refine (single_digit _ j _ Hj).
  repeat (apply Forall_cons; split;
    [eexists; split; [reflexivity|]; split; [done|]; split; vm_compute; reflexivity|]). constructor.
Qed.

Lemma add64_small j : j < 10 → add64 (Z.of_nat j) 1 = Z.of_nat (S j).
Proof. intros Hj. unfold add64. rewrite Z.mod_small by lia. lia. Qed.

Lemma tagName_assoc n j : tagName n j = ("tarmak.io/" +:+ n) +:+ String "-" (fmt_d (Z.of_nat j)).
Proof. unfold tagName, tagPrefix. by rewrite !string_app_assoc. Qed.

Lemma tagName_prefix n j : HasPrefix (tagName n j) "tarmak.io/" = true.
Proof. apply HasPrefix_spec. eexists. by rewrite tagName_assoc, string_app_assoc. Qed.

Lemma tagName_first n : HasSuffix n "key" = true → HasSuffix (tagName n 0) "key-0" = true.
Proof.
  intros [t ->]%HasSuffix_spec. apply HasSuffix_spec. exists ("tarmak.io/" +:+ t).
  rewrite tagName_assoc. by rewrite !string_app_assoc.
Qed.

Lemma tagName_later n j : 0 < j < 10 → HasSuffix (tagName n j) "key-0" = false.
Proof.
  intros [H0 Hj]. destruct (HasSuffix _ _) eqn:Hs; [|done]. apply HasSuffix_spec in Hs as [t Ht].
  destruct (fmt_digit j Hj) as (c & Hc & Hz & _). rewrite tagName_assoc, Hc in Ht.
  revert Ht. generalize ("tarmak.io/" +:+ n). intros q Ht.
  apply (f_equal bytes_of) in Ht. rewrite !bytes_of_app in Ht. simpl in Ht.
  change ["k"; "e"; "y"; "-"; "0"]%char with (["k"; "e"; "y"; "-"] ++ ["0"])%char in Ht.
  change ["-"%char; c] with (["-"%char] ++ [c]) in Ht. rewrite !app_assoc in Ht.
  apply app_inj_tail in Ht as [_ ->]. specialize (Hz eq_refl). lia.
Qed.

Lemma tagName_following n j : j < 10 → following (tagName n j) = Some (tagName n (S j)).
Proof.
  intros Hj. destruct (fmt_digit j Hj) as (c & Hc & _ & Hd & Hp). unfold following.
  rewrite !tagName_assoc. generalize ("tarmak.io/" +:+ n). intros q.
  rewrite Hc, Split_snoc by done.
  rewrite last_last, removelast_last, <- Hc, Hp. simpl. f_equal.
  rewrite add64_small by done. rewrite Join_snoc by apply Split_not_nil.
  change "-" with (String "-" "") at 2. by rewrite Join_Split.
Qed.

(** *** Chunks *)
Section chunks.
Context (name : string) (data : list ascii) (Hr : taggable name data).
Let full := data ++ bytes_of EOF.
Let m := nchunks full.

Lemma length_full : length full = length data + 5.
Proof. unfold full. by rewrite length_app. Qed.

Lemma chunk_bounds : 1 ≤ m ≤ 10 ∧ m - 1 = length data / 255 ∧ 255 * (m - 1) ≤ length data ∧
  length full ≤ 255 * m.
Proof.
  destruct Hr as [_ _ Hl Hs]. unfold m, nchunks. rewrite length_full.
  pose proof (Nat.div_mod (length data) 255 ltac:(lia)) as Hd.
  pose proof (Nat.mod_upper_bound (length data) 255 ltac:(lia)).
  assert ((length data + 5 + 254) / 255 = length data / 255 + 1) as ->; [|lia].
  symmetry. apply (Nat.div_unique _ _ _ (length data mod 255 + 4)); lia.
Qed.

Lemma chunk_inner j : j < m - 1 →
  HasSuffix (string_of (chunk full j)) EOF = false ∧
  take (tagSize * S j) full = take (tagSize * j) full ++ chunk full j.
Proof.
  intros Hj. destruct chunk_bounds as (_ & _ & Hb & _). split.
  - destruct (HasSuffix _ _) eqn:Hs; [|done]. exfalso. apply HasSuffix_spec in Hs as [t Ht].
    assert (chunk full j = bytes_of t ++ bytes_of EOF) as Hc.
    { rewrite <- bytes_of_app, <- Ht. by rewrite String.list_ascii_of_string_of_list_ascii. }
    assert (chunk full j = take tagSize (drop (tagSize * j) data)) as Hin.
    { unfold chunk, full. rewrite drop_app_le by (unfold tagSize; lia).
      rewrite take_app_le; [done|]. rewrite length_drop. unfold tagSize. lia. }
    apply (rd_eof _ _ Hr (take (tagSize * j) data ++ bytes_of t) (drop tagSize (drop (tagSize * j) data))).
    rewrite <- (take_drop (tagSize * j) data) at 1. rewrite <- app_assoc. f_equal.
    rewrite <- (take_drop tagSize (drop (tagSize * j) data)) at 1. rewrite <- Hin, Hc. by rewrite <- app_assoc.
  - unfold chunk. rewrite take_take_drop. f_equal. lia.
Qed.

Lemma chunk_last : length data mod 255 ≠ 0 → ∃ x,
  chunk full (m - 1) = drop (tagSize * (m - 1)) (removelast data) ++ [x] ++ bytes_of EOF ∧
  removelast data = take (tagSize * (m - 1)) full ++ drop (tagSize * (m - 1)) (removelast data).
Proof.
  intros Hnz. destruct chunk_bounds as (? & Hdiv & Hb & Hf). rewrite length_full in Hf.
  pose proof (Nat.div_mod (length data) 255 ltac:(lia)) as Hdm. rewrite <- Hdiv in Hdm.
  destruct (exists_last (l := data)) as (d & x & Hd); [intros Hn; apply Hnz; by rewrite Hn|].
  exists x. unfold chunk, full. rewrite Hd, removelast_last.
  assert (length data = length d + 1) as Hl by (rewrite Hd, length_app; done).
  rewrite <- !app_assoc. rewrite drop_app_le by (unfold tagSize; lia). split.
  - rewrite take_ge; [done|]. rewrite !length_app, length_drop. simpl. unfold tagSize. lia.
  - rewrite take_app_le by (unfold tagSize; lia). by rewrite take_drop.
Qed.

(** With a multiple of the tag size the last tag is the marker alone. *)
Lemma chunk_marker : length data mod 255 = 0 → chunk full (m - 1) = bytes_of EOF.
Proof.
  intros Hz. destruct chunk_bounds as (_ & Hdiv & _).
  pose proof (Nat.div_mod (length data) 255 ltac:(lia)) as Hdm. rewrite <- Hdiv in Hdm.
  unfold chunk, full. replace (tagSize * (m - 1)) with (length data) by (unfold tagSize; lia).
  by rewrite drop_app_length.
Qed.
End chunks.

(** *** The loop *)

Lemma read_tag_prefixed r key entry :
  HasPrefix key "tarmak.io/" = true →
  read_tag r (key, entry) =
    read_entry (if HasSuffix key "key-0"
                then {| hostKeysBase64 := hostKeysBase64 r ++ [""];
                        hostKeysTagKeys := hostKeysTagKeys r ++ [key]; nextKey := key |}
                else r) key entry.
Proof. intros Hp. unfold read_tag. by rewrite Hp. Qed.

Lemma read_tags_app r l1 l2 : read_tags r (l1 ++ l2) = (r ← read_tags r l1; read_tags r l2).
Proof.
  revert r. induction l1 as [|t l1 IH]; intros r; simpl; [done|].
  destruct (read_tag r t); simpl; [apply IH|done].
Qed.

Lemma append_entry_last K T s t next e :
  length K = length T →
  append_entry e {| hostKeysBase64 := K ++ [s]; hostKeysTagKeys := T ++ [t]; nextKey := next |}
  = Ret {| hostKeysBase64 := K ++ [s +:+ e]; hostKeysTagKeys := T ++ [t]; nextKey := next |}.
Proof.
  intros Hl. unfold append_entry. simpl. rewrite length_app. simpl.
  replace (Z.of_nat (length T + 1) - 1)%Z with (Z.of_nat (length K)) by lia. unfold index.
  destruct (Z.ltb_spec (Z.of_nat (length K)) 0); [lia|]. rewrite Nat2Z.id, list_lookup_middle by done.
  simpl. by rewrite insert_app_r_alt, Nat.sub_diag by lia.
Qed.

Section read_key.
Context (name : string) (data : list ascii) (Hr : taggable name data).
Let full := data ++ bytes_of EOF.
Let m := nchunks full.
Context (K T : list string) (HKT : length K = length T).

(** What has been read before tag [j]. *)
Definition before (j : nat) : Reader :=
  {| hostKeysBase64 := K ++ [string_of (take (tagSize * j) full)];
     hostKeysTagKeys := T ++ [tagName name 0]; nextKey := tagName name j |}.

Definition after_key : Reader :=
  {| hostKeysBase64 := K ++ [string_of (removelast data)];
     hostKeysTagKeys := T ++ [tagName name 0]; nextKey := "" |}.

Lemma read_entry_inner j : j < m - 1 →
  read_entry (before j) (tagName name j) (string_of (chunk full j)) = Ret (before (S j)).
Proof.
  intros Hj. destruct (chunk_bounds name data Hr) as (Hm & _).
  destruct (chunk_inner name data Hr j Hj) as [Hs Ht].
  unfold read_entry. rewrite bool_decide_true by done. cbn [negb]. fold full in Hs, Ht. rewrite Hs.
  rewrite tagName_following by (fold full m in Hm; lia).
  unfold before. cbn [hostKeysBase64 hostKeysTagKeys nextKey]. rewrite append_entry_last by done.
  by rewrite <- string_of_app, <- Ht.
Qed.

Lemma read_entry_last : length data mod 255 ≠ 0 →
  read_entry (before (m - 1)) (tagName name (m - 1)) (string_of (chunk full (m - 1))) = Ret after_key.
Proof.
  intros Hnz. destruct (chunk_last name data Hr Hnz) as (x & Hc & Hd). fold full m in Hc, Hd.
  unfold read_entry. rewrite bool_decide_true by done. cbn [negb].
  set (d := drop (tagSize * (m - 1)) (removelast data)) in *. rewrite Hc, !string_of_app.
  rewrite String.string_of_list_ascii_of_string.
  rewrite (proj2 (HasSuffix_spec _ _)) by (exists (string_of d +:+ string_of [x]); by rewrite string_app_assoc).
  assert (∀ t, String.length t = 6 →
    substring (string_of d +:+ t) 0 (Z.of_nat (String.length (string_of d +:+ t)) - (Z.of_nat (String.length EOF) + 1))
    = Ret (string_of d)) as Hsub.
  { intros t Ht. rewrite string_app_length, Ht. unfold substring.
    replace (Z.of_nat (String.length (string_of d) + 6) - (Z.of_nat (String.length EOF) + 1))%Z
      with (Z.of_nat (String.length (string_of d))) by (simpl; lia).
  rewrite !(proj2 (Z.leb_le _ _)); [|rewrite ?string_app_length; lia..]. simpl.
  rewrite Z.sub_0_r, Nat2Z.id. by rewrite substring_app. }
  rewrite Hsub by done. cbn [mbind GoM_bind]. unfold before. cbn [hostKeysBase64 hostKeysTagKeys nextKey].
  rewrite append_entry_last by done.
  rewrite <- string_of_app, <- Hd. done.
Qed.

Lemma read_entry_marker : length data mod 255 = 0 →
  read_entry (before (m - 1)) (tagName name (m - 1)) (string_of (chunk full (m - 1))) = Panic.
Proof.
  intros Hz. pose proof (chunk_marker name data Hr Hz) as Hm. fold full m in Hm.
  unfold read_entry. rewrite bool_decide_true by done. cbn [negb]. by rewrite Hm.
Qed.

(** The outcome of the last tag is the outcome of the key. *)
Abbreviation last_entry :=
  (read_entry (before (m - 1)) (tagName name (m - 1)) (string_of (chunk full (m - 1)))).

Lemma bind_nil res : (r ← res; read_tags r []) = res.
Proof. by destruct res. Qed.

Lemma read_from n j : j + S n = m → 1 ≤ j →
  read_tags (before j) (map (key_tag name full) (seq j (S n))) = last_entry.
Proof.
  destruct (chunk_bounds name data Hr) as (Hm & _). fold full m in Hm.
  revert j. induction n as [|n IH]; intros j Hj H1; cbn [seq map read_tags];
    change (key_tag name full j) with (tagName name j, string_of (chunk full j));
    rewrite read_tag_prefixed by apply tagName_prefix; rewrite tagName_later by lia.
  - replace j with (m - 1) by lia. apply bind_nil.
  - rewrite read_entry_inner by lia. cbn [mbind GoM_bind]. apply (IH (S j)); lia.
Qed.

Lemma read_key next :
  read_tags {| hostKeysBase64 := K; hostKeysTagKeys := T; nextKey := next |} (key_tags name full) = last_entry.
Proof.
  destruct (chunk_bounds name data Hr) as (Hm & _). fold full m in Hm.
  unfold key_tags. fold m. destruct m as [|n] eqn:En; [lia|]. cbn [seq map read_tags].
  change (key_tag name full 0) with (tagName name 0, string_of (chunk full 0)).
  rewrite read_tag_prefixed by apply tagName_prefix. rewrite tagName_first by apply Hr.
  cbn [hostKeysBase64 hostKeysTagKeys].
  change {| hostKeysBase64 := K ++ [""]; hostKeysTagKeys := T ++ [tagName name 0]; nextKey := tagName name 0 |}
    with (before 0). rewrite <- En.
  destruct n as [|n].
  - replace (m - 1) with 0 by lia. apply bind_nil.
  - rewrite read_entry_inner by lia. cbn [mbind GoM_bind]. apply read_from; lia.
Qed.
End read_key.

(** ** Lemmas: all keys, sorted *)
Abbreviation entries_tags es :=
  (concat (map (λ kv : string * list ascii, key_tags kv.1 (kv.2 ++ bytes_of EOF)) es)).

Lemma entries_tags_perm es1 es2 : es1 ≡ₚ es2 → entries_tags es1 ≡ₚ entries_tags es2.
Proof. intros Hp. rewrite <- !flat_map_concat_map. by apply Permutation_flat_map. Qed.

Lemma read_tags_filter r l :
  read_tags r l = read_tags r (filter (λ t, HasPrefix t.1 "tarmak.io/" = true) l).
Proof.
  revert r. induction l as [|[k v] l IH]; intros r; [done|]. rewrite filter_cons.
  case_decide as Hp; cbn [read_tags fst] in *.
  - destruct (read_tag r (k, v)); [apply IH|done].
  - unfold read_tag. destruct (HasPrefix k "tarmak.io/"); [done|]. apply IH.
Qed.

Lemma read_keys es K T next :
  Forall (λ kv, readable kv.1 kv.2) es → length K = length T →
  ∃ next', read_tags {| hostKeysBase64 := K; hostKeysTagKeys := T; nextKey := next |} (entries_tags es)
  = Ret {| hostKeysBase64 := K ++ map (λ kv, string_of (removelast kv.2)) es;
           hostKeysTagKeys := T ++ map (λ kv, tagName kv.1 0) es; nextKey := next' |}.
Proof.
  revert K T next. induction es as [|[n d] es IH]; intros K T next Hf Hl; cbn [map concat].
  - exists next. by rewrite !app_nil_r.
  - apply Forall_cons in Hf as [[Hr Hnz] Hf].
    rewrite read_tags_app, (read_key n d Hr), (read_entry_last n d Hr) by done.
    cbn [mbind GoM_bind]. unfold after_key.
    destruct (IH (K ++ [string_of (removelast d)]) (T ++ [tagName n 0]) "" Hf) as [next' ->].
    { rewrite !length_app. simpl. lia. }
    exists next'. by rewrite <- !app_assoc.
Qed.

Lemma read_keys_panic es K T next :
  Forall (λ kv, taggable kv.1 kv.2) es → length K = length T →
  Exists (λ kv, length kv.2 mod 255 = 0) es →
  read_tags {| hostKeysBase64 := K; hostKeysTagKeys := T; nextKey := next |} (entries_tags es) = Panic.
Proof.
  revert K T next. induction es as [|[n d] es IH]; intros K T next Hf Hl He; [by apply Exists_nil in He|].
  cbn [map concat]. apply Forall_cons in Hf as [Hr Hf]. rewrite read_tags_app, (read_key n d Hr) by done.
  destruct (decide (length d mod 255 = 0)) as [Hz|Hnz]; [by rewrite (read_entry_marker n d Hr)|].
  rewrite (read_entry_last n d Hr) by done. cbn [mbind GoM_bind]. unfold after_key.
  apply IH; [done|rewrite !length_app; simpl; lia|]. by apply Exists_cons in He as [?|?].
Qed.

Definition tag_lt (t1 t2 : string * string) : Prop := slt t1.1 t2.1.

(** The tags of a key are in the order of their numbers. *)
Lemma key_tags_sorted n d : taggable n d → StronglySorted tag_lt (key_tags n (d ++ bytes_of EOF)).
Proof.
  intros Hr. destruct (chunk_bounds n d Hr) as (Hm & _). unfold key_tags.
  assert (∀ i j, i < j → j < 10 → slt (tagName n i) (tagName n j)) as Hlt.
  { intros i j Hij Hj. rewrite !tagName_assoc. apply slt_app. unfold slt. simpl. revert i Hij.
    assert (Forall (λ j, Forall (λ i, String.compare (fmt_d (Z.of_nat i)) (fmt_d (Z.of_nat j)) = Lt) (seq 0 j))
              (seq 0 10)) as Hall by (repeat constructor).
    intros i Hij. pose proof (single_digit _ j Hall Hj) as Hf. simpl in Hf.
    refine (proj1 (Forall_forall _ _) Hf i _). apply elem_of_seq. lia. }
  assert (∀ k i, i + k ≤ 10 → StronglySorted tag_lt (map (key_tag n (d ++ bytes_of EOF)) (seq i k))) as Hs;
    [|apply Hs; lia].
  induction k as [|k IH]; intros i Hi; simpl; [constructor|]. constructor; [apply IH; lia|].
  apply Forall_forall. intros t (j & -> & Hj%elem_of_seq)%list_elem_of_fmap. apply Hlt; lia.
Qed.

Lemma entries_sorted es :
  Forall (λ kv, taggable kv.1 kv.2) es →
  StronglySorted (λ e1 e2, ∀ x y, slt (e1.1 +:+ x) (e2.1 +:+ y)) es →
  StronglySorted tag_lt (entries_tags es).
Proof.
  induction es as [|[n d] es IH]; intros Hf Hs; cbn [map concat]; [constructor|].
  apply Forall_cons in Hf as [Hr Hf]. apply StronglySorted_inv in Hs as [Hs Hlt].
  apply StronglySorted_app_2; [|by apply key_tags_sorted|by apply IH].
  intros t1 t2 (i & -> & _)%list_elem_of_fmap Ht2.
  apply list_elem_of_In, in_concat in Ht2 as (l & ([n2 d2] & <- & Hin)%in_map_iff & Ht2).
  apply in_map_iff in Ht2 as (j & <- & _). unfold tag_lt, key_tag. cbn [fst]. rewrite !tagName_assoc.
  rewrite !string_app_assoc. apply slt_app.
  refine (proj1 (Forall_forall _ _) Hlt (n2, d2) _ _ _). by apply list_elem_of_In.
Qed.

Lemma tag_lt_NoDup l : StronglySorted tag_lt l → NoDup l.*1.
Proof.
  induction 1 as [|t l _ IH Hf]; simpl; constructor; [|done].
  intros (t' & Heq & Hin)%list_elem_of_fmap. apply (slt_irrefl (t.1)).
  rewrite Heq at 2. exact (proj1 (Forall_forall _ _) Hf t' Hin).
Qed.

Lemma tag_lt_sorted l : StronglySorted tag_lt l → StronglySorted key_le l.
Proof.
  induction 1 as [|t l _ IH Hf]; constructor; [done|]. eapply Forall_impl; [exact Hf|].
  intros t'. apply slt_le.
Qed.

(** Sorting by keys that differ has one result. *)
Lemma key_sorted_unique l1 l2 :
  StronglySorted key_le l1 → StronglySorted key_le l2 → NoDup l1.*1 → l1 ≡ₚ l2 → l1 = l2.
Proof.
  intros Hs1. revert l2. induction Hs1 as [|t1 l1 Hs1 IH Hf1]; intros l2 Hs2 Hn Hp.
  { by apply Permutation_nil in Hp. }
  destruct Hs2 as [|t2 l2 Hs2 Hf2]; [by apply Permutation_sym, Permutation_nil in Hp|].
  assert (t1 = t2) as ->; [|f_equal; apply IH; [done|by inversion Hn|by apply Permutation_cons_inv in Hp]].
  apply NoDup_cons in Hn as [Hn _].
  assert (t2 ∈ t1 :: l1) as [->|Hin2]%elem_of_cons by (rewrite Hp; by left); [done|].
  assert (t1 ∈ t2 :: l2) as [->|Hin1]%elem_of_cons by (rewrite <- Hp; by left); [done|].
  destruct Hn. assert (t1.1 = t2.1) as ->; [|by apply list_elem_of_fmap_2].
  apply (anti_symm String.le).
  - exact (proj1 (Forall_forall _ _) Hf1 t2 Hin2).
  - exact (proj1 (Forall_forall _ _) Hf2 t1 Hin1).
Qed.

Lemma sort_tags_sorted tags : StronglySorted key_le (sort_tags tags).
Proof.
  apply StronglySorted_merge_sort.
  - intros t1 t2 t3. unfold key_le. apply transitivity.
  - intros t1 t2. apply (total String.le).
Qed.

Lemma filter_sorted {A} (R : relation A) (P : A → Prop) `{∀ x, Decision (P x)} l :
  StronglySorted R l → StronglySorted R (filter P l).
Proof.
  induction 1 as [|x l _ IH Hf]; [constructor|]. rewrite filter_cons. case_decide; [|done].
  constructor; [done|]. apply Forall_forall. intros y [_ Hy]%list_elem_of_filter.
  exact (proj1 (Forall_forall _ _) Hf y Hy).
Qed.

(** ** Properties of the round trip *)
Section roundtrip.
Context `{MapRange} {Signature : Type}.
Implicit Type request : TagInstanceRequest Signature.

Definition key_names request : list string := sort_strings (map fst (map_to_list (PublicKeys request))).

Definition key_text request (name : string) : list ascii := default [] (PublicKeys request !! name).

(** No name of a key is the beginning of another. *)
Definition prefix_free request : Prop :=
  ∀ n1 n2, is_Some (PublicKeys request !! n1) → is_Some (PublicKeys request !! n2) →
    n1 ≠ n2 → HasPrefix n1 n2 = false.

Definition sorted_entries request : list (string * list ascii) :=
  map (λ n, (n, key_text request n)) (key_names request).

Lemma sorted_entries_perm request : sorted_entries request ≡ₚ map_to_list (PublicKeys request).
Proof.
  unfold sorted_entries, key_names. rewrite sort_strings_perm, map_map.
  rewrite (map_ext_in _ id); [by rewrite map_id|].
  intros [n d] Hin%list_elem_of_In%elem_of_map_to_list. unfold key_text. simpl. by rewrite Hin.
Qed.

Lemma sorted_entries_lt request :
  prefix_free request →
  StronglySorted (λ e1 e2 : string * list ascii, ∀ x y, slt (e1.1 +:+ x) (e2.1 +:+ y)) (sorted_entries request).
Proof.
  intros Hpf. unfold sorted_entries.
  assert (NoDup (key_names request)) as Hnd.
  { unfold key_names. rewrite sort_strings_perm. apply NoDup_fst_map_to_list. }
  assert (∀ n, n ∈ key_names request → is_Some (PublicKeys request !! n)) as Hin.
  { intros n. unfold key_names. rewrite sort_strings_perm.
    intros ([n' d] & -> & Hd%elem_of_map_to_list)%list_elem_of_fmap. by exists d. }
  assert (StronglySorted String.le (key_names request)) as Hs by apply sort_strings_sorted.
  induction Hs as [|n l _ IH Hf]; simpl; [constructor|]. apply NoDup_cons in Hnd as [Hn Hnd].
  constructor; [apply IH; [done|intros; apply Hin; by right]|].
  apply Forall_forall. intros e (n' & -> & Hn')%list_elem_of_fmap x y. simpl.
  assert (n ≠ n') as Hne by (by intros ->).
  assert (is_Some (PublicKeys request !! n)) by (apply Hin; by left).
  assert (is_Some (PublicKeys request !! n')) by (apply Hin; by right).
  apply slt_prefix_free; [by apply Hpf..|]. apply slt_total; [done|].
  exact (proj1 (Forall_forall _ _) Hf n' Hn').
Qed.

(** The tags of the keys, in the order the loop sees them. *)
Lemma sorted_key_tags request others tags :
  (∀ n d, PublicKeys request !! n = Some d → taggable n d) → prefix_free request →
  Forall (λ t : string * string, HasPrefix t.1 "tarmak.io/" = false) others →
  tags ≡ₚ others ++ map_to_list (createTags request) →
  filter (λ t : string * string, HasPrefix t.1 "tarmak.io/" = true) (sort_tags tags)
  = entries_tags (sorted_entries request).
Proof.
  intros Hread Hpf Hoth Htags.
  assert (Forall (λ kv, taggable kv.1 kv.2) (sorted_entries request)) as Hr.
  { rewrite sorted_entries_perm. apply Forall_forall. intros [n d] Hin%elem_of_map_to_list. by apply Hread. }
  pose proof (entries_sorted _ Hr (sorted_entries_lt request Hpf)) as Hsorted.
  pose proof (tag_lt_NoDup _ Hsorted) as Hnd.
  assert (map_to_list (createTags request) ≡ₚ entries_tags (sorted_entries request)) as Hct.
  { assert (entries_tags (range (PublicKeys request)) ≡ₚ entries_tags (sorted_entries request)) as Hp.
    { apply entries_tags_perm. by rewrite range_perm, sorted_entries_perm. }
    rewrite createTags_put, put_NoDup by (by rewrite Hp). rewrite map_to_list_to_map; [done|]. by rewrite Hp. }
  symmetry. apply key_sorted_unique; [by apply tag_lt_sorted|apply filter_sorted, sort_tags_sorted|done|].
  unfold sort_tags. rewrite merge_sort_Permutation, Htags, filter_app, Hct.
  rewrite (proj2 (filter_nil_iff _ others)) by (eapply Forall_impl; [exact Hoth|]; simpl; congruence).
  rewrite filter_all; [done|]. apply Forall_forall.
  intros t Ht. apply list_elem_of_In, in_concat in Ht as (l & ([n d] & <- & _)%in_map_iff & Ht).
  apply in_map_iff in Ht as (j & <- & _). apply tagName_prefix.
Qed.

Lemma read_back request others tags :
  (∀ n d, PublicKeys request !! n = Some d → readable n d) → prefix_free request →
  Forall (λ t : string * string, HasPrefix t.1 "tarmak.io/" = false) others →
  tags ≡ₚ others ++ map_to_list (createTags request) →
  ∃ r, collect_keys tags = Ret r ∧
    hostKeysTagKeys r = map (λ n, tagName n 0) (key_names request) ∧
    hostKeysBase64 r = map (λ n, string_of (removelast (key_text request n))) (key_names request).
Proof.
  intros Hread Hpf Hoth Htags. unfold collect_keys.
  rewrite read_tags_filter, (sorted_key_tags request others) by (done || intros n d Hd; by apply Hread).
  destruct (read_keys (sorted_entries request) [] [] "") as [next ->]; [|done|].
  { rewrite sorted_entries_perm. apply Forall_forall. intros [n d] Hin%elem_of_map_to_list. by apply Hread. }
  eexists. split; [done|]. unfold sorted_entries. simpl. by rewrite !map_map.
Qed.

(** The keys an instance publishes are the keys the tool reads back: for
    keys of a [readable] length, with names none of which is the beginning of
    another, the tags made by the tagging function, in any order and mixed
    with any other tags of the instance, are put together to exactly the
    texts published (without the final newline), one per key in the order of
    their names. *)
Theorem host_keys_roundtrip request others tags :
  (∀ n d, PublicKeys request !! n = Some d → readable n d) → prefix_free request →
  Forall (λ t : string * string, HasPrefix t.1 "tarmak.io/" = false) others →
  tags ≡ₚ others ++ map_to_list (createTags request) →
  ∃ r, collect_keys tags = Ret r ∧
    hostKeysTagKeys r = map (λ n, tagName n 0) (key_names request) ∧
    hostKeysBase64 r = map (λ n, string_of (removelast (key_text request n))) (key_names request).
Proof. apply read_back. Qed.

(** A key whose length is a multiple of the tag size makes reading the
    tags panic: its last tag is the end marker alone, and cutting off the
    marker and one more byte slices with a negative bound. *)
Theorem host_keys_panic request others tags n d :
  (∀ n d, PublicKeys request !! n = Some d → taggable n d) → prefix_free request →
  Forall (λ t : string * string, HasPrefix t.1 "tarmak.io/" = false) others →
  tags ≡ₚ others ++ map_to_list (createTags request) →
  PublicKeys request !! n = Some d → length d mod 255 = 0 →
  collect_keys tags = Panic.
Proof.
  intros Hread Hpf Hoth Htags Hn Hz. unfold collect_keys.
  rewrite read_tags_filter, (sorted_key_tags request others) by done.
  apply read_keys_panic; [|done|].
  - rewrite sorted_entries_perm. apply Forall_forall. intros [n' d'] Hin%elem_of_map_to_list. by apply Hread.
  - apply Exists_exists. exists (n, d). split; [|done]. rewrite sorted_entries_perm. by apply elem_of_map_to_list.
Qed.
End roundtrip.

(** ** Witnesses *)
Definition example_request (len : nat) : TagInstanceRequest unit :=
  {| PublicKeys := {["ssh_host_rsa_key" := replicate len "A"%char;
                     "ssh_host_ed25519_key" := replicate 81 "E"%char]};
     KeySignatures := ∅; InstanceDocumentRaw := ""; RSASignature := "" |}.

Lemma replicate_no_eof n c p s : c ≠ "="%char → replicate n c ≠ p ++ bytes_of EOF ++ s.
Proof.
  intros Hc Heq. assert ("="%char ∈ replicate n c) as Hin by (rewrite Heq; set_solver).
  apply elem_of_replicate in Hin as [? _]. congruence.
Qed.

Lemma example_taggable len n d :
  len mod 255 ≤ 250 → len ≤ 2545 → PublicKeys (example_request len) !! n = Some d → taggable n d.
Proof.
  intros Hm Hs Hd. cbn [PublicKeys example_request] in Hd. apply lookup_insert_Some in Hd as [[<- <-]|[_ [<- <-]%lookup_singleton_Some]].
  - split; [reflexivity|intros p s; by apply replicate_no_eof|by rewrite length_replicate..].
  - split; [reflexivity|intros p s; by apply replicate_no_eof|rewrite length_replicate; vm_compute; lia|].
    rewrite length_replicate. lia.
Qed.

Lemma example_prefix_free len : prefix_free (example_request len).
Proof.
  assert (∀ n, is_Some (PublicKeys (example_request len) !! n) →
    n = "ssh_host_rsa_key" ∨ n = "ssh_host_ed25519_key") as Hin.
  { intros n [d Hd]. cbn [PublicKeys example_request] in Hd. apply lookup_insert_Some in Hd as [[<- _]|[_ [<- _]%lookup_singleton_Some]]; tauto. }
  intros n1 n2 [->| ->]%Hin [->| ->]%Hin Hne; (reflexivity || by destruct Hne).
Qed.

Lemma host_keys_roundtrip_witness :
  ∃ r, collect_keys (map_to_list (createTags (H := range_list) (example_request 382))) = Ret r ∧
    hostKeysBase64 r = [string_of (replicate 80 "E"%char); string_of (replicate 381 "A"%char)].
Proof.
  destruct (host_keys_roundtrip (H := range_list) (example_request 382) []
    (map_to_list (createTags (H := range_list) (example_request 382)))) as (r & Hr & _ & Hk).
  - intros n d Hd. split; [eapply (example_taggable 382); [vm_compute; lia|lia|exact Hd]|].
    cbn [PublicKeys example_request] in Hd. apply lookup_insert_Some in Hd as [[<- <-]|[_ [<- <-]%lookup_singleton_Some]]; vm_compute; lia.
  - apply example_prefix_free.
  - constructor.
  - reflexivity.
  - exists r. split; [exact Hr|]. rewrite Hk. vm_compute. reflexivity.
Defined.

Lemma host_keys_panic_witness :
  collect_keys (map_to_list (createTags (H := range_list) (example_request 510))) = Panic.
Proof.
  eapply (host_keys_panic (H := range_list) (example_request 510) [] _ "ssh_host_rsa_key").
  - intros n d. apply example_taggable; [vm_compute; lia|lia].
  - apply example_prefix_free.
  - constructor.
  - reflexivity.
  - reflexivity.
  - vm_compute. reflexivity.
Defined.
