(* ===== verification/Ssh.v ===== *)
(** * Ssh: known hosts and the SSH configuration of a cluster

    [src/pkg/tarmak/ssh/ssh.go], with the host text of
    [src/pkg/tarmak/provider/amazon/hosts.go].  [WriteConfig] brings the known
    hosts file in line with the keys in the tags of the hosts: unknown keys are
    appended; on a mismatch the lines of the host are removed and the host is
    tried again.  [hostKeyCallback] decides whether a connection may go ahead.

    The known hosts file is a list of lines as the tool writes them, a host
    and a key ([knownhosts.Line] in [src/vendor/golang.org/x/crypto/ssh/knownhosts]);
    [check] is that package's look-up on such lines.  Hosts are reached at
    IPv4 addresses, for which the package writes the plain address.

    Parameters: [io_error] is the outcome of the n-th file operation, [parse]
    is ssh.ParseAuthorizedKey, [hosts] the answer of ListHosts and [ignore]
    the flag that ignores missing key tags. *)

From S2P Require Import Prelude Types Net Utils Provider InstancePool Config Tagging.

Record PublicKey := { pk_Type : string; pk_Marshal : string }.
#[global] Instance PublicKey_dec : EqDecision PublicKey.
Proof. solve_decision. Defined.

(** A line of the file: the address and the key, base64 encoded. *)
Record KnownLine := { kl_host : string; kl_key : PublicKey }.

Definition line_text (l : KnownLine) : string :=
  kl_host l +:+ " " +:+ pk_Type (kl_key l) +:+ " " +:+ pk_Marshal (kl_key l).

(** [knownhosts]: the first line of each key type counts; with lines for the
    address, a key of another type is a mismatch as well. *)
Inductive checked := Known | UnknownKey | MismatchKey.
#[global] Instance checked_dec : EqDecision checked.
Proof. solve_decision. Defined.

Definition check (lines : list KnownLine) (addr : string) (key : PublicKey) : checked :=
  match filter (λ l, kl_host l = addr) lines with
  | [] => UnknownKey
  | known => match list_find (λ l, pk_Type (kl_key l) = pk_Type key) known with
             | Some (_, l) => if decide (pk_Marshal (kl_key l) = pk_Marshal key) then Known else MismatchKey
             | None => MismatchKey
             end
  end.

Record Host := {
  h_id : string;
  h_hostname : string;
  h_hostnamePublic : bool;
  h_aliases : list string;
  h_roles : list string;
  h_user : string;
  h_tags : list (string * string);
}.

(** The address a host is known by: [net.TCPAddr] of its parsed name. *)
Definition addr_of (hostname : string) : string :=
  match parseIPv4 hostname with Some ip => IP_String ip | None => "" end.

(** [host.SSHConfig], given the paths it mentions. *)
Definition SSHConfig (hostKeysPath tempDir privateKeyPath configPath strictChecking : string) (h : Host)
    : string :=
  "host " +:+ Join (h_aliases h ++ [h_id h]) " " +:+ newline +:+
  "    User " +:+ h_user h +:+ newline +:+
  "    Hostname " +:+ h_hostname h +:+ newline +:+ newline +:+
  "    # use custom host key file per cluster" +:+ newline +:+
  "    UserKnownHostsFile " +:+ hostKeysPath +:+ newline +:+
  "    StrictHostKeyChecking " +:+ strictChecking +:+ newline +:+ newline +:+
  "    # enable connection multiplexing" +:+ newline +:+
  "    ControlPath " +:+ tempDir +:+ "/ssh-control-%r@%h:%p" +:+ newline +:+
  "    ControlMaster auto" +:+ newline +:+
  "    ControlPersist 10m" +:+ newline +:+ newline +:+
  "    # keep connections alive" +:+ newline +:+
  "    ServerAliveInterval 60" +:+ newline +:+
  "    IdentitiesOnly yes" +:+ newline +:+
  "    IdentityFile " +:+ privateKeyPath +:+ newline +:+
  (if h_hostnamePublic h then ""
   else "    ProxyCommand ssh -F " +:+ configPath +:+ " -W %h:%p bastion" +:+ newline) +:+ newline.

(** The state: the known hosts file, the hosts by first alias, the SSH
    configuration last written and the number of file operations so far. *)
Record SSH := {
  s_known : list KnownLine;
  s_hosts : gmap string Host;
  s_config : option string;
  s_ops : nat;
}.

Section ssh.
Context (io_error : nat → option error).
Context (parse : string → PublicKey + error).
Context (ignore : bool).
Context (clusterName : string) (hostConfig : string → Host → string).
Implicit Types (s : SSH) (h : Host).

(** One file operation. *)
Definition io s : SSH * option error := ({| s with s_ops := S (s_ops s) |}, io_error (s_ops s)).

(** [knownHostsFile.Write]: appends when it succeeds. *)
Definition write_line (l : KnownLine) s : SSH * option error :=
  match io s with
  | (s, Some err) => (s, Some err)
  | (s, None) => ({| s with s_known := s_known s ++ [l] |}, None)
  end.

Fixpoint write_lines (ls : list KnownLine) s : SSH * option error :=
  match ls with
  | [] => (s, None)
  | l :: ls' => match write_line l s with
                | (s, Some err) => (s, Some err)
                | (s, None) => write_lines ls' s
                end
  end.

(** Reading the file, truncating it and writing back the lines that do not
    mention the host. *)
Definition remove_host (hostname : string) s : SSH * option error :=
  match io s with
  | (s, Some err) => (s, Some err)
  | (s, None) =>
      let lines := s_known s in
      match io s with
      | (s, Some err) => (s, Some err)
      | (s, None) =>
          write_lines (filter (λ l, Prelude.Contains (line_text l) hostname = false) lines)
            {| s with s_known := [] |}
      end
  end.

(** The loop over the keys of a host, against the file [db] as it was read at
    the start of the round; [None] is the jump to another round. *)
Fixpoint check_keys (db : list KnownLine) h (keys : list PublicKey) s (errResult : option error)
    : (SSH * option error) + (SSH * option error) :=
  match keys with
  | [] => inl (s, errResult)
  | key :: keys' =>
      let addr := addr_of (h_hostname h) in
      match check db addr key with
      | Known => check_keys db h keys' s errResult
      | MismatchKey => inr (remove_host (h_hostname h) s)
      | UnknownKey =>
          match write_line {| kl_host := addr; kl_key := key |} s with
          | (s, Some err) =>
              check_keys db h keys' s (Append errResult (Some (Errorf
                ("failed to add public key to known hosts file: " +:+ error_string err))))
          | (s, None) => check_keys db h keys' s errResult
          end
      end
  end.

(** What a round for a host ends with. *)
Inductive round := Next (s : SSH) (config : string) | Again (s : SSH) | Stop (s : SSH) (err : error).

Definition strictChecking : string := if ignore then "ask" else "yes".

Definition host_round h s (config : string) : GoM round :=
  keys ← SSHHostPublicKeys parse (h_tags h);
  match io s with
  | (s, Some err) => mret (Stop s err)
  | (s, None) =>
      match check_keys (s_known s) h keys s None with
      | inr (s, Some err) => mret (Stop s err)
      | inr (s, None) => mret (Again s)
      | inl (s, Some err) => mret (Stop s err)
      | inl (s, None) =>
          let config := config +:+ hostConfig strictChecking h in
          mret match h_aliases h with
               | [] => Stop s (Errorf ("found host with no aliases: " +:+ h_hostname h))
               | a :: _ => Next {| s with s_hosts := <[a := h]> (s_hosts s) |} config
               end
      end
  end.

(** The loop over the hosts; [None] when the fuel is used up. *)
Fixpoint host_loop (fuel : nat) (hosts : list Host) s (config : string)
    : GoM (option (SSH * (string + error))) :=
  match hosts, fuel with
  | [], _ => mret (Some (s, inl config))
  | _, O => mret None
  | h :: hosts', S fuel' =>
      r ← host_round h s config;
      match r with
      | Stop s err => mret (Some (s, inr err))
      | Again s => host_loop fuel' hosts s config
      | Next s config => host_loop fuel' hosts' s config
      end
  end.

Definition WriteConfig (fuel : nat) (hosts : list Host + error) s : GoM (option (SSH * option error)) :=
  match io s with
  | (s, Some err) => mret (Some (s, Some err))
  | (s, None) =>
      match hosts with
      | inr err => mret (Some (s, Some err))
      | inl hosts =>
          match io s with
          | (s, Some err) =>
              mret (Some (s, Some (Errorf ("failed to open known hosts file: " +:+ error_string err))))
          | (s, None) =>
              r ← host_loop fuel hosts {| s with s_hosts := ∅ |}
                    ("# ssh config for tarmak cluster " +:+ clusterName +:+ newline);
              mret match r with
                   | None => None
                   | Some (s, inr err) => Some (s, Some err)
                   | Some (s, inl config) =>
                       match io s with
                       | (s, Some err) => Some (s, Some err)
                       | (s, None) => Some ({| s with s_config := Some config |}, None)
                       end
                   end
          end
      end
  end.

(** ** The host key of a connection *)

(** An error of the validator: reading the file failed, or what it found. *)
Definition validate (addr : string) (key : PublicKey) s : SSH * (checked + error) :=
  match io s with
  | (s, Some err) => (s, inr err)
  | (s, None) => (s, inl (check (s_known s) addr key))
  end.

Definition check_error (c : checked + error) : option error :=
  match c with
  | inr err => Some err
  | inl Known => None
  | inl UnknownKey => Some (Errorf "knownhosts: key is unknown")
  | inl MismatchKey => Some (Errorf "knownhosts: key mismatch")
  end.

(** The end of the callback: append an unknown key when missing keys are
    ignored.  [addr] is the address dialled, [remote] the peer address of the
    connection. *)
Definition accept_unknown (addr remote : string) (key : PublicKey) (c : checked + error) s : SSH * option error :=
  match c with
  | inl UnknownKey =>
      if ignore then
        match io s with
        | (s, Some ferr) =>
            (s, Some (Errorf ("failed to open file: " +:+ error_string ferr +:+ ", knownhosts: key is unknown")))
        | (s, None) =>
            match write_line {| kl_host := remote; kl_key := key |} s with
            | (s, Some ferr) =>
                (s, Some (Errorf ("failed to append file: " +:+ error_string ferr
                                  +:+ ", knownhosts: key is unknown")))
            | (s, None) => let '(s, c) := validate addr key s in (s, check_error c)
            end
        end
      else (s, check_error c)
  | _ => (s, check_error c)
  end.

Definition hostKeyCallback (fuel : nat) (hosts : list Host + error) (addr remote : string)
    (key : PublicKey) s : GoM (option (SSH * option error)) :=
  let '(s, c) := validate addr key s in
  match c with
  | inl Known => mret (Some (s, None))
  | inl MismatchKey =>
      r ← WriteConfig fuel hosts s;
      mret match r with
           | None => None
           | Some (s, Some err) => Some (s, Some err)
           | Some (s, None) =>
               let '(s, c) := validate addr key s in
               match c with
               | inl Known => Some (s, None)
               | _ => Some (accept_unknown addr remote key c s)
               end
           end
  | _ => mret (Some (accept_unknown addr remote key c s))
  end.
End ssh.

(** ** Lemmas: the look-up *)
Definition lines_for (addr : string) (lines : list KnownLine) : list KnownLine :=
  filter (λ l, kl_host l = addr) lines.

Lemma check_unknown lines addr key : check lines addr key = UnknownKey ↔ lines_for addr lines = [].
Proof. unfold check, lines_for. destruct (filter _ lines); [done|]. repeat case_match; done. Qed.

Lemma check_lines_for lines1 lines2 addr key :
  lines_for addr lines1 = lines_for addr lines2 → check lines1 addr key = check lines2 addr key.
Proof. unfold check, lines_for. by intros ->. Qed.

Definition mk_line (h : Host) (key : PublicKey) : KnownLine :=
  {| kl_host := addr_of (h_hostname h); kl_key := key |}.

(** Keys of different types that were just written are known. *)
Lemma check_written lines h keys key :
  NoDup (map pk_Type keys) → key ∈ keys →
  lines_for (addr_of (h_hostname h)) lines = map (mk_line h) keys →
  check lines (addr_of (h_hostname h)) key = Known.
Proof.
  intros Hnd Hin Hl. unfold check. unfold lines_for in Hl. rewrite Hl.
  destruct (map (mk_line h) keys) as [|l0 ls] eqn:Hm; [by apply map_eq_nil in Hm as ->; apply elem_of_nil in Hin|].
  rewrite <- Hm. destruct (list_find _ _) as [[i l]|] eqn:Hf.
  - apply list_find_Some in Hf as (Hi & Ht & _).
    rewrite list_lookup_fmap in Hi. apply fmap_Some in Hi as (key' & Hi & ->). simpl in *.
    apply list_elem_of_lookup in Hin as [j Hj].
    assert (i = j) as ->.
    { eapply (NoDup_lookup _ _ _ _ Hnd); rewrite list_lookup_fmap; [rewrite Hi|rewrite Hj]; simpl; by rewrite ?Ht. }
    rewrite Hi in Hj. injection Hj as ->. by rewrite decide_True.
  - apply list_find_None in Hf. rewrite Forall_forall in Hf.
    by destruct (Hf (mk_line h key)); [apply list_elem_of_fmap_2|].
Qed.

Lemma lines_for_app addr l1 l2 : lines_for addr (l1 ++ l2) = lines_for addr l1 ++ lines_for addr l2.
Proof. apply filter_app. Qed.

Lemma lines_for_mk_line addr h keys :
  lines_for addr (map (mk_line h) keys) =
  if decide (addr_of (h_hostname h) = addr) then map (mk_line h) keys else [].
Proof.
  unfold lines_for. case_decide as Ha.
  - apply filter_all. apply Forall_forall. intros l (k & -> & _)%list_elem_of_fmap. done.
  - apply filter_nil_iff, Forall_forall. intros l (k & -> & _)%list_elem_of_fmap. done.
Qed.

(** ** Lemmas: rounds *)
Section rounds.
Context (io_error : nat → option error).
Context (parse : string → PublicKey + error).
Context (ignore : bool).
Context (clusterName : string) (hostConfig : string → Host → string).
Implicit Types (s : SSH) (h : Host).

Lemma write_lines_ok ls s s' :
  write_lines io_error ls s = (s', None) → s_known s' = s_known s ++ ls ∧ s_hosts s' = s_hosts s.
Proof.
  revert s. induction ls as [|l ls IH]; intros s; simpl; [intros [= <-]; by rewrite app_nil_r|].
  unfold write_line, io. destruct (io_error (s_ops s)); [done|].
  intros [-> ->]%IH. simpl. by rewrite <- app_assoc.
Qed.

Lemma remove_host_ok hostname s s' :
  remove_host io_error hostname s = (s', None) →
  s_known s' = filter (λ l, Prelude.Contains (line_text l) hostname = false) (s_known s) ∧ s_hosts s' = s_hosts s.
Proof.
  unfold remove_host, io. destruct (io_error (s_ops s)); [done|]. simpl.
  destruct (io_error _); [done|]. by intros [-> ->]%write_lines_ok.
Qed.

(** With lines for the address the file is only read. *)
Lemma check_keys_seen db h keys s err r :
  lines_for (addr_of (h_hostname h)) db ≠ [] → check_keys io_error db h keys s err = r →
  (r = inl (s, err) ∧ ∀ k, k ∈ keys → check db (addr_of (h_hostname h)) k = Known) ∨
  r = inr (remove_host io_error (h_hostname h) s).
Proof.
  intros Hne <-. induction keys as [|k keys IH]; simpl.
  - left. split; [done|]. intros k Hk. by apply elem_of_nil in Hk.
  - destruct (check db _ k) eqn:Hc; [|by apply check_unknown in Hc|by right].
    destruct IH as [[-> Hall]| ->]; [left|by right]. split; [done|]. by intros k' [->|?]%elem_of_cons; auto.
Qed.

(** Without, every key is written. *)
Lemma check_keys_new db h keys s err :
  lines_for (addr_of (h_hostname h)) db = [] →
  ∃ s' err', check_keys io_error db h keys s err = inl (s', err') ∧
    (err' = None → err = None ∧ s_known s' = s_known s ++ map (mk_line h) keys ∧ s_hosts s' = s_hosts s).
Proof.
  intros Hnil. revert s err. induction keys as [|k keys IH]; intros s err; simpl.
  - exists s, err. by rewrite app_nil_r.
  - rewrite (proj2 (check_unknown db _ k) Hnil). unfold write_line, io.
    destruct (io_error (s_ops s)) as [e|].
    + edestruct IH as (s' & err' & -> & Hok). exists s', err'. split; [done|].
      intros [He _]%Hok. done.
    + edestruct IH as (s' & err' & -> & Hok). exists s', err'. split; [done|].
      intros (? & -> & ->)%Hok. simpl. by rewrite <- app_assoc.
Qed.

(** The ways a round ends. *)
Lemma host_round_inv h s config keys r :
  SSHHostPublicKeys parse (h_tags h) = Ret keys →
  host_round io_error parse ignore hostConfig h s config = Ret r →
  match r with
  | Stop _ _ => True
  | Again s' => lines_for (addr_of (h_hostname h)) (s_known s) ≠ [] ∧
      s_known s' = filter (λ l, Prelude.Contains (line_text l) (h_hostname h) = false) (s_known s) ∧
      s_hosts s' = s_hosts s
  | Next s' _ => ∃ a rest, h_aliases h = a :: rest ∧ s_hosts s' = <[a := h]> (s_hosts s) ∧
      ((lines_for (addr_of (h_hostname h)) (s_known s) ≠ [] ∧ s_known s' = s_known s ∧
        ∀ k, k ∈ keys → check (s_known s) (addr_of (h_hostname h)) k = Known) ∨
       (lines_for (addr_of (h_hostname h)) (s_known s) = [] ∧ s_known s' = s_known s ++ map (mk_line h) keys))
  end.
Proof.
  intros Hk. unfold host_round, io. rewrite Hk. simpl. destruct (io_error (s_ops s)); [by intros [= <-]|].
  set (s1 := {| s_known := s_known s; s_hosts := s_hosts s; s_config := s_config s; s_ops := S (s_ops s) |}).
  destruct (decide (lines_for (addr_of (h_hostname h)) (s_known s) = [])) as [Hnil|Hne].
  - destruct (check_keys_new (s_known s) h keys s1 None Hnil) as (s' & err' & -> & Hok).
    destruct err'; [by intros [= <-]|]. destruct (h_aliases h) as [|a rest]; intros [= <-]; [done|].
    destruct (Hok eq_refl) as (_ & -> & ->). exists a, rest. split; [done|]. split; [done|]. by right.
  - destruct (check_keys_seen (s_known s) h keys s1 None _ Hne eq_refl) as [[-> Hall]| ->].
    + destruct (h_aliases h) as [|a rest]; intros [= <-]; [done|].
      exists a, rest. split; [done|]. split; [done|]. by left.
    + destruct (remove_host _ _ _) as [s' [e|]] eqn:Hr; intros [= <-]; [done|].
      apply remove_host_ok in Hr as [-> ->]. done.
Qed.
End rounds.

Lemma HasPrefix_Contains s sub : HasPrefix s sub = true → Prelude.Contains s sub = true.
Proof. destruct s; simpl; intros ->; done. Qed.

Lemma line_text_host l : Prelude.Contains (line_text l) (kl_host l) = true.
Proof. apply HasPrefix_Contains, HasPrefix_spec. by eexists. Qed.

(** ** Properties *)
Section properties.
Context (io_error : nat → option error).
Context (parse : string → PublicKey + error).
Context (ignore : bool).
Context (clusterName : string) (hostConfig : string → Host → string).
Implicit Types (s : SSH) (h : Host).

Abbreviation host_loop := (host_loop io_error parse ignore hostConfig).
Abbreviation WriteConfig := (WriteConfig io_error parse ignore clusterName hostConfig).
Abbreviation hostKeyCallback := (hostKeyCallback io_error parse ignore clusterName hostConfig).

(** A host known by the address it is named with. *)
Definition canonical h : Prop := addr_of (h_hostname h) = h_hostname h.

(** After the lines of a host are removed it has none left. *)
Lemma removed_none h (lines : list KnownLine) :
  canonical h →
  lines_for (addr_of (h_hostname h))
    (filter (λ l, Prelude.Contains (line_text l) (h_hostname h) = false) lines) = [].
Proof.
  intros Hc. apply filter_nil_iff, Forall_forall. intros l [Hl _]%list_elem_of_filter Ha.
  rewrite Hc in Ha. rewrite <- Ha, line_text_host in Hl. done.
Qed.

Lemma host_loop_total fuel hosts s config :
  Forall canonical hosts → Forall (λ h, SSHHostPublicKeys parse (h_tags h) ≠ Panic) hosts →
  2 * length hosts ≤ fuel → ∃ r, host_loop fuel hosts s config = Ret (Some r).
Proof.
  revert fuel s config. induction hosts as [|h hosts IH]; intros fuel s config Hc Hp Hf.
  { destruct fuel; by eexists. }
  apply Forall_cons in Hc as [Hch Hc], Hp as [Hph Hp]. simpl in Hf.
  destruct (SSHHostPublicKeys parse (h_tags h)) as [keys|] eqn:Hk; [|done].
  assert (∀ s config, ∃ r, host_round io_error parse ignore hostConfig h s config = Ret r) as Hround.
  { intros s0 c0. unfold host_round. rewrite Hk. simpl. unfold io. repeat case_match; by eexists. }
  destruct fuel as [|[|fuel]]; [lia..|]. cbn [Ssh.host_loop].
  destruct (Hround s config) as [r Hr]. rewrite Hr. cbn [mbind GoM_bind].
  pose proof (host_round_inv _ _ _ _ _ _ _ _ _ Hk Hr) as Hinv.
  destruct r as [s1 config1|s1|s1 err]; [|..|by eexists].
  - apply (IH (S fuel)); [done..|lia].
  - destruct Hinv as (_ & Hs1 & _). cbn [Ssh.host_loop].
    destruct (Hround s1 config) as [r2 Hr2]. rewrite Hr2. cbn [mbind GoM_bind].
    pose proof (host_round_inv _ _ _ _ _ _ _ _ _ Hk Hr2) as Hinv2.
    destruct r2 as [s2 config2|s2|s2 err]; [apply IH; [done..|lia]| |by eexists].
    destruct Hinv2 as (Hne & _). destruct Hne. rewrite Hs1. by apply removed_none.
Qed.

(** Writing the SSH configuration terminates: a host whose lines are
    removed from the known hosts file is tried once more and then has no
    mismatch, so that two rounds per host are enough, whatever the file
    contains and whichever file operation fails. *)
Theorem WriteConfig_terminates hosts s :
  Forall canonical hosts → Forall (λ h, SSHHostPublicKeys parse (h_tags h) ≠ Panic) hosts →
  ∃ r, WriteConfig (2 * length hosts) (inl hosts) s = Ret (Some r).
Proof.
  intros Hc Hp. unfold Ssh.WriteConfig, io.
  destruct (io_error (s_ops s)); [by eexists|]. simpl. destruct (io_error _); [by eexists|].
  edestruct (host_loop_total (2 * length hosts) hosts) as [[s' [config|err]] Hr]; [done|done|lia|..];
    simpl in Hr; rewrite Hr; simpl; [|by eexists]. destruct (io_error _); by eexists.
Qed.

(** [keys] are the keys in the tags of the host. *)
Definition keys_of h (keys : list PublicKey) : Prop :=
  SSHHostPublicKeys parse (h_tags h) = Ret keys ∧ NoDup (map pk_Type keys).

(** A line of one host does not mention the name of another one. *)
Definition apart (hosts : list Host) (l : KnownLine) : Prop :=
  ∀ h h', h ∈ hosts → h' ∈ hosts → kl_host l = h_hostname h → h_hostname h ≠ h_hostname h' →
    Prelude.Contains (line_text l) (h_hostname h') = false.

Definition all_known h (lines : list KnownLine) : Prop :=
  ∀ keys k, keys_of h keys → k ∈ keys → check lines (h_hostname h) k = Known.

Lemma lines_for_removed hosts h h' lines :
  Forall (apart hosts) lines → h ∈ hosts → h' ∈ hosts → h_hostname h ≠ h_hostname h' →
  lines_for (h_hostname h) (filter (λ l, Prelude.Contains (line_text l) (h_hostname h') = false) lines)
  = lines_for (h_hostname h) lines.
Proof.
  intros Ha Hin Hin' Hne. unfold lines_for. rewrite list_filter_filter. apply filter_Forall_iff.
  eapply Forall_impl; [exact Ha|]. intros l Hl. simpl. split; [by intros [? _]|].
  intros He. split; [done|]. by apply (Hl h h').
Qed.

Definition knowable (hosts : list Host) h : Prop :=
  canonical h ∧ ∃ keys, keys_of h keys ∧ Forall (λ k, apart hosts {| kl_host := h_hostname h; kl_key := k |}) keys.

(** A round keeps what is known of the hosts before and, when it goes on to
    the next host, leaves this one known. *)
Lemma host_round_known hosts h s config r :
  h ∈ hosts → knowable hosts h → Forall (apart hosts) (s_known s) →
  host_round io_error parse ignore hostConfig h s config = Ret r →
  match r with
  | Stop _ _ => True
  | Again s' | Next s' _ =>
      Forall (apart hosts) (s_known s') ∧
      (∀ h', h' ∈ hosts → h_hostname h' ≠ h_hostname h → all_known h' (s_known s) → all_known h' (s_known s')) ∧
      (if r is Next _ _ then all_known h (s_known s') else True)
  end.
Proof.
  intros Hin (Hc & keys & [Hk Hnd] & Hap) Hs Hr.
  pose proof (host_round_inv _ _ _ _ _ _ _ _ _ Hk Hr) as Hinv. unfold canonical in Hc.
  destruct r as [s' c'|s'|]; [..|done].
  - destruct Hinv as (a & rest & _ & _ & [(_ & -> & Hall)|(Hnil & ->)]).
    + split; [done|]. split; [done|]. intros keys' k [Hk' _] Hin'. rewrite Hk in Hk'. injection Hk' as <-.
      rewrite <- Hc. by apply Hall.
    + split; [|split].
      * apply Forall_app. split; [done|]. apply Forall_map. eapply Forall_impl; [exact Hap|].
        intros k. unfold mk_line. by rewrite Hc.
      * intros h' _ Hne Hall keys' k Hk' Hin'. rewrite <- (Hall keys' k) by done. apply check_lines_for.
        rewrite lines_for_app, lines_for_mk_line, Hc, decide_False by done. apply app_nil_r.
      * intros keys' k [Hk' _] Hin'. rewrite Hk in Hk'. injection Hk' as <-. rewrite <- Hc.
        apply (check_written _ h keys); [done..|].
        by rewrite lines_for_app, Hnil, lines_for_mk_line, decide_True.
  - destruct Hinv as (_ & -> & _). split; [|split; [|done]].
    + apply Forall_forall. intros l [_ Hl]%list_elem_of_filter. exact (proj1 (Forall_forall _ _) Hs l Hl).
    + intros h' Hin' Hne Hall keys' k Hk' Hk2. rewrite <- (Hall keys' k) by done. apply check_lines_for.
      by apply (lines_for_removed hosts).
Qed.

Lemma host_loop_known fuel hosts all s config s' config' :
  Forall (λ h, h ∈ all ∧ knowable all h) hosts → NoDup (map h_hostname hosts) →
  Forall (apart all) (s_known s) →
  host_loop fuel hosts s config = Ret (Some (s', inl config')) →
  (∀ h, h ∈ all → (∀ h', h' ∈ hosts → h_hostname h ≠ h_hostname h') →
     all_known h (s_known s) → all_known h (s_known s')) ∧
  ∀ h, h ∈ hosts → all_known h (s_known s').
Proof.
  revert hosts s config. induction fuel as [|fuel IH]; intros hosts s config Hks Hnd Hs.
  { destruct hosts; simpl; [|done]. intros [= <- _]. split; [done|]. intros h Hh. by apply elem_of_nil in Hh. }
  destruct hosts as [|h hosts]; cbn [Ssh.host_loop].
  { intros [= <- _]. split; [done|]. intros h Hh. by apply elem_of_nil in Hh. }
  destruct (host_round _ _ _ _ _ _ _) as [r|] eqn:Hr; cbn [mbind GoM_bind]; [|done].
  pose proof (proj1 (proj1 (Forall_cons _ _ _) Hks)) as [Hin Hk].
  pose proof (host_round_known all h s config r Hin Hk Hs Hr) as Hround.
  destruct r as [s1 c1|s1|s1 err]; [..|done].
  - destruct Hround as (Hs1 & Hkeep & Hknown). apply Forall_cons in Hks as [_ Hks].
    simpl in Hnd. apply NoDup_cons in Hnd as [Hn Hnd].
    intros [Hold Hnew]%IH; [|done..].
    assert (∀ h', h' ∈ hosts → h_hostname h ≠ h_hostname h') as Hne.
    { intros h' Hh' Heq. apply Hn. rewrite Heq. by apply list_elem_of_fmap_2. }
    split.
    + intros h0 H0 Hother Hk0. apply Hold; [done|intros; apply Hother; by right|].
      apply Hkeep; [done| |done]. apply Hother. by left.
    + intros h0 [->|H0]%elem_of_cons; [|by apply Hnew]. by apply Hold.
  - destruct Hround as (Hs1 & Hkeep & _). intros [Hold Hnew]%IH; [|done..]. split; [|done].
    intros h0 H0 Hother Hk0. apply Hold; [done..|]. apply Hkeep; [done| |done]. apply Hother. by left.
Qed.

(** When writing the SSH configuration succeeds, the known hosts file
    accepts every key in the tags of every host, provided that no line of a
    host mentions the address of another host. *)
Theorem WriteConfig_known fuel hosts s s' :
  Forall (knowable hosts) hosts → NoDup (map h_hostname hosts) → Forall (apart hosts) (s_known s) →
  WriteConfig fuel (inl hosts) s = Ret (Some (s', None)) →
  ∀ h keys k, h ∈ hosts → keys_of h keys → k ∈ keys → check (s_known s') (h_hostname h) k = Known.
Proof.
  intros Hk Hnd Hs. unfold Ssh.WriteConfig, io.
  destruct (io_error (s_ops s)); [done|]. simpl. destruct (io_error _); [done|].
  destruct (host_loop _ _ _ _) as [[[s1 [config|err]]|]|] eqn:Hl; simpl; [|done..].
  destruct (io_error (s_ops s1)); [done|]. intros [= <-] h keys k Hh. simpl.
  eapply (host_loop_known fuel hosts hosts) in Hl as [_ Hall]; [by apply Hall| |done|done].
  apply Forall_forall. intros h' Hh'. split; [done|]. exact (proj1 (Forall_forall _ _) Hk h' Hh').
Qed.

(** Where a line of the file comes from. *)
Definition from_tags (hosts : list Host) (l : KnownLine) : Prop :=
  ∃ h keys k, h ∈ hosts ∧ SSHHostPublicKeys parse (h_tags h) = Ret keys ∧ k ∈ keys ∧ l = mk_line h k.

Lemma host_loop_source fuel hosts s config s' config' :
  host_loop fuel hosts s config = Ret (Some (s', inl config')) →
  ∀ l, l ∈ s_known s' → l ∈ s_known s ∨ from_tags hosts l.
Proof.
  revert hosts s config. induction fuel as [|fuel IH]; intros hosts s config.
  { destruct hosts; simpl; [|done]. intros [= <- _]. by left. }
  destruct hosts as [|h hosts]; cbn [Ssh.host_loop]; [intros [= <- _]; by left|].
  destruct (SSHHostPublicKeys parse (h_tags h)) as [keys|] eqn:Hk;
    [|unfold host_round; by rewrite Hk].
  destruct (host_round _ _ _ _ _ _ _) as [r|] eqn:Hr; cbn [mbind GoM_bind]; [|done].
  pose proof (host_round_inv _ _ _ _ _ _ _ _ _ Hk Hr) as Hinv.
  assert (∀ l, from_tags hosts l → from_tags (h :: hosts) l) as Hsub.
  { intros l (h' & keys' & k & Hin & ?). exists h', keys', k. split; [by right|done]. }
  destruct r as [s1 c1|s1|s1 err]; [..|done]; intros Hl l Hin; destruct (IH _ _ _ Hl l Hin) as [Hs1|Ht]; auto.
  - destruct Hinv as (_ & _ & _ & _ & [(_ & Heq & _)|(_ & Heq)]); rewrite Heq in Hs1; [by left|].
    apply elem_of_app in Hs1 as [?|Hnew]; [by left|]. right.
    apply list_elem_of_fmap in Hnew as (k & -> & Hkin). exists h, keys, k. split; [by left|done].
  - destruct Hinv as (_ & Heq & _). rewrite Heq in Hs1. apply list_elem_of_filter in Hs1 as [_ ?]. by left.
Qed.

Lemma WriteConfig_source fuel hosts s s' l :
  WriteConfig fuel (inl hosts) s = Ret (Some (s', None)) →
  l ∈ s_known s' → l ∈ s_known s ∨ from_tags hosts l.
Proof.
  unfold Ssh.WriteConfig, io.
  destruct (io_error (s_ops s)); [done|]. simpl. destruct (io_error _); [done|].
  destruct (host_loop _ _ _ _) as [[[s1 [config|err]]|]|] eqn:Hl; simpl; [|done..].
  destruct (io_error (s_ops s1)); [done|]. intros [= <-]. simpl. apply (host_loop_source _ _ _ _ _ _ Hl).
Qed.

(** Accepting an unknown key: only when missing tags are ignored. *)
Lemma accept_unknown_inv addr remote key c s s' :
  accept_unknown io_error ignore addr remote key c s = (s', None) → c ≠ inl Known →
  check (s_known s') addr key = Known ∧ ignore = true.
Proof.
  unfold accept_unknown, check_error, validate, write_line, io.
  destruct c as [[]|]; [done| |done|done]. destruct ignore; [|done].
  destruct (io_error (s_ops s)); [done|]. simpl. destruct (io_error _); [done|]. simpl.
  destruct (io_error _); [done|]. destruct (check _ addr key) eqn:He; intros [= <-] _; done.
Qed.

(** A connection is only accepted with a key that the known hosts file,
    as it is afterwards, has for the address dialled; and unless missing key
    tags are ignored, a line of the file was there before or holds a key from
    the tags of a host of the cluster. *)
Theorem hostKeyCallback_accepts fuel hosts addr remote key s s' :
  hostKeyCallback fuel (inl hosts) addr remote key s = Ret (Some (s', None)) →
  check (s_known s') addr key = Known ∧
  (ignore = false → ∀ l, l ∈ s_known s' → l ∈ s_known s ∨ from_tags hosts l).
Proof.
  unfold Ssh.hostKeyCallback.
  destruct (validate io_error addr key s) as [s0 c0] eqn:Hv0.
  assert (s_known s0 = s_known s ∧ (c0 = inl Known → check (s_known s0) addr key = Known)) as [Hs0 Hc0].
  { revert Hv0. unfold validate, io. destruct (io_error (s_ops s)); intros [= <- <-]; [done|].
    split; [done|]. intros [= Hk]. exact Hk. }
  assert (∀ c, c ≠ inl Known → mret (Some (accept_unknown io_error ignore addr remote key c s0))
    = Ret (Some (s', None)) → check (s_known s') addr key = Known ∧
      (ignore = false → ∀ l, l ∈ s_known s' → l ∈ s_known s ∨ from_tags hosts l)) as Hun.
  { intros c Hne Ha. injection Ha as Ha. apply accept_unknown_inv in Ha as [? Hi]; [|done].
    split; [done|]. by rewrite Hi. }
  destruct c0 as [[]|]; [intros [= <-]|by apply Hun| |by apply Hun].
  - split; [by apply Hc0|]. intros _ l Hl. left. by rewrite <- Hs0.
  - destruct (Ssh.WriteConfig _ _ _ _ _ _ _ s0) as [[[s1 [err|]]|]|] eqn:Hw; cbn [mbind GoM_bind]; try done.
    destruct (validate io_error addr key s1) as [s2 c2] eqn:Hv2.
    assert (s_known s2 = s_known s1 ∧ (c2 = inl Known → check (s_known s2) addr key = Known)) as [Hs2 Hc2].
    { revert Hv2. unfold validate, io. destruct (io_error (s_ops s1)); intros [= <- <-]; [done|].
      split; [done|]. intros [= Hk]. exact Hk. }
    assert (∀ c, c ≠ inl Known → mret (Some (accept_unknown io_error ignore addr remote key c s2))
      = Ret (Some (s', None)) → check (s_known s') addr key = Known ∧
        (ignore = false → ∀ l, l ∈ s_known s' → l ∈ s_known s ∨ from_tags hosts l)) as Hun2.
    { intros c Hne Ha. injection Ha as Ha. apply accept_unknown_inv in Ha as [? Hi]; [|done].
      split; [done|]. by rewrite Hi. }
    destruct c2 as [[]|]; [intros [= <-]|by apply Hun2..].
    split; [by apply Hc2|]. intros _ l. rewrite Hs2, <- Hs0. by apply (WriteConfig_source fuel).
Qed.

(** Ignoring missing key tags does not help for a peer address other than
    the address dialled, such as the zero address of a connection through the
    bastion: the unknown key is appended under the peer address, and the
    connection is refused all the same. *)
Theorem hostKeyCallback_remote fuel hosts addr remote key s s' err :
  remote ≠ addr → check (s_known s) addr key = UnknownKey →
  hostKeyCallback fuel hosts addr remote key s = Ret (Some (s', err)) → err ≠ None.
Proof.
  intros Hne Hc. unfold Ssh.hostKeyCallback, validate, io.
  destruct (io_error (s_ops s)); [by intros [= _ <-]|]. cbn [s_known]. rewrite Hc.
  unfold accept_unknown, check_error. destruct ignore; [|by intros [= _ <-]].
  unfold validate, write_line, io. cbn [s_known s_ops].
  destruct (io_error (S _)); [by intros [= _ <-]|]. cbn [s_known s_ops].
  destruct (io_error _); [by intros [= _ <-]|]. cbn [s_known s_ops].
  destruct (io_error _); [by intros [= _ <-]|]. cbn [s_known s_ops].
  assert (check (s_known s ++ [{| kl_host := remote; kl_key := key |}]) addr key = UnknownKey) as ->;
    [|by intros [= _ <-]].
  apply check_unknown. rewrite lines_for_app. apply check_unknown in Hc. rewrite Hc.
  unfold lines_for. by rewrite filter_cons_False.
Qed.
End properties.

(** ** Witnesses *)
Definition example_key (text : string) : PublicKey := {| pk_Type := "ssh-rsa"; pk_Marshal := text |}.
Definition example_parse (text : string) : PublicKey + error := inl (example_key text).

Definition example_host (alias hostname key : string) : Host :=
  {| h_id := "i-" +:+ alias; h_hostname := hostname; h_hostnamePublic := false; h_aliases := [alias];
     h_roles := [alias]; h_user := "centos";
     h_tags := [("Name", alias); ("tarmak.io/ssh_host_rsa_key-0", key +:+ newline +:+ EOF)] |}.

Definition example_ssh (lines : list KnownLine) : SSH :=
  {| s_known := lines; s_hosts := ∅; s_config := None; s_ops := 0 |}.

Definition example_line (hostname key : string) : KnownLine :=
  {| kl_host := hostname; kl_key := example_key key |}.

Abbreviation example_config fuel hosts lines :=
  (WriteConfig (λ _, None) example_parse false "dev-cluster" (λ _ h, h_hostname h) fuel (inl hosts)
     (example_ssh lines)).

(** Two hosts; the key of the second one has changed. *)
Definition two_hosts : list Host :=
  [example_host "worker" "10.0.0.20" "WORKER"; example_host "master" "10.0.0.1" "MASTER"].

Lemma two_hosts_knowable : Forall (knowable example_parse two_hosts) two_hosts.
Proof.
  repeat (apply Forall_cons; split); [..|constructor].
  - split; [vm_compute; reflexivity|]. exists [example_key "WORKER"].
    split; [split; [vm_compute; reflexivity|decide_compute]|]. apply Forall_cons. split; [|constructor].
    intros h h' [->|[->|[]%elem_of_nil]%elem_of_cons]%elem_of_cons
      [->|[->|[]%elem_of_nil]%elem_of_cons]%elem_of_cons; vm_compute; done.
  - split; [vm_compute; reflexivity|]. exists [example_key "MASTER"].
    split; [split; [vm_compute; reflexivity|decide_compute]|]. apply Forall_cons. split; [|constructor].
    intros h h' [->|[->|[]%elem_of_nil]%elem_of_cons]%elem_of_cons
      [->|[->|[]%elem_of_nil]%elem_of_cons]%elem_of_cons; vm_compute; done.
Qed.

Lemma WriteConfig_terminates_witness :
  ∃ r, example_config (2 * length two_hosts) two_hosts [example_line "10.0.0.1" "OLD"] = Ret (Some r).
Proof.
  apply (WriteConfig_terminates (λ _, None) example_parse false "dev-cluster" (λ _ h, h_hostname h) two_hosts).
  - repeat (apply Forall_cons; split); [vm_compute; reflexivity..|constructor].
  - repeat (apply Forall_cons; split); [vm_compute; discriminate..|constructor].
Defined.

Lemma WriteConfig_known_witness :
  ∃ s', example_config 4 two_hosts [example_line "10.0.0.1" "OLD"] = Ret (Some (s', None)) ∧
    check (s_known s') "10.0.0.20" (example_key "WORKER") = Known.
Proof.
  eexists. split; [vm_compute; reflexivity|].
  refine (WriteConfig_known (λ _, None) example_parse false "dev-cluster" (λ _ h, h_hostname h) 4 two_hosts
    (example_ssh [example_line "10.0.0.1" "OLD"]) _ two_hosts_knowable _ _ _
    (example_host "worker" "10.0.0.20" "WORKER") [example_key "WORKER"] (example_key "WORKER") _ _ _).
  - decide_compute.
  - apply Forall_cons. split; [|constructor].
    intros h h' [->|[->|[]%elem_of_nil]%elem_of_cons]%elem_of_cons
      [->|[->|[]%elem_of_nil]%elem_of_cons]%elem_of_cons; vm_compute; done.
  - vm_compute. reflexivity.
  - by left.
  - split; [vm_compute; reflexivity|]. decide_compute.
  - by left.
Defined.

Lemma hostKeyCallback_accepts_witness :
  ∃ s', hostKeyCallback (λ _, None) example_parse false "dev-cluster" (λ _ h, h_hostname h) 4 (inl two_hosts)
          "10.0.0.1" "10.0.0.1" (example_key "MASTER") (example_ssh [example_line "10.0.0.1" "OLD"])
        = Ret (Some (s', None)) ∧ check (s_known s') "10.0.0.1" (example_key "MASTER") = Known.
Proof.
  eexists. split; [vm_compute; reflexivity|].
  eapply (hostKeyCallback_accepts (λ _, None) example_parse false "dev-cluster" (λ _ h, h_hostname h) 4
    two_hosts "10.0.0.1" "10.0.0.1" (example_key "MASTER") (example_ssh [example_line "10.0.0.1" "OLD"])).
  vm_compute. reflexivity.
Defined.

Lemma hostKeyCallback_remote_witness :
  ∃ s' err, hostKeyCallback (λ _, None) example_parse true "dev-cluster" (λ _ h, h_hostname h) 4
      (inl two_hosts) "10.0.0.1" "[0.0.0.0]:0" (example_key "MASTER") (example_ssh [])
    = Ret (Some (s', err)) ∧ err ≠ None.
Proof.
  eexists _, _. split; [vm_compute; reflexivity|].
  eapply (hostKeyCallback_remote (λ _, None) example_parse true "dev-cluster" (λ _ h, h_hostname h) 4
    (inl two_hosts) "10.0.0.1" "[0.0.0.0]:0" (example_key "MASTER") (example_ssh []));
    [discriminate|reflexivity|vm_compute; reflexivity].
Defined.

(** Removing the lines of a host removes those of hosts whose address
    contains its address: with the key of 10.0.0.1 changed, the line of
    10.0.0.10, which is in order and was checked before, is gone although
    writing the configuration succeeds. *)
Theorem WriteConfig_forgets :
  let hosts := [example_host "worker" "10.0.0.10" "WORKER"; example_host "master" "10.0.0.1" "MASTER"] in
  let lines := [example_line "10.0.0.10" "WORKER"; example_line "10.0.0.1" "OLD"] in
  check lines "10.0.0.10" (example_key "WORKER") = Known ∧
  ∃ s', example_config 4 hosts lines = Ret (Some (s', None)) ∧
    check (s_known s') "10.0.0.10" (example_key "WORKER") = UnknownKey.
Proof. split; [reflexivity|]. eexists. split; vm_compute; reflexivity. Qed.
