(* ===== verification/Hosts.v ===== *)
(** * Hosts: the instances of a cluster and their names

    [ListHosts] of [src/pkg/tarmak/provider/amazon/hosts.go]: the running
    instances of the environment that belong to the cluster or the hub, each
    with an alias per role, numbered when several instances have the role.
    The answer of EC2 is an argument.  The roles are visited in the order of a
    Go map; the theorems hold for every order. *)

From S2P Require Import Prelude Types Net Utils Provider InstancePool Config Tagging Ssh.

(** An instance of the answer; nil pointers are [None]. *)
Record EC2Instance := {
  InstanceId : option string;
  PrivateIpAddress : option string;
  PublicIpAddress : option string;
  Tags : list (string * string);
}.

Section Listing.
Variable clusterName hubName : string.

(** The loop over the tags: the roles so far, or [None] when it continues with
    the next instance. *)
Fixpoint scan_tags (tags : list (string * string)) (roles : list string) : option (list string) :=
  match tags with
  | [] => Some roles
  | (key, value) :: rest =>
      let roles := if decide (key = "tarmak_role") then Split "," value else roles in
      if decide (key = "Name") then
        if negb (HasPrefix value clusterName) && negb (HasPrefix value hubName) then None
        else scan_tags rest roles
      else scan_tags rest roles
  end.

(** The host of an instance, unless it is skipped. *)
Definition to_host (i : EC2Instance) : option Host :=
  match PrivateIpAddress i, InstanceId i with
  | Some ip, Some id =>
      match scan_tags (Tags i) [] with
      | Some [] | None => None
      | Some roles =>
          Some {| h_id := id;
                  h_hostname := default ip (PublicIpAddress i);
                  h_hostnamePublic := negb (is_nil (PublicIpAddress i));
                  h_aliases := []; h_roles := roles; h_user := "centos"; h_tags := Tags i |}
      end
  | _, _ => None
  end.

(** [fmt.Sprintf("%s-%d", role, n)] *)
Definition numbered (role : string) (n : nat) : string := role +:+ String "-" (fmt_d (Z.of_nat n)).

(** The aliases of host [i], and the hosts by role; a host is its position, so
    that the map refers to the hosts as the pointers do. *)
Fixpoint number_roles (i : nat) (roles : list string) (hostsByRole : gmap string (list nat))
    : gmap string (list nat) * list string :=
  match roles with
  | [] => (hostsByRole, [])
  | role :: rest =>
      let hosts := match hostsByRole !! role with None => [i] | Some l => l ++ [i] end in
      let '(byRole, aliases) := number_roles i rest (<[role := hosts]> hostsByRole) in
      (byRole, numbered role (length hosts) :: aliases)
  end.

Fixpoint number_hosts (i : nat) (hosts : list Host) (hostsByRole : gmap string (list nat))
    : gmap string (list nat) * list (list string) :=
  match hosts with
  | [] => (hostsByRole, [])
  | h :: rest =>
      let '(byRole, aliases) := number_roles i (h_roles h) hostsByRole in
      let '(byRole', others) := number_hosts (S i) rest byRole in
      (byRole', aliases :: others)
  end.

Definition rename (role alias : string) : string :=
  if decide (alias = numbered role 1) then role else alias.

(** One role of the loop that removes the number of single hosts. *)
Definition rename_single (aliases : list (list string)) (entry : string * list nat) : list (list string) :=
  match entry.2 with
  | [i] => alter (map (rename entry.1)) i aliases
  | _ => aliases
  end.

Definition with_aliases (h : Host) (aliases : list string) : Host :=
  {| h_id := h_id h; h_hostname := h_hostname h; h_hostnamePublic := h_hostnamePublic h;
     h_aliases := aliases; h_roles := h_roles h; h_user := h_user h; h_tags := h_tags h |}.

Definition ListHosts `{MapRange} (describe : list (list EC2Instance) + error) : list Host + error :=
  match describe with
  | inr err => inr err
  | inl reservations =>
      let hosts := omap to_host (concat reservations) in
      let '(hostsByRole, aliases) := number_hosts 0 hosts ∅ in
      inl (zip_with with_aliases hosts (foldl rename_single aliases (range hostsByRole)))
  end.

End Listing.

(** ** Numbers in names *)

Lemma pretty_N_char_no_dash x : Ascii.eqb "-" (pretty_N_char x) = false.
Proof. destruct x as [|p]; [done|]. by do 4 (destruct p as [p|p|]; try done). Qed.

Lemma pretty_N_go_no_dash x s : has_byte "-" s = false → has_byte "-" (pretty_N_go x s) = false.
Proof.
  revert s; induction (N.lt_wf_0 x) as [x _ IH]; intros s Hs.
  destruct (decide (x = 0)%N) as [-> | Hx]; [by rewrite pretty_N_go_0|].
  rewrite pretty_N_go_step by lia. apply IH; [apply N.div_lt; lia|].
  rewrite has_byte_cons, Hs, orb_false_r. apply pretty_N_char_no_dash.
Qed.

Lemma fmt_d_no_dash n : has_byte "-" (fmt_d (Z.of_nat n)) = false.
Proof.
  unfold fmt_d, pretty, pretty_Z. destruct (Z.of_nat n) as [|p|p] eqn:E; [done| |lia].
  by apply (pretty_N_go_no_dash (N.pos p) "").
Qed.

Lemma numbered_inj r1 n1 r2 n2 : numbered r1 n1 = numbered r2 n2 → r1 = r2 ∧ n1 = n2.
Proof.
  unfold numbered; intros E. pose proof (f_equal (Split "-") E) as E'.
  rewrite !Split_snoc in E' by apply fmt_d_no_dash. apply app_inj_tail in E' as [E1 E2]. split.
  - rewrite <-(Join_Split "-" r1), <-(Join_Split "-" r2); by rewrite E1.
  - unfold fmt_d in E2. apply (inj pretty) in E2; lia.
Qed.

(** ** What the aliases are *)

Definition count (r : string) (l : list string) : nat := length (filter (λ x, x = r) l).

Lemma count_app r l1 l2 : count r (l1 ++ l2) = count r l1 + count r l2.
Proof. unfold count; by rewrite filter_app, length_app. Qed.

Lemma count_one r : count r [r] = 1.
Proof. unfold count; by rewrite filter_cons_True. Qed.

Lemma count_other r x : x ≠ r → count r [x] = 0.
Proof. intros; unfold count; by rewrite filter_cons_False. Qed.

Lemma count_in r l : r ∈ l ↔ 0 < count r l.
Proof.
  unfold count; split.
  - intros Hr; assert (Hf : r ∈ filter (λ x, x = r) l) by by apply list_elem_of_filter.
    destruct (filter _ l); [by apply not_elem_of_nil in Hf|cbn; lia].
  - destruct (filter (λ x, x = r) l) as [|x l'] eqn:E; cbn; [lia|]. intros _.
    assert (Hx : x ∈ filter (λ x, x = r) l) by (rewrite E; left). by apply list_elem_of_filter in Hx as [-> ?].
Qed.

(** The alias of a role, when the roles [single] are not numbered, [pre] are
    the roles before it and [all] the roles of all hosts. *)
Definition alias_of (single : list string) (all pre : list string) (r : string) : string :=
  if decide (r ∈ single ∧ count r all = 1) then r else numbered r (S (count r pre)).

Fixpoint host_aliases (single all pre roles : list string) : list string :=
  match roles with
  | [] => []
  | r :: rest => alias_of single all pre r :: host_aliases single all (pre ++ [r]) rest
  end.

Fixpoint all_aliases (single all pre : list string) (rss : list (list string)) : list (list string) :=
  match rss with
  | [] => []
  | rs :: rest => host_aliases single all pre rs :: all_aliases single all (pre ++ rs) rest
  end.

(** No role is named like a numbered alias of another. *)
Definition no_clash (all : list string) : Prop :=
  ∀ r1 r2 k, r1 ∈ all → r2 ∈ all → r1 ≠ numbered r2 k.

(** Roles without a dash never clash. *)
Lemma no_clash_dashes all : Forall (λ r, has_byte "-" r = false) all → no_clash all.
Proof.
  intros Hall r1 r2 k H1 _ E. rewrite Forall_forall in Hall. specialize (Hall r1 H1).
  apply Split_no_sep in Hall. rewrite E in Hall; unfold numbered in Hall.
  rewrite Split_snoc in Hall by apply fmt_d_no_dash.
  pose proof (Split_not_nil "-" r2) as Hn. destruct (Split "-" r2) as [|x [|? ?]]; done.
Qed.

Lemma host_aliases_app S all pre rs1 rs2 :
  host_aliases S all pre (rs1 ++ rs2) = host_aliases S all pre rs1 ++ host_aliases S all (pre ++ rs1) rs2.
Proof.
  revert pre; induction rs1 as [|r rs1 IH]; intros pre; cbn; [by rewrite app_nil_r|].
  by rewrite IH, <-app_assoc.
Qed.

Lemma concat_all_aliases S all pre rss :
  concat (all_aliases S all pre rss) = host_aliases S all pre (concat rss).
Proof. revert pre; induction rss as [|rs rss IH]; intros pre; cbn; [done|]. by rewrite host_aliases_app, IH. Qed.

Lemma host_aliases_in S all pre rs a :
  a ∈ host_aliases S all pre rs → ∃ rs1 r rs2, rs = rs1 ++ r :: rs2 ∧ a = alias_of S all (pre ++ rs1) r.
Proof.
  revert pre; induction rs as [|r rs IH]; intros pre; cbn; [by intros ?%not_elem_of_nil|].
  rewrite elem_of_cons; intros [-> | (rs1 & r' & rs2 & -> & ->)%IH].
  - exists [], r, rs; by rewrite app_nil_r.
  - exists (r :: rs1), r', rs2; by rewrite <-app_assoc.
Qed.

Lemma alias_of_inj S all pre1 r1 pre2 r2 suf :
  no_clash all → all = pre1 ++ r1 :: pre2 ++ r2 :: suf →
  alias_of S all pre1 r1 ≠ alias_of S all (pre1 ++ r1 :: pre2) r2.
Proof.
  intros Hc Hall E. assert (H1 : r1 ∈ all) by (rewrite Hall; set_solver).
  assert (H2 : r2 ∈ all) by (rewrite Hall; set_solver).
  assert (Hcount : r1 = r2 → count r1 all ≠ 1).
  { intros ->; rewrite Hall, count_app; change (r2 :: pre2 ++ r2 :: suf) with ([r2] ++ pre2 ++ [r2] ++ suf).
    rewrite !count_app, count_one; lia. }
  unfold alias_of in E; do 2 case_decide.
  - intuition.
  - by eapply Hc in E.
  - symmetry in E; by eapply Hc in E.
  - apply numbered_inj in E as [<- E]. rewrite count_app in E.
    change (r1 :: pre2) with ([r1] ++ pre2) in E; rewrite count_app, count_one in E; lia.
Qed.

Lemma host_aliases_NoDup S all pre rs suf :
  no_clash all → all = pre ++ rs ++ suf → NoDup (host_aliases S all pre rs).
Proof.
  intros Hc; revert pre; induction rs as [|r rs IH]; intros pre Hall; cbn; constructor.
  - intros (rs1 & r' & rs2 & -> & E)%host_aliases_in. rewrite <-app_assoc in E; cbn in E.
    apply (alias_of_inj S all pre r rs1 r' (rs2 ++ suf) Hc) in E; [done|].
    rewrite Hall; cbn; by rewrite <-!app_assoc.
  - apply IH; rewrite Hall; cbn; by rewrite <-app_assoc.
Qed.

(** ** The map of hosts by role *)

(** The map after the roles [pre], the hosts having roles [rss]. *)
Definition byRole_ok (rss : list (list string)) (m : gmap string (list nat)) (pre : list string) : Prop :=
  (∀ r, length (default [] (m !! r)) = count r pre) ∧
  ∀ r l i, m !! r = Some l → i ∈ l → ∃ rs, rss !! i = Some rs ∧ r ∈ rs.

Lemma number_roles_spec all rss i roles m pre :
  byRole_ok rss m pre → (∀ r, r ∈ roles → ∃ rs, rss !! i = Some rs ∧ r ∈ rs) →
  let '(m', al) := number_roles i roles m in
  byRole_ok rss m' (pre ++ roles) ∧ al = host_aliases [] all pre roles.
Proof.
  revert m pre; induction roles as [|r roles IH]; intros m pre [Hm Ho] Hi; cbn; [by rewrite app_nil_r|].
  set (hosts := match m !! r with None => [i] | Some l => l ++ [i] end).
  assert (Hlen : length hosts = Datatypes.S (count r pre)).
  { rewrite <-Hm; unfold hosts; destruct (m !! r); cbn; [rewrite length_app; cbn; lia|done]. }
  specialize (IH (<[r := hosts]> m) (pre ++ [r])).
  destruct (number_roles i roles (<[r := hosts]> m)) as [m' al].
  destruct IH as [Hok ->]; [split| |].
  - intros r'; rewrite count_app. destruct (decide (r = r')) as [<- | Hne].
    + rewrite lookup_insert_eq, count_one; cbn; lia.
    + rewrite lookup_insert_ne, Hm, count_other by done; lia.
  - intros r' l j. rewrite lookup_insert; case_decide as Hr; [|by apply Ho].
    intros [= <-] Hj; subst r'. unfold hosts in Hj; destruct (m !! r) as [l|] eqn:E.
    + apply elem_of_app in Hj as [Hj | ->%list_elem_of_singleton]; [by eapply Ho|]. apply Hi; left.
    + apply list_elem_of_singleton in Hj as ->. apply Hi; left.
  - intros r' Hr'; apply Hi; by right.
  - rewrite <-app_assoc in Hok; cbn in Hok; split; [done|]. unfold alias_of.
    rewrite decide_False by (intros [?%not_elem_of_nil _]; done). by rewrite Hlen.
Qed.

Lemma number_hosts_spec all rss i hosts m pre :
  byRole_ok rss m pre → (∀ j h, hosts !! j = Some h → rss !! (i + j) = Some (h_roles h)) →
  let '(m', al) := number_hosts i hosts m in
  byRole_ok rss m' (pre ++ concat (h_roles <$> hosts)) ∧
  al = all_aliases [] all pre (h_roles <$> hosts).
Proof.
  revert i m pre; induction hosts as [|h hosts IH]; intros i m pre Hm Hr; cbn; [by rewrite app_nil_r|].
  pose proof (number_roles_spec all rss i (h_roles h) m pre Hm) as H1.
  destruct (number_roles i (h_roles h) m) as [m1 al].
  destruct H1 as [Hm1 ->].
  { intros r Hin; exists (h_roles h); split; [|done]. rewrite <-(Nat.add_0_r i); by apply Hr. }
  specialize (IH (Datatypes.S i) m1 (pre ++ h_roles h) Hm1).
  destruct (number_hosts (Datatypes.S i) hosts m1) as [m2 al2]. destruct IH as [Hm2 ->].
  { intros j h' Hj; replace (Datatypes.S i + j) with (i + Datatypes.S j) by lia; by apply Hr. }
  by rewrite <-app_assoc in Hm2.
Qed.

(** ** Removing the number of single hosts *)

Section Rename.
Variable all : list string.
Hypothesis clash : no_clash all.

Lemma rename_alias S q pre r :
  r ∈ all → q ∈ all → count q all = 1 → (r = q → count q pre = 0) →
  rename q (alias_of S all pre r) = alias_of (q :: S) all pre r.
Proof.
  intros Hr Hq H1 Hpre; unfold rename, alias_of.
  destruct (decide (r = q)) as [-> | Hne].
  - rewrite (decide_True (P := q ∈ q :: S ∧ _)) by (split; [left|done]). rewrite Hpre by done.
    case_decide; case_decide as E; try done.
  - assert (Hiff : r ∈ q :: S ↔ r ∈ S) by (rewrite elem_of_cons; tauto).
    destruct (decide (r ∈ S ∧ count r all = 1)) as [Hd | Hd].
    + rewrite (decide_True (P := r ∈ q :: S ∧ _)) by tauto.
      rewrite decide_False; [done|]. by apply clash.
    + rewrite (decide_False (P := r ∈ q :: S ∧ _)) by tauto.
      rewrite decide_False; [done|]. by intros [? _]%numbered_inj.
Qed.

Lemma rename_host S q pre rs :
  q ∈ all → count q all = 1 → count q (pre ++ rs) ≤ 1 → (∀ r, r ∈ rs → r ∈ all) →
  map (rename q) (host_aliases S all pre rs) = host_aliases (q :: S) all pre rs.
Proof.
  intros Hq H1; revert pre; induction rs as [|r rs IH]; intros pre Hle Hin; cbn; [done|].
  change (r :: rs) with ([r] ++ rs) in Hle; rewrite !count_app in Hle. f_equal.
  - apply rename_alias; [apply Hin; left|done..|]. intros ->; rewrite count_one in Hle; lia.
  - apply IH; [rewrite !count_app; lia|]. intros; apply Hin; by right.
Qed.

(** A role the host does not have leaves its aliases alone. *)
Lemma rename_other S q pre rs :
  q ∉ rs → host_aliases (q :: S) all pre rs = host_aliases S all pre rs.
Proof.
  revert pre; induction rs as [|r rs IH]; intros pre Hq; cbn; [done|].
  apply not_elem_of_cons in Hq as [Hne Hq]; rewrite IH by done; f_equal.
  unfold alias_of; destruct (decide (r ∈ S ∧ count r all = 1)) as [Hd | Hd].
  - rewrite decide_True; [done|]. rewrite elem_of_cons; tauto.
  - rewrite decide_False; [done|]. rewrite elem_of_cons; intuition congruence.
Qed.

(** A role of several hosts is not renamed. *)
Lemma rename_shared S q pre rs :
  count q all ≠ 1 → host_aliases (q :: S) all pre rs = host_aliases S all pre rs.
Proof.
  intros Hc; revert pre; induction rs as [|r rs IH]; intros pre; cbn; [done|]. rewrite IH; f_equal.
  unfold alias_of; destruct (decide (r ∈ S ∧ count r all = 1)) as [Hd | Hd].
  - rewrite decide_True; [done|]. rewrite elem_of_cons; tauto.
  - rewrite decide_False; [done|]. rewrite elem_of_cons; intuition congruence.
Qed.

Lemma all_aliases_lookup S pre rss j :
  all_aliases S all pre rss !! j =
  (λ rs, host_aliases S all (pre ++ concat (take j rss)) rs) <$> rss !! j.
Proof.
  revert pre j; induction rss as [|rs rss IH]; intros pre [|j]; cbn; try done.
  - by rewrite app_nil_r.
  - by rewrite IH, <-app_assoc.
Qed.

Lemma count_concat_two q rss i j rsi rsj :
  i ≠ j → rss !! i = Some rsi → rss !! j = Some rsj →
  count q rsi + count q rsj ≤ count q (concat rss).
Proof.
  revert i j; induction rss as [|rs rss IH]; intros [|i] [|j] Hne Hi Hj; try done;
    cbn [lookup list_lookup] in Hi, Hj; cbn [concat]; rewrite count_app; simplify_eq.
  - apply list_elem_of_lookup_2, list_elem_of_split in Hj as (a & b & ->).
    rewrite concat_app; cbn; rewrite !count_app; lia.
  - apply list_elem_of_lookup_2, list_elem_of_split in Hi as (a & b & ->).
    rewrite concat_app; cbn; rewrite !count_app; lia.
  - assert (i ≠ j) by congruence. specialize (IH i j); intuition lia.
Qed.

Lemma concat_take_count q rss j rs :
  rss !! j = Some rs → count q (concat (take j rss) ++ rs) ≤ count q (concat rss).
Proof.
  intros Hj; rewrite <-(take_drop_middle rss j rs Hj) at 2. rewrite concat_app; cbn.
  rewrite !count_app; lia.
Qed.

Lemma rename_single_spec rss m S q l :
  all = concat rss → byRole_ok rss m all → m !! q = Some l →
  rename_single (all_aliases S all [] rss) (q, l) = all_aliases (q :: S) all [] rss.
Proof.
  intros Hall [Hm Ho] Hq. pose proof (Hm q) as Hlen; rewrite Hq in Hlen; cbn in Hlen.
  assert (Hsame : count q all ≠ 1 → all_aliases S all [] rss = all_aliases (q :: S) all [] rss).
  { intros Hc; apply list_eq; intros j; rewrite !all_aliases_lookup.
    destruct (rss !! j); cbn; [|done]. by rewrite rename_shared. }
  unfold rename_single; cbn [snd]. destruct l as [|i [|? ?]]; [apply Hsame; cbn in Hlen; lia| |apply Hsame; cbn in Hlen; lia].
  assert (Hin : q ∈ all) by (apply count_in; cbn in Hlen; lia).
  destruct (Ho q [i] i Hq) as (rsi & Hi & Hqi); [left|].
  apply list_eq; intros j; rewrite all_aliases_lookup. destruct (decide (i = j)) as [<- | Hne].
  - rewrite list_lookup_alter_eq, all_aliases_lookup, Hi; cbn; f_equal.
    apply rename_host; [done|done| |].
    + cbn in Hlen; rewrite Hlen, Hall. by apply concat_take_count.
    + intros r Hr; rewrite Hall. apply list_elem_of_In, in_concat.
      exists rsi; split; apply list_elem_of_In; [by eapply list_elem_of_lookup_2|done].
  - rewrite list_lookup_alter_ne, all_aliases_lookup by done. destruct (rss !! j) as [rsj|] eqn:Hj; cbn; [|done].
    f_equal; symmetry; apply rename_other. intros Hqj.
    pose proof (count_concat_two q rss i j rsi rsj Hne Hi Hj) as Hc; rewrite <-Hall in Hc.
    apply count_in in Hqi, Hqj. cbn in Hlen; lia.
Qed.

Lemma rename_all rss m es S :
  all = concat rss → byRole_ok rss m all → (∀ q l, (q, l) ∈ es → m !! q = Some l) →
  foldl rename_single (all_aliases S all [] rss) es = all_aliases (reverse es.*1 ++ S) all [] rss.
Proof.
  intros Hall Hm; revert S; induction es as [|[q l] es IH]; intros S Hes; [done|].
  cbn [foldl]. rewrite (rename_single_spec rss m) by (try done; apply Hes; left).
  rewrite IH by (intros; apply Hes; by right). rewrite fmap_cons, reverse_cons; by rewrite <-app_assoc.
Qed.

(** Only which roles are renamed matters, not their order. *)
Lemma all_aliases_ext rss S1 S2 :
  all = concat rss → (∀ r, r ∈ all → r ∈ S1 ↔ r ∈ S2) → all_aliases S1 all [] rss = all_aliases S2 all [] rss.
Proof.
  intros Hall Hext; apply list_eq; intros j; rewrite !all_aliases_lookup.
  destruct (rss !! j) as [rs|] eqn:Hj; cbn; [|done]. f_equal.
  assert (Hin : ∀ r, r ∈ rs → r ∈ all).
  { intros r Hr; rewrite Hall. apply list_elem_of_In, in_concat.
    exists rs; split; apply list_elem_of_In; [by eapply list_elem_of_lookup_2|done]. }
  generalize (concat (take j rss)) as pre; clear Hj; induction rs as [|r rs IH]; intros pre; cbn; [done|].
  rewrite IH by (intros; apply Hin; by right). f_equal.
  assert (Hr : r ∈ all) by (apply Hin; left). specialize (Hext r Hr).
  unfold alias_of; case_decide as H1; case_decide as H2; tauto.
Qed.

End Rename.

Lemma length_all_aliases S all pre rss : length (all_aliases S all pre rss) = length rss.
Proof. revert pre; induction rss as [|rs rss IH]; intros pre; cbn; auto. Qed.

Lemma length_rename als es : length (foldl rename_single als es) = length als.
Proof.
  revert als; induction es as [|[q l] es IH]; intros als; [done|]. cbn [foldl]; rewrite IH.
  unfold rename_single; cbn. destruct l as [|i [|? ?]]; [done| |done]. by rewrite length_alter.
Qed.

Lemma zip_aliases hs als : length als = length hs →
  h_roles <$> zip_with with_aliases hs als = h_roles <$> hs ∧
  h_aliases <$> zip_with with_aliases hs als = als.
Proof.
  revert als; induction hs as [|h hs IH]; intros [|a als] E; cbn in *; try done.
  destruct (IH als) as [-> ->]; [lia|done].
Qed.

(** The aliases of listed hosts are unique, whatever the order in which the
    map of roles is visited: a role of one host is its alias, a role of
    several is numbered in the order of the hosts, as long as no role is
    named like a numbered alias of another. *)
Theorem ListHosts_aliases (R : MapRange) clusterName hubName describe hosts :
  ListHosts clusterName hubName describe = inl hosts →
  no_clash (concat (h_roles <$> hosts)) →
  let all := concat (h_roles <$> hosts) in
  h_aliases <$> hosts = all_aliases all all [] (h_roles <$> hosts) ∧
  NoDup (concat (h_aliases <$> hosts)).
Proof.
  intros HL Hc. unfold ListHosts in HL; destruct describe as [res|e]; [|done].
  set (hs := omap (to_host clusterName hubName) (concat res)) in HL.
  set (rss := h_roles <$> hs).
  pose proof (number_hosts_spec (concat rss) rss 0 hs ∅ []) as Hn.
  destruct (number_hosts 0 hs ∅) as [m al]. injection HL as HL.
  destruct Hn as [Hm ->].
  { split; [intros r; by rewrite lookup_empty|]. intros r l i; by rewrite lookup_empty. }
  { intros j h Hj; cbn; unfold rss; by rewrite list_lookup_fmap, Hj. }
  cbn [app] in Hm; fold rss in Hm, HL.
  destruct (zip_aliases hs (foldl rename_single (all_aliases [] (concat rss) [] rss) (range m))) as [Hr1 Hr2].
  { rewrite length_rename, length_all_aliases; apply length_fmap. }
  rewrite HL in Hr1, Hr2; fold rss in Hr1; rewrite Hr1 in Hc |- *. cbn zeta.
  rewrite (rename_all (concat rss) Hc rss m) in Hr2.
  2: done. 2: done.
  2: { intros q l Hin; apply elem_of_map_to_list; by rewrite <-range_perm. }
  rewrite (all_aliases_ext (concat rss) rss _ (concat rss)) in Hr2; [|done|].
  - rewrite Hr2; split; [done|]. rewrite concat_all_aliases. eapply (host_aliases_NoDup _ _ _ _ []); [done|].
    by rewrite app_nil_r.
  - intros r Hr; split; [done|]. intros _. rewrite app_nil_r, elem_of_reverse.
    destruct Hm as [Hm _]; specialize (Hm r). apply count_in in Hr.
    destruct (m !! r) as [l|] eqn:E; [|cbn in Hm; lia].
    apply list_elem_of_fmap; exists (r, l); split; [done|]. rewrite range_perm; by apply elem_of_map_to_list.
Qed.

(** ** Which instances are listed *)

(** The roles in the last role tag. *)
Fixpoint role_tag (tags : list (string * string)) : option (list string) :=
  match tags with
  | [] => None
  | (key, value) :: rest =>
      match role_tag rest with
      | Some roles => Some roles
      | None => if decide (key = "tarmak_role") then Some (Split "," value) else None
      end
  end.

Definition name_ok (clusterName hubName : string) (t : string * string) : Prop :=
  t.1 = "Name" → HasPrefix t.2 clusterName = true ∨ HasPrefix t.2 hubName = true.

Definition belongs (clusterName hubName : string) (i : EC2Instance) : Prop :=
  InstanceId i ≠ None ∧ PrivateIpAddress i ≠ None ∧ role_tag (Tags i) ≠ None ∧
  Forall (name_ok clusterName hubName) (Tags i).

(** The host has the address, roles and tags of the instance. *)
Definition describes (h : Host) (i : EC2Instance) : Prop :=
  InstanceId i = Some (h_id h) ∧ h_tags h = Tags i ∧ role_tag (Tags i) = Some (h_roles h) ∧
  h_user h = "centos" ∧
  match PublicIpAddress i with
  | Some ip => h_hostname h = ip ∧ h_hostnamePublic h = true
  | None => PrivateIpAddress i = Some (h_hostname h) ∧ h_hostnamePublic h = false
  end.

Lemma scan_tags_spec clusterName hubName tags roles rs :
  scan_tags clusterName hubName tags roles = Some rs ↔
  Forall (name_ok clusterName hubName) tags ∧ rs = default roles (role_tag tags).
Proof.
  revert roles; induction tags as [|[k v] tags IH]; intros roles; cbn.
  { split; [by intros [= ->]|by intros [_ ->]]. }
  rewrite Forall_cons. set (rs' := if decide (k = "tarmak_role") then _ else roles).
  assert (Hd : default roles (match role_tag tags with Some l => Some l
    | None => if decide (k = "tarmak_role") then Some (Split "," v) else None end) = default rs' (role_tag tags)).
  { unfold rs'; destruct (role_tag tags); cbn; [done|]. by case_decide. }
  rewrite Hd; clearbody rs'. unfold name_ok at 1; cbn [fst snd]. destruct (decide (k = "Name")) as [Hk | Hk].
  - destruct (HasPrefix v clusterName), (HasPrefix v hubName); cbn; rewrite ?IH; naive_solver.
  - rewrite IH; naive_solver.
Qed.

Lemma role_tag_cons tags rs : role_tag tags = Some rs → rs ≠ [].
Proof.
  induction tags as [|[k v] tags IH]; cbn; [done|].
  destruct (role_tag tags); [by intros [= ->]; apply IH|]. case_decide; [|done].
  intros [= <-]; apply Split_not_nil.
Qed.

Lemma to_host_spec clusterName hubName i h :
  to_host clusterName hubName i = Some h →
  belongs clusterName hubName i ∧ describes h i.
Proof.
  unfold to_host, belongs, describes. destruct (PrivateIpAddress i) as [ip|]; [|done].
  destruct (InstanceId i) as [id|]; [|done].
  destruct (scan_tags _ _ (Tags i) []) as [[|r rs]|] eqn:E; [done| |done].
  apply scan_tags_spec in E as [Hn Hr]. destruct (role_tag (Tags i)) as [rs'|] eqn:Er; [|done].
  cbn in Hr; subst rs'. intros [= <-]; cbn. by destruct (PublicIpAddress i).
Qed.

Lemma to_host_complete clusterName hubName i :
  belongs clusterName hubName i → is_Some (to_host clusterName hubName i).
Proof.
  intros (Hid & Hip & Hr & Hn). unfold to_host.
  destruct (PrivateIpAddress i), (InstanceId i), (role_tag (Tags i)) as [rs|] eqn:Er; try done.
  rewrite (proj2 (scan_tags_spec clusterName hubName (Tags i) [] rs)) by (rewrite Er; done).
  pose proof (role_tag_cons _ _ Er); by destruct rs.
Qed.

(** The hosts are those of the instances, in order, with aliases. *)
Lemma ListHosts_inv (R : MapRange) clusterName hubName res hosts :
  ListHosts clusterName hubName (inl res) = inl hosts →
  ∃ als, length als = length (omap (to_host clusterName hubName) (concat res)) ∧
    hosts = zip_with with_aliases (omap (to_host clusterName hubName) (concat res)) als.
Proof.
  unfold ListHosts. set (hs := omap _ _). pose proof (number_hosts_spec [] (h_roles <$> hs) 0 hs ∅ []) as Hn.
  destruct (number_hosts 0 hs ∅) as [m al]. intros [= <-].
  destruct Hn as [_ ->].
  { split; [intros r; by rewrite lookup_empty|]. intros r l i; by rewrite lookup_empty. }
  { intros j h Hj; cbn; by rewrite list_lookup_fmap, Hj. }
  eexists; split; [|done]. rewrite length_rename, length_all_aliases; apply length_fmap.
Qed.

(** [ListHosts] lists exactly the instances with an identifier, an address
    and a role whose name starts with the name of the cluster or of the hub,
    each with its address (the public one when there is one), its roles and
    its tags. *)
Theorem ListHosts_members (R : MapRange) clusterName hubName res hosts :
  ListHosts clusterName hubName (inl res) = inl hosts →
  (∀ h, h ∈ hosts → ∃ i, i ∈ concat res ∧ belongs clusterName hubName i ∧ describes h i) ∧
  (∀ i, i ∈ concat res → belongs clusterName hubName i → ∃ h, h ∈ hosts ∧ describes h i).
Proof.
  intros (als & Hlen & ->)%ListHosts_inv. set (hs := omap _ _) in *. split.
  - intros h (j & Hj)%list_elem_of_lookup. apply lookup_zip_with_Some in Hj as (h0 & al & -> & Hj & _).
    apply list_elem_of_lookup_2, list_elem_of_omap in Hj as (i & Hi & Hh). apply to_host_spec in Hh as [Hb Hd].
    by exists i.
  - intros i Hi Hb. destruct (to_host_complete _ _ _ Hb) as [h Hh].
    assert (Hin : h ∈ hs) by (apply list_elem_of_omap; eauto). apply list_elem_of_lookup in Hin as [j Hj].
    destruct (lookup_lt_is_Some_2 als j) as [al Hal]; [rewrite Hlen; by eapply lookup_lt_Some|].
    exists (with_aliases h al); split.
    + apply list_elem_of_lookup; exists j. apply lookup_zip_with_Some; eauto 6.
    + by apply to_host_spec in Hh as [_ Hd].
Qed.

Definition named_instance (id name roles : string) : EC2Instance :=
  {| InstanceId := Some id; PrivateIpAddress := Some "10.0.0.1"; PublicIpAddress := None;
     Tags := [("Name", name); ("tarmak_role", roles)] |}.

(** A single host has its role as alias. *)
Lemma ListHosts_single (R : MapRange) clusterName hubName i h r :
  to_host clusterName hubName i = Some h → h_roles h = [r] →
  ListHosts clusterName hubName (inl [[i]]) = inl [with_aliases h [r]].
Proof.
  intros Hi Hr. unfold ListHosts; cbn [concat app]. unfold omap; cbn [list_omap]; rewrite Hi.
  cbn [number_hosts]; rewrite Hr; cbn [number_roles]; rewrite lookup_empty; cbn [length].
  assert (Hrange : range (<[r := [0]]> ∅) = [(r, [0])]).
  { apply Permutation_singleton_r. by rewrite range_perm, insert_empty, map_to_list_singleton. }
  rewrite Hrange; unfold rename_single, rename; cbn. by rewrite decide_True.
Qed.

(** Names are compared by prefix only: an instance of the cluster
    [dev-prod2] is listed as a host of the cluster [dev-prod] of the same
    environment, and takes an alias of it. *)
Theorem ListHosts_other_cluster (R : MapRange) :
  ∃ h, ListHosts "dev-prod" "dev-hub"
         (inl [[named_instance "i-1" "dev-prod2-k8s-master" "master"]]) = inl [h] ∧
       h_id h = "i-1" ∧ h_aliases h = ["master"].
Proof.
  eexists; split; [eapply ListHosts_single; reflexivity|]. by split.
Qed.

(** ** Witnesses *)

Definition two_masters : list (list EC2Instance) :=
  [[named_instance "i-1" "dev-prod-master" "etcd,master"]; [named_instance "i-2" "dev-prod-master" "master"]].

Definition two_masters_hosts : list Host :=
  match ListHosts (H := range_list) "dev-prod" "dev-hub" (inl two_masters) with inl hs => hs | inr _ => [] end.

Lemma ListHosts_aliases_witness :
  h_aliases <$> two_masters_hosts = [["etcd"; "master-1"]; ["master-2"]] ∧
  NoDup (concat (h_aliases <$> two_masters_hosts)).
Proof.
  split; [vm_compute; reflexivity|].
  apply (ListHosts_aliases range_list "dev-prod" "dev-hub" (inl two_masters) two_masters_hosts); [reflexivity|].
  apply no_clash_dashes. vm_compute; repeat constructor.
Defined.

Lemma ListHosts_members_witness :
  ∃ h, h ∈ two_masters_hosts ∧ describes h (named_instance "i-2" "dev-prod-master" "master").
Proof.
  apply (ListHosts_members range_list "dev-prod" "dev-hub" two_masters two_masters_hosts);
    [reflexivity|apply elem_of_cons; right; left|].
  split_and!; [discriminate..|]. apply Forall_cons; split; [by left|]. apply Forall_cons; split; [discriminate|constructor].
Defined.
