(* ===== verification/Wing.v ===== *)
(** * Wing: the agent on an instance and the API it reports to

    [src/pkg/wing]: the agent applies the Puppet manifests of the cluster on
    its instance ([puppet.go]), controlled by its object in the wing API
    ([controller.go]) and by signals ([wing.go]).  The API server stamps times
    on the objects it admits
    ([src/pkg/wing/admission/plugin/instanceinittime/admission.go]) and stores
    them under optimistic concurrency (the strategy in
    [src/pkg/wing/registry/wing/instance/strategy.go] and the generic store of
    [src/vendor/k8s.io/apiserver/pkg/registry/generic/registry/store.go]).

    Three goroutines of the agent can run a converge: the first run, the
    controller and the signal handler.  [World] holds the server, the cache of
    the informer, the three goroutines and the object a tarmak command has
    read; [step] executes one event, with the granularity of API calls, so
    that everything that can interleave does.  Time is in seconds, the
    resolution in which the API stores it; 0 is Go's zero time. *)

From S2P Require Import Prelude.

(** ** API objects *)

Record InstanceSpecManifest := {
  Path : string;
  spec_Hash : string;
  RequestTimestamp : Z;
}.

Record InstanceSpec := {
  spec_Converge : option InstanceSpecManifest;
  spec_DryRun : option InstanceSpecManifest;
}.

Record InstanceStatusManifest := {
  State : string;
  status_Hash : string;
  LastUpdateTimestamp : Z;
  Messages : list string;
  ExitCodes : list Z;
}.

Record InstanceStatus := {
  status_Converge : option InstanceStatusManifest;
  status_DryRun : option InstanceStatusManifest;
}.

Record Instance := {
  ResourceVersion : Z;
  Name : string;
  InstanceID : string;
  InstancePool : string;
  Spec : option InstanceSpec;
  Status : option InstanceStatus;
}.

#[global] Instance InstanceSpecManifest_dec : EqDecision InstanceSpecManifest.
Proof. solve_decision. Defined.
#[global] Instance InstanceSpec_dec : EqDecision InstanceSpec.
Proof. solve_decision. Defined.
#[global] Instance InstanceStatusManifest_dec : EqDecision InstanceStatusManifest.
Proof. solve_decision. Defined.
#[global] Instance InstanceStatus_dec : EqDecision InstanceStatus.
Proof. solve_decision. Defined.
#[global] Instance Instance_dec : EqDecision Instance.
Proof. solve_decision. Defined.

Definition InstanceManifestStateConverging : string := "converging".
Definition InstanceManifestStateConverged : string := "converged".
Definition InstanceManifestStateError : string := "error".

(** [Time.IsZero] and [Time.After]. *)
Definition IsZero (t : Z) : bool := (t =? 0)%Z.
Definition After (t u : Z) : bool := (u <? t)%Z.

(** ** The API server *)

(** The objects that reach the admission plugin. *)
Inductive Object :=
| InstanceObj (i : Instance)
| OtherObj.

Definition stamp_status (now : Z) (m : InstanceStatusManifest) : InstanceStatusManifest :=
  if IsZero (LastUpdateTimestamp m)
  then {| State := State m; status_Hash := status_Hash m; LastUpdateTimestamp := now;
          Messages := Messages m; ExitCodes := ExitCodes m |}
  else m.

Definition stamp_spec (now : Z) (m : InstanceSpecManifest) : InstanceSpecManifest :=
  if IsZero (RequestTimestamp m)
  then {| Path := Path m; spec_Hash := spec_Hash m; RequestTimestamp := now |}
  else m.

Definition stamp (now : Z) (i : Instance) : Instance :=
  {| ResourceVersion := ResourceVersion i; Name := Name i;
     InstanceID := InstanceID i; InstancePool := InstancePool i;
     Spec := (λ s, {| spec_Converge := stamp_spec now <$> spec_Converge s;
                      spec_DryRun := stamp_spec now <$> spec_DryRun s |}) <$> Spec i;
     Status := (λ s, {| status_Converge := stamp_status now <$> status_Converge s;
                        status_DryRun := stamp_status now <$> status_DryRun s |}) <$> Status i |}.

(** [instanceInitTime.Admit], with the group and kind of the request. *)
Definition Admit (now : Z) (kind : string * string) (o : Object) : Object * option error :=
  if negb (bool_decide (kind = ("wing.tarmak.io", "Instance"))) then (o, None)
  else match o with
       | InstanceObj i => (InstanceObj (stamp now i), None)
       | OtherObj => (o, Some (Errorf "unexpected object type"))
       end.

(** [objs] are the stored instances of the cluster, [version] the revision of
    the store, [now] the clock.  The calls follow the generic store for what
    instances have: no finalizers, initializers, hooks, time to live or dry
    run. *)
Record Server := { objs : gmap string Instance; version : Z; now : Z }.

Inductive api_error := NotFound | AlreadyExists | Invalid | Conflict | Rejected (e : error) | Unreachable.

(** [AllowCreateOnUpdate] and [AllowUnconditionalUpdate] of the strategy. *)
Definition AllowCreateOnUpdate : bool := false.
Definition AllowUnconditionalUpdate : bool := false.

Definition with_version (v : Z) (i : Instance) : Instance :=
  {| ResourceVersion := v; Name := Name i; InstanceID := InstanceID i;
     InstancePool := InstancePool i; Spec := Spec i; Status := Status i |}.

Definition put (s : Server) (i : Instance) : Server :=
  {| objs := <[Name i := with_version (version s + 1) i]> (objs s);
     version := version s + 1; now := now s |}.

Definition Get (s : Server) (name : string) : option Instance := objs s !! name.

Definition Create (s : Server) (i : Instance) : Server * option api_error :=
  match Admit (now s) ("wing.tarmak.io", "Instance") (InstanceObj i) with
  | (InstanceObj i', None) =>
      match objs s !! Name i' with
      | Some _ => (s, Some AlreadyExists)
      | None => (put s i', None)
      end
  | (_, Some e) => (s, Some (Rejected e))
  | (OtherObj, None) => (s, Some Invalid)
  end.

(** [Store.Update]; an update that changes nothing is not written. *)
Definition Update (s : Server) (i : Instance) : Server * option api_error :=
  match Admit (now s) ("wing.tarmak.io", "Instance") (InstanceObj i) with
  | (InstanceObj i', None) =>
      match objs s !! Name i' with
      | None => if AllowCreateOnUpdate then (put s i', None) else (s, Some NotFound)
      | Some old =>
          if (ResourceVersion i' =? 0)%Z && negb AllowUnconditionalUpdate then (s, Some Invalid)
          else if negb ((ResourceVersion i' =? 0)%Z && AllowUnconditionalUpdate) &&
                  negb (ResourceVersion i' =? ResourceVersion old)%Z then (s, Some Conflict)
          else if decide (with_version (ResourceVersion old) i' = old) then (s, None)
          else (put s i', None)
      end
  | (_, Some e) => (s, Some (Rejected e))
  | (OtherObj, None) => (s, Some Invalid)
  end.

Definition Delete (s : Server) (name : string) : Server * option api_error :=
  match objs s !! name with
  | None => (s, Some NotFound)
  | Some _ => ({| objs := delete name (objs s); version := version s + 1; now := now s |}, None)
  end.

(** ** The agent's functions *)

Definition new_status (m : InstanceStatusManifest) : InstanceStatus :=
  {| status_Converge := Some m; status_DryRun := None |}.

(** The status [runPuppet] starts with. *)
Definition converging_status : InstanceStatusManifest :=
  {| State := InstanceManifestStateConverging; status_Hash := ""; LastUpdateTimestamp := 0;
     Messages := []; ExitCodes := [] |}.

(** [provider.GetManifest]: the content from the first provider that answers,
    or all their errors.  The providers are [hash.Hash], [s3.S3] and
    [file.File], in this order. *)
Definition GetManifest (hash s3 file : string → string + string) (manifestURL : string)
    : string + error :=
  match hash manifestURL with
  | inl rc => inl rc
  | inr e1 =>
      match s3 manifestURL with
      | inl rc => inl rc
      | inr e2 =>
          match file manifestURL with
          | inl rc => inl rc
          | inr e3 => inr (Multi [Errorf e1; Errorf e2; Errorf e3])
          end
      end
  end.

(** What happens to the manifest before Puppet runs: the content, then the
    outcome of each call in [runPuppet] that can fail. *)
Record Manifest := {
  m_get : string + error;
  m_read : option error;
  m_close : option error;
  m_copy : option error;
  m_gzip : option error;
  m_tempdir : option error;
  m_unpack : option error;
}.

Definition first_error (l : list (option error)) : option error := head (omap id l).

(** Lines 43 to 86 of [runPuppet]: the hash of the manifest, or an error. *)
Definition prepare (sha256 : string → string) (m : Manifest) : string + error :=
  match m_get m with
  | inr e => inr e
  | inl buf =>
      match first_error [m_read m; m_close m; m_copy m; m_gzip m; m_tempdir m; m_unpack m] with
      | Some e => inr e
      | None => inl ("sha256:" +:+ sha256 buf)
      end
  end.

(** The life of a Puppet process as [puppetApply] sees it. *)
Inductive Process :=
| StdoutPipeFails (e : error)
| StderrPipeFails (e : error)
| StartFails (e : error)
| Exits (output : string)
| ExitsWith (output : string) (code : Z)
| WaitFails (output : string) (e : error).

Definition puppetApply (p : Process) : string * Z * option error :=
  match p with
  | StdoutPipeFails e | StderrPipeFails e | StartFails e => ("", 0%Z, Some e)
  | Exits output => (output, 0%Z, None)
  | ExitsWith output code => (output, code, None)
  | WaitFails output e => (output, 0%Z, Some e)
  end.

(** The error of an attempt and the message it leaves. *)
Definition attempt_error (p : Process) : option error :=
  let '(_, retCode, err) := puppetApply p in
  match err with
  | Some e => Some e
  | None => if (retCode =? 0)%Z then None
            else Some (Errorf ("puppet apply has not converged yet (return code " +:+ fmt_d retCode +:+ ")"))
  end.

Definition newline : string := String "010" "".

Definition attempt_message (p : Process) : string :=
  match attempt_error p with
  | Some e => "puppet apply error: " +:+ error_string e +:+ newline +:+ (puppetApply p).1.1
  | None => (puppetApply p).1.1
  end.

(** [puppetApplyCmd]: the status it reports, from the one before. *)
Definition puppetApplyCmd (hash : string) (st : InstanceStatusManifest) (p : Process)
    : InstanceStatusManifest :=
  {| State := InstanceManifestStateConverging; status_Hash := hash; LastUpdateTimestamp := 0;
     Messages := Messages st ++ [attempt_message p];
     ExitCodes := ExitCodes st ++ [(puppetApply p).1.2] |}.

(** The end of [converge], without and with an error of [runPuppet]. *)
Definition converged (st : InstanceStatusManifest) : InstanceStatusManifest :=
  {| State := InstanceManifestStateConverged; status_Hash := status_Hash st;
     LastUpdateTimestamp := LastUpdateTimestamp st; Messages := Messages st; ExitCodes := ExitCodes st |}.

Definition errored (st : InstanceStatusManifest) (e : error) : InstanceStatusManifest :=
  {| State := InstanceManifestStateError; status_Hash := status_Hash st;
     LastUpdateTimestamp := LastUpdateTimestamp st; Messages := Messages st ++ [error_string e];
     ExitCodes := ExitCodes st |}.

(** The object [reportStatus] writes: a new one, or the one read with the
    status replaced. *)
Definition report_object (me : string) (got : option Instance) (st : InstanceStatusManifest) : Instance :=
  match got with
  | None => {| ResourceVersion := 0; Name := me; InstanceID := ""; InstancePool := "";
               Spec := None; Status := Some (new_status st) |}
  | Some i => {| ResourceVersion := ResourceVersion i; Name := Name i; InstanceID := InstanceID i;
                 InstancePool := InstancePool i; Spec := Spec i; Status := Some (new_status st) |}
  end.

Definition report_write (me : string) (s : Server) (got : option Instance) (st : InstanceStatusManifest)
    : Server * option api_error :=
  match got with
  | None => Create s (report_object me got st)
  | Some _ => Update s (report_object me got st)
  end.

(** [syncToStdout]: what it does about the object in the cache. *)
Inductive Decision' := CreateObject | NoConverge | RunConverge.

Definition req_time (i : Instance) : option Z :=
  spec ← Spec i; c ← spec_Converge spec;
  if IsZero (RequestTimestamp c) then None else Some (RequestTimestamp c).

Definition update_time (i : Instance) : option Z :=
  status ← Status i; c ← status_Converge status;
  if IsZero (LastUpdateTimestamp c) then None else Some (LastUpdateTimestamp c).

Definition sync_decision (obj : option Instance) : Decision' :=
  match obj with
  | None => CreateObject
  | Some i =>
      match req_time i with
      | Some req =>
          match update_time i with
          | Some upd => if After upd req then NoConverge else RunConverge
          | None => NoConverge
          end
      | None => NoConverge
      end
  end.

(** [handleErr]: the number of requeues of the key and whether it is queued
    again. *)
Definition handleErr (err : option error) (requeues : nat) : nat * bool :=
  match err with
  | None => (0, false)
  | Some _ => if decide (requeues < 5) then (S requeues, true) else (0, false)
  end.

(** [ReapplyConfiguration] on one instance
    ([src/pkg/tarmak/cluster/configuration.go]). *)
Definition reapply (i : Instance) : Instance :=
  {| ResourceVersion := ResourceVersion i; Name := Name i; InstanceID := InstanceID i;
     InstancePool := InstancePool i; Status := Status i;
     Spec := Some {| spec_Converge := Some {| Path := ""; spec_Hash := ""; RequestTimestamp := 0 |};
                     spec_DryRun := spec ← Spec i; spec_DryRun spec |} |}.

(** ** The agent, its server and its clients *)

(** What a goroutine does after a report: go on to the manifest, to the next
    decision of the retry loop (with the hash, and the error of the attempt)
    or return from [converge]. *)
Inductive After_report :=
| ThenPrepare
| ThenRetry (hash : string) (err : option error)
| ThenReturn.

(** Where a goroutine is.  [WaitWG] is [convergeWG.Wait()], [Ready] the moment
    after it (the first run starts there), the others are inside
    [converge]. *)
Inductive Phase :=
| Idle
| WaitWG
| Ready
| ReportGet (st : InstanceStatusManifest) (k : After_report)
| ReportPut (st : InstanceStatusManifest) (got : option Instance) (k : After_report)
| Preparing
| Applying (hash : string) (st : InstanceStatusManifest)
| Retrying (hash : string) (st : InstanceStatusManifest) (err : option error).

(** [fetched] is the time the goroutine last read a manifest. *)
Record Agent := { phase : Phase; fetched : Z }.

(** The counter of [convergeWG] is the number of goroutines inside
    [converge]. *)
Definition running (a : Agent) : bool :=
  match phase a with Idle | WaitWG | Ready => false | _ => true end.

(** [applied] is the time at which the manifest was read whose application
    was last reported as converged. *)
Record World := {
  srv : Server;
  cache : option Instance;
  agents : list Agent;
  client : option Instance;
  listening : bool;
  stopped : bool;
  applied : Z;
}.

(** A call to the API reaches the server and is answered, is lost, or takes
    effect with the answer lost. *)
Inductive Net := Delivered | RequestLost | ReplyLost.

Inductive Sig := SIGHUP | SIGINT | SIGTERM.

Inductive Event :=
| Tick (d : positive)
| Notify
| Dequeue
| PassWG (i : nat)
| StartRun (i : nat)
| Sync (n : Net)
| DoGet (i : nat) (n : Net)
| DoPut (i : nat) (n : Net)
| DoPrepare (i : nat) (m : Manifest)
| DoApply (i : nat) (p : Process)
| DoRetry (i : nat) (again : bool)
| ClientList
| ClientPut
| ClientDelete
| Signal (s : Sig).

Definition set_srv (s : Server) (w : World) : World :=
  {| srv := s; cache := cache w; agents := agents w; client := client w;
     listening := listening w; stopped := stopped w; applied := applied w |}.

Definition set_agent (i : nat) (a : Agent) (w : World) : World :=
  {| srv := srv w; cache := cache w; agents := <[i := a]> (agents w); client := client w;
     listening := listening w; stopped := stopped w; applied := applied w |}.

Definition set_phase (i : nat) (p : Phase) (w : World) : World :=
  match agents w !! i with
  | Some a => set_agent i {| phase := p; fetched := fetched a |} w
  | None => w
  end.

Definition set_client (c : option Instance) (w : World) : World :=
  {| srv := srv w; cache := cache w; agents := agents w; client := c;
     listening := listening w; stopped := stopped w; applied := applied w |}.

Definition set_cache (c : option Instance) (w : World) : World :=
  {| srv := srv w; cache := c; agents := agents w; client := client w;
     listening := listening w; stopped := stopped w; applied := applied w |}.

Definition set_applied (t : Z) (w : World) : World :=
  {| srv := srv w; cache := cache w; agents := agents w; client := client w;
     listening := listening w; stopped := stopped w; applied := t |}.

Definition set_signals (l s : bool) (w : World) : World :=
  {| srv := srv w; cache := cache w; agents := agents w; client := client w;
     listening := l; stopped := s; applied := applied w |}.

Definition controller : nat := 1.
Definition handler : nat := 2.

(** The phase after a report, whatever its outcome. *)
Definition continue (st : InstanceStatusManifest) (k : After_report) : Phase :=
  match k with
  | ThenPrepare => Preparing
  | ThenRetry hash err => Retrying hash st err
  | ThenReturn => Idle
  end.

Definition start_run : Phase := ReportGet converging_status ThenPrepare.

Section Step.
Variable me : string.
Variable sha256 : string → string.

(** The write of a report by goroutine [a]. *)
Definition land (a : Agent) (st : InstanceStatusManifest) (got : option Instance) (w : World) : World :=
  match report_write me (srv w) got st with
  | (s, None) =>
      if decide (State st = InstanceManifestStateConverged)
      then set_applied (fetched a) (set_srv s w) else set_srv s w
  | (s, Some _) => set_srv s w
  end.

Definition agent_step (i : nat) (a : Agent) (w : World) (e : Event) : World :=
  match e, phase a with
  | PassWG _, WaitWG => if existsb running (agents w) then w else set_phase i Ready w
  | StartRun _, Ready => if decide (i = controller) then w else set_phase i start_run w
  | DoGet _ n, ReportGet st k =>
      match n with
      | Delivered => set_phase i (ReportPut st (Get (srv w) me) k) w
      | _ => set_phase i (continue st k) w
      end
  | DoPut _ n, ReportPut st got k =>
      match n with
      | RequestLost => set_phase i (continue st k) w
      | _ => set_phase i (continue st k) (land a st got w)
      end
  | DoPrepare _ m, Preparing =>
      match prepare sha256 m with
      | inl hash => set_agent i {| phase := Applying hash converging_status; fetched := now (srv w) |} w
      | inr err => set_phase i (ReportGet (errored converging_status err) ThenReturn) w
      end
  | DoApply _ p, Applying hash st =>
      set_phase i (ReportGet (puppetApplyCmd hash st p) (ThenRetry hash (attempt_error p))) w
  | DoRetry _ again, Retrying hash st err =>
      match err with
      | Some _ => if again then set_phase i (Applying hash st) w
                  else set_phase i (ReportGet (converged st) ThenReturn) w
      | None => set_phase i (ReportGet (converged st) ThenReturn) w
      end
  | _, _ => w
  end.

Definition sync_step (n : Net) (a : Agent) (w : World) : World :=
  match phase a with
  | Ready =>
      match sync_decision (cache w) with
      | RunConverge => set_phase controller start_run w
      | NoConverge => set_phase controller Idle w
      | CreateObject =>
          match n with
          | RequestLost => set_phase controller Idle w
          | _ => set_phase controller Idle
                   (set_srv (Create (srv w) (report_object me None converging_status)).1 w)
          end
      end
  | _ => w
  end.

(** [signalHandler] reads one signal. *)
Definition signal_step (s : Sig) (w : World) : World :=
  if listening w && negb (stopped w) then
    match s with
    | SIGHUP => set_phase handler WaitWG (set_signals false (stopped w) w)
    | SIGINT | SIGTERM => set_signals false true w
    end
  else w.

Definition step (w : World) (e : Event) : World :=
  match e with
  | Tick d => set_srv {| objs := objs (srv w); version := version (srv w);
                         now := now (srv w) + Z.pos d |} w
  | Notify => set_cache (Get (srv w) me) w
  | Dequeue => match agents w !! controller with
               | Some a => match phase a with Idle => set_phase controller WaitWG w | _ => w end
               | None => w
               end
  | Sync n => match agents w !! controller with Some a => sync_step n a w | None => w end
  | PassWG i | StartRun i | DoGet i _ | DoPut i _ | DoPrepare i _ | DoApply i _ | DoRetry i _ =>
      match agents w !! i with Some a => agent_step i a w e | None => w end
  | ClientList => set_client (Get (srv w) me) w
  | ClientPut => match client w with
                 | Some c => set_client None (set_srv (Update (srv w) (reapply c)).1 w)
                 | None => w
                 end
  | ClientDelete => set_srv (Delete (srv w) me).1 w
  | Signal s => signal_step s w
  end.

Definition run (w : World) (es : list Event) : World := foldl step w es.

(** The agent starts on a fresh instance: the first run is about to start. *)
Definition boot (t : Z) : World :=
  {| srv := {| objs := ∅; version := 0; now := t |}; cache := None;
     agents := [{| phase := Ready; fetched := 0 |}; {| phase := Idle; fetched := 0 |};
                {| phase := Idle; fetched := 0 |}];
     client := None; listening := true; stopped := false; applied := 0 |}.

Inductive reachable (t : Z) : World → Prop :=
| reach_boot : reachable t (boot t)
| reach_step w e : reachable t w → reachable t (step w e).

End Step.

(** ** Facts about the server *)

Definition req (i : Instance) : Z := default 0%Z (req_time i).
Definition upd (i : Instance) : Z := default 0%Z (update_time i).
Definition state_of (i : Instance) : option string :=
  status ← Status i; State <$> status_Converge status.

(** Every time of the object is set. *)
Definition stamped (i : Instance) : Prop := ∀ t, stamp t i = i.

Lemma stamp_status_twice t u m : t ≠ 0%Z → stamp_status u (stamp_status t m) = stamp_status t m.
Proof.
  intros Ht; unfold stamp_status; destruct (IsZero (LastUpdateTimestamp m)) eqn:E; cbn; [|by rewrite E].
  by unfold IsZero; apply Z.eqb_neq in Ht as ->.
Qed.

Lemma stamp_spec_twice t u m : t ≠ 0%Z → stamp_spec u (stamp_spec t m) = stamp_spec t m.
Proof.
  intros Ht; unfold stamp_spec; destruct (IsZero (RequestTimestamp m)) eqn:E; cbn; [|by rewrite E].
  by unfold IsZero; apply Z.eqb_neq in Ht as ->.
Qed.

Lemma stamp_stamped t i : t ≠ 0%Z → stamped (stamp t i).
Proof.
  intros Ht u; destruct i as [v n id pool [[[c|] [d|]]|] [[[c'|] [d'|]]|]]; unfold stamp; cbn;
    by rewrite ?stamp_status_twice, ?stamp_spec_twice.
Qed.

Lemma stamped_version v i : stamped i → stamped (with_version v i).
Proof.
  intros H t; specialize (H t); destruct i; unfold stamp, with_version in *; cbn in *.
  injection H as Hspec Hstatus; by f_equal.
Qed.

(** The stored objects: under their name, with a version and times of the
    past. *)
Definition object_wf (s : Server) (n : string) (o : Instance) : Prop :=
  Name o = n ∧ (0 < ResourceVersion o ≤ version s)%Z ∧ stamped o ∧ (req o ≤ now s)%Z ∧ (upd o ≤ now s)%Z.

Definition server_wf (s : Server) : Prop :=
  (0 < now s)%Z ∧ (0 ≤ version s)%Z ∧ map_Forall (object_wf s) (objs s).

Lemma Admit_instance t i :
  Admit t ("wing.tarmak.io", "Instance") (InstanceObj i) = (InstanceObj (stamp t i), None).
Proof. unfold Admit; by rewrite bool_decide_true. Qed.

Lemma Create_inv s i :
  let r := Create s i in
  (r.2 ≠ None ∧ r.1 = s) ∨
  (r = (put s (stamp (now s) i), None) ∧ objs s !! Name i = None).
Proof. unfold Create; rewrite Admit_instance; cbn. destruct (objs s !! Name i) eqn:E; cbn; [by left|by right]. Qed.

Lemma Update_inv s i :
  let r := Update s i in
  (r.2 ≠ None ∧ r.1 = s) ∨
  ∃ old, objs s !! Name i = Some old ∧ ResourceVersion i = ResourceVersion old ∧ ResourceVersion i ≠ 0%Z ∧
    ((r = (s, None) ∧ with_version (ResourceVersion old) (stamp (now s) i) = old) ∨
     r = (put s (stamp (now s) i), None)).
Proof.
  unfold Update, AllowCreateOnUpdate, AllowUnconditionalUpdate; rewrite Admit_instance; cbn.
  destruct (objs s !! Name i) as [old|]; cbn; [|by left].
  rewrite andb_false_r, andb_true_r; cbn.
  destruct (ResourceVersion i =? 0)%Z eqn:E0; cbn; [by left|].
  destruct (ResourceVersion i =? ResourceVersion old)%Z eqn:E1; cbn; [|by left].
  right; exists old; split_and!; [done|lia|lia|]. case_decide; auto.
Qed.

Lemma Delete_inv s n :
  (Delete s n).1 = s ∨
  (Delete s n).1 = {| objs := delete n (objs s); version := version s + 1; now := now s |}.
Proof. unfold Delete; destruct (objs s !! n); auto. Qed.

(** The times an admitted object can have. *)
Lemma stamp_req t i : (0 < t)%Z → (req i ≤ t)%Z → (req (stamp t i) ≤ t)%Z.
Proof.
  unfold req, req_time, stamp, stamp_spec, IsZero; destruct (Spec i) as [[[c|] d]|]; cbn; intros Ht; try lia.
  destruct (RequestTimestamp c =? 0)%Z eqn:E; cbn; rewrite ?E; cbn; [|lia].
  destruct (t =? 0)%Z; cbn; lia.
Qed.

Lemma stamp_upd t i : (0 < t)%Z → (upd i ≤ t)%Z → (upd (stamp t i) ≤ t)%Z.
Proof.
  unfold upd, update_time, stamp, stamp_status, IsZero; destruct (Status i) as [[[c|] d]|]; cbn; intros Ht; try lia.
  destruct (LastUpdateTimestamp c =? 0)%Z eqn:E; cbn; rewrite ?E; cbn; [|lia].
  destruct (t =? 0)%Z; cbn; lia.
Qed.

Lemma object_wf_later s s' n o :
  (version s ≤ version s')%Z → (now s ≤ now s')%Z → object_wf s n o → object_wf s' n o.
Proof. unfold object_wf; intuition lia. Qed.

Lemma put_wf s i :
  server_wf s → (req i ≤ now s)%Z → (upd i ≤ now s)%Z → server_wf (put s (stamp (now s) i)).
Proof.
  intros (Hn & Hv & Hf) Hr Hu; split_and!; [done|cbn; lia|].
  apply map_Forall_insert_2.
  - split_and!; [done|cbn; lia..| |by apply stamp_req|by apply stamp_upd].
    apply stamped_version, stamp_stamped; lia.
  - eapply map_Forall_impl; [exact Hf|]; intros ? ?; apply object_wf_later; cbn; lia.
Qed.

(** What a change of the server can do to the object [me]. *)
Definition evolves (me : string) (s s' : Server) : Prop :=
  (now s ≤ now s')%Z ∧ (version s ≤ version s')%Z ∧
  ∀ o, objs s' !! me = Some o → objs s !! me = Some o ∨ (version s < ResourceVersion o)%Z.

#[global] Instance evolves_refl me : Reflexive (evolves me).
Proof. intros s; unfold evolves; split_and!; auto; lia. Qed.

Lemma put_evolves me s i : evolves me s (put s i).
Proof.
  unfold evolves, put; cbn; split_and!; [lia..|]. intros o.
  destruct (decide (Name i = me)) as [->|]; [|rewrite lookup_insert_ne by done; auto].
  rewrite lookup_insert_eq; intros [= <-]; right; cbn; lia.
Qed.

Lemma Create_evolves me s i :
  server_wf s → (req i ≤ now s)%Z → (upd i ≤ now s)%Z →
  server_wf (Create s i).1 ∧ evolves me s (Create s i).1.
Proof.
  intros Hwf Hr Hu; destruct (Create_inv s i) as [[_ ->] | [-> _]]; cbn; [done|].
  split; [by apply put_wf|apply put_evolves].
Qed.

Lemma Update_evolves me s i :
  server_wf s → (req i ≤ now s)%Z → (upd i ≤ now s)%Z →
  server_wf (Update s i).1 ∧ evolves me s (Update s i).1.
Proof.
  intros Hwf Hr Hu; destruct (Update_inv s i) as [[_ ->] | (old & _ & _ & _ & [[-> _] | ->])]; cbn; [done..|].
  split; [by apply put_wf|apply put_evolves].
Qed.

Lemma Delete_evolves me s n : server_wf s → server_wf (Delete s n).1 ∧ evolves me s (Delete s n).1.
Proof.
  intros (Hn & Hv & Hf); destruct (Delete_inv s n) as [-> | ->]; [done|].
  unfold server_wf, evolves; cbn; split_and!; [lia..| |lia|lia|].
  - apply map_Forall_delete; eapply map_Forall_impl; [exact Hf|].
    intros ? ?; apply object_wf_later; cbn; lia.
  - intros o Ho; left; by apply lookup_delete_Some in Ho as [_ ?].
Qed.

(** ** The invariant of the system *)

Section Invariant.
Variable me : string.
Variable sha256 : string → string.

(** A copy of the object that was read is still what is stored, as long as the
    version is. *)
Definition copy_ok (s : Server) (c : Instance) : Prop :=
  object_wf s me c ∧ ∀ o, objs s !! me = Some o → ResourceVersion o = ResourceVersion c → o = c.

Definition phase_ok (s : Server) (p : Phase) : Prop :=
  match p with
  | ReportGet st _ | Applying _ st | Retrying _ st _ => LastUpdateTimestamp st = 0%Z
  | ReportPut st got _ => LastUpdateTimestamp st = 0%Z ∧ ∀ c, got = Some c → copy_ok s c
  | _ => True
  end.

Definition Inv (w : World) : Prop :=
  server_wf (srv w) ∧ (∀ c, client w = Some c → copy_ok (srv w) c) ∧
  Forall (λ a, phase_ok (srv w) (phase a)) (agents w).

Lemma copy_ok_evolves s s' c : evolves me s s' → copy_ok s c → copy_ok s' c.
Proof.
  intros (Hn & Hv & He) [Hwf Hu]; split; [by eapply object_wf_later|].
  intros o Ho Hr; destruct (He o Ho) as [|]; [auto|]. destruct Hwf as (_ & ? & _); lia.
Qed.

Lemma Get_copy s c : server_wf s → Get s me = Some c → copy_ok s c.
Proof. intros (_ & _ & Hf) Hc; split; [by apply Hf|]. intros o Ho _; unfold Get in Hc; congruence. Qed.

Lemma phase_ok_evolves s s' p : evolves me s s' → phase_ok s p → phase_ok s' p.
Proof. intros He; destruct p; cbn; intuition eauto using copy_ok_evolves. Qed.

Lemma Inv_server s' w : Inv w → server_wf s' → evolves me (srv w) s' → Inv (set_srv s' w).
Proof.
  intros (Hs & Hc & Ha) Hs' He; split_and!; cbn; [done|eauto using copy_ok_evolves|].
  eapply Forall_impl; [exact Ha|]; cbn; eauto using phase_ok_evolves.
Qed.

Lemma Inv_agent i a w : Inv w → phase_ok (srv w) (phase a) → Inv (set_agent i a w).
Proof. intros (Hs & Hc & Ha) Hp; split_and!; cbn; auto. by apply Forall_insert. Qed.

Lemma Inv_phase i p w : Inv w → phase_ok (srv w) p → Inv (set_phase i p w).
Proof. intros HI Hp; unfold set_phase; case_match; [by apply Inv_agent|done]. Qed.

Lemma set_phase_srv i p w : srv (set_phase i p w) = srv w.
Proof. unfold set_phase; by case_match. Qed.

(** What a report does to the server. *)
Lemma report_write_evolves s got st :
  server_wf s → LastUpdateTimestamp st = 0%Z → (∀ c, got = Some c → copy_ok s c) →
  server_wf (report_write me s got st).1 ∧ evolves me s (report_write me s got st).1.
Proof.
  intros Hs Hst Hc; pose proof Hs as (Hn & _).
  assert (Hu : (upd (report_object me got st) ≤ now s)%Z).
  { destruct got; unfold upd, update_time; cbn; rewrite Hst; cbn; lia. }
  unfold report_write; destruct got as [c|].
  - apply Update_evolves; [done| |done]. destruct (Hc c) as [(? & ? & ? & Hr & _) _]; [done|]. exact Hr.
  - apply Create_evolves; [done| |done]. cbn; lia.
Qed.

(** It leaves the specification of the object alone. *)
Lemma report_write_spec s got st o' :
  server_wf s → (∀ c, got = Some c → copy_ok s c) →
  objs (report_write me s got st).1 !! me = Some o' →
  match objs s !! me with
  | Some o => Spec o' = Spec o
  | None => Spec o' = None ∧ got = None
  end.
Proof.
  intros Hs Hc; unfold report_write; destruct got as [c|].
  - destruct (Hc c eq_refl) as [Hwf Hu]; pose proof Hwf as (Hname & _ & Hst & _).
    destruct (Update_inv s (report_object me (Some c) st))
      as [[_ ->] | (old & Hold & Hv & _ & [[-> _] | ->])]; cbn; [by intros ->..|].
    cbn in Hold, Hv; rewrite Hname in Hold |- *; rewrite lookup_insert_eq; intros [= <-].
    rewrite Hold, (Hu old) by auto; cbn.
    specialize (Hst (now s)). unfold stamp in Hst; destruct c; cbn in *; by injection Hst.
  - destruct (Create_inv s (report_object me None st)) as [[_ ->] | [-> Hnone]]; [by intros ->|].
    cbn in *; rewrite lookup_insert_eq, Hnone; intros [= <-]; done.
Qed.

Lemma Inv_land a st got w :
  Inv w → LastUpdateTimestamp st = 0%Z → (∀ c, got = Some c → copy_ok (srv w) c) →
  Inv (land me a st got w) ∧ evolves me (srv w) (srv (land me a st got w)) ∧
  srv (land me a st got w) = (report_write me (srv w) got st).1.
Proof.
  intros HI Hst Hc; pose proof HI as (Hs & _).
  destruct (report_write_evolves (srv w) got st) as [Hwf He]; [done..|].
  unfold land; destruct (report_write me (srv w) got st) as [s' [e|]]; cbn in *;
    [split; [by apply Inv_server|done]|].
  case_decide; (split; [|done]); by apply Inv_server.
Qed.

Lemma agent_step_Inv i a w e : Inv w → agents w !! i = Some a → Inv (agent_step me sha256 i a w e).
Proof.
  intros HI Ha; assert (Hp : phase_ok (srv w) (phase a))
    by (destruct HI as (_ & _ & Hall); exact (Forall_lookup_1 _ _ _ _ Hall Ha)).
  pose proof HI as (Hs & _).
  unfold agent_step; destruct e; try done; destruct (phase a) eqn:Eph; try done; cbn in Hp.
  - case_match; [done|]; by apply Inv_phase.
  - case_decide; [done|]; by apply Inv_phase.
  - destruct n; apply Inv_phase; try done; cbn; try (by destruct k).
    split; [done|]; intros c; by apply Get_copy.
  - destruct Hp as [Hst Hc]. destruct (Inv_land a st got w) as (HI' & _ & _); [done..|].
    destruct n; apply Inv_phase; try done; by destruct k.
  - case_match; [by apply Inv_agent|by apply Inv_phase].
  - by apply Inv_phase.
  - destruct err; [destruct again|]; by apply Inv_phase.
Qed.

Lemma step_Inv w e : Inv w → Inv (step me sha256 w e).
Proof.
  intros HI; pose proof HI as (Hs & Hc & Ha).
  destruct e; cbn [step]; try (case_match; [|done]); try by apply agent_step_Inv.
  - apply Inv_server; [done| |].
    + destruct Hs as (? & ? & Hf); split_and!; cbn; [lia..|].
      eapply map_Forall_impl; [exact Hf|]; intros ? ?; apply object_wf_later; cbn; lia.
    + unfold evolves; cbn; split_and!; auto; lia.
  - by split_and!.
  - case_match; try done; by apply Inv_phase.
  - unfold sync_step; destruct (phase _); try done.
    destruct (sync_decision (cache w)); [|by apply Inv_phase..].
    destruct (Create_evolves me (srv w) (report_object me None converging_status)) as [Hwf He];
      [done|destruct Hs as (? & _); cbn; lia..|].
    destruct n; apply Inv_phase; try done; by apply Inv_server.
  - split_and!; cbn; [done| |done]; intros c; by apply Get_copy.
  - rename i into c. destruct (Hc c) as [(Hname & Hv & Hst & Hr & Hu) _]; [done|].
    destruct (Update_evolves me (srv w) (reapply c)) as [Hwf He];
      [done|destruct Hs as (? & _); cbn; lia|exact Hu|].
    pose proof (Inv_server _ _ HI Hwf He) as (? & ? & ?); by split_and!.
  - destruct (Delete_evolves me (srv w) me Hs) as [Hwf He]; by apply Inv_server.
  - unfold signal_step; case_match; [|done]. destruct s; [apply Inv_phase; [|done]|..]; by split_and!.
Qed.

(** The ways a step can change the stored object. *)
Lemma step_srv w e :
  Inv w → let s' := srv (step me sha256 w e) in
  objs s' !! me = objs (srv w) !! me ∨ objs s' !! me = None ∨
  (∃ got st, LastUpdateTimestamp st = 0%Z ∧ (∀ c, got = Some c → copy_ok (srv w) c) ∧
     s' = (report_write me (srv w) got st).1) ∨
  (e = ClientPut ∧ ∃ c, client w = Some c ∧ s' = (Update (srv w) (reapply c)).1).
Proof.
  intros HI; pose proof HI as (Hs & Hc & Ha).
  destruct e; cbn [step]; try (case_match; [|by left]); try by left.
  all: unfold agent_step, sync_step; try (destruct (phase a) eqn:Ep; try by left).
  - rewrite set_phase_srv; by left.
  - case_match; [by left|]; rewrite set_phase_srv; by left.
  - case_decide; [by left|]; rewrite set_phase_srv; by left.
  - destruct (sync_decision (cache w)); [|rewrite set_phase_srv; by left..].
    destruct n; rewrite set_phase_srv; [|by left|]; do 2 right; left; exists None, converging_status; done.
  - destruct n; rewrite set_phase_srv; by left.
  - pose proof (Forall_lookup_1 _ _ _ _ Ha H) as Hp; cbn in Hp; rewrite Ep in Hp; destruct Hp as [Hst Hgot].
    destruct (Inv_land a st got w) as (_ & _ & Hl); [done..|].
    destruct n; rewrite set_phase_srv; [|by left|]; do 2 right; left; exists got, st; auto.
  - case_match; [by left|rewrite set_phase_srv; by left].
  - rewrite set_phase_srv; by left.
  - destruct err; [destruct again|]; rewrite set_phase_srv; by left.
  - do 3 right; eauto.
  - destruct (Delete_inv (srv w) me) as [-> | ->]; cbn; [by left|]. right; left; apply lookup_delete_eq.
  - unfold signal_step; case_match; [|by left]. destruct s; rewrite ?set_phase_srv; by left.
Qed.

Lemma boot_Inv t : (0 < t)%Z → Inv (boot t).
Proof. intros Ht; split_and!; cbn; [split_and!; cbn; [lia..|apply map_Forall_empty]|done|by repeat constructor]. Qed.

Lemma reachable_Inv t w : (0 < t)%Z → reachable me sha256 t w → Inv w.
Proof. intros Ht; induction 1; [by apply boot_Inv|by apply step_Inv]. Qed.

End Invariant.

(** ** Requests *)

(** What [ReapplyConfiguration] stores: a request of this moment, and the
    object otherwise as it was. *)
Lemma reapply_stored me s c o o' :
  server_wf s → copy_ok me s c → objs s !! me = Some o →
  objs (Update s (reapply c)).1 !! me = Some o' →
  o' = o ∨ (req o' = now s ∧ upd o' = upd o)%Z.
Proof.
  intros Hs [Hwf Hu] Ho; pose proof Hs as (Hn & _); pose proof Hwf as (Hname & _ & Hst & _).
  destruct (Update_inv s (reapply c)) as [[_ ->] | (old & Hold & Hv & _ & [[-> _] | ->])]; cbn;
    [left; congruence..|].
  cbn in Hold, Hv; rewrite Hname in Hold |- *; rewrite lookup_insert_eq; intros [= <-]; right.
  assert (c = o) as <- by (rewrite Ho in Hold; simplify_eq; symmetry; by apply Hu). split.
  - unfold req, req_time; cbn. unfold IsZero; destruct (now s =? 0)%Z eqn:E; [lia|done].
  - unfold upd; f_equal. rewrite <-(Hst (now s)) at 2; done.
Qed.

(** C12: Concurrent reports of the agent never lose a request to converge: while
    the object exists, no event of the system moves the time of the request
    back, and only the command that makes requests changes the
    specification at all. *)
Theorem requests_survive me sha256 t w e o o' :
  (0 < t)%Z → reachable me sha256 t w →
  objs (srv w) !! me = Some o → objs (srv (step me sha256 w e)) !! me = Some o' →
  (req o ≤ req o')%Z ∧ (e ≠ ClientPut → Spec o' = Spec o).
Proof.
  intros Ht Hr Ho Ho'. pose proof (reachable_Inv _ _ _ _ Ht Hr) as HI; pose proof HI as (Hs & Hc & _).
  destruct (step_srv me sha256 w e HI) as [E | [E | [(got & st & _ & Hgot & E) | (-> & c & Hcl & E)]]].
  - rewrite E in Ho'; by simplify_eq.
  - congruence.
  - rewrite E in Ho'. pose proof (report_write_spec me _ _ _ _ Hs Hgot Ho') as Hspec; rewrite Ho in Hspec.
    unfold req, req_time; rewrite Hspec; done.
  - split; [|done]. rewrite E in Ho'.
    destruct (reapply_stored me (srv w) c o o') as [-> | [-> _]]; auto; [done|].
    by apply Hs in Ho as (_ & _ & _ & ? & _).
Qed.

(** *** The object as a register

    What the clients of the API may rely on: the time of the last request and
    of the last report, if the object exists. *)
Definition Register : Type := option (Z * Z).

Inductive register_step : Register → Register → Prop :=
| register_new u : register_step None (Some (0, u))%Z
| register_report r u u' : (u ≤ u')%Z → register_step (Some (r, u)) (Some (r, u'))
| register_request r r' u : (r ≤ r')%Z → (u ≤ r')%Z → register_step (Some (r, u)) (Some (r', u))
| register_remove r u : register_step (Some (r, u)) None.

Definition register (me : string) (w : World) : Register := (λ o, (req o, upd o)) <$> objs (srv w) !! me.

Lemma report_write_upd me s got st o' :
  server_wf s → LastUpdateTimestamp st = 0%Z → (∀ c, got = Some c → copy_ok me s c) →
  objs (report_write me s got st).1 !! me = Some o' → objs s !! me = Some o' ∨ upd o' = now s.
Proof.
  intros Hs Hst Hgot; pose proof Hs as (Hn & _).
  assert (Hupd : ∀ v i, upd (with_version v (stamp (now s) (report_object me i st))) = now s).
  { intros v i; destruct i; unfold upd, update_time; cbn; unfold stamp_status; rewrite Hst; cbn;
      unfold IsZero; by destruct (now s =? 0)%Z eqn:E; [lia|]. }
  unfold report_write; destruct got as [c|].
  - destruct (Hgot c eq_refl) as [(Hname & _) _].
    destruct (Update_inv s (report_object me (Some c) st)) as [[_ ->] | (old & _ & _ & _ & [[-> _] | ->])];
      [by left..|]. cbn; rewrite Hname, lookup_insert_eq; intros [= <-]; right. apply (Hupd 0%Z (Some c)).
  - destruct (Create_inv s (report_object me None st)) as [[_ ->] | [-> _]]; [by left|].
    cbn; rewrite lookup_insert_eq; intros [= <-]; right. apply (Hupd 0%Z None).
Qed.

Lemma step_register me sha256 w e :
  Inv me w → register me (step me sha256 w e) = register me w ∨
             register_step (register me w) (register me (step me sha256 w e)).
Proof.
  intros HI; pose proof HI as (Hs & Hc & _); pose proof Hs as (Hn & _ & Hobj). unfold register.
  destruct (step_srv me sha256 w e HI) as [-> | [-> | [(got & st & Hst & Hgot & ->) | (-> & c & Hcl & ->)]]]; [by left|..].
  - destruct (objs (srv w) !! me) as [o|]; [right; constructor|by left].
  - destruct (objs (report_write me (srv w) got st).1 !! me) as [o'|] eqn:Ho'.
    2: { destruct (objs (srv w) !! me); [right; constructor|by left]. }
    pose proof (report_write_spec me _ _ _ _ Hs Hgot Ho') as Hspec.
    pose proof (report_write_upd me _ _ _ _ Hs Hst Hgot Ho') as Hu.
    destruct (objs (srv w) !! me) as [o|] eqn:Ho; cbn.
    + right. assert (req o' = req o) as -> by (unfold req, req_time; by rewrite Hspec). constructor.
      destruct Hu as [[= ->] | ->]; [done|]. by apply Hobj in Ho as (_ & _ & _ & _ & ?).
    + right. assert (req o' = 0%Z) as -> by (unfold req, req_time; by rewrite (proj1 Hspec)). constructor.
  - destruct (objs (Update (srv w) (reapply c)).1 !! me) as [o'|] eqn:Ho'.
    2: { destruct (objs (srv w) !! me); [right; constructor|by left]. }
    destruct (objs (srv w) !! me) as [o|] eqn:Ho; cbn.
    + destruct (reapply_stored me (srv w) c o o' Hs (Hc c Hcl) Ho Ho') as [-> | [-> ->]]; [by left|].
      right; apply Hobj in Ho as (_ & _ & _ & ? & ?). by constructor.
    + exfalso; destruct (Hc c Hcl) as [(Hname & _) _].
      destruct (Update_inv (srv w) (reapply c)) as [[_ E] | (old & Hold & _)]; [rewrite E in Ho'; congruence|].
      cbn in Hold; congruence.
Qed.


(** *** A converged instance has applied the manifests of the request

    This holds as long as no request is made while a converge runs. *)

Definition quiet (w : World) (e : Event) : Prop := e = ClientPut → existsb running (agents w) = false.

Inductive quietly (me : string) (sha256 : string → string) (t : Z) : World → Prop :=
| quiet_boot : quietly me sha256 t (boot t)
| quiet_step w e : quietly me sha256 t w → quiet w e → quietly me sha256 t (step me sha256 w e).

Lemma quietly_reachable me sha256 t w : quietly me sha256 t w → reachable me sha256 t w.
Proof. induction 1; eauto using reachable. Qed.

(** The goroutine has read the manifest of its run. *)
Definition past_fetch (p : Phase) : bool :=
  match p with
  | Applying _ _ | Retrying _ _ _ => true
  | ReportGet st k | ReportPut st _ k =>
      match k with ThenRetry _ _ => true | _ => bool_decide (State st = InstanceManifestStateConverged) end
  | _ => false
  end.

Lemma past_fetch_running a : past_fetch (phase a) = true → running a = true.
Proof. unfold running; by destruct (phase a). Qed.

Section Served.
Variable me : string.
Variable sha256 : string → string.

Definition fresh_agent (s : Server) (a : Agent) : Prop :=
  (0 ≤ fetched a)%Z ∧
  (past_fetch (phase a) = true → ∀ o, objs s !! me = Some o → (req o ≤ fetched a)%Z).

Definition served (s : Server) (time : Z) : Prop :=
  ∀ o, objs s !! me = Some o → state_of o = Some InstanceManifestStateConverged →
    (req o < upd o)%Z → (req o ≤ time)%Z.

Definition QInv (w : World) : Prop :=
  Forall (fresh_agent (srv w)) (agents w) ∧ served (srv w) (applied w).

(** The request is the same, or the object is new. *)
Definition req_kept (s s' : Server) : Prop :=
  ∀ o', objs s' !! me = Some o' → req o' = 0%Z ∨ ∃ o, objs s !! me = Some o ∧ req o' = req o.

Lemma fresh_kept s s' l : req_kept s s' → Forall (fresh_agent s) l → Forall (fresh_agent s') l.
Proof.
  intros Hk Hl; eapply Forall_impl; [exact Hl|]; intros a [H0 Hf]; split; [done|]. intros Hp o' Ho'.
  destruct (Hk o' Ho') as [-> | (o & Ho & ->)]; auto.
Qed.

Lemma req_kept_same s s' : objs s' !! me = objs s !! me ∨ objs s' !! me = None → req_kept s s'.
Proof. intros [E | E] o' Ho'; rewrite E in Ho'; [right; eauto|done]. Qed.

Lemma served_same s s' time :
  objs s' !! me = objs s !! me ∨ objs s' !! me = None → served s time → served s' time.
Proof. intros [E | E] Hs o Ho; rewrite E in Ho; [by apply Hs|done]. Qed.

Lemma req_kept_report s got st :
  server_wf s → (∀ c, got = Some c → copy_ok me s c) → req_kept s (report_write me s got st).1.
Proof.
  intros Hs Hgot o' Ho'. pose proof (report_write_spec me _ _ _ _ Hs Hgot Ho') as Hspec.
  destruct (objs s !! me) as [o|].
  - right; exists o; split; [done|]. unfold req, req_time; by rewrite Hspec.
  - left; unfold req, req_time; by rewrite (proj1 Hspec).
Qed.

(** The status of the object after a report that took effect. *)
Lemma report_write_status s s' got st o' :
  (∀ c, got = Some c → copy_ok me s c) → report_write me s got st = (s', None) →
  objs s' !! me = Some o' → Status o' = Some (new_status (stamp_status (now s) st)).
Proof.
  intros Hgot; unfold report_write; destruct got as [c|].
  - destruct (Hgot c eq_refl) as [(Hname & _) _].
    destruct (Update_inv s (report_object me (Some c) st))
      as [[Hne _] | (old & Hold & _ & _ & [[-> Hold'] | ->])]; [by intros E; rewrite E in Hne|..]; intros [= <-].
    + cbn in Hold; rewrite Hname in Hold; rewrite Hold; intros [= <-]. by rewrite <-Hold'.
    + cbn; rewrite Hname, lookup_insert_eq; by intros [= <-].
  - destruct (Create_inv s (report_object me None st)) as [[Hne _] | [-> _]];
      [by intros E; rewrite E in Hne|]; intros [= <-].
    cbn; rewrite lookup_insert_eq; by intros [= <-].
Qed.

Lemma report_write_state s s' got st o' :
  (∀ c, got = Some c → copy_ok me s c) → report_write me s got st = (s', None) →
  objs s' !! me = Some o' → state_of o' = Some (State st).
Proof.
  intros Hgot E Ho'; unfold state_of; rewrite (report_write_status s s' got st o') by done; cbn.
  unfold stamp_status; by case_match.
Qed.

Lemma QInv_phase i p w :
  QInv w → (∀ a, agents w !! i = Some a → past_fetch p = true → past_fetch (phase a) = true) →
  QInv (set_phase i p w).
Proof.
  intros [Hf Hs] Hp; unfold set_phase; destruct (agents w !! i) as [a|] eqn:E; [|done].
  split; [|done]. cbn; apply Forall_insert; [done|].
  destruct (Forall_lookup_1 _ _ _ _ Hf E) as [H0 Ha]; split; cbn; [done|]. intros; apply Ha; eauto.
Qed.

Lemma QInv_land i a st got k w :
  Inv me w → QInv w → agents w !! i = Some a → phase a = ReportPut st got k → QInv (land me a st got w).
Proof.
  intros HI [Hf Hsv] Ha Ep; pose proof HI as (Hs & _ & Hall).
  pose proof (Forall_lookup_1 _ _ _ _ Hall Ha) as Hp; cbn in Hp; rewrite Ep in Hp; destruct Hp as [Hst Hgot].
  destruct (Forall_lookup_1 _ _ _ _ Hf Ha) as [H0 Hfresh].
  pose proof (req_kept_report (srv w) got st Hs Hgot) as Hk.
  unfold land; destruct (report_write me (srv w) got st) as [s' [e|]] eqn:E; cbn in *.
  { split; [by eapply fresh_kept|]. cbn. assert (s' = srv w) as ->; [|done].
    unfold report_write in E; destruct got;
      [destruct (Update_inv (srv w) (report_object me (Some i0) st)) as [[_ H] | (? & _ & _ & _ & [[H _] | H])]
      |destruct (Create_inv (srv w) (report_object me None st)) as [[_ H] | [H _]]]; rewrite E in H; by simplify_eq. }
  pose proof (λ o', report_write_state (srv w) s' got st o' Hgot E) as Hstate.
  case_decide as Hc; (split; [by eapply fresh_kept|]); intros o' Ho' Hconv Hlt.
  - cbn in *. destruct (Hk o' Ho') as [-> | (o & Ho & ->)]; [done|].
    apply Hfresh; [|done]. rewrite Ep; cbn. rewrite bool_decide_true by done; by destruct k.
  - cbn in Ho'; rewrite (Hstate o' Ho') in Hconv; congruence.
Qed.

Lemma QInv_srv s' w :
  QInv w → objs s' !! me = objs (srv w) !! me ∨ objs s' !! me = None → QInv (set_srv s' w).
Proof.
  intros [Hf Hs] E; split; cbn; [eapply fresh_kept; [|exact Hf]; by apply req_kept_same|by eapply served_same].
Qed.

Lemma agent_step_QInv i a w e :
  Inv me w → QInv w → agents w !! i = Some a → QInv (agent_step me sha256 i a w e).
Proof.
  intros HI HQ Ha; pose proof HI as ((Hn & _ & Hobj) & _ & _).
  assert (Hph : ∀ p w', agents w' = agents w → QInv w' →
    (past_fetch p = true → past_fetch (phase a) = true) → QInv (set_phase i p w')).
  { intros p w' E HQ' Hp; apply QInv_phase; [done|]. rewrite E, Ha; by intros ? [= ->]. }
  unfold agent_step; destruct e; try done; destruct (phase a) eqn:Ep; try done.
  - case_match; [done|]; by apply Hph.
  - case_decide; [done|]; by apply Hph.
  - destruct n; apply Hph; try done; by destruct k.
  - pose proof (QInv_land i a st got k w HI HQ Ha Ep) as HL.
    assert (Hag : agents (land me a st got w) = agents w).
    { unfold land; destruct (report_write _ _ _ _) as [? [?|]]; [done|]; by case_decide. }
    destruct n; apply Hph; try done; by destruct k.
  - case_match; [|by apply Hph]. destruct HQ as [Hf Hs]; split; [|done].
    cbn; apply Forall_insert; [done|]. split; cbn; [lia|]. intros _ o Ho. by apply Hobj in Ho as (_ & _ & _ & ? & _).
  - by apply Hph.
  - destruct err; [destruct again|]; by apply Hph.
Qed.

(** A request made while nothing runs. *)
Lemma ClientPut_QInv c w :
  Inv me w → QInv w → client w = Some c → existsb running (agents w) = false →
  QInv (set_client None (set_srv (Update (srv w) (reapply c)).1 w)).
Proof.
  intros (Hs & Hc & _) [Hf Hsv] Hcl Hquiet; split; cbn.
  - apply Forall_forall; intros a Ha; destruct (Forall_forall (fresh_agent (srv w)) (agents w)) as [H _].
    destruct (H Hf a Ha) as [H0 _]; split; [done|]. intros Hp; exfalso.
    apply past_fetch_running in Hp. apply list_elem_of_In in Ha.
    assert (existsb running (agents w) = true) by (apply existsb_exists; eauto). congruence.
  - intros o' Ho' Hst Hlt. destruct (objs (srv w) !! me) as [o|] eqn:Ho.
    + destruct (reapply_stored me (srv w) c o o' Hs (Hc c Hcl) Ho Ho') as [-> | [E1 E2]]; [by apply Hsv|].
      destruct Hs as (_ & _ & Hobj); apply Hobj in Ho as (_ & _ & _ & _ & Hu). lia.
    + destruct (Hc c Hcl) as [(Hname & _) _].
      destruct (Update_inv (srv w) (reapply c)) as [[_ E] | (old & Hold & _)]; [rewrite E in Ho'; congruence|].
      cbn in Hold; congruence.
Qed.

Lemma step_QInv w e : Inv me w → QInv w → quiet w e → QInv (step me sha256 w e).
Proof.
  intros HI HQ Hquiet; pose proof HI as (Hs & _).
  destruct e; cbn [step]; try (case_match; [|done]); try (by apply agent_step_QInv); try done.
  - case_match; try done; by apply QInv_phase.
  - unfold sync_step; destruct (phase _); try done.
    destruct (sync_decision (cache w)); [|by apply QInv_phase..].
    assert (QInv (set_srv (Create (srv w) (report_object me None converging_status)).1 w)).
    { destruct (Create_inv (srv w) (report_object me None converging_status)) as [[_ E] | [E _]].
      { rewrite E; apply QInv_srv; [done|by left]. }
      destruct HQ as [Hf Hsv]; split; [eapply fresh_kept; [|exact Hf]; by apply (req_kept_report _ None)|].
      intros o Ho Hst; rewrite E in Ho. cbn in Ho; by rewrite lookup_insert_eq in Ho; simplify_eq. }
    destruct n; by apply QInv_phase.
  - by apply ClientPut_QInv, Hquiet.
  - apply QInv_srv; [done|].
    destruct (Delete_inv (srv w) me) as [-> | ->]; cbn; [by left|]. right; apply lookup_delete_eq.
  - unfold signal_step; case_match; [|done]. destruct s; [apply QInv_phase|..]; done.
Qed.

Lemma quietly_QInv t w : (0 < t)%Z → quietly me sha256 t w → QInv w.
Proof.
  intros Ht; induction 1 as [|w e Hq IH Hqe].
  - split; cbn; [|by intros ? ?]. repeat constructor; cbn; lia || done.
  - apply step_QInv; auto. eapply reachable_Inv; [done|]. by eapply quietly_reachable.
Qed.

End Served.


(** *** Runs without interference *)

Definition good_manifest : Manifest :=
  {| m_get := inl "content"; m_read := None; m_close := None; m_copy := None; m_gzip := None;
     m_tempdir := None; m_unpack := None |}.

Definition report_events (i : nat) : list Event := [DoGet i Delivered; DoPut i Delivered].

(** One call of [puppetApplyCmd] and the decision that follows it. *)
Definition attempt_events (i : nat) (again : bool) (p : Process) : list Event :=
  DoApply i p :: report_events i ++ [DoRetry i again].

(** A run of [converge] with the attempts [ps] and a last one. *)
Definition converge_events (i : nat) (m : Manifest) (ps : list Process) (last : Process) : list Event :=
  report_events i ++ [DoPrepare i m] ++ flat_map (attempt_events i true) ps ++
  attempt_events i false last ++ report_events i.

Definition at_phase (w : World) (i : nat) (p : Phase) : Prop :=
  ∃ a, agents w !! i = Some a ∧ phase a = p.

Section Undisturbed.
Variable me : string.
Variable sha256 : string → string.

(** An update of what is stored is accepted. *)
Lemma Update_current s i c :
  server_wf s → objs s !! me = Some c → Name i = me → ResourceVersion i = ResourceVersion c →
  (Update s i).2 = None.
Proof.
  intros Hs Ec Hname Hr; destruct (Get_copy me s c Hs Ec) as [(_ & Hv & _) _].
  unfold Update, AllowUnconditionalUpdate; rewrite Admit_instance; cbn; rewrite Hname, Ec.
  rewrite andb_true_r, andb_false_r, Hr, Z.eqb_refl; destruct (ResourceVersion c =? 0)%Z eqn:E; [lia|]; cbn.
  by case_decide.
Qed.

Lemma report_accepted s st : server_wf s → (report_write me s (Get s me) st).2 = None.
Proof.
  intros Hs; unfold report_write, Get; destruct (objs s !! me) as [c|] eqn:Ec.
  - destruct (Get_copy me s c Hs Ec) as [(Hname & _) _]. by apply (Update_current s _ c).
  - unfold Create; rewrite Admit_instance; cbn; by rewrite Ec.
Qed.

(** A request on what is stored. *)
Lemma reapply_accepted s c :
  server_wf s → objs s !! me = Some c →
  ∃ o, objs (Update s (reapply c)).1 !! me = Some o ∧ req_time o = Some (now s) ∧ update_time o = update_time c.
Proof.
  intros Hs Ec; pose proof Hs as (Hn & _); destruct (Get_copy me s c Hs Ec) as [(Hname & _ & Hst & _) _].
  assert (Hreq : ∀ v, req_time (with_version v (stamp (now s) (reapply c))) = Some (now s)).
  { intros v; unfold req_time; cbn; unfold IsZero; by destruct (now s =? 0)%Z eqn:E; [lia|]. }
  assert (Hupd : ∀ v, update_time (with_version v (stamp (now s) (reapply c))) = update_time c).
  { intros v; rewrite <-(Hst (now s)) at 2; done. }
  pose proof (Update_current s (reapply c) c Hs Ec Hname eq_refl) as Hacc.
  destruct (Update_inv s (reapply c)) as [[? _] | (old & Hold & _ & _ & [[-> E] | ->])]; [done|..]; cbn in Hold.
  - rewrite Hname, Ec in Hold; injection Hold as <-. exists c; split_and!; [done| |done].
    rewrite <-(Hreq (ResourceVersion c)); by rewrite E.
  - unfold put; cbn [fst objs]; rewrite lookup_insert; cbn [stamp Name reapply]; rewrite decide_True by done; eauto.
Qed.

Lemma report_present s st : server_wf s → ∃ o, objs (report_write me s (Get s me) st).1 !! me = Some o.
Proof.
  intros Hs; pose proof (report_accepted s st Hs) as Hacc.
  unfold report_write, Get in *; destruct (objs s !! me) as [c|] eqn:Ec.
  - destruct (Get_copy me s c Hs Ec) as [(Hname & _) _].
    destruct (Update_inv s (report_object me (Some c) st)) as [[? _] | (? & _ & _ & _ & [[-> _] | ->])];
      [done|by cbn; rewrite Ec; eauto|]. cbn; rewrite Hname, lookup_insert_eq; eauto.
  - destruct (Create_inv s (report_object me None st)) as [[? _] | [-> _]]; [done|].
    cbn; rewrite lookup_insert_eq; eauto.
Qed.

Lemma report_now s got st : now (report_write me s got st).1 = now s.
Proof.
  unfold report_write; destruct got as [c|].
  - by destruct (Update_inv s (report_object me (Some c) st)) as [[_ ->] | (? & _ & _ & _ & [[-> _] | ->])].
  - by destruct (Create_inv s (report_object me None st)) as [[_ ->] | [-> _]].
Qed.

(** What a goroutine has achieved when it is at phase [p]: the object has
    status [m] and specification [spec]. *)
Definition reported (w : World) (m : InstanceStatusManifest) (spec : option InstanceSpec) : Prop :=
  ∃ o, objs (srv w) !! me = Some o ∧ Status o = Some (new_status m) ∧ Spec o = spec.

Lemma set_phase_at i p a w : agents w !! i = Some a →
  agents (set_phase i p w) !! i = Some {| phase := p; fetched := fetched a |}.
Proof.
  intros Ha; unfold set_phase; rewrite Ha; cbn. apply list_lookup_insert_eq. by eapply lookup_lt_Some.
Qed.

Lemma land_agents a st got w : agents (land me a st got w) = agents w.
Proof. unfold land; destruct (report_write _ _ _ _) as [? [?|]]; [done|]; by case_decide. Qed.

(** [reportStatus] with both calls delivered. *)
Lemma do_report i f st k w :
  server_wf (srv w) → agents w !! i = Some {| phase := ReportGet st k; fetched := f |} →
  LastUpdateTimestamp st = 0%Z →
  let w' := run me sha256 w (report_events i) in
  server_wf (srv w') ∧ now (srv w') = now (srv w) ∧
  agents w' !! i = Some {| phase := continue st k; fetched := f |} ∧
  reported w' (stamp_status (now (srv w)) st) (objs (srv w) !! me ≫= Spec) ∧
  (State st = InstanceManifestStateConverged → applied w' = f).
Proof.
  intros Hs Ha Hst. cbn -[step]. cbn [step]. rewrite Ha; cbn [agent_step phase].
  rewrite (set_phase_at i _ _ _ Ha); cbn [agent_step phase fetched].
  set (w1 := set_phase i _ w). assert (Hs1 : srv w1 = srv w) by apply set_phase_srv.
  assert (Ha1 : agents w1 !! i = Some {| phase := ReportPut st (Get (srv w) me) k; fetched := f |})
    by (unfold w1; by rewrite (set_phase_at i _ _ _ Ha)).
  set (a := {| phase := _; fetched := f |}) in Ha1 |- *.
  assert (Hc : ∀ c, Get (srv w) me = Some c → copy_ok me (srv w) c) by (intros c; by apply Get_copy).
  destruct (report_write_evolves me (srv w) (Get (srv w) me) st Hs Hst Hc) as [Hwf _].
  pose proof (report_accepted (srv w) st Hs) as Hacc.
  destruct (report_present (srv w) st Hs) as [o Ho].
  pose proof (report_now (srv w) (Get (srv w) me) st) as Hn.
  pose proof (report_write_spec me _ _ _ _ Hs Hc Ho) as Hspec.
  assert (Hl : srv (land me a st (Get (srv w) me) w1) = (report_write me (srv w) (Get (srv w) me) st).1 ∧
    (State st = InstanceManifestStateConverged → applied (land me a st (Get (srv w) me) w1) = f)).
  { unfold land; rewrite Hs1. destruct (report_write me (srv w) _ st) as [s' r]; cbn in Hacc; subst r.
    case_decide; by split. }
  destruct Hl as [Hl Happ].
  assert (Hlk : agents (land me a st (Get (srv w) me) w1) !! i = Some a) by by rewrite land_agents.
  rewrite set_phase_srv, Hl; split_and!; [done|done|by rewrite (set_phase_at i _ _ _ Hlk)| |].
  - exists o; rewrite set_phase_srv, Hl; split_and!; [done| |].
    + eapply report_write_status; [exact Hc| |exact Ho].
      destruct (report_write me (srv w) _ st); cbn in *; by subst.
    + destruct (objs (srv w) !! me); cbn; [done|]. by destruct Hspec.
  - intros Hc'; unfold set_phase; rewrite Hlk; cbn; auto.
Qed.

Lemma run_app w es es' : run me sha256 w (es ++ es') = run me sha256 (run me sha256 w es) es'.
Proof. apply foldl_app. Qed.

Definition spec_at (w : World) : option InstanceSpec := objs (srv w) !! me ≫= Spec.

Lemma reported_spec w m spec : reported w m spec → spec_at w = spec.
Proof. intros (o & Ho & _ & Hspec); unfold spec_at; by rewrite Ho. Qed.

(** One attempt, up to the decision of the retry loop. *)
Lemma do_attempt i f hash st p w :
  server_wf (srv w) → agents w !! i = Some {| phase := Applying hash st; fetched := f |} →
  let w' := run me sha256 w (DoApply i p :: report_events i) in
  server_wf (srv w') ∧ now (srv w') = now (srv w) ∧ spec_at w' = spec_at w ∧
  agents w' !! i = Some {| phase := Retrying hash (puppetApplyCmd hash st p) (attempt_error p); fetched := f |}.
Proof.
  intros Hs Ha. set (w1 := set_phase i (ReportGet (puppetApplyCmd hash st p) (ThenRetry hash (attempt_error p))) w).
  assert (E1 : step me sha256 w (DoApply i p) = w1) by (cbn [step]; by rewrite Ha).
  change (run me sha256 w (DoApply i p :: report_events i))
    with (run me sha256 (step me sha256 w (DoApply i p)) (report_events i)).
  rewrite E1. assert (Hs1 : srv w1 = srv w) by apply set_phase_srv.
  destruct (do_report i f (puppetApplyCmd hash st p) (ThenRetry hash (attempt_error p)) w1) as (H1 & H2 & H3 & H4 & _).
  { by rewrite Hs1. } { by apply (set_phase_at i _ _ w Ha). } { done. }
  rewrite Hs1 in H2, H4. cbn zeta; split_and!; [done..| |done]. by rewrite (reported_spec _ _ _ H4).
Qed.

Lemma do_attempts i f hash ps : ∀ st w,
  server_wf (srv w) → agents w !! i = Some {| phase := Applying hash st; fetched := f |} →
  Forall (λ p, attempt_error p ≠ None) ps →
  let w' := run me sha256 w (flat_map (attempt_events i true) ps) in
  server_wf (srv w') ∧ now (srv w') = now (srv w) ∧ spec_at w' = spec_at w ∧
  agents w' !! i = Some {| phase := Applying hash (foldl (puppetApplyCmd hash) st ps); fetched := f |}.
Proof.
  induction ps as [|p ps IH]; intros st w Hs Ha Hf; cbn zeta; [done|].
  inversion Hf as [|? ? Hp Hps]; subst.
  destruct (do_attempt i f hash st p w Hs Ha) as (H1 & H2 & H3 & H4).
  change (flat_map (attempt_events i true) (p :: ps))
    with ((DoApply i p :: report_events i) ++ DoRetry i true :: flat_map (attempt_events i true) ps).
  rewrite run_app. set (w1 := run me sha256 w (DoApply i p :: report_events i)) in *.
  set (w2 := set_phase i (Applying hash (puppetApplyCmd hash st p)) w1).
  assert (E2 : step me sha256 w1 (DoRetry i true) = w2).
  { cbn [step]; rewrite H4; cbn [agent_step phase]. by destruct (attempt_error p). }
  change (run me sha256 w1 (DoRetry i true :: flat_map (attempt_events i true) ps))
    with (run me sha256 (step me sha256 w1 (DoRetry i true)) (flat_map (attempt_events i true) ps)).
  rewrite E2. assert (Hs2 : srv w2 = srv w1) by apply set_phase_srv.
  destruct (IH (puppetApplyCmd hash st p) w2) as (K1 & K2 & K3 & K4).
  { by rewrite Hs2. } { by apply (set_phase_at i _ _ w1 H4). } { done. }
  split_and!; [done|by rewrite K2, Hs2| |done]. rewrite K3, <-H3; unfold spec_at; by rewrite Hs2.
Qed.

Lemma puppetApplyCmds hash ps st :
  status_Hash st = hash ∨ ps ≠ [] → State st = InstanceManifestStateConverging → LastUpdateTimestamp st = 0%Z →
  foldl (puppetApplyCmd hash) st ps =
  {| State := InstanceManifestStateConverging; status_Hash := hash; LastUpdateTimestamp := 0;
     Messages := Messages st ++ map attempt_message ps;
     ExitCodes := ExitCodes st ++ map (λ p, (puppetApply p).1.2) ps |}.
Proof.
  revert st; induction ps as [|p ps IH]; intros st Hh Hs Hl; cbn [foldl map].
  - destruct Hh; [|done]; destruct st; cbn in *; subst; by rewrite !app_nil_r.
  - rewrite IH by (cbn; auto); cbn. by rewrite <-!app_assoc.
Qed.

(** The first report and the manifest. *)
Lemma do_start i f m w :
  server_wf (srv w) → agents w !! i = Some {| phase := start_run; fetched := f |} →
  let w' := run me sha256 w (report_events i ++ [DoPrepare i m]) in
  server_wf (srv w') ∧ now (srv w') = now (srv w) ∧ spec_at w' = spec_at w ∧
  agents w' !! i = Some match prepare sha256 m with
                        | inl hash => {| phase := Applying hash converging_status; fetched := now (srv w) |}
                        | inr e => {| phase := ReportGet (errored converging_status e) ThenReturn; fetched := f |}
                        end.
Proof.
  intros Hs Ha; rewrite run_app.
  destruct (do_report i f converging_status ThenPrepare w Hs Ha eq_refl) as (H1 & H2 & H3 & H4 & _).
  set (w1 := run me sha256 w (report_events i)) in *. cbn zeta.
  change (run me sha256 w1 [DoPrepare i m]) with (step me sha256 w1 (DoPrepare i m)).
  cbn [step]; rewrite H3; cbn [agent_step phase continue].
  pose proof (reported_spec _ _ _ H4) as Hsp.
  destruct (prepare sha256 m); cbn [set_agent srv].
  - split_and!; [done..|]. rewrite <-H2. cbn. apply list_lookup_insert_eq. by eapply lookup_lt_Some.
  - unfold spec_at; rewrite set_phase_srv; split_and!; [done..|]. by apply (set_phase_at i _ _ w1 H3).
Qed.

End Undisturbed.

(** The run of [converge] whose calls get through. *)
Lemma converge_run me sha256 i f m ps last hash w :
  server_wf (srv w) → agents w !! i = Some {| phase := start_run; fetched := f |} →
  prepare sha256 m = inl hash → Forall (λ p, attempt_error p ≠ None) ps →
  let w' := run me sha256 w (converge_events i m ps last) in
  agents w' !! i = Some {| phase := Idle; fetched := now (srv w) |} ∧ applied w' = now (srv w) ∧
  reported me w'
    {| State := InstanceManifestStateConverged; status_Hash := hash; LastUpdateTimestamp := now (srv w);
       Messages := map attempt_message (ps ++ [last]);
       ExitCodes := map (λ p, (puppetApply p).1.2) (ps ++ [last]) |}
    (spec_at me w).
Proof.
  intros Hs Ha Hm Hps. unfold converge_events; rewrite app_assoc, run_app.
  destruct (do_start me sha256 i f m w Hs Ha) as (A1 & A2 & A3 & A4); rewrite Hm in A4.
  set (w1 := run me sha256 w _) in *. rewrite run_app.
  destruct (do_attempts me sha256 i (now (srv w)) hash ps converging_status w1 A1 A4 Hps) as (B1 & B2 & B3 & B4).
  set (w2 := run me sha256 w1 _) in *.
  change (attempt_events i false last) with ((DoApply i last :: report_events i) ++ [DoRetry i false]).
  rewrite <-app_assoc, run_app.
  destruct (do_attempt me sha256 i _ hash _ last w2 B1 B4) as (C1 & C2 & C3 & C4).
  set (w3 := run me sha256 w2 _) in *.
  set (st := puppetApplyCmd hash _ last) in *.
  set (w4 := set_phase i (ReportGet (converged st) ThenReturn) w3).
  assert (E4 : step me sha256 w3 (DoRetry i false) = w4).
  { cbn [step]; rewrite C4; cbn [agent_step phase]. by destruct (attempt_error last). }
  change (run me sha256 w3 ([DoRetry i false] ++ report_events i))
    with (run me sha256 (step me sha256 w3 (DoRetry i false)) (report_events i)).
  rewrite E4. assert (Hs4 : srv w4 = srv w3) by apply set_phase_srv.
  destruct (do_report me sha256 i (now (srv w)) (converged st) ThenReturn w4) as (D1 & D2 & D3 & D4 & D5).
  { by rewrite Hs4. } { by apply (set_phase_at i _ _ w3 C4). } { done. }
  cbn zeta; split_and!; [done|by apply D5|].
  rewrite Hs4, C2, B2, A2 in D4.
  assert (Est : st = foldl (puppetApplyCmd hash) converging_status (ps ++ [last])) by (by rewrite foldl_app).
  rewrite Est, puppetApplyCmds in D4 by (try done; right; by destruct ps).
  unfold spec_at; fold (spec_at me w3) in D4; rewrite C3, B3, A3 in D4; exact D4.
Qed.

(** A converge whose calls get through: whatever the object was, in the end
    its status lists the messages and exit codes of the attempts in order and
    the hash of the manifest, is stamped with the time of the report, and its
    specification is untouched.  The state is [converged] also when the last
    attempt failed: the error of the retries is only logged. *)
Theorem converge_reports me sha256 i f m ps last hash w :
  server_wf (srv w) → agents w !! i = Some {| phase := start_run; fetched := f |} →
  prepare sha256 m = inl hash → Forall (λ p, attempt_error p ≠ None) ps →
  let w' := run me sha256 w (converge_events i m ps last) in
  agents w' !! i = Some {| phase := Idle; fetched := now (srv w) |} ∧ applied w' = now (srv w) ∧
  reported me w'
    {| State := InstanceManifestStateConverged; status_Hash := hash; LastUpdateTimestamp := now (srv w);
       Messages := map attempt_message (ps ++ [last]);
       ExitCodes := map (λ p, (puppetApply p).1.2) (ps ++ [last]) |}
    (spec_at me w).
Proof. apply converge_run. Qed.

(** A converge whose manifest cannot be fetched, read or unpacked ends with
    the state [error] and the error as its message; Puppet is not run and the
    specification is untouched. *)
Theorem converge_fails me sha256 i f m e w :
  server_wf (srv w) → agents w !! i = Some {| phase := start_run; fetched := f |} →
  prepare sha256 m = inr e →
  let w' := run me sha256 w (report_events i ++ [DoPrepare i m] ++ report_events i) in
  agents w' !! i = Some {| phase := Idle; fetched := f |} ∧
  reported me w'
    {| State := InstanceManifestStateError; status_Hash := ""; LastUpdateTimestamp := now (srv w);
       Messages := [error_string e]; ExitCodes := [] |} (spec_at me w).
Proof.
  intros Hs Ha Hm; rewrite app_assoc, run_app.
  destruct (do_start me sha256 i f m w Hs Ha) as (A1 & A2 & A3 & A4); rewrite Hm in A4.
  set (w1 := run me sha256 w _) in *.
  destruct (do_report me sha256 i f _ ThenReturn w1 A1 A4 eq_refl) as (D1 & D2 & D3 & D4 & _).
  cbn zeta; split; [done|]. rewrite A2 in D4. fold (spec_at me w1) in D4; rewrite A3 in D4; exact D4.
Qed.

(** *** Requests are served *)

(** A command makes a request and the controller of the agent takes it up. *)
Definition request_events : list Event :=
  [ClientList; ClientPut; Notify; Dequeue; PassWG controller; Sync Delivered].

Lemma existsb_insert {A} (g : A → bool) i a l :
  existsb g l = false → g a = false → existsb g (<[i := a]> l) = false.
Proof.
  revert i; induction l as [|b l IH]; intros [|i]; cbn; auto; rewrite !orb_false_iff; intuition.
Qed.

Lemma request_taken me sha256 w c f :
  server_wf (srv w) → objs (srv w) !! me = Some c → update_time c ≠ None → (upd c ≤ now (srv w))%Z →
  agents w !! controller = Some {| phase := Idle; fetched := f |} → existsb running (agents w) = false →
  let w' := run me sha256 w request_events in
  srv w' = (Update (srv w) (reapply c)).1 ∧ agents w' !! controller = Some {| phase := start_run; fetched := f |}.
Proof.
  intros Hs Hc Hu Hle Ha Hr.
  destruct (reapply_accepted me (srv w) c Hs Hc) as (o & Ho & Hreq & Hupd).
  assert (Hdec : sync_decision (Some o) = RunConverge).
  { cbn; rewrite Hreq, Hupd. unfold upd in Hle. destruct (update_time c) as [u|]; [|done]. cbn in Hle.
    unfold After. by destruct (now (srv w) <? u)%Z eqn:E; [lia|]. }
  set (s1 := (Update (srv w) (reapply c)).1) in *.
  set (w3 := set_cache (Some o) (set_client None (set_srv s1 (set_client (Some c) w)))).
  assert (E3 : run me sha256 w [ClientList; ClientPut; Notify] = w3).
  { unfold run; cbn [foldl step]. unfold Get; rewrite Hc. unfold w3, set_cache; f_equal. exact Ho. }
  set (w4 := set_phase controller WaitWG w3). set (w5 := set_phase controller Ready w4).
  assert (E4 : step me sha256 w3 Dequeue = w4) by (cbn [step]; by rewrite (Ha : agents w3 !! _ = _)).
  pose proof (set_phase_at controller WaitWG _ w3 Ha) as Ha4; fold w4 in Ha4.
  assert (Hag4 : existsb running (agents w4) = false).
  { unfold w4, set_phase; rewrite (Ha : agents w3 !! _ = _). by apply existsb_insert. }
  assert (E5 : step me sha256 w4 (PassWG controller) = w5).
  { cbn [step]; rewrite Ha4; cbn [agent_step phase]. by rewrite Hag4. }
  pose proof (set_phase_at controller Ready _ w4 Ha4) as Ha5; fold w5 in Ha5.
  assert (Hc5 : cache w5 = Some o).
  { unfold w5, set_phase; rewrite Ha4; unfold w4, set_phase; by rewrite (Ha : agents w3 !! _ = _). }
  assert (E6 : step me sha256 w5 (Sync Delivered) = set_phase controller start_run w5).
  { cbn [step]; rewrite Ha5; unfold sync_step; cbn [phase]. by rewrite Hc5, Hdec. }
  change request_events with ([ClientList; ClientPut; Notify] ++ [Dequeue; PassWG controller; Sync Delivered]).
  rewrite run_app, E3. unfold run; cbn [foldl]. rewrite E4, E5, E6.
  split; [unfold w5, w4; by rewrite !set_phase_srv|by apply (set_phase_at controller start_run _ w5 Ha5)].
Qed.


(** ** Behaviour that is not intended *)

Lemma reachable_run me sha256 t w es : reachable me sha256 t w → reachable me sha256 t (run me sha256 w es).
Proof. revert w; induction es as [|e es IH]; intros w Hw; [done|]. apply IH; by constructor. Qed.

(** The first run reads the manifest, a request arrives, the run ends. *)
Definition lost_request : list Event :=
  StartRun 0 :: report_events 0 ++
  [DoPrepare 0 good_manifest; Tick 5; ClientList; ClientPut; Tick 5] ++
  attempt_events 0 false (Exits "done") ++ report_events 0.

(** A request made while a converge runs is lost: there is a run in which
    the manifests were read before the request, the instance is converged
    all the same, and the controller decides that no converge is
    necessary. *)
Theorem request_during_run_lost :
  ∃ w, reachable "node" id 1 w ∧
    match objs (srv w) !! "node" with
    | Some o => state_of o = Some InstanceManifestStateConverged ∧ (applied w < req o < upd o)%Z ∧
                sync_decision (Some o) = NoConverge
    | None => False
    end.
Proof.
  exists (run "node" id (boot 1) lost_request); split; [apply reachable_run; constructor|].
  vm_compute; by split_and!.
Qed.

(** The wait group does not keep converges apart, because it is waited for
    and entered in two steps: the controller and the signal handler can both
    pass it and run at the same time. *)
Theorem converges_overlap :
  ∃ w, reachable "node" id 1 w ∧ (2 ≤ length (filter (λ a, running a = true) (agents w))).
Proof.
  exists (run "node" id (boot 1)
    ([StartRun 0] ++ converge_events 0 good_manifest [] (Exits "done") ++
     [ClientList; ClientPut; Notify; Dequeue; Signal SIGHUP; PassWG controller; PassWG handler;
      Sync Delivered; StartRun handler])).
  split; [apply reachable_run; constructor|]. vm_compute; lia.
Qed.

Lemma set_phase_signals i p w :
  listening (set_phase i p w) = listening w ∧ stopped (set_phase i p w) = stopped w.
Proof. unfold set_phase; by case_match. Qed.

(** A handler that has returned leaves the agent as it is. *)
Lemma step_deaf me sha256 w e :
  listening w = false → let w' := step me sha256 w e in listening w' = false ∧ stopped w' = stopped w.
Proof.
  assert (Hland : ∀ a st got, listening (land me a st got w) = listening w ∧
                              stopped (land me a st got w) = stopped w).
  { intros a st got; unfold land; destruct (report_write _ _ _ _) as [? [?|]]; [done|]; by case_decide. }
  intros Hl; cbn zeta; destruct e; cbn [step]; try (case_match; [|done]); try done;
    unfold agent_step, sync_step, signal_step; rewrite ?Hl; try done;
    destruct (phase a); try done; repeat case_match; try done;
    rewrite ?(proj1 (set_phase_signals _ _ _)), ?(proj2 (set_phase_signals _ _ _));
    by rewrite ?(proj1 (Hland _ _ _)), ?(proj2 (Hland _ _ _)).
Qed.

(** The signal handler reads a single signal: after a SIGHUP the agent is
    never stopped by a later SIGTERM or SIGINT, whatever happens. *)
Theorem sighup_disables_stop me sha256 w es :
  listening w = true → stopped w = false →
  stopped (run me sha256 (step me sha256 w (Signal SIGHUP)) es) = false.
Proof.
  intros Hl Hst.
  assert (H0 : listening (step me sha256 w (Signal SIGHUP)) = false ∧
               stopped (step me sha256 w (Signal SIGHUP)) = false).
  { cbn [step]; unfold signal_step; rewrite Hl, Hst; cbn.
    by rewrite (proj1 (set_phase_signals _ _ _)), (proj2 (set_phase_signals _ _ _)). }
  revert H0; generalize (step me sha256 w (Signal SIGHUP)); clear.
  induction es as [|e es IH]; intros w [Hl Hs]; [done|].
  apply IH. destruct (step_deaf me sha256 w e Hl) as [-> ->]; done.
Qed.

(** ** Witnesses *)

Definition served_run : World :=
  run "node" id (boot 1)
    ([StartRun 0] ++ converge_events 0 good_manifest [] (Exits "done") ++ [Tick 5]).

Definition requested_run : World := run "node" id served_run [ClientList].

Definition obj_at (w : World) : Instance :=
  default (report_object "node" None converging_status) (objs (srv w) !! "node").

Lemma served_run_reachable : reachable "node" id 1 served_run.
Proof. apply reachable_run; constructor. Qed.

Lemma requests_survive_witness :
  (req (obj_at requested_run) ≤ req (obj_at (step "node" id requested_run ClientPut)))%Z.
Proof.
  apply (requests_survive "node" id 1 requested_run ClientPut
           (obj_at requested_run) (obj_at (step "node" id requested_run ClientPut)));
    [lia|apply reachable_run, served_run_reachable|vm_compute; reflexivity..].
Defined.

(** Runs in which every request comes while nothing runs. *)
Fixpoint quiet_run (me : string) (sha256 : string → string) (w : World) (es : list Event) : bool :=
  match es with
  | [] => true
  | e :: es =>
      match e with ClientPut => negb (existsb running (agents w)) | _ => true end &&
      quiet_run me sha256 (step me sha256 w e) es
  end.

Lemma quiet_run_quietly me sha256 t w es :
  quietly me sha256 t w → quiet_run me sha256 w es = true → quietly me sha256 t (run me sha256 w es).
Proof.
  revert w; induction es as [|e es IH]; intros w Hw; [done|]. cbn; rewrite andb_true_iff; intros [He Hes].
  apply (IH (step me sha256 w e)); [|done]. constructor; [done|]. intros ->; by apply negb_true_iff.
Qed.

Definition twice_run : list Event :=
  [StartRun 0] ++ converge_events 0 good_manifest [] (Exits "done") ++ [Tick 5] ++
  request_events ++ [Tick 5] ++
  converge_events controller good_manifest [ExitsWith "changed" 2] (Exits "done").


Definition started_run : World := run "node" id (boot 1) [StartRun 0].

Lemma boot_wf : server_wf (srv started_run).
Proof. split_and!; [done..|apply map_Forall_empty]. Qed.

(** The last attempt fails; the instance is converged. *)
Lemma converge_reports_witness :
  reported "node"
    (run "node" id started_run
       (converge_events 0 good_manifest [ExitsWith "changed" 2] (ExitsWith "failed" 1)))
    {| State := "converged"; status_Hash := "sha256:content"; LastUpdateTimestamp := 1;
       Messages := map attempt_message [ExitsWith "changed" 2; ExitsWith "failed" 1];
       ExitCodes := [2; 1]%Z |} None.
Proof.
  apply (converge_reports "node" id 0 0 good_manifest [ExitsWith "changed" 2] (ExitsWith "failed" 1)
           "sha256:content" started_run);
    [apply boot_wf|reflexivity|reflexivity|repeat constructor; discriminate].
Defined.

Lemma converge_fails_witness :
  reported "node"
    (run "node" id started_run
       (report_events 0 ++
        [DoPrepare 0 {| m_get := inr (Errorf "no manifest"); m_read := None; m_close := None; m_copy := None;
                        m_gzip := None; m_tempdir := None; m_unpack := None |}] ++ report_events 0))
    {| State := "error"; status_Hash := ""; LastUpdateTimestamp := 1; Messages := ["no manifest"];
       ExitCodes := [] |} None.
Proof.
  apply (converge_fails "node" id 0 0 _ (Errorf "no manifest") started_run);
    [apply boot_wf|reflexivity|reflexivity].
Defined.


Lemma sighup_disables_stop_witness :
  stopped (run "node" id (step "node" id (boot 1) (Signal SIGHUP)) [Signal SIGTERM]) = false.
Proof. apply sighup_disables_stop; reflexivity. Defined.

