(* ===== verification/Controller.v ===== *)
(** * Controller: the queue of instances in Wing

    [processNextItem], [handleErr], [Run] and [runWorker] of
    [src/pkg/wing/controller.go], with the callbacks [watchForNotifications] of
    [src/pkg/wing/wing.go] gives the informer: workers take keys from a queue,
    synchronise them, and queue them again, later, when that fails.

    The controller uses the queue through [WorkQueue], a class of the operations
    with their laws; [WQ] is the queue of client-go
    ([src/vendor/k8s.io/client-go/util/workqueue/queue.go]), which has them.
    A key is added some time after it was asked for ([AddAfter],
    [AddRateLimited]): [ct_delayed] holds what is waiting for its time.  What a
    synchronisation does is in [Wing]; here it ends with an error or without. *)

From S2P Require Import Prelude Wing.

(** ** The interface of the queue *)

(** [wq_wants] are the keys to be processed, [wq_busy] those being processed;
    [wq_Get] is [None] when nothing can be taken. *)
Class WorkQueue (Q : Type) := {
  wq_new : Q;
  wq_Add : string → Q → Q;
  wq_Get : Q → option (string * Q);
  wq_Done : string → Q → Q;
  wq_ShutDown : Q → Q;
  wq_down : Q → bool;
  wq_wants : Q → gset string;
  wq_busy : Q → gset string;
}.

Class WorkQueueLaws (Q : Type) `{WorkQueue Q} := {
  wq_ok : Q → Prop;
  new_ok : wq_ok wq_new ∧ wq_wants wq_new = ∅ ∧ wq_busy wq_new = ∅ ∧ wq_down wq_new = false;
  Add_ok q k : wq_ok q →
    wq_ok (wq_Add k q) ∧ wq_busy (wq_Add k q) = wq_busy q ∧ wq_down (wq_Add k q) = wq_down q ∧
    wq_wants (wq_Add k q) = if wq_down q then wq_wants q else {[ k ]} ∪ wq_wants q;
  Get_ok q k q' : wq_ok q → wq_Get q = Some (k, q') →
    wq_ok q' ∧ k ∈ wq_wants q ∧ k ∉ wq_busy q ∧ wq_wants q' = wq_wants q ∖ {[ k ]} ∧ wq_busy q' = {[ k ]} ∪ wq_busy q ∧
    wq_down q' = wq_down q;
  Get_empty q : wq_ok q → wq_Get q = None → wq_wants q ⊆ wq_busy q;
  Done_ok q k : wq_ok q → k ∈ wq_busy q →
    wq_ok (wq_Done k q) ∧ wq_wants (wq_Done k q) = wq_wants q ∧ wq_busy (wq_Done k q) = wq_busy q ∖ {[ k ]} ∧
    wq_down (wq_Done k q) = wq_down q;
  ShutDown_ok q : wq_ok q →
    wq_ok (wq_ShutDown q) ∧ wq_wants (wq_ShutDown q) = wq_wants q ∧ wq_busy (wq_ShutDown q) = wq_busy q ∧
    wq_down (wq_ShutDown q) = true;
}.

(** ** The queue of client-go *)
Record WQ := { queue : list string; dirty : gset string; processing : gset string; shuttingDown : bool }.

Definition WQ_Add (item : string) (q : WQ) : WQ :=
  if shuttingDown q then q
  else if decide (item ∈ dirty q) then q
  else
    let q := {| q with dirty := {[ item ]} ∪ dirty q |} in
    if decide (item ∈ processing q) then q else {| q with queue := queue q ++ [item] |}.

Definition WQ_Get (q : WQ) : option (string * WQ) :=
  match queue q with
  | [] => None
  | item :: rest => Some (item, {| q with queue := rest; processing := {[ item ]} ∪ processing q; dirty := dirty q ∖ {[ item ]} |})
  end.

Definition WQ_Done (item : string) (q : WQ) : WQ :=
  let q := {| q with processing := processing q ∖ {[ item ]} |} in
  if decide (item ∈ dirty q) then {| q with queue := queue q ++ [item] |} else q.

Definition WQ_ShutDown (q : WQ) : WQ := {| q with shuttingDown := true |}.

#[export] Instance WQ_queue : WorkQueue WQ := {
  wq_new := {| queue := []; dirty := ∅; processing := ∅; shuttingDown := false |};
  wq_Add := WQ_Add;
  wq_Get := WQ_Get;
  wq_Done := WQ_Done;
  wq_ShutDown := WQ_ShutDown;
  wq_down := shuttingDown;
  wq_wants := dirty;
  wq_busy := processing;
}.

(** The comment of the type: what is queued is dirty and not in process; and
    every such key is queued, once. *)
Record WQ_ok (q : WQ) : Prop := {
  to_nodup : NoDup (queue q);
  to_queue : ∀ k, k ∈ queue q ↔ k ∈ dirty q ∧ k ∉ processing q;
}.

Lemma WQ_Add_ok q k : WQ_ok q →
  WQ_ok (WQ_Add k q) ∧ processing (WQ_Add k q) = processing q ∧ shuttingDown (WQ_Add k q) = shuttingDown q ∧
  dirty (WQ_Add k q) = if shuttingDown q then dirty q else {[ k ]} ∪ dirty q.
Proof.
  intros [Hn Hq]. unfold WQ_Add. destruct (shuttingDown q) eqn:Hs; [done|]. case_decide as Hd.
  { split_and!; [done..|]. set_solver. }
  cbn. case_decide as Hp; cbn; (split_and!; [|done..]); split; cbn.
  - done.
  - intros j. rewrite Hq. set_solver.
  - apply NoDup_app. split_and!; [done| |apply NoDup_singleton]. intros j Hj ->%list_elem_of_singleton. apply Hq in Hj. set_solver.
  - intros j. rewrite elem_of_app, Hq, list_elem_of_singleton. set_solver.
Qed.

Lemma WQ_Get_ok q k q' : WQ_ok q → WQ_Get q = Some (k, q') →
  WQ_ok q' ∧ k ∈ dirty q ∧ k ∉ processing q ∧ dirty q' = dirty q ∖ {[ k ]} ∧ processing q' = {[ k ]} ∪ processing q ∧
  shuttingDown q' = shuttingDown q.
Proof.
  intros [Hn Hq]. unfold WQ_Get. destruct (queue q) as [|item rest] eqn:E; [done|]. intros [= -> <-]. cbn.
  apply NoDup_cons in Hn as [Hk Hn]. destruct (Hq k) as [[Hd Hp] _]; [left|]. split_and!; try done. split; cbn; [done|].
  intros j. specialize (Hq j). rewrite elem_of_cons in Hq. destruct (decide (j = k)) as [->|Hne]; [set_solver|].
  transitivity (j ∈ dirty q ∧ j ∉ processing q); [naive_solver|set_solver].
Qed.

Lemma WQ_Done_ok q k : WQ_ok q → k ∈ processing q →
  WQ_ok (WQ_Done k q) ∧ dirty (WQ_Done k q) = dirty q ∧ processing (WQ_Done k q) = processing q ∖ {[ k ]} ∧
  shuttingDown (WQ_Done k q) = shuttingDown q.
Proof.
  intros [Hn Hq] Hk. unfold WQ_Done. cbn. case_decide as Hd; cbn; (split_and!; [|done..]); split; cbn.
  - apply NoDup_app. split_and!; [done| |apply NoDup_singleton]. intros j Hj ->%list_elem_of_singleton. apply Hq in Hj. set_solver.
  - intros j. rewrite elem_of_app, Hq, list_elem_of_singleton. destruct (decide (j = k)) as [->|]; set_solver.
  - done.
  - intros j. rewrite Hq. destruct (decide (j = k)) as [->|]; set_solver.
Qed.

#[export] Program Instance WQ_laws : WorkQueueLaws WQ := {| wq_ok := WQ_ok |}.
Next Obligation. split_and!; [|done..]. split; [apply NoDup_nil_2|]. cbn. set_solver. Qed.
Next Obligation. intros. by apply WQ_Add_ok. Qed.
Next Obligation. intros. by apply WQ_Get_ok. Qed.
Next Obligation.
  intros q [Hn Hq] Hg k Hk. cbn in *. unfold WQ_Get in Hg. destruct (queue q) eqn:E; [|done].
  destruct (decide (k ∈ processing q)); [done|]. assert (k ∈ @nil string) by (apply Hq; done). set_solver.
Qed.
Next Obligation. intros. by apply WQ_Done_ok. Qed.
Next Obligation. intros q [Hn Hq]. by split_and!. Qed.

(** ** The controller *)

(** A worker in [processNextItem]: waiting in [Get], in [syncToStdout],
    before [Done]; or ended, as the queue is shut down. *)
Inductive Worker := Idle | Syncing (key : string) | Finishing (key : string) | Quit.

Definition working (w : Worker) : option string := match w with Syncing k | Finishing k => Some k | _ => None end.

(** What has happened, for the statements below. *)
Inductive Entry :=
| LQueued (key : string)
| LTaken (key : string)
| LSynced (key : string) (ok : bool)
| LDropped (key : string).

#[global] Instance Entry_eq_dec : EqDecision Entry.
Proof. solve_decision. Defined.

Record Controller (Q : Type) := {
  ct_queue : Q;
  ct_requeues : gmap string nat;
  ct_delayed : gset string;
  ct_workers : list Worker;
  ct_log : list Entry;
}.
Arguments ct_queue {_} _.
Arguments ct_requeues {_} _.
Arguments ct_delayed {_} _.
Arguments ct_workers {_} _.
Arguments ct_log {_} _.

(** The informer calls back, a delay is over, the worker [i] goes on, the
    controller is stopped. *)
Inductive CEvent :=
| Notify (key : string)
| Due (key : string)
| Take (i : nat)
| Synced (i : nat) (err : option error)
| Finished (i : nat)
| Stop.

Section controller.
Context {Q : Type} `{WorkQueue Q}.
Abbreviation Ctl := (Controller Q).

(** [queue.AddAfter]: nothing once the queue is shut down. *)
Definition AddAfter (key : string) (c : Ctl) : Ctl :=
  if wq_down (ct_queue c) then c
  else {| c with ct_delayed := {[ key ]} ∪ ct_delayed c; ct_log := ct_log c ++ [LQueued key] |}.

Definition set_worker (i : nat) (w : Worker) (c : Ctl) : Ctl := {| c with ct_workers := <[i := w]> (ct_workers c) |}.

(** [handleErr]; [Forget] sets the number of requeues to zero, [AddRateLimited]
    counts one. *)
Definition handle_error (err : option error) (key : string) (c : Ctl) : Ctl :=
  let c := {| c with ct_log := ct_log c ++ [LSynced key (is_nil err)] |} in
  let '(n, again) := handleErr err (default 0 (ct_requeues c !! key)) in
  let c := {| c with ct_requeues := <[key := n]> (ct_requeues c) |} in
  if again then AddAfter key c
  else if is_nil err then c else {| c with ct_log := ct_log c ++ [LDropped key] |}.

Definition cstep (e : CEvent) (c : Ctl) : option Ctl :=
  match e with
  | Notify key => Some (AddAfter key c)
  | Due key =>
      if decide (key ∈ ct_delayed c) then
        Some {| c with ct_delayed := ct_delayed c ∖ {[ key ]}; ct_queue := wq_Add key (ct_queue c) |}
      else None
  | Take i =>
      match ct_workers c !! i with
      | Some Idle =>
          match wq_Get (ct_queue c) with
          | Some (key, q) => Some (set_worker i (Syncing key) {| c with ct_queue := q; ct_log := ct_log c ++ [LTaken key] |})
          | None => if wq_down (ct_queue c) then Some (set_worker i Quit c) else None
          end
      | _ => None
      end
  | Synced i err =>
      match ct_workers c !! i with
      | Some (Syncing key) => Some (set_worker i (Finishing key) (handle_error err key c))
      | _ => None
      end
  | Finished i =>
      match ct_workers c !! i with
      | Some (Finishing key) => Some (set_worker i Idle {| c with ct_queue := wq_Done key (ct_queue c) |})
      | _ => None
      end
  | Stop => Some {| c with ct_queue := wq_ShutDown (ct_queue c) |}
  end.

Fixpoint csteps (es : list CEvent) (c : Ctl) : option Ctl :=
  match es with
  | [] => Some c
  | e :: es' => c' ← cstep e c; csteps es' c'
  end.

(** [Run] with [threadiness] workers. *)
Definition controller_start (threadiness : nat) : Ctl :=
  {| ct_queue := wq_new; ct_requeues := ∅; ct_delayed := ∅; ct_workers := replicate threadiness Idle; ct_log := [] |}.

(** ** The invariant *)

(** Queued, and not taken since. *)
Definition owed (log : list Entry) (key : string) : Prop :=
  ∃ l1 l2, log = l1 ++ LQueued key :: l2 ∧ LTaken key ∉ l2.

(** How the synchronisations of a key have ended. *)
Definition outcomes (key : string) (log : list Entry) : list bool :=
  omap (λ e, match e with LSynced k ok => if decide (k = key) then Some ok else None | _ => None end) log.

Definition ends_in_failures (l : list bool) (n : nat) : Prop := ∃ l0, l = l0 ++ replicate n false.

Definition drops_ok (log : list Entry) : Prop :=
  ∀ l1 key l2, log = l1 ++ LDropped key :: l2 → ends_in_failures (outcomes key l1) 6.

(** *** The log *)
Lemma owed_snoc log e k : owed (log ++ [e]) k → e = LQueued k ∨ owed log k ∧ e ≠ LTaken k.
Proof.
  intros (l1 & l2 & Heq & Hn). destruct l2 as [|x l2 _] using rev_ind.
  - apply app_inj_tail in Heq as [_ ->]. by left.
  - rewrite app_comm_cons, app_assoc in Heq. apply app_inj_tail in Heq as [-> ->]. right. split; [|set_solver].
    exists l1, l2. split; [done|set_solver].
Qed.

Lemma outcomes_snoc k log e : outcomes k (log ++ [e]) = outcomes k log ++ outcomes k [e].
Proof. apply omap_app. Qed.

Lemma drops_snoc log e :
  drops_ok log → (∀ k, e = LDropped k → ends_in_failures (outcomes k log) 6) → drops_ok (log ++ [e]).
Proof.
  intros Hd He l1 k l2 Heq. destruct l2 as [|x l2 _] using rev_ind.
  - apply app_inj_tail in Heq as [-> ->]. by apply He.
  - rewrite app_comm_cons, app_assoc in Heq. apply app_inj_tail in Heq as [-> ->]. by eapply Hd.
Qed.

(** An entry that is no outcome. *)
Definition plain_entry (e : Entry) : bool := match e with LQueued _ | LTaken _ => true | _ => false end.

Lemma outcomes_plain k log e : plain_entry e = true → outcomes k (log ++ [e]) = outcomes k log.
Proof. intros He. rewrite outcomes_snoc. destruct e; try done; cbn; by rewrite app_nil_r. Qed.

Lemma failures_snoc l n : ends_in_failures l n → ends_in_failures (l ++ [false]) (S n).
Proof. intros [l0 ->]. exists l0. rewrite replicate_S_end. by rewrite app_assoc. Qed.

(** The part of the invariant about retries. *)
Definition retries_ok (requeues : gmap string nat) (log : list Entry) : Prop :=
  (∀ k n, requeues !! k = Some n → n ≤ 5 ∧ ends_in_failures (outcomes k log) n) ∧ drops_ok log.

Lemma retries_plain requeues log e : plain_entry e = true → retries_ok requeues log → retries_ok requeues (log ++ [e]).
Proof.
  intros He [Hr Hd]. split; [intros k n Hk; rewrite outcomes_plain by done; by apply Hr|].
  apply drops_snoc; [done|]. by intros k ->.
Qed.

Lemma AddAfter_retries k c :
  retries_ok (ct_requeues c) (ct_log c) → retries_ok (ct_requeues (AddAfter k c)) (ct_log (AddAfter k c)).
Proof. intros Hr. unfold AddAfter. destruct (wq_down (ct_queue c)); [done|]. by apply retries_plain. Qed.

Lemma handle_error_retries err key c :
  retries_ok (ct_requeues c) (ct_log c) →
  retries_ok (ct_requeues (handle_error err key c)) (ct_log (handle_error err key c)).
Proof.
  intros [Hr Hd]. unfold handle_error. cbn zeta. cbn [ct_log ct_requeues]. set (log := ct_log c ++ [_]).
  assert (drops_ok log) as Hd' by (by apply drops_snoc).
  assert (outcomes key log = outcomes key (ct_log c) ++ [is_nil err]) as Hkey
    by (unfold log; rewrite outcomes_snoc; cbn; by rewrite decide_True).
  assert (∀ k n, k ≠ key → ct_requeues c !! k = Some n → n ≤ 5 ∧ ends_in_failures (outcomes k log) n) as Hother.
  { intros k n Hne Hk. unfold log. rewrite outcomes_snoc. cbn. rewrite decide_False by done. rewrite app_nil_r. by apply Hr. }
  assert (∀ n, n ≤ 5 → ends_in_failures (outcomes key log) n → retries_ok (<[key := n]> (ct_requeues c)) log) as Hset.
  { intros n Hn Hf. split; [|done]. intros k m. rewrite lookup_insert. case_decide as E; [intros [= <-]; by subst|]. by apply Hother. }
  assert (ends_in_failures (outcomes key log) 0) as H0 by (eexists; by rewrite app_nil_r).
  destruct err as [err|]; cbn [handleErr is_nil]; [|apply Hset; [lia|done]].
  assert (default 0 (ct_requeues c !! key) ≤ 5 ∧ ends_in_failures (outcomes key (ct_log c)) (default 0 (ct_requeues c !! key))) as [Hle Hf].
  { destruct (ct_requeues c !! key) as [n|] eqn:Hk; [by apply Hr|]. split; [cbn; lia|]. eexists. by rewrite app_nil_r. }
  apply failures_snoc in Hf. change (is_nil (Some err)) with false in Hkey. rewrite <- Hkey in Hf. case_decide as Hlt.
  - apply AddAfter_retries. by apply Hset; [lia|].
  - destruct (Hset 0 ltac:(lia) H0) as [H1 H2]. split; cbn [ct_log ct_requeues].
    + intros k n Hk. rewrite outcomes_snoc. cbn. rewrite app_nil_r. by apply H1.
    + apply drops_snoc; [done|]. intros k [= <-]. by replace 6 with (S (default 0 (ct_requeues c !! key))) by lia.
Qed.

(** *** The workers *)

(** The keys in process are those of the workers, each of one worker. *)
Record workers_ok (ws : list Worker) (busy : gset string) : Prop := {
  wo_busy : ∀ k, k ∈ busy ↔ ∃ i w, ws !! i = Some w ∧ working w = Some k;
  wo_once : ∀ i j w w' k, ws !! i = Some w → ws !! j = Some w' → working w = Some k → working w' = Some k → i = j;
}.

Lemma at_insert ws i w' j w k :
  i < length ws → <[i := w']> ws !! j = Some w → working w = Some k →
  j = i ∧ working w' = Some k ∨ j ≠ i ∧ ws !! j = Some w.
Proof.
  intros Hi. destruct (decide (j = i)) as [->|Hne].
  - rewrite list_lookup_insert_eq by done. intros [= <-]. by left.
  - rewrite list_lookup_insert_ne by done. by right.
Qed.

(** The worker [i] takes or leaves a key. *)
Lemma set_worker_ok ws busy i w w' busy' :
  workers_ok ws busy → ws !! i = Some w →
  (∀ k, working w' = Some k → k ∈ busy') →
  (∀ k, working w' = Some k → working w = Some k ∨ k ∉ busy) →
  (∀ k, working w ≠ Some k → working w' ≠ Some k → k ∈ busy' ↔ k ∈ busy) →
  (∀ k, working w = Some k → working w' ≠ Some k → k ∉ busy') →
  workers_ok (<[i := w']> ws) busy'.
Proof.
  intros [Hb Ho] Hi Hin Hfresh Hsame Hleft. pose proof (lookup_lt_Some _ _ _ Hi) as Hlt. split.
  - intros k. split.
    + intros Hk. destruct (decide (working w' = Some k)) as [Hw'|Hw']; [exists i, w'; by rewrite list_lookup_insert_eq|].
      destruct (decide (working w = Some k)) as [Hw|Hw]; [by destruct (Hleft k Hw Hw')|].
      apply (Hsame k Hw Hw') in Hk. apply Hb in Hk as (j & w0 & Hj & Hk). exists j, w0. split; [|done].
      rewrite list_lookup_insert_ne; [done|]. intros ->. congruence.
    + intros (j & w0 & Hj & Hk). destruct (at_insert _ _ _ _ _ _ Hlt Hj Hk) as [[-> Hw']|[Hne Hj']]; [by apply Hin|].
      destruct (decide (working w' = Some k)); [by apply Hin|]. apply Hsame; [|done|apply Hb; eauto].
      intros Hw. by eapply Hne, Ho.
  - intros j1 j2 w1 w2 k H1 H2 Hk1 Hk2.
    assert (∀ j0 w0, j0 ≠ i → ws !! j0 = Some w0 → working w0 = Some k → working w' ≠ Some k) as Hno.
    { intros j0 w0 Hne Hj0 Hk Hw'. destruct (Hfresh k Hw') as [Hw|Hn]; [by eapply Hne, Ho|]. apply Hn, Hb. eauto. }
    destruct (at_insert _ _ _ _ _ _ Hlt H1 Hk1) as [[-> Hw1]|[Hne1 Hj1]], (at_insert _ _ _ _ _ _ Hlt H2 Hk2) as [[-> Hw2]|[Hne2 Hj2]];
      [done|by destruct (Hno j2 w2)|by destruct (Hno j1 w1)|by eapply Ho].
Qed.

Context `{!WorkQueueLaws Q}.

Record c_ok (c : Ctl) : Prop := {
  cc_queue : wq_ok (ct_queue c);
  cc_workers : workers_ok (ct_workers c) (wq_busy (ct_queue c));
  cc_owed : wq_down (ct_queue c) = false → ∀ k, owed (ct_log c) k → k ∈ ct_delayed c ∪ wq_wants (ct_queue c);
  cc_quit : Quit ∈ ct_workers c → wq_down (ct_queue c) = true;
  cc_retries : retries_ok (ct_requeues c) (ct_log c);
}.

Lemma controller_start_ok n : c_ok (controller_start n).
Proof.
  destruct new_ok as (Hq & Hw & Hb & Hd). split; cbn.
  - done.
  - assert (∀ i w k, replicate n Idle !! i = Some w → working w ≠ Some k) as Hno by (by intros i w k [-> _]%lookup_replicate).
    split; [|intros i j w w' k Hi _ Hk; by destruct (Hno i w k)]. intros k. rewrite Hb. split; [set_solver|].
    intros (i & w & Hi & Hk). by destruct (Hno i w k).
  - intros _ k ([|] & l2 & ? & _); done.
  - intros Hin. apply elem_of_replicate in Hin as [? _]. done.
  - split; [done|]. by intros [|] ? ?.
Qed.

Lemma AddAfter_same k c :
  ct_queue (AddAfter k c) = ct_queue c ∧ ct_workers (AddAfter k c) = ct_workers c ∧ ct_requeues (AddAfter k c) = ct_requeues c.
Proof. unfold AddAfter. by destruct (wq_down (ct_queue c)). Qed.

Lemma AddAfter_owed k c :
  (wq_down (ct_queue c) = false → ∀ k, owed (ct_log c) k → k ∈ ct_delayed c ∪ wq_wants (ct_queue c)) →
  wq_down (ct_queue c) = false → ∀ j, owed (ct_log (AddAfter k c)) j → j ∈ ct_delayed (AddAfter k c) ∪ wq_wants (ct_queue c).
Proof.
  intros Ho Hd j. unfold AddAfter. rewrite Hd. cbn. intros [[= ->]|[Hj _]]%owed_snoc; [set_solver|].
  specialize (Ho Hd j Hj). set_solver.
Qed.

Lemma handle_error_same err k c :
  ct_queue (handle_error err k c) = ct_queue c ∧ ct_workers (handle_error err k c) = ct_workers c.
Proof.
  unfold handle_error. destruct (handleErr _ _) as [n []]; [|by destruct (is_nil err)].
  split; by apply (AddAfter_same k {| c with ct_log := _; ct_requeues := _ |}).
Qed.

Lemma handle_error_owed err k c :
  (wq_down (ct_queue c) = false → ∀ k, owed (ct_log c) k → k ∈ ct_delayed c ∪ wq_wants (ct_queue c)) →
  wq_down (ct_queue c) = false → ∀ j, owed (ct_log (handle_error err k c)) j → j ∈ ct_delayed (handle_error err k c) ∪ wq_wants (ct_queue c).
Proof.
  intros Ho Hd. unfold handle_error. cbn [ct_log ct_requeues].
  assert (∀ j, owed (ct_log c ++ [LSynced k (is_nil err)]) j → j ∈ ct_delayed c ∪ wq_wants (ct_queue c)) as Ho'.
  { intros j [?|[Hj _]]%owed_snoc; [done|auto]. }
  destruct (handleErr _ _) as [n []].
  - intros j Hj. by apply (AddAfter_owed k {| c with ct_log := ct_log c ++ [_]; ct_requeues := _ |}) in Hj.
  - destruct (is_nil err); cbn; [done|]. intros j [?|[Hj _]]%owed_snoc; [done|auto].
Qed.

Lemma quit_insert (ws : list Worker) (i : nat) w : w ≠ Quit → Quit ∈ <[i := w]> ws → Quit ∈ ws.
Proof.
  intros Hw (j & Hj)%list_elem_of_lookup. destruct (decide (j = i)) as [->|Hne].
  - destruct (decide (i < length ws)); [|rewrite list_insert_ge in Hj by lia; by eapply list_elem_of_lookup_2].
    rewrite list_lookup_insert_eq in Hj by done. congruence.
  - rewrite list_lookup_insert_ne in Hj by done. by eapply list_elem_of_lookup_2.
Qed.

Lemma take_ok i c key q :
  c_ok c → ct_workers c !! i = Some Idle → wq_Get (ct_queue c) = Some (key, q) →
  c_ok (set_worker i (Syncing key) {| c with ct_queue := q; ct_log := ct_log c ++ [LTaken key] |}).
Proof.
  intros [Hq Hw Ho Hquit Hr] Hi Hget. destruct (Get_ok _ _ _ Hq Hget) as (Hq' & Hin & Hnot & Ewants & Ebusy & Edown).
  split; cbn; [done| | | |].
  - rewrite Ebusy. eapply set_worker_ok; [done..| | | |]; cbn; intros k; [|intros [= <-]; by right|set_solver|done].
    intros [= <-]. set_solver.
  - rewrite Edown, Ewants. intros Hd k [?|[Hk Hne]]%owed_snoc; [done|]. specialize (Ho Hd k Hk).
    assert (k ≠ key) by congruence. set_solver.
  - rewrite Edown. intros Hin'. by apply Hquit, (quit_insert _ i (Syncing key)).
  - by apply retries_plain.
Qed.

Lemma cstep_ok e c c' : c_ok c → cstep e c = Some c' → c_ok c'.
Proof.
  intros Hok. pose proof Hok as [Hq Hw Ho Hquit Hr]. destruct e as [k|k|i|i err|i|]; cbn.
  - intros [= <-]. destruct (AddAfter_same k c) as (E1 & E2 & E3).
    split; rewrite ?E1, ?E2; [done..| |done|by apply AddAfter_retries]. by apply AddAfter_owed.
  - case_decide as Hk; [|done]. intros [= <-]. destruct (Add_ok _ k Hq) as (Hq' & Ebusy & Edown & Ewants). split; cbn; [done| | | |done].
    + by rewrite Ebusy.
    + rewrite Edown, Ewants. intros Hd j Hj. specialize (Ho Hd j Hj). rewrite Hd. destruct (decide (j = k)); set_solver.
    + by rewrite Edown.
  - destruct (ct_workers c !! i) as [[]|] eqn:Hi; try done. destruct (wq_Get (ct_queue c)) as [[k q]|] eqn:Hget.
    + intros [= <-]. by apply take_ok.
    + destruct (wq_down (ct_queue c)) eqn:Hd; [|done]. intros [= <-]. split; cbn; [done| |congruence|done..].
      eapply set_worker_ok; [done..| | | |]; done.
  - destruct (ct_workers c !! i) as [[]|] eqn:Hi; try done. intros [= <-]. destruct (handle_error_same err key c) as [E1 E2].
    split; cbn; rewrite ?E1, ?E2; [done| |by apply handle_error_owed| |by apply handle_error_retries].
    + eapply set_worker_ok; [done..| | | |]; cbn; intros k; [|by left|done|done].
      intros Hk. apply Hw. eauto.
    + intros Hin. by apply Hquit, (quit_insert _ i (Finishing key)).
  - destruct (ct_workers c !! i) as [[]|] eqn:Hi; try done. intros [= <-].
    assert (key ∈ wq_busy (ct_queue c)) as Hbusy by (apply Hw; eauto).
    destruct (Done_ok _ key Hq Hbusy) as (Hq' & Ewants & Ebusy & Edown). split; cbn; [done| | | |done].
    + rewrite Ebusy. eapply set_worker_ok; [done..| | | |]; cbn; intros k; [done|done| |]; set_solver.
    + by rewrite Edown, Ewants.
    + rewrite Edown. intros Hin. by apply Hquit, (quit_insert _ i Idle).
  - intros [= <-]. destruct (ShutDown_ok _ Hq) as (Hq' & Ewants & Ebusy & Edown). split; cbn; [done|by rewrite Ebusy|congruence|done..].
Qed.

Lemma csteps_ok es c c' : c_ok c → csteps es c = Some c' → c_ok c'.
Proof.
  revert c. induction es as [|e es IH]; intros c Hok; cbn; [by intros [= <-]|].
  destruct (cstep e c) as [c1|] eqn:He; [|done]. intros Hes. by eapply IH, Hes; eapply cstep_ok.
Qed.

(** Nothing is left to do: no step but a notification or the stop. *)
Definition at_rest (c : Ctl) : Prop := ∀ e, (∀ k, e ≠ Notify k) → e ≠ Stop → cstep e c = None.

Lemma idle_empty n c : c_ok c → at_rest c → length (ct_workers c) = S n → wq_down (ct_queue c) = false →
  ct_delayed c = ∅ ∧ wq_wants (ct_queue c) = ∅.
Proof.
  intros [Hq Hw _ Hquit _] Hidle Hn Hd. split.
  - apply set_eq. intros k. split; [|set_solver]. intros Hk. specialize (Hidle (Due k) ltac:(done) ltac:(done)). cbn in Hidle.
    by rewrite decide_True in Hidle.
  - assert (∀ i w, ct_workers c !! i = Some w → w = Idle) as Hall.
    { intros i [| | |] Hi; [done| | |].
      - specialize (Hidle (Synced i None) ltac:(done) ltac:(done)). cbn in Hidle. by rewrite Hi in Hidle.
      - specialize (Hidle (Finished i) ltac:(done) ltac:(done)). cbn in Hidle. by rewrite Hi in Hidle.
      - rewrite Hquit in Hd; [done|]. by eapply list_elem_of_lookup_2. }
    destruct (lookup_lt_is_Some_2 (ct_workers c) 0) as [w Hi]; [lia|]. assert (w = Idle) as -> by eauto.
    specialize (Hidle (Take 0) ltac:(done) ltac:(done)). cbn in Hidle. rewrite Hi in Hidle.
    destruct (wq_Get (ct_queue c)) as [[k q]|] eqn:Hget; [done|]. apply Get_empty in Hget; [|done].
    apply set_eq. intros k. split; [|set_solver]. intros Hk%Hget. apply Hw in Hk as (j & w & Hj & Hk).
    apply Hall in Hj as ->. done.
Qed.

Lemma cstep_workers e c c' : cstep e c = Some c' → length (ct_workers c') = length (ct_workers c).
Proof.
  destruct e as [k|k|i|i err|i|]; cbn.
  - intros [= <-]. by destruct (AddAfter_same k c) as (_ & -> & _).
  - case_decide; [|done]. by intros [= <-].
  - destruct (ct_workers c !! i) as [[]|]; try done. destruct (wq_Get _) as [[k q]|]; [|destruct (wq_down _); [|done]]; intros [= <-];
      apply length_insert.
  - destruct (ct_workers c !! i) as [[]|]; try done. intros [= <-]. cbn. rewrite length_insert.
    by destruct (handle_error_same err key c) as [_ ->].
  - destruct (ct_workers c !! i) as [[]|]; try done. intros [= <-]. apply length_insert.
  - by intros [= <-].
Qed.

Lemma csteps_workers es c c' : csteps es c = Some c' → length (ct_workers c') = length (ct_workers c).
Proof.
  revert c. induction es as [|e es IH]; intros c; cbn; [by intros [= <-]|].
  destruct (cstep e c) as [c1|] eqn:He; [|done]. intros Hes. rewrite (IH _ Hes). by eapply cstep_workers.
Qed.

(** C31: The controller, for every interleaving of the informer and its workers:
    two workers never process the same key; a key is given up only after its
    last six synchronisations have all failed; and no change is lost: while the
    controller is not stopped, it comes to rest only when every key that was
    queued, for a change or to try again, has been taken by a worker after
    that. *)
Theorem controller_correct (n : nat) es c :
  csteps es (controller_start (S n)) = Some c →
  (∀ i j w w' k, ct_workers c !! i = Some w → ct_workers c !! j = Some w' →
     working w = Some k → working w' = Some k → i = j) ∧
  (∀ l1 k l2, ct_log c = l1 ++ LDropped k :: l2 → ends_in_failures (outcomes k l1) 6) ∧
  (wq_down (ct_queue c) = false → at_rest c → ∀ l1 k l2, ct_log c = l1 ++ LQueued k :: l2 → LTaken k ∈ l2).
Proof.
  intros Hes. pose proof (csteps_ok _ _ _ (controller_start_ok _) Hes) as Hok.
  apply csteps_workers in Hes. cbn in Hes. rewrite length_replicate in Hes.
  split_and!; [apply Hok..|]. intros Hd Hidle l1 k l2 Hlog. destruct (decide (LTaken k ∈ l2)) as [|Hn]; [done|exfalso].
  destruct (idle_empty n c Hok Hidle Hes Hd) as [E1 E2]. destruct Hok as [_ _ Ho _ _].
  specialize (Ho Hd k). rewrite E1, E2 in Ho. cut (k ∈ (∅ : gset string) ∪ ∅); [set_solver|]. apply Ho. by exists l1, l2.
Qed.
End controller.

(** ** Witnesses *)

(** A change comes in while the key is in process: it is processed again. *)
Definition changed_twice : list CEvent :=
  [Notify "ns/a"; Due "ns/a"; Take 0; Notify "ns/a"; Due "ns/a"; Synced 0 None; Finished 0; Take 0; Synced 0 None; Finished 0].

Definition changed_end : Controller WQ := default (controller_start 1) (csteps changed_twice (controller_start 1)).

Example changed_log :
  ct_log changed_end = [LQueued "ns/a"; LTaken "ns/a"; LQueued "ns/a"; LSynced "ns/a" true; LTaken "ns/a"; LSynced "ns/a" true].
Proof. vm_compute. reflexivity. Qed.

Lemma controller_correct_witness :
  (∀ i j w w' k, ct_workers changed_end !! i = Some w → ct_workers changed_end !! j = Some w' →
     working w = Some k → working w' = Some k → i = j) ∧
  (∀ l1 k l2, ct_log changed_end = l1 ++ LDropped k :: l2 → ends_in_failures (outcomes k l1) 6) ∧
  (wq_down (ct_queue changed_end) = false → at_rest changed_end →
     ∀ l1 k l2, ct_log changed_end = l1 ++ LQueued k :: l2 → LTaken k ∈ l2).
Proof. apply (controller_correct 0 changed_twice changed_end). vm_compute. reflexivity. Defined.

(** A key that fails six times in a row is given up. *)
Definition failing_once : list CEvent := [Due "ns/a"; Take 0; Synced 0 (Some (Errorf "no server")); Finished 0].

Example given_up :
  ((λ c : Controller WQ, last (ct_log c)) <$> csteps (Notify "ns/a" :: concat (replicate 6 failing_once)) (controller_start 1)) =
  Some (Some (LDropped "ns/a")).
Proof. vm_compute. reflexivity. Qed.
