(* ===== verification/Convergence.v ===== *)
(** * Convergence: making the instances of a cluster apply their manifests

    The command line side of the wing API:
    [src/pkg/tarmak/cluster/configuration.go] and
    [src/pkg/tarmak/cluster/wing.go].  [ReapplyConfiguration] requests a
    converge of every instance, [WaitForConvergance] polls until all of them
    have converged; both drop the objects of instances that no longer exist.

    Arguments: [connect] is the outcome of connecting to the bastion, [hosts]
    the answer of [ListHosts], [list] the error of the list call, [net] what
    happens to the write of each instance. *)

From S2P Require Import Prelude Types Net Utils Provider InstancePool Config Tagging Ssh Hosts Wing.

Section Client.
Context `{MapRange}.

(** A delete that is lost has no effect; its error is only logged. *)
Definition delete_unused (net : string → Net) (s : Server) (name : string) : Server :=
  match net name with RequestLost => s | _ => (Delete s name).1 end.

(** The loop over the objects: the ones of running hosts are returned, the
    others deleted. *)
Fixpoint sort_instances (ids : list string) (net : string → Net) (s : Server) (items : list Instance)
    : Server * list Instance :=
  match items with
  | [] => (s, [])
  | instance :: rest =>
      if decide (Name instance ∈ ids) then
        let '(s', instances) := sort_instances ids net s rest in (s', instance :: instances)
      else sort_instances ids net (delete_unused net s (Name instance)) rest
  end.

Definition listInstances (connect : option error) (hosts : list Host + error) (list : option error)
    (net : string → Net) (s : Server) : Server * (Datatypes.list Instance + error) :=
  match connect with
  | Some err => (s, inr (Errorf ("failed to connect to wing API on bastion: " +:+ error_string err)))
  | None =>
      match hosts with
      | inr err => (s, inr (Errorf ("failed to list provider's instances: " +:+ error_string err)))
      | inl hosts =>
          match list with
          | Some err => (s, inr err)
          | None =>
              let '(s', instances) := sort_instances (map h_id hosts) net s (map snd (range (objs s))) in
              (s', inl instances)
          end
      end
  end.

Definition update_instance (net : string → Net) (s : Server) (i : Instance) : Server :=
  match net (Name i) with RequestLost => s | _ => (Update s (reapply i)).1 end.

Definition ReapplyConfiguration (connect : option error) (hosts : list Host + error) (list : option error)
    (net : string → Net) (s : Server) : Server * option error :=
  match connect with
  | Some err => (s, Some (Errorf ("failed to connect to wing API on bastion: " +:+ error_string err)))
  | None =>
      match listInstances connect hosts list net s with
      | (s', inr err) => (s', Some (Errorf ("failed to list instances: " +:+ error_string err)))
      | (s', inl instances) => (foldl (update_instance net) s' instances, None)
      end
  end.

Definition outputInstances (instances : list Instance) : string := Join (map Name instances) ", ".

(** The instances by state; one without a state is left out. *)
Definition index_state (m : gmap string (list Instance)) (i : Instance) : gmap string (list Instance) :=
  match Status i ≫= status_Converge with
  | None => m
  | Some c =>
      if decide (State c = "") then m
      else <[State c := default [] (m !! State c) ++ [i]]> m
  end.

Definition instanceByState (instances : list Instance) : gmap string (list Instance) :=
  foldl index_state ∅ instances.

Definition checkAllInstancesConverged (byState : gmap string (list Instance)) : option error :=
  let notConverged := concat (map snd (filter (λ e, e.1 ≠ InstanceManifestStateConverged) (range byState))) in
  match notConverged with
  | [] => None
  | _ => Some (Errorf ("not all instances have converged yet " +:+ outputInstances notConverged))
  end.

(** What a round of the loop sees: the instances, or why they cannot be
    listed, and whether the context is done. *)
Record Round := { round_list : list Instance + error; round_ctx : option error }.

Definition retries : nat := 100.

Fixpoint wait (retries : nat) (rounds : nat → Round) : option error :=
  match retries with
  | 0 => Some (Errorf "instances failed to converge in time")
  | S retries =>
      match round_list (rounds 0) with
      | inr err => Some (Errorf ("failed to list instances: " +:+ error_string err))
      | inl instances =>
          match checkAllInstancesConverged (instanceByState instances) with
          | None => None
          | Some _ =>
              match round_ctx (rounds 0) with
              | Some err => Some err
              | None => wait retries (λ k, rounds (S k))
              end
          end
      end
  end.

Definition WaitForConvergance (rounds : nat → Round) : option error := wait retries rounds.

(** ** The check of all instances *)

(** An instance with another state than converged. *)
Definition pending (i : Instance) : Prop :=
  ∃ c, Status i ≫= status_Converge = Some c ∧ State c ≠ "" ∧ State c ≠ InstanceManifestStateConverged.

Lemma index_state_lookup m i st :
  default [] (index_state m i !! st) =
  default [] (m !! st) ++
  (if decide ((State <$> (Status i ≫= status_Converge)) = Some st ∧ st ≠ "") then [i] else []).
Proof.
  unfold index_state; destruct (Status i ≫= status_Converge) as [c|]; cbn;
    [|rewrite decide_False by naive_solver; by rewrite app_nil_r].
  destruct (decide (State c = "")) as [Hc | Hc].
  - rewrite decide_False by naive_solver; by rewrite app_nil_r.
  - rewrite lookup_insert; case_decide as Hs.
    + subst st; by rewrite decide_True.
    + rewrite decide_False by naive_solver; by rewrite app_nil_r.
Qed.

Lemma instanceByState_lookup instances st :
  default [] (instanceByState instances !! st) =
  filter (λ i, (State <$> (Status i ≫= status_Converge)) = Some st ∧ st ≠ "") instances.
Proof.
  unfold instanceByState.
  assert (Hg : ∀ m, default [] (foldl index_state m instances !! st) = default [] (m !! st) ++
    filter (λ i, (State <$> (Status i ≫= status_Converge)) = Some st ∧ st ≠ "") instances).
  { induction instances as [|i l IH]; intros m; cbn [foldl]; [by rewrite app_nil_r|].
    rewrite IH, index_state_lookup, <-app_assoc; f_equal.
    rewrite filter_cons; by repeat case_decide; try tauto. }
  by rewrite Hg, lookup_empty.
Qed.

Lemma checkAllInstancesConverged_spec instances :
  checkAllInstancesConverged (instanceByState instances) = None ↔ ∀ i, i ∈ instances → ¬ pending i.
Proof.
  unfold checkAllInstancesConverged. set (bad := filter _ _).
  assert (Hbad : concat (map snd bad) = [] ↔ ∀ st l, (st, l) ∈ bad → l = []).
  { clearbody bad; induction bad as [|[st l] bad IH]; cbn; [split; [by intros _ ? ? ?%not_elem_of_nil|done]|].
    split.
    - intros [-> Hb]%app_nil st' l' [[= -> ->] | Hin]%elem_of_cons; [done|]. by eapply IH.
    - intros Hl; rewrite (Hl st l) by left. apply IH; intros; eapply Hl; by right. }
  transitivity (concat (map snd bad) = []); [by destruct (concat _)|]. rewrite Hbad; clear Hbad.
  assert (Hin : ∀ st l, (st, l) ∈ bad ↔ instanceByState instances !! st = Some l ∧ st ≠ InstanceManifestStateConverged).
  { intros st l; unfold bad. rewrite list_elem_of_filter, range_perm, elem_of_map_to_list; cbn; tauto. }
  split.
  - intros Hb i Hi (c & Hc & Hne & Hst). pose proof (instanceByState_lookup instances (State c)) as Hl.
    destruct (instanceByState instances !! State c) as [l|] eqn:E; cbn in Hl.
    + rewrite (Hb (State c) l) in Hl by by apply Hin. symmetry in Hl.
      apply filter_nil_iff in Hl. rewrite Forall_forall in Hl. apply (Hl i Hi). by rewrite Hc.
    + symmetry in Hl; apply filter_nil_iff in Hl. rewrite Forall_forall in Hl. apply (Hl i Hi). by rewrite Hc.
  - intros Hp st l [E Hst]%Hin. pose proof (instanceByState_lookup instances st) as Hl; rewrite E in Hl; cbn in Hl.
    subst l; apply filter_nil_iff, Forall_forall; intros i Hi [Hs Hne]. apply (Hp i Hi).
    apply fmap_Some in Hs as (c & Hc & ->). by exists c.
Qed.

#[global] Instance pending_dec i : Decision (pending i).
Proof.
  unfold pending. destruct (Status i ≫= status_Converge) as [c|]; [|right; naive_solver].
  destruct (decide (State c = "")), (decide (State c = InstanceManifestStateConverged));
    [right|right|right|left]; naive_solver.
Defined.

(** A round that ends the wait, and one after which it goes on. *)
Definition finished (r : Round) : Prop :=
  ∃ l, round_list r = inl l ∧ ∀ i, i ∈ l → ¬ pending i.
Definition unfinished (r : Round) : Prop :=
  round_ctx r = None ∧ ∃ l i, round_list r = inl l ∧ i ∈ l ∧ pending i.

Lemma check_pending l e :
  checkAllInstancesConverged (instanceByState l) = Some e → ∃ i, i ∈ l ∧ pending i.
Proof.
  intros E. destruct (decide (Exists pending l)) as [Hex | Hex]; [by apply Exists_exists in Hex|].
  assert (checkAllInstancesConverged (instanceByState l) = None); [|congruence].
  apply checkAllInstancesConverged_spec; intros i Hi Hp. apply Hex, Exists_exists; eauto.
Qed.

Lemma wait_spec n rounds :
  wait n rounds = None ↔ ∃ k, k < n ∧ (∀ j, j < k → unfinished (rounds j)) ∧ finished (rounds k).
Proof.
  revert rounds; induction n as [|n IH]; intros rounds; cbn; [split; [done|intros (k & ? & _); lia]|].
  destruct (round_list (rounds 0)) as [l|e] eqn:El.
  2: { split; [done|]. intros (k & _ & Hj & l & Hl & _). destruct k as [|k]; [congruence|].
       destruct (Hj 0) as (_ & l' & _ & Hl' & _); [lia|congruence]. }
  destruct (checkAllInstancesConverged (instanceByState l)) as [e|] eqn:Ec.
  - apply check_pending in Ec as (i & Hi & Hp).
    assert (Hnf : ¬ finished (rounds 0)) by (intros (l' & Hl' & Hn); rewrite El in Hl'; injection Hl' as <-; by apply (Hn i)).
    destruct (round_ctx (rounds 0)) as [err|] eqn:Ex.
    + split; [done|]. intros ([|k] & _ & Hj & Hf); [done|]. destruct (Hj 0) as [? _]; [lia|congruence].
    + rewrite IH; split.
      * intros (k & Hk & Hj & Hf); exists (S k); split_and!; [lia| |done].
        intros [|j] ?; [split; eauto 6|]. apply Hj; lia.
      * intros ([|k] & Hk & Hj & Hf); [done|]. exists k; split_and!; [lia| |done]. intros j ?; apply (Hj (S j)); lia.
  - split; [|done]. intros _; exists 0; split_and!; [lia|lia|].
    exists l; split; [done|]. by apply checkAllInstancesConverged_spec.
Qed.

(** [WaitForConvergance] succeeds exactly when, within a hundred rounds, a
    round sees no instance in another state than converged, all rounds before
    could list the instances, saw one that had not converged and were not
    cancelled. *)
Theorem WaitForConvergance_correct rounds :
  WaitForConvergance rounds = None ↔
  ∃ k, k < 100 ∧ (∀ j, j < k → unfinished (rounds j)) ∧ finished (rounds k).
Proof. apply wait_spec. Qed.

(** ** Requests *)

(** The object after the request: its time is set, the rest is as before. *)
Definition requested (t : Z) (o o' : Instance) : Prop :=
  req_time o' = Some t ∧ Status o' = Status o ∧ Name o' = Name o ∧
  spec_DryRun <$> Spec o' = Some (spec ← Spec o; spec_DryRun spec).

Lemma Update_requested s o :
  server_wf s → objs s !! Name o = Some o →
  ∃ o', objs (Update s (reapply o)).1 !! Name o = Some o' ∧ requested (now s) o o'.
Proof.
  intros Hs Ho. destruct (reapply_accepted (Name o) s o Hs Ho) as (o' & Ho' & Hr & _).
  exists o'; split; [done|]. split; [done|].
  destruct (Get_copy (Name o) s o Hs Ho) as [(_ & _ & Hst & _) _]. specialize (Hst (now s)).
  assert (Hobj : ∀ v, Status (with_version v (stamp (now s) (reapply o))) = Status o ∧
    Name (with_version v (stamp (now s) (reapply o))) = Name o ∧
    spec_DryRun <$> Spec (with_version v (stamp (now s) (reapply o))) = Some (spec ← Spec o; spec_DryRun spec)).
  { intros v; destruct o as [? ? ? ? spec status]; unfold stamp, reapply in *; cbn in *.
    injection Hst as Hspec Hstatus; split_and!; [done..|]. f_equal.
    destruct spec as [[c [d|]]|]; cbn in *; congruence. }
  pose proof (Update_current (Name o) s (reapply o) o Hs Ho eq_refl eq_refl) as Hacc.
  destruct (Update_inv s (reapply o)) as [[? _] | (old & Hold & _ & _ & [[E E'] | E])]; [done|..];
    rewrite E in Ho'; cbn [fst] in Ho'.
  - cbn in Hold; rewrite Ho in Hold, Ho'; simplify_eq. rewrite <-E' at 1 3 5. apply Hobj.
  - unfold put in Ho'; cbn [objs] in Ho'; rewrite lookup_insert, decide_True in Ho' by done. injection Ho' as <-.
    apply Hobj.
Qed.

Lemma Update_other s i n : n ≠ Name i → objs (Update s i).1 !! n = objs s !! n.
Proof.
  intros Hn; destruct (Update_inv s i) as [[_ ->] | (old & _ & _ & _ & [[-> _] | ->])]; cbn; [done..|].
  by rewrite lookup_insert_ne.
Qed.

Definition delivered : string → Net := λ _, Delivered.

(** Objects as the server lists them. *)
Definition listed (s : Server) (items : list Instance) : Prop :=
  NoDup (Name <$> items) ∧ ∀ i, i ∈ items → objs s !! Name i = Some i.

Lemma updates_spec items s :
  server_wf s → listed s items →
  let s' := foldl (update_instance delivered) s items in
  (∀ i, i ∈ items → ∃ o, objs s' !! Name i = Some o ∧ requested (now s) i o) ∧
  ∀ n, n ∉ Name <$> items → objs s' !! n = objs s !! n.
Proof.
  revert s; induction items as [|i items IH]; intros s Hs [Hnd Hl]; cbn zeta.
  { split; [by intros ? ?%not_elem_of_nil|done]. }
  inversion Hnd as [|? ? Hni Hnd']; subst.
  assert (Hi : objs s !! Name i = Some i) by (apply Hl; left).
  destruct (Update_requested s i Hs Hi) as (o & Ho & Hreq).
  assert (Hwfi : object_wf s (Name i) i) by (destruct Hs as (_ & _ & Hf); by apply Hf).
  destruct Hwfi as (_ & _ & _ & _ & Hu).
  destruct (Update_evolves (Name i) s (reapply i) Hs) as [Hs1 _]; [destruct Hs as (? & _); cbn; lia|done|].
  cbn [foldl]; unfold update_instance at 2 4; cbn [delivered].
  set (s1 := (Update s (reapply i)).1) in *.
  assert (Hn1 : now s1 = now s).
  { unfold s1; by destruct (Update_inv s (reapply i)) as [[_ ->] | (? & _ & _ & _ & [[-> _] | ->])]. }
  destruct (IH s1 Hs1) as [IH1 IH2].
  { split; [done|]. intros j Hj; unfold s1. rewrite Update_other; [apply Hl; by right|].
    intros E; apply Hni; cbn in E; rewrite <-E. by apply list_elem_of_fmap_2. }
  rewrite Hn1 in IH1. split.
  - intros j [-> | Hj]%elem_of_cons; [|by apply IH1]. exists o; split; [|done]. by rewrite IH2.
  - intros n Hn. rewrite fmap_cons, not_elem_of_cons in Hn. rewrite IH2 by tauto.
    apply Update_other; cbn; tauto.
Qed.

Lemma sort_instances_spec ids items s :
  server_wf s → listed s items →
  let '(s', instances) := sort_instances ids delivered s items in
  server_wf s' ∧ now s' = now s ∧ instances = filter (λ i, Name i ∈ ids) items ∧
  ∀ n, objs s' !! n = if decide (n ∈ Name <$> items ∧ n ∉ ids) then None else objs s !! n.
Proof.
  revert s; induction items as [|i items IH]; intros s Hs [Hnd Hl]; cbn [sort_instances].
  { split_and!; [done..|]. intros n. by rewrite decide_False by (intros [?%not_elem_of_nil _]; done). }
  inversion Hnd as [|? ? Hni Hnd']; subst. rewrite filter_cons. case_decide as Hid.
  - specialize (IH s Hs). destruct (sort_instances ids delivered s items) as [s' l].
    destruct IH as (H1 & H2 & -> & H3); [split; [done|]; intros; apply Hl; by right|].
    split_and!; [done..|]. intros n; rewrite H3, fmap_cons.
    case_decide as A; case_decide as B; try done; rewrite elem_of_cons in B; naive_solver.
  - unfold delete_unused; cbn [delivered]. destruct (Delete_evolves (Name i) s (Name i) Hs) as [Hs1 _].
    assert (Hi : objs s !! Name i = Some i) by (apply Hl; left).
    unfold Delete in *; rewrite Hi in *; cbn [fst] in *.
    specialize (IH _ Hs1). destruct (sort_instances ids delivered _ items) as [s' l].
    destruct IH as (H1 & H2 & -> & H3).
    { split; [done|]. intros j Hj; cbn. rewrite lookup_delete_ne; [apply Hl; by right|].
      intros E; apply Hni; rewrite E. by apply list_elem_of_fmap_2. }
    split_and!; [done..|]. intros n; rewrite H3, fmap_cons; cbn [objs].
    destruct (decide (n = Name i)) as [-> | Hne].
    + rewrite (decide_True (P := Name i ∈ Name i :: _ ∧ _)) by (split; [left|done]).
      case_decide; [done|apply lookup_delete_eq].
    + rewrite lookup_delete_ne by done.
      case_decide as A; case_decide as B; try done; rewrite elem_of_cons in B; naive_solver.
Qed.

Lemma range_listed s : server_wf s → listed s (map snd (range (objs s))).
Proof.
  intros (_ & _ & Hf).
  assert (Hin : ∀ k i, (k, i) ∈ range (objs s) → objs s !! k = Some i ∧ Name i = k).
  { intros k i; rewrite range_perm, elem_of_map_to_list; intros Hk. split; [done|]. by apply Hf in Hk as [? _]. }
  split.
  - assert (E : Name <$> map snd (range (objs s)) = (range (objs s)).*1).
    { revert Hin; generalize (range (objs s)); intros l; induction l as [|[k i] l IH]; intros Hin; cbn; [done|].
      rewrite IH by (intros; apply Hin; by right). f_equal; by apply Hin; left. }
    rewrite E. rewrite range_perm; apply NoDup_fst_map_to_list.
  - intros i Hi. apply list_elem_of_fmap in Hi as ([k i'] & -> & Hi); cbn. apply Hin in Hi as [? <-]; done.
Qed.


(** Waiting right after a request can succeed on the state of the run
    before it: five seconds after [ReapplyConfiguration], with the agent yet
    to take up the request, every instance still counts as converged although
    none has read its manifests since the request. *)
Theorem WaitForConvergance_stale :
  ∃ w, reachable "node" id 1 w ∧
    WaitForConvergance
      (λ _, {| round_list := inl (map snd (range (objs (srv w)))); round_ctx := None |}) = None ∧
    match objs (srv w) !! "node" with Some o => (applied w < req o)%Z | None => False end.
Proof.
  exists (run "node" id served_run [ClientList; ClientPut; Tick 5]).
  set (w := run "node" id served_run [ClientList; ClientPut; Tick 5]).
  split; [apply reachable_run, served_run_reachable|]. split; [|by vm_compute].
  apply wait_spec; exists 0; split_and!; [unfold retries; lia|lia|].
  eexists; split; [done|]. intros i Hi (c & Hc & Hne & Hst).
  apply list_elem_of_fmap in Hi as ([k i'] & -> & Hi). rewrite range_perm, elem_of_map_to_list in Hi.
  assert (Ew : objs (srv w) = {[ "node" := obj_at w ]}) by (vm_compute; reflexivity).
  rewrite Ew in Hi. apply lookup_singleton_Some in Hi as [_ <-].
  cbn [snd] in Hc. vm_compute in Hc. injection Hc as <-. by apply Hst.
Qed.

End Client.

(** ** Witnesses *)

Definition node_host : Host :=
  {| h_id := "node"; h_hostname := "10.0.0.1"; h_hostnamePublic := false; h_aliases := ["master"];
     h_roles := ["master"]; h_user := "centos"; h_tags := [] |}.

Lemma served_run_wf : server_wf (srv served_run).
Proof.
  destruct (reachable_Inv "node" id 1 served_run) as [Hs _]; [lia|apply served_run_reachable|exact Hs].
Qed.

