(* ===== verification/Terraform.v ===== *)
(** * Terraform: planning and applying

    [src/pkg/terraform/terraform.go] and [src/pkg/terraform/plan/plan.go]: the
    wrapper that prepares and runs the terraform command, the plan with its
    guard against the destruction of volumes, apply and destroy.

    The state [Tf] holds the fields of the Go struct, the plan files, the
    commands that were run, the plans that were applied and the RPC listeners
    that are open.  What is outside the program is a [World]: the exit of each
    command, the plan it computes, cancellation, the answer at the terminal.
    The effect of terraform itself is what its documentation says of the
    arguments: [plan -out] writes a plan file, [apply] applies the plan in a
    file. *)

From S2P Require Import Prelude Types Net Utils Provider.

(** ** Plans *)

(** [DiffChangeType] of package terraform. *)
Inductive ChangeType :=
| DiffInvalid | DiffNone | DiffCreate | DiffUpdate | DiffDestroy | DiffDestroyCreate | DiffRefresh.
#[global] Instance ChangeType_dec : EqDecision ChangeType.
Proof. solve_decision. Defined.

Record ModuleDiff := { mod_Path : list string; mod_Resources : gmap string ChangeType }.
#[global] Instance ModuleDiff_dec : EqDecision ModuleDiff.
Proof. solve_decision. Defined.

Record Plan := { Modules : list ModuleDiff }.

Section Reading.
Context `{MapRange}.

Definition destroys (c : ChangeType) : bool :=
  match c with DiffDestroy | DiffDestroyCreate => true | _ => false end.

(** The name of a resource in the message; [[]] stands for a nil path. *)
Definition resource_name (m : ModuleDiff) (key : string) : string :=
  match mod_Path m with
  | [] | [_] => key
  | _ :: modulePath => "module." +:+ Join modulePath "." +:+ "." +:+ key
  end.

Definition is_volume (key : string) : bool :=
  bool_decide (head (Split "." key) = Some "aws_ebs_volume").

Definition volumes_of (m : ModuleDiff) : list string :=
  map (λ e, resource_name m e.1)
    (filter (λ e, destroys e.2 = true ∧ is_volume e.1 = true) (range (mod_Resources m))).

Definition IsDestroyingEBSVolume (p : Plan) : bool * list string :=
  let names := concat (map volumes_of (Modules p)) in
  (match names with [] => false | _ => true end, names).

Definition is_puppet (key : string) : bool :=
  match Split "." key with
  | s0 :: s1 :: _ =>
      bool_decide (s0 = "aws_s3_bucket_object") &&
      (bool_decide (s1 = "puppet-tar-gz") || bool_decide (s1 = "latest-puppet-hash"))
  | _ => false
  end.

(** [UpdatingPuppet]: the first object of the manifests that is met decides. *)
Definition UpdatingPuppet (p : Plan) : bool :=
  match list_find (λ e, is_puppet e.1 = true) (concat (map (λ m, range (mod_Resources m)) (Modules p))) with
  | Some (_, (_, c)) => negb (bool_decide (c = DiffNone)) && negb (bool_decide (c = DiffDestroy))
  | None => false
  end.

End Reading.

(** ** The wrapper *)

(** An error of a command that ran, or any other. *)
Inductive terr := ExitError (status : Z) | Plain (e : error).

Inductive Exit := ExitOk | ExitStatus (n : Z) | ExecFails (e : error).

Definition exit_err (x : Exit) : option terr :=
  match x with ExitOk => None | ExitStatus n => Some (ExitError n) | ExecFails e => Some (Plain e) end.

Definition terr_error (t : terr) : error :=
  match t with ExitError n => Errorf ("exit status " +:+ fmt_d n) | Plain e => e end.

Record Tf := {
  socketPath : string;
  prepared : bool;
  files : gmap string Plan;
  commands : list (list string);
  applied : list Plan;
  listeners : nat;
  calls : nat;
}.

(** The world around a run.  [denotes dir p] is the file that path [p] names
    for a process in directory [dir]. *)
Record World := {
  tempfile : string + error;
  generateCode : option error;
  preparePlugins : option error;
  environment : list string + error;
  executable : option error;
  cancelled : nat → option error;
  exit_of : nat → Exit;
  computes : nat → Plan;
  readable : string → option error;
  answer : bool + error;
  expand : string → string + error;
  denotes : string → string → string;
  cwd : string;
}.

Record TfFlags := {
  PlanFileStore : string;
  PlanFileLocation : string;
  AutoApprove : bool;
  AutoApproveDeletingData : bool;
}.

(** A method of [Terraform]: it changes the state and returns. *)
Definition M (A : Type) : Type := Tf → Tf * A.
#[global] Instance M_ret : MRet M := λ A a st, (st, a).
#[global] Instance M_bind : MBind M := λ A B f m st, let '(st', a) := m st in f a st'.

(** [if err := m; err != nil { return err }; k] *)
Definition check {E} (m : M (option E)) (k : M (option E)) : M (option E) :=
  err ← m; match err with Some e => mret (Some e) | None => k end.

Definition wrap (msg : string) (m : M (option error)) : M (option error) :=
  err ← m; mret ((λ e, Errorf (msg +:+ error_string e)) <$> err).

Section Terraform.
Context `{MapRange} (w : World) (flags : TfFlags).

(** The directory of the code of the cluster, [codePath]. *)
Variable code : string.

Definition DefaultPlanLocationPlaceholder : string :=
  "${TARMAK_CONFIG}/${CURRENT_CLUSTER}/terraform/tarmak.plan".

Definition defaultPlanPath : string := code +:+ "/" +:+ "tarmak.plan".

Definition checkDone : M (option error) := λ st,
  ({| socketPath := socketPath st; prepared := prepared st; files := files st; commands := commands st;
      applied := applied st; listeners := listeners st; calls := S (calls st) |}, cancelled w (calls st)).

(** What a command that ran does to plan files and infrastructure.  A failed
    apply may have applied part of the plan and counts. *)
Definition effect (args : list string) (n : nat) (st : Tf) : gmap string Plan * list Plan :=
  match args with
  | ["terraform"; "plan"; _; _; out] =>
      match exit_of w n with
      | ExitOk | ExitStatus 2 =>
          (<[denotes w code (String.substring 5 (String.length out - 5) out) := computes w n]> (files st),
           applied st)
      | _ => (files st, applied st)
      end
  | ["terraform"; "apply"; path] =>
      match exit_of w n with
      | ExecFails _ => (files st, applied st)
      | _ => (files st, applied st ++ option_list (files st !! denotes w code path))
      end
  | _ => (files st, applied st)
  end.

(** [Terraform.command] *)
Definition command (args : list string) : M (option terr) := λ st,
  match environment w with
  | inr err => (st, Some (Plain (Errorf ("error getting environment secrets from provider: " +:+ error_string err))))
  | inl _ =>
      match executable w with
      | Some err => (st, Some (Plain (Errorf ("error finding tarmak executable: " +:+ error_string err))))
      | None =>
          let n := calls st in
          let '(fs, ap) := effect args n st in
          ({| socketPath := socketPath st; prepared := prepared st; files := fs;
              commands := commands st ++ [args]; applied := ap; listeners := listeners st; calls := S n |},
           exit_err (exit_of w n))
      end
  end.

(** One command of [Prepare]; the hint about the remote state that may follow
    the error is left out. *)
Definition setup (name : string) (args : list string) : M (option error) :=
  err ← command args;
  match err with
  | Some e => mret (Some (Errorf ("error running terraform " +:+ name +:+ ": " +:+ error_string (terr_error e))))
  | None => checkDone
  end.

Definition Prepare : M (option error) :=
  check checkDone $
  check (wrap "failed to generate code: " (mret (generateCode w))) $
  check checkDone $
  check (wrap "failed to prepare plugins: " (mret (preparePlugins w))) $
  check checkDone $
  check (setup "init" ["terraform"; "init"; "-get-plugins=false"; "-input=false"]) $
  setup "validate" ["terraform"; "validate"].

Definition ResetTerraformWrapper : M unit := λ st,
  ({| socketPath := ""; prepared := false; files := files st; commands := commands st;
      applied := applied st; listeners := listeners st; calls := calls st |}, ()).

Definition set_socket (s : string) : M (option error) := λ st,
  ({| socketPath := s; prepared := prepared st; files := files st; commands := commands st;
      applied := applied st; listeners := listeners st; calls := calls st |}, None).

Definition set_prepared : M (option error) := λ st,
  ({| socketPath := socketPath st; prepared := true; files := files st; commands := commands st;
      applied := applied st; listeners := listeners st; calls := calls st |}, None).

(** The goroutine that listens on the socket, until the channel is closed. *)
Definition listen : M unit := λ st,
  ({| socketPath := socketPath st; prepared := prepared st; files := files st; commands := commands st;
      applied := applied st; listeners := S (listeners st); calls := calls st |}, ()).

Definition stop_listening : M unit := λ st,
  ({| socketPath := socketPath st; prepared := prepared st; files := files st; commands := commands st;
      applied := applied st; listeners := pred (listeners st); calls := calls st |}, ()).

Definition ensure_socket : M (option error) := λ st,
  if decide (socketPath st = "") then
    match tempfile w with
    | inr err => (st, Some (Errorf ("failed to create socket file: " +:+ error_string err)))
    | inl name => set_socket name st
    end
  else (st, None).

Definition ensure_prepared : M (option error) := λ st,
  if prepared st then (st, None)
  else check (wrap "failed to prepare terraform: " Prepare) set_prepared st.

(** [terraformWrapper] with a terraform command; a failing command returns
    before the listener is stopped. *)
Definition terraformWrapper (cmd : string) (args : list string) : M (option terr) :=
  err ← check ensure_socket ensure_prepared;
  match err with
  | Some e => mret (Some (Plain e))
  | None =>
      _ ← listen;
      err ← command ("terraform" :: cmd :: args);
      match err with
      | Some e => mret (Some e)
      | None => _ ← stop_listening; mret None
      end
  end.

Definition errIsTerraformPlanChangesNeeded (err : option terr) : bool :=
  match err with Some (ExitError 2) => true | _ => false end.

(** [plan.New] *)
Definition plan_New (path : string) : M (Plan + error) := λ st,
  (st, match files st !! denotes w (cwd w) path with
       | None => inr (Errorf "error opening file: no such file or directory")
       | Some p => match readable w path with
                   | Some err => inr (Errorf ("error reading plan: " +:+ error_string err))
                   | None => inl p
                   end
       end).

Definition planWrapper (planPath : string) : M (bool * (Plan + terr)) :=
  err ← terraformWrapper "plan" ["-detailed-exitcode"; "-input=false"; "-out=" +:+ planPath];
  let changesNeeded := errIsTerraformPlanChangesNeeded err in
  match err, changesNeeded with
  | Some e, false => mret (false, inr e)
  | _, _ =>
      p ← plan_New planPath;
      match p with
      | inr err => mret (changesNeeded,
                         inr (Plain (Errorf ("error while trying to read plan file: " +:+ error_string err))))
      | inl p => mret (changesNeeded, inl p)
      end
  end.

Definition expand_location (p : string) : string + error :=
  if decide (p = DefaultPlanLocationPlaceholder) then inl defaultPlanPath else expand w p.

Definition planFileStore : string + error := expand_location (PlanFileStore flags).
Definition planFileLocation : string + error := expand_location (PlanFileLocation flags).

Definition destroyStr (names : list string) : string :=
  "the following EBS volumes will be destroyed during the next apply: [" +:+ Join names ", " +:+ "]".

(** The check of the volumes, at the end of [Plan]. *)
Definition check_volumes (preApply changesNeeded : bool) (p : Plan) : bool * option terr :=
  let '(destroying, names) := IsDestroyingEBSVolume p in
  if negb destroying then (changesNeeded, None)
  else if negb preApply then (changesNeeded, Some (Plain (Errorf (destroyStr names))))
  else if AutoApproveDeletingData flags && AutoApprove flags then (changesNeeded, None)
  else match answer w with
       | inr err => (changesNeeded, Some (Plain err))
       | inl false => (changesNeeded, Some (Plain (Errorf ("error: " +:+ destroyStr names))))
       | inl true => (changesNeeded, None)
       end.

(** The first plan: computed, or read from a custom file.  The path is the one
    a second plan goes to. *)
Definition first_plan (preApply : bool) : M (string * (bool * (Plan + terr))) :=
  if negb preApply || bool_decide (PlanFileLocation flags = DefaultPlanLocationPlaceholder) then
    match planFileStore with
    | inr err => mret ("", (true, inr (Plain err)))
    | inl planPath => r ← planWrapper planPath; mret (planPath, r)
    end
  else
    p ← plan_New (PlanFileLocation flags);
    mret (PlanFileLocation flags,
          (true, match p with
                 | inl p => inl p
                 | inr err => inr (Plain (Errorf ("error while trying to read plan file: " +:+ error_string err)))
                 end)).

Definition LegacyPuppetTFName : string := "aws_s3_bucket_object.legacy-puppet-tar-gz".

(** The legacy object is tainted and the plan made again, when the manifests
    change. *)
Definition second_plan (planPath : string) (changesNeeded : bool) (p : Plan) : M (bool * (Plan + terr)) :=
  if UpdatingPuppet p then
    err ← terraformWrapper "taint" ["-allow-missing"; "-module=kubernetes"; LegacyPuppetTFName];
    match err with
    | Some e => mret (changesNeeded, inr e)
    | None => planWrapper planPath
    end
  else mret (changesNeeded, inl p).

Definition PlanM (preApply : bool) : M (bool * option terr) :=
  r ← first_plan preApply;
  let '(planPath, (changesNeeded, p)) := r in
  match p with
  | inr e => mret (changesNeeded, Some e)
  | inl p =>
      r ← second_plan planPath changesNeeded p;
      let '(changesNeeded, p) := r in
      match p with
      | inr e => mret (changesNeeded, Some e)
      | inl p => mret (check_volumes preApply changesNeeded p)
      end
  end.

Definition Apply : M (bool * option terr) :=
  r ← PlanM true;
  let '(changesNeeded, err) := r in
  match err, changesNeeded with
  | Some e, _ => mret (false, Some e)
  | None, false => mret (false, None)
  | None, true =>
      err ← checkDone;
      match err with
      | Some e => mret (true, Some (Plain e))
      | None =>
          match planFileLocation with
          | inr e => mret (false, Some (Plain e))
          | inl path => err ← terraformWrapper "apply" [path]; mret (true, err)
          end
      end
  end.

Definition Destroy : M (option terr) := terraformWrapper "destroy" ["-force"; "-refresh=false"].

Definition ForceUnlock (lockID : string) : M (option terr) :=
  terraformWrapper "force-unlock" ["-force"; lockID].

End Terraform.

(** ** What a plan destroys *)

Definition destroys_volume (p : Plan) : Prop :=
  ∃ m key c, m ∈ Modules p ∧ mod_Resources m !! key = Some c ∧ is_volume key = true ∧ destroys c = true.

Lemma IsDestroyingEBSVolume_spec (R : MapRange) p :
  (IsDestroyingEBSVolume p).1 = true ↔ destroys_volume p.
Proof.
  unfold IsDestroyingEBSVolume; cbn [fst].
  transitivity (∃ n, n ∈ concat (map volumes_of (Modules p))).
  { destruct (concat _) as [|n l]; split; [done|by intros [? ?%not_elem_of_nil]|intros _; exists n; left|done]. }
  split.
  - intros (n & Hn). apply list_elem_of_In, in_concat in Hn as (l & Hl & Hn).
    apply in_map_iff in Hl as (m & <- & Hm). apply list_elem_of_In, list_elem_of_fmap in Hn as ([key c] & _ & Hf).
    apply list_elem_of_filter in Hf as [[Hd Hv] Hf]. rewrite range_perm, elem_of_map_to_list in Hf.
    exists m, key, c; split; [by apply list_elem_of_In|done].
  - intros (m & key & c & Hm & Hk & Hv & Hd). exists (resource_name m key).
    apply list_elem_of_In, in_concat. exists (volumes_of m); split; [by apply in_map, list_elem_of_In|].
    apply list_elem_of_In, list_elem_of_fmap; exists (key, c); split; [done|].
    apply list_elem_of_filter; split; [done|]. by rewrite range_perm, elem_of_map_to_list.
Qed.

(** ** Methods that leave plans alone *)

(** Neither the plan files nor what was applied changes; with [still], nor do
    the listeners. *)
Definition keeps (st st' : Tf) : Prop := files st' = files st ∧ applied st' = applied st.
Definition still (st st' : Tf) : Prop := keeps st st' ∧ listeners st' = listeners st.
#[global] Instance keeps_preorder : PreOrder keeps.
Proof. split; [by intros st|]. intros x y z [H1 H2] [H3 H4]; split; congruence. Qed.
#[global] Instance still_preorder : PreOrder still.
Proof. split; [by intros st|]. intros x y z [H1 H2] [H3 H4]; split; [by etrans|congruence]. Qed.

Definition framed (Rel : relation Tf) {A} (m : M A) : Prop := ∀ st, Rel st (m st).1.

Section Framed.
Context (Rel : relation Tf) `{!PreOrder Rel}.

Lemma framed_ret {A} (a : A) : framed Rel (mret a).
Proof. by intros st. Qed.

Lemma framed_bind {A B} (m : M A) (k : A → M B) :
  framed Rel m → (∀ a, framed Rel (k a)) → framed Rel (m ≫= k).
Proof.
  intros Hm Hk st. unfold mbind, M_bind. specialize (Hm st); destruct (m st) as [st1 a]; cbn in Hm.
  etrans; [exact Hm|apply Hk].
Qed.

Lemma framed_check {E} (m k : M (option E)) : framed Rel m → framed Rel k → framed Rel (check m k).
Proof. intros Hm Hk; apply framed_bind; [done|]. intros [e|]; [apply framed_ret|done]. Qed.

Lemma framed_wrap msg m : framed Rel m → framed Rel (wrap msg m).
Proof. intros Hm; apply framed_bind; [done|]. intros; apply framed_ret. Qed.

End Framed.

Create HintDb frame.
#[export] Hint Resolve framed_ret framed_bind framed_check framed_wrap : frame.

Section Frames.
Context `{MapRange} (w : World) (flags : TfFlags) (code : string).

Lemma framed_checkDone : framed still (checkDone w).
Proof. by intros st. Qed.

(** Commands other than plan and apply. *)
Definition harmless (args : list string) : Prop :=
  ∀ n st, effect w code args n st = (files st, applied st).

Lemma framed_command args : harmless args → framed still (command w code args).
Proof.
  intros Ha st; unfold command; destruct (environment w), (executable w); try done. by rewrite Ha.
Qed.

Lemma framed_setup name args : harmless args → framed still (setup w code name args).
Proof.
  intros Ha; apply framed_bind; [apply _|by apply framed_command|].
  intros [e|]; [apply framed_ret, _|apply framed_checkDone].
Qed.

Lemma framed_Prepare : framed still (Prepare w code).
Proof.
  unfold Prepare; repeat apply framed_check; try apply _; auto using framed_checkDone with frame typeclass_instances;
    by apply framed_setup; intros n st.
Qed.

Lemma framed_ready : framed still (check (ensure_socket w) (ensure_prepared w code)).
Proof.
  apply framed_check; [apply _| |]; intros st; [unfold ensure_socket|unfold ensure_prepared].
  - case_decide; [|done]. by destruct (tempfile w).
  - destruct (prepared st); [done|].
    apply framed_check; [apply _|apply framed_wrap; [apply _|apply framed_Prepare]|by intros ?].
Qed.

Lemma framed_wrapper cmd args :
  harmless ("terraform" :: cmd :: args) → framed keeps (terraformWrapper w code cmd args).
Proof.
  intros Ha; apply framed_bind; [apply _|intros st; apply framed_ready|]. intros [e|]; [apply framed_ret, _|].
  apply framed_bind; [apply _|by intros st|]. intros _.
  apply framed_bind; [apply _|intros st; by apply framed_command|].
  intros [e|]; [apply framed_ret, _|]. apply framed_bind; [apply _|by intros st|]. intros; apply framed_ret, _.
Qed.

(** [plan] applies nothing. *)
Lemma plan_applied args st :
  applied (terraformWrapper w code "plan" args st).1 = applied st.
Proof.
  unfold terraformWrapper, mbind, M_bind.
  pose proof (framed_ready st) as Hr. destruct (check _ _ st) as [st1 [e|]]; cbn in Hr; [apply Hr|].
  destruct Hr as [[_ <-] _]. cbn [listen].
  set (st2 := {| socketPath := _ |}).
  assert (Hc : applied (command w code ("terraform" :: "plan" :: args) st2).1 = applied st1).
  { unfold command; destruct (environment w), (executable w); try done.
    unfold effect; destruct args as [|? [|? [|? [|? ?]]]]; try done.
    destruct (exit_of w _) as [|z|]; try done. destruct z as [|[[]| [] |]|]; done. }
  destruct (command w code _ st2) as [st3 [e|]]; done.
Qed.

Lemma planWrapper_spec path st :
  let '(st', (c, r)) := planWrapper w code path st in
  applied st' = applied st ∧ ∀ p, r = inl p → files st' !! denotes w (cwd w) path = Some p.
Proof.
  unfold planWrapper, mbind, M_bind.
  pose proof (plan_applied ["-detailed-exitcode"; "-input=false"; "-out=" +:+ path] st) as Ha.
  destruct (terraformWrapper w code "plan" _ st) as [st1 err]; cbn [fst] in Ha.
  assert (Hread : let '(st', r) := plan_New w path st1 in
    applied st' = applied st ∧ ∀ p, r = inl p → files st' !! denotes w (cwd w) path = Some p).
  { unfold plan_New; cbn. split; [done|].
    intros p; destruct (files st1 !! _), (readable w path); by intros [= ->]. }
  destruct err as [e|]; [destruct (errIsTerraformPlanChangesNeeded (Some e))|];
    [destruct (plan_New w path st1) as [st2 [p|e']]| |destruct (plan_New w path st1) as [st2 [p|e']]];
    cbn in *; naive_solver.
Qed.

(** The path of the plan that is checked. *)
Definition checked_path (planPath : string) : Prop :=
  if decide (PlanFileLocation flags = DefaultPlanLocationPlaceholder)
  then planFileStore w flags code = inl planPath
  else planPath = PlanFileLocation flags.

Lemma first_plan_spec st :
  let '(st', (path, (c, r))) := first_plan w flags code true st in
  applied st' = applied st ∧
  ∀ p, r = inl p → checked_path path ∧ files st' !! denotes w (cwd w) path = Some p.
Proof.
  unfold first_plan, checked_path; cbn [negb orb].
  destruct (decide (PlanFileLocation flags = DefaultPlanLocationPlaceholder)) as [Hd | Hd].
  - rewrite bool_decide_true by done. destruct (planFileStore w flags code) as [path|e]; [|done].
    unfold mbind, M_bind. pose proof (planWrapper_spec path st) as Hp.
    destruct (planWrapper w code path st) as [st1 [c r]]; cbn. naive_solver.
  - rewrite bool_decide_false by done. unfold mbind, M_bind, plan_New; cbn.
    destruct (files st !! _) eqn:E; cbn; [|done]. destruct (readable w (PlanFileLocation flags)); [done|].
    split; [done|]. by intros ? [= <-].
Qed.

Lemma second_plan_spec path c p st :
  files st !! denotes w (cwd w) path = Some p →
  let '(st', (c', r)) := second_plan w code path c p st in
  applied st' = applied st ∧ ∀ p', r = inl p' → files st' !! denotes w (cwd w) path = Some p'.
Proof.
  intros Hp; unfold second_plan. destruct (UpdatingPuppet p); [|split; [done|by intros ? [= <-]]].
  unfold mbind, M_bind.
  pose proof (framed_wrapper "taint" ["-allow-missing"; "-module=kubernetes"; LegacyPuppetTFName]) as Ht.
  destruct (Ht (λ n st, eq_refl) st) as [_ Ha].
  destruct (terraformWrapper w code "taint" _ st) as [st1 [e|]]; cbn in Ha; [done|].
  pose proof (planWrapper_spec path st1) as Hw. destruct (planWrapper w code path st1) as [st2 [c' r]].
  by rewrite <-Ha.
Qed.

Definition approved : Prop :=
  (AutoApproveDeletingData flags = true ∧ AutoApprove flags = true) ∨ answer w = inl true.

Lemma check_volumes_spec c p : (check_volumes w flags true c p).2 = None → ¬ destroys_volume p ∨ approved.
Proof.
  unfold check_volumes. pose proof (IsDestroyingEBSVolume_spec _ p) as Hd.
  destruct (IsDestroyingEBSVolume p) as [d names]; cbn in Hd.
  destruct d; cbn; [|intros _; left; rewrite <-Hd; done]. unfold approved.
  destruct (AutoApproveDeletingData flags), (AutoApprove flags); cbn; auto;
    destruct (answer w) as [[]|]; cbn; try done; auto.
Qed.

Lemma PlanM_spec st :
  let '(st', (c, err)) := PlanM w flags code true st in
  applied st' = applied st ∧
  (err = None → ∃ path p, checked_path path ∧ files st' !! denotes w (cwd w) path = Some p ∧
                          (¬ destroys_volume p ∨ approved)).
Proof.
  unfold PlanM, mbind, M_bind. pose proof (first_plan_spec st) as H1.
  destruct (first_plan w flags code true st) as [st1 [path [c r]]]. destruct H1 as [Ha1 Hr].
  destruct r as [p|e]; [|done]. destruct (Hr p eq_refl) as [Hpath Hf].
  pose proof (second_plan_spec path c p st1 Hf) as H2.
  destruct (second_plan w code path c p st1) as [st2 [c' r']]. destruct H2 as [Ha2 Hr'].
  destruct r' as [p'|e]; [|split; [by rewrite Ha2|done]].
  unfold mret, M_ret. pose proof (check_volumes_spec c' p') as Hc.
  destruct (check_volumes w flags true c' p') as [c'' err]. split; [by rewrite Ha2|].
  intros ->; exists path, p'; auto.
Qed.

Lemma apply_spec path st :
  let st' := (terraformWrapper w code "apply" [path] st).1 in
  applied st' = applied st ∨
  applied st' = applied st ++ option_list (files st !! denotes w code path).
Proof.
  unfold terraformWrapper, mbind, M_bind. pose proof (framed_ready st) as Hr.
  destruct (check _ _ st) as [st1 [e|]]; cbn in Hr; destruct Hr as [[<- <-] _]; [by left|]. cbn [listen].
  set (st2 := {| socketPath := _ |}).
  assert (Hc : applied (command w code ["terraform"; "apply"; path] st2).1 = applied st1 ∨
    applied (command w code ["terraform"; "apply"; path] st2).1 =
    applied st1 ++ option_list (files st1 !! denotes w code path)).
  { unfold command; destruct (environment w), (executable w); auto.
    unfold effect. destruct (exit_of w (calls st2)); cbn; auto. }
  destruct (command w code _ st2) as [st3 [e|]]; done.
Qed.

End Frames.


(** A plan that finds changes leaves a listener behind: the command exits
    with status 2, and the wrapper returns before it closes the channel that
    stops the RPC server. *)
Theorem plan_leaks_listener (R : MapRange) w code path st p :
  (planWrapper w code path st).2 = (true, inl p) →
  listeners (planWrapper w code path st).1 = S (listeners st).
Proof.
  unfold planWrapper, terraformWrapper, mbind, M_bind. pose proof (framed_ready w code st) as Hr.
  destruct (check _ _ st) as [st1 [e|]]; cbn in Hr; destruct Hr as [_ Hl]; [done|]. cbn [listen].
  set (st2 := {| socketPath := _ |}).
  assert (Hc : listeners (command w code ["terraform"; "plan"; "-detailed-exitcode"; "-input=false"; "-out=" +:+ path] st2).1
    = S (listeners st)).
  { rewrite <-Hl. unfold command; destruct (environment w), (executable w); try done.
    by destruct (effect _ _ _ _ _). }
  destruct (command w code _ st2) as [st3 [e|]]; cbn in Hc; cbn [mret M_ret].
  - destruct (errIsTerraformPlanChangesNeeded (Some e)); [|done].
    unfold plan_New. by destruct (files st3 !! _), (readable w path).
  - cbn. by destruct (files st3 !! _), (readable w path).
Qed.

(** ** Variables *)

(** The values [MapToTerraformTfvars] distinguishes. *)
Inductive tfvar :=
| TMap (m : gmap string string)
| TList (l : list string)
| TStr (s : string)
| TInt (z : Z)
| TNet (n : IPNet)
| TOther.

Definition quote : string := String "034" "".
Definition newline : string := String "010" "".

Definition tfvar_block (key : string) (v : tfvar) : option string :=
  match v with
  | TMap m =>
      Some (key +:+ " = {" +:+ newline +:+
            String.concat ""
              (map (λ k, "  " +:+ k +:+ " = " +:+ quote +:+ default "" (m !! k) +:+ quote +:+ newline)
                 (sort_strings (map fst (map_to_list m)))) +:+ "}" +:+ newline)
  | TList l => Some (key +:+ " = [" +:+ Join (map (λ s, quote +:+ s +:+ quote) l) ", " +:+ "]" +:+ newline)
  | TStr s => Some (key +:+ " = " +:+ quote +:+ s +:+ quote +:+ newline)
  | TInt z => Some (key +:+ " = " +:+ fmt_d z +:+ newline)
  | TNet n => Some (key +:+ " = " +:+ quote +:+ IPNet_String n +:+ quote +:+ newline)
  | TOther => None
  end.

Fixpoint tfvar_blocks (entries : list (string * tfvar)) (buf : string) : string + error :=
  match entries with
  | [] => inl buf
  | (key, v) :: rest =>
      match tfvar_block key v with
      | Some block => tfvar_blocks rest (buf +:+ block)
      | None => inr (Errorf ("ignoring unknown var key='" +:+ key +:+ "'"))
      end
  end.

Definition MapToTerraformTfvars `{MapRange} (input : gmap string tfvar) : string + error :=
  tfvar_blocks (range input) "".

Lemma tfvar_blocks_spec entries buf :
  match tfvar_blocks entries buf with
  | inl s => ∃ blocks, Forall2 (λ e b, tfvar_block e.1 e.2 = Some b) entries blocks ∧
                       s = buf +:+ String.concat "" blocks
  | inr _ => ∃ e, e ∈ entries ∧ e.2 = TOther
  end.
Proof.
  revert buf; induction entries as [|[k v] es IH]; intros buf; cbn [tfvar_blocks].
  - exists []; split; [constructor|by rewrite string_app_nil_r].
  - destruct (tfvar_block k v) as [b|] eqn:Eb.
    + specialize (IH (buf +:+ b)). destruct (tfvar_blocks es (buf +:+ b)).
      * destruct IH as (bs & Hf & ->). exists (b :: bs); split; [by constructor|].
        rewrite string_app_assoc; f_equal. destruct bs; cbn [String.concat]; [by rewrite string_app_nil_r|done].
      * destruct IH as (e' & He & ?); exists e'; split; [by right|done].
    + exists (k, v); split; [left|]. by destruct v.
Qed.

(** The variables file has one block per variable, whatever the order in
    which the map is visited: it can be written exactly when every value has
    a known type, and the blocks of two runs are the same up to order. *)
Theorem MapToTerraformTfvars_correct (R1 R2 : MapRange) input :
  (is_Some (match MapToTerraformTfvars (H := R1) input with inl s => Some s | inr _ => None end) ↔
   map_Forall (λ _ v, v ≠ TOther) input) ∧
  ∀ s1 s2, MapToTerraformTfvars (H := R1) input = inl s1 → MapToTerraformTfvars (H := R2) input = inl s2 →
    ∃ b1 b2, s1 = String.concat "" b1 ∧ s2 = String.concat "" b2 ∧ b1 ≡ₚ b2 ∧ length b1 = size input.
Proof.
  unfold MapToTerraformTfvars. split.
  - pose proof (tfvar_blocks_spec (range (MapRange := R1) input) "") as Hs.
    destruct (tfvar_blocks _ "") as [s|e]; split.
    + intros _ k v Hk ->. destruct Hs as (bs & Hf & _).
      assert (Hin : (k, TOther) ∈ range (MapRange := R1) input) by (by rewrite range_perm, elem_of_map_to_list).
      apply list_elem_of_lookup in Hin as [i Hi].
      destruct (Forall2_lookup_l _ _ _ _ _ Hf Hi) as (b & _ & ?); done.
    + by intros _.
    + by intros [? ?].
    + intros Hall; destruct Hs as ([k v] & Hin & Hv). rewrite range_perm, elem_of_map_to_list in Hin.
      by apply Hall in Hin.
  - intros s1 s2 H1 H2.
    pose proof (tfvar_blocks_spec (range (MapRange := R1) input) "") as Hs1; rewrite H1 in Hs1.
    pose proof (tfvar_blocks_spec (range (MapRange := R2) input) "") as Hs2; rewrite H2 in Hs2.
    destruct Hs1 as (b1 & F1 & ->), Hs2 as (b2 & F2 & ->).
    assert (Hmap : ∀ es bs, Forall2 (λ e b, tfvar_block e.1 e.2 = Some b) es bs →
      bs = omap (λ e, tfvar_block e.1 e.2) es).
    { induction 1 as [|e b es bs He _ IH]; [done|]. unfold omap; cbn; rewrite He. by f_equal. }
    exists b1, b2; split_and!; [done..| |].
    + rewrite (Hmap _ _ F1), (Hmap _ _ F2). apply omap_Permutation, range_any.
    + rewrite <-(Forall2_length _ _ _ F1), range_perm. apply length_map_to_list.
Qed.

(** ** Behaviour that is not intended *)

Definition resource (key : string) (c : ChangeType) : Plan :=
  {| Modules := [{| mod_Path := ["root"]; mod_Resources := {[ key := c ]} |}] |}.

(** Whether the manifests change is decided by the first of their two
    objects that is met, so it depends on the order in which a map is visited:
    for the same plan one run makes the plan again and another does not. *)
Theorem UpdatingPuppet_order :
  ∃ p, UpdatingPuppet (H := range_list) p ≠ UpdatingPuppet (H := range_rev) p.
Proof.
  exists {| Modules := [{| mod_Path := ["root"];
    mod_Resources := <["aws_s3_bucket_object.puppet-tar-gz" := DiffNone]>
                     {["aws_s3_bucket_object.latest-puppet-hash" := DiffUpdate]} |}] |}.
  by vm_compute.
Qed.

Definition example_denotes (dir p : string) : string := if HasPrefix p "/" then p else dir +:+ "/" +:+ p.

(** A world in which every command succeeds and plans find changes. *)
Definition example_world (exits : nat → Exit) (p : Plan) (reply : bool) : World :=
  {| tempfile := inl "/tmp/sock"; generateCode := None; preparePlugins := None; environment := inl [];
     executable := None; cancelled := λ _, None; exit_of := exits; computes := λ _, p; readable := λ _, None;
     answer := inl reply; expand := λ p, inl (example_denotes "/home" p); denotes := example_denotes; cwd := "/home" |}.

Definition example_flags (location : string) : TfFlags :=
  {| PlanFileStore := DefaultPlanLocationPlaceholder; PlanFileLocation := location;
     AutoApprove := false; AutoApproveDeletingData := false |}.

Definition start (fs : gmap string Plan) : Tf :=
  {| socketPath := ""; prepared := false; files := fs; commands := []; applied := []; listeners := 0; calls := 0 |}.

(** A custom plan is not what is applied when it changes the manifests: the
    plan is made again over the file, and the new plan is applied without
    another look at it. *)
Theorem custom_plan_replaced :
  ∃ w st p p', files st !! "/plan" = Some p ∧ p ≠ p' ∧
    applied (Apply (H := range_list) w (example_flags "/plan") "/code" st).1 = [p'].
Proof.
  exists (example_world (λ n, if decide (n = 8) then ExitStatus 2 else ExitOk) (resource "aws_instance.x" DiffDestroy) false),
    (start {[ "/plan" := resource "aws_s3_bucket_object.puppet-tar-gz" DiffUpdate ]}),
    (resource "aws_s3_bucket_object.puppet-tar-gz" DiffUpdate), (resource "aws_instance.x" DiffDestroy).
  split_and!; [vm_compute; reflexivity| |vm_compute; reflexivity].
  intros E. apply (f_equal Modules) in E. vm_compute in E. discriminate.
Qed.

(** ** Witnesses *)


Lemma plan_leaks_listener_witness :
  listeners (planWrapper (example_world (λ n, if decide (n = 7) then ExitStatus 2 else ExitOk)
    (resource "aws_instance.x" DiffCreate) false) "/code" "/code/tarmak.plan" (start ∅)).1 = 1.
Proof.
  apply (plan_leaks_listener range_list _ "/code" "/code/tarmak.plan" (start ∅) (resource "aws_instance.x" DiffCreate)).
  vm_compute; reflexivity.
Defined.
