(* ===== verification/Paths.v ===== *)
(** * Paths: the path functions of Go's standard library

    [path] and [path/filepath] on Unix, as far as the code uses them: [Clean],
    [Join], [Dir], [Base] and [Ext].  A path is a list of elements between
    slashes; [clean] drops the elements that stay where they are and resolves
    [..] against the elements before it.  The lemmas say that all of them are
    what one expects on paths of plain elements ([plain]). *)

From S2P Require Import Prelude.

(** The elements that are left of a path, in reverse. *)
Fixpoint clean (rooted : bool) (out : list string) (elements : list string) : list string :=
  match elements with
  | [] => out
  | e :: elements' =>
      if decide (e = "" ∨ e = ".") then clean rooted out elements'
      else if decide (e = "..") then
        match out with
        | [] => clean rooted (if rooted then [] else [".."]) elements'
        | o :: out' => clean rooted (if decide (o = "..") then ".." :: out else out') elements'
        end
      else clean rooted (e :: out) elements'
  end.

Definition rooted_path (path : string) : bool := HasPrefix path "/".

Definition Clean (path : string) : string :=
  let rooted := rooted_path path in
  let out := Join (rev (clean rooted [] (Split "/" path))) "/" in
  if rooted then "/" +:+ out else if decide (out = "") then "." else out.

(** [Join] drops the empty elements at the front. *)
Fixpoint path_Join (elements : list string) : string :=
  match elements with
  | [] => ""
  | e :: elements' => if decide (e = "") then path_Join elements' else Clean (Join elements "/")
  end.

(** [path[:strings.LastIndex(path, "/")+1]] *)
Definition path_Dir (path : string) : string :=
  let parts := Split "/" path in
  Clean (if decide (length parts = 1) then "" else Join (removelast parts) "/" +:+ "/").

Definition path_Base (path : string) : string :=
  if decide (path = "") then "."
  else let base := List.last (Split "/" (TrimRight "/" path)) "" in
       if decide (base = "") then "/" else base.

(** What follows the last dot of the last element, with the dot. *)
Definition path_Ext (path : string) : string :=
  let parts := Split "." (List.last (Split "/" path) "") in
  if decide (length parts = 1) then "" else "." +:+ List.last parts "".

(** ** Plain paths *)

Definition plain (e : string) : Prop := e ≠ "" ∧ e ≠ "." ∧ e ≠ ".." ∧ has_byte "/" e = false.

#[global] Instance plain_dec e : Decision (plain e).
Proof. unfold plain. apply _. Defined.

Lemma plain_no_slash e : plain e → has_byte "/" e = false.
Proof. by intros (_ & _ & _ & ?). Qed.

Lemma plain_no_slashes es : Forall plain es → Forall (λ e, has_byte "/" e = false) es.
Proof. intros Hes. eapply Forall_impl; [exact Hes|]. apply plain_no_slash. Qed.

Lemma clean_plain rooted out es : Forall plain es → clean rooted out es = rev es ++ out.
Proof.
  intros Hes. revert out. induction Hes as [|e es (? & ? & ? & _) _ IH]; intros out; [done|]. cbn [clean].
  rewrite decide_False by tauto. rewrite decide_False by done. rewrite IH. simpl. by rewrite <- app_assoc.
Qed.

Lemma Split_Join es : es ≠ [] → Forall (λ e, has_byte "/" e = false) es → Split "/" (Join es "/") = es.
Proof.
  intros Hne Hes. induction es as [|e es IH] using rev_ind; [done|].
  apply Forall_app in Hes as [Hes [He _]%Forall_cons]. destruct (decide (es = [])) as [->|Hn].
  { exact (Split_no_sep "/" e He). }
  rewrite Join_snoc by done. change ("/" +:+ e) with (String "/" e). rewrite Split_snoc by done.
  by rewrite IH.
Qed.

Lemma plain_Join es : es ≠ [] → Forall plain es →
  rooted_path (Join es "/") = false ∧ Join es "/" ≠ "".
Proof.
  destruct es as [|e es]; [done|]. intros _ [(He & _ & _ & Hs) Hes]%Forall_cons.
  destruct e as [|c e]; [done|].
  assert (Join (String c e :: es) "/" = String c (e +:+ (if decide (es = []) then "" else "/" +:+ Join es "/"))) as ->.
  { destruct es; [simpl; by rewrite string_app_nil_r|]. rewrite decide_False by done. done. }
  split; [|done]. unfold rooted_path, HasPrefix. cbn [String.prefix]. destruct (ascii_dec _ _) as [<-|]; [|done].
  by unfold has_byte in Hs.
Qed.

Lemma Clean_plain es : es ≠ [] → Forall plain es → Clean (Join es "/") = Join es "/".
Proof.
  intros Hne Hes. destruct (plain_Join es Hne Hes) as [Hr Hn]. unfold Clean. rewrite Hr.
  rewrite Split_Join by auto using plain_no_slashes.
  rewrite clean_plain, app_nil_r, rev_involutive by done. by rewrite decide_False.
Qed.

Lemma Split_root s : Split "/" ("/" +:+ s) = "" :: Split "/" s.
Proof. done. Qed.

Lemma rooted_root s : rooted_path ("/" +:+ s) = true.
Proof. apply HasPrefix_spec. by exists s. Qed.

Lemma Clean_rooted es : Forall plain es → Clean ("/" +:+ Join es "/") = "/" +:+ Join es "/".
Proof.
  intros Hes. unfold Clean. rewrite rooted_root. f_equal. rewrite Split_root.
  destruct (decide (es = [])) as [->|Hne]; [done|].
  rewrite Split_Join by auto using plain_no_slashes.
  cbn [clean]. rewrite decide_True by (by left). by rewrite clean_plain, app_nil_r, rev_involutive.
Qed.

Lemma Join_app es1 es2 sep : es1 ≠ [] → es2 ≠ [] → Join (es1 ++ es2) sep = Join es1 sep +:+ sep +:+ Join es2 sep.
Proof.
  intros H1 H2. induction es1 as [|e es1 IH]; [done|]. destruct (decide (es1 = [])) as [->|Hn].
  - change ([e] ++ es2) with (e :: es2). by rewrite Join_cons.
  - change ((e :: es1) ++ es2) with (e :: (es1 ++ es2)).
    rewrite !Join_cons by (done || by destruct es1). rewrite IH by done. by rewrite !string_app_assoc.
Qed.

(** Joining plain relative paths. *)
Lemma path_Join_plain es1 es2 : es1 ≠ [] → es2 ≠ [] → Forall plain es1 → Forall plain es2 →
  path_Join [Join es1 "/"; Join es2 "/"] = Join (es1 ++ es2) "/".
Proof.
  intros H1 H2 Hp1 Hp2. cbn [path_Join]. rewrite decide_False by (by apply plain_Join).
  rewrite Join_cons by done. change (Join [Join es2 "/"] "/") with (Join es2 "/").
  rewrite <- Join_app by done. apply Clean_plain; [by destruct es1|by apply Forall_app].
Qed.

Lemma path_Join_rooted es1 es2 : es1 ≠ [] → es2 ≠ [] → Forall plain es1 → Forall plain es2 →
  path_Join ["/" +:+ Join es1 "/"; Join es2 "/"] = "/" +:+ Join (es1 ++ es2) "/".
Proof.
  intros H1 H2 Hp1 Hp2. cbn [path_Join]. rewrite decide_False by done.
  rewrite Join_cons by done. change (Join [Join es2 "/"] "/") with (Join es2 "/").
  rewrite string_app_assoc, <- Join_app by done. apply Clean_rooted. by apply Forall_app.
Qed.

Lemma clean_trailing rooted out l : clean rooted out (l ++ [""]) = clean rooted out l.
Proof.
  revert out. induction l as [|x l IH]; intros out; [done|]. cbn [clean app]. by repeat (case_decide || case_match).
Qed.

Lemma path_Dir_rooted es e : Forall plain es → plain e → path_Dir ("/" +:+ Join (es ++ [e]) "/") = "/" +:+ Join es "/".
Proof.
  intros Hes He. unfold path_Dir.
  assert (Split "/" ("/" +:+ Join (es ++ [e]) "/") = "" :: es ++ [e]) as ->.
  { rewrite Split_root. f_equal. apply Split_Join; [by destruct es|].
    apply plain_no_slashes, Forall_app; split; [done|]. by apply Forall_singleton. }
  rewrite decide_False by (rewrite length_cons, length_app; simpl; lia).
  rewrite app_comm_cons, removelast_last. destruct (decide (es = [])) as [->|Hne]; [done|].
  rewrite Join_cons by done. rewrite string_app_nil_l. rewrite <- (Clean_rooted es Hes) at 2.
  unfold Clean. rewrite string_app_assoc, !rooted_root, <- string_app_assoc. do 3 f_equal.
  rewrite Split_snoc by done. apply clean_trailing.
Qed.

(** The name of a file without its extension. *)
Definition TrimSuffix (s suffix : string) : string :=
  if HasSuffix s suffix then String.substring 0 (String.length s - String.length suffix) s else s.

Lemma TrimSuffix_app s suffix : TrimSuffix (s +:+ suffix) suffix = s.
Proof.
  unfold TrimSuffix. rewrite (proj2 (HasSuffix_spec _ _)) by (by eexists).
  rewrite string_app_length, Nat.add_sub. apply substring_app.
Qed.

Lemma Split_last c n e : has_byte c e = false →
  ∃ ws w, Split c n = ws ++ [w] ∧ Split c (n +:+ e) = ws ++ [w +:+ e].
Proof.
  intros He. induction n as [|d n (ws & w & IH1 & IH2)].
  - exists [], "". split; [done|]. by apply Split_no_sep.
  - rewrite string_app_cons. cbn [Split]. rewrite IH1, IH2. case_decide.
    + by exists ("" :: ws), w.
    + destruct ws as [|w' ws]; [by exists [], (String d w)|]. by exists (String d w' :: ws), w.
Qed.

Lemma path_Ext_app n e : has_byte "/" e = false → has_byte "." e = false →
  path_Ext (n +:+ String "." e) = String "." e.
Proof.
  intros Hs He. unfold path_Ext. destruct (Split_last "/" n (String "." e)) as (ws & w & _ & ->); [done|].
  rewrite last_last, Split_snoc, last_last by done. case_decide as Hl; [|done].
  rewrite length_app in Hl. pose proof (Split_not_nil "." w). destruct (Split "." w); simpl in *; [done|lia].
Qed.

Lemma string_snoc s : s ≠ "" → ∃ t x, s = t +:+ String x "".
Proof.
  intros Hs. destruct (exists_last (l := bytes_of s)) as (l & x & Hl); [by destruct s|].
  exists (string_of l), x. apply bytes_of_inj. rewrite bytes_of_app, Hl.
  by rewrite String.list_ascii_of_string_of_list_ascii.
Qed.

Lemma rev_string_snoc s x : String.rev (s +:+ String x "") = String x (String.rev s).
Proof.
  apply bytes_of_inj. rewrite bytes_of_rev, bytes_of_app, reverse_app. cbn [bytes_of app reverse].
  by rewrite bytes_of_rev.
Qed.

Lemma rev_string_cons s x : String.rev (String x s) = String.rev s +:+ String x "".
Proof. apply bytes_of_inj. rewrite bytes_of_app, !bytes_of_rev. apply reverse_cons. Qed.

Lemma rev_string_involutive s : String.rev (String.rev s) = s.
Proof. apply bytes_of_inj. by rewrite !bytes_of_rev, reverse_involutive. Qed.

Lemma TrimRight_snoc c s x : x ≠ c → TrimRight c (s +:+ String x "") = s +:+ String x "".
Proof.
  intros Hx. unfold TrimRight. rewrite rev_string_snoc. cbn [TrimLeft_rev]. rewrite decide_False by done.
  by rewrite rev_string_cons, rev_string_involutive.
Qed.

(** The last element of a path. *)
Lemma path_Base_plain s e : plain e → path_Base (s +:+ String "/" e) = e.
Proof.
  intros (Hne & _ & _ & Hs). unfold path_Base. rewrite decide_False by (by destruct s).
  assert (TrimRight "/" (s +:+ String "/" e) = s +:+ String "/" e) as ->.
  { destruct (string_snoc e Hne) as (t & x & ->).
    change (String "/" (t +:+ String x "")) with (String "/" t +:+ String x ""). rewrite <- string_app_assoc.
    apply TrimRight_snoc. intros ->. unfold has_byte in Hs. rewrite bytes_of_app, existsb_app in Hs. cbn in Hs.
    by rewrite orb_true_r in Hs. }
  rewrite Split_snoc by done. rewrite last_last. by rewrite decide_False.
Qed.

Lemma plain_const e : bool_decide (plain e) = true → plain e.
Proof. apply bool_decide_eq_true. Qed.

Ltac plains := repeat (apply Forall_cons; split; [first [assumption | by apply plain_const]|]); apply Forall_nil_2.

(** A path is its elements. *)
Lemma Join_inj es1 es2 : es1 ≠ [] → es2 ≠ [] → Forall plain es1 → Forall plain es2 →
  "/" +:+ Join es1 "/" = "/" +:+ Join es2 "/" → es1 = es2.
Proof.
  intros H1 H2 Hp1 Hp2 Heq%(f_equal (Split "/")). rewrite !Split_root in Heq.
  rewrite !Split_Join in Heq by auto using plain_no_slashes. by injection Heq.
Qed.
