(* ===== verification/FileTree.v ===== *)
(** * FileTree: a file system, and copying a directory

    A file system maps paths, as lists of elements, to files, directories and
    symbolic links.  An operation of the system fails when its conditions do
    not hold, and may fail at any time besides ([io], by the number of the
    call).  [CopyFile] and [CopyDir] are those of
    [src/pkg/tarmak/utils/copy.go]. *)

From S2P Require Import Prelude.

Inductive Node : Type :=
| NFile (mode : N) (text : string)
| NDir (mode : N)
| NLink (target : string).

#[global] Instance Node_eq_dec : EqDecision Node.
Proof. solve_decision. Defined.

Abbreviation fpath := (list string).
Abbreviation FS := (@gmap fpath _ (@list_countable string _ _) Node).

Record Sys := { sys_fs : FS; sys_calls : nat }.

(** Programs that use the file system and may fail. *)
Definition FSM (A : Type) : Type := Sys → Sys * (A + error).

#[global] Instance FSM_ret : MRet FSM := λ A a s, (s, inl a).
#[global] Instance FSM_bind : MBind FSM := λ A B f m s,
  match m s with
  | (s', inl a) => f a s'
  | (s', inr e) => (s', inr e)
  end.

Definition fail {A} (e : error) : FSM A := λ s, (s, inr e).

Definition not_exist : error := Errorf "no such file or directory".

Section system.
Context (io : nat → option error).

(** One system call: it may fail, and then leaves the files alone. *)
Definition syscall {A} (f : FS → FS * (A + error)) : FSM A := λ s,
  match io (sys_calls s) with
  | Some e => ({| s with sys_calls := S (sys_calls s) |}, inr e)
  | None => let '(fs, r) := f (sys_fs s) in ({| sys_fs := fs; sys_calls := S (sys_calls s) |}, r)
  end.

(** [os.Stat]; links are not followed further here, as no code stats one. *)
Definition Stat (p : fpath) : FSM (option Node) := syscall (λ fs, (fs, inl (fs !! p))).

(** The missing directories on the way to [p], [p] included. *)
Fixpoint mkdirs (mode : N) (done todo : fpath) (fs : FS) : FS + error :=
  match todo with
  | [] => inl fs
  | n :: todo' =>
      let p := done ++ [n] in
      match fs !! p with
      | Some (NDir _) => mkdirs mode p todo' fs
      | Some _ => inr (Errorf "not a directory")
      | None => mkdirs mode p todo' (<[p := NDir mode]> fs)
      end
  end.

Definition MkdirAll (p : fpath) (mode : N) : FSM unit := syscall (λ fs,
  match mkdirs mode [] p fs with inl fs' => (fs', inl ()) | inr e => (fs, inr e) end).

(** The entries of a directory, by name. *)
Definition entry_of (p : fpath) (kv : fpath * Node) : option (string * Node) :=
  match last kv.1 with
  | Some n => if decide (removelast kv.1 = p) then Some (n, kv.2) else None
  | None => None
  end.

Definition entry_le (e1 e2 : string * Node) : Prop := String.le e1.1 e2.1.
#[global] Instance entry_le_dec : RelDecision entry_le := λ e1 e2, _.

Definition entries (fs : FS) (p : fpath) : list (string * Node) :=
  merge_sort entry_le (omap (entry_of p) (map_to_list fs)).

Definition ReadDir (p : fpath) : FSM (list (string * Node)) := syscall (λ fs,
  match fs !! p with
  | Some (NDir _) => (fs, inl (entries fs p))
  | _ => (fs, inr not_exist)
  end).

Definition Open (p : fpath) : FSM string := syscall (λ fs,
  match fs !! p with Some (NFile _ text) => (fs, inl text) | _ => (fs, inr not_exist) end).

(** [os.Create] and [os.OpenFile] with [O_TRUNC]: an empty file, with the mode
    it had or [mode]. *)
Definition os_Create (p : fpath) (mode : N) : FSM unit := syscall (λ fs,
  match fs !! p with
  | Some (NFile m _) => (<[p := NFile m ""]> fs, inl ())
  | Some _ => (fs, inr (Errorf "is a directory"))
  | None =>
      match fs !! removelast p with
      | Some (NDir _) => (<[p := NFile mode ""]> fs, inl ())
      | _ => (fs, inr not_exist)
      end
  end).

Definition Write (p : fpath) (text : string) : FSM unit := syscall (λ fs,
  match fs !! p with
  | Some (NFile m old) => (<[p := NFile m (old +:+ text)]> fs, inl ())
  | _ => (fs, inr not_exist)
  end).

(** [Sync] and [Close] *)
Definition Flush : FSM unit := syscall (λ fs, (fs, inl ())).

Definition Chmod (p : fpath) (mode : N) : FSM unit := syscall (λ fs,
  match fs !! p with
  | Some (NFile _ text) => (<[p := NFile mode text]> fs, inl ())
  | Some (NDir _) => (<[p := NDir mode]> fs, inl ())
  | _ => (fs, inr not_exist)
  end).

(** [os.RemoveAll]: nothing to remove is no error. *)
Definition RemoveAll (p : fpath) : FSM unit := syscall (λ fs,
  (filter (λ kv : fpath * Node, ~ p `prefix_of` kv.1) fs, inl ())).

(** ** copy.go *)

Definition mode_of (n : Node) : N := match n with NFile m _ | NDir m => m | NLink _ => 0 end.

(** [defer out.Close()], whose error replaces the result. *)
Definition closing (m : FSM unit) : FSM unit := λ s,
  let '(s1, r) := m s in
  match Flush s1 with
  | (s2, inr e) => (s2, inr e)
  | (s2, inl _) => (s2, r)
  end.

Definition CopyFile (src dst : fpath) : FSM unit :=
  text ← Open src;
  _ ← os_Create dst 438;
  closing (
    _ ← Write dst text;
    _ ← Flush;
    si ← Stat src;
    match si with
    | None => fail not_exist
    | Some si => Chmod dst (mode_of si)
    end).

(** One entry and the loop over the entries, with the copying of directories. *)
Definition copy_entry (copy_dir : fpath → fpath → FSM unit) (src dst : fpath) (n : string) (node : Node)
    : FSM unit :=
  match node with
  | NDir _ => copy_dir (src ++ [n]) (dst ++ [n])
  | NLink _ => mret ()
  | NFile _ _ => CopyFile (src ++ [n]) (dst ++ [n])
  end.

Fixpoint copy_entries (copy_dir : fpath → fpath → FSM unit) (src dst : fpath) (es : list (string * Node))
    : FSM unit :=
  match es with
  | [] => mret ()
  | (n, node) :: es' => _ ← copy_entry copy_dir src dst n node; copy_entries copy_dir src dst es'
  end.

(** The recursion on directories takes fuel. *)
Fixpoint CopyDir (fuel : nat) (src dst : fpath) : FSM unit :=
  match fuel with
  | O => fail (Errorf "out of fuel")
  | S fuel' =>
      si ← Stat src;
      match si with
      | None => fail not_exist
      | Some (NDir mode) =>
          d ← Stat dst;
          match d with
          | Some _ => fail (Errorf "destination already exists")
          | None =>
              _ ← MkdirAll dst mode;
              es ← ReadDir src;
              copy_entries (CopyDir fuel') src dst es
          end
      | Some _ => fail (Errorf "source is not a directory")
      end
  end.
End system.

(** ** What the operations do *)

(** Everything is in a directory. *)
Definition fs_wf (fs : FS) : Prop := ∀ p n node, fs !! (p ++ [n]) = Some node → ∃ m, fs !! p = Some (NDir m).

Definition is_dir (fs : FS) (p : fpath) : Prop := ∃ m, fs !! p = Some (NDir m).

Lemma wf_above fs p q node : fs_wf fs → q ≠ [] → fs !! (p ++ q) = Some node → is_dir fs p.
Proof.
  intros Hwf. revert node. induction q as [|n q IH] using rev_ind; intros node Hq Hn; [done|].
  rewrite app_assoc in Hn. destruct (Hwf _ _ _ Hn) as [m Hm]. destruct (decide (q = [])) as [->|Hne].
  - rewrite app_nil_r in Hm. by exists m.
  - by apply (IH (NDir m)).
Qed.

Lemma wf_below fs p q : fs_wf fs → q ≠ [] → ¬ is_dir fs p → fs !! (p ++ q) = None.
Proof. intros Hwf Hq Hd. destruct (fs !! (p ++ q)) as [n|] eqn:Hn; [|done]. destruct Hd. by eapply wf_above. Qed.

Lemma bind_ok {A B} (m : FSM A) (f : A → FSM B) s s' b :
  (m ≫= f) s = (s', inl b) → ∃ s1 a, m s = (s1, inl a) ∧ f a s1 = (s', inl b).
Proof. unfold mbind, FSM_bind. destruct (m s) as [s1 [a|e]]; [|done]. intros Hf. by exists s1, a. Qed.

Section lemmas.
Context (io : nat → option error).

Lemma syscall_ok {A} (f : FS → FS * (A + error)) s s' a :
  syscall io f s = (s', inl a) → f (sys_fs s) = (sys_fs s', inl a).
Proof.
  unfold syscall. destruct (io _); [done|]. destruct (f (sys_fs s)) as [fs r]. by intros [= <- ->].
Qed.

Lemma Stat_ok p s s' r : Stat io p s = (s', inl r) → sys_fs s' = sys_fs s ∧ r = sys_fs s !! p.
Proof. intros Hs%syscall_ok. cbn in Hs. by injection Hs as <- <-. Qed.

Lemma Flush_ok s s' r : Flush io s = (s', inl r) → sys_fs s' = sys_fs s.
Proof. intros Hs%syscall_ok. by injection Hs as <-. Qed.

Lemma closing_ok m s s' u :
  closing io m s = (s', inl u) → ∃ s1, m s = (s1, inl u) ∧ sys_fs s' = sys_fs s1.
Proof.
  unfold closing. destruct (m s) as [s1 r]. destruct (Flush io s1) as [s2 [[]|]] eqn:Hf; [|done].
  intros [= -> ->]. exists s1. split; [done|]. by apply Flush_ok in Hf.
Qed.

Lemma CopyFile_ok src dst s s' :
  src ≠ dst → sys_fs s !! dst = None → CopyFile io src dst s = (s', inl ()) →
  ∃ m text, sys_fs s !! src = Some (NFile m text) ∧ sys_fs s' = <[dst := NFile m text]> (sys_fs s).
Proof.
  intros Hne Hd Hc. unfold CopyFile in Hc.
  apply bind_ok in Hc as (s1 & text & Ho%syscall_ok & Hc).
  destruct (sys_fs s !! src) as [[m t| |]|] eqn:Hsrc; try done. injection Ho as Hs1 ->. exists m, text.
  split; [done|]. apply bind_ok in Hc as (s2 & [] & Hcr%syscall_ok & Hc).
  rewrite <- Hs1 in Hcr. rewrite Hd in Hcr.
  assert (sys_fs s2 = <[dst := NFile 438 ""]> (sys_fs s)) as Hs2.
  { destruct (sys_fs s !! removelast dst) as [[]|]; try done. by injection Hcr as <-. }
  apply closing_ok in Hc as (s3 & Hbody & ->).
  apply bind_ok in Hbody as (s5 & [] & Hw%syscall_ok & Hbody). rewrite Hs2, lookup_insert_eq in Hw.
  injection Hw as Hs5. rewrite string_app_nil_l, insert_insert_eq in Hs5.
  apply bind_ok in Hbody as (s6 & [] & Hfl%Flush_ok & Hbody).
  apply bind_ok in Hbody as (s7 & si & [Hs7 ->]%Stat_ok & Hbody).
  rewrite Hfl, <- Hs5, lookup_insert_ne, Hsrc in Hbody by done. apply syscall_ok in Hbody. cbn in Hbody.
  rewrite Hs7, Hfl, <- Hs5, lookup_insert_eq in Hbody. injection Hbody as <-. by rewrite insert_insert_eq.
Qed.

(** Making a directory in one that exists. *)
Lemma mkdirs_new mode fs before todo :
  todo ≠ [] → fs !! (before ++ todo) = None →
  (∀ q1 q2, todo = q1 ++ q2 → q1 ≠ [] → q2 ≠ [] → is_dir fs (before ++ q1)) →
  mkdirs mode before todo fs = inl (<[before ++ todo := NDir mode]> fs).
Proof.
  revert before. induction todo as [|n todo IH]; intros before Hne Hnone Hdirs; [done|]. cbn [mkdirs].
  destruct (decide (todo = [])) as [->|Htodo]; [by rewrite Hnone|].
  destruct (Hdirs [n] todo) as [m ->]; [done..|]. rewrite IH; [by rewrite <- app_assoc|done|by rewrite <- app_assoc|].
  intros q1 q2 -> ? ?. rewrite <- app_assoc. apply (Hdirs (n :: q1) q2); done.
Qed.

Lemma dirs_above fs parent n q1 q2 :
  fs_wf fs → is_dir fs parent → parent ++ [n] = q1 ++ q2 → q1 ≠ [] → q2 ≠ [] → is_dir fs ([] ++ q1).
Proof.
  intros Hwf [m Hp] Heq H1 H2. cbn. destruct (exists_last H2) as (q & x & ->). rewrite app_assoc in Heq.
  apply app_inj_tail in Heq as [-> _]. destruct (decide (q = [])) as [->|Hq]; [rewrite app_nil_r in Hp; by exists m|].
  by apply (wf_above _ q1 q (NDir m)).
Qed.

Lemma MkdirAll_ok parent n mode s s' :
  fs_wf (sys_fs s) → is_dir (sys_fs s) parent → sys_fs s !! (parent ++ [n]) = None →
  MkdirAll io (parent ++ [n]) mode s = (s', inl ()) → sys_fs s' = <[parent ++ [n] := NDir mode]> (sys_fs s).
Proof.
  intros Hwf Hp Hn Hs%syscall_ok. cbn in Hs. rewrite mkdirs_new in Hs; [by injection Hs as <-|by destruct parent|done|].
  intros q1 q2. by apply (dirs_above _ parent n).
Qed.

Lemma dir_entries_elem fs p n node : (n, node) ∈ entries fs p ↔ fs !! (p ++ [n]) = Some node.
Proof.
  unfold entries. rewrite merge_sort_Permutation, list_elem_of_omap. split.
  - intros ([k v] & Hk%elem_of_map_to_list & He). unfold entry_of in He. cbn [fst snd] in He.
    destruct (last k) as [x|] eqn:Hl; [|done]. case_decide as Hd; [|done]. injection He as -> ->.
    apply last_Some in Hl as [k' ->]. rewrite removelast_last in Hd. by subst.
  - intros Hn. exists (p ++ [n], node). split; [by apply elem_of_map_to_list|].
    unfold entry_of. cbn [fst snd]. rewrite last_snoc, removelast_last. by rewrite decide_True.
Qed.

Lemma dir_entries_NoDup fs p : NoDup (entries fs p).*1.
Proof.
  unfold entries. rewrite merge_sort_Permutation.
  assert (∀ l : list (fpath * Node), NoDup l.*1 → NoDup (omap (entry_of p) l).*1) as Hl; [|apply Hl, NoDup_fst_map_to_list].
  induction l as [|[k v] l IH]; intros Hnd; [constructor|]. apply NoDup_cons in Hnd as [Hk Hnd]. cbn [omap list_omap].
  destruct (entry_of p (k, v)) as [[n node]|] eqn:He; [|by apply IH]. cbn [fmap list_fmap]. constructor; [|by apply IH].
  intros ([n' node'] & Heq & ([k' v'] & Hin & He')%list_elem_of_omap)%list_elem_of_fmap. cbn in Heq. subst n'.
  unfold entry_of in He, He'. cbn [fst snd] in *.
  destruct (last k) as [x|] eqn:Hl1; [|done]. destruct (last k') as [x'|] eqn:Hl2; [|done].
  do 2 (case_decide; [|done]). simplify_eq. apply last_Some in Hl1 as [q ->], Hl2 as [q' ->].
  rewrite !removelast_last in *. subst. apply Hk. eapply (list_elem_of_fmap_2' fst); [exact Hin|done].
Qed.
End lemmas.

(** ** Copying a directory *)

(** What a copy has of a node: everything but links. *)
Definition copied (n : Node) : option Node := match n with NLink _ => None | _ => Some n end.

Definition apart (p q : fpath) : Prop := ¬ p `prefix_of` q ∧ ¬ q `prefix_of` p.

Lemma prefix_app_cases (a b c : fpath) : a `prefix_of` b ++ c → a `prefix_of` b ∨ b `prefix_of` a.
Proof.
  revert b. induction a as [|x a IH]; intros b; [by left; apply prefix_nil|].
  destruct b as [|y b]; [by right; apply prefix_nil|]. intros Hp. simpl in Hp.
  pose proof (prefix_cons_inv_1 _ _ _ _ Hp) as ->. apply prefix_cons_inv_2 in Hp.
  destruct (IH b Hp); [left|right]; by apply prefix_cons.
Qed.

Lemma apart_below p q r : apart p q → ¬ p `prefix_of` q ++ r.
Proof. intros [Hp Hq] [?|?]%prefix_app_cases; done. Qed.

Lemma apart_snoc p q n : apart p q → apart (p ++ [n]) (q ++ [n]).
Proof.
  intros Ha. split; intros Hp.
  - apply (apart_below p q [n] Ha). etrans; [|exact Hp]. apply prefix_app_r. done.
  - destruct Ha. apply (apart_below q p [n]); [done|]. etrans; [|exact Hp]. apply prefix_app_r. done.
Qed.

(** The promise of copying a directory, when it succeeds: the destination has
    what the source has, links excepted, and nothing else has changed. *)
Definition copies (fs fs' : FS) (src dst : fpath) : Prop :=
  fs_wf fs' ∧ (∀ p, ¬ dst `prefix_of` p → fs' !! p = fs !! p) ∧
  (∀ rel, fs' !! (dst ++ rel) = fs !! (src ++ rel) ≫= copied).

(** The loop: [fs0] is the state before it, in which [dst] is empty. *)
Record copying (fs0 : FS) (src dst : fpath) (names : list string) (fs : FS) : Prop := {
  cp_wf : fs_wf fs;
  cp_dst : is_dir fs dst;
  cp_top : fs !! dst = fs0 !! dst;
  cp_frame : ∀ p, ¬ dst `prefix_of` p → fs !! p = fs0 !! p;
  cp_done : ∀ n rel, n ∈ names → fs !! (dst ++ n :: rel) = fs0 !! (src ++ n :: rel) ≫= copied;
  cp_rest : ∀ n rel, n ∉ names → fs !! (dst ++ n :: rel) = None;
}.

Lemma copying_src fs0 src dst names fs p : copying fs0 src dst names fs → apart dst src → fs !! (src ++ p) = fs0 !! (src ++ p).
Proof. intros Hc Ha. apply (cp_frame _ _ _ _ _ Hc). by apply apart_below. Qed.

(** One more entry: its part of the destination is filled, the rest kept. *)
Lemma copying_entry fs0 src dst names fs fs' n :
  copying fs0 src dst names fs → n ∉ names → fs_wf fs' →
  (∀ p, ¬ (dst ++ [n]) `prefix_of` p → fs' !! p = fs !! p) →
  (∀ rel, fs' !! (dst ++ n :: rel) = fs0 !! (src ++ n :: rel) ≫= copied) →
  copying fs0 src dst (n :: names) fs'.
Proof.
  intros [H1 H2 H3 H4 H5 H6] Hn Hwf Hframe Hnew.
  assert (¬ (dst ++ [n]) `prefix_of` dst) as Hd by (intros ?%prefix_length; rewrite length_app in *; simpl in *; lia).
  assert (∀ x rel, x ≠ n → fs' !! (dst ++ x :: rel) = fs !! (dst ++ x :: rel)) as Hother.
  { intros x rel Hx. apply Hframe. intros [k Hk]. rewrite <- app_assoc in Hk. simplify_list_eq. }
  split; [done|unfold is_dir; by rewrite Hframe|by rewrite Hframe|..].
  - intros p Hp. rewrite Hframe; [by apply H4|]. intros Hpre. apply Hp. etrans; [|exact Hpre]. by apply prefix_app_r.
  - intros x rel [->|Hx]%elem_of_cons; [done|]. rewrite Hother by (by intros ->). by apply H5.
  - intros x rel Hx. apply not_elem_of_cons in Hx as [Hne Hx]. rewrite Hother by done. by apply H6.
Qed.

Lemma copies_frame (fs fs' : FS) src dst n :
  copies fs fs' (src ++ [n]) (dst ++ [n]) → ∀ rel, fs' !! (dst ++ n :: rel) = fs !! (src ++ n :: rel) ≫= copied.
Proof. intros (_ & _ & Hc) rel. specialize (Hc rel). by rewrite <- !app_assoc in Hc. Qed.

(** Nothing is below a node that is not a directory. *)
Lemma nothing_below fs src n node x rel :
  fs_wf fs → fs !! (src ++ [n]) = Some node → (∀ m, node ≠ NDir m) → fs !! (src ++ n :: x :: rel) = None.
Proof.
  intros Hwf Hn Hnd. change (src ++ n :: x :: rel) with (src ++ [n] ++ (x :: rel)). rewrite app_assoc.
  apply wf_below; [done..|]. intros [k Hk]. rewrite Hn in Hk. injection Hk as ->. by eapply Hnd.
Qed.

Lemma copying_link fs0 src dst names fs n target :
  copying fs0 src dst names fs → fs_wf fs0 → n ∉ names → fs0 !! (src ++ [n]) = Some (NLink target) →
  copying fs0 src dst (n :: names) fs.
Proof.
  intros Hc Hwf0 Hn Hl. apply (copying_entry _ _ _ names fs); [done..|apply Hc|done|].
  intros rel. rewrite (cp_rest _ _ _ _ _ Hc) by done. destruct rel as [|x rel]; [by rewrite Hl|].
  by rewrite (nothing_below _ _ _ _ _ _ Hwf0 Hl).
Qed.

Lemma wf_insert_file fs p n m text : fs_wf fs → is_dir fs p → fs !! (p ++ [n]) = None →
  fs_wf (<[p ++ [n] := NFile m text]> fs).
Proof.
  intros Hwf [k Hk] Hfree q x y Hy. destruct (decide (p ++ [n] = q ++ [x])) as [Heq|Hne].
  - apply app_inj_tail in Heq as [<- <-]. exists k. rewrite lookup_insert_ne; [done|].
    intros Heq%(f_equal length). rewrite length_app in Heq. simpl in Heq. lia.
  - rewrite lookup_insert_ne in Hy by done. destruct (Hwf _ _ _ Hy) as [k' Hk']. exists k'.
    rewrite lookup_insert_ne; [done|]. intros <-. congruence.
Qed.

Lemma copying_file fs0 src dst names fs n m text :
  copying fs0 src dst names fs → fs_wf fs0 → n ∉ names → fs0 !! (src ++ [n]) = Some (NFile m text) →
  copying fs0 src dst (n :: names) (<[dst ++ [n] := NFile m text]> fs).
Proof.
  intros Hc Hwf0 Hn Hf. apply (copying_entry _ _ _ names fs); [done..| | |].
  - apply wf_insert_file; [apply Hc|apply Hc|by apply (cp_rest _ _ _ _ _ Hc n [])].
  - intros p Hp. apply lookup_insert_ne. intros <-. by apply Hp.
  - intros [|x rel]; [by rewrite lookup_insert_eq, Hf|].
    rewrite lookup_insert_ne by (intros Heq%(f_equal length); rewrite !length_app in Heq; simpl in Heq; lia).
    rewrite (cp_rest _ _ _ _ _ Hc) by done. by rewrite (nothing_below _ _ _ _ _ _ Hwf0 Hf).
Qed.

Section copying.
Context (io : nat → option error).

(** What the loop asks of the copying of directories. *)
Definition dir_copier (copy_dir : fpath → fpath → FSM unit) (src dst : fpath) : Prop :=
  ∀ n s s', fs_wf (sys_fs s) → is_dir (sys_fs s) dst → apart (dst ++ [n]) (src ++ [n]) →
    copy_dir (src ++ [n]) (dst ++ [n]) s = (s', inl ()) → copies (sys_fs s) (sys_fs s') (src ++ [n]) (dst ++ [n]).

Lemma copy_entry_ok copy_dir src dst fs0 n node names s s' :
  dir_copier copy_dir src dst → apart dst src → fs_wf fs0 → copying fs0 src dst names (sys_fs s) →
  n ∉ names → fs0 !! (src ++ [n]) = Some node →
  copy_entry io copy_dir src dst n node s = (s', inl ()) → copying fs0 src dst (n :: names) (sys_fs s').
Proof.
  intros Hdir Ha Hwf0 Hc Hnew Hnode Hone. destruct node as [m text|m|target]; cbn [copy_entry] in Hone.
  - apply CopyFile_ok in Hone as (m' & text' & Hsrc & ->).
    + rewrite (copying_src _ _ _ _ _ _ Hc Ha), Hnode in Hsrc. injection Hsrc as <- <-. by apply copying_file.
    + intros [-> _]%app_inj_tail. by destruct Ha.
    + by apply (cp_rest _ _ _ _ _ Hc n []).
  - apply Hdir in Hone; [|apply Hc|apply Hc|by apply apart_snoc].
    apply (copying_entry _ _ _ names (sys_fs s)); [done..|apply Hone|apply Hone|].
    intros rel. rewrite (copies_frame _ _ _ _ _ Hone). by rewrite (copying_src _ _ _ _ _ _ Hc Ha).
  - injection Hone as <-. by eapply copying_link.
Qed.

(** The entries to be copied are those of the source that have not been yet. *)
Definition entries_left (fs0 : FS) (src : fpath) (names : list string) (es : list (string * Node)) : Prop :=
  NoDup es.*1 ∧ ∀ n node, (n, node) ∈ es → n ∉ names ∧ fs0 !! (src ++ [n]) = Some node.

Lemma entries_left_next fs0 src names n node es :
  entries_left fs0 src names ((n, node) :: es) →
  n ∉ names ∧ fs0 !! (src ++ [n]) = Some node ∧ entries_left fs0 src (n :: names) es.
Proof.
  intros [Hnd Hes]. cbn [fmap list_fmap fst] in Hnd. apply NoDup_cons in Hnd as [Hn Hnd].
  destruct (Hes n node) as [Hnew Hnode]; [by left|]. split_and!; [done..|]. split; [done|].
  intros x y Hx. destruct (Hes x y) as [? ?]; [by right|]. split; [|done]. apply not_elem_of_cons. split; [|done].
  intros ->. apply Hn. by eapply (list_elem_of_fmap_2' fst).
Qed.

Lemma copy_entries_ok copy_dir src dst fs0 es names s s' :
  dir_copier copy_dir src dst → apart dst src → fs_wf fs0 → copying fs0 src dst names (sys_fs s) →
  entries_left fs0 src names es → copy_entries io copy_dir src dst es s = (s', inl ()) →
  copying fs0 src dst (rev es.*1 ++ names) (sys_fs s').
Proof.
  intros Hdir Ha Hwf0. revert names s. induction es as [|[n node] es IH]; intros names s Hc Hes; cbn [copy_entries].
  { intros [= <-]. done. }
  intros Hrun. apply bind_ok in Hrun as (s1 & [] & Hone & Hrun).
  apply entries_left_next in Hes as (Hnew & Hnode & Hes).
  assert (copying fs0 src dst (n :: names) (sys_fs s1)) as Hc1 by (by eapply copy_entry_ok).
  cbn [fmap list_fmap rev fst]. rewrite <- app_assoc. by apply (IH (n :: names) s1).
Qed.

Lemma entries_left_all fs src : entries_left fs src [] (entries fs src).
Proof. split; [apply dir_entries_NoDup|]. intros n node Hn%dir_entries_elem. split; [set_solver|done]. Qed.

(** The state in which the loop starts. *)
Lemma copying_start fs src parent d mode :
  fs_wf fs → is_dir fs parent → fs !! (parent ++ [d]) = None →
  copying (<[parent ++ [d] := NDir mode]> fs) src (parent ++ [d]) [] (<[parent ++ [d] := NDir mode]> fs).
Proof.
  intros Hwf [k Hk] Hd. split; [|exists mode; by rewrite lookup_insert_eq|done|done|set_solver|].
  - intros q x y Hy. destruct (decide (parent ++ [d] = q ++ [x])) as [Heq|Hne].
    + apply app_inj_tail in Heq as [<- <-]. exists k. rewrite lookup_insert_ne; [done|].
      intros Heq%(f_equal length). rewrite length_app in Heq. simpl in Heq. lia.
    + rewrite lookup_insert_ne in Hy by done. destruct (Hwf _ _ _ Hy) as [k' Hk'].
      destruct (decide (parent ++ [d] = q)) as [<-|]; [exists mode; apply lookup_insert_eq|].
      exists k'. by rewrite lookup_insert_ne.
  - intros n rel _. rewrite lookup_insert_ne by (intros Heq%(f_equal length); rewrite !length_app in Heq; simpl in Heq; lia).
    apply wf_below; [done..|]. intros [k' Hk']. congruence.
Qed.

Lemma CopyDir_ok fuel src parent d s s' :
  fs_wf (sys_fs s) → is_dir (sys_fs s) parent → apart (parent ++ [d]) src →
  CopyDir io fuel src (parent ++ [d]) s = (s', inl ()) → copies (sys_fs s) (sys_fs s') src (parent ++ [d]).
Proof.
  revert src parent d s s'. induction fuel as [|fuel IH]; intros src parent d s s' Hwf Hp Ha; cbn [CopyDir]; [done|].
  intros Hrun. apply bind_ok in Hrun as (s1 & si & [Hs1 ->]%Stat_ok & Hrun).
  destruct (sys_fs s !! src) as [[| mode |]|] eqn:Hsrc; try done.
  apply bind_ok in Hrun as (s2 & d' & [Hs2 ->]%Stat_ok & Hrun). rewrite Hs1 in *.
  destruct (sys_fs s !! (parent ++ [d])) eqn:Hd; [done|].
  apply bind_ok in Hrun as (s3 & [] & Hmk & Hrun).
  apply MkdirAll_ok in Hmk; [|by rewrite Hs2..]. rewrite Hs2 in Hmk.
  apply bind_ok in Hrun as (s4 & es & Hrd%syscall_ok & Hrun).
  assert (parent ++ [d] ≠ src) as Hne by (intros <-; by destruct Ha).
  rewrite Hmk, lookup_insert_ne, Hsrc in Hrd by done. injection Hrd as Hs4 <-. rewrite <- Hmk in *.
  pose proof (copying_start (sys_fs s) src parent d mode Hwf Hp Hd) as Hstart. rewrite <- Hmk in Hstart.
  assert (fs_wf (sys_fs s3)) as Hwf3 by apply Hstart.
  assert (copying (sys_fs s3) src (parent ++ [d]) (rev (entries (sys_fs s3) src).*1 ++ []) (sys_fs s')) as Hend.
  { refine (copy_entries_ok _ _ _ _ _ [] s4 s' _ Ha Hwf3 _ (entries_left_all _ _) Hrun).
    - intros n t t' Htwf Htd Hta. by apply IH.
    - by rewrite <- Hs4. }
  rewrite app_nil_r in Hend. destruct Hend as [H1 H2 H3 H4 H5 H6]. split; [done|]. split.
  - intros p Hpre. rewrite H4 by done. rewrite Hmk. apply lookup_insert_ne. by intros <-.
  - intros [|n rel].
    + rewrite !app_nil_r, H3, Hsrc, Hmk. apply lookup_insert_eq.
    + assert (sys_fs s3 !! (src ++ n :: rel) = sys_fs s !! (src ++ n :: rel)) as Heq.
      { rewrite Hmk. apply lookup_insert_ne. intros Heq. apply (apart_below _ _ (n :: rel) Ha).
        rewrite <- Heq. reflexivity. }
      rewrite <- Heq. destruct (decide (n ∈ rev (entries (sys_fs s3) src).*1)) as [Hin|Hin]; [by apply H5|].
      rewrite H6 by done. destruct (sys_fs s3 !! (src ++ n :: rel)) as [node|] eqn:Hnode; [|done]. exfalso. apply Hin.
      rewrite list_elem_of_In, <- in_rev, <- list_elem_of_In.
      assert (∃ node', sys_fs s3 !! (src ++ [n]) = Some node') as [node' Hn'].
      { destruct rel as [|x rel]; [by eexists|]. change (src ++ n :: x :: rel) with (src ++ [n] ++ (x :: rel)) in Hnode.
        rewrite app_assoc in Hnode. destruct (wf_above _ (src ++ [n]) (x :: rel) node Hwf3 ltac:(done) Hnode) as [k Hk]. by eexists. }
      eapply (list_elem_of_fmap_2' fst); [by apply dir_entries_elem|done].
Qed.
End copying.

(** ** Copying succeeds *)
Section success.
Abbreviation no_io_errors := (λ _ : nat, @None error).

Ltac next_call := unfold mbind, FSM_bind, syscall; cbn [sys_fs sys_calls].

Lemma CopyFile_good src parent d s m text :
  src ≠ parent ++ [d] → is_dir (sys_fs s) parent → sys_fs s !! (parent ++ [d]) = None →
  sys_fs s !! src = Some (NFile m text) →
  ∃ s', CopyFile no_io_errors src (parent ++ [d]) s = (s', inl ()).
Proof.
  intros Hne [k Hk] Hd Hsrc. unfold CopyFile, Open. next_call. rewrite Hsrc. unfold os_Create. next_call.
  rewrite Hd, removelast_last, Hk. unfold closing, Write. next_call. rewrite lookup_insert_eq.
  unfold Flush, Stat. next_call. rewrite insert_insert_eq, lookup_insert_ne, Hsrc by done.
  unfold Chmod. next_call. rewrite lookup_insert_eq. by eexists.
Qed.

Lemma MkdirAll_good parent d mode s :
  fs_wf (sys_fs s) → is_dir (sys_fs s) parent → sys_fs s !! (parent ++ [d]) = None →
  ∃ s', MkdirAll no_io_errors (parent ++ [d]) mode s = (s', inl ()).
Proof.
  intros Hwf Hp Hn. unfold MkdirAll, syscall. rewrite mkdirs_new; [by eexists|by destruct parent|done|].
  intros q1 q2. by apply (dirs_above _ parent d).
Qed.
(** The depth of a directory is bounded by [fuel]. *)
Definition depth_below (fs : FS) (src : fpath) (fuel : nat) : Prop :=
  ∀ p, is_Some (fs !! (src ++ p)) → length p < fuel.

Lemma copy_entries_good copy_dir src dst fs0 es names s fuel :
  dir_copier copy_dir src dst →
  (∀ n s, fs_wf (sys_fs s) → is_dir (sys_fs s) dst → apart (dst ++ [n]) (src ++ [n]) → is_dir (sys_fs s) (src ++ [n]) →
     sys_fs s !! (dst ++ [n]) = None → depth_below (sys_fs s) (src ++ [n]) fuel →
     ∃ s', copy_dir (src ++ [n]) (dst ++ [n]) s = (s', inl ())) →
  apart dst src → fs_wf fs0 → depth_below fs0 src (S fuel) → copying fs0 src dst names (sys_fs s) →
  entries_left fs0 src names es → ∃ s', copy_entries no_io_errors copy_dir src dst es s = (s', inl ()).
Proof.
  intros Hdir Hgood Ha Hwf0 Hdepth. revert names s. induction es as [|[n node] es IH]; intros names s Hc Hes; cbn [copy_entries].
  { by eexists. }
  apply entries_left_next in Hes as (Hnew & Hnode & Hes).
  assert (sys_fs s !! (dst ++ [n]) = None) as Hfree by (by apply (cp_rest _ _ _ _ _ Hc n [])).
  assert (sys_fs s !! (src ++ [n]) = Some node) as Hsrc by (by rewrite (copying_src _ _ _ _ _ _ Hc Ha)).
  assert (∃ s1, copy_entry no_io_errors copy_dir src dst n node s = (s1, inl ())) as [s1 Hone].
  { destruct node as [m text|m|target]; cbn [copy_entry]; [| |by eexists].
    - apply (CopyFile_good _ _ _ _ m text); [|apply Hc|done|done]. intros [-> _]%app_inj_tail. by destruct Ha.
    - apply Hgood; [apply Hc|apply Hc|by apply apart_snoc|by exists m|done|].
      intros p. rewrite <- app_assoc, (copying_src _ _ _ _ _ _ Hc Ha). intros Hp%Hdepth. simpl in Hp. lia. }
  unfold mbind, FSM_bind. rewrite Hone. apply (IH (n :: names)); [|done]. by eapply copy_entry_ok.
Qed.

Lemma CopyDir_good fuel src parent d s :
  fs_wf (sys_fs s) → is_dir (sys_fs s) parent → apart (parent ++ [d]) src → is_dir (sys_fs s) src →
  sys_fs s !! (parent ++ [d]) = None → depth_below (sys_fs s) src fuel →
  ∃ s', CopyDir no_io_errors fuel src (parent ++ [d]) s = (s', inl ()).
Proof.
  revert src parent d s. induction fuel as [|fuel IH]; intros src parent d s Hwf Hp Ha [mode Hsrc] Hd Hdepth.
  { assert (length (@nil string) < 0) as Hlt; [|simpl in Hlt; lia]. apply Hdepth. rewrite app_nil_r, Hsrc. by eexists. }
  cbn [CopyDir]. unfold Stat. next_call. rewrite Hsrc. next_call. rewrite Hd.
  set (s2 := {| sys_fs := sys_fs s; sys_calls := _ |}).
  destruct (MkdirAll_good parent d mode s2) as [s3 Hmk]; [done..|]. rewrite Hmk.
  apply MkdirAll_ok in Hmk; [|done..]. cbn [sys_fs s2] in Hmk.
  pose proof (copying_start (sys_fs s) src parent d mode Hwf Hp Hd) as Hstart. rewrite <- Hmk in Hstart.
  assert (parent ++ [d] ≠ src) as Hne by (intros <-; by destruct Ha).
  unfold ReadDir. next_call. rewrite Hmk, lookup_insert_ne, Hsrc by done. rewrite <- Hmk.
  apply (copy_entries_good _ _ _ (sys_fs s3) _ [] _ fuel).
  - intros n t t' Htwf Htd Hta. by apply CopyDir_ok.
  - intros n t Htwf Htd Hta Hts Htf Htde. by apply IH.
  - done.
  - apply Hstart.
  - intros p Hps. apply Hdepth. revert Hps. rewrite Hmk, lookup_insert_ne; [done|].
    intros Heq. apply (apart_below _ _ p Ha). rewrite <- Heq. reflexivity.
  - done.
  - apply entries_left_all.
Qed.
End success.


(** ** Checking concrete file systems, and a witness *)

Definition wf_check (fs : FS) : bool :=
  forallb (λ kv : fpath * Node,
    match last kv.1 with
    | None => true
    | Some _ => match fs !! removelast kv.1 with Some (NDir _) => true | _ => false end
    end) (map_to_list fs).

Lemma wf_check_ok fs : wf_check fs = true → fs_wf fs.
Proof.
  unfold wf_check. rewrite forallb_forall. intros Hall p n node Hn.
  specialize (Hall (p ++ [n], node)). cbn [fst] in Hall. rewrite last_snoc, removelast_last in Hall.
  apply elem_of_map_to_list, list_elem_of_In in Hn. specialize (Hall Hn). repeat case_match; try done. by eexists.
Qed.

Definition depth_check (fs : FS) (n : nat) : bool :=
  forallb (λ kv : fpath * Node, length kv.1 <? n) (map_to_list fs).

Lemma depth_check_ok fs src n : depth_check fs n = true → depth_below fs src n.
Proof.
  unfold depth_check. rewrite forallb_forall. intros Hall p [node Hn].
  apply elem_of_map_to_list, list_elem_of_In in Hn. specialize (Hall _ Hn). cbn [fst] in Hall.
  apply Nat.ltb_lt in Hall. rewrite length_app in Hall. lia.
Qed.

Definition example_tree : FS :=
  list_to_map [([], NDir 493); (["src"], NDir 493); (["src"; "main.tf"], NFile 420 "resource");
               (["src"; "link"], NLink "main.tf"); (["src"; "templates"], NDir 448);
               (["src"; "templates"; "user_data"], NFile 384 "yaml")].

