(* ===== verification/Templating.v ===== *)
(** * Templating: the Terraform code of a cluster

    [src/pkg/terraform/templating.go] and [preparePlugins] of
    [src/pkg/terraform/terraform.go].  [GenerateCode] fills the directory
    Terraform is run in: the modules are copied from the assets, binaries and
    the archive of the Puppet code are put beside them, and [Generate] renders
    the templates, carrying on after errors.

    Paths are lists of elements ([FileTree]).  Parameters: parsing and
    executing a template (the text written, and an error), the assets, the
    archive, and the ZIP format.  The security group rules are computed once,
    before the templates of the modules that use them. *)

From S2P Require Import Prelude Types Net Utils Defaults Role Provider InstancePool Cluster ClusterSpec Firewall.
From S2P Require Import Terraform FileTree.

(** What a template is executed with. *)
Record TemplateData := {
  d_ClusterType : string;
  d_InstancePools : list Pool;
  d_ExistingVPC : bool;
  d_Roles : list Role;
  d_SocketPath : string;
  d_JenkinsCertificateARN : string;
  d_JenkinsInstall : bool;
  d_Module : string;
  d_WingHash : string;
  d_WingDevMode : bool;
  d_VaultInstancePool : option Pool;
  d_BastionInstancePool : option Pool;
  d_AmazonEBSEncrypted : bool;
  d_AWSSGRules : option (gmap string (list AWSSGRule));
}.

(** The things [Generate] makes, in order. *)
Inductive Job :=
| JRemoteState
| JPools (module : string)
| JTemplate (name target fileType module : string)
| JVariables.

#[global] Instance Job_eq_dec : EqDecision Job.
Proof. solve_decision. Defined.

Definition jobs (clusterType : string) : list Job :=
  [JRemoteState] ++
  map JPools ["state"; "bastion"; "tagging_control"; "network"; "network-existing-vpc"; "jenkins"; "vault"; "kubernetes"] ++
  map (λ m, JTemplate "wing_s3" ("modules/" +:+ m +:+ "/wing_s3") "tf" m) ["bastion"; "vault"; "jenkins"; "kubernetes"] ++
  concat (map (λ m,
    [JTemplate "puppet_s3" ("modules/" +:+ m +:+ "/puppet_s3") "tf" m;
     JTemplate "puppet_agent_user_data" ("modules/" +:+ m +:+ "/templates/puppet_agent_user_data") "yaml" m])
    ["vault"; "kubernetes"]) ++
  map (λ n, JTemplate n n "tf" "kubernetes") ["modules"; "inputs"; "outputs"; "providers"] ++
  [JTemplate "bastion_user_data" "modules/bastion/templates/bastion_user_data" "yaml" "bastion"] ++
  (if decide (clusterType = ClusterTypeClusterMulti) then []
   else [JTemplate "jenkins_elb" "modules/jenkins/jenkins_elb" "tf" "vault";
         JTemplate "vault_instances" "modules/vault/vault_instances" "tf" "vault"]) ++
  [JTemplate "bastion_user_data" "modules/bastion/templates/bastion_user_data" "yaml" "bastion";
   JTemplate "jenkins_user_data" "modules/jenkins/templates/jenkins_user_data" "yaml" "jenkins";
   JVariables].

(** The file of a job, relative to the directory of the code. *)
Definition job_file (j : Job) : string :=
  match j with
  | JRemoteState => "terraform_remote_state.tf"
  | JPools module => "modules/" +:+ module +:+ "/instance_pools.tf"
  | JTemplate _ target fileType _ => target +:+ "." +:+ fileType
  | JVariables => "terraform.tfvars"
  end.

Section generate.
Context `{MapRange} `{Env}.
Context (io : nat → option error).
Context (parse : fpath → option error) (execute : fpath → TemplateData → string * option error).

(** [terraformTemplate]: the cluster, the directories, the provider and what
    the templates are told about [wing] and the socket. *)
Record terraformTemplate := {
  t_cluster : ClusterT;
  t_destDir : fpath;
  t_rootPath : fpath;
  t_cloud : string;
  t_wingHash : string;
  t_wingDevMode : bool;
  t_socketPath : string;
  (** the network, the rules, the three sets of variables, and the remote state *)
  t_network : Network;
  t_rules : gmap string (list AWSSGRule);
  t_tarmakVars : gmap string tfvar;
  t_environmentVars : gmap string tfvar;
  t_clusterVars : gmap string tfvar;
  t_remoteState : string;
}.
Context (t : terraformTemplate).

Definition jenkins_pool : option Pool := InstancePool_ (t_cluster t) "jenkins".

Definition data (module : string) : TemplateData :=
  let c := t_cluster t in
  {| d_ClusterType := Type_ c;
     d_InstancePools := c_instancePools c;
     d_ExistingVPC := bool_decide (is_Some (Annotations (net_meta (t_network t)) !! ExistingVPCAnnotationKey));
     d_Roles := Roles c;
     d_SocketPath := t_socketPath t;
     d_JenkinsCertificateARN := default "" (jenkins_pool ≫= λ p,
       Annotations (ip_meta (p_conf p)) !! JenkinsCertificateARNAnnotationKey);
     d_JenkinsInstall := bool_decide (is_Some jenkins_pool);
     d_Module := module;
     d_WingHash := t_wingHash t;
     d_WingDevMode := t_wingDevMode t;
     d_VaultInstancePool := InstancePool_ c "vault";
     d_BastionInstancePool := InstancePool_ c "bastion";
     d_AmazonEBSEncrypted := AmazonEBSEncrypted c;
     d_AWSSGRules := None |}.

(** The data of the instance pool templates: with the rules, if there are pools. *)
Definition pools_data (module : string) : TemplateData :=
  let d := data module in
  {| d with d_AWSSGRules := if decide (c_instancePools (t_cluster t) = []) then None else Some (t_rules t) |}.

(** [filepath.Join(dir, f)] for a clean relative path. *)
Definition under (dir : fpath) (f : string) : fpath := dir ++ Split "/" f.

Definition template_file (f : string) : fpath :=
  under (t_rootPath t ++ ["terraform"; t_cloud t]) ("templates/" +:+ f).

Definition wrap_error {A} (f : error → error) (m : FSM A) : FSM A := λ s,
  match m s with (s', inr e) => (s', inr (f e)) | r => r end.

(** Rendering into a file: what was written before an error stays. *)
Definition render (file : fpath) (tmpl : fpath) (d : TemplateData) (failed : error → error) : FSM unit :=
  _ ← os_Create io file 420;
  let '(text, err) := execute tmpl d in
  _ ← wrap_error failed (Write io file text);
  match err with
  | Some e => fail (failed e)
  | None => mret ()
  end.

Definition parsed (name : string) (tmpl : fpath) : FSM unit :=
  match parse tmpl with
  | Some e => fail (Errorf ("failed to parse template '" +:+ name +:+ "': " +:+ error_string e))
  | None => mret ()
  end.

Definition generateTemplate (name target fileType module : string) : FSM unit :=
  let tmpl := template_file (name +:+ "." +:+ fileType +:+ ".template") in
  _ ← parsed name tmpl;
  render (under (t_destDir t) (target +:+ "." +:+ fileType)) tmpl (data module)
    (λ e, Errorf ("failed to execute template '" +:+ name +:+ "' (" +:+ error_string e +:+ ") ")).

Definition generateModuleInstanceTemplates (module : string) : FSM unit :=
  let tmpl := template_file "instance_pools/instance_pools.tf.template" in
  _ ← parsed "instance_pools" tmpl;
  render (under (t_destDir t) ("modules/" +:+ module +:+ "/instance_pools.tf")) tmpl (pools_data module)
    (λ e, Errorf ("failed to execute template 'instance_pools': " +:+ error_string e)).

(** Opening and writing a file. *)
Definition write_file (file : fpath) (mode : N) (text : string) : FSM unit :=
  _ ← os_Create io file mode;
  Write io file text.

Definition terraformVars : gmap string tfvar :=
  MergeMaps (t_tarmakVars t) [t_environmentVars t; t_clusterVars t].

Definition generateTerraformVariables : FSM unit :=
  match MapToTerraformTfvars terraformVars with
  | inr err => fail err
  | inl text => write_file (under (t_destDir t) "terraform.tfvars") 420 text
  end.

Definition generateRemoteStateConfig : FSM unit :=
  write_file (under (t_destDir t) "terraform_remote_state.tf") 420 (t_remoteState t).

Definition do_job (j : Job) : FSM unit :=
  match j with
  | JRemoteState => generateRemoteStateConfig
  | JPools module => generateModuleInstanceTemplates module
  | JTemplate name target fileType module => generateTemplate name target fileType module
  | JVariables => generateTerraformVariables
  end.

(** [if err := ...; err != nil { result = multierror.Append(result, err) }] *)
Definition attempt (m : FSM unit) (result : option error) : FSM (option error) := λ s,
  match m s with
  | (s', inl _) => (s', inl result)
  | (s', inr e) => (s', inl (AppendIf result (Some e)))
  end.

Fixpoint do_jobs (js : list Job) (result : option error) : FSM (option error) :=
  match js with
  | [] => mret result
  | j :: js' => result ← attempt (do_job j) result; do_jobs js' result
  end.

Definition Generate : FSM unit :=
  result ← do_jobs (jobs (Type_ (t_cluster t))) None;
  match result with
  | Some e => fail e
  | None => mret ()
  end.
End generate.

(** The whole code of a cluster. *)
Section code.
Context `{MapRange} `{Env}.
Context (io : nat → option error).
Context (parse : fpath → option error) (execute : fpath → TemplateData → string * option error).
Context (Asset : string → string + error) (sha256 zip : string → string) (TarGz : string + error).

Definition asset (name : string) : FSM string :=
  match Asset name with inl b => mret b | inr e => fail e end.

(** The binary of [wing], in development mode, and its hash. *)
Definition place_wing (code : fpath) (wingDevMode : bool) : FSM string :=
  if wingDevMode then
    bytes ← asset "wing_linux_amd64";
    _ ← write_file io (code ++ ["wing_linux_amd64"]) 493 bytes;
    mret (sha256 bytes)
  else mret "unknown".

Definition place_tagging_control (code : fpath) : FSM unit :=
  bytes ← asset "tagging_control_linux_amd64";
  write_file io (code ++ ["tagging_control.zip"]) 493 (zip bytes).

Definition place_puppet (code : fpath) : FSM unit :=
  let file := code ++ ["puppet.tar.gz"] in
  _ ← wrap_error (λ e, Errorf ("error creating " +:+ Join file "/" +:+ ": " +:+ error_string e)) (os_Create io file 384);
  wrap_error (λ e, Errorf ("error writing to " +:+ Join file "/" +:+ ": " +:+ error_string e))
    match TarGz with
    | inr e => fail e
    | inl archive => Write io file archive
    end.

(** [t] has everything but the hash of [wing]. *)
Definition GenerateCode (RootPath : fpath + error) (fuel : nat) (t : terraformTemplate) : FSM unit :=
  let code := t_destDir t in
  _ ← MkdirAll io code 448;
  _ ← Chmod io code 448;
  match RootPath with
  | inr e => fail e
  | inl root =>
      _ ← RemoveAll io (code ++ ["modules"]);
      _ ← CopyDir io fuel (root ++ ["terraform"; t_cloud t; "modules"]) (code ++ ["modules"]);
      wingHash ← place_wing code (t_wingDevMode t);
      _ ← place_tagging_control code;
      _ ← place_puppet code;
      Generate io parse execute {| t with t_wingHash := wingHash; t_rootPath := root |}
  end.

(** The template data that can only be computed from a valid cluster. *)
Definition new_template (c : ClusterT) (t : terraformTemplate) : GoM terraformTemplate :=
  network ← deref (cl_Network (c_conf c));
  rules ← (if decide (c_instancePools c = []) then Ret ∅ else generateAWSSecurityGroup (Roles c) ∅);
  Ret {| t with t_cluster := c; t_network := network; t_rules := rules |}.
End code.

(** ** Which files a program touches *)

(** Whatever its result, a program keeps the file system in order and changes
    only the nodes in [F]; directories stay directories. *)
Definition touches {A} (F : fpath → Prop) (m : FSM A) : Prop :=
  ∀ s s' r, m s = (s', r) → fs_wf (sys_fs s) →
    fs_wf (sys_fs s') ∧ (∀ p, ¬ F p → sys_fs s' !! p = sys_fs s !! p) ∧
    (∀ p, is_dir (sys_fs s) p → is_dir (sys_fs s') p).

Lemma touches_none {A} (F : fpath → Prop) (m : FSM A) : (∀ s, sys_fs (m s).1 = sys_fs s) → touches F m.
Proof. intros Hm s s' r Hs Hwf. specialize (Hm s). rewrite Hs in Hm. cbn in Hm. by rewrite Hm. Qed.

Lemma touches_ret {A} (F : fpath → Prop) (a : A) : touches F (mret a).
Proof. by apply touches_none. Qed.

Lemma touches_fail {A} (F : fpath → Prop) e : touches F (fail (A := A) e).
Proof. by apply touches_none. Qed.

Lemma touches_bind {A B} (F : fpath → Prop) (m : FSM A) (f : A → FSM B) :
  touches F m → (∀ a, touches F (f a)) → touches F (m ≫= f).
Proof.
  intros Hm Hf s s' r. unfold mbind, FSM_bind. destruct (m s) as [s1 [a|e]] eqn:E.
  - intros Hr Hwf. destruct (Hm _ _ _ E Hwf) as (Hwf1 & Hp1 & Hd1). destruct (Hf a _ _ _ Hr Hwf1) as (Hwf2 & Hp2 & Hd2).
    split_and!; [done| |by intros p ?%Hd1; apply Hd2]. intros p HF. by rewrite Hp2, Hp1.
  - intros [= <- <-]. by apply (Hm _ _ _ E).
Qed.

Lemma touches_mono {A} (F G : fpath → Prop) (m : FSM A) : (∀ p, F p → G p) → touches F m → touches G m.
Proof. intros HFG Hm s s' r Hs Hwf. destruct (Hm s s' r Hs Hwf) as (? & Hp & ?). split_and!; [done| |done]. auto. Qed.

Lemma touches_wrap {A} (F : fpath → Prop) f (m : FSM A) : touches F m → touches F (wrap_error f m).
Proof.
  intros Hm s s' r. unfold wrap_error. destruct (m s) as [s1 [a|e]] eqn:E; intros [= <- <-]; by apply (Hm _ _ _ E).
Qed.

Lemma touches_attempt (F : fpath → Prop) (m : FSM unit) result : touches F m → touches F (attempt m result).
Proof.
  intros Hm s s' r. unfold attempt. destruct (m s) as [s1 [a|e]] eqn:E; intros [= <- <-]; by apply (Hm _ _ _ E).
Qed.

(** A file put where there was a file, or nothing in a directory. *)
Lemma file_put (fs : FS) (p : fpath) (m : N) (text : string) :
  fs_wf fs → (∃ m' t', fs !! p = Some (NFile m' t')) ∨ (fs !! p = None ∧ is_dir fs (removelast p) ∧ p ≠ []) →
  fs_wf (<[p := NFile m text]> fs) ∧ (∀ q, is_dir fs q → is_dir (<[p := NFile m text]> fs) q).
Proof.
  intros Hwf Hp. assert (¬ is_dir fs p) as Hnd by (intros [k Hk]; destruct Hp as [(? & ? & ?)|[? _]]; congruence).
  assert (∀ q, is_dir fs q → is_dir (<[p := NFile m text]> fs) q) as Hd.
  { intros q [k Hk]. exists k. rewrite lookup_insert_ne; [done|]. intros <-. by apply Hnd; exists k. }
  split; [|done]. intros q n node Hn. apply Hd. destruct (decide (p = q ++ [n])) as [->|Hne].
  - destruct Hp as [(m' & t' & Hf)|(_ & Hdir & _)]; [by apply (Hwf _ _ _ Hf)|by rewrite removelast_last in Hdir].
  - rewrite lookup_insert_ne in Hn by done. by apply (Hwf _ _ _ Hn).
Qed.

Lemma touches_syscall {A} (io : nat → option error) (F : fpath → Prop) (f : FS → FS * (A + error)) :
  (∀ fs, fs_wf fs → let fs' := (f fs).1 in
     fs_wf fs' ∧ (∀ p, ¬ F p → fs' !! p = fs !! p) ∧ (∀ p, is_dir fs p → is_dir fs' p)) →
  touches F (syscall io f).
Proof.
  intros Hf s s' r. unfold syscall. destruct (io _); [intros [= <- <-]; done|].
  specialize (Hf (sys_fs s)). destruct (f (sys_fs s)) as [fs r']. by intros [= <- <-].
Qed.

Lemma touches_Create (io : nat → option error) (p : fpath) (mode : N) : p ≠ [] → touches (.= p) (os_Create io p mode).
Proof.
  intros Hne. apply touches_syscall. intros fs Hwf. cbn zeta.
  assert (∀ m text, (∃ m' t', fs !! p = Some (NFile m' t')) ∨ (fs !! p = None ∧ is_dir fs (removelast p) ∧ p ≠ []) →
    fs_wf (<[p := NFile m text]> fs) ∧ (∀ q, ¬ q = p → <[p := NFile m text]> fs !! q = fs !! q) ∧
    (∀ q, is_dir fs q → is_dir (<[p := NFile m text]> fs) q)) as Hput.
  { intros m text Hp. destruct (file_put fs p m text Hwf Hp). split_and!; [done| |done]. intros q Hq. by apply lookup_insert_ne. }
  destruct (fs !! p) as [[m t| |]|] eqn:Hp; cbn [fst]; [|done..|].
  - apply Hput. left. by eexists _, _.
  - destruct (fs !! removelast p) as [[| m |]|] eqn:Hd; cbn [fst]; [done| |done..].
    apply Hput. right. split_and!; [done|by exists m|done].
Qed.

Lemma touches_Write (io : nat → option error) (p : fpath) (text : string) : touches (.= p) (Write io p text).
Proof.
  apply touches_syscall. intros fs Hwf. cbn zeta. destruct (fs !! p) as [[m old| |]|] eqn:Hp; cbn [fst]; [|done..].
  destruct (file_put fs p m (old +:+ text) Hwf) as [? ?]; [left; by eexists _, _|]. split_and!; [done| |done].
  intros q Hq. by apply lookup_insert_ne.
Qed.

(** Creating and writing a file leaves exactly the text in it. *)
Lemma write_ok (io : nat → option error) (p : fpath) (mode : N) (text : string) s s1 s2 u v :
  os_Create io p mode s = (s1, inl u) → Write io p text s1 = (s2, inl v) → ∃ m, sys_fs s2 !! p = Some (NFile m text).
Proof.
  intros Hc%syscall_ok Hw%syscall_ok.
  assert (∃ m, sys_fs s1 !! p = Some (NFile m "")) as [m Hm].
  { clear Hw. repeat case_match; try done; injection Hc as <-; eexists; apply lookup_insert_eq. }
  rewrite Hm in Hw. injection Hw as <-. exists m. by rewrite lookup_insert_eq.
Qed.

Lemma wrap_ok {A} f (m : FSM A) s s' a : wrap_error f m s = (s', inl a) → m s = (s', inl a).
Proof. unfold wrap_error. by destruct (m s) as [s1 [b|e]]. Qed.

(** ** The jobs *)
Section jobs_lemmas.
Context `{MapRange} `{Env}.
Context (io : nat → option error).
Context (parse : fpath → option error) (execute : fpath → TemplateData → string * option error).
Context (t : terraformTemplate).

Definition job_path (j : Job) : fpath := under (t_destDir t) (job_file j).

(** The text of a template, if it can be rendered. *)
Definition rendered (tmpl : fpath) (d : TemplateData) : option string :=
  match parse tmpl, execute tmpl d with
  | None, (text, None) => Some text
  | _, _ => None
  end.

(** What a job is to put into its file. *)
Definition job_text (j : Job) : option string :=
  match j with
  | JRemoteState => Some (t_remoteState t)
  | JPools module => rendered (template_file t "instance_pools/instance_pools.tf.template") (pools_data t module)
  | JTemplate name _ fileType module =>
      rendered (template_file t (name +:+ "." +:+ fileType +:+ ".template")) (data t module)
  | JVariables => match MapToTerraformTfvars (terraformVars t) with inl text => Some text | inr _ => None end
  end.

Definition made (fs : FS) (j : Job) : Prop :=
  ∃ m text, job_text j = Some text ∧ fs !! job_path j = Some (NFile m text).

Lemma under_not_nil dir f : under dir f ≠ [].
Proof. unfold under. intros [_ Hn]%app_nil. by apply Split_not_nil in Hn. Qed.

Lemma under_inj dir f1 f2 : under dir f1 = under dir f2 → f1 = f2.
Proof.
  unfold under. intros Heq%app_inv_head. rewrite <- (Join_Split "/" f1), <- (Join_Split "/" f2). by rewrite Heq.
Qed.

Lemma touches_write_file p mode text : p ≠ [] → touches (.= p) (write_file io p mode text).
Proof.
  intros Hp. unfold write_file. apply touches_bind; [by apply touches_Create|]. intros _. apply touches_Write.
Qed.

Lemma write_file_ok p mode text s s' : write_file io p mode text s = (s', inl ()) →
  ∃ m, sys_fs s' !! p = Some (NFile m text).
Proof. intros (s1 & [] & Hc & Hw)%bind_ok. by eapply write_ok. Qed.

Lemma touches_render p tmpl d failed : p ≠ [] → touches (.= p) (render io execute p tmpl d failed).
Proof.
  intros Hp. unfold render. apply touches_bind; [by apply touches_Create|]. intros _. destruct (execute tmpl d) as [text err].
  apply touches_bind; [by apply touches_wrap, touches_Write|]. intros _. destruct err; [apply touches_fail|apply touches_ret].
Qed.

Lemma render_ok p tmpl d failed s s' : parse tmpl = None → render io execute p tmpl d failed s = (s', inl ()) →
  ∃ m text, rendered tmpl d = Some text ∧ sys_fs s' !! p = Some (NFile m text).
Proof.
  intros Hp (s1 & [] & Hc & Hr)%bind_ok. unfold rendered. rewrite Hp. destruct (execute tmpl d) as [text err].
  apply bind_ok in Hr as (s2 & [] & Hw%wrap_ok & Hr). destruct err; [done|]. injection Hr as <-.
  destruct (write_ok _ _ _ _ _ _ _ _ _ Hc Hw) as [m Hm]. by exists m, text.
Qed.

Lemma parsed_ok name tmpl s s' : parsed parse name tmpl s = (s', inl ()) → s' = s ∧ parse tmpl = None.
Proof. unfold parsed. destruct (parse tmpl); [done|]. by intros [= <-]. Qed.

Lemma touches_parsed F name tmpl : touches F (parsed parse name tmpl).
Proof. unfold parsed. destruct (parse tmpl); [apply touches_fail|apply touches_ret]. Qed.

Lemma touches_job j : touches (.= job_path j) (do_job io parse execute t j).
Proof.
  pose proof (under_not_nil (t_destDir t)) as Hne. destruct j as [|module|name target fileType module|]; cbn [do_job].
  - by apply touches_write_file.
  - unfold generateModuleInstanceTemplates. apply touches_bind; [apply touches_parsed|]. intros _. by apply touches_render.
  - unfold generateTemplate. apply touches_bind; [apply touches_parsed|]. intros _. by apply touches_render.
  - unfold generateTerraformVariables. destruct (MapToTerraformTfvars _); [by apply touches_write_file|apply touches_fail].
Qed.

Lemma job_ok j s s' : do_job io parse execute t j s = (s', inl ()) → made (sys_fs s') j.
Proof.
  unfold made. destruct j as [|module|name target fileType module|]; cbn [do_job job_text].
  - intros [m Hm]%write_file_ok. by exists m, (t_remoteState t).
  - intros (s1 & [] & [-> Hp]%parsed_ok & Hr)%bind_ok. by eapply render_ok.
  - intros (s1 & [] & [-> Hp]%parsed_ok & Hr)%bind_ok. by eapply render_ok.
  - unfold generateTerraformVariables. destruct (MapToTerraformTfvars _) as [text|]; [|done].
    intros [m Hm]%write_file_ok. by exists m, text.
Qed.

(** No file is made in two ways. *)
Definition files_differ (js : list Job) : bool :=
  forallb (λ x, forallb (λ y, bool_decide (job_file x = job_file y → x = y)) js) js.

Lemma files_differ_spec js j1 j2 :
  files_differ js = true → j1 ∈ js → j2 ∈ js → job_file j1 = job_file j2 → j1 = j2.
Proof.
  unfold files_differ. rewrite forallb_forall. intros Hall H1%list_elem_of_In H2%list_elem_of_In.
  specialize (Hall j1 H1). rewrite forallb_forall in Hall. specialize (Hall j2 H2).
  by apply bool_decide_eq_true in Hall.
Qed.

Lemma same_file_same_job ty j1 j2 : j1 ∈ jobs ty → j2 ∈ jobs ty → job_path j1 = job_path j2 → j1 = j2.
Proof.
  intros H1 H2 Heq%under_inj. apply (files_differ_spec (jobs ty)); [|done..].
  destruct (decide (ty = ClusterTypeClusterMulti)) as [->|Hne]; [vm_compute; reflexivity|].
  unfold jobs. rewrite decide_False by done. vm_compute. reflexivity.
Qed.

Lemma touches_do_jobs js result :
  touches (λ p, ∃ j, j ∈ js ∧ p = job_path j) (do_jobs io parse execute t js result).
Proof.
  revert result. induction js as [|j js IH]; intros result; cbn [do_jobs]; [apply touches_ret|]. apply touches_bind.
  - apply touches_attempt. eapply touches_mono; [|apply (touches_job j)]. intros p ->. exists j. split; [by left|done].
  - intros r. eapply touches_mono; [|apply IH]. intros p (j' & ? & ->). exists j'. split; [by right|done].
Qed.

Lemma do_jobs_ok ty js result s s' :
  (∀ j, j ∈ js → j ∈ jobs ty) → fs_wf (sys_fs s) → do_jobs io parse execute t js result s = (s', inl None) →
  result = None ∧ ∀ j, j ∈ js → made (sys_fs s') j.
Proof.
  revert result s. induction js as [|j js IH]; intros result s Hjs Hwf; cbn [do_jobs].
  { intros [= _ ->]. split; [done|]. intros j Hj. by apply elem_of_nil in Hj. }
  intros (s1 & r & Ha & Hr)%bind_ok. assert (touches (.= job_path j) (attempt (do_job io parse execute t j) result)) as Ht.
  { apply touches_attempt, touches_job. }
  destruct (Ht _ _ _ Ha Hwf) as (Hwf1 & _ & _).
  destruct (IH r s1) as [-> Hmade]; [intros x Hx; apply Hjs; by right|done..|].
  unfold attempt in Ha. destruct (do_job io parse execute t j s) as [s2 [[]|e]] eqn:Hj.
  2:{ injection Ha as _ Ha. by unfold Append in Ha. }
  injection Ha as -> ->. split; [done|]. intros x [->|Hx]%elem_of_cons; [|by apply Hmade].
  destruct (decide (j ∈ js)) as [Hin|Hin]; [by apply Hmade|].
  destruct (job_ok _ _ _ Hj) as (m & text & Htext & Hfile). exists m, text. split; [done|].
  destruct (touches_do_jobs js None _ _ _ Hr Hwf1) as (_ & Hframe & _). rewrite Hframe; [done|].
  intros (j' & Hj' & Heq). apply Hin.
  assert (j = j') as ->; [|done]. apply (same_file_same_job ty); [apply Hjs; by left|apply Hjs; by right|done].
Qed.

Lemma touches_Generate : touches (λ p, ∃ j, j ∈ jobs (Type_ (t_cluster t)) ∧ p = job_path j) (Generate io parse execute t).
Proof.
  unfold Generate. apply touches_bind; [apply touches_do_jobs|]. intros [e|]; [apply touches_fail|apply touches_ret].
Qed.

Lemma Generate_ok s s' : fs_wf (sys_fs s) → Generate io parse execute t s = (s', inl ()) →
  ∀ j, j ∈ jobs (Type_ (t_cluster t)) → made (sys_fs s') j.
Proof.
  intros Hwf (s1 & r & Hd & Hr)%bind_ok. destruct r; [done|]. injection Hr as <-.
  by apply (do_jobs_ok (Type_ (t_cluster t)) _ None s s1) in Hd as [_ ?].
Qed.
End jobs_lemmas.

(** ** The directories *)

Lemma mkdirs_ok mode before todo (fs fs' : FS) :
  fs_wf fs → is_dir fs before → mkdirs mode before todo fs = inl fs' →
  fs_wf fs' ∧ is_dir fs' (before ++ todo) ∧ (∀ p, ¬ p `prefix_of` before ++ todo → fs' !! p = fs !! p).
Proof.
  revert before fs. induction todo as [|n todo IH]; intros before fs Hwf Hb; cbn [mkdirs].
  { intros [= <-]. by rewrite app_nil_r. }
  assert (before ++ n :: todo = (before ++ [n]) ++ todo) as Happ by (by rewrite <- app_assoc).
  destruct (fs !! (before ++ [n])) as [[| m |]|] eqn:Hn; [done| |done|].
  - rewrite Happ. apply IH; [done|by exists m].
  - intros Hmk. destruct Hb as [k Hk]. destruct (IH (before ++ [n]) (<[before ++ [n] := NDir mode]> fs)) as (Hwf' & Hd & Hframe).
    + apply (copying_start fs [] before n mode); [done|by exists k|done].
    + exists mode. apply lookup_insert_eq.
    + done.
    + rewrite Happ. split_and!; [done..|]. intros p Hp. rewrite Hframe by done. apply lookup_insert_ne.
      intros <-. apply Hp. by apply prefix_app_r.
Qed.

Lemma MkdirAll_spec io p mode s s' :
  fs_wf (sys_fs s) → is_dir (sys_fs s) [] → MkdirAll io p mode s = (s', inl ()) →
  fs_wf (sys_fs s') ∧ is_dir (sys_fs s') p ∧ (∀ q, ¬ q `prefix_of` p → sys_fs s' !! q = sys_fs s !! q).
Proof.
  intros Hwf Hroot Hs%syscall_ok. destruct (mkdirs mode [] p (sys_fs s)) as [fs'|] eqn:Hmk; [|done].
  injection Hs as <-. by apply mkdirs_ok in Hmk.
Qed.

Lemma Chmod_dir io p mode s s' :
  fs_wf (sys_fs s) → is_dir (sys_fs s) p → Chmod io p mode s = (s', inl ()) →
  fs_wf (sys_fs s') ∧ sys_fs s' = <[p := NDir mode]> (sys_fs s).
Proof.
  intros Hwf [k Hk] Hs%syscall_ok. rewrite Hk in Hs. injection Hs as <-. split; [|done].
  intros q n node Hn. assert (is_dir (sys_fs s) q) as [k' Hk'].
  { destruct (decide (p = q ++ [n])) as [->|Hne]; [by apply (Hwf _ _ _ Hk)|].
    rewrite lookup_insert_ne in Hn by done. by apply (Hwf _ _ _ Hn). }
  destruct (decide (p = q)) as [->|Hne]; [exists mode; apply lookup_insert_eq|]. exists k'. by rewrite lookup_insert_ne.
Qed.

Lemma RemoveAll_ok io p s s' :
  fs_wf (sys_fs s) → RemoveAll io p s = (s', inl ()) →
  fs_wf (sys_fs s') ∧ (∀ q, p `prefix_of` q → sys_fs s' !! q = None) ∧
  (∀ q, ¬ p `prefix_of` q → sys_fs s' !! q = sys_fs s !! q).
Proof.
  intros Hwf Hs%syscall_ok. injection Hs as <-.
  set (fs' := filter (λ kv : fpath * Node, ¬ p `prefix_of` kv.1) (sys_fs s)).
  assert (∀ q, p `prefix_of` q → fs' !! q = None) as Hnone.
  { intros q Hq. apply map_lookup_filter_None. right. intros x _ Hn. by apply Hn. }
  assert (∀ q, ¬ p `prefix_of` q → fs' !! q = sys_fs s !! q) as Hsame.
  { intros q Hq. apply option_eq. intros x. unfold fs'. rewrite map_lookup_filter_Some. cbn. tauto. }
  split_and!; [|done..]. intros q n node Hn. destruct (decide (p `prefix_of` q ++ [n])) as [Hp|Hp].
  { by rewrite Hnone in Hn. }
  rewrite Hsame in Hn by done. destruct (Hwf _ _ _ Hn) as [k Hk]. exists k. rewrite Hsame; [done|].
  intros Hq. apply Hp. by apply prefix_app_r.
Qed.

(** ** The binaries and the archive *)
Section places.
Context (io : nat → option error) (Asset : string → string + error) (sha256 zip : string → string).
Context (TarGz : string + error).

Lemma snoc_not_nil {A} (l : list A) x : l ++ [x] ≠ [].
Proof. by destruct l. Qed.

Lemma touches_asset F name : touches F (asset Asset name).
Proof. unfold asset. destruct (Asset name); [apply touches_ret|apply touches_fail]. Qed.

Lemma touches_place_wing code dev : touches (.= code ++ ["wing_linux_amd64"]) (place_wing io Asset sha256 code dev).
Proof.
  unfold place_wing. destruct dev; [|apply touches_ret]. apply touches_bind; [apply touches_asset|]. intros bytes.
  apply touches_bind; [apply touches_write_file, snoc_not_nil|]. intros _. apply touches_ret.
Qed.

Lemma touches_place_tagging code :
  touches (.= code ++ ["tagging_control.zip"]) (place_tagging_control io Asset zip code).
Proof.
  unfold place_tagging_control. apply touches_bind; [apply touches_asset|]. intros bytes.
  apply touches_write_file, snoc_not_nil.
Qed.

Lemma touches_place_puppet code : touches (.= code ++ ["puppet.tar.gz"]) (place_puppet io TarGz code).
Proof.
  unfold place_puppet. apply touches_bind; [apply touches_wrap, touches_Create, snoc_not_nil|]. intros _.
  apply touches_wrap. destruct TarGz; [apply touches_Write|apply touches_fail].
Qed.

Lemma place_puppet_ok code s s' : place_puppet io TarGz code s = (s', inl ()) →
  ∃ m archive, TarGz = inl archive ∧ sys_fs s' !! (code ++ ["puppet.tar.gz"]) = Some (NFile m archive).
Proof.
  intros (s1 & [] & Hc%wrap_ok & Hw%wrap_ok)%bind_ok. destruct TarGz as [archive|]; [|done].
  destruct (write_ok _ _ _ _ _ _ _ _ _ Hc Hw) as [m Hm]. by exists m, archive.
Qed.

Lemma place_tagging_ok code s s' : place_tagging_control io Asset zip code s = (s', inl ()) →
  ∃ m bytes, Asset "tagging_control_linux_amd64" = inl bytes ∧
    sys_fs s' !! (code ++ ["tagging_control.zip"]) = Some (NFile m (zip bytes)).
Proof.
  intros (s1 & bytes & Ha & [m Hm]%write_file_ok)%bind_ok. exists m, bytes. split; [|done].
  unfold asset in Ha. by destruct (Asset _); injection Ha as _ ->.
Qed.
End places.

(** ** The code of a cluster *)
Section code_lemmas.
Context `{MapRange} `{Env}.
Context (io : nat → option error).
Context (parse : fpath → option error) (execute : fpath → TemplateData → string * option error).
Context (Asset : string → string + error) (sha256 zip : string → string) (TarGz : string + error).

(** The files beside the templates. *)
Definition placed : list string := ["wing_linux_amd64"; "tagging_control.zip"; "puppet.tar.gz"].

Lemma jobs_not_placed ty j n : j ∈ jobs ty → n ∈ placed → Split "/" (job_file j) ≠ [n].
Proof.
  intros Hj Hn Heq.
  assert (forallb (λ j, negb (bool_decide (Split "/" (job_file j) ∈ map (λ n, [n]) placed))) (jobs ty) = true) as Hall.
  { unfold jobs. case_decide; vm_compute; reflexivity. }
  rewrite forallb_forall in Hall. specialize (Hall j (proj1 (list_elem_of_In _ _) Hj)).
  apply negb_true_iff, bool_decide_eq_false in Hall. apply Hall. rewrite Heq.
  apply list_elem_of_fmap. by exists n.
Qed.

(** The second half: the binaries, the archive and the templates. *)
Definition finish_code (root : fpath) (t : terraformTemplate) : FSM unit :=
  wingHash ← place_wing io Asset sha256 (t_destDir t) (t_wingDevMode t);
  _ ← place_tagging_control io Asset zip (t_destDir t);
  _ ← place_puppet io TarGz (t_destDir t);
  Generate io parse execute {| t with t_wingHash := wingHash; t_rootPath := root |}.

Definition code_target (t : terraformTemplate) (p : fpath) : Prop :=
  (∃ n, n ∈ placed ∧ p = t_destDir t ++ [n]) ∨ (∃ j, j ∈ jobs (Type_ (t_cluster t)) ∧ p = job_path t j).

Lemma touches_finish root t : touches (code_target t) (finish_code root t).
Proof.
  unfold finish_code, code_target, placed.
  apply touches_bind; [eapply touches_mono; [|apply touches_place_wing]; intros p ->; left; eexists; split; [|done]; set_solver|].
  intros hash.
  apply touches_bind; [eapply touches_mono; [|apply touches_place_tagging]; intros p ->; left; eexists; split; [|done]; set_solver|].
  intros _.
  apply touches_bind; [eapply touches_mono; [|apply touches_place_puppet]; intros p ->; left; eexists; split; [|done]; set_solver|].
  intros _. eapply touches_mono; [|apply touches_Generate]. intros p Hp. right. exact Hp.
Qed.

(** Everything is in place after it. *)
Record finished (root : fpath) (t : terraformTemplate) (fs : FS) : Prop := {
  fi_templates : ∃ hash, ∀ j, j ∈ jobs (Type_ (t_cluster t)) →
    made parse execute {| t with t_wingHash := hash; t_rootPath := root |} fs j;
  fi_tagging : ∃ m bytes, Asset "tagging_control_linux_amd64" = inl bytes ∧
    fs !! (t_destDir t ++ ["tagging_control.zip"]) = Some (NFile m (zip bytes));
  fi_puppet : ∃ m archive, TarGz = inl archive ∧ fs !! (t_destDir t ++ ["puppet.tar.gz"]) = Some (NFile m archive);
}.

Lemma finish_ok root t s s' : fs_wf (sys_fs s) → finish_code root t s = (s', inl ()) → finished root t (sys_fs s').
Proof.
  intros Hwf (s1 & hash & Hw & Hr)%bind_ok. destruct (touches_place_wing _ _ _ _ _ _ _ _ Hw Hwf) as (Hwf1 & _ & _).
  apply bind_ok in Hr as (s2 & [] & Ht & Hr). destruct (touches_place_tagging _ _ _ _ _ _ _ Ht Hwf1) as (Hwf2 & _ & _).
  apply bind_ok in Hr as (s3 & [] & Hp & Hr). destruct (touches_place_puppet _ _ _ _ _ _ Hp Hwf2) as (Hwf3 & Hf3 & _).
  set (t' := {| t with t_wingHash := hash; t_rootPath := root |}) in Hr.
  destruct (touches_Generate io parse execute t' _ _ _ Hr Hwf3) as (_ & Hf4 & _).
  assert (∀ n, n ∈ placed → sys_fs s' !! (t_destDir t ++ [n]) = sys_fs s3 !! (t_destDir t ++ [n])) as Hkeep.
  { intros n Hn. apply Hf4. intros (j & Hj & Heq%app_inv_head). by apply (jobs_not_placed (Type_ (t_cluster t)) j n). }
  split.
  - exists hash. by apply (Generate_ok io parse execute t' s3).
  - destruct (place_tagging_ok _ _ _ _ _ _ Ht) as (m & bytes & Ha & Hfile). exists m, bytes. split; [done|].
    rewrite Hkeep by set_solver. rewrite Hf3; [done|]. by intros [=]%app_inv_head.
  - destruct (place_puppet_ok _ _ _ _ _ Hp) as (m & archive & Ha & Hfile). exists m, archive. split; [done|].
    by rewrite Hkeep by set_solver.
Qed.

Lemma code_target_below t p : code_target t p → t_destDir t `prefix_of` p ∧ p ≠ t_destDir t.
Proof.
  assert (∀ q, q ≠ [] → t_destDir t `prefix_of` t_destDir t ++ q ∧ t_destDir t ++ q ≠ t_destDir t) as Hq.
  { intros q Hne. split; [by apply prefix_app_r|]. intros Heq%(f_equal length). rewrite length_app in Heq.
    destruct q; [done|simpl in Heq; lia]. }
  intros [(n & _ & ->)|(j & _ & ->)]; apply Hq; [done|apply Split_not_nil].
Qed.

(** C17: the Terraform code of a cluster.  When [GenerateCode] returns no
    error, every template of the cluster's type is rendered into its file,
    with the data of its module and, for the instance pools, the security
    group rules; the variables, the tagging function and the archive of the
    Puppet code are in place; the modules are those of the assets and nothing
    left from earlier runs, the rendered files apart; the directory is
    readable by its owner only; and nothing outside of it has changed. *)
Theorem GenerateCode_correct root fuel t s s' :
  let code := t_destDir t in
  let source := root ++ ["terraform"; t_cloud t; "modules"] in
  fs_wf (sys_fs s) → is_dir (sys_fs s) [] → apart code source →
  GenerateCode io parse execute Asset sha256 zip TarGz (inl root) fuel t s = (s', inl ()) →
  finished root t (sys_fs s') ∧
  (∀ rel, ¬ code_target t (code ++ "modules" :: rel) →
     sys_fs s' !! (code ++ "modules" :: rel) = sys_fs s !! (source ++ rel) ≫= copied) ∧
  sys_fs s' !! code = Some (NDir 448) ∧
  (∀ p, ¬ code `prefix_of` p → ¬ p `prefix_of` code → sys_fs s' !! p = sys_fs s !! p).
Proof.
  intros code source Hwf Hroot Ha (s1 & [] & Hmk & Hr)%bind_ok. fold code in Hmk, Hr.
  destruct (MkdirAll_spec _ _ _ _ _ Hwf Hroot Hmk) as (Hwf1 & Hd1 & Hf1).
  apply bind_ok in Hr as (s2 & [] & Hch & Hr). destruct (Chmod_dir _ _ _ _ _ Hwf1 Hd1 Hch) as [Hwf2 Hs2].
  apply bind_ok in Hr as (s3 & [] & Hrm & Hr). destruct (RemoveAll_ok _ _ _ _ Hwf2 Hrm) as (Hwf3 & Hnone & Hf3).
  apply bind_ok in Hr as (s4 & [] & Hcp & Hr). fold source in Hcp.
  assert (∀ p, p ≠ code → ¬ p `prefix_of` code → ¬ (code ++ ["modules"]) `prefix_of` p → sys_fs s3 !! p = sys_fs s !! p) as Hf.
  { intros p H1 H2 H3. rewrite Hf3, Hs2, lookup_insert_ne by done. by apply Hf1. }
  assert (¬ (code ++ ["modules"]) `prefix_of` code) as Hlong.
  { intros Hp%prefix_length. rewrite length_app in Hp. simpl in Hp. lia. }
  assert (apart (code ++ ["modules"]) source) as Ham.
  { split; intros Hp; [apply (proj1 Ha); etrans; [|exact Hp]; by apply prefix_app_r|].
    apply (apart_below source code ["modules"]); [|done]. destruct Ha. by split. }
  assert (sys_fs s3 !! code = Some (NDir 448)) as Hcode by (by rewrite Hf3, Hs2, lookup_insert_eq by done).
  apply CopyDir_ok in Hcp as (Hwf4 & Hf4 & Hcopy); [|done|by eexists|done].
  destruct (touches_finish root t _ _ _ Hr Hwf4) as (_ & Hf5 & _).
  split_and!; [by apply (finish_ok root t s4)|..].
  - intros rel Hrel. rewrite Hf5 by done. specialize (Hcopy rel). rewrite <- app_assoc in Hcopy. cbn [app] in Hcopy. rewrite Hcopy.
    f_equal. apply Hf.
    + intros Heq. apply (proj2 Ha). exists rel. done.
    + intros Hp. apply (proj2 Ha). etrans; [|exact Hp]. by apply prefix_app_r.
    + by apply apart_below.
  - rewrite Hf5, Hf4; [done..|]. by intros [_ []]%code_target_below.
  - intros p Hp1 Hp2. rewrite Hf5, Hf4; [apply Hf| |].
    + intros ->. by apply Hp1.
    + done.
    + intros Hp. apply Hp1. etrans; [|exact Hp]. by apply prefix_app_r.
    + intros Hp. apply Hp1. etrans; [|exact Hp]. by apply prefix_app_r.
    + by intros [? _]%code_target_below.
Qed.
End code_lemmas.

(** ** Witness: a cluster without pools, and modules with the directories the
    templates need *)

Definition example_root : FS :=
  let m := ["assets"; "terraform"; "amazon"; "modules"] in
  list_to_map (map (λ d, (d, NDir 493))
    ([[]; ["assets"]; ["assets"; "terraform"]; ["assets"; "terraform"; "amazon"]; m;
      ["home"]; ["home"; "terraform"]; ["home"; "terraform"; "modules"]; ["home"; "terraform"; "modules"; "old"]] ++
     map (λ n, m ++ [n]) ["state"; "bastion"; "tagging_control"; "network"; "network-existing-vpc"; "jenkins"; "vault"; "kubernetes"] ++
     map (λ n, m ++ [n; "templates"]) ["bastion"; "jenkins"; "vault"; "kubernetes"])).

Definition example_template (c : ClusterT) : terraformTemplate :=
  {| t_cluster := c; t_destDir := ["home"; "terraform"]; t_rootPath := []; t_cloud := "amazon"; t_wingHash := "";
     t_wingDevMode := true; t_socketPath := "tarmak.sock"; t_network := Network_zero; t_rules := ∅;
     t_tarmakVars := ∅; t_environmentVars := ∅; t_clusterVars := ∅; t_remoteState := "terraform {}" |}.

Definition example_code_cluster : ClusterT := new_cluster (SetObjectDefaults_Cluster 1 (NewCluster "cluster")).

Abbreviation example_generate := (GenerateCode (H := range_list) (H0 := example_env 1) (λ _, None) (λ _, None)
  (λ _ d, (d_Module d, None)) (λ _, inl "bytes") (λ b, b) (λ b, b) (inl "archive") (inl ["assets"]) 5
  (example_template example_code_cluster) {| sys_fs := example_root; sys_calls := 0 |}).

Lemma GenerateCode_correct_witness :
  ∃ s', example_generate = (s', inl ()) ∧
    (∃ m, sys_fs s' !! ["home"; "terraform"; "puppet.tar.gz"] = Some (NFile m "archive")) ∧
    sys_fs s' !! ["home"; "terraform"; "modules"; "old"] = None.
Proof.
  assert (match example_generate with (_, inl _) => true | _ => false end = true) as Hok by (vm_compute; reflexivity).
  destruct example_generate as [s' [[]|e]] eqn:E; [|discriminate Hok]. exists s'. split; [done|].
  apply GenerateCode_correct in E as ([_ _ (m & archive & [= <-] & Hp)] & Hm & _).
  - split; [by exists m|]. refine (eq_trans (Hm ["old"] _) _); [|reflexivity].
    intros [(n & _ & [=])|(j & Hj & Heq)].
    set (ty := Type_ _) in Hj. clearbody ty.
    assert (forallb (λ j, negb (bool_decide (Split "/" (job_file j) = ["modules"; "old"])))
      (jobs ty) = true) as Hall
      by (unfold jobs; case_decide; vm_compute; reflexivity).
    rewrite forallb_forall in Hall. specialize (Hall j (proj1 (list_elem_of_In _ _) Hj)).
    apply negb_true_iff, bool_decide_eq_false in Hall. apply Hall.
    by apply (app_inv_head ["home"; "terraform"]).
  - apply wf_check_ok. vm_compute. reflexivity.
  - by exists 493%N.
  - split; intros [k Hk]; done.
Defined.
