(* ===== verification/Plugins.v ===== *)
(** * Plugins: the providers Terraform is given

    [preparePlugins] of [src/pkg/terraform/terraform.go], [InternalPlugin] of
    [src/pkg/terraform/passthrough.go] and the start of the program under
    another name, [Execute] of [src/cmd/tarmak/cmd/root.go].  Terraform finds
    links to the program itself in its directory of plugins; started through
    one of them, the program serves the provider the link is named after.

    The providers are a Go map: the order of the links is any permutation. *)

From S2P Require Import Prelude Types Net Utils Paths FileTree Templating.

Definition InternalProviders : list string := ["aws"; "random"; "tls"; "tarmak"; "awstag"; "template"].

Definition plugin_file (name : string) : string := "terraform-provider-" +:+ name.

Section plugins.
Context (io : nat → option error).

Definition Lstat (p : fpath) : FSM (option Node) := Stat io p.

Definition Readlink (p : fpath) : FSM string := syscall io (λ fs,
  match fs !! p with Some (NLink target) => (fs, inl target) | _ => (fs, inr not_exist) end).

(** [os.Remove] of a file or link; directories do not occur. *)
Definition os_Remove (p : fpath) : FSM unit := syscall io (λ fs,
  match fs !! p with
  | Some (NDir _) => (fs, inr (Errorf "directory not empty"))
  | Some _ => (delete p fs, inl ())
  | None => (fs, inr not_exist)
  end).

Definition Symlink (target : string) (p : fpath) : FSM unit := syscall io (λ fs,
  match fs !! p, fs !! removelast p with
  | None, Some (NDir _) => (<[p := NLink target]> fs, inl ())
  | None, _ => (fs, inr not_exist)
  | Some _, _ => (fs, inr (Errorf "file exists"))
  end).

(** One round of the loop. *)
Definition link_plugin (binaryPath : string) (destPath : fpath) : FSM unit :=
  stat ← Lstat destPath;
  match stat with
  | None => Symlink binaryPath destPath
  | Some (NLink _) =>
      linkPath ← Readlink destPath;
      if decide (linkPath = binaryPath) then mret ()
      else
        _ ← os_Remove destPath;
        Symlink binaryPath destPath
  | Some _ => fail (Errorf (Join destPath "/" +:+ " is not a symbolic link"))
  end.

Fixpoint link_plugins (binaryPath : string) (pluginPath : fpath) (names : list string) : FSM unit :=
  match names with
  | [] => mret ()
  | n :: names' => _ ← link_plugin binaryPath (pluginPath ++ [plugin_file n]); link_plugins binaryPath pluginPath names'
  end.

Definition preparePlugins (Executable : string + error) (names : list string) (pluginPath : fpath) : FSM unit :=
  match Executable with
  | inr err => fail (Errorf ("error finding tarmak executable: " +:+ error_string err))
  | inl binaryPath =>
      _ ← MkdirAll io pluginPath 493;
      link_plugins binaryPath pluginPath names
  end.
End plugins.

(** What the process serves, if anything, and its exit code; [other] is
    Terraform's own command. *)
Definition InternalPlugin (other : list string → Z) (args : list string) : option string * Z :=
  match args with
  | [pluginType; pluginName] =>
      if decide (pluginType = "provider") then
        if decide (pluginName ∈ InternalProviders) then (Some pluginName, 0%Z) else (None, 1%Z)
      else (None, other args)
  | _ => (None, 1%Z)
  end.

(** [Execute] as far as it becomes a provider. *)
Definition Execute_plugin (other : list string → Z) (arg0 : string) : option (option string * Z) :=
  let prefix := "terraform-provider-" in
  let basename := path_Base arg0 in
  if HasPrefix basename prefix && (String.length prefix <? String.length basename) then
    let providerName := String.substring (String.length prefix) (String.length basename) basename in
    if decide (providerName ∈ InternalProviders) then Some (InternalPlugin other ["provider"; providerName]) else None
  else None.

(** ** What the links are *)

(** Nothing, or a link that may be replaced. *)
Definition replaceable (fs : FS) (p : fpath) : Prop := ∀ node, fs !! p = Some node → ∃ target, node = NLink target.

Lemma syscall_any {A} io (f : FS → FS * (A + error)) s s' r :
  syscall io f s = (s', r) → sys_fs s' = sys_fs s ∨ f (sys_fs s) = (sys_fs s', r).
Proof.
  unfold syscall. destruct (io _); [intros [= <- _]; by left|]. destruct (f (sys_fs s)) as [fs r']. intros [= <- <-]. by right.
Qed.

Lemma Symlink_any io target p s s' r : Symlink io target p s = (s', r) →
  (sys_fs s' = sys_fs s ∧ r ≠ inl ()) ∨ (sys_fs s !! p = None ∧ is_dir (sys_fs s) (removelast p) ∧ sys_fs s' = <[p := NLink target]> (sys_fs s)).
Proof.
  intros Hs. assert (Hs' := Hs). apply syscall_any in Hs as [Heq|Heq].
  - destruct r as [[]|]; [|by left]. apply syscall_ok in Hs'. right.
    repeat case_match; simplify_eq; split_and!; [done|by eexists|congruence].
  - repeat case_match; simplify_eq; [by left..|right; split_and!; [done|by eexists|done]| |]; by left.
Qed.

Lemma Stat_any io p s s' r : Stat io p s = (s', r) → sys_fs s' = sys_fs s.
Proof. intros [Heq|Heq]%syscall_any; [done|]. by injection Heq. Qed.

Lemma Readlink_any io p s s' r : Readlink io p s = (s', r) →
  sys_fs s' = sys_fs s ∧ ∀ l, r = inl l → sys_fs s !! p = Some (NLink l).
Proof.
  intros Hs. split.
  - apply syscall_any in Hs as [Heq|Heq]; [done|]. by repeat case_match; simplify_eq.
  - intros l ->. apply syscall_ok in Hs. by repeat case_match; simplify_eq.
Qed.

Lemma os_Remove_any io p s s' r : os_Remove io p s = (s', r) →
  sys_fs s' = sys_fs s ∨ sys_fs s' = delete p (sys_fs s).
Proof. intros [Heq|Heq]%syscall_any; [by left|]. repeat case_match; simplify_eq; auto. Qed.

(** A program that leaves everything but [p] alone, and [p] too unless it is
    missing or a link. *)
Definition links_only (p : fpath) (fs fs' : FS) : Prop :=
  (∀ q, q ≠ p → fs' !! q = fs !! q) ∧
  (∀ node, fs !! p = Some node → (∀ target, node ≠ NLink target) → fs' !! p = Some node).

Lemma links_only_change p fs fs' : replaceable fs p → (∀ q, q ≠ p → fs' !! q = fs !! q) → links_only p fs fs'.
Proof. intros Hr Hq. split; [done|]. intros node Hn Hl. destruct (Hr node Hn) as [t ->]. by destruct (Hl t). Qed.

Lemma link_plugin_any io binary p s s' r : link_plugin io binary p s = (s', r) →
  links_only p (sys_fs s) (sys_fs s') ∧
  (r = inl () → replaceable (sys_fs s) p ∧ sys_fs s' = <[p := NLink binary]> (sys_fs s)).
Proof.
  unfold link_plugin, mbind, FSM_bind, Lstat. destruct (Stat io p s) as [s1 [stat|e]] eqn:H1.
  2: { intros [= <- <-]. by rewrite (Stat_any _ _ _ _ _ H1). }
  apply Stat_ok in H1 as [H1 ->]. rewrite <- !H1.
  destruct (sys_fs s1 !! p) as [[m t|m|target]|] eqn:Hp; [by intros [= <- <-]..| |].
  - assert (replaceable (sys_fs s1) p) as Hrep by (intros node; rewrite Hp; intros [= <-]; by eexists).
    destruct (Readlink io p s1) as [s2 rl] eqn:H2. apply Readlink_any in H2 as [H2 Hl]. rewrite <- !H2 in *.
    destruct rl as [l|e]; [|by intros [= <- <-]]. specialize (Hl l eq_refl). case_decide as Hb.
    { intros [= <- <-]. split; [done|]. intros _. split; [done|]. symmetry. apply insert_id. by rewrite Hl, Hb. }
    destruct (os_Remove io p s2) as [s3 rr] eqn:H3. assert (H3' := H3). apply os_Remove_any in H3.
    assert (∀ q, q ≠ p → sys_fs s3 !! q = sys_fs s2 !! q) as Hq.
    { intros q Hne. destruct H3 as [->| ->]; [done|]. by rewrite lookup_delete_ne. }
    destruct rr as [[]|e]; [|intros [= <- <-]; split; [by apply links_only_change|done]].
    intros Hs%Symlink_any. destruct Hs as [[-> Hr]|(Hnone & _ & ->)].
    + split; [by apply links_only_change|]. by intros ->.
    + split; [apply links_only_change; [done|]; intros q Hne; rewrite lookup_insert_ne by done; by apply Hq|].
      intros _. split; [done|]. destruct H3 as [->| ->]; [done|]. by rewrite insert_delete_eq.
  - assert (replaceable (sys_fs s1) p) as Hrep by (intros node; by rewrite Hp).
    intros Hs%Symlink_any. destruct Hs as [[-> Hr]|(_ & _ & ->)].
    + split; [done|]. by intros ->.
    + split; [|done]. apply links_only_change; [done|]. intros q Hne. by rewrite lookup_insert_ne.
Qed.

Definition keeps_nodes (fs fs' : FS) : Prop :=
  ∀ p node, fs !! p = Some node → (∀ target, node ≠ NLink target) → fs' !! p = Some node.

Lemma links_only_keeps p fs fs' : links_only p fs fs' → keeps_nodes fs fs'.
Proof. intros [Hq Hp] q node Hn Hl. destruct (decide (q = p)) as [->|]; [by apply Hp|]. by rewrite Hq. Qed.

Lemma keeps_dir fs fs' p : keeps_nodes fs fs' → is_dir fs p → is_dir fs' p.
Proof. intros Hk [m Hm]. exists m. by apply Hk. Qed.

Lemma plugin_file_inj n n' : plugin_file n = plugin_file n' → n = n'.
Proof. by intros [= ?]. Qed.

Lemma link_plugins_any io binary path names s s' r :
  link_plugins io binary path names s = (s', r) →
  keeps_nodes (sys_fs s) (sys_fs s') ∧
  (∀ q, (∀ n, n ∈ names → q ≠ path ++ [plugin_file n]) → sys_fs s' !! q = sys_fs s !! q) ∧
  (r = inl () → ∀ n, n ∈ names → sys_fs s' !! (path ++ [plugin_file n]) = Some (NLink binary)).
Proof.
  revert s. induction names as [|n names IH]; intros s; cbn [link_plugins].
  { intros [= <- <-]. split_and!; [by intros ?|done|set_solver]. }
  unfold mbind, FSM_bind. destruct (link_plugin io binary _ s) as [s1 [[]|e]] eqn:H1.
  2: { intros [= <- <-]. apply link_plugin_any in H1 as [Hl _]. split_and!; [by eapply links_only_keeps| |done].
       intros q Hq. apply Hl. by apply Hq; left. }
  apply link_plugin_any in H1 as [Hl Hok]. destruct (Hok eq_refl) as [_ Hs1].
  intros (Hk & Hf & Hall)%IH. split_and!.
  - intros p node Hn Hne. apply Hk; [|done]. by apply (links_only_keeps _ _ _ Hl).
  - intros q Hq. rewrite Hf; [apply Hl, Hq; by left|]. intros m Hm. apply Hq. by right.
  - intros Hr m [->|Hm]%elem_of_cons; [|by apply Hall]. destruct (decide (n ∈ names)); [by apply Hall|].
    rewrite Hf, Hs1; [by rewrite lookup_insert_eq|]. intros m Hm Heq%app_inv_head. assert (n = m) as -> by (apply plugin_file_inj; congruence). done.
Qed.

Lemma mkdirs_keeps mode before todo (fs fs' : FS) :
  mkdirs mode before todo fs = inl fs' → ∀ p node, fs !! p = Some node → fs' !! p = Some node.
Proof.
  revert before fs. induction todo as [|n todo IH]; intros before fs; cbn [mkdirs]; [by intros [= ->]|].
  destruct (fs !! (before ++ [n])) as [[| |]|] eqn:Hn; [done|apply IH|done|].
  intros Hm p node Hp. apply (IH _ _ Hm). rewrite lookup_insert_ne; [done|]. intros <-. congruence.
Qed.

Lemma mkdirs_exist mode before todo (fs : FS) :
  (∀ q, q `prefix_of` todo → q ≠ [] → is_dir fs (before ++ q)) → mkdirs mode before todo fs = inl fs.
Proof.
  revert before. induction todo as [|n todo IH]; intros before Hd; cbn [mkdirs]; [done|].
  destruct (Hd [n]) as [m ->]; [by apply prefix_cons, prefix_nil|done|].
  apply IH. intros q Hq Hne. rewrite <- app_assoc. apply Hd; [by apply prefix_cons|done].
Qed.

Lemma MkdirAll_failed io path mode s s' e : MkdirAll io path mode s = (s', inr e) → sys_fs s' = sys_fs s.
Proof. intros [Heq|Heq]%syscall_any; [done|]. destruct (mkdirs _ _ _ _); congruence. Qed.

Lemma dirs_on_path fs path q : fs_wf fs → is_dir fs path → q `prefix_of` path → is_dir fs q.
Proof.
  intros Hwf [m Hm] [k ->]. destruct (decide (k = [])) as [->|Hk]; [rewrite app_nil_r in Hm; by exists m|].
  by apply (wf_above fs q k (NDir m)).
Qed.

(** Links that are right are left alone. *)
Lemma link_plugins_again binary path names s :
  (∀ n, n ∈ names → sys_fs s !! (path ++ [plugin_file n]) = Some (NLink binary)) →
  ∃ s', link_plugins (λ _, None) binary path names s = (s', inl ()) ∧ sys_fs s' = sys_fs s.
Proof.
  revert s. induction names as [|n names IH]; intros s Hn; cbn [link_plugins]; [by eexists|].
  unfold link_plugin, Lstat, Stat, Readlink, mbind, FSM_bind, syscall. cbn [sys_fs sys_calls].
  rewrite !Hn by (by left). cbn [sys_fs sys_calls]. rewrite decide_True by done. cbn.
  match goal with |- ∃ _, link_plugins _ _ _ _ ?t = _ ∧ _ => destruct (IH t) as (s' & Hs' & Heq) end.
  - intros m Hm. apply Hn. by right.
  - by exists s'.
Qed.

(** Links can be made where nothing or a link is. *)
Lemma link_plugin_good binary path n s :
  is_dir (sys_fs s) path → replaceable (sys_fs s) (path ++ [n]) →
  ∃ s', link_plugin (λ _, None) binary (path ++ [n]) s = (s', inl ()).
Proof.
  intros [m Hd] Hr. assert (path ≠ path ++ [n]) as Hne by (intros Heq%(f_equal length); rewrite length_app in Heq; simpl in Heq; lia).
  unfold link_plugin, Lstat, Stat, Readlink, os_Remove, Symlink, mbind, FSM_bind, syscall. cbn [sys_fs sys_calls].
  destruct (sys_fs s !! (path ++ [n])) as [node|] eqn:Hn.
  - destruct (Hr node Hn) as [t ->]. cbn [sys_fs sys_calls]. rewrite Hn. cbn. case_decide; [by eexists|]. cbn. rewrite Hn. cbn.
    rewrite lookup_delete_eq, removelast_last, lookup_delete_ne, Hd by done. by eexists.
  - cbn [sys_fs sys_calls]. rewrite Hn, removelast_last, Hd. by eexists.
Qed.

Lemma link_plugins_good binary path names s :
  is_dir (sys_fs s) path → (∀ n, n ∈ names → replaceable (sys_fs s) (path ++ [plugin_file n])) →
  ∃ s', link_plugins (λ _, None) binary path names s = (s', inl ()).
Proof.
  revert s. induction names as [|n names IH]; intros s Hd Hr; cbn [link_plugins]; [by eexists|].
  destruct (link_plugin_good binary path (plugin_file n) s Hd) as [s1 H1]; [apply Hr; by left|].
  unfold mbind, FSM_bind. rewrite H1. apply link_plugin_any in H1 as [Hl Hok]. destruct (Hok eq_refl) as [_ Hs1].
  apply IH; [eapply keeps_dir; [by eapply links_only_keeps|done]|].
  intros m Hm node. rewrite Hs1. destruct (decide (m = n)) as [->|Hne].
  - rewrite lookup_insert_eq. intros [= <-]. by eexists.
  - rewrite lookup_insert_ne; [apply Hr; by right|].
    intros Heq%app_inv_head. apply Hne, plugin_file_inj. congruence.
Qed.

Lemma plugin_file_plain n : n ∈ InternalProviders → plain (plugin_file n).
Proof.
  intros Hn. unfold InternalProviders in Hn. rewrite !elem_of_cons, elem_of_nil in Hn.
  destruct Hn as [->|[->|[->|[->|[->|[->|[]]]]]]]; by apply plain_const.
Qed.

(** The program started through a link serves the provider it is named after. *)
Lemma Execute_link other dir n : n ∈ InternalProviders →
  Execute_plugin other (dir +:+ String "/" (plugin_file n)) = Some (Some n, 0%Z).
Proof.
  intros Hn. unfold Execute_plugin. rewrite path_Base_plain by (by apply plugin_file_plain).
  unfold InternalProviders in Hn. rewrite !elem_of_cons, elem_of_nil in Hn.
  destruct Hn as [->|[->|[->|[->|[->|[->|[]]]]]]]; reflexivity.
Qed.

(** The plugins of Terraform.  Whatever fails and in whatever order the
    providers come, only missing files and links are replaced and nothing
    besides the links and the directories on the way to them changes.  After a
    success each provider has a link to the program, and the program started
    through it serves that provider; another run changes nothing.  It does
    succeed when the directory exists, nothing but links is in the way and no
    system call fails. *)
Theorem preparePlugins_correct binary names path s :
  names ≡ₚ InternalProviders → fs_wf (sys_fs s) → is_dir (sys_fs s) [] →
  (∀ io s' r, preparePlugins io (inl binary) names path s = (s', r) →
     keeps_nodes (sys_fs s) (sys_fs s') ∧
     (∀ p, ¬ p `prefix_of` path → (∀ n, n ∈ InternalProviders → p ≠ path ++ [plugin_file n]) →
        sys_fs s' !! p = sys_fs s !! p) ∧
     (r = inl () →
        (∀ n, n ∈ InternalProviders → sys_fs s' !! (path ++ [plugin_file n]) = Some (NLink binary) ∧
           ∀ other, Execute_plugin other (Join path "/" +:+ String "/" (plugin_file n)) = Some (Some n, 0%Z)) ∧
        ∀ names', names' ≡ₚ InternalProviders →
          ∃ s'', preparePlugins (λ _, None) (inl binary) names' path s' = (s'', inl ()) ∧ sys_fs s'' = sys_fs s')) ∧
  (is_dir (sys_fs s) path → (∀ n, n ∈ InternalProviders → replaceable (sys_fs s) (path ++ [plugin_file n])) →
   ∃ s', preparePlugins (λ _, None) (inl binary) names path s = (s', inl ())).
Proof.
  intros Hnames Hwf Hroot. split.
  - intros io s' r. unfold preparePlugins, mbind, FSM_bind. destruct (MkdirAll io path 493 s) as [s1 [[]|e]] eqn:Hmk.
    2: { intros [= <- <-]. apply MkdirAll_failed in Hmk as ->. by split_and!; [intros p node Hp _; exact Hp|..]. }
    destruct (MkdirAll_spec _ _ _ _ _ Hwf Hroot Hmk) as (Hwf1 & Hd1 & Hf1). apply syscall_ok in Hmk.
    destruct (mkdirs 493 [] path (sys_fs s)) as [fs1|] eqn:Hm; [|done]. injection Hmk as ->.
    intros (Hk & Hf & Hall)%link_plugins_any. split_and!.
    + intros p node Hp Hne. apply Hk; [|done]. by apply (mkdirs_keeps _ _ _ _ _ Hm).
    + intros p Hp Hn. rewrite Hf; [by apply Hf1|]. intros n. rewrite Hnames. apply Hn.
    + intros Hr. split.
      * intros n Hn. split; [apply Hall; [done|by rewrite Hnames]|]. intros other. by apply Execute_link.
      * intros names' Hn'. unfold MkdirAll, syscall. rewrite mkdirs_exist.
        -- destruct (link_plugins_again binary path names' {| sys_fs := sys_fs s'; sys_calls := S (sys_calls s') |}) as (s2 & H2 & Heq).
           { intros n Hn. apply Hall; [done|]. by rewrite Hnames, <- Hn'. }
           by exists s2.
        -- intros q Hq _. eapply keeps_dir; [exact Hk|]. by apply (dirs_on_path _ path).
  - intros Hd Hr. unfold preparePlugins, mbind, FSM_bind, MkdirAll, syscall. rewrite mkdirs_exist.
    + apply link_plugins_good; [done|]. intros n. rewrite Hnames. apply Hr.
    + intros q Hq _. by apply (dirs_on_path _ path).
Qed.

Definition example_plugins : FS :=
  list_to_map [([], NDir 493); (["plugins"], NDir 493); (["plugins"; "terraform-provider-aws"], NLink "/old/tarmak")].

Lemma preparePlugins_correct_witness :
  ∃ s', preparePlugins (λ _, None) (inl "/usr/bin/tarmak") InternalProviders ["plugins"]
          {| sys_fs := example_plugins; sys_calls := 0 |} = (s', inl ()) ∧
    sys_fs s' !! ["plugins"; "terraform-provider-aws"] = Some (NLink "/usr/bin/tarmak").
Proof.
  destruct (preparePlugins_correct "/usr/bin/tarmak" InternalProviders ["plugins"] {| sys_fs := example_plugins; sys_calls := 0 |})
    as [Hany Hgood]; [done|apply wf_check_ok; vm_compute; reflexivity|by exists 493%N|].
  destruct Hgood as [s' Hs'].
  - by exists 493%N.
  - intros n Hn node. cbn [sys_fs]. intros Hp. unfold InternalProviders in Hn. rewrite !elem_of_cons, elem_of_nil in Hn.
    destruct Hn as [->|[->|[->|[->|[->|[->|[]]]]]]]; vm_compute in Hp; simplify_eq; by eexists.
  - exists s'. split; [done|]. destruct (Hany _ _ _ Hs') as (_ & _ & Hok). apply (proj1 (Hok eq_refl) "aws"). by left.
Defined.
