(* ===== verification/Cli.v ===== *)
(** * Cli: the command line

    [Execute] of [src/cmd/tarmak/cmd/root.go], which becomes a provider of
    Terraform ([Plugins]) or runs a command; the commands [set-current], [list]
    and [tunnel] ([cluster_set-current.go], [cluster_list.go], [tunnel.go]) and
    [ListParameters] of [src/pkg/tarmak/utils/list.go].

    Which command some arguments are for is what Cobra answers, an argument
    here.  A table is the list of its rows, without the spaces that align
    its columns. *)

From Stdlib Require Import Floats.SpecFloat.
From S2P Require Import Prelude Types Defaults Net Utils Role Provider InstancePool Config Cluster ClusterSpec.
From S2P Require Import Environment Paths Plugins.

(** ** Execute *)

(** The process of a plugin ends with a code, once the provider it serves is no
    longer used. *)
Inductive Executed := ExecPlugin (served : option string * Z) | ExecFails (err : error) | ExecRun (args : list string).

Definition clusterKubectlCmd_Use : string := "kubectl [kubectl command arguments]".
Definition clusterSshCmd_Use : string := "ssh [instance alias] [optional ssh arguments]".

(** The name whose arguments are passed on. *)
Definition passed_on (use : string) : option string :=
  if decide (use = clusterKubectlCmd_Use) then Some "kubectl"
  else if decide (use = clusterSshCmd_Use) then Some "ssh" else None.

Definition insert_dashes (name : string) (args : list string) : list string :=
  let i := IndexOfString args name in
  if (i =? -1)%Z then args else take (S (Z.to_nat i)) args ++ "--" :: drop (S (Z.to_nat i)) args.

(** [traverse] is the usage line of the command Cobra finds, [other] the exit
    code of Terraform's own command for plugins. *)
Definition cmd_Execute (other : list string → Z) (argv0 : string) (traverse : string + error) (args : list string) : Executed :=
  match Execute_plugin other argv0 with
  | Some served => ExecPlugin served
  | None =>
      match traverse with
      | inr err => ExecFails err
      | inl use => ExecRun match passed_on use with Some name => insert_dashes name args | None => args end
      end
  end.

(** ** Tables *)
Definition ToUpper_byte (c : ascii) : ascii :=
  let n := nat_of_ascii c in
  if (97 <=? n) && (n <=? 122) then ascii_of_nat (n - 32) else c.

(** [strings.ToUpper] on ASCII. *)
Definition ToUpper (s : string) : string := string_of (ToUpper_byte <$> bytes_of s).

Section tables.
Context `{MapRange}.

(** The keys of a map that are not listed yet, in the order of the map. *)
Definition add_keys (keys : list string) (varMap : gmap string string) : list string :=
  foldl (λ keys kv, if decide (kv.1 ∈ keys) then keys else keys ++ [kv.1]) keys (range varMap).

Definition all_keys (keys : list string) (varMaps : list (gmap string string)) : list string := foldl add_keys keys varMaps.

Definition cell (varMap : gmap string string) (key : string) : string :=
  match varMap !! key with Some val => val +:+ " " | None => "" end.

(** The header and the rows. *)
Definition ListParameters (keys : list string) (varMaps : list (gmap string string)) : list (list string) :=
  let keys := all_keys keys varMaps in
  map ToUpper keys :: map (λ varMap, map (cell varMap) keys) varMaps.
End tables.

(** ** Commands on clusters *)
Definition cluster_name (e : EnvT) (c : ClusterT) : string := e_Name e +:+ "-" +:+ c_Name c.

Definition cluster_names (envs : list EnvT) : list string := envs ≫= λ e, map (cluster_name e) (e_clusters e).

Section commands.
Context {bytes : Type} (Encode : Config → bytes + error) (io_error : nat → option error).

(** [set-current]: the configuration and the exit code. *)
Definition set_current (envs : list EnvT) (args : list string) (st : State bytes) : GoM (State bytes * Z) :=
  match args with
  | [name] =>
      if decide (name ∈ cluster_names envs) then
        r ← SetCurrentCluster Encode io_error st name;
        mret (r.1, if is_nil r.2 then 0%Z else 1%Z)
      else mret (st, 1%Z)
  | _ => mret (st, 1%Z)
  end.
End commands.

(** [list], a row: the type of the cluster is an argument, as it depends on
    the environment the cluster was built in. *)
Definition cluster_row (type : ClusterT → string) (current : string * string) (e : EnvT) (c : ClusterT)
    : GoM (gmap string string) :=
  kubernetesVersion ← (if decide (type c = ClusterTypeHub) then mret ""
                       else k ← deref (cl_Kubernetes (c_conf c)); mret (ck_Version k));
  mret (<["name" := c_Name c]> (<["environment" := e_Name e]> (<["version" := kubernetesVersion]> (<["type" := type c]>
       (<["zone" := public_zone (e_provider e)]>
       (<["current" := if decide (current = (e_Name e, c_Name c)) then "true" else "false"]> ∅))))) : gmap string string).

(** ** The tunnel command: whether the tunnel was started, and the attempts *)
Fixpoint tunnel_attempts (start : nat → option error) (retries n : nat) : bool * nat :=
  match retries with
  | 0 => (false, n)
  | S retries' => match start n with None => (true, S n) | Some _ => tunnel_attempts start retries' (S n) end
  end.

Definition tunnel_cmd (start : nat → option error) (args : list string) : (bool * nat) + error :=
  if decide (length args = 3) then inl (tunnel_attempts start 5 0)
  else inr (Errorf ("expecting only a destination, destination port and local port argument, got=" +:+ fmt_strings args)).

(** ** What the commands do *)

Lemma insert_dashes_first pre name rest : name ∉ pre → insert_dashes name (pre ++ name :: rest) = pre ++ name :: "--" :: rest.
Proof.
  intros Hn. unfold insert_dashes, IndexOfString.
  destruct (IndexOfString_from_spec 0 (pre ++ name :: rest) name) as [[Hno _]|(k & -> & Hk & Hfirst)]; [set_solver|].
  assert (k = length pre) as ->.
  { destruct (lt_eq_lt_dec k (length pre)) as [[Hlt|?]|Hgt]; [|done|].
    - rewrite lookup_app_l in Hk by done. by apply list_elem_of_lookup_2 in Hk.
    - destruct Hfirst. rewrite take_app_ge by lia. replace (k - length pre) with (S (k - length pre - 1)) by lia. set_solver. }
  rewrite Z.add_0_l, Nat2Z.id. destruct (Z.eqb_spec (Z.of_nat (length pre)) (-1)); [lia|].
  assert (pre ++ name :: rest = (pre ++ [name]) ++ rest) as -> by (by rewrite <- app_assoc).
  rewrite take_app_length', drop_app_length' by (rewrite length_app; cbn; lia). by rewrite <- app_assoc.
Qed.

(** What follows the name of the command [kubectl] or [ssh] is passed on as it
    is, flags too, if that name is not also a value before it. *)
Theorem Execute_passes_on other argv0 use name pre rest :
  Execute_plugin other argv0 = None → passed_on use = Some name → name ∉ pre →
  cmd_Execute other argv0 (inl use) (pre ++ name :: rest) = ExecRun (pre ++ name :: "--" :: rest).
Proof. intros Hp Hu Hn. unfold cmd_Execute. rewrite Hp, Hu. by rewrite insert_dashes_first. Qed.

(** If it is, the dashes are put before the command itself. *)
Example dashes_misplaced :
  cmd_Execute (λ _, 0%Z) "/usr/bin/tarmak" (inl clusterSshCmd_Use) ["--config-directory"; "ssh"; "cluster"; "ssh"; "bastion"] =
  ExecRun ["--config-directory"; "ssh"; "--"; "cluster"; "ssh"; "bastion"].
Proof. reflexivity. Qed.

Section tables.
Context `{MapRange}.

Lemma add_keys_spec keys (l : list (string * string)) :
  let keys' := foldl (λ keys kv, if decide (kv.1 ∈ keys) then keys else keys ++ [kv.1]) keys l in
  keys `prefix_of` keys' ∧ (NoDup keys → NoDup keys') ∧ ∀ k, k ∈ keys' ↔ k ∈ keys ∨ k ∈ l.*1.
Proof.
  revert keys. induction l as [|[k v] l IH]; intros keys; cbn; [split_and!; [done..|set_solver]|].
  destruct (decide (k ∈ keys)) as [Hin|Hout].
  - destruct (IH keys) as (H1 & H2 & H3). split_and!; [done..|]. intros j. rewrite H3. set_solver.
  - destruct (IH (keys ++ [k])) as (H1 & H2 & H3). split_and!.
    + etrans; [|exact H1]. by apply prefix_app_r.
    + intros Hd. apply H2, NoDup_app. split_and!; [done|set_solver|apply NoDup_singleton].
    + intros j. rewrite H3. set_solver.
Qed.

Lemma all_keys_spec keys varMaps :
  keys `prefix_of` all_keys keys varMaps ∧ (NoDup keys → NoDup (all_keys keys varMaps)) ∧
  ∀ k, k ∈ all_keys keys varMaps ↔ k ∈ keys ∨ ∃ m, m ∈ varMaps ∧ is_Some (m !! k).
Proof.
  unfold all_keys. revert keys. induction varMaps as [|m ms IH]; intros keys; cbn.
  { split_and!; [done..|]. set_solver. }
  destruct (add_keys_spec keys (range m)) as (H1 & H2 & H3), (IH (add_keys keys m)) as (H4 & H5 & H6).
  split_and!; [by etrans|auto|]. intros k. rewrite H6. unfold add_keys. rewrite H3.
  assert (k ∈ (range m).*1 ↔ is_Some (m !! k)) as ->; [|set_solver].
  rewrite list_elem_of_fmap. split.
  - intros ([k' v] & -> & Hin). apply range_elem in Hin. eauto.
  - intros [v Hv]. exists (k, v). by rewrite range_elem.
Qed.

(** The table has the keys that were asked for first, every other key of a map
    once, and in each row the value of each key. *)
Theorem ListParameters_correct keys varMaps :
  ∃ columns, ListParameters keys varMaps = map ToUpper columns :: map (λ m, map (cell m) columns) varMaps ∧
    keys `prefix_of` columns ∧ (NoDup keys → NoDup columns) ∧
    ∀ k, k ∈ columns ↔ k ∈ keys ∨ ∃ m, m ∈ varMaps ∧ is_Some (m !! k).
Proof. exists (all_keys keys varMaps). split; [done|]. apply all_keys_spec. Qed.
End tables.

(** A cluster becomes the current one only if the configuration has it, and
    then the file has it too. *)
Theorem set_current_safe {bytes} (Encode : Config → bytes + error) io_error envs args st st' :
  set_current Encode io_error envs args st = Ret (st', 0%Z) →
  ∃ name c, args = [name] ∧ name ∈ cluster_names envs ∧ conf st = Some c ∧
    conf st' = Some (with_current name c) ∧ (inl <$> file st') = Some (Encode (with_current name c)).
Proof.
  unfold set_current. destruct args as [|name [|]]; [done| |done]. case_decide as Hin; [|done].
  unfold SetCurrentCluster. destruct (conf st) as [c|]; [|done]. cbn. intros [= <- Hz].
  exists name, c. split_and!; [done..| |]; revert Hz; unfold writeYAML; cbn;
    (destruct (io_error (ops st)); [done|]; destruct (io_error (S (ops st))); [done|]; by destruct (Encode _)).
Qed.

Lemma tunnel_attempts_spec start retries n :
  let r := tunnel_attempts start retries n in
  r.2 ≤ n + retries ∧ (∀ k, n ≤ k → S k < r.2 → start k ≠ None) ∧
  if r.1 then ∃ k, r.2 = S k ∧ n ≤ k ∧ start k = None else r.2 = n + retries ∧ ∀ k, n ≤ k < n + retries → start k ≠ None.
Proof.
  revert n. induction retries as [|retries IH]; intros n; cbn; [split_and!; lia|].
  destruct (start n) eqn:Hn; cbn.
  - destruct (IH (S n)) as (H1 & H2 & H3). split_and!; [lia| |].
    + intros k Hk Hlt. destruct (decide (k = n)) as [->|]; [by rewrite Hn|]. apply H2; lia.
    + destruct (tunnel_attempts start retries (S n)) as [[] m]; cbn in *.
      * destruct H3 as (k & ? & ? & ?). exists k. split_and!; [done|lia|done].
      * destruct H3 as [-> H3]. split; [lia|]. intros k Hk. destruct (decide (k = n)) as [->|]; [by rewrite Hn|]. apply H3. lia.
  - split_and!; [lia|lia|]. exists n. auto.
Qed.
