(* ===== verification/SshKey.v ===== *)
(** * SshKey: the SSH key of an environment

    [generateRSAKey], [getSSHPrivateKey], [SSHPrivateKey] and
    [SSHPrivateKeyPath] of [src/pkg/tarmak/environment/environment.go] and
    [Validate] of [src/pkg/tarmak/ssh/ssh.go], on the file system of
    [FileTree].  A key is made when its file does not exist.

    Parameters: RSA keys, their PEM text and its parsers; the expansion of the
    home directory.  A path that is a symbolic link is not followed. *)

From S2P Require Import Prelude Types Paths FileTree Templating Plugins.

Section ssh_key.
Context (HomeDirExpand : string → string + error).
Context {Key : Type} (GenerateKey : nat → Key + error).
Context (Encode : Key → string) (ParseRawPrivateKey : string → Key + error) (pem_Decode : string → bool).
Context (ConfigPath : string) (ssh : option SSH).

Definition env_ConfigPath (name : string) : string := path_Join [ConfigPath; name].

Definition SSHPrivateKeyPath (name : string) : string :=
  let path := match ssh with Some conf => ssh_PrivateKeyPath conf | None => "" end in
  if decide (path = "") then path_Join [env_ConfigPath name; "id_rsa"]
  else match HomeDirExpand path with inr _ => path | inl dir => dir end.

Section files.
Context (io : nat → option error).

(** The file is made readable by its owner only before the key is written. *)
Definition generateRSAKey (bitSize : nat) (filePath : fpath) : FSM Key :=
  match GenerateKey bitSize with
  | inr err => fail err
  | inl key =>
      _ ← os_Create io filePath 438;
      _ ← Chmod io filePath 384;
      _ ← Write io filePath (Encode key);
      mret key
  end.

Definition failed_with (msg : string) : error → error := λ err, Errorf (msg +:+ error_string err).

Definition getSSHPrivateKey (path : fpath) : FSM Key :=
  stat ← wrap_error (failed_with ("unable to find ssh key in " +:+ Join path "/" +:+ ": ")) (Stat io path);
  match stat with
  | None =>
      _ ← wrap_error (failed_with "error creating directory: ") (MkdirAll io (removelast path) 448);
      wrap_error (failed_with "error generating ssh key: ") (generateRSAKey 4096 path)
  | Some _ =>
      text ← wrap_error (failed_with ("unable to read ssh key " +:+ Join path "/" +:+ ": ")) (Open io path);
      match ParseRawPrivateKey text with
      | inr err => fail (failed_with ("unable to parse ssh key " +:+ Join path "/" +:+ ": ") err)
      | inl key => mret key
      end
  end.

(** The key is kept after the first use; an error ends the process. *)
Definition SSHPrivateKey (path : fpath) (sshKeyPrivate : option Key) : FSM (option Key * Key) :=
  match sshKeyPrivate with
  | Some key => mret (sshKeyPrivate, key)
  | None => key ← getSSHPrivateKey path; mret (Some key, key)
  end.

(** [SSH.Validate] with an environment. *)
Definition ssh_Validate (keyPath : fpath) : FSM unit :=
  f ← wrap_error (failed_with "failed to read ssh file status: ") (Stat io keyPath);
  match f with
  | None => mret ()
  | Some (NDir _) => fail (Errorf ("expected ssh file location '" +:+ Join keyPath "/" +:+ "' is directory"))
  | Some node =>
      let mode := mode_of node in
      _ ← (if decide (mode = 384%N ∨ mode = 256%N) then mret ()
           else wrap_error (failed_with "failed to set ssh private key file permissions: ") (Chmod io keyPath 384));
      text ← wrap_error (failed_with "unable to read ssh private key: ") (Open io keyPath);
      if pem_Decode text then mret ()
      else fail (Errorf "failed to parse PEM block containing the ssh private key")
  end.
End files.

(** ** The key file *)

(** What may be at the path while a key is made: nothing, an empty file, or
    the key in a file of its owner. *)
Definition key_safe (o : option Node) : Prop :=
  match o with
  | None => True
  | Some (NFile m text) => text = "" ∨ m = 384%N
  | Some _ => False
  end.

Lemma Create_any io p mode s s' r : os_Create io p mode s = (s', r) → sys_fs s !! p = None →
  (sys_fs s' = sys_fs s ∧ r ≠ inl ()) ∨ (is_dir (sys_fs s) (removelast p) ∧ sys_fs s' = <[p := NFile mode ""]> (sys_fs s) ∧ r = inl ()).
Proof.
  intros Hs Hp. unfold os_Create, syscall in Hs. destruct (io _); [simplify_eq/=; by left|]. rewrite Hp in Hs.
  repeat case_match; simplify_eq/=; [left; by split| |left; by split..]. right. split_and!; [by eexists|done..].
Qed.

Lemma Chmod_any io p mode s s' r m text : Chmod io p mode s = (s', r) → sys_fs s !! p = Some (NFile m text) →
  (sys_fs s' = sys_fs s ∧ r ≠ inl ()) ∨ (sys_fs s' = <[p := NFile mode text]> (sys_fs s) ∧ r = inl ()).
Proof.
  intros Hs Hp. unfold Chmod, syscall in Hs. destruct (io _); [simplify_eq/=; by left|]. rewrite Hp in Hs.
  simplify_eq/=. by right.
Qed.

Lemma Write_any io p t s s' r m text : Write io p t s = (s', r) → sys_fs s !! p = Some (NFile m text) →
  (sys_fs s' = sys_fs s ∧ r ≠ inl ()) ∨ (sys_fs s' = <[p := NFile m (text +:+ t)]> (sys_fs s) ∧ r = inl ()).
Proof.
  intros Hs Hp. unfold Write, syscall in Hs. destruct (io _); [simplify_eq/=; by left|]. rewrite Hp in Hs.
  simplify_eq/=. by right.
Qed.

(** Generating a key where there is none. *)
Lemma generateRSAKey_any io bits path s s' r : sys_fs s !! path = None → generateRSAKey io bits path s = (s', r) →
  (sys_fs s' = sys_fs s ∨ ∃ m text, sys_fs s' = <[path := NFile m text]> (sys_fs s) ∧ (text = "" ∨ m = 384%N)) ∧
  match r with
  | inl key => sys_fs s' !! path = Some (NFile 384 (Encode key))
  | inr _ => ∀ node, sys_fs s' !! path = Some node → ∃ m, node = NFile m ""
  end.
Proof.
  intros Hp. unfold generateRSAKey. destruct (GenerateKey bits) as [key|e]; [|intros [= <- <-]; split; [by left|by rewrite Hp]].
  unfold mbind, FSM_bind. destruct (os_Create io path 438 s) as [s1 r1] eqn:H1.
  apply Create_any in H1 as [[H1 Hr]|(_ & H1 & ->)]; [|..|done].
  { destruct r1 as [[]|]; [done|]. intros [= <- <-]. rewrite H1. split; [by left|by rewrite Hp]. }
  destruct (Chmod io path 384 s1) as [s2 r2] eqn:H2.
  eapply Chmod_any in H2 as [[H2 Hr]|[H2 ->]]; [|..|rewrite H1; apply lookup_insert_eq].
  { destruct r2 as [[]|]; [done|]. intros [= <- <-]. rewrite H2, H1, lookup_insert_eq.
    split; [right; eexists _, _; split; [done|by left]|]. intros node [= <-]. by eexists. }
  rewrite H1, insert_insert_eq in H2. destruct (Write io path (Encode key) s2) as [s3 r3] eqn:H3.
  eapply Write_any in H3 as [[H3 Hr]|[H3 ->]]; [|..|rewrite H2; apply lookup_insert_eq].
  { destruct r3 as [[]|]; [done|]. intros [= <- <-]. rewrite H3, H2, lookup_insert_eq.
    split; [right; eexists _, _; split; [done|by left]|]. intros node [= <-]. by eexists. }
  intros [= <- <-]. rewrite H2, insert_insert_eq, string_app_nil_l in H3. rewrite H3, lookup_insert_eq.
  split; [right; eexists _, _; split; [done|by right]|done].
Qed.

Lemma wrap_error_any {A} f (m : FSM A) s s' r :
  wrap_error f m s = (s', r) → ∃ r', m s = (s', r') ∧ match r' with inl a => r = inl a | inr e => r = inr (f e) end.
Proof. unfold wrap_error. destruct (m s) as [s1 [a|e]]; intros [= <- <-]; eexists; done. Qed.

Lemma Open_any io p s s' r : Open io p s = (s', r) →
  sys_fs s' = sys_fs s ∧ ∀ text, r = inl text → ∃ m, sys_fs s !! p = Some (NFile m text).
Proof.
  intros Hs. split.
  - apply syscall_any in Hs as [Heq|Heq]; [done|]. by repeat case_match; simplify_eq.
  - intros text ->. apply syscall_ok in Hs. repeat case_match; simplify_eq. by eexists.
Qed.

(** A file that exists is only read. *)
Lemma get_existing io path s s' r node : sys_fs s !! path = Some node → getSSHPrivateKey io path s = (s', r) →
  sys_fs s' = sys_fs s ∧
  ∀ key, r = inl key → ∃ m text, node = NFile m text ∧ ParseRawPrivateKey text = inl key.
Proof.
  intros Hp. unfold getSSHPrivateKey, mbind, FSM_bind. destruct (wrap_error _ (Stat io path) s) as [s1 r1] eqn:H1.
  apply wrap_error_any in H1 as (r1' & H1 & Hr1). assert (sys_fs s1 = sys_fs s) as Hs1 by (by eapply Stat_any).
  destruct r1' as [stat|e]; subst r1; [|by intros [= <- <-]]. apply Stat_ok in H1 as [_ ->]. rewrite Hp.
  destruct (wrap_error _ (Open io path) s1) as [s2 r2] eqn:H2. apply wrap_error_any in H2 as (r2' & H2 & Hr2).
  apply Open_any in H2 as [Hs2 Ho]. destruct r2' as [text|e]; subst r2; [|intros [= <- <-]; by rewrite Hs2].
  destruct (Ho text eq_refl) as [m Hm]. rewrite Hs1, Hp in Hm. injection Hm as ->.
  destruct (ParseRawPrivateKey text) as [key|] eqn:Hk; intros [= <- <-]; rewrite Hs2; (split; [done|]); [|done].
  intros key' [= <-]. by exists m, text.
Qed.

(** A key is made. *)
Lemma get_new io parent n s s' r :
  let path := parent ++ [n] in
  fs_wf (sys_fs s) → is_dir (sys_fs s) [] → sys_fs s !! path = None → getSSHPrivateKey io path s = (s', r) →
  (∀ p, ¬ p `prefix_of` path → sys_fs s' !! p = sys_fs s !! p) ∧ key_safe (sys_fs s' !! path) ∧
  match r with
  | inl key => sys_fs s' !! path = Some (NFile 384 (Encode key))
  | inr _ => ∀ node, sys_fs s' !! path = Some node → ∃ m, node = NFile m ""
  end.
Proof.
  intros path Hwf Hroot Hp. unfold getSSHPrivateKey, mbind, FSM_bind.
  destruct (wrap_error _ (Stat io path) s) as [s1 r1] eqn:H1. apply wrap_error_any in H1 as (r1' & H1 & Hr1).
  assert (sys_fs s1 = sys_fs s) as Hs1 by (by eapply Stat_any).
  destruct r1' as [stat|e]; subst r1; [|intros [= <- <-]; by rewrite Hs1, Hp].
  apply Stat_ok in H1 as [_ ->]. rewrite Hp. unfold path at 1. rewrite removelast_last.
  destruct (wrap_error _ (MkdirAll io parent 448) s1) as [s2 r2] eqn:H2. apply wrap_error_any in H2 as (r2' & H2 & Hr2).
  destruct r2' as [[]|e]; subst r2; [|intros [= <- <-]; apply MkdirAll_failed in H2 as ->; by rewrite Hs1, Hp].
  rewrite <- Hs1 in Hwf, Hroot. destruct (MkdirAll_spec _ _ _ _ _ Hwf Hroot H2) as (_ & _ & Hf).
  assert (¬ path `prefix_of` parent) as Hlong.
  { intros Hpre%prefix_length. unfold path in Hpre. rewrite length_app in Hpre. simpl in Hpre. lia. }
  assert (sys_fs s2 !! path = None) as Hp2 by (by rewrite Hf, Hs1).
  destruct (wrap_error _ (generateRSAKey io 4096 path) s2) as [s3 r3] eqn:H3. apply wrap_error_any in H3 as (r3' & H3 & Hr3).
  apply generateRSAKey_any in H3 as [Hch Hres]; [|done]. intros [= <- <-]. split_and!.
  - intros p Hpre. assert (sys_fs s3 !! p = sys_fs s2 !! p) as ->.
    { destruct Hch as [->|(m & text & -> & _)]; [done|]. rewrite lookup_insert_ne; [done|]. by intros <-. }
    rewrite Hf, Hs1; [done|]. intros Hpp. apply Hpre. etrans; [exact Hpp|]. by apply prefix_app_r.
  - destruct Hch as [->|(m & text & -> & Hsafe)]; [by rewrite Hp2|]. by rewrite lookup_insert_eq.
  - by destruct r3' as [key|e]; subst r3.
Qed.

(** Without errors of the system a key that can be parsed is read. *)
Lemma get_good path s m text key :
  sys_fs s !! path = Some (NFile m text) → ParseRawPrivateKey text = inl key →
  ∃ s', getSSHPrivateKey (λ _, None) path s = (s', inl key) ∧ sys_fs s' = sys_fs s.
Proof.
  intros Hp Hk. unfold getSSHPrivateKey, wrap_error, mbind, FSM_bind, Stat, Open, syscall. cbn [sys_fs sys_calls].
  rewrite Hp. cbn [sys_fs sys_calls]. rewrite Hp. cbn. rewrite Hk. by eexists.
Qed.

Lemma validate_good path s text :
  sys_fs s !! path = Some (NFile 384 text) → pem_Decode text = true →
  ∃ s', ssh_Validate (λ _, None) path s = (s', inl ()) ∧ sys_fs s' = sys_fs s.
Proof.
  intros Hp Hk. unfold ssh_Validate, wrap_error, mbind, FSM_bind, Stat, Open, syscall. cbn [sys_fs sys_calls].
  rewrite Hp. cbn [sys_fs sys_calls mode_of]. rewrite decide_True by (by left). cbn. rewrite Hp. cbn. rewrite Hk. by eexists.
Qed.

(** C28: the SSH key of an environment.  A file at the path is never changed by
    asking for the key.  Where there is none, whatever fails and wherever the
    program is cut short, only the file and the directories on the way to it
    are made and the text of a key is never in a file others may read; the key
    returned is in the file, is returned again by every later run, and passes
    the validation. *)
Theorem ssh_key_correct parent n s :
  let path := parent ++ [n] in
  (∀ key, ParseRawPrivateKey (Encode key) = inl key ∧ pem_Decode (Encode key) = true) →
  fs_wf (sys_fs s) → is_dir (sys_fs s) [] →
  ∀ io s' r, getSSHPrivateKey io path s = (s', r) →
  (is_Some (sys_fs s !! path) → sys_fs s' = sys_fs s) ∧
  (sys_fs s !! path = None →
     (∀ p, ¬ p `prefix_of` path → sys_fs s' !! p = sys_fs s !! p) ∧ key_safe (sys_fs s' !! path) ∧
     ∀ key, r = inl key →
       (∃ s'', ssh_Validate (λ _, None) path s' = (s'', inl ()) ∧ sys_fs s'' = sys_fs s') ∧
       (∃ s'', getSSHPrivateKey (λ _, None) path s' = (s'', inl key)) ∧
       ∀ io' s'' r', getSSHPrivateKey io' path s' = (s'', r') → sys_fs s'' = sys_fs s' ∧ ∀ key', r' = inl key' → key' = key).
Proof.
  intros path Hkey Hwf Hroot io s' r Hg. split.
  - intros [node Hp]. by eapply get_existing.
  - intros Hp. destruct (get_new io parent n s s' r Hwf Hroot Hp Hg) as (Hf & Hsafe & Hres). split_and!; [done..|].
    intros key ->. destruct (Hkey key) as [Hparse Hpem]. split_and!.
    + by eapply validate_good.
    + destruct (get_good path s' 384 (Encode key) key Hres Hparse) as (s'' & ? & _). by exists s''.
    + intros io' s'' r' Hg'. destruct (get_existing io' path s' s'' r' _ Hres Hg') as [? Hr]. split; [done|].
      intros key' Heq. destruct (Hr key' Heq) as (m & text & [= <- <-] & Hp'). congruence.
Qed.

End ssh_key.

(** ** Witnesses: keys are strings, and their text has a header *)

Definition example_encode (key : string) : string := "PEM" +:+ key.
Definition example_parse_key (text : string) : string + error :=
  match text with
  | String "P" (String "E" (String "M" key)) => inl key
  | _ => inr (Errorf "ssh: no key found")
  end.
Definition example_pem (text : string) : bool := HasPrefix text "PEM".

Abbreviation example_get io := (getSSHPrivateKey (λ _, inl "key") example_encode example_parse_key io ["dev"; "id_rsa"]
  {| sys_fs := {[ [] := NDir 493 ]}; sys_calls := 0 |}).

Lemma example_home_wf : fs_wf ({[ [] := NDir 493 ]} : FS).
Proof. apply wf_check_ok. vm_compute. reflexivity. Qed.

Lemma ssh_key_correct_witness :
  ∃ s' s'', example_get (λ _, None) = (s', inl "key") ∧
    getSSHPrivateKey (λ _, inl "key") example_encode example_parse_key (λ _, None) ["dev"; "id_rsa"] s' = (s'', inl "key").
Proof.
  destruct (example_get (λ _, None)) as [s' r] eqn:Hg.
  assert (r = inl "key") as -> by (vm_compute in Hg; congruence). exists s'.
  destruct (ssh_key_correct (λ _, inl "key") example_encode example_parse_key example_pem ["dev"] "id_rsa"
    {| sys_fs := {[ [] := NDir 493 ]}; sys_calls := 0 |}) with (io := λ _ : nat, @None error) (s' := s') (r := @inl string error "key")
    as [_ Hnew]; [by intros key; split; [|destruct key]|exact example_home_wf|by exists 493%N|exact Hg|].
  destruct Hnew as (_ & _ & Hk); [reflexivity|]. destruct (Hk "key" eq_refl) as (_ & [s'' Hs''] & _). exists s''. split; [reflexivity|].
  exact Hs''.
Defined.

