(* ===== verification/Ec2Tag.v ===== *)
(** * Ec2Tag: the Terraform resource of an EC2 tag

    [src/pkg/terraform/providers/awstag/resource_awstag_ec2_tag.go]: create,
    read and delete of one tag of an EC2 resource, with the data Terraform
    keeps of it.  The interface to EC2 is a class; its laws state what the
    service documents, on the first page of an answer, which holds all tags of
    a resource. *)

From S2P Require Import Prelude.

(** ** EC2 *)
Class EC2 (S : Type) := {
  CreateTags : string → string → string → S → S * option error;
  DeleteTags : string → string → string → S → S * option error;
  DescribeTags : string → S → list (string * string) + error;
}.

(** A tag that is deleted with a value is deleted only if it has that value. *)
Class EC2Laws (S : Type) `{EC2 S} := {
  tags_of : S → gmap (string * string) string;
  create_law s s' r k v : CreateTags r k v s = (s', None) → tags_of s' = <[(r, k) := v]> (tags_of s);
  delete_law s s' r k v : DeleteTags r k v s = (s', None) →
    tags_of s' = if decide (tags_of s !! (r, k) = Some v) then delete (r, k) (tags_of s) else tags_of s;
  failed_create_law s s' r k v err : CreateTags r k v s = (s', Some err) → tags_of s' = tags_of s;
  failed_delete_law s s' r k v err : DeleteTags r k v s = (s', Some err) → tags_of s' = tags_of s;
  describe_law s r l : DescribeTags r s = inl l → ∀ k v, (k, v) ∈ l ↔ tags_of s !! (r, k) = Some v;
}.

(** [schema.ResourceData]: fields that are not set read as empty. *)
Record TagData := { td_id : string; td_ec2_id : string; td_key : string; td_value : string }.

Section resource.
Context {S : Type} `{EC2 S}.
Context (sha256 base64 : string → string).

Definition tag_id (ec2_id key : string) : string := base64 (sha256 (ec2_id +:+ key)).

Definition resourceAwstagEC2TagCreate (d : TagData) (s : S) : S * TagData * option error :=
  match CreateTags (td_ec2_id d) (td_key d) (td_value d) s with
  | (s, Some err) => (s, d, Some (Errorf ("Error creating tag: " +:+ error_string err)))
  | (s, None) => (s, {| d with td_id := tag_id (td_ec2_id d) (td_key d) |}, None)
  end.

(** The first tag with the key. *)
Fixpoint find_tag (key : string) (tags : list (string * string)) : option string :=
  match tags with
  | [] => None
  | (k, v) :: tags' => if decide (k = key) then Some v else find_tag key tags'
  end.

Definition resourceAwstagEC2TagRead (d : TagData) (s : S) : TagData * option error :=
  match DescribeTags (td_ec2_id d) s with
  | inr err => (d, Some err)
  | inl tags =>
      match find_tag (td_key d) tags with
      | Some v => ({| d with td_value := v |}, None)
      | None => ({| d with td_id := "" |}, None)
      end
  end.

Definition resourceAwstagEC2TagDelete (d : TagData) (s : S) : S * option error :=
  match DeleteTags (td_ec2_id d) (td_key d) (td_value d) s with
  | (s, Some err) => (s, Some (Errorf ("Error deleting tag: " +:+ error_string err)))
  | (s, None) => (s, None)
  end.

(** [ImportStatePassthrough]: only the identifier is known. *)
Definition imported (id : string) : TagData := {| td_id := id; td_ec2_id := ""; td_key := ""; td_value := "" |}.
End resource.

(** ** What Terraform sees *)
Section laws.
Context {S : Type} `{EC2Laws S}.
Context (sha256 base64 : string → string).

Lemma find_tag_Some key l v : find_tag key l = Some v → (key, v) ∈ l.
Proof.
  induction l as [|[k w] l IH]; cbn [find_tag]; [done|]. case_decide as Hk.
  - intros [= ->]. subst. by left.
  - intros ?. right. by apply IH.
Qed.

Lemma find_tag_None key l : find_tag key l = None → ∀ v, (key, v) ∉ l.
Proof.
  induction l as [|[k w] l IH]; cbn [find_tag]; [set_solver|]. case_decide as Hk; [done|].
  intros Hf v [[= <- <-]|?]%elem_of_cons; [done|]. by apply (IH Hf v).
Qed.

(** The lookup finds the tag of the resource. *)
Lemma find_tag_lookup s r l key : DescribeTags r s = inl l → find_tag key l = tags_of s !! (r, key).
Proof.
  intros Hd. destruct (find_tag key l) as [v|] eqn:Hf.
  - apply find_tag_Some in Hf. symmetry. by apply (describe_law s r l).
  - destruct (tags_of s !! (r, key)) as [v|] eqn:Hv; [|done]. apply (describe_law s r l) in Hv; [|done].
    by apply (find_tag_None key l Hf) in Hv.
Qed.

(** What Terraform knows of a tag agrees with EC2. *)
Definition agrees (d : TagData) (s : S) : Prop := tags_of s !! (td_ec2_id d, td_key d) = Some (td_value d).

Lemma Create_agrees d s s' d' err :
  resourceAwstagEC2TagCreate sha256 base64 d s = (s', d', err) →
  (∀ rk, rk ≠ (td_ec2_id d, td_key d) → tags_of s' !! rk = tags_of s !! rk) ∧
  (err = None → d' = {| d with td_id := tag_id sha256 base64 (td_ec2_id d) (td_key d) |} ∧ agrees d' s') ∧
  (err ≠ None → d' = d ∧ tags_of s' = tags_of s).
Proof.
  unfold resourceAwstagEC2TagCreate, agrees. destruct (CreateTags _ _ _ s) as [s1 [e|]] eqn:Hc; intros [= <- <- <-].
  - rewrite (failed_create_law _ _ _ _ _ _ Hc). done.
  - rewrite (create_law _ _ _ _ _ Hc). split_and!; [|intros _|done].
    + intros rk Hne. by rewrite lookup_insert_ne.
    + split; [done|]. apply lookup_insert_eq.
Qed.

Lemma Read_correct d s d' :
  resourceAwstagEC2TagRead d s = (d', None) →
  match tags_of s !! (td_ec2_id d, td_key d) with
  | Some v => d' = {| d with td_value := v |} ∧ agrees d' s
  | None => d' = {| d with td_id := "" |}
  end.
Proof.
  unfold resourceAwstagEC2TagRead, agrees. destruct (DescribeTags _ s) as [l|e] eqn:Hd; [|done].
  rewrite (find_tag_lookup _ _ _ _ Hd). destruct (tags_of s !! _) eqn:Hv; intros [= <-]; done.
Qed.

Lemma Delete_correct d s s' err :
  resourceAwstagEC2TagDelete d s = (s', err) →
  (∀ rk, rk ≠ (td_ec2_id d, td_key d) → tags_of s' !! rk = tags_of s !! rk) ∧
  (err = None → agrees d s → tags_of s' !! (td_ec2_id d, td_key d) = None) ∧
  (¬ agrees d s → tags_of s' = tags_of s).
Proof.
  unfold resourceAwstagEC2TagDelete, agrees. destruct (DeleteTags _ _ _ s) as [s1 [e|]] eqn:Hc; intros [= <- <-].
  - rewrite (failed_delete_law _ _ _ _ _ _ Hc). done.
  - rewrite (delete_law _ _ _ _ _ Hc). split_and!.
    + intros rk Hne. case_decide; [|done]. by rewrite lookup_delete_ne.
    + intros _ Ha. rewrite decide_True by done. apply lookup_delete_eq.
    + intros Ha. by rewrite decide_False.
Qed.

(** The life of a tag resource.  Creating it sets exactly that tag;
    reading it afterwards, whatever has happened in between, finds it unchanged when nobody changed it, takes
    over a value that somebody else has set, and tells Terraform that it is
    gone when it is; and deleting it, after such a read, removes exactly that
    tag. *)
Theorem ec2_tag_correct (d : TagData) (s1 s2 : S) (d1 : TagData) (s3 : S) (d2 : TagData) (s4 : S) :
  tag_id sha256 base64 (td_ec2_id d) (td_key d) ≠ "" →
  resourceAwstagEC2TagCreate sha256 base64 d s1 = (s2, d1, None) →
  resourceAwstagEC2TagRead d1 s3 = (d2, None) →
  resourceAwstagEC2TagDelete d2 s3 = (s4, None) →
  let rk := (td_ec2_id d, td_key d) in
  td_id d1 ≠ "" ∧ tags_of s2 = <[rk := td_value d]> (tags_of s1) ∧
  (td_id d2 = "" ↔ tags_of s3 !! rk = None) ∧
  (tags_of s3 !! rk = Some (td_value d) → d2 = d1) ∧
  (∀ v, tags_of s3 !! rk = Some v → td_value d2 = v) ∧
  tags_of s4 = delete rk (tags_of s3).
Proof.
  intros Hid Hc Hr Hd rk. destruct (Create_agrees _ _ _ _ _ Hc) as (Hf & Hok & _). destruct (Hok eq_refl) as [Hd1 Ha1].
  apply Read_correct in Hr. destruct (Delete_correct _ _ _ _ Hd) as (Hf4 & Hgone & Hsame).
  assert (td_ec2_id d1 = td_ec2_id d ∧ td_key d1 = td_key d ∧ td_value d1 = td_value d) as (E1 & E2 & E3) by (by rewrite Hd1).
  rewrite E1, E2 in Hr. fold rk in Hr.
  assert (td_id d1 ≠ "") as Hid1 by (by rewrite Hd1).
  assert ((td_ec2_id d2, td_key d2) = rk) as E4.
  { unfold rk. destruct (tags_of s3 !! rk); [destruct Hr as [-> _]|rewrite Hr]; done. }
  rewrite E4 in *. split_and!; [done| | | | |].
  - apply map_eq. intros k. destruct (decide (k = rk)) as [->|Hne]; [|by rewrite lookup_insert_ne, Hf].
    rewrite lookup_insert_eq. unfold agrees in Ha1. by rewrite E1, E2, E3 in Ha1.
  - destruct (tags_of s3 !! rk) as [v|]; [destruct Hr as [-> _]; by cbn|by rewrite Hr].
  - intros Hv. rewrite Hv in Hr. destruct Hr as [-> _]. by rewrite Hd1.
  - intros v Hv. rewrite Hv in Hr. by destruct Hr as [-> _].
  - apply map_eq. intros k. destruct (decide (k = rk)) as [->|Hne]; [|by rewrite lookup_delete_ne, Hf4].
    rewrite lookup_delete_eq. destruct (tags_of s3 !! rk) as [v|] eqn:Hv; [destruct Hr as [_ Ha]; by apply Hgone|].
    rewrite Hsame; [done|]. unfold agrees. by rewrite E4, Hv.
Qed.

(** A tag cannot be imported: reading it looks for a resource without a name
    and tells Terraform that there is no such tag. *)
Theorem import_fails s id d :
  (∀ k, tags_of s !! ("", k) = None) → resourceAwstagEC2TagRead (imported id) s = (d, None) → td_id d = "".
Proof. intros Hn Hr%Read_correct. cbn [td_ec2_id td_key imported] in Hr. rewrite Hn in Hr. by rewrite Hr. Qed.
End laws.

(** ** Witness: tags in a map *)
#[local] Instance example_ec2 : EC2 (gmap (string * string) string) := {
  CreateTags r k v s := (<[(r, k) := v]> s, None);
  DeleteTags r k v s := (if decide (s !! (r, k) = Some v) then delete (r, k) s else s, None);
  DescribeTags r s := inl (omap (λ kv : (string * string) * string,
    if decide (kv.1.1 = r) then Some (kv.1.2, kv.2) else None) (map_to_list s));
}.

#[local, refine] Instance example_ec2_laws : EC2Laws (gmap (string * string) string) := {
  tags_of s := s;
}.
Proof.
  - by intros s s' r k v [= <-].
  - by intros s s' r k v [= <-].
  - by intros s s' r k v err.
  - by intros s s' r k v err.
  - intros s r l [= <-] k v. rewrite list_elem_of_omap. split.
    + intros ([[r' k'] v'] & Hin%elem_of_map_to_list & Heq). cbn in Heq. case_decide; simplify_eq. done.
    + intros Hs. exists ((r, k), v). split; [by apply elem_of_map_to_list|]. cbn. by rewrite decide_True.
Defined.

Definition example_tag : TagData := {| td_id := ""; td_ec2_id := "i-1"; td_key := "role"; td_value := "master" |}.
Definition example_tags : gmap (string * string) string := {[ ("i-1", "role") := "master"; ("i-2", "role") := "etcd" ]}.

Lemma ec2_tag_correct_witness :
  ∃ s2 d1 d2 s4,
    resourceAwstagEC2TagCreate (λ s, s) (λ s, s) example_tag {[ ("i-2", "role") := "etcd" ]} = (s2, d1, None) ∧
    resourceAwstagEC2TagRead d1 example_tags = (d2, None) ∧ d2 = d1 ∧
    resourceAwstagEC2TagDelete d2 example_tags = (s4, None) ∧ tags_of s4 = delete ("i-1", "role") example_tags.
Proof.
  destruct (resourceAwstagEC2TagCreate (λ s, s) (λ s, s) example_tag {[ ("i-2", "role") := "etcd" ]}) as [[s2 d1] e] eqn:Hc.
  assert (e = None) as -> by (by injection Hc).
  destruct (resourceAwstagEC2TagRead d1 example_tags) as [d2 e] eqn:Hr.
  assert (e = None) as -> by (unfold resourceAwstagEC2TagRead in Hr; cbn in Hr; case_match; by injection Hr).
  destruct (resourceAwstagEC2TagDelete d2 example_tags) as [s4 e] eqn:Hd. assert (e = None) as -> by (by injection Hd).
  destruct (ec2_tag_correct (λ s, s) (λ s, s) example_tag _ s2 d1 example_tags d2 s4 ltac:(done) Hc Hr Hd)
    as (_ & _ & _ & Heq & _ & Hgone).
  exists s2, d1, d2, s4. by split_and!; [..|apply Heq; reflexivity| |].
Defined.

Lemma import_fails_witness : td_id (resourceAwstagEC2TagRead (imported "id") example_tags).1 = "".
Proof.
  destruct (resourceAwstagEC2TagRead (imported "id") example_tags) as [d e] eqn:Hr.
  assert (e = None) as -> by (unfold resourceAwstagEC2TagRead in Hr; cbn in Hr; case_match; by injection Hr).
  apply (import_fails example_tags "id" d); [|done]. intros k. change (example_tags !! ("", k) = None). unfold example_tags.
  rewrite lookup_insert_ne by done. by apply lookup_singleton_ne.
Defined.
