(* ===== verification/Calls.v ===== *)
(** * Calls: programs of calls to the outside

    Code that is a sequence of calls to a service (AWS, Terraform, the file
    system, a person at the terminal) is a program [Prog R A]: it returns,
    panics, or makes a call [c] and goes on with the answer, of type [R c].
    What answers is a handler with a state of its own.  [safe] is the
    specification the components prove of such programs, and [safe_run] what
    it says about every handler. *)

From S2P Require Import Prelude.

Inductive Prog {C : Type} (R : C → Type) (A : Type) : Type :=
| PRet (a : A)
| PPanic
| PCall (c : C) (k : R c → Prog R A).
Arguments PRet {_ _ _} _.
Arguments PPanic {_ _ _}.
Arguments PCall {_ _ _} _ _.

(** A call with its answer. *)
Record event {C : Type} (R : C → Type) := Ev { ev_call : C; ev_answer : R ev_call }.
Arguments Ev {_ _} _ _.
Arguments ev_call {_ _} _.
Arguments ev_answer {_ _} _.

Section Programs.
Context {C : Type} {R : C → Type}.

Fixpoint pbind {A B} (m : Prog R A) (f : A → Prog R B) : Prog R B :=
  match m with
  | PRet a => f a
  | PPanic => PPanic
  | PCall c k => PCall c (λ a, pbind (k a) f)
  end.

#[global] Instance Prog_ret : MRet (Prog R) := λ A a, PRet a.
#[global] Instance Prog_bind : MBind (Prog R) := λ A B f m, pbind m f.

Definition call (c : C) : Prog R (R c) := PCall c PRet.

Definition deref_prog {A} (p : option A) : Prog R A :=
  match p with Some a => PRet a | None => PPanic end.

(** Running a program: the events, the state of the handler and the result. *)
Fixpoint run {S A} (handle : ∀ c, S → S * R c) (m : Prog R A) (s : S) : list (event R) * S * GoM A :=
  match m with
  | PRet a => ([], s, Ret a)
  | PPanic => ([], s, Panic)
  | PCall c k =>
      let '(s', a) := handle c s in
      let '(es, s'', r) := run handle (k a) s' in
      (Ev c a :: es, s'', r)
  end.

(** [safe P h m Q]: after the events [h], every call of [m] is allowed by [P]
    given the events before it, and a result satisfies [Q]. *)
Fixpoint safe {A} (P : list (event R) → C → Prop) (h : list (event R)) (m : Prog R A)
    (Q : list (event R) → A → Prop) : Prop :=
  match m with
  | PRet a => Q h a
  | PPanic => True
  | PCall c k => P h c ∧ ∀ a, safe P (h ++ [Ev c a]) (k a) Q
  end.

Lemma safe_bind {A B} P h (m : Prog R A) (f : A → Prog R B) Q :
  safe P h m (λ h' a, safe P h' (f a) Q) → safe P h (m ≫= f) Q.
Proof.
  unfold mbind, Prog_bind. revert h; induction m as [a| |c k IH]; intros h; cbn; [done..|].
  intros [Hp Hk]; split; [done|]. intros a; apply IH, Hk.
Qed.

Lemma safe_mono {A} P h (m : Prog R A) (Q Q' : list (event R) → A → Prop) :
  safe P h m Q → (∀ h' a, h ⊆ h' → Q h' a → Q' h' a) → safe P h m Q'.
Proof.
  revert h; induction m as [a| |c k IH]; intros h; cbn; [by intros HQ HQ'; apply HQ'|done|].
  intros [Hp Hk] HQ; split; [done|]. intros a; apply (IH a _ (Hk a)).
  intros h' b Hsub; apply HQ. intros e He; apply Hsub, elem_of_app; by left.
Qed.

Lemma safe_call {A} (P : list (event R) → C → Prop) h c (k : R c → Prog R A) Q :
  P h c → (∀ a, safe P (h ++ [Ev c a]) (k a) Q) → safe P h (call c ≫= k) Q.
Proof. done. Qed.

(** A program that is safe on its own is safe after any events, with what it
    may do and what it promises told of its own events. *)
Lemma safe_shift {A} (P : list (event R) → C → Prop) h0 h (m : Prog R A) Q :
  safe P h m Q →
  safe (λ h' c, ∃ h1, h' = h0 ++ h1 ∧ P h1 c) (h0 ++ h) m (λ h' a, ∃ h1, h' = h0 ++ h1 ∧ Q h1 a).
Proof.
  revert h; induction m as [a| |c k IH]; intros h; cbn; [by eauto|done|].
  intros [Hp Hk]. split; [by exists h|]. intros a. rewrite <- app_assoc. by apply IH.
Qed.

(** More may be allowed. *)
Lemma safe_allow {A} (P P' : list (event R) → C → Prop) h (m : Prog R A) Q :
  safe P h m Q → (∀ h' c, P h' c → P' h' c) → safe P' h m Q.
Proof. intros Hm HP. revert h Hm. induction m as [a| |c k IH]; intros h; cbn; [done..|]. intros [Hc Hk]. split; auto. Qed.

(** Every run of a safe program makes allowed calls only. *)
Lemma safe_run {S A} (handle : ∀ c, S → S * R c) P h (m : Prog R A) Q s :
  safe P h m Q →
  let '(es, _, r) := run handle m s in
  (∀ es1 e es2, es = es1 ++ e :: es2 → P (h ++ es1) (ev_call e)) ∧ (∀ a, r = Ret a → Q (h ++ es) a).
Proof.
  revert h s; induction m as [a| |c k IH]; intros h s; cbn.
  - intros HQ; split; [by intros [] ? ?|]. intros ? [= <-]; by rewrite app_nil_r.
  - intros _; split; [by intros [] ? ?|done].
  - intros [Hp Hk]. destruct (handle c s) as [s1 a]. specialize (IH a (h ++ [Ev c a]) s1 (Hk a)).
    destruct (run handle (k a) s1) as [[es s2] r]. destruct IH as [IH1 IH2]. split.
    + intros [|e1 es1] e es2 [= <- E]; [by rewrite app_nil_r|].
      specialize (IH1 es1 e es2 E). by rewrite <-app_assoc in IH1.
    + intros b Hb; specialize (IH2 b Hb). by rewrite <-app_assoc in IH2.
Qed.

(** Running two programs one after the other. *)
Lemma run_bind {S A B} (handle : ∀ c, S → S * R c) (m : Prog R A) (f : A → Prog R B) s es s1 a es2 s2 r :
  run handle m s = (es, s1, Ret a) → run handle (f a) s1 = (es2, s2, r) →
  run handle (m ≫= f) s = (es ++ es2, s2, r).
Proof.
  unfold mbind, Prog_bind. revert s es. induction m as [b| |c k IH]; intros s es; cbn; [|done|].
  - by intros [= <- <- <-] ->.
  - destruct (handle c s) as [s0 x]. destruct (run handle (k x) s0) as [[es0 s0'] r0] eqn:E.
    intros [= <- <- ->] Hf. by rewrite (IH x s0 es0 E Hf).
Qed.

(** Where an event is in a history that grows. *)
Lemma in_last (h : list (event R)) e : e ∈ h ++ [e].
Proof. apply elem_of_app; right; left. Qed.

Lemma in_before (h : list (event R)) e e' : e ∈ h → e ∈ h ++ [e'].
Proof. intros; apply elem_of_app; by left. Qed.

Lemma sub_snoc (h : list (event R)) e : h ⊆ h ++ [e].
Proof. intros x Hx; by apply in_before. Qed.

End Programs.

(** ** Programs in programs

    Two kinds of calls, and a program of one kind as part of one of both. *)
Section Lifting.
Context {C D : Type} {R : C → Type} {R' : D → Type}.

Definition both (c : C + D) : Type := match c with inl c => R c | inr d => R' d end.

Fixpoint lift {A} (m : Prog R A) : Prog both A :=
  match m with
  | PRet a => PRet a
  | PPanic => PPanic
  | PCall c k => PCall (R := both) (inl c) (λ a, lift (k a))
  end.

Definition left_event (e : event both) : option (event R) :=
  match e with
  | Ev c a => match c return both c → option (event R) with inl c => λ a, Some (Ev c a) | inr _ => λ _, None end a
  end.

(** The events of the first kind. *)
Definition left_events (h : list (event both)) : list (event R) := omap left_event h.

(** A lifted program keeps its promise, and makes no call but its own. *)
Lemma lift_safe {A} (P : list (event R) → C → Prop) (P' : list (event both) → C + D → Prop) h (m : Prog R A) Q :
  safe P (left_events h) m Q → (∀ h c, P (left_events h) c → P' h (inl c)) →
  safe P' h (lift m) (λ h' a, Q (left_events h') a ∧ ∀ e, e ∈ h' → e ∈ h ∨ ∃ c a, e = Ev (R := both) (inl c) a).
Proof.
  intros Hm HP. revert h Hm. induction m as [a| |c k IH]; intros h; cbn; [by auto|done|]. intros [Hc Hk]. split; [by apply HP|].
  intros a. eapply safe_mono; [apply IH; unfold left_events; rewrite omap_app; apply Hk|]. intros h' b _ [HQ He]. split; [done|].
  intros e [[Hin| ->%list_elem_of_singleton]%elem_of_app|?]%He; [by left|right; eauto|by right].
Qed.

(** An event of the second kind adds none of the first. *)
Lemma left_events_right h d a : left_events (h ++ [Ev (R := both) (inr d) a]) = left_events h.
Proof. unfold left_events. rewrite omap_app. cbn. apply app_nil_r. Qed.
End Lifting.
Arguments both {_ _} _ _ _.

Create HintDb events.
#[export] Hint Resolve in_last in_before : events.
