(* ===== verification/AwsProvider.v ===== *)
(** * AwsProvider: the AWS client of the tag provider

    [src/pkg/terraform/providers/awstag]: how the configuration of the provider
    becomes a client ([config.go], [providerConfigure] of [provider.go]), where
    its credentials come from and which account they belong to
    ([auth_helpers.go]).

    Everything outside (environment variables, the metadata service, the chain
    of credentials, IAM, STS and EC2) is asked in calls.  Of the connections
    the client has to the services of AWS only the one to EC2 is kept here, the
    only one a resource of the provider uses; timeouts and logging are left
    out. *)

From S2P Require Import Prelude Net Calls.

(** An error of the SDK: its code, if it is one of AWS, and its text. *)
Record aerr := { ae_code : option string; ae_msg : string }.

Definition ae_error (e : aerr) : error := Errorf (ae_msg e).

(** ** The configuration *)
Record PConfig := {
  pc_AccessKey : string;
  pc_SecretKey : string;
  pc_CredsFilename : string;
  pc_Profile : string;
  pc_Token : string;
  pc_Region : string;
  pc_MaxRetries : Z;
  pc_AssumeRoleARN : string;
  pc_AssumeRoleExternalID : string;
  pc_AssumeRoleSessionName : string;
  pc_AssumeRolePolicy : string;
  pc_AllowedAccountIds : option (list string);
  pc_ForbiddenAccountIds : option (list string);
  pc_Ec2Endpoint : string;
  pc_Insecure : bool;
  pc_SkipCredsValidation : bool;
  pc_SkipGetEC2Platforms : bool;
  pc_SkipRegionValidation : bool;
  pc_SkipRequestingAccountId : bool;
  pc_SkipMetadataApiCheck : bool;
  pc_S3ForcePathStyle : bool;
}.

(** ** Credentials *)
Inductive CredProvider :=
| StaticProvider (accessKey secretKey token : string)
| EnvProvider
| SharedCredentialsProvider (filename profile : string)
| RemoteCredProvider (endpoint : string)
| EC2RoleProvider (endpoint : string).

Inductive Credentials :=
| Chain (providers : list CredProvider)
| AssumeRole (base : list CredProvider) (arn sessionName : string) (externalID policy : option string).

(** [session.Options], as far as it is set. *)
Record Options := {
  op_region : string;
  op_creds : option Credentials;
  op_profile : string;
  op_shared : bool;
  op_insecure : bool;
}.

Inductive pcall : Type :=
| CGetenv (name : string)
| CMetadataAvailable (endpoint : string)
| CGet (creds : Credentials)
| CNewSession (opt : Options)
| CMetadataSession (endpoint : string)
| CIAMInfo
| CGetUser
| CGetCallerIdentity
| CListRoles
| CDescribeAccountAttributes (name : string).

(** A pointer that may be nil is an option. *)
Definition panswer (c : pcall) : Type :=
  match c with
  | CGetenv _ => string
  | CMetadataAvailable _ => bool
  | CGet _ => string + aerr
  | CNewSession _ | CMetadataSession _ => option aerr
  | CIAMInfo => string + aerr
  | CGetUser | CGetCallerIdentity => option string + aerr
  | CListRoles => list (option string) + aerr
  | CDescribeAccountAttributes _ => list (string * list string) + aerr
  end.

Abbreviation PM := (Prog panswer).

(** ** auth_helpers.go *)

Definition parseAccountInfoFromArn (arn : string) : (string * string) + error :=
  match Split ":" arn with
  | _ :: partition :: _ :: _ :: accountId :: _ => inl (partition, accountId)
  | _ => inr (Errorf ("Unable to parse ID from invalid ARN: " +:+ arn))
  end.

Definition setOptionalEndpoint : PM string := call (CGetenv "AWS_METADATA_URL").

Definition EC2RoleProviderName : string := "EC2RoleProvider".

(** Codes of users that may not ask who they are. *)
Definition ignored_code (e : aerr) : bool :=
  match ae_code e with
  | Some code => bool_decide (code ∈ ["AccessDenied"; "ValidationError"; "InvalidClientTokenId"])
  | None => false
  end.

Definition all_failed : error := Errorf "Failed getting account ID via all available methods.".

(** The last two ways to the account. *)
Definition account_by_sts_or_roles : PM ((string * string) + error) :=
  r ← call CGetCallerIdentity;
  match r with
  | inl arn => arn ← deref_prog arn; mret (parseAccountInfoFromArn arn)
  | inr _ =>
      r ← call CListRoles;
      match r with
      | inr _ => mret (inr all_failed)
      | inl [] => mret (inr all_failed)
      | inl (arn :: _) => arn ← deref_prog arn; mret (parseAccountInfoFromArn arn)
      end
  end.

Definition GetAccountInfo (authProviderName : string) : PM ((string * string) + error) :=
  if decide (authProviderName = EC2RoleProviderName) then
    endpoint ← setOptionalEndpoint;
    err ← call (CMetadataSession endpoint);
    match err with
    | Some err => mret (inr (Errorf ("Error creating AWS session: " +:+ ae_msg err)))
    | None =>
        r ← call CIAMInfo;
        match r with
        | inl arn => mret (parseAccountInfoFromArn arn)
        | inr _ => account_by_sts_or_roles
        end
    end
  else
    r ← call CGetUser;
    match r with
    | inl arn => arn ← deref_prog arn; mret (parseAccountInfoFromArn arn)
    | inr err =>
        if ignored_code err then account_by_sts_or_roles
        else mret (inr (Errorf ("Failed getting account ID via 'iam:GetUser': " +:+ ae_msg err)))
    end.

Definition no_credentials : error := Errorf "No valid credential sources found for AWS Provider.".

Definition no_provider (e : aerr) : bool := bool_decide (ae_code e = Some "NoCredentialProviders").

Definition nonempty_option (s : string) : option string := if decide (s = "") then None else Some s.

(** The chain of providers. *)
Definition credential_chain (c : PConfig) : PM (list CredProvider) :=
  let providers := [StaticProvider (pc_AccessKey c) (pc_SecretKey c) (pc_Token c); EnvProvider;
                    SharedCredentialsProvider (pc_CredsFilename c) (pc_Profile c)] in
  endpoint ← setOptionalEndpoint;
  uri ← call (CGetenv "AWS_CONTAINER_CREDENTIALS_RELATIVE_URI");
  let providers := if decide ((uri : string) = "") then providers else providers ++ [RemoteCredProvider endpoint] in
  if pc_SkipMetadataApiCheck c then mret providers
  else
    available ← call (CMetadataAvailable endpoint);
    mret (if (available : bool) then providers ++ [EC2RoleProvider endpoint] else providers).

Definition GetCredentials (c : PConfig) : PM (Credentials + error) :=
  providers ← credential_chain c;
  if decide (pc_AssumeRoleARN c = "") then mret (inl (Chain providers))
  else
    r ← call (CGet (Chain providers));
    match r with
    | inr err => mret (inr (if no_provider err then no_credentials
                            else Errorf ("Error loading credentials for AWS Provider: " +:+ ae_msg err)))
    | inl _ =>
        let creds := AssumeRole providers (pc_AssumeRoleARN c) (pc_AssumeRoleSessionName c)
                       (nonempty_option (pc_AssumeRoleExternalID c)) (nonempty_option (pc_AssumeRolePolicy c)) in
        r ← call (CGet creds);
        match r with
        | inr err => mret (inr (if no_provider err then Errorf ("The role " +:+ pc_AssumeRoleARN c +:+ " cannot be assumed.")
                                else Errorf ("Error loading credentials for AWS Provider: " +:+ ae_msg err)))
        | inl _ => mret (inl creds)
        end
    end.

(** ** config.go *)

Definition valid_regions : list string :=
  ["ap-northeast-1"; "ap-northeast-2"; "ap-south-1"; "ap-southeast-1"; "ap-southeast-2"; "ca-central-1"; "cn-north-1";
   "eu-central-1"; "eu-west-1"; "eu-west-2"; "eu-west-3"; "sa-east-1"; "us-east-1"; "us-east-2"; "us-gov-west-1";
   "us-west-1"; "us-west-2"].

Definition ValidateRegion (c : PConfig) : option error :=
  if decide (pc_Region c ∈ valid_regions) then None else Some (Errorf ("Not a valid region: " +:+ pc_Region c)).

Definition ValidateCredentials : PM (option error) :=
  r ← call CGetCallerIdentity;
  mret match r with inl _ => None | inr err => Some (ae_error err) end.

(** A nil list is [None]. *)
Definition ValidateAccountId (c : PConfig) (accountId : string) : option error :=
  if decide (accountId ∈ default [] (pc_ForbiddenAccountIds c)) then
    Some (Errorf ("Forbidden account ID (" +:+ accountId +:+ ")"))
  else match pc_AllowedAccountIds c with
       | Some allowed =>
           if decide (accountId ∈ allowed) then None else Some (Errorf ("Account ID not allowed (" +:+ accountId +:+ ")"))
       | None => None
       end.

(** The values of the first attribute of the name. *)
Definition platforms_of (attrName : string) (attributes : list (string * list string)) : list string :=
  match list_find (λ a, a.1 = attrName) attributes with Some (_, (_, vs)) => vs | None => [] end.

Definition GetSupportedEC2Platforms : PM (list string + error) :=
  r ← call (CDescribeAccountAttributes "supported-platforms");
  mret match r with
       | inr err => inr (ae_error err)
       | inl attributes =>
           match platforms_of "supported-platforms" attributes with
           | [] => inr (Errorf "No EC2 platforms detected")
           | platforms => inl platforms
           end
       end.

Record AWSClient := {
  aw_region : string;
  aw_partition : string;
  aw_accountid : string;
  aw_supportedplatforms : list string;
  aw_session : Options;
  aw_maxRetries : Z;
  aw_ec2_endpoint : string;
}.

Definition IsGovCloud (c : AWSClient) : bool := bool_decide (aw_region c = "us-gov-west-1").
Definition IsChinaCloud (c : AWSClient) : bool := bool_decide (aw_region c = "cn-north-1").
Definition hasEc2Classic (platforms : list string) : bool := bool_decide ("EC2" ∈ platforms).

(** The session of the client, with the name of the provider of its
    credentials; it is empty when a profile is used. *)
Definition client_session (c : PConfig) : PM ((Options * string) + error) :=
  r ← GetCredentials c;
  match r with
  | inr err => mret (inr err)
  | inl creds =>
      let opt := {| op_region := pc_Region c; op_creds := None; op_profile := ""; op_shared := false;
                    op_insecure := pc_Insecure c |} in
      cp ← call (CGet creds);
      let go (opt : Options) (name : string) : PM ((Options * string) + error) :=
        err ← call (CNewSession opt);
        mret match err with
             | Some err => inr (if no_provider err then no_credentials else Errorf ("Error creating AWS session: " +:+ ae_msg err))
             | None => inl (opt, name)
             end in
      match cp with
      | inl name => go {| opt with op_creds := Some creds |} name
      | inr err =>
          if no_provider err then
            if decide (pc_Profile c = "") then mret (inr no_credentials)
            else go {| opt with op_profile := pc_Profile c; op_shared := true |} ""
          else mret (inr (Errorf ("Error loading credentials for AWS Provider: " +:+ ae_msg err)))
      end
  end.

(** The account; an error to find it is ignored. *)
Definition client_account (c : PConfig) (name : string) : PM (string * string) :=
  if pc_SkipRequestingAccountId c then mret ("", "")
  else
    r ← GetAccountInfo name;
    mret match r with inl info => info | inr _ => ("", "") end.

Definition Client (c : PConfig) : PM (AWSClient + error) :=
  match (if pc_SkipRegionValidation c then None else ValidateRegion c) with
  | Some err => mret (inr err)
  | None =>
      r ← client_session c;
      match r with
      | inr err => mret (inr err)
      | inl (opt, name) =>
          err ← (if pc_SkipCredsValidation c then mret None else ValidateCredentials);
          match err with
          | Some err => mret (inr err)
          | None =>
              info ← client_account c name;
              match ValidateAccountId c info.2 with
              | Some err => mret (inr err)
              | None =>
                  platforms ← (if pc_SkipGetEC2Platforms c then mret []
                               else r ← GetSupportedEC2Platforms; mret match r with inl ps => ps | inr _ => [] end);
                  mret (inl {| aw_region := pc_Region c; aw_partition := info.1; aw_accountid := info.2;
                               aw_supportedplatforms := platforms; aw_session := opt;
                               aw_maxRetries := if (0 <? pc_MaxRetries c)%Z then pc_MaxRetries c else 0%Z;
                               aw_ec2_endpoint := pc_Ec2Endpoint c |})
              end
          end
      end
  end.

(** ** provider.go *)

(** What the configuration of the provider says; sets are lists. *)
Record PData := {
  pd_config : PConfig;                              (* the plain fields *)
  pd_shared_credentials_file : string;
  pd_assume_role : list (string * string * string * string);
  pd_endpoints : list (gmap string string);
  pd_allowed_account_ids : list string;
  pd_forbidden_account_ids : list string;
}.

(** [d.GetOk]: an empty set is not set. *)
Definition set_option (l : list string) : option (list string) := match l with [] => None | _ => Some l end.

Definition with_assume_role (roles : list (string * string * string * string)) (c : PConfig) : PConfig :=
  match roles with
  | [(arn, sessionName, externalID, policy)] =>
      {| c with pc_AssumeRoleARN := arn; pc_AssumeRoleSessionName := sessionName;
                pc_AssumeRoleExternalID := externalID; pc_AssumeRolePolicy := policy |}
  | _ => {| c with pc_AssumeRoleARN := ""; pc_AssumeRoleSessionName := ""; pc_AssumeRoleExternalID := "";
                   pc_AssumeRolePolicy := "" |}
  end.

Definition provider_config (Expand : string → string + error) (d : PData) : PConfig + error :=
  match Expand (pd_shared_credentials_file d) with
  | inr err => inr err
  | inl credsPath =>
      let c := with_assume_role (pd_assume_role d) {| (pd_config d) with pc_CredsFilename := credsPath |} in
      let c := foldl (λ c es, {| c with pc_Ec2Endpoint := default "" (es !! "ec2") |}) {| c with pc_Ec2Endpoint := "" |} (pd_endpoints d) in
      inl {| c with pc_AllowedAccountIds := set_option (pd_allowed_account_ids d);
                    pc_ForbiddenAccountIds := set_option (pd_forbidden_account_ids d) |}
  end.

Definition providerConfigure (Expand : string → string + error) (d : PData) : PM (AWSClient + error) :=
  match provider_config Expand d with
  | inr err => mret (inr err)
  | inl config => Client config
  end.

(** ** What a client is *)
Section spec.
Context (c : PConfig).
Abbreviation events := (list (event panswer)).
Abbreviation E x a := (Ev (R := panswer) x a).

(** AWS has named an ARN of the credentials. *)
Definition reported_arn (h : events) (arn : string) : Prop :=
  E CIAMInfo (inl arn) ∈ h ∨ E CGetUser (inl (Some arn)) ∈ h ∨ E CGetCallerIdentity (inl (Some arn)) ∈ h ∨
  ∃ roles, E CListRoles (inl (Some arn :: roles)) ∈ h.

(** The chain starts with what is configured. *)
Definition configured_chain (providers : list CredProvider) : Prop :=
  [StaticProvider (pc_AccessKey c) (pc_SecretKey c) (pc_Token c); EnvProvider;
   SharedCredentialsProvider (pc_CredsFilename c) (pc_Profile c)] `prefix_of` providers.

Definition configured_creds (h : events) (creds : Credentials) : Prop :=
  match creds with
  | Chain providers => configured_chain providers
  | AssumeRole base arn sessionName externalID policy =>
      configured_chain base ∧ arn = pc_AssumeRoleARN c ∧ arn ≠ "" ∧ sessionName = pc_AssumeRoleSessionName c ∧
      externalID = nonempty_option (pc_AssumeRoleExternalID c) ∧ policy = nonempty_option (pc_AssumeRolePolicy c) ∧
      ∃ name, E (CGet (Chain base)) (inl name) ∈ h
  end.

(** Credentials that are not those of the role, when there is one to assume,
    serve only to assume it. *)
Definition final_creds (h : events) (creds : Credentials) : Prop :=
  configured_creds h creds ∧ match creds with Chain _ => pc_AssumeRoleARN c = "" | AssumeRole _ _ _ _ _ => True end.

Definition may_ask (h : events) (x : pcall) : Prop :=
  match x with
  | CGetenv _ => True
  | CMetadataAvailable _ => pc_SkipMetadataApiCheck c = false
  | CGet creds => configured_creds h creds
  | CNewSession opt =>
      op_region opt = pc_Region c ∧ op_insecure opt = pc_Insecure c ∧
      match op_creds opt with
      | Some creds => final_creds h creds ∧ ∃ name, E (CGet creds) (inl name) ∈ h
      | None => op_profile opt = pc_Profile c ∧ pc_Profile c ≠ "" ∧
                ∃ creds err, final_creds h creds ∧ E (CGet creds) (inr err) ∈ h ∧ no_provider err = true
      end
  | CMetadataSession _ | CIAMInfo | CGetUser | CListRoles => pc_SkipRequestingAccountId c = false
  | CGetCallerIdentity => pc_SkipCredsValidation c = false ∨ pc_SkipRequestingAccountId c = false
  | CDescribeAccountAttributes _ => pc_SkipGetEC2Platforms c = false
  end.

(** Going on after a part: what [part] promises holds of the result, after
    more events. *)
Definition part {A} (h : events) (m : PM A) (Q : events → A → Prop) : Prop :=
  safe may_ask h m (λ h' a, h ⊆ h' ∧ Q h' a).

Lemma client_part_bind {A B} h (m : PM A) (f : A → PM B) Q Q' :
  part h m Q → (∀ h' a, h ⊆ h' → Q h' a → part h' (f a) Q') → part h (m ≫= f) Q'.
Proof.
  intros Hm Hf. apply safe_bind. eapply safe_mono; [exact Hm|]. intros h1 a _ [Hsub Ha].
  eapply safe_mono; [by apply Hf|]. intros h2 b _ [? ?]. split; [by etrans|done].
Qed.

Lemma part_call {B} h x (f : panswer x → PM B) Q :
  may_ask h x → (∀ a, part (h ++ [E x a]) (f a) Q) → part h (call x ≫= f) Q.
Proof.
  intros Hx Hf. apply safe_call; [done|]. intros a. eapply safe_mono; [apply Hf|]. intros h' b _ [? ?].
  split; [etrans; [apply sub_snoc|done]|done].
Qed.

Lemma part_ret {A} h (a : A) (Q : events → A → Prop) : Q h a → part h (mret a) Q.
Proof. by split. Qed.

Lemma part_deref {A B} h (p : option A) (f : A → PM B) Q :
  (∀ a, p = Some a → part h (f a) Q) → part h (deref_prog p ≫= f) Q.
Proof. destruct p; [|done]. intros Hf. by apply Hf. Qed.

Lemma part_mono {A} h (m : PM A) (Q Q' : events → A → Prop) :
  part h m Q → (∀ h' a, h ⊆ h' → Q h' a → Q' h' a) → part h m Q'.
Proof. intros Hm HQ. eapply safe_mono; [exact Hm|]. intros h' a _ [? ?]. split; [done|by apply HQ]. Qed.

Lemma configured_creds_mono h h' creds : h ⊆ h' → configured_creds h creds → configured_creds h' creds.
Proof.
  intros Hs. destruct creds as [ps|base arn sn ext pol]; [done|]. cbn. intros (? & ? & ? & ? & ? & ? & name & ?).
  split_and!; [done..|]. exists name. auto.
Qed.

Lemma final_creds_mono h h' creds : h ⊆ h' → final_creds h creds → final_creds h' creds.
Proof. intros Hs [? ?]. split; [by eapply configured_creds_mono|done]. Qed.

Lemma reported_mono h h' arn : h ⊆ h' → reported_arn h arn → reported_arn h' arn.
Proof. intros Hs [?|[?|[?|(rs & ?)]]]; unfold reported_arn; eauto 10. Qed.

(** ** The credentials *)
Lemma credential_chain_part h : part h (credential_chain c) (λ _, configured_chain).
Proof.
  (* every provider that is found is added at the end *)
  unfold credential_chain. apply part_call; [done|]. intros endpoint. apply part_call; [done|]. intros uri.
  set (ps := if decide _ then _ else _). assert (configured_chain ps) as Hps.
  { unfold ps, configured_chain. case_decide; [reflexivity|]. by apply prefix_app_r. }
  destruct (pc_SkipMetadataApiCheck c) eqn:Hskip; [by apply part_ret|]. apply part_call; [done|]. intros [].
  - apply part_ret. by apply prefix_app_r.
  - by apply part_ret.
Qed.

Lemma GetCredentials_part h : part h (GetCredentials c) (λ h' r, ∀ creds, r = inl creds → final_creds h' creds).
Proof.
  unfold GetCredentials. eapply client_part_bind; [apply credential_chain_part|]. intros h1 ps _ Hps.
  case_decide as Hrole; [apply part_ret; intros ? [= <-]; by split|].
  apply part_call; [done|]. intros [name|err]; [|by apply part_ret].
  set (e := E (CGet (Chain ps)) _). set (creds := AssumeRole _ _ _ _ _).
  assert (final_creds (h1 ++ [e]) creds) as Hc by (split; [|done]; cbn; split_and!; [done..|]; exists name; apply in_last).
  apply part_call; [apply Hc|]. intros [name2|err2]; apply part_ret; [|done]. intros ? [= <-].
  eapply final_creds_mono; [apply sub_snoc|done].
Qed.

Lemma client_session_part h :
  part h (client_session c) (λ h' r, ∀ opt name, r = inl (opt, name) → E (CNewSession opt) None ∈ h').
Proof.
  unfold client_session. eapply client_part_bind; [apply GetCredentials_part|]. intros h1 [creds|err] _ Hc; [|by apply part_ret].
  specialize (Hc creds eq_refl). apply part_call; [apply Hc|]. intros cp. set (e := E (CGet creds) cp). cbv zeta.
  assert (∀ opt (name : string), may_ask (h1 ++ [e]) (CNewSession opt) →
    part (h1 ++ [e]) (err ← call (CNewSession opt);
      mret match err with
           | Some err => inr (if no_provider err then no_credentials else Errorf ("Error creating AWS session: " +:+ ae_msg err))
           | None => inl (opt, name)
           end) (λ h0 (r : (Options * string) + error), ∀ opt name, r = inl (opt, name) → E (CNewSession opt) None ∈ h0)) as Hgo.
  { intros opt name Ho. apply part_call; [done|]. intros [err|]; apply part_ret; [done|]. intros ? ? [= <- <-]. apply in_last. }
  pose proof (final_creds_mono _ _ _ (sub_snoc h1 e) Hc) as Hc'. destruct cp as [name|err].
  - apply Hgo. cbn. split_and!; [done..|]. exists name. apply in_last.
  - destruct (no_provider err) eqn:Hnp; [|by apply part_ret]. case_decide; [by apply part_ret|]. apply Hgo. cbn.
    split_and!; [done..|]. exists creds, err. split_and!; [done|apply in_last|done].
Qed.

(** ** The account *)
Definition account_of (h : events) (r : (string * string) + error) : Prop :=
  ∀ info, r = inl info → ∃ arn, reported_arn h arn ∧ parseAccountInfoFromArn arn = inl info.

Lemma account_of_arn h arn : reported_arn h arn → account_of h (parseAccountInfoFromArn arn).
Proof. intros Hr info Hi. by exists arn. Qed.

Lemma GetAccountInfo_part h name : pc_SkipRequestingAccountId c = false → part h (GetAccountInfo name) account_of.
Proof.
  intros Hskip. assert (∀ h, part h account_by_sts_or_roles account_of) as Hrest.
  { intros h'. apply part_call; [by right|]. intros [arn|err].
    { apply part_deref. intros a ->. apply part_ret, account_of_arn. right; right; left. apply in_last. }
    apply part_call; [done|]. intros [[|arn roles]|err2]; [by apply part_ret| |by apply part_ret].
    apply part_deref. intros a ->. apply part_ret, account_of_arn. right; right; right. exists roles. apply in_last. }
  unfold GetAccountInfo. case_decide.
  - apply part_call; [done|]. intros endpoint. apply part_call; [done|]. intros [err|]; [by apply part_ret|].
    apply part_call; [done|]. intros [arn|err]; [|apply Hrest]. apply part_ret, account_of_arn. left. apply in_last.
  - apply part_call; [done|]. intros [arn|err].
    + apply part_deref. intros a ->. apply part_ret, account_of_arn. right; left. apply in_last.
    + destruct (ignored_code err); [apply Hrest|by apply part_ret].
Qed.

Lemma client_account_part h name :
  part h (client_account c name) (λ h' info, info = ("", "") ∨
    pc_SkipRequestingAccountId c = false ∧ ∃ arn, reported_arn h' arn ∧ parseAccountInfoFromArn arn = inl info).
Proof.
  unfold client_account. destruct (pc_SkipRequestingAccountId c) eqn:Hskip; [by apply part_ret; left|].
  eapply client_part_bind; [by apply GetAccountInfo_part|]. intros h1 [info|err] _ Hinfo; apply part_ret; [right|by left].
  split; [done|]. by apply Hinfo.
Qed.

(** ** The client *)

(** The account may be used: it is not forbidden, and it is allowed when only
    some are. *)
Definition account_ok (accountid : string) : Prop :=
  (∀ ids, pc_ForbiddenAccountIds c = Some ids → accountid ∉ ids) ∧
  (∀ ids, pc_AllowedAccountIds c = Some ids → accountid ∈ ids).

Lemma ValidateAccountId_spec accountid : ValidateAccountId c accountid = None ↔ account_ok accountid.
Proof.
  unfold ValidateAccountId, account_ok.
  destruct (pc_ForbiddenAccountIds c) as [bad|], (pc_AllowedAccountIds c) as [good|]; cbn; repeat case_decide; naive_solver set_solver.
Qed.

(** A client is for the configured region and one of AWS, has a session that
    was made, and an account AWS has named, or none, that may be used. *)
Record client_ok (h : events) (cl : AWSClient) : Prop := {
  co_region : aw_region cl = pc_Region c;
  co_valid : pc_SkipRegionValidation c = false → aw_region cl ∈ valid_regions;
  co_session : E (CNewSession (aw_session cl)) None ∈ h;
  co_creds : pc_SkipCredsValidation c = false → ∃ who, E CGetCallerIdentity (inl who) ∈ h;
  co_account : aw_accountid cl = "" ∨
    ∃ arn, reported_arn h arn ∧ parseAccountInfoFromArn arn = inl (aw_partition cl, aw_accountid cl);
  co_allowed : account_ok (aw_accountid cl);
}.

End spec.

(** ** A forbidden account that is not recognised *)

(** AWS accepts the credentials, which are of [arn], but is too busy to answer
    [iam:GetUser]. *)
Definition busy (arn : string) (x : pcall) (_ : unit) : unit * panswer x :=
  ((), match x return panswer x with
       | CGetenv _ => ""
       | CMetadataAvailable _ => false
       | CGet _ => inl "StaticProvider"
       | CNewSession _ | CMetadataSession _ => None
       | CIAMInfo => inl arn
       | CGetUser => inr {| ae_code := Some "Throttling"; ae_msg := "Rate exceeded" |}
       | CGetCallerIdentity => inl (Some arn)
       | CListRoles => inl []
       | CDescribeAccountAttributes _ => inl []
       end).

(** The list of forbidden accounts does not keep the provider from a forbidden
    account: an account that is not known is not in the list. *)
Lemma forbidden_fails_open c arn :
  pc_Region c ∈ valid_regions → pc_AllowedAccountIds c = None → "" ∉ default [] (pc_ForbiddenAccountIds c) →
  ∃ es cl, run (busy arn) (Client c) () = (es, (), Ret (inl cl)) ∧ aw_accountid cl = "".
Proof.
  intros Hregion Hallowed Hforbidden. unfold Client.
  assert ((if pc_SkipRegionValidation c then None else ValidateRegion c) = None) as ->.
  { destruct (pc_SkipRegionValidation c); [done|]. unfold ValidateRegion. by rewrite decide_True. }
  assert (ValidateAccountId c "" = None) as Hval.
  { apply ValidateAccountId_spec. split; [|by rewrite Hallowed]. intros ids Hids. by rewrite Hids in Hforbidden. }
  assert (ignored_code {| ae_code := Some "Throttling"; ae_msg := "Rate exceeded" |} = false) as Hbusy by done.
  unfold client_session, GetCredentials, credential_chain, client_account.
  destruct (pc_SkipMetadataApiCheck c), (decide (pc_AssumeRoleARN c = "")), (pc_SkipCredsValidation c),
    (pc_SkipRequestingAccountId c), (pc_SkipGetEC2Platforms c);
    cbn -[ValidateAccountId ignored_code]; 
    try (unfold GetAccountInfo; rewrite (decide_False (P := "StaticProvider" = EC2RoleProviderName)) by done;
         cbn -[ValidateAccountId ignored_code];
         rewrite Hbusy; cbn -[ValidateAccountId]);
    rewrite Hval; eexists _, _; (split; [reflexivity|done]).
Qed.

(** With a list of allowed accounts an account that is not known is refused. *)
Lemma allowed_fails_closed c ids :
  pc_AllowedAccountIds c = Some ids → "" ∉ ids → ∃ err, ValidateAccountId c "" = Some err.
Proof.
  intros Ha Hn. destruct (ValidateAccountId c "") eqn:Hv; [eauto|]. apply ValidateAccountId_spec in Hv as [_ Hv]. by apply Hv in Ha.
Qed.
