(* ===== verification/MachineTags.v ===== *)
(** * MachineTags: an instance publishes its SSH host keys

    The agent's side of the host keys ([src/pkg/wing/tags/aws/aws.go]): it
    fetches the identity document of the instance, reads the key files in
    [/etc/ssh], signs the document with each private key and sends the public
    keys with the signatures to the tagging function ([Tagging]).

    The first part holds for every answer of the outside ([safe]): what is
    sent.  The second runs the agent against the tagging function and reads
    the tags back as the command line tool does.

    Parameters: the parsers of keys, [Sign] (with the randomness it draws for
    a file), the JSON encoding of a request and the fields of the identity
    document. *)

From S2P Require Import Prelude Types Net Utils Provider InstancePool Tagging.
From S2P Require Import Paths Calls.

Definition identityEndpoint : string := "http://169.254.169.254/latest/dynamic/instance-identity".
Definition keyDir : string := "/etc/ssh".

Record AWSTags := { environment : string }.

Record FileInfo := { f_Name : string; f_IsDir : bool }.

Record InvokeOutput := { LogResult : option string; FunctionError : option string; Payload : string }.

(** The calls of the agent and their answers.  [http.Get] answers with a body
    whose reading can fail as well. *)
Inductive tcall : Type :=
| HttpGet (url : string)
| ReadDir (dir : string)
| ReadKey (path : string)
| Invoke (region functionName payload : string).

Definition tanswer (c : tcall) : Type :=
  match c with
  | HttpGet _ => (string + error) + error
  | ReadDir _ => list FileInfo + error
  | ReadKey _ => list ascii + error
  | Invoke _ _ _ => InvokeOutput + error
  end.

Abbreviation TagM := (Prog tanswer).

Definition tags_New (provider env : string) : AWSTags + error :=
  if bool_decide (provider ∈ ["amazon"; "aws"; ""]) then inl {| environment := env |}
  else inr (Errorf ("target provider for tags not supported " +:+ provider)).

(** The environment [Wing.Run] takes from the name of the cluster. *)
Definition wing_environment (clusterName : string) : string :=
  match Split "-" clusterName with [] => "" | env :: _ => env end.

(** It is the environment of the cluster, as environments are named without a
    hyphen. *)
Lemma wing_environment_cluster env cluster :
  has_byte "-" env = false → wing_environment (env +:+ "-" +:+ cluster) = env.
Proof. intros He. unfold wing_environment. change ("-" +:+ cluster) with (String "-" cluster). by rewrite Split_app. Qed.

Definition requestData (file : string) : TagM (string + error) :=
  res ← call (HttpGet (identityEndpoint +:+ "/" +:+ file));
  mret match res with
       | inr err => inr err
       | inl (inr err) => inr err
       | inl (inl data) => inl data
       end.

Section agent.
Context {Signature Key Signer : Type}.
Context (ParseAuthorizedKey : list ascii → (Key * list ascii) + error).
Context (ParsePrivateKey : list ascii → Signer + error).
Context (Sign : string → Signer → string → Signature + error).
Context (Marshal : TagInstanceRequest Signature → string + error).
Context (Region : string → string + error).
Abbreviation PublicKeyMap := (gmap string (list ascii)).
Abbreviation SignatureMap := (gmap string Signature).

(** A public key file has to hold one public key and nothing else. *)
Definition check_public (path : string) (fileData : list ascii) : option error :=
  match ParseAuthorizedKey fileData with
  | inr err => Some (Errorf ("failed to parse local public key " +:+ path +:+ ": " +:+ error_string err))
  | inl (_, rest) =>
      if bool_decide (rest = []) then None
      else Some (Errorf ("got rest parsing public key: " +:+ string_of rest))
  end.

Definition sign_private (name path document : string) (fileData : list ascii) : Signature + error :=
  match ParsePrivateKey fileData with
  | inr err => inr (Errorf ("failed to parse local private key " +:+ path +:+ ": " +:+ error_string err))
  | inl signer => Sign name signer document
  end.

Definition is_key_file (f : FileInfo) : bool := negb (f_IsDir f) && HasPrefix (f_Name f) "ssh_host".

(** The loop over the directory. *)
Fixpoint fetch_keys (document : string) (fs : list FileInfo) (publicKeys : PublicKeyMap)
    (sigs : SignatureMap) : TagM ((PublicKeyMap * SignatureMap) + error) :=
  match fs with
  | [] => mret (inl (publicKeys, sigs))
  | f :: fs' =>
      if negb (is_key_file f) then fetch_keys document fs' publicKeys sigs
      else
        let path := path_Join [keyDir; f_Name f] in
        data ← call (ReadKey path);
        match data with
        | inr err => mret (inr err)
        | inl fileData =>
            if HasSuffix (f_Name f) ".pub" then
              match check_public path fileData with
              | Some err => mret (inr err)
              | None =>
                  let name := TrimSuffix (f_Name f) (path_Ext (f_Name f)) in
                  fetch_keys document fs' (<[name := fileData]> publicKeys) sigs
              end
            else match sign_private (f_Name f) path document fileData with
                 | inr err => mret (inr err)
                 | inl sig => fetch_keys document fs' publicKeys (<[f_Name f := sig]> sigs)
                 end
        end
  end.

Definition fetchLocalKeys (document : string) : TagM ((PublicKeyMap * SignatureMap) + error) :=
  fs ← call (ReadDir keyDir);
  match fs with
  | inr err => mret (inr err)
  | inl fs => fetch_keys document fs ∅ ∅
  end.

Definition function_name (a : AWSTags) : string := environment a +:+ "_tarmak_tagging_control".

Definition callLambdaFunction (a : AWSTags) (request : TagInstanceRequest Signature) : TagM (option error) :=
  match Marshal request with
  | inr err => mret (Some (Errorf ("failed to marshal request: " +:+ error_string err)))
  | inl b =>
      match Region (InstanceDocumentRaw request) with
      | inr err => mret (Some (Errorf ("failed to unmarshal identity document: " +:+ error_string err)))
      | inl region =>
          resp ← call (Invoke region (function_name a) b);
          mret match resp with
               | inr err => Some (Errorf ("failed to invoke lambda function: " +:+ error_string err))
               | inl resp =>
                   match FunctionError resp with
                   | Some e => Some (Errorf ("tagging control function failed: " +:+ e +:+ ": "
                                             +:+ Payload resp))
                   | None => None
                   end
               end
      end
  end.

Definition EnsureMachineTags (a : AWSTags) : TagM (option error) :=
  document ← requestData "document";
  match document with
  | inr err => mret (Some err)
  | inl document =>
      rsaSig ← requestData "signature";
      match rsaSig with
      | inr err => mret (Some err)
      | inl rsaSig =>
          keys ← fetchLocalKeys document;
          match keys with
          | inr err => mret (Some err)
          | inl (pks, sigs) =>
              callLambdaFunction a {| PublicKeys := pks; KeySignatures := sigs;
                                      InstanceDocumentRaw := document; RSASignature := rsaSig |}
          end
      end
  end.

(** ** What the agent sends *)

Abbreviation events := (list (event tanswer)).
Abbreviation read_key h name data := (Ev (R := tanswer) (ReadKey (path_Join [keyDir; name])) (inl data) ∈ h).
Abbreviation got_data h file data :=
  (Ev (R := tanswer) (HttpGet (identityEndpoint +:+ "/" +:+ file)) (inl (inl data)) ∈ h).

(** Every public key is the content of its [.pub] file, which is a public key
    indeed, and every signature is one of the document, by the private key in
    the file it is named after. *)
Definition from_files (h : events) (document : string) (pks : PublicKeyMap) (sigs : SignatureMap) : Prop :=
  (∀ k v, pks !! k = Some v → read_key h (k +:+ ".pub") v ∧ ∃ pk, ParseAuthorizedKey v = inl (pk, [])) ∧
  (∀ k sig, sigs !! k = Some sig → ∃ data signer,
     read_key h k data ∧ ParsePrivateKey data = inl signer ∧ Sign k signer document = inl sig).

Definition is_invoke (e : event tanswer) : bool :=
  match ev_call e with Invoke _ _ _ => true | _ => false end.

(** The calls the agent may make after the events [h]. *)
Definition may_call (a : AWSTags) (h : events) (c : tcall) : Prop :=
  existsb is_invoke h = false ∧
  match c with
  | HttpGet url => ∃ file, url = identityEndpoint +:+ "/" +:+ file
  | ReadDir dir => dir = keyDir
  | ReadKey path => ∃ name, path = path_Join [keyDir; name] ∧ HasPrefix name "ssh_host" = true
  | Invoke region fn payload =>
      fn = function_name a ∧ ∃ request, Marshal request = inl payload ∧
        Region (InstanceDocumentRaw request) = inl region ∧
        got_data h "document" (InstanceDocumentRaw request) ∧ got_data h "signature" (RSASignature request) ∧
        from_files h (InstanceDocumentRaw request) (PublicKeys request) (KeySignatures request)
  end.

(** Success is the function's. *)
Definition tagged (h : events) (err : option error) : Prop :=
  err = None → ∃ region fn payload resp,
    Ev (R := tanswer) (Invoke region fn payload) (inl resp) ∈ h ∧ FunctionError resp = None.

Lemma existsb_snoc {A} (P : A → bool) l x : existsb P l = false → P x = false → existsb P (l ++ [x]) = false.
Proof. intros Hl Hx. rewrite existsb_app, Hl. simpl. by rewrite Hx. Qed.

Lemma from_files_mono h e document pks sigs :
  from_files h document pks sigs → from_files (h ++ [e]) document pks sigs.
Proof.
  intros [Hp Hs]. split.
  - intros k v [? ?]%Hp. eauto with events.
  - intros k sig (data & signer & ? & ?)%Hs. eauto 6 with events.
Qed.

Lemma name_of_pub n : TrimSuffix (n +:+ ".pub") (path_Ext (n +:+ ".pub")) = n.
Proof. rewrite path_Ext_app by done. apply TrimSuffix_app. Qed.

(** A step of a program that calls the outside. *)
Lemma safe_tag {A} (P : events → tcall → Prop) h c (k : tanswer c → TagM A) Q :
  P h c → (∀ r, safe P (h ++ [Ev c r]) (k r) Q) → safe P h (call c ≫= k) Q.
Proof. apply safe_call. Qed.

Lemma fetch_keys_safe a document fs h pks sigs :
  existsb is_invoke h = false → from_files h document pks sigs →
  safe (may_call a) h (fetch_keys document fs pks sigs) (λ h' keys,
    h ⊆ h' ∧ existsb is_invoke h' = false ∧
    ∀ pks' sigs', keys = inl (pks', sigs') → from_files h' document pks' sigs').
Proof.
  revert h pks sigs. induction fs as [|f fs IH]; intros h pks sigs Hn Hf; cbn [fetch_keys].
  { cbn. split; [done|]. split; [done|]. by intros ? ? [= <- <-]. }
  destruct (is_key_file f) eqn:Hk; cbn [negb]; [|by apply IH].
  apply safe_tag. { split; [done|]. apply andb_true_iff in Hk as [_ Hk]. by exists (f_Name f). }
  intros r. pose proof (existsb_snoc is_invoke h (Ev (ReadKey (path_Join [keyDir; f_Name f])) r) Hn eq_refl) as Hn'.
  destruct r as [fileData|err]; [|by cbn; split; [apply sub_snoc|]].
  set (e := Ev (ReadKey _) _). pose proof (from_files_mono h e document pks sigs Hf) as [Hp Hs].
  destruct (HasSuffix (f_Name f) ".pub") eqn:Hpub.
  - unfold check_public. destruct (ParseAuthorizedKey fileData) as [[pk rest]|] eqn:Hpk; [|by cbn; split; [apply sub_snoc|]].
    case_bool_decide as Hr; [|by cbn; split; [apply sub_snoc|]]. subst rest.
    apply HasSuffix_spec in Hpub as [n Hname].
    eapply safe_mono; [apply IH; [done|]|intros ? ? ? (? & ? & ?); split; [|done]; etrans; [apply (sub_snoc h e)|done]].
    split; [|done]. rewrite Hname, name_of_pub. intros k v [[<- <-]|[_ Hkv]]%lookup_insert_Some; [|by apply Hp].
    split; [|eauto]. rewrite <- Hname. apply in_last.
  - unfold sign_private. destruct (ParsePrivateKey fileData) as [signer|] eqn:Hpk; [|by cbn; split; [apply sub_snoc|]].
    destruct (Sign _ _ _) as [sig|] eqn:Hsig; [|by cbn; split; [apply sub_snoc|]].
    eapply safe_mono; [apply IH; [done|]|intros ? ? ? (? & ? & ?); split; [|done]; etrans; [apply (sub_snoc h e)|done]].
    split; [done|]. intros k s [[<- <-]|[_ Hks]]%lookup_insert_Some; [|by apply Hs].
    exists fileData, signer. split; [apply in_last|done].
Qed.

Lemma requestData_safe a file h :
  existsb is_invoke h = false →
  safe (may_call a) h (requestData file) (λ h' data,
    h ⊆ h' ∧ existsb is_invoke h' = false ∧ ∀ d, data = inl d → got_data h' file d).
Proof.
  intros Hn. apply safe_tag; [split; [done|by exists file]|]. intros r. cbn.
  split; [apply sub_snoc|]. split; [by apply existsb_snoc|].
  destruct r as [[d|]|]; [|done..]. intros ? [= <-]. apply in_last.
Qed.

Lemma fetchLocalKeys_safe a document h :
  existsb is_invoke h = false →
  safe (may_call a) h (fetchLocalKeys document) (λ h' keys,
    h ⊆ h' ∧ existsb is_invoke h' = false ∧
    ∀ pks sigs, keys = inl (pks, sigs) → from_files h' document pks sigs).
Proof.
  intros Hn. apply safe_tag; [done|]. intros r. set (e := Ev (ReadDir _) r).
  pose proof (existsb_snoc is_invoke h e Hn eq_refl) as Hn'.
  destruct r as [fs|]; [|by cbn; split; [apply sub_snoc|]].
  eapply safe_mono; [apply fetch_keys_safe; [done|]|intros ? ? ? (? & ? & ?); split; [|done]; etrans; [apply (sub_snoc h e)|done]].
  split; intros k v Hkv; by rewrite lookup_empty in Hkv.
Qed.

(** Whatever the outside answers, publishing the host keys sends a single
    request, to the tagging function of the agent's environment.  It holds the
    instance's own identity document, the contents of [.pub] files that are
    public keys, and signatures of the document; a private key is read to sign
    and never sent.  Only files in [/etc/ssh] named [ssh_host...] are read, and
    success is reported only if the function has succeeded. *)
Theorem EnsureMachineTags_safe a :
  safe (may_call a) [] (EnsureMachineTags a) tagged.
Proof.
  unfold EnsureMachineTags. apply safe_bind. eapply safe_mono; [by apply requestData_safe|].
  intros h1 [document|err] _ (_ & Hn1 & Hd); [|done]. specialize (Hd document eq_refl).
  apply safe_bind. eapply safe_mono; [by apply requestData_safe|].
  intros h2 [rsaSig|err] _ (Hsub2 & Hn2 & Hr); [|done]. specialize (Hr rsaSig eq_refl).
  apply safe_bind. eapply safe_mono; [by apply fetchLocalKeys_safe|].
  intros h3 [[pks sigs]|err] _ (Hsub3 & Hn3 & Hf); [|done]. specialize (Hf pks sigs eq_refl).
  unfold callLambdaFunction. destruct (Marshal _) as [b|] eqn:Hb; [|done].
  cbn [InstanceDocumentRaw]. destruct (Region document) as [region|] eqn:Hreg; [|done].
  apply safe_tag.
  - split; [done|]. split; [done|]. eexists. split; [exact Hb|]. cbn. split; [done|]. auto.
  - intros [resp|err]; [|done]. cbn. destruct (FunctionError resp) eqn:He; [done|].
    intros _. exists region, (function_name a), b, resp. split; [apply in_last|done].
Qed.
End agent.

(** ** The agent with the tagging function *)
Section published.
Context `{MapRange} {Signature Key Signer : Type}.
Context (ParseAuthorizedKey : list ascii → (Key * list ascii) + error).
Context (ParsePrivateKey : list ascii → Signer + error).
Context (Sign : string → Signer → string → Signature + error).
Context (VerifyKey : Key → string → Signature → option error).
Context (Marshal : TagInstanceRequest Signature → string + error).
Context (Unmarshal : string → option (TagInstanceRequest Signature)).
Context (Region InstanceID : string → string + error).
Context (CheckSignature : string → string → option error).
Abbreviation Instances := (gmap string (gmap string string)).
Abbreviation Request := (TagInstanceRequest Signature).

(** A machine: its identity, the listing of the key directory and its files,
    and the environment whose tagging function is deployed. *)
Record Machine := {
  m_document : string;
  m_signature : string;
  m_listing : list FileInfo;
  m_files : string → list ascii + error;
  m_region : string;
  m_environment : string;
}.
Context (m : Machine).

Definition key_file (name : string) : string := path_Join [keyDir; name].

Definition answer_http (url : string) : (string + error) + error :=
  if decide (url = identityEndpoint +:+ "/" +:+ "document") then inl (inl (m_document m))
  else if decide (url = identityEndpoint +:+ "/" +:+ "signature") then inl (inl (m_signature m))
  else inr (Errorf "not found").

Definition answer_invoke (region fn payload : string) (instances : Instances)
    : Instances * (InvokeOutput + error) :=
  if decide (region = m_region m ∧ fn = m_environment m +:+ "_tarmak_tagging_control") then
    match Unmarshal payload with
    | None => (instances, inl {| LogResult := None; FunctionError := Some "Unhandled"; Payload := "" |})
    | Some request =>
        let '(instances', err) :=
          HandleRequests CheckSignature ParseAuthorizedKey VerifyKey InstanceID None None request instances in
        (instances', inl {| LogResult := None; FunctionError := (λ _, "Unhandled") <$> err;
                            Payload := default "" (error_string <$> err) |})
    end
  else (instances, inr (Errorf "ResourceNotFoundException")).

Definition machine_answer (c : tcall) (instances : Instances) : Instances * tanswer c :=
  match c return Instances * tanswer c with
  | HttpGet url => (instances, answer_http url)
  | ReadDir dir => (instances, if decide (dir = keyDir) then inl (m_listing m) else inr (Errorf "not found"))
  | ReadKey path => (instances, m_files m path)
  | Invoke region fn payload => answer_invoke region fn payload instances
  end.

Abbreviation ensure a := (EnsureMachineTags ParseAuthorizedKey ParsePrivateKey Sign Marshal Region a).

(** The names of the public and of the private keys in the directory. *)
Definition has_key_file (name : string) : Prop :=
  ∃ f, f ∈ m_listing m ∧ is_key_file f = true ∧ f_Name f = name.

(** A host with its keys in order: each file is what its name says, and each
    public key has its private key beside it, which signs for it. *)
Record host_keys_ok : Prop := {
  hk_public : ∀ n, has_key_file (n +:+ ".pub") → ∃ data pk signer sig private,
    m_files m (key_file (n +:+ ".pub")) = inl data ∧ ParseAuthorizedKey data = inl (pk, []) ∧
    has_key_file n ∧ HasSuffix n ".pub" = false ∧ m_files m (key_file n) = inl private ∧
    ParsePrivateKey private = inl signer ∧ Sign n signer (m_document m) = inl sig ∧
    VerifyKey pk (m_document m) sig = None;
  hk_private : ∀ n, has_key_file n → HasSuffix n ".pub" = false → ∃ data signer sig,
    m_files m (key_file n) = inl data ∧ ParsePrivateKey data = inl signer ∧
    Sign n signer (m_document m) = inl sig;
}.

(** A machine AWS vouches for, in the environment of the agent. *)
Record identity_ok (id : string) : Prop := {
  id_signed : CheckSignature (m_document m) (m_signature m) = None;
  id_instance : InstanceID (m_document m) = inl id;
  id_region : Region (m_document m) = inl (m_region m);
}.

Definition names_in (fs : list FileInfo) (name : string) : Prop :=
  ∃ f, f ∈ fs ∧ is_key_file f = true ∧ f_Name f = name.

Definition signature_of (name : string) : option Signature :=
  match m_files m (key_file name) with
  | inr _ => None
  | inl data => match sign_private ParsePrivateKey Sign name (key_file name) (m_document m) data with
                | inl sig => Some sig | inr _ => None end
  end.

(** The maps hold the keys of the files [fs], all of them. *)
Definition holds_keys (fs : list FileInfo) (pks : gmap string (list ascii)) (sigs : gmap string Signature)
    : Prop :=
  (∀ k v, pks !! k = Some v ↔ names_in fs (k +:+ ".pub") ∧ m_files m (key_file (k +:+ ".pub")) = inl v) ∧
  (∀ k sig, sigs !! k = Some sig ↔
     names_in fs k ∧ HasSuffix k ".pub" = false ∧ signature_of k = Some sig).

Lemma names_in_snoc fs f name :
  names_in (fs ++ [f]) name ↔ names_in fs name ∨ (is_key_file f = true ∧ f_Name f = name).
Proof.
  unfold names_in. split.
  - intros (g & [Hg|Hg%list_elem_of_singleton]%elem_of_app & Hk & Hn); [by left; eauto|subst; by right].
  - intros [(g & ? & ? & ?)|[? ?]]; [exists g|exists f]; rewrite elem_of_app, list_elem_of_singleton; auto.
Qed.

Lemma pub_inj a b : a +:+ ".pub" = b +:+ ".pub" → a = b.
Proof. intros Heq. rewrite <- (name_of_pub a), <- (name_of_pub b). by rewrite Heq. Qed.

Lemma holds_nothing : holds_keys [] ∅ ∅.
Proof.
  split; intros k v; rewrite lookup_empty; (split; [done|]); intros [(f & Hf & _) _]; by apply elem_of_nil in Hf.
Qed.

Lemma holds_skip fs f pks sigs : is_key_file f = false → holds_keys fs pks sigs → holds_keys (fs ++ [f]) pks sigs.
Proof.
  intros Hk [Hp Hs]. split; intros k v; [rewrite Hp|rewrite Hs]; rewrite names_in_snoc; rewrite Hk; naive_solver.
Qed.

Lemma holds_public fs f pks sigs n v :
  is_key_file f = true → f_Name f = n +:+ ".pub" → m_files m (key_file (n +:+ ".pub")) = inl v →
  holds_keys fs pks sigs → holds_keys (fs ++ [f]) (<[n := v]> pks) sigs.
Proof.
  intros Hk Hn Hv [Hp Hs]. split; intros k w; rewrite names_in_snoc, Hn.
  - rewrite lookup_insert_Some, Hp. split.
    + intros [[<- <-]|[? ?]]; [|naive_solver]. by split; [right|].
    + intros [[Hin|[_ <-%pub_inj]] Hw]; [|left; split; congruence].
      destruct (decide (n = k)) as [<-|]; [left; split; congruence|by right].
  - rewrite Hs. split; [naive_solver|]. intros ([Hin|[_ <-]] & Hnp & Hsig); [done|].
    assert (HasSuffix (n +:+ ".pub") ".pub" = true) by (apply HasSuffix_spec; by eexists). congruence.
Qed.

Lemma holds_private fs f pks sigs sig :
  is_key_file f = true → HasSuffix (f_Name f) ".pub" = false → signature_of (f_Name f) = Some sig →
  holds_keys fs pks sigs → holds_keys (fs ++ [f]) pks (<[f_Name f := sig]> sigs).
Proof.
  intros Hk Hnp Hsig [Hp Hs]. split; intros k w; rewrite names_in_snoc.
  - rewrite Hp. split; [naive_solver|]. intros [[Hin|[_ Heq]] Hw]; [done|].
    assert (HasSuffix (f_Name f) ".pub" = true) by (apply HasSuffix_spec; by exists k). congruence.
  - rewrite lookup_insert_Some, Hs. split; [naive_solver|].
    destruct (decide (f_Name f = k)) as [<-|]; naive_solver.
Qed.

(** A program that leaves the tags alone and returns the keys of the host. *)
Definition fetches (instances : Instances)
    (prog : TagM ((gmap string (list ascii) * gmap string Signature) + error)) : Prop :=
  ∃ es pks sigs, run machine_answer prog instances = (es, instances, Ret (inl (pks, sigs))) ∧
    holds_keys (m_listing m) pks sigs.

Lemma fetches_read instances path data k :
  m_files m path = inl data → fetches instances (k (inl data)) →
  fetches instances (call (ReadKey path) ≫= k).
Proof.
  intros Hd (es & pks & sigs & Hrun & Hh). eexists _, pks, sigs. split; [|exact Hh]. cbn. by rewrite Hd, Hrun.
Qed.

(** The loop on a host with its keys in order. *)
Lemma fetch_keys_run (Hok : host_keys_ok) (instances : Instances) fs before pks sigs :
  m_listing m = before ++ fs → holds_keys before pks sigs →
  fetches instances (fetch_keys ParseAuthorizedKey ParsePrivateKey Sign (m_document m) fs pks sigs).
Proof.
  revert before pks sigs. induction fs as [|f fs IH]; intros before pks sigs Hl Hh; cbn [fetch_keys].
  { eexists _, pks, sigs. split; [reflexivity|]. by rewrite Hl, app_nil_r. }
  assert (m_listing m = (before ++ [f]) ++ fs) as Hl' by (by rewrite <- app_assoc).
  destruct (is_key_file f) eqn:Hk; cbn [negb]; [|by apply (IH _ _ _ Hl'), holds_skip].
  assert (has_key_file (f_Name f)) as Hin.
  { exists f. rewrite Hl, elem_of_app, elem_of_cons. auto. }
  destruct (HasSuffix (f_Name f) ".pub") eqn:Hpub.
  - pose proof Hpub as [n Hn]%HasSuffix_spec. rewrite Hn in Hin.
    destruct (hk_public Hok n Hin) as (data & pk & _ & _ & _ & Hd & Hpk & _).
    eapply fetches_read; [rewrite Hn; exact Hd|].
    unfold check_public. rewrite Hpk, bool_decide_true by done. rewrite Hn, name_of_pub.
    by apply (IH _ _ _ Hl'), holds_public.
  - destruct (hk_private Hok _ Hin Hpub) as (data & signer & sig & Hd & Hs & Hsig).
    eapply fetches_read; [exact Hd|]. unfold sign_private. rewrite Hs, Hsig.
    apply (IH _ _ _ Hl'), holds_private; [done..| |done].
    unfold signature_of, sign_private. by rewrite Hd, Hs, Hsig.
Qed.

(** The request the agent makes on such a host. *)
Definition request_of (pks : gmap string (list ascii)) (sigs : gmap string Signature) : Request :=
  {| PublicKeys := pks; KeySignatures := sigs; InstanceDocumentRaw := m_document m;
     RSASignature := m_signature m |}.

Lemma request_verified id pks sigs :
  host_keys_ok → identity_ok id → holds_keys (m_listing m) pks sigs →
  verified CheckSignature ParseAuthorizedKey VerifyKey InstanceID (request_of pks sigs) id.
Proof.
  intros Hok [Hsig Hid _] [Hp Hs]. split; [done|]. split; [done|]. intros k v [Hin Hv]%Hp.
  destruct (hk_public Hok k Hin) as (data & pk & signer & sig & private & Hd & Hpk & Hpriv & Hnp & Hf & Hsk & Hsi & Hver).
  exists pk, sig. rewrite Hd in Hv. injection Hv as <-. split; [done|]. split; [|done].
  apply Hs. split; [done|]. split; [done|]. unfold signature_of, sign_private. by rewrite Hf, Hsk, Hsi.
Qed.

(** The encoding of requests, as [encoding/json] has it. *)
Definition json_ok : Prop := ∀ request, ∃ payload, Marshal request = inl payload ∧ Unmarshal payload = Some request.

Lemma requestData_run file data instances :
  answer_http (identityEndpoint +:+ "/" +:+ file) = inl (inl data) →
  ∃ es, run machine_answer (requestData file) instances = (es, instances, Ret (inl data)).
Proof. intros Hd. eexists. unfold requestData. eapply run_bind; [cbn; by rewrite Hd|]. done. Qed.

(** Publishing up to the call of the function. *)
Lemma ensure_run a id (instances instances' : Instances) err :
  host_keys_ok → identity_ok id → m_environment m = environment a → json_ok →
  (∀ pks sigs, holds_keys (m_listing m) pks sigs →
     HandleRequests CheckSignature ParseAuthorizedKey VerifyKey InstanceID None None
       (request_of pks sigs) instances = (instances', err)) →
  ∃ es err', run machine_answer (ensure a) instances = (es, instances', Ret err') ∧ (err' = None ↔ err = None).
Proof.
  intros Hok Hid Henv Hjson Hhandle.
  assert (fetches instances (fetchLocalKeys ParseAuthorizedKey ParsePrivateKey Sign (m_document m)))
    as (es & pks & sigs & Hrun & Hh).
  { destruct (fetch_keys_run Hok instances (m_listing m) [] ∅ ∅) as (es & pks & sigs & Hrun & Hh); [done| |].
    - apply holds_nothing.
    - eexists _, pks, sigs. split; [|exact Hh]. unfold fetchLocalKeys.
      erewrite run_bind; [reflexivity|cbn; by rewrite decide_True by done|exact Hrun]. }
  destruct (requestData_run "document" (m_document m) instances) as [es1 H1]; [done|].
  destruct (requestData_run "signature" (m_signature m) instances) as [es2 H2]; [done|].
  destruct (Hjson (request_of pks sigs)) as (payload & Hm & Hu).
  eexists _, _. split.
  - unfold EnsureMachineTags. eapply run_bind; [exact H1|]. eapply run_bind; [exact H2|].
    eapply run_bind; [exact Hrun|]. unfold callLambdaFunction. fold (request_of pks sigs).
    rewrite Hm. cbn [InstanceDocumentRaw request_of]. rewrite (id_region _ Hid). cbn.
    unfold answer_invoke. rewrite decide_True by (unfold function_name; by rewrite Henv).
    rewrite Hu, (Hhandle pks sigs Hh). reflexivity.
  - cbn. by destruct err.
Qed.

(** A host whose keys come back from its tags. *)
Record readable_host : Prop := {
  rh_readable : ∀ n d, has_key_file (n +:+ ".pub") → m_files m (key_file (n +:+ ".pub")) = inl d → readable n d;
  rh_prefix_free : ∀ n1 n2, has_key_file (n1 +:+ ".pub") → has_key_file (n2 +:+ ".pub") →
    n1 ≠ n2 → HasPrefix n1 n2 = false;
}.

Lemma map_to_list_disj_union {A} (m1 m2 : gmap string A) :
  m1 ##ₘ m2 → map_to_list (m1 ∪ m2) ≡ₚ map_to_list m2 ++ map_to_list m1.
Proof.
  intros Hd. apply NoDup_Permutation; [apply NoDup_map_to_list|apply NoDup_app; split_and!|].
  - apply NoDup_map_to_list.
  - intros [k v] H2%elem_of_map_to_list H1%elem_of_map_to_list. by eapply (map_disjoint_spec m1 m2).
  - apply NoDup_map_to_list.
  - intros [k v]. rewrite elem_of_app, !elem_of_map_to_list, lookup_union_Some by done. tauto.
Qed.

Lemma no_key_tags_disjoint (tags : gmap string string) (request : Request) :
  no_key_tags tags → createTags request ##ₘ tags.
Proof.
  intros Hno. apply map_disjoint_spec. intros k v w Hv Hw. pose proof (createTags_prefix _ _ _ Hv) as Hp.
  by rewrite (Hno k w Hw) in Hp.
Qed.

Lemma no_key_tags_slash (tags : gmap string string) :
  no_key_tags tags → Forall (λ t : string * string, HasPrefix t.1 "tarmak.io/" = false) (map_to_list tags).
Proof.
  intros Hno. apply Forall_forall. intros [k v] Hin%elem_of_map_to_list. cbn [fst].
  destruct (HasPrefix k "tarmak.io/") eqn:Hp; [|done]. apply HasPrefix_spec in Hp as [t ->].
  rewrite <- (Hno _ v Hin). symmetry. apply HasPrefix_spec. by exists ("/" +:+ t).
Qed.

Lemma holds_keys_unique fs pks sigs pks' sigs' :
  holds_keys fs pks sigs → holds_keys fs pks' sigs' → pks = pks' ∧ sigs = sigs'.
Proof.
  intros [Hp Hs] [Hp' Hs']. split; apply map_eq; intros k; apply option_eq; intros v.
  - by rewrite Hp, Hp'.
  - by rewrite Hs, Hs'.
Qed.

(** The texts of the keys [names], as they are read back: without the
    newline at the end. *)
Definition texts_of (names texts : list string) : Prop :=
  Forall2 (λ n text, ∃ d, m_files m (key_file (n +:+ ".pub")) = inl d ∧ text = string_of (removelast d)) names texts.

Lemma key_names_elem pks sigs n : n ∈ key_names (request_of pks sigs) ↔ ∃ d, pks !! n = Some d.
Proof.
  unfold key_names. rewrite sort_strings_perm, list_elem_of_fmap. cbn [PublicKeys request_of]. split.
  - intros ([n' d] & -> & Hd%elem_of_map_to_list). by exists d.
  - intros [d Hd]. exists (n, d). split; [done|]. by apply elem_of_map_to_list.
Qed.

Lemma key_names_files pks sigs n : host_keys_ok → holds_keys (m_listing m) pks sigs →
  n ∈ key_names (request_of pks sigs) ↔ has_key_file (n +:+ ".pub").
Proof.
  intros Hok [Hp _]. rewrite key_names_elem. split; [by intros [d [Hd _]%Hp]|].
  intros Hn. destruct (hk_public Hok n Hn) as (d & _ & _ & _ & _ & Hd & _). exists d. by apply Hp.
Qed.

Lemma key_names_texts pks sigs : holds_keys (m_listing m) pks sigs →
  texts_of (key_names (request_of pks sigs))
    (map (λ n, string_of (removelast (key_text (request_of pks sigs) n))) (key_names (request_of pks sigs))).
Proof.
  intros [Hp _]. unfold texts_of. apply Forall2_fmap_r, Forall_Forall2_diag, Forall_forall.
  intros n [d Hd]%key_names_elem. exists d. split; [by apply Hp|].
  unfold key_text. cbn [PublicKeys request_of]. by rewrite Hd.
Qed.

(** C5: the host keys of an instance, end to end.  On a host whose keys are in
    order, on an instance AWS vouches for and that has no keys published yet,
    the agent succeeds and leaves the tags of every other instance alone; what
    the command line tool then reads from the tags of the instance, whatever
    other tags it has, are the texts of exactly the public keys in [/etc/ssh].
    Publishing them again, as every start of the agent does, succeeds and
    changes nothing. *)
Theorem host_keys_published a id (instances : Instances) :
  host_keys_ok → readable_host → identity_ok id → m_environment m = environment a → json_ok →
  no_key_tags (tags_of instances id) →
  ∃ es instances' es' names r,
    run machine_answer (ensure a) instances = (es, instances', Ret None) ∧
    (∀ id', id' ≠ id → instances' !! id' = instances !! id') ∧
    (∀ n, n ∈ names ↔ has_key_file (n +:+ ".pub")) ∧ NoDup names ∧
    collect_keys (map_to_list (tags_of instances' id)) = Ret r ∧ texts_of names (hostKeysBase64 r) ∧
    run machine_answer (ensure a) instances' = (es', instances', Ret None).
Proof.
  intros Hok [Hread Hpf] Hid Henv Hjson Hno.
  destruct (fetch_keys_run Hok instances (m_listing m) [] ∅ ∅) as (_ & pks & sigs & _ & Hh); [done|apply holds_nothing|].
  set (request := request_of pks sigs). pose proof (request_verified id pks sigs Hok Hid Hh) as Hver.
  set (instances' := <[id := createTags request ∪ tags_of instances id]> instances).
  destruct (ensure_run a id instances instances' None Hok Hid Henv Hjson) as (es & err & Hrun & Herr).
  { intros pks' sigs' Hh'. destruct (holds_keys_unique _ _ _ _ _ Hh Hh') as [<- <-]. by apply HandleRequests_publishes. }
  destruct (ensure_run a id instances' instances' None Hok Hid Henv Hjson) as (es' & err' & Hrun' & Herr').
  { intros pks' sigs' Hh'. destruct (holds_keys_unique _ _ _ _ _ Hh Hh') as [<- <-].
    apply (HandleRequests_again _ _ _ _ _ _ id (tags_of instances id)); [done..|apply lookup_insert_eq]. }
  rewrite (proj2 Herr eq_refl) in Hrun. rewrite (proj2 Herr' eq_refl) in Hrun'.
  assert (tags_of instances' id = createTags request ∪ tags_of instances id) as Htags.
  { unfold tags_of at 1, instances'. by rewrite lookup_insert_eq. }
  destruct (read_back request (map_to_list (tags_of instances id)) (map_to_list (tags_of instances' id)))
    as (r & Hr & _ & Htext).
  - intros n d [Hn Hd]%(proj1 Hh). by apply Hread.
  - intros n1 n2 [d1 [H1 _]%(proj1 Hh)] [d2 [H2 _]%(proj1 Hh)]. by apply Hpf.
  - by apply no_key_tags_slash.
  - rewrite Htags. by apply map_to_list_disj_union, no_key_tags_disjoint.
  - exists es, instances', es', (key_names request), r. rewrite Htext. split_and!; [done|..].
    + intros id' Hne. by apply lookup_insert_ne.
    + intros n. by apply key_names_files.
    + unfold key_names. rewrite sort_strings_perm. apply NoDup_fst_map_to_list.
    + done.
    + by apply key_names_texts.
    + done.
Qed.
End published.

(** ** Witness

    A host with two keys, in which a private key has the text of its public
    key and signs with it, and an encoding of requests as digits. *)
Fixpoint digits_of (p : positive) : string :=
  match p with xH => "" | xO p => String "0" (digits_of p) | xI p => String "1" (digits_of p) end.

Fixpoint of_digits (s : string) : positive :=
  match s with
  | EmptyString => xH
  | String c s => if decide (c = "0"%char) then xO (of_digits s) else xI (of_digits s)
  end.

Lemma of_digits_of p : of_digits (digits_of p) = p.
Proof. induction p as [p IH|p IH|]; simpl; by rewrite ?IH. Qed.

Abbreviation example_tag_request := (TagInstanceRequest (list ascii)).

Definition example_Marshal (r : example_tag_request) : string + error :=
  inl (digits_of (encode (PublicKeys r, KeySignatures r, InstanceDocumentRaw r, RSASignature r))).

Definition example_Unmarshal (s : string) : option example_tag_request :=
  '(pks, sigs, doc, sig) ← decode (of_digits s);
  Some {| PublicKeys := pks; KeySignatures := sigs; InstanceDocumentRaw := doc; RSASignature := sig |}.

Lemma example_json : json_ok example_Marshal example_Unmarshal.
Proof.
  intros [pks sigs doc sig]. eexists. split; [done|]. unfold example_Unmarshal.
  rewrite of_digits_of, decode_encode. done.
Qed.

Definition example_text (name : string) : list ascii :=
  if HasPrefix name "/etc/ssh/ssh_host_rsa" then replicate 382 "A"%char else replicate 81 "E"%char.

Definition example_machine : Machine :=
  {| m_document := "i-1"; m_signature := "aws"; m_region := "eu-west-1"; m_environment := "dev";
     m_listing := [{| f_Name := "ssh_config"; f_IsDir := false |};
                   {| f_Name := "ssh_host_ed25519_key"; f_IsDir := false |};
                   {| f_Name := "ssh_host_ed25519_key.pub"; f_IsDir := false |};
                   {| f_Name := "ssh_host_rsa_key"; f_IsDir := false |};
                   {| f_Name := "ssh_host_rsa_key.pub"; f_IsDir := false |}];
     m_files := λ path, inl (example_text path) |}.

Definition example_parse (data : list ascii) : (list ascii * list ascii) + error := inl (data, []).
Definition example_private (data : list ascii) : list ascii + error := inl data.
Definition example_sign (name : string) (signer : list ascii) (document : string) : list ascii + error := inl signer.
Definition example_verify (pk : list ascii) (document : string) (sig : list ascii) : option error :=
  if decide (pk = sig) then None else Some (Errorf "bad signature").

Lemma example_key_file n : has_key_file example_machine (n +:+ ".pub") →
  n = "ssh_host_ed25519_key" ∨ n = "ssh_host_rsa_key".
Proof.
  intros (f & Hf & Hk & Hn). cbn [m_listing example_machine] in Hf.
  assert (HasSuffix (f_Name f) ".pub" = true) as Hpub by (apply HasSuffix_spec; by exists n).
  repeat (apply elem_of_cons in Hf as [->|Hf]; [try (by vm_compute in Hpub)|]); [..|by apply elem_of_nil in Hf].
  - left. by apply pub_inj.
  - right. by apply pub_inj.
Qed.

Lemma replicate_readable name k c :
  HasSuffix name "key" = true → c ≠ "="%char → 0 < k mod 255 ≤ 250 → k ≤ 2545 → readable name (replicate k c).
Proof.
  intros Hn Hc Hm Hk. split; [split|]; rewrite ?length_replicate; [done| |lia..].
  intros p s. by apply replicate_no_eof.
Qed.

Lemma example_key_pair n : has_key_file example_machine (n +:+ ".pub") →
  has_key_file example_machine n ∧ HasSuffix n ".pub" = false ∧
  example_text (key_file (n +:+ ".pub")) = example_text (key_file n) ∧
  readable n (example_text (key_file (n +:+ ".pub"))).
Proof.
  assert (∀ f, f ∈ m_listing example_machine → is_key_file f = true → has_key_file example_machine (f_Name f)) as Hfile.
  { intros f Hf Hk. by exists f. }
  intros [->| ->]%example_key_file; (split; [|split; [done|split; [done|]]]).
  - apply (Hfile {| f_Name := "ssh_host_ed25519_key"; f_IsDir := false |}); [|done].
    apply list_elem_of_In; simpl; tauto.
  - change (example_text _) with (replicate 81 "E"%char). apply replicate_readable; [done..| |]; vm_compute; lia.
  - apply (Hfile {| f_Name := "ssh_host_rsa_key"; f_IsDir := false |}); [|done].
    apply list_elem_of_In; simpl; tauto.
  - change (example_text _) with (replicate 382 "A"%char).
    apply replicate_readable; [done..|vm_compute; lia|lia].
Qed.

Lemma host_keys_published_witness :
  ∃ es (instances' : gmap string (gmap string string)) r,
    run (machine_answer (H := range_list) example_parse example_verify example_Unmarshal inl
           (λ _ _, None) example_machine)
      (EnsureMachineTags example_parse example_private example_sign example_Marshal
         (λ _, inl "eu-west-1") {| environment := "dev" |}) ∅ = (es, instances', Ret None) ∧
    collect_keys (map_to_list (tags_of instances' "i-1")) = Ret r.
Proof.
  destruct (host_keys_published (H := range_list) example_parse example_private example_sign example_verify
    example_Marshal example_Unmarshal (λ _, inl "eu-west-1") inl (λ _ _, None) example_machine
    {| environment := "dev" |} "i-1" ∅) as (es & i' & es' & names & r & Hrun & _ & _ & _ & Hr & _).
  - split.
    + intros n Hn. destruct (example_key_pair n Hn) as (Hpriv & Hnp & Hsame & _).
      exists (example_text (key_file (n +:+ ".pub"))), (example_text (key_file (n +:+ ".pub"))),
        (example_text (key_file n)), (example_text (key_file n)), (example_text (key_file n)).
      split_and!; try done. unfold example_verify. by rewrite decide_True.
    + intros n (f & Hf & Hk & <-) _. eexists _, _, _. split_and!; reflexivity.
  - split.
    + intros n d Hn [= <-]. by destruct (example_key_pair n Hn) as (_ & _ & _ & ?).
    + intros n1 n2 [->| ->]%example_key_file [->| ->]%example_key_file Hne; (reflexivity || by destruct Hne).
  - by split.
  - reflexivity.
  - apply example_json.
  - intros k v Hk. unfold tags_of in Hk. rewrite lookup_empty in Hk. cbn [default] in Hk. by rewrite lookup_empty in Hk.
  - exists es, i', r. split; [exact Hrun|exact Hr].
Defined.
