(* ===== verification/AgentStart.v ===== *)
(** * AgentStart: the agent of an instance starts

    [Run] of [src/pkg/wing/wing.go] and the command [tag] of
    [src/cmd/wing/cmd/tag.go]: the host keys of the machine are published
    ([MachineTags]) before anything else; then the flags are checked, the client
    of the API is made, signals are listened to, and the goroutines of [Wing]
    are started. *)

From S2P Require Import Prelude Types Net Utils Provider InstancePool Tagging.
From S2P Require Import Paths Calls MachineTags.

Record WFlags := { wf_ManifestURL : string; wf_ServerURL : string; wf_ClusterName : string; wf_InstanceName : string }.

Definition DefaultInstanceName : string := "$(hostname)".

(** [WConverge] starts the first converge, [WWatch] the controller for the
    instance of a name, and [WWait] waits for the end of both. *)
Inductive wcall : Type :=
| WGetenv (name : string)
| WHostname
| WNewForConfig (url : string)
| WNotify
| WConverge
| WWatch (cluster instance : string)
| WWait.

Definition wanswer (c : wcall) : Type :=
  match c with
  | WGetenv _ => string
  | WHostname => string + error
  | WNewForConfig _ => option error
  | WNotify | WConverge | WWatch _ _ | WWait => unit
  end.

Abbreviation WM := (Prog (both tanswer wanswer)).
Abbreviation wevents := (list (event (both tanswer wanswer))).
Abbreviation W c a := (Ev (R := both tanswer wanswer) (inr c) a).
#[local] Abbreviation wing_call c := (call (R := both tanswer wanswer) (inr c)).

Section run.
Context {Signature Key Signer : Type}.
Context (ParseAuthorizedKey : list ascii → (Key * list ascii) + error).
Context (ParsePrivateKey : list ascii → Signer + error).
Context (Sign : string → Signer → string → Signature + error).
Context (Marshal : TagInstanceRequest Signature → string + error).
Context (Region : string → string + error).

(** Publish the keys of the machine, then go on. *)
Definition ensure_tags (env : string) (k : WM (option error)) : WM (option error) :=
  provider ← wing_call (WGetenv "WING_CLOUD_PROVIDER");
  match tags_New provider env with
  | inr err => mret (Some err)
  | inl t =>
      err ← lift (EnsureMachineTags ParseAuthorizedKey ParsePrivateKey Sign Marshal Region t);
      match (err : option error) with Some err => mret (Some err) | None => k end
  end.

(** The name of the instance, which is that of the host by default. *)
Definition instance_name (flags : WFlags) : WM (string + error) :=
  if decide (wf_InstanceName flags = DefaultInstanceName) then wing_call WHostname
  else mret (inl (wf_InstanceName flags)).

Definition check_flags (name manifestURL : string) : option error :=
  let errors := (if decide (name = "") then [Errorf "--instance-name flag cannot be empty"] else [])
             ++ (if decide (manifestURL = "") then [Errorf "--manifest-url flag cannot be empty"] else []) in
  match errors with [] => None | _ => Some (Multi errors) end.

Definition Run (flags : WFlags) : WM (option error) :=
  ensure_tags (wing_environment (wf_ClusterName flags)) (
  r ← instance_name flags;
  match (r : string + error) with
  | inr err => mret (Some err)
  | inl name =>
      match check_flags name (wf_ManifestURL flags) with
      | Some err => mret (Some err)
      | None =>
          r ← wing_call (WNewForConfig (wf_ServerURL flags));
          match (r : option error) with
          | Some err => mret (Some err)
          | None =>
              _ ← wing_call WNotify;
              _ ← wing_call WConverge;
              _ ← wing_call (WWatch (wf_ClusterName flags) name);
              _ ← wing_call WWait;
              mret None
          end
      end
  end).

(** The command [tag]. *)
Definition tag_cmd (env : string) : WM (option error) := ensure_tags env (mret None).

(** ** What has to come before *)

(** The keys of the machine were published. *)
Definition published (h : wevents) : Prop := tagged (left_events h) None.

(** The instance the agent runs for. *)
Definition named (flags : WFlags) (h : wevents) (name : string) : Prop :=
  name ≠ "" ∧ if decide (wf_InstanceName flags = DefaultInstanceName) then W WHostname (inl name) ∈ h
              else name = wf_InstanceName flags.

Definition may_start (env : string) (flags : option WFlags) (h : wevents) (c : tcall + wcall) : Prop :=
  match c with
  | inl c => may_call ParseAuthorizedKey ParsePrivateKey Sign Marshal Region {| environment := env |} (left_events h) c
  | inr (WGetenv _) => h = []
  | inr WHostname => published h
  | inr c =>
      published h ∧ ∃ f name, flags = Some f ∧ named f h name ∧ wf_ManifestURL f ≠ "" ∧
      match c with
      | WNewForConfig url => url = wf_ServerURL f
      | WNotify => W (WNewForConfig (wf_ServerURL f)) None ∈ h
      | WConverge => W WNotify () ∈ h
      | WWatch cluster instance => cluster = wf_ClusterName f ∧ instance = name ∧ W WConverge () ∈ h
      | _ => W (WWatch (wf_ClusterName f) name) () ∈ h
      end
  end.

Lemma check_flags_spec name url : check_flags name url = None ↔ name ≠ "" ∧ url ≠ "".
Proof. unfold check_flags. repeat case_decide; naive_solver. Qed.

Lemma published_snoc h c a : published h → published (h ++ [W c a]).
Proof. unfold published. by rewrite left_events_right. Qed.

Lemma named_snoc flags h e name : named flags h name → named flags (h ++ [e]) name.
Proof. intros [Hne Hn]. split; [done|]. case_decide; [by apply in_before|done]. Qed.

Lemma ensure_tags_safe env flags k Q :
  (∀ h, published h → safe (may_start env flags) h k Q) → (∀ h err, Q h (Some err)) →
  safe (may_start env flags) [] (ensure_tags env k) Q.
Proof.
  intros Hk HQ. apply safe_call; [done|]. intros provider. unfold tags_New. destruct (bool_decide _); [|apply HQ]. apply safe_bind.
  eapply safe_mono; [eapply lift_safe; [apply EnsureMachineTags_safe|done]|].
  intros h [err|] _ [Ht _]; [apply HQ|by apply Hk].
Qed.

(** C36: An agent works only after it has published its keys: nothing but reading
    and publishing them comes first, with the calls [MachineTags] allows; then
    it converges and watches the object of its name in the API of its cluster,
    if it has a name and a manifest, in this order. *)
Theorem Run_safe flags :
  safe (may_start (wing_environment (wf_ClusterName flags)) (Some flags)) [] (Run flags)
    (λ h r, r = None → published h ∧ ∃ name, named flags h name ∧ W (WWatch (wf_ClusterName flags) name) () ∈ h).
Proof.
  apply ensure_tags_safe; [|done]. intros h Hp. apply safe_bind.
  eapply (safe_mono _ _ _ (λ h' r, published h' ∧ ∀ name, r = inl name → name ≠ "" → named flags h' name)).
  { unfold instance_name. case_decide as Hd.
    - split; [done|]. intros a. split; [by apply published_snoc|]. intros name -> Hne. split; [done|]. rewrite decide_True by done. apply in_last.
    - split; [done|]. intros name [= <-] Hne. split; [done|]. by rewrite decide_False. }
  intros h1 [name|err] _ [Hp1 Hn1]; [|done]. destruct (check_flags name (wf_ManifestURL flags)) eqn:Hc; [done|].
  apply check_flags_spec in Hc as [Hname Hurl]. specialize (Hn1 name eq_refl Hname).
  apply safe_call; [split; [done|]; by exists flags, name|]. intros [err|]; [done|].
  apply safe_call; [split; [by apply published_snoc|]; exists flags, name; eauto using named_snoc, in_last|]. intros [].
  apply safe_call; [split; [by do 2 apply published_snoc|]; exists flags, name; eauto 8 using named_snoc, in_last|]. intros [].
  apply safe_call.
  { split; [by do 3 apply published_snoc|]. exists flags, name. split_and!; try done; [by do 3 apply named_snoc|apply in_last]. }
  intros []. apply safe_call.
  { split; [by do 4 apply published_snoc|]. exists flags, name. split_and!; try done; [by do 4 apply named_snoc|apply in_last]. }
  intros []. cbn. intros _. split; [by do 5 apply published_snoc|]. exists name. split; [by do 5 apply named_snoc|]. apply in_before, in_last.
Qed.
End run.
