(* ===== verification/Manifests.v ===== *)
(** * Manifests: publishing the Puppet code and reading it on an instance

    The command line tool uploads the archive of the Puppet code to S3
    ([src/pkg/tarmak/cluster/configuration.go],
    [src/pkg/tarmak/provider/amazon/upload_config.go]) under the hash of its
    content and lets a pointer name the hash; the agent reads the pointer and
    then the archive it names ([src/pkg/wing/provider/hash/hash.go]), while an
    upload may be going on.

    The uploads run against a store that may fail at any call, a failed write
    included that has taken effect all the same ([mstep]); an execution
    ([exec]) is the list of all states of the store, so that what holds of
    every state holds of an upload that is cut short as well.  The archive is
    read from a shared reader with a position ([rd_pos]), which a write leaves
    anywhere.

    Parameters: the digest [md5] and URLs that are not of the plain form
    [scheme://host/path]. *)

From S2P Require Import Prelude Types Net Utils Provider InstancePool Paths.
From S2P Require Import Calls.

(** ** Calls *)

Inductive body : Type := FromReader | FromBytes (b : string).

Inductive mcall : Type :=
| NewReader (content : string)
| KMSClient
| DescribeKey (keyId : string)
| S3Client
| PutObject (bucket key : string) (b : body) (kmsKey : option string)
| SeekStart
| GetObject (bucket key : string)
| OpenFile (path : string).

(** [DescribeKey] answers with the ARN of the key, if it has one. *)
Definition manswer (c : mcall) : Type :=
  match c with
  | NewReader _ => unit
  | KMSClient | S3Client | SeekStart | PutObject _ _ _ _ => option error
  | DescribeKey _ => option string + error
  | GetObject _ _ | OpenFile _ => string + error
  end.

Abbreviation MM := (Prog manswer).

(** ** The upload *)
Section upload.
Context (md5 : string → string).
Context (BucketPrefix region : string).
(** The environment of the provider, of the cluster, and the cluster's name. *)
Context (tarmakEnvironment environment clusterName : string).

Definition SecretsKMSName : string := "alias/tarmak/" +:+ tarmakEnvironment +:+ "/secrets".

Definition bucketName : string := BucketPrefix +:+ environment +:+ "-" +:+ region +:+ "-secrets".

Definition legacyKey : string := path_Join [clusterName; "puppet.tar.gz"].
Definition dirPath : string := path_Join [clusterName; "puppet-manifests"].
Definition hashPointerKey : string := path_Join [dirPath; "latest-puppet-hash"].
Definition manifestKey (md5Hash : string) : string := path_Join [dirPath; md5Hash +:+ "-puppet.tar.gz"].

(** The provider's part; [stateFile] is the shared reader. *)
Definition UploadConfiguration (md5Hash : string) : MM (option error) :=
  err ← call KMSClient;
  match err with
  | Some err => mret (Some err)
  | None =>
      k ← call (DescribeKey SecretsKMSName);
      match k with
      | inr err => mret (Some (Errorf ("error looking for tarmak secrets kms alias '" +:+ SecretsKMSName
                                       +:+ "': " +:+ error_string err)))
      | inl k =>
          err ← call S3Client;
          match err with
          | Some err => mret (Some err)
          | None =>
              arn ← deref_prog k;
              err ← call (PutObject bucketName legacyKey FromReader (Some arn));
              match err with
              | Some err => mret (Some err)
              | None =>
                  err ← call SeekStart;
                  match err with
                  | Some err => mret (Some (Errorf ("failed to rewind puppet state file: "
                                                    +:+ error_string err)))
                  | None =>
                      err ← call (PutObject bucketName (manifestKey md5Hash) FromReader (Some arn));
                      match err with
                      | Some err => mret (Some err)
                      | None => call (PutObject bucketName hashPointerKey (FromBytes md5Hash) None)
                      end
                  end
              end
          end
      end
  end.

(** The cluster's part: the archive in a buffer, or the error of making it,
    and a reader of it. *)
Definition cluster_UploadConfiguration (TarGz : string + error) : MM (option error) :=
  match TarGz with
  | inr err => mret (Some err)
  | inl buffer => call (NewReader buffer) ≫= λ _, UploadConfiguration (md5 buffer)
  end.
End upload.

(** ** The agent *)

Record URL := { Host : string; Path : string }.

Definition url_byte (c : ascii) : bool :=
  let n := nat_of_ascii c in
  ((97 <=? n) && (n <=? 122)) || ((65 <=? n) && (n <=? 90)) || ((48 <=? n) && (n <=? 57))
  || bool_decide (c = "-"%char) || bool_decide (c = "_"%char) || bool_decide (c = "."%char)
  || bool_decide (c = "/"%char).

(** [url.Parse], for [s3://host/path] in plain characters; [other] is what it
    does with other strings. *)
Definition url_Parse (other : string → URL + error) (s : string) : URL + error :=
  match s with
  | String "s" (String "3" (String ":" (String "/" (String "/" rest)))) =>
      if forallb url_byte (bytes_of rest) && has_byte "/" rest then
        match Split "/" rest with
        | host :: path => inl {| Host := host; Path := "/" +:+ Join path "/" |}
        | [] => other s
        end
      else other s
  | _ => other s
  end.

Definition S3HashObject : string := "latest-puppet-hash".
Definition S3HashDir : string := "puppet-manifests".
Definition S3LegacyObject : string := "puppet.tar.gz".

Section readers.
Context (other : string → URL + error).

(** Where the pointer is: beside the legacy object, or in the given directory. *)
Definition pointer_of (urlPath : string) : string :=
  let key := if decide (path_Base urlPath = S3LegacyObject)
             then path_Join [path_Dir urlPath; S3HashDir] else urlPath in
  path_Join [key; S3HashObject].

Definition hash_GetManifest (hashPath : string) : MM (string + error) :=
  match url_Parse other hashPath with
  | inr err => mret (inr err)
  | inl manifestURL =>
      let bucket := Host manifestURL in
      let key := pointer_of (Path manifestURL) in
      obj ← call (GetObject bucket key);
      match obj with
      | inr err => mret (inr (Errorf ("error getting s3 object '" +:+ key +:+ "' in bucket '" +:+ bucket
                                      +:+ "': " +:+ error_string err)))
      | inl b =>
          let key := path_Dir key +:+ "/" +:+ b +:+ "-puppet.tar.gz" in
          obj ← call (GetObject bucket key);
          mret match obj with
               | inr err => inr (Errorf ("error getting encrypted object by hash '" +:+ key +:+ "' in bucket '"
                                         +:+ bucket +:+ "': " +:+ error_string err))
               | inl body => inl body
               end
      end
  end.

Definition s3_GetManifest (manifestString : string) : MM (string + error) :=
  match url_Parse other manifestString with
  | inr err => mret (inr err)
  | inl manifestURL =>
      result ← call (GetObject (Host manifestURL) (Path manifestURL));
      mret match result with
           | inr err => inr (Errorf ("error getting s3 object '" +:+ Path manifestURL +:+ "' in bucket '"
                                     +:+ Host manifestURL +:+ "': " +:+ error_string err))
           | inl body => inl body
           end
  end.

Definition file_GetManifest (manifestURL : string) : MM (string + error) :=
  let path := path_Join [manifestURL] in
  filestream ← call (OpenFile path);
  mret match filestream with
       | inr err => inr (Errorf ("error opening file " +:+ path +:+ ": " +:+ error_string err))
       | inl content => inl content
       end.

(** [provider.GetManifest]: the first provider that answers; [Wing.GetManifest]
    is this function with the answers of the providers given. *)
Definition provider_GetManifest (manifestURL : string) : MM (string + error) :=
  r1 ← hash_GetManifest manifestURL;
  match r1 with
  | inl rc => mret (inl rc)
  | inr e1 =>
      r2 ← s3_GetManifest manifestURL;
      match r2 with
      | inl rc => mret (inl rc)
      | inr e2 =>
          r3 ← file_GetManifest manifestURL;
          match r3 with
          | inl rc => mret (inl rc)
          | inr e3 => mret (inr (Multi [e1; e2; e3]))
          end
      end
  end.
End readers.

(** ** The store *)

(** The path an object key has in a request: the SDK cleans it. *)
Definition object_path (key : string) : string :=
  let p := "/" +:+ key in
  let c := Clean p in
  if HasSuffix p "/" && negb (HasSuffix c "/") then c +:+ "/" else c.

(** The objects by bucket and path, and the reader of the archive. *)
Record Store := { objects : gmap (string * string) string; rd_content : string; rd_pos : nat }.

Definition body_of (s : Store) (b : body) : string :=
  match b with
  | FromReader => string_of (drop (rd_pos s) (bytes_of (rd_content s)))
  | FromBytes b => b
  end.

(** What a call may answer and do.  A write that fails may have happened. *)
Definition mstep (c : mcall) (s : Store) : manswer c → Store → Prop :=
  match c return manswer c → Store → Prop with
  | NewReader content => λ _ s', s' = {| objects := objects s; rd_content := content; rd_pos := 0 |}
  | PutObject bucket key b _ => λ err s',
      (objects s' = <[(bucket, object_path key) := body_of s b]> (objects s) ∨
       (err ≠ None ∧ objects s' = objects s)) ∧
      rd_content s' = rd_content s ∧ (b = FromReader ∨ rd_pos s' = rd_pos s)
  | SeekStart => λ err s',
      objects s' = objects s ∧ rd_content s' = rd_content s ∧ (err = None → rd_pos s' = 0)
  | GetObject bucket key => λ r s',
      s' = s ∧ ∀ content, r = inl content → objects s !! (bucket, object_path key) = Some content
  | _ => λ _ s', s' = s
  end.

(** An execution: all states of the store, from the first on, and the result. *)
Fixpoint exec {A} (m : MM A) (s : Store) (tr : list Store) (res : GoM A) : Prop :=
  match m with
  | PRet a => tr = [s] ∧ res = Ret a
  | PPanic => tr = [s] ∧ res = Panic
  | PCall c k => ∃ r s' tr', mstep c s r s' ∧ tr = s :: tr' ∧ exec (k r) s' tr' res
  end.

(** [always I R m s Post]: all states of every execution satisfy [I], each is
    related to the next by [R], and the last with the result satisfies [Post]. *)
Fixpoint always {A} (I : Store → Prop) (R : Store → Store → Prop) (m : MM A) (s : Store)
    (Post : Store → A → Prop) : Prop :=
  match m with
  | PRet a => Post s a
  | PPanic => True
  | PCall c k => ∀ r s', mstep c s r s' → I s' ∧ R s s' ∧ always I R (k r) s' Post
  end.

Lemma always_bind {A B} I R (m : MM A) (f : A → MM B) s Post :
  always I R m s (λ s' a, always I R (f a) s' Post) → always I R (m ≫= f) s Post.
Proof.
  unfold mbind, Prog_bind. revert s. induction m as [a| |c k IH]; intros s; cbn; [done..|].
  intros Hm r s' Hstep. destruct (Hm r s' Hstep) as (? & ? & ?). auto.
Qed.

Lemma always_call {A} I R c (k : manswer c → MM A) s Post :
  (∀ r s', mstep c s r s' → I s' ∧ R s s' ∧ always I R (k r) s' Post) → always I R (call c ≫= k) s Post.
Proof. done. Qed.

Lemma Sorted_head {A} (R : A → A → Prop) x y l : Sorted R l → head l = Some y → R x y → Sorted R (x :: l).
Proof. intros Hs Hh HR. constructor; [done|]. destruct l; [done|]. injection Hh as ->. by constructor. Qed.

Lemma always_exec {A} I R (m : MM A) s Post tr res :
  I s → always I R m s Post → exec m s tr res →
  Forall I tr ∧ Sorted R tr ∧ head tr = Some s ∧
  (∀ a, res = Ret a → ∃ s', last tr = Some s' ∧ Post s' a).
Proof.
  revert s tr. induction m as [a| |c k IH]; intros s tr HI; cbn.
  - intros HP [-> ->]. split_and!; [by apply Forall_singleton|by repeat constructor|done|].
    intros ? [= <-]. by exists s.
  - intros _ [-> ->]. split_and!; [by apply Forall_singleton|by repeat constructor|done|done].
  - intros Hm (r & s' & tr' & Hstep & -> & Hex). destruct (Hm r s' Hstep) as (HI' & HR & Hk).
    destruct (IH r s' tr' HI' Hk Hex) as (Hf & Hs & Hh & Hl). split_and!; [by constructor| |done|].
    + by eapply Sorted_head.
    + intros a Ha. destruct (Hl a Ha) as (sl & Hlast & HP). exists sl. split; [|done].
      by destruct tr'.
Qed.

(** ** Where the objects are *)

Lemma object_path_plain es : es ≠ [] → Forall plain es → object_path (Join es "/") = "/" +:+ Join es "/".
Proof.
  intros Hne Hes. unfold object_path. rewrite Clean_rooted by done. by destruct (HasSuffix _ _).
Qed.

Lemma object_path_rooted es : es ≠ [] → Forall plain es →
  object_path ("/" +:+ Join es "/") = "/" +:+ Join es "/".
Proof.
  intros Hne Hes. unfold object_path.
  assert (∀ s, Clean ("/" +:+ "/" +:+ s) = Clean ("/" +:+ s)) as Hdouble.
  { intros s. unfold Clean. rewrite !rooted_root, !Split_root. cbn [clean]. by rewrite decide_True by (by left). }
  rewrite Hdouble, Clean_rooted by done.
  destruct (HasSuffix ("/" +:+ "/" +:+ _) "/") eqn:Hs; [|done].
  rewrite (proj2 (HasSuffix_spec ("/" +:+ Join es "/") "/")); [done|].
  apply HasSuffix_spec in Hs as [[|c t] Ht]; [done|]. injection Ht as _ Ht. by exists t.
Qed.

Section paths.
Context (clusterName : string) (Hname : plain clusterName).

Definition pointer_path : string := "/" +:+ Join [clusterName; S3HashDir; S3HashObject] "/".
Definition manifest_path (h : string) : string :=
  "/" +:+ Join [clusterName; S3HashDir; h +:+ "-puppet.tar.gz"] "/".
Definition legacy_path : string := "/" +:+ Join [clusterName; S3LegacyObject] "/".

Lemma manifest_plain h : has_byte "/" h = false → plain (h +:+ "-puppet.tar.gz").
Proof.
  intros Hh. assert (∀ t, String.length t ≤ 2 → h +:+ "-puppet.tar.gz" ≠ t) as Hlong.
  { intros t Ht Heq. apply (f_equal String.length) in Heq. rewrite string_app_length in Heq. simpl in Heq. lia. }
  split_and!; [apply Hlong; simpl; lia..|]. unfold has_byte in *. by rewrite bytes_of_app, existsb_app, Hh.
Qed.

Lemma dirPath_eq : dirPath clusterName = Join [clusterName; S3HashDir] "/".
Proof. apply (path_Join_plain [clusterName] [S3HashDir]); [done..|plains|plains]. Qed.

Lemma in_dir e : plain e → object_path (path_Join [dirPath clusterName; e])
  = "/" +:+ Join [clusterName; S3HashDir; e] "/".
Proof.
  intros He. rewrite dirPath_eq, <- object_path_plain by (done || plains). f_equal.
  apply (path_Join_plain [clusterName; S3HashDir] [e]); [done..|plains|plains].
Qed.

Lemma pointer_path_eq : object_path (hashPointerKey clusterName) = pointer_path.
Proof. apply in_dir. by apply plain_const. Qed.

Lemma manifest_path_eq h : has_byte "/" h = false → object_path (manifestKey clusterName h) = manifest_path h.
Proof. intros Hh. apply in_dir. by apply manifest_plain. Qed.

Lemma legacy_path_eq : object_path (legacyKey clusterName) = legacy_path.
Proof.
  unfold legacy_path. rewrite <- object_path_plain by (done || plains). f_equal.
  apply (path_Join_plain [clusterName] [S3LegacyObject]); [done..|plains|plains].
Qed.

(** The objects do not get in each other's way. *)
Lemma manifest_path_inj h1 h2 : has_byte "/" h1 = false → has_byte "/" h2 = false →
  manifest_path h1 = manifest_path h2 → h1 = h2.
Proof.
  intros H1%manifest_plain H2%manifest_plain [= Heq%(f_equal bytes_of)]%Join_inj; [|done..|plains|plains].
  apply bytes_of_inj. rewrite !bytes_of_app in Heq. by simplify_list_eq.
Qed.

Lemma manifest_not_pointer h : has_byte "/" h = false → manifest_path h ≠ pointer_path.
Proof.
  intros Hh%manifest_plain [= Heq]%Join_inj; [|done..|plains|plains].
  assert (HasSuffix S3HashObject "-puppet.tar.gz" = true) by (apply HasSuffix_spec; by exists h). done.
Qed.

Lemma legacy_not_pointer : legacy_path ≠ pointer_path.
Proof. intros [=]%Join_inj; [done..|plains|plains]. Qed.

Lemma legacy_not_manifest h : has_byte "/" h = false → legacy_path ≠ manifest_path h.
Proof. intros Hh%manifest_plain [=]%Join_inj; [done..|plains|plains]. Qed.
End paths.

(** ** An upload *)
Section atomic.
Context (md5 : string → string) (hex_digest : ∀ c, has_byte "/" (md5 c) = false).
Context (BucketPrefix region tarmakEnvironment environment clusterName : string) (Hname : plain clusterName).
Abbreviation bucket := (bucketName BucketPrefix region environment).
Abbreviation pointer s := (objects s !! (bucket, pointer_path clusterName)).
Abbreviation manifest s h := (objects s !! (bucket, manifest_path clusterName h)).
Abbreviation upload := (UploadConfiguration BucketPrefix region tarmakEnvironment environment clusterName).

(** The agent's view: the pointer read in one state, the archive in another. *)
Definition current (s1 s2 : Store) : option string := h ← pointer s1; manifest s2 h.

(** Upload of [new] that started in [s0]: manifests other than the new one are
    as they were, and the pointer names the new one only once it is there. *)
Record uploading (s0 : Store) (new : string) (s : Store) : Prop := {
  up_manifests : ∀ h, has_byte "/" h = false →
    manifest s h = manifest s0 h ∨ (h = md5 new ∧ manifest s h = Some new);
  up_pointer : pointer s = pointer s0 ∨ (pointer s = Some (md5 new) ∧ manifest s (md5 new) = Some new);
}.

(** The new manifest stays once it is there. *)
Definition keeps (new : string) (s s' : Store) : Prop :=
  manifest s (md5 new) = Some new → manifest s' (md5 new) = Some new.

Lemma uploading_start s0 new : uploading s0 new s0.
Proof. split; by left. Qed.

(** Writes that are not of the objects the agent reads. *)
Lemma uploading_same s0 new s s' :
  uploading s0 new s → pointer s' = pointer s → (∀ h, has_byte "/" h = false → manifest s' h = manifest s h) →
  uploading s0 new s' ∧ keeps new s s'.
Proof.
  intros [Hm Hp] Hp' Hm'. split; [split|].
  - intros h Hh. rewrite Hm' by done. by apply Hm.
  - rewrite Hp', Hm' by done. done.
  - unfold keeps. by rewrite Hm'.
Qed.

Lemma uploading_objects s0 new s s' :
  uploading s0 new s → objects s' = objects s → uploading s0 new s' ∧ keeps new s s'.
Proof. intros Hu Ho. apply (uploading_same s0 new s); by rewrite ?Ho. Qed.

(** The calls of an upload that do not touch the store. *)
Lemma put_cases b k body kms s err s' :
  mstep (PutObject b k body kms) s err s' →
  objects s' = <[(b, object_path k) := body_of s body]> (objects s) ∨ (err ≠ None ∧ objects s' = objects s).
Proof. by intros [? _]. Qed.

Lemma put_legacy s0 new s err s' kms :
  uploading s0 new s → mstep (PutObject bucket (legacyKey clusterName) FromReader kms) s err s' →
  uploading s0 new s' ∧ keeps new s s'.
Proof.
  intros Hu [Ho|[_ Ho]]%put_cases; [|by eapply uploading_objects].
  rewrite legacy_path_eq in Ho by done. apply (uploading_same s0 new s); [done|..].
  - rewrite Ho, lookup_insert_ne; [done|]. intros Heq%(f_equal snd). by apply (legacy_not_pointer clusterName Hname).
  - intros h Hh. rewrite Ho, lookup_insert_ne; [done|]. intros Heq%(f_equal snd).
    by apply (legacy_not_manifest clusterName Hname h).
Qed.

Lemma put_manifest s0 new s err s' kms :
  uploading s0 new s → body_of s FromReader = new →
  mstep (PutObject bucket (manifestKey clusterName (md5 new)) FromReader kms) s err s' →
  uploading s0 new s' ∧ keeps new s s' ∧ (err = None → manifest s' (md5 new) = Some new).
Proof.
  intros Hu Hb [Ho|[He Ho]]%put_cases.
  2:{ destruct (uploading_objects s0 new s s' Hu Ho). split_and!; [done..|]. by intros ->. }
  rewrite manifest_path_eq, Hb in Ho by done.
  assert (manifest s' (md5 new) = Some new) as Hnew by (by rewrite Ho, lookup_insert_eq).
  destruct Hu as [Hm Hp]. split_and!; [split|..]; [| |by intros ?|done].
  - intros h Hh. destruct (decide (h = md5 new)) as [->|Hne]; [by right|]. rewrite Ho, lookup_insert_ne; [by apply Hm|].
    intros Heq%(f_equal snd). by apply Hne, (manifest_path_inj clusterName Hname).
  - rewrite Ho, lookup_insert_ne by (intros Heq%(f_equal snd); by eapply (manifest_not_pointer clusterName Hname)).
    rewrite <- Ho, Hnew. destruct Hp as [Hp|[Hp _]]; [by left|by right].
Qed.

Lemma put_pointer s0 new s err s' kms :
  uploading s0 new s → manifest s (md5 new) = Some new →
  mstep (PutObject bucket (hashPointerKey clusterName) (FromBytes (md5 new)) kms) s err s' →
  uploading s0 new s' ∧ keeps new s s' ∧
  (err = None → pointer s' = Some (md5 new) ∧ manifest s' (md5 new) = Some new).
Proof.
  intros Hu Hnew [Ho|[He Ho]]%put_cases.
  2:{ destruct (uploading_objects s0 new s s' Hu Ho). split_and!; [done..|]. by intros ->. }
  rewrite pointer_path_eq in Ho by done. cbn [body_of] in Ho.
  assert (∀ h, has_byte "/" h = false → manifest s' h = manifest s h) as Hm'.
  { intros h Hh. rewrite Ho, lookup_insert_ne; [done|]. intros Heq%(f_equal snd).
    by eapply (manifest_not_pointer clusterName Hname). }
  assert (pointer s' = Some (md5 new) ∧ manifest s' (md5 new) = Some new) as Hdone.
  { split; [by rewrite Ho, lookup_insert_eq|]. by rewrite Hm'. }
  destruct Hu as [Hm _]. split_and!; [split| |done]; [|by right|by intros _; apply Hdone].
  intros h Hh. rewrite Hm' by done. by apply Hm.
Qed.

Definition published (new : string) (s : Store) : Prop :=
  pointer s = Some (md5 new) ∧ manifest s (md5 new) = Some new.

Lemma upload_always s0 new s :
  uploading s0 new s → rd_content s = new →
  always (uploading s0 new) (keeps new) (upload (md5 new)) s (λ s' err, err = None → published new s').
Proof.
  assert (∀ s, keeps new s s) as Hrefl by (by intros s' ?).
  intros Hu Hc. unfold UploadConfiguration.
  apply always_call. intros e1 s1 ->. split_and!; [done..|]. destruct e1; [done|].
  apply always_call. intros k s2 ->. split_and!; [done..|]. destruct k as [k|]; [|done].
  apply always_call. intros e3 s3 ->. split_and!; [done..|]. destruct e3; [done|].
  apply always_bind. destruct k as [arn|]; [|done]. cbn [deref_prog always].
  apply always_call. intros e4 s4 Hput. destruct (put_legacy s0 new s e4 s4 (Some arn) Hu Hput) as [Hu4 Hk4].
  split_and!; [done..|]. destruct Hput as (_ & Hc4 & _). destruct e4; [done|].
  apply always_call. intros e5 s5 (Ho5 & Hc5 & Hpos). destruct (uploading_objects s0 new s4 s5 Hu4 Ho5) as [Hu5 Hk5].
  split_and!; [done..|]. destruct e5; [done|].
  assert (body_of s5 FromReader = new) as Hbody.
  { cbn [body_of]. rewrite Hpos, Hc5, Hc4, Hc by done. apply String.string_of_list_ascii_of_string. }
  apply always_call. intros e6 s6 Hput. destruct (put_manifest s0 new s5 e6 s6 (Some arn) Hu5 Hbody Hput) as (Hu6 & Hk6 & H6).
  split_and!; [done..|]. destruct e6; [done|]. specialize (H6 eq_refl).
  intros e7 s7 Hput7. by apply (put_pointer s0 new s6 e7 s7 None).
Qed.

Abbreviation cluster_upload :=
  (cluster_UploadConfiguration md5 BucketPrefix region tarmakEnvironment environment clusterName).

Lemma cluster_upload_always s0 new tr res :
  exec (cluster_upload (inl new)) s0 tr res →
  Forall (uploading s0 new) tr ∧ Sorted (keeps new) tr ∧
  (res = Ret None → ∃ s', last tr = Some s' ∧ published new s').
Proof.
  intros ([] & s1 & tr1 & -> & -> & Hex).
  set (s1 := {| objects := _; rd_content := new; rd_pos := 0 |}) in Hex.
  pose proof (uploading_start s0 new) as Hstart.
  destruct (uploading_objects s0 new s0 s1 Hstart eq_refl) as [Hu1 Hk1].
  destruct (always_exec _ _ _ _ _ _ _ Hu1 (upload_always s0 new s1 Hu1 eq_refl) Hex) as (Hf & Hs & Hh & Hl).
  split_and!; [by constructor|by apply (Sorted_head _ _ s1)|].
  intros ->. destruct (Hl None eq_refl) as (s' & Hlast & Hpub). exists s'. split; [|by apply Hpub]. by destruct tr1.
Qed.

(** ** The agent while an upload is going on *)
Context (other : string → URL + error).

(** The agent's calls see one state of the store after the other. *)
Definition read_answer (c : mcall) (ws : list Store) : list Store * manswer c :=
  match c return list Store * manswer c with
  | GetObject b k =>
      match ws with
      | [] => ([], inr (Errorf "no answer"))
      | w :: ws' => (ws', match objects w !! (b, object_path k) with
                          | Some content => inl content
                          | None => inr (Errorf "NoSuchKey")
                          end)
      end
  | NewReader _ => (ws, ())
  | KMSClient | S3Client | SeekStart | PutObject _ _ _ _ => (ws, None)
  | DescribeKey _ | OpenFile _ => (ws, inr (Errorf "no answer"))
  end.

(** Reading with the pointer from [s1] and the archive from [s2]. *)
Definition agent_reads (url : string) (s1 s2 : Store) : GoM (string + error) :=
  (run read_answer (hash_GetManifest other url) [s1; s2]).2.

(** The URLs instances are given, the second by older versions. *)
Definition manifest_url (url : string) : Prop :=
  url = "s3://" +:+ bucket +:+ "/" +:+ clusterName +:+ "/" +:+ S3HashDir ∨
  url = "s3://" +:+ bucket +:+ "/" +:+ clusterName +:+ "/" +:+ S3LegacyObject.

(** What is published is there. *)
Definition well_published (s : Store) : Prop :=
  ∀ h, pointer s = Some h → has_byte "/" h = false ∧ is_Some (manifest s h).

Record names_ok : Prop := {
  no_bucket : forallb url_byte (bytes_of bucket) = true ∧ has_byte "/" bucket = false;
  no_cluster : forallb url_byte (bytes_of clusterName) = true;
}.

Lemma url_bytes_Join es : Forall (λ e, forallb url_byte (bytes_of e) = true) es →
  forallb url_byte (bytes_of (Join es "/")) = true.
Proof.
  induction 1 as [|e es He Hes IH]; [done|]. destruct (decide (es = [])) as [->|Hne]; [done|].
  rewrite Join_cons, !bytes_of_app, !forallb_app, He, IH by done. done.
Qed.

Lemma url_Parse_s3 e : names_ok → has_byte "/" e = false → forallb url_byte (bytes_of e) = true →
  url_Parse other ("s3://" +:+ bucket +:+ "/" +:+ clusterName +:+ "/" +:+ e)
  = inl {| Host := bucket; Path := "/" +:+ Join [clusterName; e] "/" |}.
Proof.
  intros [[Hb Hs] Hc] He Hbytes.
  assert (∀ rest, url_Parse other ("s3://" +:+ rest) =
    if forallb url_byte (bytes_of rest) && has_byte "/" rest then
      match Split "/" rest with
      | host :: path => inl {| Host := host; Path := "/" +:+ Join path "/" |}
      | [] => other ("s3://" +:+ rest)
      end
    else other ("s3://" +:+ rest)) as -> by done.
  assert (Split "/" (bucket +:+ "/" +:+ clusterName +:+ "/" +:+ e) = [bucket; clusterName; e]) as ->.
  { apply (Split_Join [bucket; clusterName; e]); [done|].
    repeat (apply Forall_cons; split; [first [done|by apply plain_no_slash]|]). constructor. }
  assert (has_byte "/" (bucket +:+ "/" +:+ clusterName +:+ "/" +:+ e) = true) as ->.
  { unfold has_byte. rewrite !bytes_of_app, !existsb_app. apply orb_true_iff. right. done. }
  by rewrite !bytes_of_app, !forallb_app, Hb, Hc, Hbytes.
Qed.

(** Both URLs lead to the pointer. *)
Lemma pointer_of_url e : e = S3HashDir ∨ e = S3LegacyObject →
  pointer_of ("/" +:+ Join [clusterName; e] "/") = pointer_path clusterName.
Proof.
  assert (∀ x, "/" +:+ Join [clusterName; x] "/" = ("/" +:+ clusterName) +:+ String "/" x) as Happ.
  { intros x. by rewrite string_app_assoc. }
  assert (∀ es, es ≠ [] → Forall plain es → path_Join ["/" +:+ Join es "/"; S3HashObject] = "/" +:+ Join (es ++ [S3HashObject]) "/") as Hptr.
  { intros es Hne Hes. apply (path_Join_rooted es [S3HashObject]); [done..|]. plains. }
  unfold pointer_of. intros [->| ->].
  - rewrite (Happ S3HashDir), path_Base_plain by (by apply plain_const). rewrite decide_False by done.
    rewrite <- Happ. apply (Hptr [clusterName; S3HashDir]); [done|plains].
  - rewrite (Happ S3LegacyObject), path_Base_plain by (by apply plain_const). rewrite decide_True by done.
    rewrite <- Happ. change [clusterName; S3LegacyObject] with ([clusterName] ++ [S3LegacyObject]).
    rewrite path_Dir_rooted by (plains || by apply plain_const).
    change S3HashDir with (Join [S3HashDir] "/"). rewrite path_Join_rooted by (done || plains).
    apply (Hptr [clusterName; S3HashDir]); [done|plains].
Qed.

(** What the agent gets, in terms of the objects. *)
Definition agent_result (p : option string) (m : string → option string) : string + error :=
  let key h := path_Dir (pointer_path clusterName) +:+ "/" +:+ h +:+ "-puppet.tar.gz" in
  match p with
  | None => inr (Errorf ("error getting s3 object '" +:+ pointer_path clusterName +:+ "' in bucket '" +:+ bucket
                         +:+ "': " +:+ error_string (Errorf "NoSuchKey")))
  | Some h =>
      match m h with
      | Some content => inl content
      | None => inr (Errorf ("error getting encrypted object by hash '" +:+ key h +:+ "' in bucket '"
                             +:+ bucket +:+ "': " +:+ error_string (Errorf "NoSuchKey")))
      end
  end.

Lemma agent_reads_eq url s1 s2 :
  names_ok → manifest_url url → (∀ h, pointer s1 = Some h → has_byte "/" h = false) →
  agent_reads url s1 s2 = Ret (agent_result (pointer s1) (λ h, manifest s2 h)).
Proof.
  intros Hok Hurl Hh. unfold agent_reads, hash_GetManifest.
  assert (∃ e, (e = S3HashDir ∨ e = S3LegacyObject) ∧
    url_Parse other url = inl {| Host := bucket; Path := "/" +:+ Join [clusterName; e] "/" |}) as (e & He & ->).
  { destruct Hurl as [->| ->]; [exists S3HashDir|exists S3LegacyObject]; (split; [by auto|]); by apply url_Parse_s3. }
  cbn [Host Path]. rewrite pointer_of_url by done. cbn.
  assert (object_path (pointer_path clusterName) = pointer_path clusterName) as ->.
  { apply (object_path_rooted [clusterName; S3HashDir; S3HashObject]); [done|plains]. }
  destruct (pointer s1) as [h|] eqn:Hp; [|done]. specialize (Hh h eq_refl). cbn.
  assert (path_Dir (pointer_path clusterName) +:+ "/" +:+ h +:+ "-puppet.tar.gz" = manifest_path clusterName h) as Hkey.
  { unfold pointer_path. change [clusterName; S3HashDir; S3HashObject] with ([clusterName; S3HashDir] ++ [S3HashObject]).
    rewrite path_Dir_rooted by (plains || by apply plain_const).
    unfold manifest_path. rewrite !Join_cons by done. by rewrite !string_app_assoc. }
  rewrite Hkey.
  assert (object_path (manifest_path clusterName h) = manifest_path clusterName h) as ->.
  { pose proof (manifest_plain h Hh). apply object_path_rooted; [done|plains]. }
  by destruct (manifest s2 h).
Qed.
Lemma Sorted_lookup_le {A} (R : relation A) `{!PreOrder R} l i j x y :
  Sorted R l → i ≤ j → l !! i = Some x → l !! j = Some y → R x y.
Proof.
  intros Hs%(Sorted_StronglySorted R). revert i j. induction Hs as [|z l _ IH Hf]; intros i j Hij Hx Hy; [done|].
  destruct i as [|i], j as [|j]; simpl in *; [by simplify_eq| |lia|by apply (IH i j); [lia|..]].
  injection Hx as ->. apply list_elem_of_lookup_2 in Hy. exact (proj1 (Forall_forall _ _) Hf y Hy).
Qed.

#[local] Instance keeps_preorder new : PreOrder (keeps new).
Proof. split; [by intros s ?|]. intros s1 s2 s3 H12 H23 H1. auto. Qed.

Lemma uploading_well_published s0 new s : well_published s0 → uploading s0 new s → well_published s.
Proof.
  intros H0 [Hm [Hp|[Hp Hn]]] h Hh.
  - rewrite Hp in Hh. destruct (H0 h Hh) as [Hs [c Hc]]. split; [done|].
    destruct (Hm h Hs) as [->|[_ ->]]; by eexists.
  - rewrite Hp in Hh. injection Hh as <-. split; [done|]. by eexists.
Qed.

(** What the agent sees of an upload: the former manifest or the new one. *)
Lemma agent_result_cases s0 new s1 s2 :
  well_published s0 → uploading s0 new s1 → uploading s0 new s2 → keeps new s1 s2 →
  agent_result (pointer s1) (λ h, manifest s2 h) = agent_result (pointer s0) (λ h, manifest s0 h) ∨
  agent_result (pointer s1) (λ h, manifest s2 h) = inl new.
Proof.
  intros H0 [_ Hp] [Hm _] Hk. destruct Hp as [Hp|[Hp Hn]]; rewrite Hp.
  - destruct (pointer s0) as [h|] eqn:Hh; [|by left]. cbn [agent_result]. destruct (H0 h Hh) as [Hs _].
    destruct (Hm h Hs) as [->|[_ ->]]; [by left|by right].
  - right. cbn [agent_result]. by rewrite (Hk Hn).
Qed.

(** C6: publishing a manifest is atomic for the instances.  Whatever fails and
    wherever the upload is cut short, an instance that reads the pointer at
    some time and the archive it names later on gets what it got before the
    upload or the complete new archive, never a mixture and never a pointer to
    nothing; after a successful upload it gets the new one.  What was
    published stays published. *)
Theorem manifest_upload_atomic url s0 new tr res :
  names_ok → manifest_url url → well_published s0 → exec (cluster_upload (inl new)) s0 tr res →
  (∀ i j s1 s2, i ≤ j → tr !! i = Some s1 → tr !! j = Some s2 →
     agent_reads url s1 s2 = agent_reads url s0 s0 ∨ agent_reads url s1 s2 = Ret (inl new)) ∧
  Forall well_published tr ∧
  (res = Ret None → ∃ s', last tr = Some s' ∧ agent_reads url s' s' = Ret (inl new)).
Proof.
  intros Hok Hurl H0 Hex. destruct (cluster_upload_always s0 new tr res Hex) as (Hf & Hs & Hl).
  assert (Forall well_published tr) as Hw.
  { eapply Forall_impl; [exact Hf|]. intros s. by apply uploading_well_published. }
  assert (∀ s s', well_published s → agent_reads url s s' = Ret (agent_result (pointer s) (λ h, manifest s' h))) as Hread.
  { intros s s' Hws. apply agent_reads_eq; [done..|]. intros h Hh. by apply Hws. }
  split_and!; [|done|].
  - intros i j s1 s2 Hij H1 H2.
    pose proof (Forall_lookup_1 _ _ _ _ Hf H1) as Hu1. pose proof (Forall_lookup_1 _ _ _ _ Hf H2) as Hu2.
    rewrite !Hread by (done || exact (Forall_lookup_1 _ _ _ _ Hw H1)).
    destruct (agent_result_cases s0 new s1 s2 H0 Hu1 Hu2) as [->| ->]; [|by left|by right].
    by eapply Sorted_lookup_le; [apply _|..].
  - intros Hr. destruct (Hl Hr) as (s' & Hlast & [Hp Hm]). exists s'. split; [done|].
    assert (well_published s') as Hws by (eapply Forall_lookup_1; [exact Hw|]; by rewrite <- last_lookup).
    rewrite (Hread _ _ Hws), Hp. cbn [agent_result]. by rewrite Hm.
Qed.
End atomic.

(** ** Witness: a first upload in which every call succeeds. *)
Definition example_digest (c : string) : string := "0cc175b9".

Definition example_store (os : list ((string * string) * string)) (pos : nat) : Store :=
  {| objects := list_to_map os; rd_content := "tar"; rd_pos := pos |}.

Definition example_bucket : string := "p-dev-eu-west-1-secrets".

Definition example_objects : list ((string * string) * string) :=
  [((example_bucket, "/dev-c/puppet-manifests/latest-puppet-hash"), "0cc175b9");
   ((example_bucket, "/dev-c/puppet-manifests/0cc175b9-puppet.tar.gz"), "tar");
   ((example_bucket, "/dev-c/puppet.tar.gz"), "tar")].

Definition example_empty : Store := {| objects := ∅; rd_content := ""; rd_pos := 0 |}.

Definition example_upload : MM (option error) :=
  cluster_UploadConfiguration example_digest "p-" "eu-west-1" "dev" "dev" "dev-c" (inl "tar").

Definition example_trace : list Store :=
  [example_empty; example_store [] 0; example_store [] 0; example_store [] 0; example_store [] 0;
   example_store (drop 2 example_objects) 3; example_store (drop 2 example_objects) 0;
   example_store (drop 1 example_objects) 3; example_store example_objects 3].

Lemma example_exec : exec example_upload example_empty example_trace (Ret None).
Proof.
  exists (), (example_store [] 0), (drop 1 example_trace). split; [reflexivity|]. split; [reflexivity|].
  exists None, (example_store [] 0), (drop 2 example_trace). split; [reflexivity|]. split; [reflexivity|].
  exists (inl (Some "arn")), (example_store [] 0), (drop 3 example_trace). split; [reflexivity|]. split; [reflexivity|].
  exists None, (example_store [] 0), (drop 4 example_trace). split; [reflexivity|]. split; [reflexivity|].
  exists None, (example_store (drop 2 example_objects) 3), (drop 5 example_trace).
  split; [split; [left; reflexivity|split; [reflexivity|by left]]|]. split; [reflexivity|].
  exists None, (example_store (drop 2 example_objects) 0), (drop 6 example_trace).
  split; [split; [reflexivity|split; reflexivity]|]. split; [reflexivity|].
  exists None, (example_store (drop 1 example_objects) 3), (drop 7 example_trace).
  split; [split; [left; reflexivity|split; [reflexivity|by left]]|]. split; [reflexivity|].
  exists None, (example_store example_objects 3), (drop 8 example_trace).
  split; [split; [left; reflexivity|split; [reflexivity|by right]]|]. split; [reflexivity|]. by split.
Qed.

Lemma manifest_upload_atomic_witness :
  exec example_upload example_empty example_trace (Ret None) ∧
  ∃ s', last example_trace = Some s' ∧
    agent_reads (λ _, inr (Errorf "parse")) "s3://p-dev-eu-west-1-secrets/dev-c/puppet-manifests" s' s' = Ret (inl "tar").
Proof.
  split; [apply example_exec|].
  refine (proj2 (proj2 (manifest_upload_atomic example_digest _ "p-" "eu-west-1" "dev" "dev" "dev-c" _
    (λ _, inr (Errorf "parse")) _ example_empty "tar" example_trace (Ret None) _ _ _ example_exec)) eq_refl).
  - reflexivity.
  - by apply plain_const.
  - split; [split|]; reflexivity.
  - left. reflexivity.
  - intros h Hh. cbn [objects example_empty] in Hh. by rewrite lookup_empty in Hh.
Defined.
