(* ===== verification/Logs.v ===== *)
(** * Logs: collecting the journals of instances

    [src/pkg/tarmak/logs/logs.go].  [Aggregate] picks the instances of the
    target groups, starts one goroutine per instance that runs [journalctl]
    over SSH with its output going into a pipe, another goroutine per instance
    that decodes the entries from the pipe and appends them to a file per
    unit, waits for the first kind of goroutines and packs the files.

    The goroutines are a step relation on the states of all instances.  A pipe
    has no buffer: a write ends when the decoder has taken it, and the decoder
    takes more once it has worked off what it has.

    Parameters: the clock and the format of times, the journal entries each
    instance sends, and the outcome of file operations. *)

From S2P Require Import Prelude Types Net Utils Provider InstancePool Ssh Paths.

(** ** Targets *)

Definition TargetGroups : list string :=
  ["bastion"; "vault"; "etcd"; "worker"; "master"; "control-plane"].

Record ClusterLogsFlags := { fl_Path : string; fl_Since : string; fl_Until : string }.

Record Logs := {
  l_path : string;
  l_since : string;
  l_until : string;
  l_targets : list string;
  l_hosts : list Host;
}.

Definition DefaultLogsPathPlaceholder : string := "./[target group]-logs.tar.gz".
Definition DefaultLogsSincePlaceholder : string := "$(date --date='24 hours ago')".
Definition DefaultLogsUntilPlaceholder : string := "$(date --date='now')".

Definition expand_group (group : string) : list string :=
  if decide (group = "control-plane") then ["vault"; "etcd"; "master"] else [group].

Section initialise.
(** The working directory, the expansion of [~], absolute paths, the hosts of
    the cluster and the two times. *)
Context (Getwd : string + error) (Expand Abs : string → string + error) (ListHosts : list Host + error).
Context (yesterday now : string).

Definition logs_path (groups : list string) (flags : ClusterLogsFlags) : string + error :=
  if decide (fl_Path flags = DefaultLogsPathPlaceholder) then
    match Getwd with
    | inr err => inr err
    | inl wd => inl (path_Join [wd; Join groups "-" +:+ "-logs.tar.gz"])
    end
  else match Expand (fl_Path flags) with
       | inr err => inr err
       | inl p => match Abs p with inr err => inr err | inl p => inl p end
       end.

Definition quoted (s : string) : string := "'" +:+ s +:+ "'".

(** [initialise] changes the object as it goes, also when it fails. *)
Definition initialise (groups : list string) (flags : ClusterLogsFlags) (l : Logs) : Logs * option error :=
  let l := {| l with l_targets := RemoveDuplicateStrings (l_targets l ++ concat (map expand_group groups)) |} in
  match logs_path groups flags with
  | inr err => (l, Some err)
  | inl p =>
      let l := {| l with l_path := p |} in
      match (if decide (l_hosts l = []) then ListHosts else inl (l_hosts l)) with
      | inr err => (l, Some err)
      | inl hosts =>
          ({| l_path := l_path l; l_targets := l_targets l; l_hosts := hosts;
              l_since := quoted (if decide (fl_Since flags = DefaultLogsSincePlaceholder)
                                 then yesterday else fl_Since flags);
              l_until := quoted (if decide (fl_Until flags = DefaultLogsUntilPlaceholder)
                                 then now else fl_Until flags) |}, None)
      end
  end.
End initialise.

Definition matches (target : string) (h : Host) : bool :=
  SliceContainsPrefix (h_roles h) target || SliceContains (h_aliases h) target.

(** The loop over the hosts for one target: the aliases, whether a host was
    found, and an error; a host without alias ends the loop. *)
Fixpoint target_aliases (target : string) (hosts : list Host) (aliases : list string) (found : bool)
    : list string * bool * option error :=
  match hosts with
  | [] => (aliases, found, None)
  | h :: hosts' =>
      if negb (matches target h) then target_aliases target hosts' aliases found
      else match h_aliases h with
           | [] => (aliases, true, Some (Errorf ("host with correct role '[" +:+ Join (h_roles h) " "
                                                 +:+ "]' found without alias: " +:+ h_id h)))
           | a :: _ => target_aliases target hosts' (aliases ++ [a]) true
           end
  end.

Fixpoint targets_aliases (hosts : list Host) (targets : list string) (aliases : list string)
    (result : option error) : list string * option error :=
  match targets with
  | [] => (aliases, result)
  | target :: targets' =>
      let '(aliases, found, err) := target_aliases target hosts aliases false in
      let result := AppendIf result err in
      let result := if found then result
                    else Append result (Some (Errorf ("no hosts found for target: " +:+ target))) in
      targets_aliases hosts targets' aliases result
  end.

Definition hostAliases (l : Logs) : list string * option error :=
  let '(aliases, result) := targets_aliases (l_hosts l) (l_targets l) [] None in
  (RemoveDuplicateStrings aliases, ErrorOrNil result).

(** [Aggregate] up to the temporary directory: the aliases to fetch from. *)
Definition aggregate_targets (init : list string → Logs → Logs * option error) (WriteConfig : option error)
    (cancelled : option error) (groups : list string) (l : Logs) : Logs * (list string + error) :=
  let groups := RemoveDuplicateStrings groups in
  let '(l, err) := init groups l in
  match err with
  | Some err => (l, inr (Errorf ("failed to set tar gz log bundle path: " +:+ error_string err)))
  | None =>
      match WriteConfig with
      | Some err => (l, inr err)
      | None =>
          match hostAliases l with
          | (_, Some err) => (l, inr err)
          | (aliases, None) =>
              if decide (aliases = []) then
                (l, inr (Errorf ("no host aliases found in targets '[" +:+ Join groups " " +:+ "]'")))
              else match cancelled with
                   | Some err => (l, inr err)
                   | None => (l, inl aliases)
                   end
          end
      end
  end.

(** *** The aliases *)

Definition first_alias (target : string) (h : Host) : option string :=
  if matches target h then head (h_aliases h) else None.

Definition target_ok (hosts : list Host) (target : string) : Prop :=
  (∃ h, h ∈ hosts ∧ matches target h = true) ∧
  (∀ h, h ∈ hosts → matches target h = true → h_aliases h ≠ []).

Lemma target_aliases_spec target hosts aliases found :
  match target_aliases target hosts aliases found with
  | (aliases', found', None) =>
      aliases' = aliases ++ omap (first_alias target) hosts ∧ found' = found || existsb (matches target) hosts ∧
      ∀ h, h ∈ hosts → matches target h = true → h_aliases h ≠ []
  | (_, found', Some e) => found' = true ∧ e ≠ Multi [] ∧
      ∃ h, h ∈ hosts ∧ matches target h = true ∧ h_aliases h = []
  end.
Proof.
  revert aliases found. induction hosts as [|h hosts IH]; intros aliases found; cbn [target_aliases].
  { split; [by rewrite app_nil_r|]. split; [by rewrite orb_false_r|]. intros h Hh. by apply elem_of_nil in Hh. }
  cbn [omap list_omap existsb]. unfold first_alias at 1. destruct (matches target h) eqn:Hm; cbn [negb].
  - destruct (h_aliases h) as [|a als] eqn:Ha.
    { split; [done|]. split; [done|]. exists h. split; [by left|done]. }
    specialize (IH (aliases ++ [a]) true). destruct (target_aliases _ _ _ _) as [[al f] [e|]].
    + destruct IH as (? & ? & h' & ? & ?). split; [done|]. split; [done|]. exists h'. split; [by right|done].
    + destruct IH as (-> & -> & Hall). split; [by rewrite <- app_assoc|]. split; [by rewrite orb_true_r|].
      intros h' [->|Hin]%elem_of_cons Hm'; [by rewrite Ha|by apply Hall].
  - specialize (IH aliases found). destruct (target_aliases _ _ _ _) as [[al f] [e|]].
    + destruct IH as (? & ? & h' & ? & ?). split; [done|]. split; [done|]. exists h'. split; [by right|done].
    + destruct IH as (-> & -> & Hall). split; [done|]. split; [done|].
      intros h' [->|Hin]%elem_of_cons Hm'; [congruence|by apply Hall].
Qed.

Lemma targets_aliases_spec hosts targets aliases result :
  proper result →
  let '(aliases', result') := targets_aliases hosts targets aliases result in
  proper result' ∧ (result' = None ↔ result = None ∧ Forall (target_ok hosts) targets) ∧
  (result' = None → ∀ a, a ∈ aliases' ↔ a ∈ aliases ∨
     ∃ t h, t ∈ targets ∧ h ∈ hosts ∧ matches t h = true ∧ head (h_aliases h) = Some a).
Proof.
  revert aliases result. induction targets as [|t targets IH]; intros aliases result Hr; cbn [targets_aliases].
  { split; [done|]. split; [by rewrite Forall_nil; tauto|]. intros _ a. split; [by left|].
    intros [?|(t & h & Ht & _)]; [done|by apply elem_of_nil in Ht]. }
  pose proof (target_aliases_spec t hosts aliases false) as Ht.
  destruct (target_aliases t hosts aliases false) as [[al found] [e|]].
  - destruct Ht as (-> & He & h & Hin & Hm & Ha).
    assert (proper (AppendIf result (Some e))) as Hp by (apply AppendIf_proper; [done|congruence]).
    specialize (IH al _ Hp). destruct (targets_aliases _ _ _ _) as [al' r']. destruct IH as (Hp' & Hn & _).
    assert (r' ≠ None) as Hne by (by intros [? _]%Hn). split; [done|]. split; [|done]. split; [done|].
    intros [_ [[_ Hall] _]%Forall_cons]. by destruct (Hall h Hin Hm).
  - destruct Ht as (-> & -> & Hall). cbn [orb AppendIf].
    set (result1 := if existsb (matches t) hosts then result else _).
    assert (proper result1) as Hp.
    { unfold result1. destruct (existsb _ _); [done|]. by apply (AppendIf_proper _ (Some _)). }
    specialize (IH (aliases ++ omap (first_alias t) hosts) result1 Hp).
    destruct (targets_aliases _ _ _ _) as [al' r']. destruct IH as (Hp' & Hn & Hin). split; [done|].
    assert (result1 = None ↔ result = None ∧ target_ok hosts t) as H1.
    { unfold result1. destruct (existsb _ _) eqn:He.
      - apply existsb_exists in He as (h & Hh%list_elem_of_In & Hm). split; [|by intros [? _]].
        intros ->. split; [done|]. split; [by exists h|done].
      - split; [done|]. intros [_ [(h & Hh & Hm) _]]. exfalso. apply not_true_iff_false in He. apply He.
        apply existsb_exists. exists h. split; [by apply list_elem_of_In|done]. }
    rewrite Hn, H1, Forall_cons. split; [tauto|]. intros Hr' a. rewrite Hin by tauto.
    rewrite elem_of_app, list_elem_of_omap. setoid_rewrite elem_of_cons. unfold first_alias. split.
    + intros [[?|(h & Hh & Hf)]|(t' & h & ? & ?)]; [by left|..|right; exists t', h; tauto].
      destruct (matches t h) eqn:Hm; [|done]. right. exists t, h. tauto.
    + intros [?|(t' & h & [->|Ht'] & Hh & Hm & Hf)]; [by left; left|..|right; exists t', h; tauto].
      left; right. exists h. by rewrite Hm.
Qed.

(** The hosts of the targets: without an error every target has a host and
    every host of a target an alias, and the aliases are those of the hosts of
    the targets, each once; and when these conditions hold, there is no error. *)
Theorem hostAliases_correct l :
  let '(aliases, err) := hostAliases l in
  (err = None ↔ Forall (target_ok (l_hosts l)) (l_targets l)) ∧
  (err = None → NoDup aliases ∧ ∀ a, a ∈ aliases ↔
     ∃ t h, t ∈ l_targets l ∧ h ∈ l_hosts l ∧ matches t h = true ∧ head (h_aliases h) = Some a).
Proof.
  unfold hostAliases. pose proof (targets_aliases_spec (l_hosts l) (l_targets l) [] None None_proper) as Hspec.
  destruct (targets_aliases _ _ _ _) as [aliases result]. destruct Hspec as (Hp & Hn & Hin).
  rewrite ErrorOrNil_id by done. split; [rewrite Hn; tauto|]. intros Hr. specialize (Hin Hr).
  rewrite RemoveDuplicateStrings_firsts. split; [apply NoDup_firsts|]. intros a.
  rewrite elem_of_firsts. setoid_rewrite Hin. set_solver.
Qed.

(** ** The entries *)

(** The fields of an entry the code uses; [Message] as [%v] prints it. *)
Record SystemdEntry := {
  RealtimeTimestamp : Z;
  SyslogIdentifier : string;
  Pid : string;
  Unit : string;
  SystemdUnit : string;
  Hostname : string;
  Message : string;
}.

(** [strings.Replace(s, "/", "-", -1)] *)
Definition replace_slashes (s : string) : string :=
  string_of (map (λ c, if decide (c = "/"%char) then "-"%char else c) (bytes_of s)).

Definition entry_unit (e : SystemdEntry) : string :=
  TrimSuffix (if decide (SystemdUnit e = "") then Unit e else SystemdUnit e) ".service".

Definition log_name (e : SystemdEntry) : string := replace_slashes (entry_unit e) +:+ ".log".

Definition newline : string := String (ascii_of_nat 10) "".

Section gather.
Context (format_time : Z → string) (tmpDir : string).

Definition log_file (host : string) (e : SystemdEntry) : string := path_Join [tmpDir; host; log_name e].

Definition log_line (e : SystemdEntry) : string :=
  format_time (Z.quot (RealtimeTimestamp e) 1000000) +:+ " " +:+ Hostname e +:+ " " +:+ SyslogIdentifier e
  +:+ "[" +:+ Pid e +:+ "]: " +:+ Message e +:+ newline.

(** The temporary files and the ones among them that are open. *)
Record Files := { content : gmap string string; tmpFiles : gset string }.

(** How the file operations of one entry go: creating a file may fail, and a
    write that fails has written a part. *)
Record Outcome := { create_error : option error; write_error : option (string * error) }.

Definition append (fname text : string) (fs : Files) : Files :=
  {| content := <[fname := default "" (content fs !! fname) +:+ text]> (content fs); tmpFiles := tmpFiles fs |}.

Definition writeToFile (o : Outcome) (host : string) (e : SystemdEntry) (fs : Files) : Files * option error :=
  let fname := log_file host e in
  let '(fs, err) :=
    if decide (fname ∈ tmpFiles fs) then (fs, None)
    else match create_error o with
         | Some err => (fs, Some err)
         | None => ({| content := <[fname := ""]> (content fs); tmpFiles := {[fname]} ∪ tmpFiles fs |}, None)
         end in
  match err with
  | Some err => (fs, Some err)
  | None =>
      match write_error o with
      | Some (part, err) => (append fname part fs, Some err)
      | None => (append fname (log_line e) fs, None)
      end
  end.

(** ** The goroutines *)

(** The goroutine that decodes: at work, stopped by the cancellation, or
    stopped by an error. *)
Inductive ReaderAt := Reading | Interrupted | Failed.

(** One instance: the entries (or what does not decode) its command will
    still print, the write to the pipe that is under way, what the decoder
    has taken, what has been written to files, and whether the command has
    returned. *)
Record Stream := {
  s_alias : string;
  s_todo : list (SystemdEntry + error);
  s_pending : list (SystemdEntry + error);
  s_buffer : list (SystemdEntry + error);
  s_seen : list SystemdEntry;
  s_reader : ReaderAt;
  s_finished : bool;
}.

Record World := {
  streams : list Stream;
  files : Files;
  errors : list error;
  cancelled : bool;
}.

Definition set_stream (i : nat) (s : Stream) (w : World) : World :=
  {| w with streams := <[i := s]> (streams w) |}.

(** Errors of the decoder are appended to a copy of the result, so that they
    leave no trace. *)
Inductive step : World → World → Prop :=
| step_output w i s chunk rest :
    streams w !! i = Some s → s_finished s = false → s_pending s = [] →
    s_todo s = chunk ++ rest → chunk ≠ [] →
    step w (set_stream i {| s with s_todo := rest; s_pending := chunk |} w)
| step_take w i s :
    streams w !! i = Some s → s_reader s = Reading → s_buffer s = [] → s_pending s ≠ [] →
    step w (set_stream i {| s with s_buffer := s_pending s; s_pending := [] |} w)
| step_entry w i s o e rest fs :
    streams w !! i = Some s → s_reader s = Reading → s_buffer s = inl e :: rest →
    writeToFile o (s_alias s) e (files w) = (fs, None) →
    step w (let s' := {| s with s_buffer := rest; s_seen := s_seen s ++ [e];
                         s_reader := if cancelled w then Interrupted else Reading |} in
            {| streams := <[i := s']> (streams w); files := fs; errors := errors w; cancelled := cancelled w |})
| step_undecodable w i s err rest :
    streams w !! i = Some s → s_reader s = Reading → s_buffer s = inr err :: rest →
    step w (set_stream i {| s with s_reader := Failed |} w)
| step_write_fails w i s o e rest fs err :
    streams w !! i = Some s → s_reader s = Reading → s_buffer s = inl e :: rest →
    writeToFile o (s_alias s) e (files w) = (fs, Some err) →
    step w {| streams := <[i := {| s with s_reader := Failed |}]> (streams w); files := fs;
              errors := errors w; cancelled := cancelled w |}
| step_finish w i s err :
    streams w !! i = Some s → s_finished s = false → s_pending s = [] → (err = None → s_todo s = []) →
    step w {| streams := <[i := {| s with s_finished := true |}]> (streams w); files := files w;
              errors := errors w ++ option_list err; cancelled := cancelled w |}
| step_cancel w :
    cancelled w = false → step w {| w with cancelled := true |}.

(** The state when the goroutines start. *)
Definition start (aliases : list string) (journal : string → list (SystemdEntry + error)) : World :=
  {| streams := map (λ a, {| s_alias := a; s_todo := journal a; s_pending := []; s_buffer := [];
                             s_seen := []; s_reader := Reading; s_finished := false |}) aliases;
     files := {| content := ∅; tmpFiles := ∅ |}; errors := []; cancelled := false |}.

(** What [Aggregate] does once [wg.Wait] returns: nothing yet, an error, or
    packing the files as they are. *)
Definition outcome (w : World) : option (gmap string string + error) :=
  if forallb s_finished (streams w) then
    Some (if decide (errors w = []) then
            if cancelled w then inr (Errorf "context canceled") else inl (content (files w))
          else inr (Multi (errors w)))
  else None.

(** ** The collection ends, or hangs on a pipe nobody reads *)

Definition stream_size (s : Stream) : nat :=
  3 * length (s_todo s) + 2 * length (s_pending s) + length (s_buffer s) +
  (if s_finished s then 0 else 1) + match s_reader s with Reading => 1 | _ => 0 end.

Definition size (w : World) : nat := sum_list_with stream_size (streams w) + (if cancelled w then 0 else 1).

Lemma size_update (l : list Stream) i s s' :
  l !! i = Some s → stream_size s' < stream_size s →
  sum_list_with stream_size (<[i := s']> l) < sum_list_with stream_size l.
Proof.
  intros Hi Hs. rewrite <- (take_drop_middle l i s Hi) at 2.
  rewrite insert_take_drop by (by eapply lookup_lt_Some). rewrite !sum_list_with_app. simpl. lia.
Qed.

Lemma step_size w w' : step w w' → size w' < size w.
Proof.
  intros Hstep. destruct Hstep as
    [w i s chunk rest Hi Hf Hp Ht Hc|w i s Hi Hr Hb Hp|w i s o e rest fs Hi Hr Hb Hw|w i s err rest Hi Hr Hb
    |w i s o e rest fs err Hi Hr Hb Hw|w i s err Hi Hf Hp Ht|w Hc]; unfold size; cbn [streams cancelled set_stream].
  7:{ rewrite Hc. lia. }
  all: apply Nat.add_lt_mono_r, (size_update _ _ _ _ Hi); unfold stream_size; cbn.
  - rewrite Ht, Hp, length_app. destruct chunk; [done|]. simpl. lia.
  - rewrite Hb. destruct (s_pending s); [done|]. simpl. lia.
  - rewrite Hb, Hr. destruct (cancelled w); simpl; lia.
  - rewrite Hr. lia.
  - rewrite Hr. lia.
  - rewrite Hf. lia.
Qed.

(** A command whose output nobody takes any more. *)
Definition blocked (s : Stream) : Prop := s_finished s = false ∧ s_pending s ≠ [] ∧ s_reader s ≠ Reading.

Definition good : Outcome := {| create_error := None; write_error := None |}.

Lemma writeToFile_good host e fs : ∃ fs', writeToFile good host e fs = (fs', None).
Proof. unfold writeToFile. cbn. case_decide; by eexists. Qed.

Lemma gather_progress w : (∃ w', step w w') ∨ is_Some (outcome w) ∨ ∃ s, s ∈ streams w ∧ blocked s.
Proof.
  destruct (forallb s_finished (streams w)) eqn:Hall.
  { right; left. unfold outcome. rewrite Hall. by eexists. }
  apply not_true_iff_false in Hall. rewrite forallb_forall in Hall.
  assert (∃ i s, streams w !! i = Some s ∧ s_finished s = false) as (i & s & Hi & Hf).
  { destruct (decide (Exists (λ s, s_finished s = false) (streams w))) as [He|He].
    - apply Exists_exists in He as (s & [i Hi]%list_elem_of_lookup & Hf). by exists i, s.
    - destruct Hall. intros s Hs%list_elem_of_In. destruct (s_finished s) eqn:Hf; [done|].
      destruct He. apply Exists_exists. by exists s. }
  destruct (decide (s_pending s = [])) as [Hp|Hp].
  { left. eexists. by apply (step_finish w i s (Some (Errorf "connection lost"))). }
  destruct (s_reader s) eqn:Hr.
  - left. destruct (s_buffer s) as [|[e|err] rest] eqn:Hb.
    + eexists. by eapply step_take.
    + destruct (writeToFile_good (s_alias s) e (files w)) as [fs Hw]. eexists. by eapply step_entry.
    + eexists. by eapply step_undecodable.
  - right; right. exists s. split; [by eapply list_elem_of_lookup_2|]. split_and!; [done..|by rewrite Hr].
  - right; right. exists s. split; [by eapply list_elem_of_lookup_2|]. split_and!; [done..|by rewrite Hr].
Qed.

(** Collecting logs takes a bounded number of steps, whatever the
    interleaving of the goroutines, the failures and a cancellation; and when
    nothing can happen any more, all commands have returned and the outcome is
    known, or some command is blocked on a pipe whose reader has stopped. *)
Theorem gather_ends n w w' :
  nsteps step n w w' →
  n ≤ size w ∧ ((∀ w'', ~ step w' w'') → is_Some (outcome w') ∨ ∃ s, s ∈ streams w' ∧ blocked s).
Proof.
  intros Hn. split.
  - assert (n + size w' ≤ size w) as Hle; [|lia].
    induction Hn as [|n w w1 w2 Hstep _ IH]; [lia|]. pose proof (step_size _ _ Hstep). lia.
  - intros Hno. destruct (gather_progress w') as [[w'' Hs]|?]; [|done]. by destruct (Hno w'').
Qed.

(** ** What is in the files *)

Context (dir : list string) (Hdir : dir ≠ []) (Hplain : Forall plain dir) (Htmp : tmpDir = "/" +:+ Join dir "/").

Definition path_of (host name : string) : string := path_Join [tmpDir; host; name].

Lemma path_of_eq host name : plain host → plain name → path_of host name = "/" +:+ Join (dir ++ [host; name]) "/".
Proof.
  intros Hh Hn. unfold path_of. rewrite Htmp. rewrite <- path_Join_rooted by (done || plains). done.
Qed.

Lemma path_of_inj h1 n1 h2 n2 : plain h1 → plain n1 → plain h2 → plain n2 →
  path_of h1 n1 = path_of h2 n2 → h1 = h2 ∧ n1 = n2.
Proof.
  intros Hh1 Hn1 Hh2 Hn2. rewrite !path_of_eq by done. intros Heq%Join_inj.
  - apply app_inj_1 in Heq as [_ [= -> ->]]; done.
  - by destruct dir.
  - by destruct dir.
  - apply Forall_app. split; [done|plains].
  - apply Forall_app. split; [done|plains].
Qed.

Lemma log_name_plain e : plain (log_name e).
Proof.
  unfold log_name. assert (∀ t, String.length t ≤ 2 → replace_slashes (entry_unit e) +:+ ".log" ≠ t) as Hlong.
  { intros t Ht Heq. apply (f_equal String.length) in Heq. rewrite string_app_length in Heq. simpl in Heq. lia. }
  split_and!; [apply Hlong; simpl; lia..|]. unfold has_byte, replace_slashes. rewrite bytes_of_app, existsb_app.
  rewrite String.list_ascii_of_string_of_list_ascii. apply orb_false_iff. split; [|done].
  induction (bytes_of (entry_unit e)) as [|c l IH]; [done|]. cbn [map existsb]. rewrite IH, orb_false_r.
  case_decide as Hc; [done|]. apply Ascii.eqb_neq. congruence.
Qed.

(** The text of the entries of one file, if there are any. *)
Definition text_of (name : string) (es : list SystemdEntry) : option string :=
  match filter (λ e, log_name e = name) es with
  | [] => None
  | es => Some (String.concat "" (map log_line es))
  end.

Lemma text_of_snoc name es e :
  text_of name (es ++ [e]) =
    if decide (log_name e = name) then Some (default "" (text_of name es) +:+ log_line e) else text_of name es.
Proof.
  unfold text_of. rewrite filter_app, filter_cons, filter_nil. case_decide as Hn; [|by rewrite app_nil_r].
  assert (∀ l, String.concat "" (map log_line (l ++ [e])) = String.concat "" (map log_line l) +:+ log_line e) as Hc.
  { intros l. induction l as [|x l IH]; [done|]. cbn [map app] in *.
    destruct l as [|y l]; [done|]. cbn [app map String.concat] in *. rewrite IH. by rewrite !string_app_assoc. }
  destruct (filter _ es) as [|x l]; [done|].
  change (Some (String.concat "" (map log_line ((x :: l) ++ [e])))
    = Some (String.concat "" (map log_line (x :: l)) +:+ log_line e)). by rewrite Hc.
Qed.

(** The files of a host hold exactly the entries [es], and the open ones are
    those that exist. *)
Definition host_files (fs : Files) (host : string) (es : list SystemdEntry) : Prop :=
  ∀ name, plain name → content fs !! path_of host name = text_of name es ∧
    (path_of host name ∈ tmpFiles fs ↔ is_Some (text_of name es)).

(** Writing an entry of one host leaves the files of others alone. *)
Lemma writeToFile_other o host e fs fs' err host' es :
  plain host → plain host' → host ≠ host' → writeToFile o host e fs = (fs', err) →
  host_files fs host' es → host_files fs' host' es.
Proof.
  intros Hh Hh' Hne Hw Hf name Hn. specialize (Hf name Hn).
  assert (path_of host' name ≠ log_file host e) as Hp.
  { intros [-> _]%path_of_inj; try done. apply log_name_plain. }
  unfold writeToFile, append in Hw. repeat (case_decide || case_match); simplify_eq; cbn [content tmpFiles];
    rewrite ?lookup_insert_ne by done; set_solver.
Qed.

Lemma writeToFile_own o host e fs fs' es :
  plain host → writeToFile o host e fs = (fs', None) → host_files fs host es → host_files fs' host (es ++ [e]).
Proof.
  intros Hh Hw Hf name Hn. pose proof (Hf name Hn) as [Hc Ht].
  rewrite text_of_snoc. unfold writeToFile, append in Hw.
  destruct (decide (log_name e = name)) as [<-|Hne].
  - change (path_of host (log_name e)) with (log_file host e) in *.
    repeat (case_decide || case_match); simplify_eq; cbn [content tmpFiles]; rewrite ?lookup_insert_eq.
    + rewrite Hc. split; [done|]. split; [by eexists|done].
    + destruct (text_of (log_name e) es) eqn:He.
      { assert (log_file host e ∈ tmpFiles fs) by (apply Ht; by eexists). done. }
      split; [done|]. split; [by eexists|set_solver].
  - assert (path_of host name ≠ log_file host e) as Hp.
    { intros [_ ->]%path_of_inj; try done. apply log_name_plain. }
    repeat (case_decide || case_match); simplify_eq; cbn [content tmpFiles]; rewrite ?lookup_insert_ne by done; set_solver.
Qed.

Section invariant.
Context (aliases : list string) (journal : string → list (SystemdEntry + error)).
Context (Haliases : NoDup aliases) (Hnames : Forall plain aliases).

(** One instance: nothing of its journal is lost or reordered on the way, and
    its files hold what has been written, unless its reader has failed. *)
Record stream_ok (w : World) (s : Stream) : Prop := {
  so_journal : journal (s_alias s) = map inl (s_seen s) ++ s_buffer s ++ s_pending s ++ s_todo s;
  so_files : s_reader s ≠ Failed → host_files (files w) (s_alias s) (s_seen s);
  so_finished : s_finished s = true → s_pending s = [] ∧ (errors w = [] → s_todo s = []);
  so_interrupted : s_reader s = Interrupted → cancelled w = true;
}.

Definition world_ok (w : World) : Prop :=
  map s_alias (streams w) = aliases ∧ Forall (stream_ok w) (streams w).

Lemma alias_plain w s : world_ok w → s ∈ streams w → plain (s_alias s).
Proof.
  intros [Ha _] Hs. apply (proj1 (Forall_forall _ _) Hnames). rewrite <- Ha. by apply list_elem_of_fmap_2.
Qed.

(** A step of one instance. *)
Lemma world_ok_update w w' i s s' :
  world_ok w → streams w !! i = Some s → streams w' = <[i := s']> (streams w) → s_alias s' = s_alias s →
  (∀ j t, j ≠ i → streams w !! j = Some t → s_alias t ≠ s_alias s → stream_ok w t → stream_ok w' t) →
  (stream_ok w s → stream_ok w' s') → world_ok w'.
Proof.
  intros [Ha Hok] Hi Hs' Hal Hother Hown. split.
  - rewrite Hs', list_fmap_insert, Hal, <- Ha. apply list_insert_id. by rewrite list_lookup_fmap, Hi.
  - rewrite Hs'. apply Forall_lookup. intros j t Hj. destruct (decide (j = i)) as [->|Hne].
    + rewrite list_lookup_insert_eq in Hj by (by eapply lookup_lt_Some). injection Hj as <-.
      apply Hown. by eapply Forall_lookup_1.
    + rewrite list_lookup_insert_ne in Hj by done. apply (Hother j t Hne Hj); [|by eapply Forall_lookup_1].
      intros Heq. apply Hne. apply (NoDup_lookup (map s_alias (streams w)) _ _ (s_alias s)); [by rewrite Ha|..].
      * rewrite list_lookup_fmap, Hj. simpl. by rewrite Heq.
      * by rewrite list_lookup_fmap, Hi.
Qed.

(** Streams do not depend on what does not change. *)
Lemma stream_ok_ext w w' t :
  files w' = files w → errors w' = errors w → (cancelled w = true → cancelled w' = true) →
  stream_ok w t → stream_ok w' t.
Proof.
  intros Hf He Hc [H1 H2 H3 H4]. split; [done|by rewrite Hf|by rewrite He|auto].
Qed.
Lemma step_ok w w' : world_ok w → step w w' → world_ok w'.
Proof.
  intros Hw Hstep. pose proof (alias_plain w) as Hpl. destruct Hstep as
    [w i s chunk rest Hi Hf Hp Ht Hc|w i s Hi Hr Hb Hp|w i s o e rest fs Hi Hr Hb Hwr|w i s err rest Hi Hr Hb
    |w i s o e rest fs err Hi Hr Hb Hwr|w i s err Hi Hf Hp Ht|w Hc].
  - eapply (world_ok_update w _ i s); [exact Hw|exact Hi|reflexivity|reflexivity|..]; [intros j t _ _ _; by apply stream_ok_ext|].
    intros [H1 H2 H3 H4]. split; cbn; [|done|by rewrite Hf|done].
    rewrite H1, Hp, Ht. by simplify_list_eq.
  - eapply (world_ok_update w _ i s); [exact Hw|exact Hi|reflexivity|reflexivity|..]; [intros j t _ _ _; by apply stream_ok_ext|].
    intros [H1 H2 H3 H4]. split; cbn; [|done| |done].
    + by rewrite H1, Hb.
    + intros Hfin. destruct (H3 Hfin). done.
  - assert (s ∈ streams w) as Hs by (by eapply list_elem_of_lookup_2).
    eapply (world_ok_update w _ i s); [exact Hw|exact Hi|reflexivity|reflexivity|..].
    + intros j t _ Hj Hne [H1 H2 H3 H4]. split; cbn; [done| |done|done]. intros Hnf.
      refine (writeToFile_other o (s_alias s) e (files w) fs None _ _ _ _ _ Hwr (H2 Hnf));
        [by apply Hpl|apply Hpl; [done|by eapply list_elem_of_lookup_2]|by intros ?; apply Hne].
    + intros [H1 H2 H3 H4]. split; cbn; [| |done|by destruct (cancelled w)].
      * rewrite H1, Hb, map_app. by simplify_list_eq.
      * intros _. refine (writeToFile_own o _ e _ _ _ _ Hwr (H2 _)); [by apply Hpl|by rewrite Hr].
  - eapply (world_ok_update w _ i s); [exact Hw|exact Hi|reflexivity|reflexivity|..]; [intros j t _ _ _; by apply stream_ok_ext|].
    intros [H1 H2 H3 H4]. by split; cbn.
  - assert (s ∈ streams w) as Hs by (by eapply list_elem_of_lookup_2).
    eapply (world_ok_update w _ i s); [exact Hw|exact Hi|reflexivity|reflexivity|..].
    + intros j t _ Hj Hne [H1 H2 H3 H4]. split; cbn; [done| |done|done]. intros Hnf.
      refine (writeToFile_other o (s_alias s) e (files w) fs (Some err) _ _ _ _ _ Hwr (H2 Hnf));
        [by apply Hpl|apply Hpl; [done|by eapply list_elem_of_lookup_2]|by intros ?; apply Hne].
    + intros [H1 H2 H3 H4]. by split; cbn.
  - eapply (world_ok_update w _ i s); [exact Hw|exact Hi|reflexivity|reflexivity|..].
    + intros j t _ _ _ [H1 H2 H3 H4]. split; cbn; [done|done| |done].
      intros Hfin. destruct (H3 Hfin) as [? He]. split; [done|]. by intros [? _]%app_nil; apply He.
    + intros [H1 H2 H3 H4]. split; cbn; [done|done| |done].
      intros _. split; [done|]. intros [_ Herr]%app_nil. apply Ht. by destruct err.
  - destruct Hw as [Ha Hok]. split; [done|]. eapply Forall_impl; [exact Hok|]. intros t. by apply stream_ok_ext.
Qed.
Lemma start_ok : world_ok (start aliases journal).
Proof.
  split; [cbn; rewrite map_map; apply map_id|]. apply Forall_forall.
  intros s (a & -> & _)%list_elem_of_fmap. split; cbn; [done| |done|done].
  intros _ name _. cbn. rewrite lookup_empty. split; [done|]. split; [set_solver|by intros []].
Qed.

Lemma reachable_ok w : rtc step (start aliases journal) w → world_ok w.
Proof. intros Hr. refine (rtc_ind_r world_ok _ start_ok _ w Hr). intros w1 w2 _ Hs Hw. by eapply step_ok. Qed.

(** C25: what a collection that succeeds packs.  Whatever the interleaving of
    the goroutines, the journal of every instance is the entries written to
    its files followed by what its decoder still has: nothing is lost on the
    way, reordered or attributed to another instance, and each file holds
    exactly the lines of the entries of its unit written so far, in order,
    unless writing or decoding has failed. *)
Theorem bundle_correct w bundle a :
  rtc step (start aliases journal) w → outcome w = Some (inl bundle) → a ∈ aliases →
  ∃ s, s ∈ streams w ∧ s_alias s = a ∧ journal a = map inl (s_seen s) ++ s_buffer s ∧
    s_reader s ≠ Interrupted ∧
    (s_reader s = Reading → ∀ name, plain name → bundle !! path_of a name = text_of name (s_seen s)).
Proof.
  intros Hr Ho Ha. destruct (reachable_ok w Hr) as [Hal Hok]. unfold outcome in Ho.
  destruct (forallb s_finished (streams w)) eqn:Hfin; [|done]. case_decide as He; [|done].
  destruct (cancelled w) eqn:Hc; [done|]. injection Ho as <-.
  rewrite <- Hal in Ha. apply list_elem_of_fmap in Ha as (s & -> & Hs). exists s. split; [done|]. split; [done|].
  pose proof (proj1 (Forall_forall _ _) Hok s Hs) as [H1 H2 H3 H4].
  rewrite forallb_forall in Hfin. destruct (H3 (Hfin s (proj1 (list_elem_of_In _ _) Hs))) as [Hp Ht].
  split; [by rewrite H1, Hp, Ht, app_nil_r by done|]. split; [by intros ?%H4; congruence|].
  intros Hread name Hn. apply H2; [by rewrite Hread|done].
Qed.
End invariant.
End gather.

(** ** Two runs, and witnesses *)

Definition example_entry (message : string) : SystemdEntry :=
  {| RealtimeTimestamp := 1500000000000000; SyslogIdentifier := "kubelet"; Pid := "7"; Unit := "";
     SystemdUnit := "kubelet.service"; Hostname := "ip-10-0-0-1"; Message := message |}.

Definition example_time (seconds : Z) : string := fmt_d seconds.
Definition example_dir : string := "/tmp/logs1".
Definition example_journal (a : string) : list (SystemdEntry + error) :=
  [inl (example_entry "started"); inl (example_entry "stopped")].

Abbreviation example_step := (step example_time example_dir).

(** One instance with its state. *)
Definition example_world (todo pending buffer : list (SystemdEntry + error)) (seen : list SystemdEntry)
    (reader : ReaderAt) (fin : bool) (fs : Files) (c : bool) : World :=
  {| streams := [{| s_alias := "master-1"; s_todo := todo; s_pending := pending; s_buffer := buffer;
                    s_seen := seen; s_reader := reader; s_finished := fin |}];
     files := fs; errors := []; cancelled := c |}.

Definition no_files : Files := {| content := ∅; tmpFiles := ∅ |}.

Lemma rtc_step w1 w2 w3 : example_step w1 w2 → rtc example_step w2 w3 → rtc example_step w1 w3.
Proof. apply rtc_l. Qed.

(** A collection that succeeds may pack nothing of what the instance sent:
    the entries are with the decoder, which nobody waits for. *)
Theorem bundle_misses_entries : ∃ w,
  rtc example_step (start ["master-1"] example_journal) w ∧ outcome w = Some (inl ∅).
Proof.
  exists (example_world [] [] (example_journal "") [] Reading true no_files false). split; [|done].
  eapply rtc_step; [eapply (step_output _ _ _ 0 _ (example_journal "") []); done|].
  eapply rtc_step; [eapply (step_take _ _ _ 0); done|].
  eapply rtc_step; [eapply (step_finish _ _ _ 0 _ None); done|]. apply rtc_refl.
Qed.

(** A cancellation may leave [Aggregate] waiting for ever: the decoder stops
    after the entry it is at, and the command blocks on writing the next. *)
Definition hanging_world : World :=
  let e := example_entry "started" in
  example_world [] [inl (example_entry "stopped")] [] [e] Interrupted false
    (writeToFile example_time example_dir good "master-1" e no_files).1 true.

Lemma hanging_run : nsteps example_step 5 (start ["master-1"] example_journal) hanging_world.
Proof.
  eapply nsteps_l; [eapply (step_output _ _ _ 0 _ [inl (example_entry "started")]); done|].
  eapply nsteps_l; [eapply (step_take _ _ _ 0); done|].
  eapply nsteps_l; [eapply (step_output _ _ _ 0 _ [inl (example_entry "stopped")] []); done|].
  eapply nsteps_l; [by eapply step_cancel|].
  eapply nsteps_l; [eapply (step_entry _ _ _ 0 _ good); reflexivity|]. apply nsteps_O.
Qed.

Lemma hanging_stuck w' : ~ example_step hanging_world w'.
Proof.
  intros Hstep. remember hanging_world as w eqn:Hw.
  destruct Hstep as [w i s ? ? Hi|w i s Hi|w i s ? ? ? ? Hi|w i s ? ? Hi|w i s ? ? ? ? ? Hi|w i s ? Hi|w Hc]; subst w;
    try (destruct i as [|[|i]]; [|done..]; injection Hi as <-); by cbn in *.
Qed.

Theorem cancelled_hangs :
  rtc example_step (start ["master-1"] example_journal) hanging_world ∧ outcome hanging_world = None ∧
  (∀ w', ~ example_step hanging_world w').
Proof. split; [eapply rtc_nsteps_2, hanging_run|]. split; [done|apply hanging_stuck]. Qed.

Lemma gather_ends_witness : 5 ≤ size (start ["master-1"] example_journal) ∧
  (is_Some (outcome hanging_world) ∨ ∃ s, s ∈ streams hanging_world ∧ blocked s).
Proof.
  destruct (gather_ends example_time example_dir 5 _ _ hanging_run) as [Hle Hstuck].
  split; [exact Hle|]. apply Hstuck, hanging_stuck.
Defined.

(** The run in which the decoder gets to everything. *)
Definition complete_world : World :=
  let write m fs := (writeToFile example_time example_dir good "master-1" (example_entry m) fs).1 in
  example_world [] [] [] [example_entry "started"; example_entry "stopped"] Reading true
    (write "stopped" (write "started" no_files)) false.

Lemma complete_run : rtc example_step (start ["master-1"] example_journal) complete_world.
Proof.
  eapply rtc_step; [eapply (step_output _ _ _ 0 _ (example_journal "") []); done|].
  eapply rtc_step; [eapply (step_take _ _ _ 0); done|].
  eapply rtc_step; [eapply (step_finish _ _ _ 0 _ None); done|].
  eapply rtc_step; [eapply (step_entry _ _ _ 0 _ good); reflexivity|].
  eapply rtc_step; [eapply (step_entry _ _ _ 0 _ good); reflexivity|]. apply rtc_refl.
Qed.

Lemma bundle_correct_witness : ∃ s, s ∈ streams complete_world ∧ s_alias s = "master-1" ∧
  example_journal "master-1" = map inl (s_seen s) ++ s_buffer s.
Proof.
  destruct (bundle_correct example_time example_dir ["tmp"; "logs1"] ltac:(done) ltac:(plains) eq_refl
    ["master-1"] example_journal ltac:(repeat constructor; set_solver) ltac:(plains)
    complete_world (content (files complete_world)) "master-1" complete_run eq_refl ltac:(by left))
    as (s & Hs & Ha & Hj & _).
  by exists s.
Defined.
