(* ===== verification/Sessions.v ===== *)
(** * Sessions: running a command on an instance

    [Execute], [client], [bastionClient], [config] and [host] of
    [src/pkg/tarmak/ssh/ssh.go], as programs of calls to the network and to
    [WriteConfig], which lists the hosts ([Ssh]).  The bastion is reached
    directly, every other instance through it.

    A connection, a TCP stream through the bastion and a session are numbers
    the network hands out.  The client configuration is its user and the text
    of the key; every connection is made with the callback of [Ssh] for its
    host key. *)

From S2P Require Import Prelude Types Ssh Calls.

Definition bastion_name : string := "bastion".

(** How a command ends. *)
Inductive Ended := EOk | EExit (status : Z) (msg : string) | EError (err : error).

(** [ssh.ClientConfig] *)
Record ClientConfig := { cc_user : string; cc_key : string }.

Inductive scall : Type :=
| CWriteConfig
| CReadKey
| CDial (addr : string) (conf : ClientConfig)
| CDialThrough (conn : nat) (addr : string)
| CHandshake (stream : nat) (addr : string) (conf : ClientConfig)
| CNewSession (conn : nat)
| CRunTrue (session : nat)
| CStart (session : nat) (cmd : string)
| CSelect (session : nat)
| CWait (session : nat)
| CCloseSession (session : nat)
| CCloseClient (conn : nat)
| CCleanup.

(** [CSelect] answers with the end of the command, or nothing when the run was
    canceled first. *)
Definition sanswer (c : scall) : Type :=
  match c with
  | CWriteConfig => gmap string Host * option error
  | CReadKey => string + error
  | CDial _ _ | CDialThrough _ _ | CHandshake _ _ _ | CNewSession _ => nat + error
  | CRunTrue _ | CStart _ _ => option error
  | CSelect _ => option Ended
  | CWait _ => Ended
  | CCloseSession _ | CCloseClient _ | CCleanup => unit
  end.

Abbreviation SM := (Prog sanswer).

Record SshState := { ss_hosts : gmap string Host; bastionClientConn : option nat }.

Section sessions.
Context (ParsePrivateKey : string → option error).

(** [net.JoinHostPort(host.Hostname(), "22")] *)
Definition addr22 (h : Host) : string :=
  if has_byte ":" (h_hostname h) then "[" +:+ h_hostname h +:+ "]:22" else h_hostname h +:+ ":22".

Definition host_err (bok : bool) : string :=
  "failed to resolve target hosts for ssh: found bastion=" +:+ (if bok then "true" else "false").

Definition host (name : string) (s : SshState) : SM (SshState * (Host + error)) :=
  match ss_hosts s !! name with
  | Some h => mret (s, inl h)
  | None =>
      if decide (ss_hosts s = ∅) then
        r ← call CWriteConfig;
        let s := {| s with ss_hosts := r.1 |} in
        match r.2 with
        | Some err => mret (s, inr err)
        | None =>
            let bok := bool_decide (is_Some (ss_hosts s !! bastion_name)) in
            if negb bok && bool_decide (name = bastion_name) then mret (s, inr (Errorf (host_err bok)))
            else match ss_hosts s !! name with
                 | None => mret (s, inr (Errorf (host_err bok +:+ " " +:+ name +:+ "=false")))
                 | Some h => mret (s, inl h)
                 end
        end
      else mret (s, inr (Errorf ("failed to resolve host: " +:+ name)))
  end.

(** [config]; [bastionConfig] is never set, so that it is made every time. *)
Definition config (s : SshState) : SM (SshState * (ClientConfig + error)) :=
  r ← host bastion_name s;
  match r with
  | (s, inr err) => mret (s, inr err)
  | (s, inl bastion) =>
      b ← call CReadKey;
      mret (s, match b with
               | inr err => inr (Errorf ("failed to read ssh private key: " +:+ error_string err))
               | inl b =>
                   match ParsePrivateKey b with
                   | Some err => inr (Errorf ("failed to parse ssh private key: " +:+ error_string err))
                   | None => inl {| cc_user := h_user bastion; cc_key := b |}
                   end
               end)
  end.

(** Is the connection to the bastion still good? *)
Definition healthy (conn : nat) : SM bool :=
  sess ← call (CNewSession conn);
  match sess with
  | inr _ => mret false
  | inl sess => err ← call (CRunTrue sess); mret (is_nil err)
  end.

Definition dial_bastion (s : SshState) : SM (SshState * (nat + error)) :=
  c ← config s;
  match c with
  | (s, inr err) => mret (s, inr err)
  | (s, inl conf) =>
      r ← host bastion_name s;
      match r with
      | (s, inr err) => mret (s, inr err)
      | (s, inl bastion) =>
          r ← call (CDial (addr22 bastion) conf);
          match r with
          | inr err => mret (s, inr (Errorf ("failed to set up connection to bastion: " +:+ error_string err)))
          | inl client => mret ({| s with bastionClientConn := Some client |}, inl client)
          end
      end
  end.

Definition bastionClient (s : SshState) : SM (SshState * (nat + error)) :=
  match bastionClientConn s with
  | Some conn =>
      ok ← healthy conn;
      if ok : bool then mret (s, inl conn) else dial_bastion {| s with bastionClientConn := None |}
  | None => dial_bastion s
  end.

Definition client (hostName : string) (s : SshState) : SM (SshState * (nat + error)) :=
  r ← bastionClient s;
  match r with
  | (s, inr err) => mret (s, inr err)
  | (s, inl bastion) =>
      if decide (hostName = bastion_name) then mret (s, inl bastion)
      else
        r ← host hostName s;
        match r with
        | (s, inr err) => mret (s, inr err)
        | (s, inl h) =>
            conn ← call (CDialThrough bastion (addr22 h));
            match conn with
            | inr err => mret (s, inr (Errorf ("failed to set up connection to " +:+ h_hostname h
                                               +:+ " from basiton: " +:+ error_string err)))
            | inl conn =>
                c ← config s;
                match c with
                | (s, inr err) => mret (s, inr err)
                | (s, inl conf) =>
                    r ← call (CHandshake conn (addr22 h) conf);
                    mret (s, match r with
                             | inr err => inr (Errorf ("failed to set up ssh client: " +:+ error_string err))
                             | inl c => inl c
                             end)
                end
            end
        end
  end.

(** The exit code and the error of a command that has ended. *)
Definition status (e : Ended) : Z * option error :=
  match e with
  | EOk => (0%Z, None)
  | EExit st msg => (st, Some (Errorf msg))
  | EError err => ((-1)%Z, Some err)
  end.

(** With the session open. *)
Definition in_session (client sess : nat) (cmd : string) : SM (Z * option error) :=
  err ← call (CStart sess cmd);
  match err with
  | Some err => mret ((-1)%Z, Some err)
  | None =>
      done ← call (CSelect sess);
      match done with
      | Some e => mret (status e)
      | None =>
          _ ← call (CCloseClient client);
          _ ← call CCleanup;
          e ← call (CWait sess);
          mret (status e)
      end
  end.

Definition Execute (hostName : string) (cmd : list string) (s : SshState) : SM (SshState * (Z * option error)) :=
  r ← client hostName s;
  match r with
  | (s, inr err) => mret (s, ((-1)%Z, Some err))
  | (s, inl client) =>
      r ← call (CNewSession client);
      match r with
      | inr err => mret (s, ((-1)%Z, Some err))
      | inl sess =>
          r ← in_session client sess (Join cmd " ");
          _ ← call (CCloseSession sess);
          mret (s, r)
      end
  end.
End sessions.

(** ** What the network is asked *)
Section spec.
Context (ParsePrivateKey : string → option error).
Context (hostName : string) (cmd : list string) (s0 : SshState).
Abbreviation events := (list (event sanswer)).
Abbreviation E c a := (Ev (R := sanswer) c a).

(** A host of the cluster: known from the start, or listed since. *)
Definition known (h : events) (name : string) (x : Host) : Prop :=
  ss_hosts s0 !! name = Some x ∨ ∃ hs err, E CWriteConfig (hs, err) ∈ h ∧ hs !! name = Some x.

Definition bastion_conn (h : events) (c : nat) : Prop :=
  bastionClientConn s0 = Some c ∨ ∃ addr conf, E (CDial addr conf) (inl c) ∈ h.

(** The user of the bastion and the key of the environment. *)
Definition good_config (h : events) (conf : ClientConfig) : Prop :=
  E CReadKey (inl (cc_key conf)) ∈ h ∧ ParsePrivateKey (cc_key conf) = None ∧
  ∃ bastion, known h bastion_name bastion ∧ cc_user conf = h_user bastion.

(** A stream to the host, through the bastion. *)
Definition through_bastion (h : events) (x : Host) (stream : nat) : Prop :=
  ∃ b, bastion_conn h b ∧ E (CDialThrough b (addr22 x)) (inl stream) ∈ h.

(** A connection to the host. *)
Definition conn_to (h : events) (c : nat) : Prop :=
  if decide (hostName = bastion_name) then bastion_conn h c
  else ∃ x stream conf, known h hostName x ∧ through_bastion h x stream ∧ good_config h conf ∧
         E (CHandshake stream (addr22 x) conf) (inl c) ∈ h.

Definition session_on (h : events) (P : nat → Prop) (sess : nat) : Prop := ∃ c, P c ∧ E (CNewSession c) (inl sess) ∈ h.

Definition is_start (e : event sanswer) : bool := match ev_call e with CStart _ _ => true | _ => false end.

Definition may_ask (h : events) (c : scall) : Prop :=
  match c with
  | CWriteConfig | CReadKey => True
  | CDial addr conf => good_config h conf ∧ ∃ x, known h bastion_name x ∧ addr = addr22 x
  | CDialThrough b addr => bastion_conn h b ∧ ∃ x, known h hostName x ∧ addr = addr22 x
  | CHandshake stream addr conf =>
      good_config h conf ∧ ∃ x, known h hostName x ∧ through_bastion h x stream ∧ addr = addr22 x
  | CNewSession c => bastion_conn h c ∨ conn_to h c
  | CRunTrue sess => session_on h (bastion_conn h) sess
  | CStart sess text => text = Join cmd " " ∧ session_on h (conn_to h) sess ∧ existsb is_start h = false
  | CSelect sess => ∃ text, E (CStart sess text) None ∈ h
  | CWait sess => E (CSelect sess) None ∈ h
  | CCloseClient c => conn_to h c ∧ ∃ sess, E (CSelect sess) None ∈ h
  | CCleanup => ∃ sess, E (CSelect sess) None ∈ h
  | CCloseSession sess => session_on h (conn_to h) sess
  end.

(** The answer: success only of a command that has ended well; the session of
    a command is closed. *)
Definition executed (h : events) (r : SshState * (Z * option error)) : Prop :=
  (r.2.2 = None → r.2.1 = 0%Z ∧ ∃ sess, E (CSelect sess) (Some EOk) ∈ h ∨ E (CWait sess) EOk ∈ h) ∧
  (∀ sess text a, E (CStart sess text) a ∈ h → E (CCloseSession sess) () ∈ h) ∧
  (∀ c, bastionClientConn r.1 = Some c → bastion_conn h c).

(** ** What holds stays true *)
Lemma known_mono h h' n x : h ⊆ h' → known h n x → known h' n x.
Proof. intros Hs [?|(hs & err & ? & ?)]; [by left|]. right. exists hs, err. auto. Qed.

Lemma bastion_conn_mono h h' c : h ⊆ h' → bastion_conn h c → bastion_conn h' c.
Proof. intros Hs [?|(addr & conf & ?)]; [by left|]. right. exists addr, conf. auto. Qed.

Lemma good_config_mono h h' conf : h ⊆ h' → good_config h conf → good_config h' conf.
Proof. intros Hs (? & ? & b & ? & ?). split_and!; [auto..|]. exists b. eauto using known_mono. Qed.

Lemma through_bastion_mono h h' x stream : h ⊆ h' → through_bastion h x stream → through_bastion h' x stream.
Proof. intros Hs (b & ? & ?). exists b. eauto using bastion_conn_mono. Qed.

Lemma conn_to_mono h h' c : h ⊆ h' → conn_to h c → conn_to h' c.
Proof.
  intros Hs. unfold conn_to. case_decide; [by apply bastion_conn_mono|]. intros (x & st & conf & ? & ? & ? & ?).
  exists x, st, conf. split_and!; [by eapply known_mono|by eapply through_bastion_mono|by eapply good_config_mono|auto].
Qed.

(** The state of the client after the events. *)
Record state_ok (h : events) (s : SshState) : Prop := {
  so_hosts : ∀ n x, ss_hosts s !! n = Some x → known h n x;
  so_bastion : ∀ c, bastionClientConn s = Some c → bastion_conn h c;
  so_start : existsb is_start h = false;
}.

Lemma state_ok_snoc h s e : state_ok h s → is_start e = false → state_ok (h ++ [e]) s.
Proof.
  intros [H1 H2 H3] He. split.
  - intros n x Hx. eapply known_mono; [apply sub_snoc|by apply H1].
  - intros c Hc. eapply bastion_conn_mono; [apply sub_snoc|by apply H2].
  - rewrite existsb_app, H3. simpl. by rewrite He.
Qed.

(** The promise of a part of [Execute]. *)
Definition part {A} (h : events) (m : SM (SshState * (A + error))) (Q : events → A → Prop) : Prop :=
  safe may_ask h m (λ h' r, h ⊆ h' ∧ state_ok h' r.1 ∧ ∀ a, r.2 = inl a → Q h' a).

Lemma host_part n h s : state_ok h s → part h (host n s) (λ h' x, known h' n x).
Proof.
  intros Hs. unfold part, host. destruct (ss_hosts s !! n) as [x|] eqn:Hx.
  { cbn. split_and!; [done..|]. intros a [= <-]. by apply Hs. }
  case_decide; [|by cbn]. apply safe_call; [done|]. intros [hs err]. cbn [fst snd]. set (e := Ev _ _).
  assert (state_ok (h ++ [e]) {| s with ss_hosts := hs |}) as Hs'.
  { destruct (state_ok_snoc h s e Hs eq_refl) as [_ H2 H3]. split; [|done..]. cbn. intros m x Hm. right.
    exists hs, err. split; [apply in_last|done]. }
  destruct err; [by cbn; split; [apply sub_snoc|]|]. cbn zeta. destruct (negb _ && _); [by cbn; split; [apply sub_snoc|]|].
  cbn [ss_hosts]. destruct (hs !! n) as [x|] eqn:Hn; cbn; (split_and!; [apply sub_snoc|done|]); [|done].
  intros a [= <-]. by apply Hs'.
Qed.

(** Going on after a part that has succeeded. *)
Lemma part_bind {A B} h (m : SM (SshState * (A + error))) (f : SshState → A → SM (SshState * (B + error))) Q Q' :
  part h m Q → (∀ h' s a, h ⊆ h' → state_ok h' s → Q h' a → part h' (f s a) Q') →
  part h (r ← m; match r with (s, inr err) => mret (s, inr err) | (s, inl a) => f s a end) Q'.
Proof.
  intros Hm Hf. unfold part in *. apply safe_bind. eapply safe_mono; [exact Hm|].
  intros h1 [s [a|err]] _ (Hsub & Hs & Ha); [|done]. cbn in Hs, Ha.
  eapply safe_mono; [apply Hf; [done..|by apply Ha]|]. intros h2 r _ (Hsub2 & ? & ?). split_and!; [by etrans|done..].
Qed.

Lemma config_part h s : state_ok h s → part h (config ParsePrivateKey s) good_config.
Proof.
  intros Hs. eapply part_bind; [by apply host_part|]. intros h1 s1 bastion Hsub Hs1 Hb.
  apply safe_call; [done|]. intros b. cbn. set (e := E CReadKey b).
  split_and!; [apply sub_snoc|by apply state_ok_snoc|]. destruct b as [b|]; [|done].
  destruct (ParsePrivateKey b) eqn:Hp; [done|]. intros conf [= <-]. split_and!; [apply in_last|done|].
  exists bastion. split; [|done]. eapply known_mono; [apply sub_snoc|done].
Qed.

Lemma dial_bastion_part h s : state_ok h s → part h (dial_bastion ParsePrivateKey s) bastion_conn.
Proof.
  intros Hs. eapply part_bind; [by apply config_part|]. intros h1 s1 conf _ Hs1 Hconf.
  eapply part_bind; [by apply host_part|]. intros h2 s2 bastion Hsub2 Hs2 Hb.
  apply safe_call. { split; [by eapply good_config_mono|]. by exists bastion. }
  intros r. set (e := E (CDial _ _) r). pose proof (state_ok_snoc h2 s2 e Hs2 eq_refl) as Hs3.
  destruct r as [c|err]; cbn; (split_and!; [apply sub_snoc| |]); [|intros a [= <-]|done|done].
  - destruct Hs3 as [? ? ?]. split; [done| |done]. cbn. intros c' [= <-]. right. eexists _, _. apply in_last.
  - right. eexists _, _. apply in_last.
Qed.

Lemma bastionClient_part h s : state_ok h s → part h (bastionClient ParsePrivateKey s) bastion_conn.
Proof.
  intros Hs. unfold bastionClient. destruct (bastionClientConn s) as [c|] eqn:Hc; [|by apply dial_bastion_part].
  assert (bastion_conn h c) as Hb by (by apply Hs). unfold part, healthy.
  assert (∀ h', h ⊆ h' → state_ok h' s → safe may_ask h' (dial_bastion ParsePrivateKey {| s with bastionClientConn := None |})
    (λ h'' r, h ⊆ h'' ∧ state_ok h'' r.1 ∧ ∀ a, r.2 = inl a → bastion_conn h'' a)) as Hdial.
  { intros h' Hsub Hs'. eapply safe_mono; [apply dial_bastion_part|].
    - destruct Hs'. by split.
    - intros h'' r _ (? & ? & ?). split_and!; [by etrans|done..]. }
  apply safe_bind, safe_call; [by left|]. intros [sess|err]; [|cbn [mret Prog_ret safe]; apply Hdial; [apply sub_snoc|by apply state_ok_snoc]].
  set (e1 := E (CNewSession _) _). apply safe_call.
  { exists c. split; [eapply bastion_conn_mono; [apply sub_snoc|done]|apply in_last]. }
  intros r. set (e2 := E (CRunTrue _) r). assert (h ⊆ (h ++ [e1]) ++ [e2]) as Hsub by (etrans; apply sub_snoc).
  assert (state_ok ((h ++ [e1]) ++ [e2]) s) as Hs2 by (by apply state_ok_snoc; [apply state_ok_snoc|]).
  cbn [mret Prog_ret safe]. destruct (is_nil r); [|by apply Hdial]. cbn. split_and!; [done..|].
  intros a [= <-]. by eapply bastion_conn_mono.
Qed.

Lemma client_part h s : state_ok h s → part h (client ParsePrivateKey hostName s) conn_to.
Proof.
  intros Hs. eapply part_bind; [by apply bastionClient_part|]. intros h1 s1 b _ Hs1 Hb.
  destruct (decide (hostName = bastion_name)) as [Heq|Hne].
  { cbn. split_and!; [done..|]. intros a [= <-]. unfold conn_to. by rewrite decide_True. }
  eapply part_bind; [by apply host_part|]. intros h2 s2 x Hsub2 Hs2 Hx.
  assert (bastion_conn h2 b) as Hb2 by (by eapply bastion_conn_mono).
  apply safe_call; [split; [done|by exists x]|]. intros r. set (e := E (CDialThrough _ _) r).
  pose proof (state_ok_snoc h2 s2 e Hs2 eq_refl) as Hs3. destruct r as [stream|err]; [|by cbn; split_and!; [apply sub_snoc| |]].
  assert (through_bastion (h2 ++ [e]) x stream) as Ht.
  { exists b. split; [eapply bastion_conn_mono; [apply sub_snoc|done]|apply in_last]. }
  assert (known (h2 ++ [e]) hostName x) as Hx3 by (eapply known_mono; [apply sub_snoc|done]).
  cut (part (h2 ++ [e]) (c ← config ParsePrivateKey s2;
    match c with (s, inr err) => mret (s, inr err) | (s, inl conf) =>
      r ← call (CHandshake stream (addr22 x) conf);
      mret (s, match r with inr err => inr (Errorf ("failed to set up ssh client: " +:+ error_string err)) | inl c => inl c end)
    end) conn_to).
  { intros Hp. eapply safe_mono; [exact Hp|]. intros h' r _ (? & ? & ?). split_and!; [|done..]. etrans; [apply sub_snoc|done]. }
  eapply part_bind; [by apply config_part|]. intros h4 s4 conf Hsub4 Hs4 Hconf.
  apply safe_call. { split; [done|]. exists x. split_and!; [by eapply known_mono|by eapply through_bastion_mono|done]. }
  intros r. set (e' := E (CHandshake _ _ _) r). cbn. split_and!; [apply sub_snoc|by apply state_ok_snoc|].
  destruct r as [c|]; [|done]. intros a [= <-]. unfold conn_to. rewrite decide_False by done.
  pose proof (sub_snoc h4 e') as Hlast.
  exists x, stream, conf. split_and!; [eapply known_mono; [|exact Hx3]; by etrans|
    eapply through_bastion_mono; [|exact Ht]; by etrans|by eapply good_config_mono|apply in_last].
Qed.

Definition only_started (h : events) (sess : nat) : Prop := ∀ sess' text a, E (CStart sess' text) a ∈ h → sess' = sess.

Lemma only_started_snoc h e sess : only_started h sess → is_start e = false → only_started (h ++ [e]) sess.
Proof.
  intros Ho He sess' text a [Hin|Heq%list_elem_of_singleton]%elem_of_app; [by eapply Ho|]. by rewrite <- Heq in He.
Qed.

Lemma only_started_none h sess text a : existsb is_start h = false → only_started (h ++ [E (CStart sess text) a]) sess.
Proof.
  intros Hn sess' text' a' [Hin|Heq%list_elem_of_singleton]%elem_of_app; [|by injection Heq].
  exfalso. assert (existsb is_start h = true); [|congruence]. apply existsb_exists. eexists. split; [by apply list_elem_of_In|done].
Qed.

(** Success is the end of the command. *)
Definition ended_well (h : events) (r : Z * option error) : Prop :=
  r.2 = None → r.1 = 0%Z ∧ ∃ sess, E (CSelect sess) (Some EOk) ∈ h ∨ E (CWait sess) EOk ∈ h.

Lemma in_session_safe h c sess :
  conn_to h c → E (CNewSession c) (inl sess) ∈ h → existsb is_start h = false →
  safe may_ask h (in_session c sess (Join cmd " ")) (λ h' r, h ⊆ h' ∧ only_started h' sess ∧ ended_well h' r).
Proof.
  intros Hc Hsess Hn. unfold in_session. apply safe_call; [split_and!; [done|by exists c|done]|].
  intros err. set (e1 := E (CStart _ _) err). assert (only_started (h ++ [e1]) sess) as Ho by (by apply only_started_none).
  destruct err as [err|]; [by cbn; split_and!; [apply sub_snoc| |]|].
  apply safe_call; [eexists; apply in_last|]. intros d. set (e2 := E (CSelect _) d).
  assert (only_started ((h ++ [e1]) ++ [e2]) sess) as Ho2 by (by apply only_started_snoc).
  assert (h ⊆ (h ++ [e1]) ++ [e2]) as Hsub by (etrans; apply sub_snoc).
  destruct d as [d|].
  { cbn. split_and!; [done..|]. destruct d; [|done..]. intros _. split; [done|]. exists sess. left. apply in_last. }
  apply safe_call. { split; [by eapply conn_to_mono|]. exists sess. apply in_last. }
  intros []. apply safe_call. { exists sess. apply in_before, in_last. }
  intros []. apply safe_call. { by apply in_before, in_before, in_last. }
  intros d. cbn. split_and!.
  - etrans; [exact Hsub|]. etrans; [apply sub_snoc|]. etrans; apply sub_snoc.
  - by do 3 (apply only_started_snoc; [|done]).
  - destruct d; [|done..]. intros _. split; [done|]. exists sess. right. apply in_last.
Qed.

Lemma existsb_none_start h sess text a : existsb is_start h = false → E (CStart sess text) a ∉ h.
Proof.
  intros Hn Hin. assert (existsb is_start h = true); [|congruence]. apply existsb_exists. eexists.
  split; [by apply list_elem_of_In|done].
Qed.

Lemma state_ok_start : state_ok [] s0.
Proof. split; [by left|by left|done]. Qed.

(** Running a command on an instance, whatever the network and the cloud
    answer.  The bastion is the only address that is connected to directly;
    another instance is reached by a stream through a connection to the
    bastion, to the address of the host of that name; every connection uses
    the key of the environment and the user of the bastion.  The command is
    started once at most, on a session of such a connection; the session is
    closed on every path, while the connection is closed only when the run is
    canceled; and success is reported only for a command that has ended well. *)
Theorem Execute_safe : safe may_ask [] (Execute ParsePrivateKey hostName cmd s0) executed.
Proof.
  unfold Execute. apply safe_bind. eapply safe_mono; [by apply client_part, state_ok_start|].
  intros h1 [s1 [c|err]] _ (_ & Hs1 & Hc); cbn [fst snd] in *.
  2: { cbn. split_and!; [done| |apply Hs1]. intros sess text a Hin. by apply (existsb_none_start h1) in Hin; [|apply Hs1]. }
  specialize (Hc c eq_refl). apply safe_call; [by right|]. intros r. set (e := E (CNewSession c) r).
  pose proof (state_ok_snoc h1 s1 e Hs1 eq_refl) as Hs2. destruct r as [sess|err].
  2: { cbn. split_and!; [done| |apply Hs2]. intros sess text a Hin. by apply (existsb_none_start (h1 ++ [e])) in Hin; [|apply Hs2]. }
  assert (conn_to (h1 ++ [e]) c) as Hc2 by (eapply conn_to_mono; [apply sub_snoc|done]).
  apply safe_bind. eapply safe_mono; [apply in_session_safe; [done|apply in_last|apply Hs2]|].
  intros h3 r _ (Hsub & Ho & Hw). apply safe_call.
  { exists c. split; [by eapply conn_to_mono|]. apply Hsub, in_last. }
  intros []. cbn. set (e' := E (CCloseSession sess) ()). split_and!.
  - intros Hr. destruct (Hw Hr) as (? & sess' & [?|?]); (split; [done|]); exists sess'; [left|right]; by apply in_before.
  - intros sess' text a [Hin|Heq%list_elem_of_singleton]%elem_of_app; [|done]. rewrite (Ho _ _ _ Hin). apply in_last.
  - intros c' Hc'. eapply bastion_conn_mono; [|by apply Hs2]. etrans; [exact Hsub|apply sub_snoc].
Qed.
End spec.
