(* ===== verification/Bastion.v ===== *)
(** * Bastion: is the bastion there?

    [VerifyBastionAvailable] of [src/pkg/tarmak/environment/bastion.go], which
    the RPC of the Terraform provider asks ([Rpc]): the hosts of the hub are
    listed, then [/bin/true] is run on the bastion ([Sessions]) until it
    succeeds or the retries are over.  How often it is tried again is up to the
    time and the context; [retries] is that number. *)

From S2P Require Import Prelude Types Ssh Calls Sessions.

Section bastion.
Context (ParsePrivateKey : string → option error).

Definition true_cmd : list string := ["/bin/true"].

(** [executeSSH] *)
Definition executeSSH (s : SshState) : SM (SshState * option error) :=
  r ← Execute ParsePrivateKey bastion_name true_cmd s;
  let msg := "error while connecting to bastion host" in
  mret (r.1, match r.2 with
             | (_, Some err) => Some (Errorf (msg +:+ ": " +:+ error_string err))
             | (retCode, None) =>
                 if decide (retCode = 0%Z) then None
                 else Some (Errorf (msg +:+ " unexpected return code: " +:+ fmt_d retCode))
             end).

(** [backoff.Retry] *)
Fixpoint retry (retries : nat) (s : SshState) : SM (SshState * option error) :=
  r ← executeSSH s;
  match r.2, retries with
  | Some _, S retries' => retry retries' r.1
  | _, _ => mret r
  end.

Definition VerifyBastionAvailable (retries : nat) (s : SshState) : SM (SshState * option error) :=
  w ← call CWriteConfig;
  let s := {| s with ss_hosts := w.1 |} in
  match w.2 with
  | Some err => mret (s, Some err)
  | None =>
      r ← retry retries s;
      mret (r.1, match r.2 with
                 | Some err => Some (Errorf ("failed to connect to bastion host: " +:+ error_string err))
                 | None => None
                 end)
  end.

Abbreviation events := (list (event sanswer)).
Abbreviation E c a := (Ev (R := sanswer) c a).

(** Allowed in an attempt, by the events of that attempt. *)
Definition may_attempt (h : events) (c : scall) : Prop :=
  ∃ h1 h2 s, h = h1 ++ h2 ∧ may_ask ParsePrivateKey bastion_name true_cmd s h2 c.

(** The last attempt succeeded. *)
Definition attempt_succeeded (h : events) (s : SshState) : Prop :=
  ∃ h1 h2 s0, h = h1 ++ h2 ∧ executed s0 h2 (s, (0%Z, None)).

Lemma executeSSH_part h s : safe may_attempt h (executeSSH s) (λ h' r, r.2 = None → attempt_succeeded h' r.1).
Proof.
  apply safe_bind. rewrite <- (app_nil_r h) at 1.
  eapply safe_mono.
  - eapply safe_allow; [apply safe_shift, (Execute_safe ParsePrivateKey bastion_name true_cmd s)|].
    intros h' c (h1 & -> & Hc). by exists h, h1, s.
  - intros h' [s' [code [err|]]] _ (h1 & -> & He); cbn; [done|]. case_decide as Hz; [|done]. intros _. by exists h, h1, s; subst.
Qed.

Lemma retry_part retries h s :
  safe may_attempt h (retry retries s) (λ h' r, h ⊆ h' ∧ (r.2 = None → attempt_succeeded h' r.1)).
Proof.
  revert h s. induction retries as [|retries IH]; intros h s; cbn; apply safe_bind;
    (eapply safe_mono; [apply executeSSH_part|]); intros h' [s' [err|]] Hsub Hr; cbn in *; try (by auto).
  eapply safe_mono; [apply IH|]. intros h'' r _ [? ?]. split; [by etrans|done].
Qed.

End bastion.
