(* ===== verification/Tunnel.v ===== *)
(** * Tunnel: the life of an SSH tunnel

    [src/pkg/tarmak/ssh/tunnel.go] and [Cleanup] of
    [src/pkg/tarmak/ssh/ssh.go].  A tunnel that has been started has a
    goroutine that dials the destination and accepts connections ([handle]),
    two goroutines per connection that copy, and one that ends the tunnel when
    it has been idle for ten minutes ([handleTimeout]).  [Stop] and [Cleanup]
    may come at any time.

    A step is one action of one of them between two synchronisations; the
    outcome of a network operation is an argument of the event.  Closing a nil
    or a closed channel panics. *)

From S2P Require Import Prelude.

Inductive Chan := NilCh | OpenCh | ClosedCh.

Definition close (c : Chan) : GoM Chan := match c with OpenCh => Ret ClosedCh | _ => Panic end.

Definition is_closed (c : Chan) : bool := match c with ClosedCh => true | _ => false end.

(** Where [handle] is: not started, dialling with the errors so far, accepting
    (a connection has been dialled), or returned. *)
Inductive Handler := HNone | HDial (errCount : nat) | HAccept (errCount : nat) | HDone.

(** Where [handleTimeout] is: not started, in its first sleep, at connection
    [i] of the loop, after the loop, after the clean-up, or returned. *)
Inductive Timeout := TNone | TSleep | TWait (i : nat) | TIdle | TCleaned | TDone.

(** An accepted connection: the positions in [remoteConns] of the connection
    to the destination and of the client's, whether copying from the client
    has ended, and whether its channel in [openConns] is closed. *)
Record Accepted := { a_remote : nat; a_conn : nat; a_ended : bool; a_closed : bool }.

Record Tunnel := {
  daemonize : bool;
  listener : option bool;          (* open or closed *)
  daemon : option bool;            (* alive or killed *)
  stopCh : Chan;
  doneCh : Chan;
  openConns : list Accepted;
  remoteConns : list bool;         (* open or closed *)
  handler : Handler;
  timeouts : Timeout;
}.

(** [SSH.Tunnel] *)
Definition NewTunnel (d : bool) : Tunnel :=
  {| daemonize := d; listener := None; daemon := None; stopCh := NilCh; doneCh := OpenCh;
     openConns := []; remoteConns := []; handler := HNone; timeouts := TNone |}.

(** [Start], given the errors of connecting to the bastion and of listening,
    or of starting the daemon. *)
Definition Start (bastion listen : option error) (t : Tunnel) : Tunnel * option error :=
  let t := {| t with stopCh := OpenCh; doneCh := OpenCh |} in
  match bastion with
  | Some err => (t, Some err)
  | None =>
      match listen with
      | Some err => (t, Some err)
      | None =>
          if daemonize t then ({| t with daemon := Some true |}, None)
          else ({| t with listener := Some true; handler := HDial 0; timeouts := TSleep |}, None)
      end
  end.

Definition close_conns (conns : list bool) : list bool := map (λ _, false) conns.

Definition cleanup (t : Tunnel) : GoM Tunnel :=
  stop ← (if is_closed (stopCh t) then Ret (stopCh t) else close (stopCh t));
  Ret {| t with stopCh := stop; remoteConns := close_conns (remoteConns t);
         listener := (λ _, false) <$> listener t |}.

Definition Stop (t : Tunnel) : GoM Tunnel :=
  t ← cleanup t;
  Ret {| t with daemon := (λ _, false) <$> daemon t |}.

(** [SSH.Cleanup] *)
Fixpoint Cleanup (ts : list Tunnel) : GoM (list Tunnel) :=
  match ts with
  | [] => Ret []
  | t :: ts => t ← cleanup t; ts ← Cleanup ts; Ret (t :: ts)
  end.

(** One round of the loop of [handle] up to the next network call; [ok] is
    the outcome of the call it waits for.  A closed listener accepts nothing. *)
Definition handle_step (ok : bool) (t : Tunnel) : Tunnel :=
  match handler t with
  | HDial n =>
      if ok then {| t with remoteConns := remoteConns t ++ [true]; handler := HAccept n |}
      else if is_closed (stopCh t) then {| t with handler := HDone |}
      else if decide (S n = 10) then {| t with handler := HDone |}
      else {| t with handler := HDial (S n) |}
  | HAccept n =>
      if ok && bool_decide (listener t = Some true) then
        {| t with remoteConns := remoteConns t ++ [true]; handler := HDial n;
           openConns := openConns t ++ [{| a_remote := length (remoteConns t) - 1; a_conn := length (remoteConns t);
                                           a_ended := false; a_closed := false |}] |}
      else if is_closed (stopCh t) then {| t with handler := HDone |}
      else {| t with handler := HDial n |}
  | _ => t
  end.

(** The destination of connection [i] ends, which closes the connection to it. *)
Definition remote_ends (i : nat) (t : Tunnel) : Tunnel :=
  match openConns t !! i with
  | None => t
  | Some a => {| t with remoteConns := <[a_remote a := false]> (remoteConns t) |}
  end.

(** The client of connection [i] ends, which closes its side. *)
Definition copy_ends (i : nat) (t : Tunnel) : Tunnel :=
  match openConns t !! i with
  | None => t
  | Some a =>
      if a_ended a then t
      else {| t with remoteConns := <[a_conn a := false]> (remoteConns t);
              openConns := <[i := {| a with a_ended := true |}]> (openConns t) |}
  end.

(** Ten minutes after that. *)
Definition conn_timeout (i : nat) (t : Tunnel) : Tunnel :=
  match openConns t !! i with
  | None => t
  | Some a => if a_ended a then {| t with openConns := <[i := {| a with a_closed := true |}]> (openConns t) |} else t
  end.

(** [handleTimeout]: a step of the goroutine that ends an idle tunnel; it
    waits while the channel of its connection is open. *)
Definition timeout_step (t : Tunnel) : GoM Tunnel :=
  match timeouts t with
  | TSleep => Ret {| t with timeouts := TWait 0 |}
  | TWait i =>
      match openConns t !! i with
      | None => Ret {| t with timeouts := TIdle |}
      | Some a => Ret (if a_closed a then {| t with timeouts := TWait (S i) |} else t)
      end
  | TIdle => t ← cleanup t; Ret {| t with timeouts := TCleaned |}
  | TCleaned =>
      d ← (if is_closed (doneCh t) then Ret (doneCh t) else close (doneCh t));
      Ret {| t with doneCh := d; timeouts := TDone |}
  | _ => Ret t
  end.

(** What can happen to a tunnel that has been started. *)
Inductive Event :=
| Handle (ok : bool)
| RemoteEnds (i : nat)
| CopyEnds (i : nat)
| ConnTimeout (i : nat)
| TimeoutStep
| CallStop
| CallCleanup.

Definition step (e : Event) (t : Tunnel) : GoM Tunnel :=
  match e with
  | Handle ok => Ret (handle_step ok t)
  | RemoteEnds i => Ret (remote_ends i t)
  | CopyEnds i => Ret (copy_ends i t)
  | ConnTimeout i => Ret (conn_timeout i t)
  | TimeoutStep => timeout_step t
  | CallStop => Stop t
  | CallCleanup => cleanup t
  end.

Fixpoint run (es : list Event) (t : Tunnel) : GoM Tunnel :=
  match es with
  | [] => Ret t
  | e :: es => t ← step e t; run es t
  end.

(** ** A started tunnel does not panic *)

Definition channels_made (t : Tunnel) : Prop := stopCh t ≠ NilCh ∧ doneCh t ≠ NilCh.

Lemma Start_channels b l t : channels_made (Start b l t).1.
Proof. unfold Start. destruct b, l; [done..|]. cbn. by destruct (daemonize t). Qed.

Lemma cleanup_made t : channels_made t → ∃ t', cleanup t = Ret t' ∧ channels_made t' ∧
  t' = {| t with stopCh := ClosedCh; remoteConns := close_conns (remoteConns t);
          listener := (λ _, false) <$> listener t |}.
Proof.
  intros [Hs Hd]. unfold cleanup. destruct (stopCh t) eqn:E; [done|..]; cbn; eexists; (split; [done|]); by split.
Qed.

Lemma step_made e t : channels_made t → ∃ t', step e t = Ret t' ∧ channels_made t'.
Proof.
  intros Ht. pose proof Ht as [Hs Hd]. destruct e as [ok|i|i|i| | |]; cbn [step].
  - eexists. split; [done|]. unfold handle_step. by repeat case_match.
  - eexists. split; [done|]. unfold remote_ends. by repeat case_match.
  - eexists. split; [done|]. unfold copy_ends. by repeat case_match.
  - eexists. split; [done|]. unfold conn_timeout. by repeat case_match.
  - unfold timeout_step. destruct (timeouts t); [by eexists..| | | |by eexists].
    + case_match; [case_match|]; by eexists.
    + destruct (cleanup_made t Ht) as (t' & -> & Ht' & _). by eexists.
    + destruct (doneCh t) eqn:E; [done|..]; cbn; eexists; (split; [done|]); by split.
  - unfold Stop. destruct (cleanup_made t Ht) as (t' & -> & Ht' & _). by eexists.
  - destruct (cleanup_made t Ht) as (t' & -> & Ht' & _). by exists t'.
Qed.

Lemma run_made es t : channels_made t → ∃ t', run es t = Ret t' ∧ channels_made t'.
Proof.
  revert t. induction es as [|e es IH]; intros t Ht; cbn [run]; [by eexists|].
  destruct (step_made e t Ht) as (t1 & -> & Ht1). by apply IH.
Qed.

(** ** After [Stop] *)

Definition open_conns (t : Tunnel) : nat := length (filter (λ b, b = true) (remoteConns t)).

(** How many more calls [handle] waits for once the tunnel is stopped. *)
Definition handler_left (t : Tunnel) : nat := match handler t with HDial _ => 2 | HAccept _ => 1 | _ => 0 end.

Record stopped (t : Tunnel) : Prop := {
  st_stop : stopCh t = ClosedCh;
  st_listener : listener t ≠ Some true;
  st_daemon : daemon t ≠ Some true;
  st_conns : open_conns t ≤ 1;
  st_dial : handler_left t = 2 → open_conns t = 0;
}.

Lemma close_conns_none l : filter (λ b, b = true) (close_conns l) = [].
Proof. induction l as [|b l IH]; [done|]. cbn [close_conns map]. by rewrite filter_cons_False. Qed.

Lemma close_one_le i l : length (filter (λ b, b = true) (<[i := false]> l)) ≤ length (filter (λ b, b = true) l).
Proof.
  destruct (decide (i < length l)) as [Hi|Hi]; [|by rewrite list_insert_ge by lia].
  destruct (lookup_lt_is_Some_2 l i Hi) as [b Hb]. rewrite <- (take_drop_middle l i b Hb) at 2.
  rewrite insert_take_drop by done. rewrite !filter_app, !length_app, filter_cons_False by done.
  rewrite (filter_cons _ b). case_decide; simpl; lia.
Qed.

Lemma filter_open_snoc l : length (filter (λ b, b = true) (l ++ [true])) = S (length (filter (λ b, b = true) l)).
Proof. rewrite filter_app, length_app. simpl. lia. Qed.

(** Nothing but closing happens to the connections, [handle] apart. *)
Lemma stopped_closing t t' :
  stopped t → stopCh t' = stopCh t → listener t' = listener t → daemon t' = daemon t → handler t' = handler t →
  open_conns t' ≤ open_conns t → stopped t' ∧ handler_left t' = handler_left t.
Proof.
  intros [H1 H2 H3 H4 H5] E1 E2 E3 E4 Hle. assert (handler_left t' = handler_left t) as Eh by (unfold handler_left; by rewrite E4).
  split; [|done]. split; [congruence..|lia|]. rewrite Eh. intros ?%H5. lia.
Qed.

Lemma stopped_cleanup t t' : stopped t → cleanup t = Ret t' → stopped t' ∧ handler_left t' = handler_left t.
Proof.
  intros Hst Hc. pose proof Hst as [H1 H2 H3 H4 H5]. unfold cleanup in Hc. rewrite H1 in Hc. cbn in Hc. injection Hc as <-.
  split; [|done]. split; [done| |done|..].
  - cbn. by destruct (listener t).
  - unfold open_conns. cbn. rewrite close_conns_none. simpl. lia.
  - intros _. unfold open_conns. cbn. by rewrite close_conns_none.
Qed.

Lemma stopped_handle ok t : stopped t →
  stopped (handle_step ok t) ∧ handler_left (handle_step ok t) ≤ handler_left t - 1.
Proof.
  intros Hst. pose proof Hst as [H1 H2 H3 H4 H5]. unfold handle_step, handler_left in *.
  destruct (handler t) as [|n|n|] eqn:Hh; [by rewrite Hh; split; [|lia]| | |by rewrite Hh; split; [|lia]].
  - destruct ok.
    + split; [|simpl; lia]. specialize (H5 eq_refl). split; [done..| |done]. unfold open_conns in *. cbn.
      rewrite filter_open_snoc. lia.
    + rewrite H1. cbn. split; [by split|lia].
  - rewrite bool_decide_false by done. rewrite andb_false_r, H1. cbn. split; [by split|lia].
Qed.

Definition is_handle (e : Event) : bool := match e with Handle _ => true | _ => false end.

Lemma stopped_step e t t' : stopped t → step e t = Ret t' →
  stopped t' ∧ handler_left t' ≤ handler_left t - (if is_handle e then 1 else 0).
Proof.
  intros Hst. destruct e as [ok|i|i|i| | |]; cbn [step is_handle].
  - intros [= <-]. by apply stopped_handle.
  - intros [= <-]. destruct (stopped_closing t (remote_ends i t)) as [? ->]; [done|..|split; [done|lia]];
      unfold remote_ends; case_match; try done. apply close_one_le.
  - intros [= <-]. destruct (stopped_closing t (copy_ends i t)) as [? ->]; [done|..|split; [done|lia]];
      unfold copy_ends; case_match; try done; case_match; try done. apply close_one_le.
  - intros [= <-]. destruct (stopped_closing t (conn_timeout i t)) as [? ->]; [done|..|split; [done|lia]];
      unfold conn_timeout; case_match; try done; case_match; done.
  - intros Hs. assert (stopped t' ∧ handler_left t' = handler_left t) as [? ->]; [|split; [done|lia]].
    unfold timeout_step in Hs. destruct (timeouts t) eqn:Ht.
    + by injection Hs as <-.
    + injection Hs as <-. by apply stopped_closing.
    + case_match; [|injection Hs as <-; by apply stopped_closing]. injection Hs as <-. case_match; [|done].
      by apply stopped_closing.
    + destruct (cleanup t) as [t1|] eqn:Hc; [|done]. cbn in Hs. injection Hs as <-.
      destruct (stopped_cleanup t t1 Hst Hc) as [Hst1 <-]. by apply stopped_closing.
    + destruct (is_closed (doneCh t)), (doneCh t); cbn in Hs; try done; injection Hs as <-; by apply stopped_closing.
    + by injection Hs as <-.
  - unfold Stop. destruct (cleanup t) as [t1|] eqn:Hc; [|done]. intros [= <-].
    destruct (stopped_cleanup t t1 Hst Hc) as [[H1 H2 H3 H4 H5] Hl]. cbn in *.
    assert (handler_left {| t1 with daemon := (λ _, false) <$> daemon t1 |} = handler_left t1) as -> by done.
    split; [|lia]. split; [done..| |done|done]. cbn. by destruct (daemon t1).
  - intros Hc. destruct (stopped_cleanup t t' Hst Hc) as [? ->]. split; [done|lia].
Qed.

Lemma stopped_run es t t' : stopped t → run es t = Ret t' →
  stopped t' ∧ handler_left t' ≤ handler_left t - length (filter (λ e, is_handle e = true) es).
Proof.
  revert t. induction es as [|e es IH]; intros t Ht; cbn [run].
  { intros [= <-]. split; [done|simpl; lia]. }
  destruct (step e t) as [t1|] eqn:Hs; [|done]. cbn [mbind GoM_bind]. intros Hr. destruct (stopped_step e t t1 Ht Hs) as [Ht1 Hl].
  destruct (IH t1 Ht1 Hr) as [? Hl']. split; [done|]. rewrite filter_cons.
  destruct (is_handle e); [rewrite decide_True, length_cons by done|rewrite decide_False by done]; lia.
Qed.

Lemma Stop_stopped t t' : channels_made t → Stop t = Ret t' → stopped t'.
Proof.
  intros Ht. unfold Stop. destruct (cleanup_made t Ht) as (t1 & -> & _ & ->). intros [= <-].
  split; cbn; [done|by destruct (listener t)|by destruct (daemon t)|..]; unfold open_conns; cbn;
    rewrite close_conns_none; simpl; [lia|done].
Qed.


(** ** The idle timer *)

(** The connections are different ones: each accepted connection comes after
    the one dialled for it, and both after all earlier ones. *)
Record conns_ok (t : Tunnel) : Prop := {
  co_pos : Forall (λ a, S (a_remote a) = a_conn a ∧ a_conn a < length (remoteConns t)) (openConns t);
  co_sorted : StronglySorted (λ a b, a_conn a < a_remote b) (openConns t);
  co_accept : ∀ n, handler t = HAccept n →
    remoteConns t ≠ [] ∧ Forall (λ a, S (a_conn a) < length (remoteConns t)) (openConns t);
}.

(** A connection in use is open. *)
Definition in_use_open (t : Tunnel) : Prop :=
  ∀ a, a ∈ openConns t → a_ended a = false → remoteConns t !! a_conn a = Some true.

(** The timer is still waiting. *)
Definition waiting (t : Tunnel) : Prop :=
  match timeouts t with
  | TSleep => True
  | TWait i => i ≤ length (openConns t) ∧ Forall (λ a, a_closed a = true) (take i (openConns t))
  | _ => False
  end.

Record serving (t : Tunnel) : Prop := {
  se_stop : stopCh t = OpenCh;
  se_done : doneCh t = OpenCh;
  se_listener : listener t = Some true;
  se_conns : conns_ok t;
  se_open : in_use_open t;
  se_closed : Forall (λ a, a_closed a = true → a_ended a = true) (openConns t);
  se_waiting : waiting t;
}.

Lemma Start_serving : serving (Start None None (NewTunnel false)).1.
Proof.
  split; [done..| | | |done].
  - split; [constructor|constructor|done].
  - intros a Ha. by apply elem_of_nil in Ha.
  - constructor.
Qed.

(** Positions of different connections differ. *)
Lemma conns_differ t i j a b :
  conns_ok t → openConns t !! i = Some a → openConns t !! j = Some b →
  a_remote a ≠ a_conn b ∧ (i ≠ j → a_conn a ≠ a_conn b).
Proof.
  intros [Hp Hs _] Hi Hj.
  pose proof (Forall_lookup_1 _ _ _ _ Hp Hi) as [Ha _]. pose proof (Forall_lookup_1 _ _ _ _ Hp Hj) as [Hb _].
  assert (∀ x y c d, openConns t !! x = Some c → openConns t !! y = Some d → x < y → a_conn c < a_remote d) as Hlt.
  { clear -Hs. induction Hs as [|c0 l _ IH Hf]; intros [|x] [|y] c d Hx Hy Hxy; simpl in *; try done; try lia.
    - injection Hx as ->. apply list_elem_of_lookup_2 in Hy. exact (proj1 (Forall_forall _ _) Hf d Hy).
    - apply (IH x y); [done..|lia]. }
  destruct (Nat.lt_trichotomy i j) as [Hij|[->|Hij]].
  - specialize (Hlt i j a b Hi Hj Hij). lia.
  - rewrite Hi in Hj. injection Hj as ->. split; [lia|done].
  - specialize (Hlt j i b a Hj Hi Hij). lia.
Qed.

Lemma serving_handle ok t : serving t → serving (handle_step ok t).
Proof.
  intros [H1 H2 H3 [Hp Hs Ha] Ho Hc Hw]. unfold handle_step. destruct (handler t) as [|n|n|] eqn:Hh.
  - split; [done..| |done|done|done]. split; [done|done|cbn; congruence].
  - destruct ok.
    + split; [done..| | |done|done].
      * split; cbn; [|done|].
        -- eapply Forall_impl; [exact Hp|]. cbn. intros a [? ?]. rewrite length_app. simpl. lia.
        -- intros _ _. split; [by destruct (remoteConns t)|]. eapply Forall_impl; [exact Hp|]. cbn. intros a [? ?].
           rewrite length_app. simpl. lia.
      * intros a Hin He. cbn. by apply lookup_app_l_Some, Ho.
    + rewrite H1. cbn. case_decide; (split; [done..| |done|done|done]); (split; [done|done|cbn; congruence]).
  - destruct (Ha n eq_refl) as [Hne Hlast]. rewrite H3, bool_decide_true, andb_true_r by done. destruct ok.
    + assert (length (remoteConns t) ≠ 0) as Hl by (by destruct (remoteConns t)).
      split; [done..| | | |].
      * split; cbn; [| |done].
        -- apply Forall_app. split; [eapply Forall_impl; [exact Hp|]; cbn; intros a [? ?]; rewrite length_app; simpl; lia|].
           constructor; [|constructor]. cbn. rewrite length_app. simpl. lia.
        -- apply StronglySorted_app_2; [|done|by repeat constructor].
           intros a b Hin ->%list_elem_of_singleton. cbn. pose proof (proj1 (Forall_forall _ _) Hlast a Hin). cbn in *. lia.
      * intros a [Hin| ->%list_elem_of_singleton]%elem_of_app He; cbn in *; [by apply lookup_app_l_Some, Ho|].
        by rewrite lookup_app_r, Nat.sub_diag by lia.
      * cbn. apply Forall_app. split; [done|]. by repeat constructor.
      * unfold waiting in *. cbn. destruct (timeouts t) as [| |i| | |] eqn:Ht; [done..| |done|done|done].
        destruct Hw as [Hi Hw]. rewrite length_app, take_app_le by lia. split; [simpl; lia|done].
    + rewrite H1. cbn. split; [done..| |done|done|done]. split; [done|done|cbn; congruence].
  - split; [done..| |done|done|done]. split; [done|done|cbn; congruence].
Qed.

(** Closing one connection of which nobody makes use. *)
Lemma serving_close t k conns' :
  serving t → remoteConns t !! k ≠ None → conns' = <[k := false]> (remoteConns t) →
  (∀ a, a ∈ openConns t → a_ended a = false → a_conn a ≠ k) → serving {| t with remoteConns := conns' |}.
Proof.
  intros [H1 H2 H3 [Hp Hs Ha] Ho Hc Hw] Hk -> Hfree. split; [done..| | |done|done].
  - split; cbn; [by setoid_rewrite length_insert|done|]. intros n Hn. rewrite length_insert.
    destruct (Ha n Hn) as [? ?]. split; [|done]. intros Hnil%(f_equal length). rewrite length_insert in Hnil.
    by destruct (remoteConns t).
  - intros a Hin He. cbn. rewrite list_lookup_insert_ne; [by apply Ho|]. by apply not_eq_sym, Hfree.
Qed.

(** Changing the state of one accepted connection, whose client is gone. *)
Lemma serving_mark t i a a' :
  serving t → openConns t !! i = Some a → a_conn a' = a_conn a → a_remote a' = a_remote a →
  a_ended a' = true → (a_closed a = true → a_closed a' = true) →
  serving {| t with openConns := <[i := a']> (openConns t) |}.
Proof.
  intros [H1 H2 H3 [Hp Hs Ha] Ho Hc Hw] Hi Hconn Hrem Hend Hcl.
  assert (∀ P : Accepted → Prop, (P a → P a') → ∀ l, Forall P l → l !! i = Some a → Forall P (<[i := a']> l)) as Hins.
  { intros P HP l Hl Hli. apply Forall_insert; [done|]. apply HP. by eapply Forall_lookup_1. }
  split; [done..| | | |].
  - split; cbn.
    + apply Hins; [by rewrite Hconn, Hrem|done|done].
    + clear -Hs Hi Hconn Hrem. revert i Hi. induction Hs as [|b l Hs IH Hf]; intros [|i] Hi; [done..|simpl in *|].
      * injection Hi as ->. constructor; [done|]. by rewrite Hconn.
      * cbn in *. constructor; [by apply IH|]. apply Forall_insert; [done|]. rewrite Hrem. by eapply Forall_lookup_1 in Hf.
    + intros n Hn. destruct (Ha n Hn) as [? ?]. split; [done|]. apply Hins; [by rewrite Hconn|done|done].
  - intros b [j Hj]%list_elem_of_lookup He. cbn in *. destruct (decide (i = j)) as [->|Hne].
    + rewrite list_lookup_insert_eq in Hj by (by eapply lookup_lt_Some). congruence.
    + rewrite list_lookup_insert_ne in Hj by done. apply Ho; [by eapply list_elem_of_lookup_2|done].
  - cbn. by apply Hins.
  - unfold waiting in *. cbn. destruct (timeouts t) as [| |k| | |]; [done..| |done|done|done].
    destruct Hw as [Hk Hw]. rewrite length_insert. split; [done|].
    destruct (decide (i < k)) as [Hik|Hik]; [|by rewrite take_insert_ge by lia].
    rewrite take_insert_lt by done. apply Hins; [auto|done|]. by rewrite lookup_take_lt.
Qed.

Lemma serving_copy i t : serving t → serving (remote_ends i t) ∧ serving (copy_ends i t) ∧ serving (conn_timeout i t).
Proof.
  intros Ht. unfold remote_ends, copy_ends, conn_timeout. destruct (openConns t !! i) as [a|] eqn:Hi; [|done].
  pose proof (Forall_lookup_1 _ _ _ _ (co_pos _ (se_conns _ Ht)) Hi) as [Hr Hlen].
  assert (∀ k, k < length (remoteConns t) → remoteConns t !! k ≠ None) as Hin by (intros k Hk ?%lookup_ge_None; lia).
  split_and!.
  - eapply serving_close; [done|apply (Hin (a_remote a)); lia|done|].
    intros b [j Hj]%list_elem_of_lookup _ Heq. by destruct (conns_differ t i j a b (se_conns _ Ht) Hi Hj) as [? _].
  - destruct (a_ended a) eqn:He; [done|].
    pose proof (serving_mark t i a {| a with a_ended := true |} Ht Hi eq_refl eq_refl eq_refl id) as Hm.
    refine (serving_close _ (a_conn a) _ Hm _ eq_refl _); [by apply Hin|].
    intros b [j Hj]%list_elem_of_lookup Hb Heq. cbn in Hj. destruct (decide (i = j)) as [->|Hne].
    + rewrite list_lookup_insert_eq in Hj by (by eapply lookup_lt_Some). by injection Hj as <-.
    + rewrite list_lookup_insert_ne in Hj by done.
      by destruct (conns_differ t i j a b (se_conns _ Ht) Hi Hj) as [_ ?%(λ f, f Hne)].
  - destruct (a_ended a) eqn:He; [|done]. by eapply serving_mark.
Qed.

(** The tunnel is about to be closed as idle: all its clients are gone. *)
Definition idle (t t' : Tunnel) : Prop :=
  Forall (λ a, a_ended a = true) (openConns t) ∧ t' = {| t with timeouts := TIdle |}.

Lemma serving_timeout t : serving t → ∃ t', timeout_step t = Ret t' ∧ (serving t' ∨ idle t t').
Proof.
  intros Ht. pose proof Ht as [H1 H2 H3 [Hp Hs Ha] Ho Hc Hw]. unfold timeout_step, waiting in *.
  destruct (timeouts t) as [| |k| | |] eqn:Hto; [done| | |done..].
  - eexists. split; [done|]. left. split; [done..| |done|done|]; [by split|]. split; [simpl; lia|constructor].
  - destruct Hw as [Hk Hw]. destruct (openConns t !! k) as [a|] eqn:Hi.
    + eexists. split; [done|]. left. destruct (a_closed a) eqn:Hcl; [|done].
      split; [done..| |done|done|]; [by split|]. unfold waiting. cbn. rewrite (take_S_r _ _ _ Hi).
      split; [by apply lookup_lt_Some in Hi|]. apply Forall_app. split; [done|]. by constructor.
    + eexists. split; [done|]. right. split; [|done]. apply lookup_ge_None in Hi. rewrite take_ge in Hw by done.
      apply Forall_forall. intros a Hin. apply (proj1 (Forall_forall _ _) Hc a Hin).
      exact (proj1 (Forall_forall _ _) Hw a Hin).
Qed.

Definition by_itself (e : Event) : Prop := e ≠ CallStop ∧ e ≠ CallCleanup.

Lemma serving_step e t : serving t → by_itself e →
  ∃ t', step e t = Ret t' ∧ (serving t' ∨ (e = TimeoutStep ∧ idle t t')).
Proof.
  intros Ht [He1 He2]. destruct e as [ok|i|i|i| | |]; cbn [step]; [..|done|done].
  - eexists. split; [done|]. left. by apply serving_handle.
  - eexists. split; [done|]. left. by apply serving_copy.
  - eexists. split; [done|]. left. by apply serving_copy.
  - eexists. split; [done|]. left. by apply serving_copy.
  - destruct (serving_timeout t Ht) as (t' & -> & [?|?]); eauto.
Qed.

(** The idle timer.  A tunnel that has been started serves until somebody
    stops it or it is idle: it listens, its channels are open and so is every
    connection whose client has not finished; the timer ends this only at a
    moment at which the clients of all connections accepted so far have
    finished. *)
Theorem idle_timer es t :
  Forall by_itself es → run es (Start None None (NewTunnel false)).1 = Ret t →
  serving t ∨ ∃ es1 es2 t1 t2, es = es1 ++ TimeoutStep :: es2 ∧
    run es1 (Start None None (NewTunnel false)).1 = Ret t1 ∧ serving t1 ∧ timeout_step t1 = Ret t2 ∧ idle t1 t2.
Proof.
  generalize Start_serving. generalize (Start None None (NewTunnel false)).1. intros t0 H0 Hes. revert t0 H0.
  induction Hes as [|e es He Hes IH]; intros t0 H0; cbn [run]; [intros [= <-]; by left|].
  destruct (serving_step e t0 H0 He) as (t1 & Hs & Hor). rewrite Hs. cbn [mbind GoM_bind]. intros Hr.
  destruct Hor as [H1|[-> Hid]].
  - destruct (IH t1 H1 Hr) as [?|(es1 & es2 & t2 & t3 & -> & Hrun & ?)]; [by left|]. right.
    exists (e :: es1), es2, t2, t3. split; [done|]. split; [|done]. cbn [run]. by rewrite Hs.
  - right. exists [], es, t0, t1. by split_and!.
Qed.

(** A connection accepted between that moment and the clean-up is cut. *)
Theorem idle_timer_race :
  ∃ t, run [Handle true; TimeoutStep; TimeoutStep; Handle true; TimeoutStep]
         (Start None None (NewTunnel false)).1 = Ret t ∧ ~ in_use_open t.
Proof.
  eexists. split; [reflexivity|]. intros Ho.
  specialize (Ho {| a_remote := 0; a_conn := 1; a_ended := false; a_closed := false |}). cbn in Ho.
  by discriminate (Ho ltac:(by left) eq_refl).
Qed.

(** Cleaning up a tunnel that was made and not started yet panics. *)
Theorem Cleanup_not_started ts d ts' :
  (∃ cleaned, Cleanup ts = Ret cleaned) → Cleanup (ts ++ NewTunnel d :: ts') = Panic.
Proof.
  intros [cleaned Hc]. revert cleaned Hc. induction ts as [|t ts IH]; intros cleaned; cbn [Cleanup app]; [done|].
  destruct (cleanup t); [|done]. cbn [mbind GoM_bind]. destruct (Cleanup ts) as [c|] eqn:E; [|done].
  intros _. by rewrite (IH c).
Qed.

Lemma idle_timer_witness :
  let es := [Handle true; Handle true; TimeoutStep; CopyEnds 0; ConnTimeout 0; TimeoutStep; TimeoutStep] in
  ∃ t, run es (Start None None (NewTunnel false)).1 = Ret t ∧
    (serving t ∨ ∃ es1 es2 t1 t2, es = es1 ++ TimeoutStep :: es2 ∧
      run es1 (Start None None (NewTunnel false)).1 = Ret t1 ∧ serving t1 ∧ timeout_step t1 = Ret t2 ∧ idle t1 t2).
Proof.
  eexists. split; [reflexivity|].
  apply (idle_timer [Handle true; Handle true; TimeoutStep; CopyEnds 0; ConnTimeout 0; TimeoutStep; TimeoutStep]).
  - repeat constructor; discriminate.
  - reflexivity.
Defined.

Lemma Cleanup_not_started_witness : Cleanup [NewTunnel false] = Panic.
Proof. apply (Cleanup_not_started [] false []). by exists []. Defined.
