(* ===== verification/Process.v ===== *)
(** * Process: a run of tarmak, its signals and its clean-up

    [src/pkg/tarmak/utils/context.go], and of [src/pkg/tarmak/tarmak.go] the
    start of a run ([New]), the directory of the assets ([RootPath]) and
    [Cleanup]; of [src/pkg/terraform/terraform.go] the file of the socket.

    A run has the goroutine that waits for a signal and the main one, which
    performs a task and leaves through [WaitOrCancelReturnCode].  An event is
    an action of one of them, or a signal that is delivered; its arguments are
    the outcomes of system calls.  What a task does besides asking for the
    directory, the socket and tunnels is left open. *)

From Stdlib Require Import Floats.SpecFloat.
From S2P Require Import Prelude Types Defaults Utils Cluster ClusterSpec Config Environment Tunnel.

(** ** Contexts and signals *)

Inductive Signal := SIGINT | SIGTERM | SIGCONT.

#[global] Instance Signal_eq_dec : EqDecision Signal.
Proof. solve_decision. Defined.

Definition signal_string (s : Signal) : string :=
  match s with SIGINT => "interrupt" | SIGTERM => "terminated" | SIGCONT => "continued" end.

Definition notifies : list Signal := [SIGINT; SIGTERM].

(** The goroutine of [NewCancellationContext]: waiting, with a signal it has
    caught, after the cancellation, or returned. *)
Inductive Catcher := CSelect | CCaught | CStop | CEnd.

Inductive Exit := Exited (code : Z) | Killed (s : Signal) | Panicked.

(** The main goroutine: in the task, in [RootPath] with a new directory, and
    in [Cleanup] before the assets, the socket and the tunnels. *)
Inductive MainAt :=
| InTask
| InRootPath (dir : string)
| CleanAssets (code : Z)
| CleanSocket (code : Z)
| CleanTunnels (code : Z).

Record Proc := {
  canceled : bool;
  p_sig : Signal;
  notified : bool;             (* signals go to the channel *)
  sigCh : option Signal;       (* a channel with room for one *)
  catcher : Catcher;
  main : MainAt;
  rootPath : option string;
  socketPath : option string;
  tunnels : list Tunnel;
  temp : gset string;          (* the temporary files and directories of the run *)
  exited : option Exit;
}.

(** [NewCancellationContext], and a [Tarmak] with nothing in it yet. *)
Definition new_process : Proc :=
  {| canceled := false; p_sig := SIGCONT; notified := true; sigCh := None; catcher := CSelect;
     main := InTask; rootPath := None; socketPath := None; tunnels := []; temp := ∅; exited := None |}.

(** [CancellationContext.Err] *)
Definition Err (p : Proc) : option error :=
  if canceled p then Some (Errorf ("signal " +:+ signal_string (p_sig p))) else None.

(** A signal that is delivered: the channel takes it if there is room; without
    the channel it ends the process. *)
Definition deliver (s : Signal) (p : Proc) : Proc :=
  if notified p then
    match sigCh p with
    | None => {| p with sigCh := Some s |}
    | Some _ => p
    end
  else {| p with exited := Some (Killed s) |}.

(** The next action of the goroutine that waits for a signal, if it has one. *)
Definition catch (p : Proc) : option Proc :=
  match catcher p, sigCh p with
  | CSelect, Some s => Some {| p with p_sig := s; sigCh := None; catcher := CCaught |}
  | CSelect, None => None
  | CCaught, _ => Some {| p with canceled := true; catcher := CStop |}
  | CStop, _ => Some {| p with notified := false; catcher := CEnd |}
  | CEnd, _ => None
  end.

(** [RootPath] up to the new directory, and what it returns before that. *)
Definition RootPath_begin (dir : string + error) (p : Proc) : Proc * option (string + error) :=
  match Err p with
  | Some err => (p, Some (inr err))
  | None =>
      match rootPath p with
      | Some d => (p, Some (inl d))
      | None =>
          match dir with
          | inr err => (p, Some (inr err))
          | inl d => ({| p with temp := {[d]} ∪ temp p; main := InRootPath d |}, None)
          end
      end
  end.

(** The rest, given the error of restoring the assets. *)
Definition RootPath_end (dir : string) (restore : option error) (p : Proc) : Proc * (string + error) :=
  let p := {| p with main := InTask |} in
  match Err p with
  | Some err => (p, inr err)
  | None =>
      match restore with
      | Some err => (p, inr err)
      | None => ({| p with rootPath := Some dir |}, inl dir)
      end
  end.

(** The socket of [terraformWrapper], and [ResetTerraformWrapper]. *)
Definition socket (f : string + error) (p : Proc) : Proc * option error :=
  match socketPath p with
  | Some _ => (p, None)
  | None =>
      match f with
      | inr err => (p, Some (Errorf ("failed to create socket file: " +:+ error_string err)))
      | inl f => ({| p with socketPath := Some f; temp := {[f]} ∪ temp p |}, None)
      end
  end.

Definition reset_socket (p : Proc) : Proc := {| p with socketPath := None |}.

(** [os.RemoveAll]: on an error the file stays. *)
Definition remove (f : string) (err : option error) (p : Proc) : Proc :=
  match err with None => {| p with temp := temp p ∖ {[f]} |} | Some _ => p end.

(** [Tarmak.Cleanup] in its three parts; errors are only logged. *)
Definition clean_assets (err : option error) (p : Proc) : Proc :=
  match rootPath p with
  | Some d => {| (remove d err p) with rootPath := None |}
  | None => p
  end.

Definition clean_socket (err : option error) (p : Proc) : Proc :=
  match socketPath p with
  | Some f => remove f err p
  | None => p
  end.

(** [WaitOrCancelReturnCode], when the task has returned: it cleans up and
    exits; deferred calls are not reached. *)
Definition exit_code (retCode : Z) (err : option error) : Z :=
  match err with None => retCode | Some _ => 1%Z end.

(** ** The steps of a run *)

Inductive Action :=
| Deliver (s : Signal)
| Catch
| BeginRootPath (dir : string + error)
| EndRootPath (restore : option error)
| Socket (f : string + error)
| ResetWrapper
| UseTunnels (ts : list Tunnel)
| Return (retCode : Z) (err : option error)
| Clean (err : option error).

(** Temporary names are new. *)
Definition new_name (n : string + error) (p : Proc) : Prop :=
  match n with inl n => n ∉ temp p | inr _ => True end.

#[global] Instance new_name_dec n p : Decision (new_name n p).
Proof. destruct n; apply _. Defined.

Definition main_step (a : Action) (p : Proc) : option Proc :=
  match main p, a with
  | InTask, BeginRootPath dir => if decide (new_name dir p) then Some (RootPath_begin dir p).1 else None
  | InTask, Socket f => if decide (new_name f p) then Some (socket f p).1 else None
  | InTask, ResetWrapper => Some (reset_socket p)
  | InTask, UseTunnels ts => Some {| p with tunnels := ts |}
  | InTask, Return retCode err => Some {| p with main := CleanAssets (exit_code retCode err) |}
  | InRootPath dir, EndRootPath restore => Some (RootPath_end dir restore p).1
  | CleanAssets code, Clean err => Some {| (clean_assets err p) with main := CleanSocket code |}
  | CleanSocket code, Clean err => Some {| (clean_socket err p) with main := CleanTunnels code |}
  | CleanTunnels code, Clean _ =>
      Some {| p with exited := Some (match Cleanup (tunnels p) with Ret _ => Exited code | Panic => Panicked end) |}
  | _, _ => None
  end.

Definition proc_step (a : Action) (p : Proc) : option Proc :=
  match exited p with
  | Some _ => None
  | None =>
      match a with
      | Deliver s => if decide (s ∈ notifies) then Some (deliver s p) else None
      | Catch => catch p
      | a => main_step a p
      end
  end.

Fixpoint proc_run (acts : list Action) (p : Proc) : option Proc :=
  match acts with
  | [] => Some p
  | a :: acts' => p' ← proc_step a p; proc_run acts' p'
  end.

(** ** Signals *)

Definition delivered (a : Action) : option Signal := match a with Deliver s => Some s | _ => None end.
Definition signals (acts : list Action) : list Signal := omap delivered acts.

(** The goroutine and the signals so far. *)
Definition catching (l : list Signal) (p : Proc) : Prop :=
  match catcher p with
  | CSelect => canceled p = false ∧ notified p = true ∧ sigCh p = head l
  | CCaught => canceled p = false ∧ notified p = true ∧ head l = Some (p_sig p)
  | CStop => canceled p = true ∧ notified p = true ∧ head l = Some (p_sig p)
  | CEnd => canceled p = true ∧ notified p = false ∧ head l = Some (p_sig p)
  end.

Definition killing (l : list Signal) (p : Proc) : Prop :=
  ∀ s, exited p = Some (Killed s) → catcher p = CEnd ∧ last l = Some s ∧ 2 ≤ length l.

Lemma main_step_signals a p p' : main_step a p = Some p' →
  canceled p' = canceled p ∧ notified p' = notified p ∧ sigCh p' = sigCh p ∧ p_sig p' = p_sig p ∧
  catcher p' = catcher p ∧ (exited p = None → ∀ s, exited p' ≠ Some (Killed s)).
Proof.
  unfold main_step, RootPath_begin, RootPath_end, socket, clean_assets, clean_socket, remove.
  intros Hs. repeat case_match; simplify_eq/=; split_and!; try done; by intros ->.
Qed.

Lemma proc_step_cases a p p' : proc_step a p = Some p' → exited p = None ∧
  ((∃ s, a = Deliver s ∧ s ∈ notifies ∧ p' = deliver s p) ∨ (a = Catch ∧ catch p = Some p') ∨
   (delivered a = None ∧ main_step a p = Some p')).
Proof.
  unfold proc_step. destruct (exited p); [done|]. intros Hs. split; [done|].
  destruct a; try (right; right; by split); [case_decide; [|done]; simplify_eq; left; by eexists|right; left; by split].
Qed.

Lemma deliver_signals s l p : exited p = None → catching l p →
  catching (l ++ [s]) (deliver s p) ∧ killing (l ++ [s]) (deliver s p).
Proof.
  intros He. unfold catching, killing, deliver.
  destruct (catcher p) eqn:Hcat; intros (Hx & Hn & Hh); rewrite Hn;
    [destruct (sigCh p) eqn:Hch; cbn; rewrite ?Hcat, ?Hch; (split; [by destruct l; simplify_eq/=|congruence])..|].
  rewrite ?Hcat. split; [by destruct l|]. cbn [exited].
  intros s' [= <-]. rewrite last_snoc, length_app. destruct l; [done|]. simpl. split_and!; [done..|lia].
Qed.

Lemma catch_signals l p p' : exited p = None → catching l p → catch p = Some p' → catching l p' ∧ killing l p'.
Proof.
  intros He. unfold catching, killing, catch.
  destruct (catcher p) eqn:Hcat; [destruct (sigCh p) eqn:Hch|..]; intros (Hx & Hn & Hh) Hs; simplify_eq/=;
    (split; [done|congruence]).
Qed.

Lemma proc_step_signals a l p p' :
  catching l p → proc_step a p = Some p' → catching (l ++ signals [a]) p' ∧ killing (l ++ signals [a]) p'.
Proof.
  intros Hc (He & [(s & -> & _ & ->)|[[-> Hs]|[Hd Hs]]])%proc_step_cases.
  - by apply deliver_signals.
  - rewrite app_nil_r. by eapply catch_signals.
  - assert (signals [a] = []) as -> by (unfold signals; simpl; by rewrite Hd). rewrite app_nil_r.
    apply main_step_signals in Hs as (H1 & H2 & H3 & H4 & H5 & H6). unfold catching, killing in *.
    rewrite H1, H2, H3, H4, H5. split; [done|]. intros s Hk. by destruct (H6 He s).
Qed.

Lemma proc_run_signals acts l p p' :
  catching l p → killing l p → proc_run acts p = Some p' →
  catching (l ++ signals acts) p' ∧ killing (l ++ signals acts) p'.
Proof.
  revert l p. induction acts as [|a acts IH]; intros l p Hc Hk; cbn [proc_run].
  { intros [= <-]. unfold signals. simpl. by rewrite app_nil_r. }
  destruct (proc_step a p) as [p1|] eqn:Hs; [|done]. cbn [mbind option_bind].
  destruct (proc_step_signals a l p p1 Hc Hs) as [Hc1 Hk1]. intros Hr.
  assert (signals (a :: acts) = signals [a] ++ signals acts) as -> by apply (omap_app delivered [a]).
  rewrite app_assoc. by apply (IH _ p1).
Qed.

(** From the first signal on, at most three actions of the goroutine cancel
    the context and hand the signals back to the system. *)
Definition gives_up (p : Proc) : Prop :=
  is_Some (Err p) ∧ ∀ s, s ∈ notifies → ∃ p', proc_step (Deliver s) p = Some p' ∧ exited p' = Some (Killed s).

Lemma catch_gives_up l p :
  catching l p → exited p = None → l ≠ [] → ∃ n p', n ≤ 3 ∧ proc_run (replicate n Catch) p = Some p' ∧ gives_up p'.
Proof.
  intros Hc He Hl.
  assert (∀ p, exited p = None → canceled p = true → notified p = false → gives_up p) as Hend.
  { intros q Hq Hcq Hnq. unfold gives_up, Err, proc_step, deliver. rewrite Hq, Hcq, Hnq. split; [by eexists|].
    intros s Hs. rewrite decide_True by done. by eexists. }
  destruct l as [|x l]; [done|]. destruct p as [cx sg no ch [] mn rp sp ts tmp ex]; unfold catching in Hc; cbn in Hc, He;
    destruct Hc as (-> & -> & Hh); subst ex; simplify_eq/=; [exists 3|exists 2|exists 1|exists 0];
    (eexists; split_and!; [lia|reflexivity|by apply Hend]).
Qed.

(** Signals.  The first signal a run is sent never kills it; it cancels
    the context, whose error names that signal, after at most three actions of
    the goroutine that waits for it, and the next one after these kills the
    process at once.  A run is killed only by its last signal, and after its
    context was canceled. *)
Theorem signals_correct acts p : proc_run acts new_process = Some p →
  (∀ err, Err p = Some err → ∃ s, head (signals acts) = Some s ∧ err = Errorf ("signal " +:+ signal_string s)) ∧
  (∀ s, exited p = Some (Killed s) → last (signals acts) = Some s ∧ 2 ≤ length (signals acts) ∧ is_Some (Err p)) ∧
  (exited p = None → signals acts ≠ [] →
     ∃ n p', n ≤ 3 ∧ proc_run (replicate n Catch) p = Some p' ∧ gives_up p').
Proof.
  intros Hr. destruct (proc_run_signals acts [] new_process p) as [Hc Hk]; [done..|]. cbn [app] in *. split_and!.
  - intros err. unfold Err. destruct (canceled p) eqn:Hx; [|done]. intros [= <-]. exists (p_sig p). split; [|done].
    unfold catching in Hc. destruct (catcher p); destruct Hc as (? & ? & ?); congruence.
  - intros s Hs. destruct (Hk s Hs) as (He & ? & ?). split_and!; [done..|]. unfold catching, Err in *. rewrite He in Hc.
    destruct Hc as (-> & _). by eexists.
  - intros He Hl. by eapply catch_gives_up.
Qed.

(** ** Temporary files *)

Definition option_set (o : option string) : gset string := match o with Some x => {[x]} | None => ∅ end.

(** What an action loses track of: a directory whose assets could not be
    restored, the socket of the cluster before, what could not be removed. *)
Definition loses (a : Action) (p : Proc) : gset string :=
  match main p, a with
  | InRootPath d, EndRootPath restore => if decide (Err p = None ∧ restore = None) then ∅ else {[d]}
  | InTask, ResetWrapper => option_set (socketPath p)
  | CleanAssets _, Clean (Some _) => option_set (rootPath p)
  | CleanSocket _, Clean (Some _) => option_set (socketPath p)
  | _, _ => ∅
  end.

Fixpoint lost (acts : list Action) (p : Proc) : gset string :=
  match acts with
  | [] => ∅
  | a :: acts' => loses a p ∪ match proc_step a p with Some p' => lost acts' p' | None => ∅ end
  end.

(** What the run still has to remove. *)
Definition held (p : Proc) : list string :=
  option_list (rootPath p) ++
  match main p with
  | InRootPath d => d :: option_list (socketPath p)
  | CleanTunnels _ => []
  | _ => option_list (socketPath p)
  end.

(** The files are those that are held, each once, and those that were lost. *)
Definition tracks (tmp : gset string) (l : list string) (L : gset string) : Prop :=
  tmp = list_to_set l ∪ L ∧ NoDup l ∧ ∀ x, x ∈ l → x ∉ L.

Lemma tracks_add tmp l L x : x ∉ tmp → tracks tmp l L → tracks ({[x]} ∪ tmp) (x :: l) L.
Proof.
  intros Hx (-> & Hnd & Hl). split_and!; [set_solver|constructor; [set_solver|done]|].
  intros y [->|Hy]%elem_of_cons; [set_solver|by apply Hl].
Qed.

Lemma tracks_perm tmp l l' L : l ≡ₚ l' → tracks tmp l L → tracks tmp l' L.
Proof. intros Hp (-> & Hnd & Hl). split_and!; [by rewrite Hp|by rewrite <- Hp|]. intros x. rewrite <- Hp. apply Hl. Qed.

Lemma tracks_remove tmp l L x : tracks tmp (x :: l) L → tracks (tmp ∖ {[x]}) l L.
Proof.
  intros (-> & [Hx Hnd]%NoDup_cons & Hl). split_and!; [|done|intros y Hy; apply Hl; by right].
  assert (x ∉ L) as HL by (apply Hl; by left).
  apply set_eq. intros y. destruct (decide (y = x)) as [->|]; set_solver.
Qed.

Lemma tracks_lose tmp l L x : tracks tmp (x :: l) L → tracks tmp l (L ∪ {[x]}).
Proof.
  intros (-> & [Hx Hnd]%NoDup_cons & Hl). split_and!; [set_solver|done|].
  intros y Hy. apply not_elem_of_union. split; [apply Hl; by right|set_solver].
Qed.

Record keeping (L : gset string) (p : Proc) : Prop := {
  kp_temp : tracks (temp p) (held p) L;
  kp_root : match main p with InTask | CleanAssets _ => True | _ => rootPath p = None end;
}.

Lemma RootPath_keeping L p : keeping L p → main p = InTask → ∀ dir, new_name dir p → keeping L (RootPath_begin dir p).1.
Proof.
  intros Hk Hm dir Hn. unfold RootPath_begin. destruct (Err p); [exact Hk|]. destruct (rootPath p) eqn:Hp; [exact Hk|].
  destruct dir as [d|]; [|exact Hk]. destruct Hk as [Ht Hr]. cbn [fst new_name] in *. split; [|by cbn]. unfold held. cbn. rewrite ?Hp. cbn.
  apply tracks_add; [done|]. unfold held in Ht. by rewrite Hp, Hm in Ht.
Qed.

Lemma RootPath_end_keeping L p d restore :
  keeping L p → main p = InRootPath d → keeping (L ∪ loses (EndRootPath restore) p) (RootPath_end d restore p).1.
Proof.
  intros [Ht Hr] Hm. unfold RootPath_end, loses, held in *. rewrite Hm in *. rewrite Hr in Ht. cbn in Ht.
  change (Err {| p with main := InTask |}) with (Err p).
  destruct (Err p), restore; case_decide as Hd; try (by destruct Hd); try (by destruct Hd as [[=] _]); try (by destruct Hd as [_ [=]]);
    (split; [|done]); cbn; unfold held; cbn; rewrite ?Hr; cbn; try by apply tracks_lose.
  rewrite union_empty_r_L. done.
Qed.

Lemma socket_keeping L p f : keeping L p → main p = InTask → new_name f p → keeping L (socket f p).1.
Proof.
  intros Hk Hm Hn. unfold socket. destruct (socketPath p) eqn:Hp; [exact Hk|]. destruct f as [f|]; [|exact Hk].
  destruct Hk as [Ht Hr].
  split; [|cbn; by rewrite Hm]. unfold held in *. cbn. rewrite Hm, Hp in *. cbn in *.
  apply (tracks_perm _ (f :: option_list (rootPath p) ++ [])); [by rewrite app_nil_r, Permutation_cons_append|]. by apply tracks_add.
Qed.

Lemma Reset_keeping L p : keeping L p → main p = InTask → keeping (L ∪ loses ResetWrapper p) (reset_socket p).
Proof.
  intros [Ht Hr] Hm. split; [|cbn; by rewrite Hm]. unfold loses, held in *. cbn. rewrite Hm in *.
  destruct (socketPath p); cbn; [|by rewrite union_empty_r_L]. apply tracks_lose.
  eapply tracks_perm; [|exact Ht]. cbn. by rewrite app_nil_r, <- Permutation_cons_append.
Qed.

Lemma clean_assets_keeping L p code err :
  keeping L p → main p = CleanAssets code →
  keeping (L ∪ loses (Clean err) p) {| (clean_assets err p) with main := CleanSocket code |}.
Proof.
  intros [Ht Hr] Hm. unfold loses, held, clean_assets, remove in *. rewrite Hm in *.
  destruct (rootPath p) as [d|] eqn:Hp; [|destruct err; (split; [|by cbn]); unfold held; cbn; rewrite Hp, ?union_empty_r_L; done].
  cbn [option_list app] in Ht. destruct err; (split; [|by cbn]); unfold held; cbn.
  - by apply tracks_lose.
  - rewrite union_empty_r_L. by apply tracks_remove.
Qed.

Lemma clean_socket_keeping L p code err :
  keeping L p → main p = CleanSocket code →
  keeping (L ∪ loses (Clean err) p) {| (clean_socket err p) with main := CleanTunnels code |}.
Proof.
  intros [Ht Hr] Hm. unfold loses, held, clean_socket, remove in *. rewrite Hm in *. rewrite Hr in Ht. cbn in Ht.
  destruct (socketPath p) as [f|] eqn:Hp; destruct err; (split; [|by cbn]); unfold held; cbn; rewrite Hr; cbn;
    rewrite ?union_empty_r_L; [by apply tracks_lose|by apply tracks_remove|done..].
Qed.

Lemma main_step_keeping a L p p' :
  keeping L p → main_step a p = Some p' → keeping (L ∪ loses a p) p'.
Proof.
  intros Hk. unfold main_step. destruct (main p) eqn:Hm, a; try done;
    try (case_decide; [|done]); intros [= <-];
    try (by apply RootPath_end_keeping || by apply Reset_keeping || by apply clean_assets_keeping || by apply clean_socket_keeping);
    (assert (loses _ p = ∅) as -> by (unfold loses; by rewrite Hm)); rewrite union_empty_r_L;
    try (by apply RootPath_keeping || by apply socket_keeping);
    destruct Hk as [Ht Hr]; (split; [|cbn; by rewrite ?Hm in *]); unfold held in *; cbn; by rewrite ?Hm in *.
Qed.

(** Signals leave the files alone. *)
Lemma keeping_same L p p' :
  temp p' = temp p → rootPath p' = rootPath p → socketPath p' = socketPath p → main p' = main p → keeping L p → keeping L p'.
Proof. intros H1 H2 H3 H4 [Ht Hr]. split; unfold held in *; by rewrite ?H1, ?H2, ?H3, ?H4. Qed.

Lemma proc_step_keeping a L p p' : keeping L p → proc_step a p = Some p' → keeping (L ∪ loses a p) p'.
Proof.
  intros Hk (He & [(s & -> & _ & ->)|[[-> Hs]|[Hd Hs]]])%proc_step_cases; [..|by apply main_step_keeping];
    (assert (loses _ p = ∅) as -> by (unfold loses; by destruct (main p))); rewrite union_empty_r_L.
  - unfold deliver. repeat case_match; by apply (keeping_same L p).
  - unfold catch in Hs. repeat case_match; simplify_eq; by apply (keeping_same L p).
Qed.

(** The code a run is about to exit with is the one its task has returned. *)
Definition leaving (m : MainAt) : option Z :=
  match m with CleanAssets c | CleanSocket c | CleanTunnels c => Some c | _ => None end.

Definition returned (acts : list Action) (code : Z) : Prop :=
  ∃ retCode err, Return retCode err ∈ acts ∧ code = exit_code retCode err.

Definition exits (acts : list Action) (p : Proc) : Prop :=
  (∀ c, leaving (main p) = Some c → returned acts c) ∧
  (∀ x, exited p = Some x → match x with
     | Exited c => returned acts c ∧ leaving (main p) = Some c ∧ ∃ c, main p = CleanTunnels c
     | Panicked => Cleanup (tunnels p) = Panic
     | Killed _ => True
     end).

Lemma returned_snoc acts a c : returned acts c → returned (acts ++ [a]) c.
Proof. intros (r & e & Hin & ->). exists r, e. set_solver. Qed.

Lemma main_step_leaving a p p' : main_step a p = Some p' →
  leaving (main p') = leaving (main p) ∨ ∃ r e, a = Return r e ∧ leaving (main p') = Some (exit_code r e).
Proof.
  unfold main_step, RootPath_begin, RootPath_end, socket. destruct (main p) eqn:Hm, a; intros Hs; simplify_eq/=;
    try (by left); try (by right; eexists _, _); left; repeat case_match; simplify_eq/=; by rewrite ?Hm.
Qed.

Lemma main_step_exited a p p' x : main_step a p = Some p' → exited p = None → exited p' = Some x →
  ∃ c, main p = CleanTunnels c ∧ main p' = CleanTunnels c ∧ tunnels p' = tunnels p ∧
    x = match Cleanup (tunnels p) with Ret _ => Exited c | Panic => Panicked end.
Proof.
  unfold main_step, RootPath_begin, RootPath_end, socket, clean_assets, clean_socket, remove.
  destruct (main p) eqn:Hm, a; intros Hs He Hx; simplify_eq/=; try congruence;
    try (repeat case_match; simplify_eq/=; congruence). by exists code.
Qed.

Lemma main_step_exits acts a p p' :
  exited p = None → exits acts p → main_step a p = Some p' → exits (acts ++ [a]) p'.
Proof.
  intros He [Hl _] Hs.
  assert (∀ c, leaving (main p') = Some c → returned (acts ++ [a]) c) as Hl'.
  { intros c Hc. destruct (main_step_leaving _ _ _ Hs) as [Heq|(r & e & -> & Hr)].
    - apply returned_snoc, Hl. by rewrite <- Heq.
    - exists r, e. split; [set_solver|congruence]. }
  split; [done|]. intros x Hx. destruct (main_step_exited _ _ _ _ Hs He Hx) as (c & Hm & Hm' & Ht & ->).
  rewrite Hm' in *. destruct (Cleanup (tunnels p)) eqn:Hc; [|by rewrite Ht].
  split_and!; [by apply Hl'|done|by eexists].
Qed.

Lemma proc_step_exits acts a p p' : exits acts p → proc_step a p = Some p' → exits (acts ++ [a]) p'.
Proof.
  intros Hx (He & [(s & -> & _ & ->)|[[-> Hs]|[Hd Hs]]])%proc_step_cases; [..|by eapply main_step_exits];
    destruct Hx as [Hl _]; (split; [|]); unfold deliver, catch in *.
  - intros c Hc. apply returned_snoc, Hl. by repeat case_match.
  - intros x Hx. repeat case_match; simplify_eq/=; first [done|congruence].
  - intros c Hc. apply returned_snoc, Hl. by repeat case_match; simplify_eq.
  - intros x Hx. repeat case_match; simplify_eq/=; first [done|congruence].
Qed.

Lemma proc_run_keeping acts before L p p' :
  keeping L p → exits before p → proc_run acts p = Some p' →
  keeping (L ∪ lost acts p) p' ∧ exits (before ++ acts) p'.
Proof.
  revert before L p. induction acts as [|a acts IH]; intros before L p Hk Hx; cbn [proc_run lost].
  { intros [= <-]. by rewrite union_empty_r_L, app_nil_r. }
  destruct (proc_step a p) as [p1|] eqn:Hs; [|done]. cbn [mbind option_bind]. intros Hr.
  rewrite union_assoc_L. assert (before ++ a :: acts = (before ++ [a]) ++ acts) as -> by (by rewrite <- app_assoc).
  apply (IH _ _ p1); [by apply proc_step_keeping|by eapply proc_step_exits|done].
Qed.

Lemma Cleanup_panics ts : Cleanup ts = Panic → ∃ t, t ∈ ts ∧ stopCh t = NilCh.
Proof.
  induction ts as [|t ts IH]; cbn [Cleanup]; [done|]. destruct (cleanup t) eqn:Ht; cbn [mbind GoM_bind].
  - destruct (Cleanup ts); [done|]. intros _. destruct (IH eq_refl) as (t' & ? & ?). exists t'. split; [by right|done].
  - intros _. exists t. split; [by left|]. unfold cleanup in Ht. by destruct (stopCh t).
Qed.


(** A run that is interrupted while it makes the directory of its assets
    leaves the directory behind, and so does one that destroys two clusters
    with the socket of the first. *)
Definition interrupted_run : list Action :=
  [BeginRootPath (inl "/tmp/tarmak-assets1"); Deliver SIGINT; Catch; Catch; EndRootPath None;
   Return 0 (Some (Errorf "signal interrupt")); Clean None; Clean None; Clean None].

Definition two_clusters_run : list Action :=
  [Socket (inl "/tmp/tarmak.sock1"); ResetWrapper; Socket (inl "/tmp/tarmak.sock2"); Return 0 None;
   Clean None; Clean None; Clean None].


Lemma signals_correct_witness :
  let acts := [Deliver SIGTERM; Catch; Deliver SIGINT; Catch; Catch; Deliver SIGINT] in
  ∃ p, proc_run acts new_process = Some p ∧ exited p = Some (Killed SIGINT) ∧ 2 ≤ length (signals acts).
Proof.
  intros acts. destruct (proc_run acts new_process) as [p|] eqn:H1; [|vm_compute in H1; discriminate].
  assert (exited p = Some (Killed SIGINT)) as He by (vm_compute in H1; by injection H1 as <-).
  exists p. split_and!; [done..|]. destruct (signals_correct acts p H1) as (_ & Hk & _). by apply (Hk _ He).
Defined.

(** ** The start of a run *)

(** The process ends with a message, or the run has its environment and
    cluster, or none of them when a configuration is to be initialised. *)
Inductive Started := Fatal (msg : string) | Ready (current : option (EnvT * ClusterT)).

Section start.
Context `{MapRange}.
Context {V : Type} (NewVersion : string → V + string) (LessThan : V → V → bool).
Context (fmt_float : spec_float → string).
Context {bytes : Type} (Decode : bytes → Config + error) (io_error : nat → option error).
Context (flags : Flags) (Initialize : bool) (ConfigDirectory : string).

(** [tarmak.New], given the home directory, the expansion of the
    configuration's directory and its absolute path. *)
Definition tarmak_New (homeDir : string + error) (expand abs : string → string + error) (now : Z) (st : State bytes)
    : GoM (State bytes * Started) :=
  match homeDir with
  | inr err => Ret (st, Fatal ("unable to detect home directory: " +:+ error_string err))
  | inl _ =>
  match expand ConfigDirectory with
  | inr err => Ret (st, Fatal ("unable to expand config directory ('" +:+ ConfigDirectory +:+ "'): " +:+ error_string err))
  | inl dir =>
  match abs dir with
  | inr err => Ret (st, Fatal ("unable to expand relative config directory ('" +:+ dir +:+ "'): " +:+ error_string err))
  | inl _ =>
      match ReadConfig Decode io_error now st with
      | (st, inr err) =>
          Ret (st,
            if Contains (error_string err) "no such file or directory" then
              if Initialize then Ready None
              else Fatal "unable to find an existing config, run 'tarmak init'"
            else Fatal ("failed to read config: " +:+ error_string err))
      | (st, inl _) =>
          if Initialize then Ret (st, Ready None)
          else
            r ← initializeConfig NewVersion LessThan fmt_float flags st;
            Ret (st, match r with
                     | inr err => Fatal ("unable to initialize tarmak: " +:+ error_string err)
                     | inl t => Ready (Some t)
                     end)
      end
  end end end.

(** The start of a run.  A run that starts has read the configuration of
    its file, with its defaults, and works on the cluster that the
    configuration or the flag names, which is one of its environment; only a
    run that initialises a configuration starts without a cluster, and only
    that one without a file. *)
Theorem New_correct homeDir expand abs now st st' r :
  tarmak_New homeDir expand abs now st = Ret (st', Ready r) →
  (is_Some r ↔ Initialize = false) ∧
  (conf st' = conf st ∧ Initialize = true ∨
   ∃ b c, file st = Some b ∧ Decode b = inl c ∧ conf st' = Some (SetObjectDefaults_Config now c)) ∧
  ∀ e c, r = Some (e, c) →
    CurrentCluster flags st' = inl (e_Name e +:+ "-" +:+ c_Name c) ∧ c ∈ e_clusters e.
Proof.
  unfold tarmak_New, ReadConfig. intros Hn.
  destruct homeDir; [|done]. destruct (expand _); [|done]. destruct (abs _); [|done].
  destruct (io_error (ops st)) as [err|] eqn:Hio.
  { destruct (Contains _ _), Initialize; simplify_eq/=. split; [by split; [intros [? ?]|]|]. split; [by left|done]. }
  destruct (file st) as [b|] eqn:Hf.
  2: { destruct (Contains _ _), Initialize; simplify_eq/=. split; [by split; [intros [? ?]|]|]. split; [by left|done]. }
  destruct (Decode b) as [c|err] eqn:Hd.
  2: { destruct (Contains _ _), Initialize; simplify_eq/=. split; [by split; [intros [? ?]|]|]. split; [by left|done]. }
  destruct Initialize; simplify_eq/=.
  { split; [by split; [intros [? ?]|]|]. split; [|done]. right. by exists b, c. }
  destruct (initializeConfig _ _ _ _ _) as [[[e0 c0]|]|] eqn:Hi; simplify_eq/=.
  split; [split; [done|by eexists]|]. split; [right; by exists b, c|].
  intros e1 c1 [= <- <-]. destruct (initializeConfig_current _ _ _ _ _ _ _ Hi) as (? & ? & _). done.
Qed.
End start.

Definition stored_state : State Config :=
  {| Config.conf := None; file := Config.conf hub_and_cluster; ops := 0 |}.

Abbreviation example_start := (tarmak_New (H := range_list) (V := string) inl String.ltb (λ _, "") inl (λ _, None)
  {| fl_CurrentCluster := ""; fl_WingDevMode := false; fl_IgnoreMissingPublicKeyTags := false |} false "~/.tarmak"
  (inl "/home/user") inl inl 1 stored_state).

Lemma New_correct_witness : ∃ st' e c, example_start = Ret (st', Ready (Some (e, c))) ∧ c ∈ e_clusters e.
Proof.
  assert (match example_start with Ret (_, Ready (Some _)) => true | _ => false end = true) as Hok by (vm_compute; reflexivity).
  destruct example_start as [[st' [|[[e c]|]]]|] eqn:Hs; try discriminate Hok.
  exists st', e, c. split; [reflexivity|].
  by apply (proj2 (proj2 (New_correct (H := range_list) _ _ _ _ _ _ _ _ _ _ _ _ _ _ _ Hs)) e c).
Defined.
