(* ===== verification/RemoteState.v ===== *)
(** * RemoteState: the remote resources of a provider

    [src/pkg/tarmak/provider/amazon/tf_remote_state.go], [key_pair.go] and
    [EnsureRemoteResources] and [Remove] of [amazon.go]: the bucket that holds
    the Terraform states of all clusters of a provider in a region, its
    encryption key, the table of locks and the key pair.

    A method is a program of calls to AWS ([Prog] of [Calls]); AWS is any handler of the
    calls, so that a theorem about a program holds whatever AWS answers.  All
    calls of a program are about the one bucket, table, key alias and key pair
    whose names the program derives; [Call] leaves the names out.  Creating the
    clients of the services succeeds. *)

From S2P Require Import Prelude Types Net Utils Provider Calls.

(** ** Calls *)

Inductive aws_error := AwsError (code message : string) | OtherError (e : error).

Definition aws_code (e : aws_error) : option string :=
  match e with AwsError code _ => Some code | OtherError _ => None end.

Definition aws_err (e : aws_error) : error :=
  match e with AwsError code message => Errorf (code +:+ ": " +:+ message) | OtherError e => e end.

(** [awsErr.Code()] contains a word. *)
Definition code_contains (e : aws_error) (word : string) : bool :=
  match aws_code e with Some code => Prelude.Contains code word | None => false end.

Definition code_is (e : aws_error) (code : string) : bool := bool_decide (aws_code e = Some code).

(** An encryption rule of a bucket, and an object with its encryption. *)
Record SSERule := { SSEAlgorithm : option string; KMSMasterKeyID : option string }.
Record StateObject := { Body : string; ServerSideEncryption : option string; SSEKMSKeyId : option string }.

Inductive Call :=
| HeadBucket
| GetBucketLocation
| GetBucketVersioning
| GetBucketEncryption
| GetObject (key : string)
| PutObject (key body kms : string)
| CreateBucket (location : option string)
| PutBucketVersioning
| PutBucketEncryption (kms : string)
| DescribeTable
| CreateTable (attribute : string)
| DescribeKey
| CreateKey
| CreateAlias (keyId : string)
| DeleteBucket
| ListObjectVersions
| DeleteObjects (objects : list (string * string))
| DeleteObject (key : string)
| ListObjects
| DeleteItem (id : string)
| Scan
| DeleteTable
| DescribeKeyPairs
| ImportKeyPair.

(** What a call answers, or its error. *)
Definition result (c : Call) : Type :=
  match c with
  | GetBucketLocation | GetBucketVersioning => option string
  | GetBucketEncryption => list SSERule
  | GetObject _ => StateObject
  | DescribeTable => list string
  | DescribeKey => string
  | CreateKey => string * string
  | ListObjectVersions => list (string * string) * list (string * string)
  | ListObjects => list string
  | Scan => option Z
  | DescribeKeyPairs => list (option string)
  | _ => unit
  end.

Definition answer (c : Call) : Type := (result c + aws_error)%type.

#[local] Abbreviation Prog := (Calls.Prog answer).
#[local] Abbreviation event := (Calls.event answer).

(** ** The methods *)

Section Methods.
Context (BucketPrefix region environment cluster : string).

Definition RemoteStateName : string := BucketPrefix +:+ region +:+ "-terraform-state".

Definition RemoteStateKMSName : string := "alias/" +:+ RemoteStateName +:+ "-kms".

Definition DynamoDBKey : string := "LockID".

Definition RemoteStateObjectKey (namespace clusterName : string) : string :=
  namespace +:+ "/" +:+ clusterName +:+ "/main.tfstate".

Definition quote : string := String "034" "".
Definition newline : string := String "010" "".

Definition RemoteState (namespace clusterName kms : string) : string :=
  "terraform {" +:+ newline +:+
  "  backend " +:+ quote +:+ "s3" +:+ quote +:+ " {" +:+ newline +:+
  "    bucket = " +:+ quote +:+ RemoteStateName +:+ quote +:+ newline +:+
  "    key = " +:+ quote +:+ RemoteStateObjectKey namespace clusterName +:+ quote +:+ newline +:+
  "    region = " +:+ quote +:+ region +:+ quote +:+ newline +:+
  "    dynamodb_table =" +:+ quote +:+ RemoteStateName +:+ quote +:+ newline +:+
  "    kms_key_id = " +:+ quote +:+ kms +:+ quote +:+ newline +:+
  "    encrypt = " +:+ quote +:+ "true" +:+ quote +:+ newline +:+
  "  }" +:+ newline +:+ "}".

(** [err.Error()] of an AWS error starts with its code. *)
Definition RemoteStateBucketAvailable : Prog (bool * option error) :=
  r ← call HeadBucket;
  match r with
  | inl _ => mret (true, None)
  | inr err =>
      if HasPrefix (error_string (aws_err err)) "NotFound:" then mret (false, None)
      else mret (false, Some (Errorf ("error while checking if remote state is available: " +:+
                                      error_string (aws_err err))))
  end.

(** The methods that create what is missing; they return [remoteStateKMS]. *)
Definition initRemoteStateKMS (kms : string) : Prog (string * option error) :=
  k ← call CreateKey;
  match k with
  | inr err => mret (kms, Some (aws_err err))
  | inl (keyId, arn) =>
      r ← call (CreateAlias keyId);
      match r with
      | inr err => mret (kms, Some (aws_err err))
      | inl _ => mret (arn, None)
      end
  end.

Definition ensureRemoteStateKMS (kms : string) : Prog (string * option error) :=
  k ← call DescribeKey;
  match k with
  | inr err =>
      if code_contains err "NotFound" then initRemoteStateKMS kms
      else mret (kms, Some (Errorf ("error looking for terraform state kms alias: " +:+ error_string (aws_err err))))
  | inl arn => mret (arn, None)
  end.

Definition initRemoteStateBucket : Prog (option error) :=
  r ← call (CreateBucket (if decide (region = "us-east-1") then None else Some region));
  match r with
  | inr err => mret (Some (aws_err err))
  | inl _ =>
      r ← call PutBucketVersioning;
      match r with inr err => mret (Some (aws_err err)) | inl _ => mret None end
  end.

Definition ensureRemoteStateBucket : Prog (option error) :=
  r ← call HeadBucket;
  match r with
  | inr err =>
      if code_contains err "NotFound" then initRemoteStateBucket
      else mret (Some (Errorf ("error looking for terraform state bucket: " +:+ error_string (aws_err err))))
  | inl _ =>
      location ← call GetBucketLocation;
      match location with
      | inr err => mret (Some (aws_err err))
      | inl constraint =>
          let bucketRegion := default "us-east-1" constraint in
          if decide (bucketRegion = region) then
            versioning ← call GetBucketVersioning;
            match versioning with
            | inr err => mret (Some (aws_err err))
            | inl status => _ ← deref_prog status; mret None
            end
          else mret (Some (Errorf ("bucket region is wrong, actual: " +:+ bucketRegion +:+ " expected: " +:+ region)))
      end
  end.

Definition initRemoteStateDynamoDB : Prog (option error) :=
  r ← call (CreateTable DynamoDBKey);
  match r with inr err => mret (Some (aws_err err)) | inl _ => mret None end.

Definition ensureRemoteStateDynamoDB : Prog (option error) :=
  r ← call DescribeTable;
  match r with
  | inr err =>
      if code_is err "ResourceNotFoundException" then initRemoteStateDynamoDB
      else mret (Some (Errorf ("error looking for terraform state dynamodb: " +:+ error_string (aws_err err))))
  | inl attributes =>
      if bool_decide (DynamoDBKey ∈ attributes) then mret None
      else mret (Some (Errorf ("the DynamoDB table '" +:+ RemoteStateName +:+
                               "' doesn't contain a parameter named '" +:+ DynamoDBKey +:+ "'")))
  end.

Definition initRemoteStateBucketEncryption (kms : string) : Prog (option error) :=
  r ← call (PutBucketEncryption kms);
  match r with
  | inr err => mret (Some (Errorf ("error looking for terraform state kms alias: " +:+ error_string (aws_err err))))
  | inl _ => mret None
  end.

(** The loop over the rules: is one of them encryption with [kms]? *)
Fixpoint find_rule (kms : string) (rules : list SSERule) : Prog bool :=
  match rules with
  | [] => mret false
  | r :: rest =>
      alg ← deref_prog (SSEAlgorithm r);
      if decide (alg = "aws:kms") then
        key ← deref_prog (KMSMasterKeyID r);
        if decide (key = kms) then mret true else find_rule kms rest
      else find_rule kms rest
  end.

Definition encrypted_with (kms : string) (o : StateObject) : bool :=
  bool_decide (ServerSideEncryption o = Some "aws:kms") && bool_decide (SSEKMSKeyId o = Some kms).

Definition ensureRemoteStateBucketEncrytion (kms : string) : Prog (option error) :=
  enc ← call GetBucketEncryption;
  match enc with
  | inr err =>
      if code_contains err "NotFound" then initRemoteStateBucketEncryption kms
      else mret (Some (Errorf ("failed to get encryption info on bucket '" +:+ RemoteStateName +:+ "': " +:+
                               error_string (aws_err err))))
  | inl rules =>
      found ← find_rule kms rules;
      if found : bool then
        b ← call (GetObject (RemoteStateObjectKey environment cluster));
        match b with
        | inr err =>
            if code_contains err "NotFound" || code_contains err "NoSuchKey" then mret None
            else mret (Some (Errorf ("failed to get encryption info on object '" +:+ RemoteStateName +:+ "/" +:+
                                     RemoteStateObjectKey environment cluster +:+ "': " +:+
                                     error_string (aws_err err))))
        | inl o =>
            if encrypted_with kms o then mret None
            else
              r ← call (PutObject (RemoteStateObjectKey environment cluster) (Body o) kms);
              match r with inr err => mret (Some (aws_err err)) | inl _ => mret None end
        end
      else initRemoteStateBucketEncryption kms
  end.

(** [ensureAWSKeyPair]; [signer] is the error of making a signer from the
    private key and [fingerprint] its fingerprint.  A call that fails answers
    an empty list. *)
Definition import_key (signer : option error) : Prog (option error) :=
  match signer with
  | Some e => mret (Some (Errorf ("unable to generate public key from private key: " +:+ error_string e)))
  | None => r ← call ImportKeyPair;
            match r with inr err => mret (Some (aws_err err)) | inl _ => mret None end
  end.

Definition ensureAWSKeyPair (signer : option error) (fingerprint : string + error) : Prog (option error) :=
  r ← call DescribeKeyPairs;
  match r with
  | inr err => if code_is err "InvalidKeyPair.NotFound" then import_key signer
               else mret (Some (aws_err err))
  | inl [] => import_key signer
  | inl [keypair] =>
      match fingerprint with
      | inr _ => mret None
      | inl exp =>
          act ← deref_prog keypair;
          if decide (act = exp) then mret None
          else mret (Some (Errorf ("AWS key pair does not match the local key pair, aws_fingerprint=" +:+ act +:+
                                   " local_fingerprint=" +:+ exp)))
      end
  | inl l => mret (Some (Errorf ("unexpected number of keypairs found: " +:+ fmt_d (Z.of_nat (length l)))))
  end.

(** [EnsureRemoteResources] with an environment. *)
Definition EnsureRemoteResources (signer : option error) (fingerprint : string + error) (kms : string)
    : Prog (string * option error) :=
  r ← ensureRemoteStateKMS kms;
  let '(kms, e1) := r in
  e2 ← ensureRemoteStateBucket;
  e3 ← ensureRemoteStateBucketEncrytion kms;
  e4 ← ensureRemoteStateDynamoDB;
  e5 ← ensureAWSKeyPair signer fingerprint;
  mret (kms, ErrorOrNil (AppendIf (AppendIf (AppendIf (AppendIf (AppendIf None e1) e2) e3) e4) e5)).

(** ** Removal *)

Definition deleteRemoteStateItemDynamoDB : Prog (option error) :=
  r ← call (DeleteItem (RemoteStateName +:+ "/" +:+ environment +:+ "/" +:+ cluster +:+ "/main.tfstate-md5"));
  match r with inr err => mret (Some (aws_err err)) | inl _ => mret None end.

Definition countRemoteStateItemsDynamoDB : Prog (Z * option error) :=
  r ← call Scan;
  match r with
  | inr err => mret (1%Z, Some (aws_err err))
  | inl None => mret (1%Z, Some (Errorf "a problem occured when trying to retrieve dynamodb objects"))
  | inl (Some count) => mret (count, None)
  end.

Definition deleteRemoteStateDynamoDB : Prog (option error) :=
  r ← call DeleteTable;
  match r with inr err => mret (Some (aws_err err)) | inl _ => mret None end.

Definition deleteRemoteStateObjectBucket : Prog (option error) :=
  r ← call (DeleteObject (environment +:+ "/" +:+ cluster +:+ "/main.tfstate"));
  match r with inr err => mret (Some (aws_err err)) | inl _ => mret None end.

Definition bucketEmpty : Prog (bool * option error) :=
  r ← call ListObjects;
  match r with
  | inr err => mret (false, Some (aws_err err))
  | inl contents => mret (match contents with [] => true | _ => false end, None)
  end.

Definition objectsToDeleteFromRemoteState (resp : list (string * string) * list (string * string))
    : list (string * string) := resp.1 ++ resp.2.

(** [deleteRemoteStateBucket] recurses until the bucket is empty and deleted;
    [None] is out of fuel. *)
Fixpoint deleteRemoteStateBucket (fuel : nat) : Prog (option (option error)) :=
  match fuel with
  | 0 => mret None
  | S fuel =>
      r ← call DeleteBucket;
      match r with
      | inl _ => mret (Some None)
      | inr err =>
          if code_is err "BucketNotEmpty" then
            resp ← call ListObjectVersions;
            match resp with
            | inr err => mret (Some (Some (Errorf ("error listing objects to delete: " +:+ error_string (aws_err err)))))
            | inl versions =>
                r ← call (DeleteObjects (objectsToDeleteFromRemoteState versions));
                match r with
                | inr err => mret (Some (Some (Errorf ("error deleting objects: " +:+ error_string (aws_err err)))))
                | inl _ => deleteRemoteStateBucket fuel
                end
            end
          else mret (Some (Some (aws_err err)))
      end
  end.

Definition Remove (fuel : nat) : Prog (option (option error)) :=
  e1 ← deleteRemoteStateItemDynamoDB;
  r ← countRemoteStateItemsDynamoDB;
  let '(count, e2) := r in
  e3 ← (if decide (count = 0%Z) then deleteRemoteStateDynamoDB else mret None);
  e4 ← deleteRemoteStateObjectBucket;
  r ← bucketEmpty;
  let '(empty, e5) := r in
  e6 ← (if empty : bool then deleteRemoteStateBucket fuel else mret (Some None));
  mret ((λ e6, ErrorOrNil (AppendIf (AppendIf (AppendIf (AppendIf (AppendIf (AppendIf None e1) e2) e3) e4) e5) e6)) <$> e6).

End Methods.

(** ** Facts *)

Section Facts.
Context (BucketPrefix region environment cluster : string).

(** *** What removal may do *)

(** The state of the cluster is the only object and lock that is removed by
    name; the table goes when it has no item left, the bucket and the versions
    in it when it holds no object any more.  Nothing is created. *)
Definition removal_ok (h : list event) (c : Call) : Prop :=
  match c with
  | DeleteTable => Ev Scan (inl (Some 0%Z)) ∈ h
  | DeleteBucket | ListObjectVersions => Ev ListObjects (inl []) ∈ h
  | DeleteObjects objects =>
      Ev ListObjects (inl []) ∈ h ∧
      ∃ v, Ev ListObjectVersions (inl v) ∈ h ∧ ∀ o, o ∈ objects ↔ o ∈ v.1 ∨ o ∈ v.2
  | DeleteObject key => key = RemoteStateObjectKey environment cluster
  | DeleteItem id =>
      id = RemoteStateName BucketPrefix region +:+ "/" +:+ RemoteStateObjectKey environment cluster +:+ "-md5"
  | Scan | ListObjects => True
  | _ => False
  end.

Lemma deleteRemoteStateBucket_safe fuel h :
  Ev ListObjects (inl []) ∈ h →
  safe removal_ok h (deleteRemoteStateBucket fuel) (λ _ _, True).
Proof.
  revert h; induction fuel as [|fuel IH]; intros h Hh; [done|]. cbn [deleteRemoteStateBucket].
  apply safe_call; [done|]. intros [[]|err]; [done|]. destruct (code_is err "BucketNotEmpty"); [|done].
  apply safe_call; [by apply elem_of_app; left|]. intros [v|err']; [|done].
  apply safe_call.
  - split; [rewrite !elem_of_app; auto|]. exists v; split; [rewrite !elem_of_app; right; left|].
    intros o; apply elem_of_app.
  - intros [[]|err']; [|done]. apply IH. rewrite !elem_of_app; auto.
Qed.

(** C10: [Remove] deletes the table of locks only after a scan found it empty,
    and the bucket with all versions in it only after a listing found no
    object in it: the states of other clusters of the provider survive,
    whatever AWS answers, errors included. *)
Theorem Remove_safe {S} (handle : ∀ c, S → S * answer c) fuel s :
  let '(es, _, _) := run handle (Remove BucketPrefix region environment cluster fuel) s in
  ∀ es1 e es2, es = es1 ++ e :: es2 → removal_ok es1 (ev_call e).
Proof.
  assert (Hsafe : safe removal_ok [] (Remove BucketPrefix region environment cluster fuel) (λ _ _, True)).
  { unfold Remove. apply safe_bind. unfold deleteRemoteStateItemDynamoDB. apply safe_call.
    { cbn. unfold RemoteStateObjectKey. f_equal. by rewrite !string_app_assoc. }
    intros r1; apply (safe_mono _ _ _ (λ h _, True)); [by destruct r1|]. intros h1 e1 _ _.
    apply safe_bind; unfold countRemoteStateItemsDynamoDB. apply safe_call; [done|]. intros r2.
    apply (safe_mono _ _ _ (λ h c, c.1 = 0%Z → Ev Scan (inl (Some 0%Z)) ∈ h)).
    { destruct r2 as [[z|]|err]; cbn; try done. intros ->; apply elem_of_app; right; left. }
    intros h2 [count e2] _ Hcount. apply safe_bind.
    apply (safe_mono _ _ _ (λ h _, True)).
    { case_decide; [|done]. apply safe_call; [by apply Hcount|]. by intros [[]|]. }
    intros h3 e3 _ _. apply safe_bind. unfold deleteRemoteStateObjectBucket; apply safe_call; [done|].
    intros r4; apply (safe_mono _ _ _ (λ h _, True)); [by destruct r4|]. intros h4 e4 _ _.
    apply safe_bind; unfold bucketEmpty. apply safe_call; [done|]. intros r5.
    apply (safe_mono _ _ _ (λ h c, c.1 = true → Ev ListObjects (inl []) ∈ h)).
    { destruct r5 as [[|o l]|err]; cbn; try done. intros _; apply elem_of_app; right; left. }
    intros h5 [empty e5] _ Hempty. apply safe_bind.
    apply (safe_mono _ _ _ (λ h _, True)); [|done].
    destruct empty; [by apply deleteRemoteStateBucket_safe, Hempty|done]. }
  pose proof (safe_run handle removal_ok [] _ _ s Hsafe) as H.
  destruct (run handle _ s) as [[es s'] r]. apply H.
Qed.

(** *** What ensuring may do *)

(** Nothing is deleted; what is created was found missing before; the state is
    only rewritten with the content just read, because it was not encrypted
    with the key. *)
Definition ensure_ok (h : list event) (c : Call) : Prop :=
  match c with
  | CreateBucket location =>
      (∃ e, Ev HeadBucket (inr e) ∈ h ∧ code_contains e "NotFound" = true) ∧
      default "us-east-1" location = region
  | PutBucketVersioning => ∃ location, Ev (CreateBucket location) (inl ()) ∈ h
  | CreateTable attribute =>
      (∃ e, Ev DescribeTable (inr e) ∈ h ∧ code_is e "ResourceNotFoundException" = true) ∧ attribute = DynamoDBKey
  | CreateKey => ∃ e, Ev DescribeKey (inr e) ∈ h ∧ code_contains e "NotFound" = true
  | CreateAlias keyId => ∃ arn, Ev CreateKey (inl (keyId, arn)) ∈ h
  | PutObject key body kms =>
      key = RemoteStateObjectKey environment cluster ∧
      ∃ o, Ev (GetObject key) (inl o) ∈ h ∧ Body o = body ∧ encrypted_with kms o = false
  | ImportKeyPair =>
      Ev DescribeKeyPairs (inl []) ∈ h ∨
      ∃ e, Ev DescribeKeyPairs (inr e) ∈ h ∧ code_is e "InvalidKeyPair.NotFound" = true
  | DeleteBucket | DeleteObjects _ | DeleteObject _ | DeleteItem _ | DeleteTable => False
  | _ => True
  end.

#[local] Hint Resolve in_last in_before : core.

(** The key that encryption is then checked against is the one behind the
    alias. *)
Lemma ensureRemoteStateKMS_safe kms h :
  safe ensure_ok h (ensureRemoteStateKMS kms)
    (λ h' r, r.2 = None → Ev DescribeKey (inl r.1) ∈ h' ∨ ∃ keyId, Ev CreateKey (inl (keyId, r.1)) ∈ h').
Proof.
  unfold ensureRemoteStateKMS; apply safe_call; [done|]. intros [arn|err]; cbn; [by left; auto|].
  destruct (code_contains err "NotFound") eqn:E; cbn; [|done].
  split; [by eauto|]. intros [[keyId arn]|err']; cbn; [|done].
  split; [by eauto|]. intros [[]|err']; cbn; [|done]. eauto 8.
Qed.

Lemma ensureRemoteStateBucket_safe h : safe ensure_ok h (ensureRemoteStateBucket region) (λ _ _, True).
Proof.
  unfold ensureRemoteStateBucket; apply safe_call; [done|]. intros [[]|err].
  - apply safe_call; [done|]. intros [loc|err]; [|done]. case_decide; [|done].
    apply safe_call; [done|]. intros [st|err]; [|done]. by destruct st.
  - destruct (code_contains err "NotFound") eqn:E; [|done]. unfold initRemoteStateBucket; apply safe_call.
    + split; [by eauto|]. by case_decide.
    + intros [[]|err']; [|done]. apply safe_call; [eexists; apply in_last|]. by intros [[]|].
Qed.

Lemma find_rule_safe kms rules h : safe ensure_ok h (find_rule kms rules) (λ _ _, True).
Proof.
  induction rules as [|r rules IH]; [done|]. cbn [find_rule]. apply safe_bind. destruct (SSEAlgorithm r); cbn; [|done].
  case_decide; [|done]. apply safe_bind. destruct (KMSMasterKeyID r); cbn; [|done]. by case_decide.
Qed.

Lemma encryption_safe kms h :
  safe ensure_ok h (ensureRemoteStateBucketEncrytion BucketPrefix region environment cluster kms) (λ _ _, True).
Proof.
  assert (Hinit : ∀ h, safe ensure_ok h (initRemoteStateBucketEncryption kms) (λ _ _, True)).
  { intros h0; unfold initRemoteStateBucketEncryption; apply safe_call; [done|]. by intros [[]|]. }
  unfold ensureRemoteStateBucketEncrytion; apply safe_call; [done|]. intros [rules|err].
  - apply safe_bind. apply (safe_mono _ _ _ (λ _ _, True)); [apply find_rule_safe|].
    intros h1 [] _ _; [|done]. apply safe_call; [done|]. intros [o|err]; [|by case_match].
    destruct (encrypted_with kms o) eqn:E; [done|]. apply safe_call.
    + split; [done|]. eauto.
    + by intros [[]|].
  - by case_match.
Qed.

Lemma table_safe h : safe ensure_ok h (ensureRemoteStateDynamoDB BucketPrefix region) (λ _ _, True).
Proof.
  unfold ensureRemoteStateDynamoDB; apply safe_call; [done|]. intros [attrs|err]; [by case_match|].
  destruct (code_is err "ResourceNotFoundException") eqn:E; [|done].
  apply safe_call; [split; [by eauto|done]|]. by intros [[]|].
Qed.

Lemma import_key_safe signer h :
  ensure_ok h ImportKeyPair → safe ensure_ok h (import_key signer) (λ _ _, True).
Proof. intros Hok; unfold import_key. destruct signer; [done|]. apply safe_call; [done|]. by intros [[]|]. Qed.

Lemma keypair_safe signer fingerprint h : safe ensure_ok h (ensureAWSKeyPair signer fingerprint) (λ _ _, True).
Proof.
  unfold ensureAWSKeyPair; apply safe_call; [done|]. intros [[|k [|k' l]]|err].
  - apply import_key_safe; left; auto.
  - destruct fingerprint; [|done]. apply safe_bind. destruct k; cbn; [|done]. by case_decide.
  - done.
  - destruct (code_is err _) eqn:E; [|done]. apply import_key_safe; right; eauto.
Qed.


End Facts.

(** *** Termination of the removal of the bucket *)

Section Termination.
Context {S : Type} (handle : ∀ c, S → S * answer c) (versions : S → nat).

(** S3 says that a bucket is not empty only if it holds versions, lists some of
    them then, and deletes those it is told to delete. *)
Definition deletes_versions : Prop :=
  ∀ s s1 e s2 v s3, handle DeleteBucket s = (s1, inr e) → code_is e "BucketNotEmpty" = true →
    handle ListObjectVersions s1 = (s2, inl v) →
    handle (DeleteObjects (objectsToDeleteFromRemoteState v)) s2 = (s3, inl ()) →
    versions s3 < versions s.

Lemma delete_enough fuel s :
  deletes_versions → versions s < fuel →
  ∃ es s' r, run handle (deleteRemoteStateBucket fuel) s = (es, s', Ret (Some r)).
Proof.
  intros Hd; revert s; induction fuel as [|fuel IH]; intros s Hlt; [lia|].
  cbn -[code_is]. destruct (handle DeleteBucket s) as [s1 [[]|e]] eqn:E1; [eauto|].
  destruct (code_is e "BucketNotEmpty") eqn:Ec; [|cbn; eauto].
  cbn. destruct (handle ListObjectVersions s1) as [s2 [v|e2]] eqn:E2; [|cbn; eauto].
  cbn. destruct (handle (DeleteObjects _) s2) as [s3 [[]|e3]] eqn:E3; [|cbn; eauto].
  pose proof (Hd _ _ _ _ _ _ E1 Ec E2 E3).
  destruct (IH s3) as (es & s' & r & ->); [lia|]. eauto.
Qed.

End Termination.

(** The recursion that empties and deletes the bucket ends: as long as S3
    deletes the versions it lists, it needs at most one round more than the
    bucket has versions. *)
Theorem deleteRemoteStateBucket_terminates {S} (handle : ∀ c, S → S * answer c) versions s :
  deletes_versions handle versions →
  ∃ es s' r, run handle (deleteRemoteStateBucket (1 + versions s)) s = (es, s', Ret (Some r)).
Proof. intros Hd; apply (delete_enough handle versions); [done|lia]. Qed.

(** *** Names *)

Lemma Split_path a b rest :
  has_byte "/" a = false → has_byte "/" b = false →
  Split "/" (a +:+ String "/" (b +:+ String "/" rest)) = a :: b :: Split "/" rest.
Proof. intros Ha Hb. by rewrite !Split_app. Qed.

(** Two clusters of a provider never share a state: the key of the state,
    and so the lock that is removed with it, determines the names of the
    environment and of the cluster, which have no slash. *)
Theorem RemoteStateObjectKey_injective e1 c1 e2 c2 :
  has_byte "/" e1 = false → has_byte "/" c1 = false → has_byte "/" e2 = false → has_byte "/" c2 = false →
  RemoteStateObjectKey e1 c1 = RemoteStateObjectKey e2 c2 → e1 = e2 ∧ c1 = c2.
Proof.
  unfold RemoteStateObjectKey; intros He1 Hc1 He2 Hc2 E. apply (f_equal (Split "/")) in E.
  change (Split "/" (e1 +:+ String "/" (c1 +:+ String "/" "main.tfstate")) =
          Split "/" (e2 +:+ String "/" (c2 +:+ String "/" "main.tfstate"))) in E.
  rewrite !Split_path in E by done. by injection E.
Qed.

(** *** A bucket without versioning *)

(** A state bucket that never had versioning makes the program panic: S3
    then answers no status at all, and the code dereferences it to decide
    whether to warn. *)
Theorem ensureRemoteStateBucket_panics {S} (handle : ∀ c, S → S * answer c) region s :
  (handle HeadBucket s).2 = inl () →
  (handle GetBucketLocation (handle HeadBucket s).1).2 = inl (Some region) →
  (handle GetBucketVersioning (handle GetBucketLocation (handle HeadBucket s).1).1).2 = inl None →
  (run handle (ensureRemoteStateBucket region) s).2 = Panic.
Proof.
  intros H1 H2 H3. cbn. destruct (handle HeadBucket s) as [s1 r1]; cbn in *; subst r1; cbn.
  destruct (handle GetBucketLocation s1) as [s2 r2]; cbn in *; subst r2; cbn.
  rewrite decide_True by done; cbn. destruct (handle GetBucketVersioning s2) as [s3 r3]; cbn in *; by subst r3.
Qed.

(** ** Witnesses *)

(** An account with an empty bucket and table: [n] versions are left, of which
    a listing has at most two. *)
Definition example_aws (c : Call) (n : nat) : nat * answer c :=
  match c as c return nat * answer c with
  | DeleteBucket => if decide (n = 0) then (n, inl ()) else (n, inr (AwsError "BucketNotEmpty" ""))
  | ListObjectVersions => (n, inl (take 2 (replicate n ("key", "version")), []))
  | DeleteObjects objects => (n - length objects, inl ())
  | ListObjects => (n, inl [])
  | Scan => (n, inl (Some 0%Z))
  | GetBucketLocation => (n, inl (Some "eu-west-1"))
  | GetBucketVersioning => (n, inl None)
  | GetBucketEncryption => (n, inl [])
  | GetObject _ => (n, inl {| Body := ""; ServerSideEncryption := None; SSEKMSKeyId := None |})
  | DescribeTable => (n, inl ["LockID"])
  | DescribeKey => (n, inl "arn")
  | CreateKey => (n, inl ("id", "arn"))
  | DescribeKeyPairs => (n, inl [])
  | _ => (n, inl ())
  end.

Lemma deleteRemoteStateBucket_terminates_witness :
  ∃ es s' r, run example_aws (deleteRemoteStateBucket (1 + 5)) 5 = (es, s', Ret (Some r)).
Proof.
  apply (deleteRemoteStateBucket_terminates example_aws id 5).
  intros s s1 e s2 v s3; cbn. case_decide; intros [= <- <-] _ [= <- <-] [= <-].
  unfold objectsToDeleteFromRemoteState; cbn [fst snd]. rewrite app_nil_r.
  destruct s as [|[|s]]; cbn; [done|lia|lia].
Defined.

Lemma Remove_safe_witness :
  (run example_aws (Remove "x-" "eu-west-1" "dev" "prod" 6) 5).1.2 = 0 ∧
  removal_ok "x-" "eu-west-1" "dev" "prod"
    (take 5 (run example_aws (Remove "x-" "eu-west-1" "dev" "prod" 6) 5).1.1) DeleteBucket.
Proof.
  split; [vm_compute; reflexivity|].
  pose proof (Remove_safe "x-" "eu-west-1" "dev" "prod" example_aws 6 5) as H.
  exact (H (take 5 (run example_aws (Remove "x-" "eu-west-1" "dev" "prod" 6) 5).1.1)
    (Ev DeleteBucket (inr (AwsError "BucketNotEmpty" "")))
    (drop 6 (run example_aws (Remove "x-" "eu-west-1" "dev" "prod" 6) 5).1.1) eq_refl).
Defined.


Lemma RemoteStateObjectKey_injective_witness :
  RemoteStateObjectKey "dev" "prod" = "dev/prod/main.tfstate" ∧ "dev" = "dev" ∧ "prod" = "prod".
Proof. split; [reflexivity|apply (RemoteStateObjectKey_injective "dev" "prod" "dev" "prod"); reflexivity]. Defined.

Lemma ensureRemoteStateBucket_panics_witness :
  (run example_aws (ensureRemoteStateBucket "eu-west-1") 0).2 = Panic.
Proof. apply ensureRemoteStateBucket_panics; reflexivity. Defined.
