(* ===== verification/Input.v ===== *)
(** * Input: questions on the terminal

    [src/pkg/tarmak/utils/input/input.go].  What a person enters is a list of
    responses, each the line [Ui.Ask] returns or its error; after the list the
    input is at its end and every further question fails.  The loops that ask
    again are recursive in that list, so that they are total.  Warnings and
    the text around questions go to the terminal only and are left out. *)

From S2P Require Import Prelude Regexp.

(** ** Asking *)

Definition Responses : Type := list (string + error).

Definition EOF : error := Errorf "EOF".

(** [Askf] *)
Definition Askf (rs : Responses) : (string + error) * Responses :=
  match rs with [] => (inr EOF, []) | r :: rs => (r, rs) end.

Record AskOpen := { open_Query : string; AllowEmpty : bool; open_Default : string }.
Record AskSelection := { sel_Query : string; Choices : list string; sel_Default : Z }.
Record AskMultipleSelection := {
  selection : AskSelection;
  SelectedChoices : list bool;
  MinSelected : Z;
  MaxSelected : Z;
}.
Record AskYesNo := { yn_Query : string; yn_Default : bool }.

(** ** Questions *)

Definition newline : string := String "010" "".

(** [fmt.Sprintf("% 3d", n)] for a natural number: a space for the sign, and
    three columns. *)
Definition fmt_3d (n : nat) : string :=
  let d := String " " (pretty n) in
  string_of (replicate (3 - String.length d) " "%char) +:+ d.

Definition open_Question (q : AskOpen) : string :=
  Join [open_Query q +:+ (if decide (open_Default q = "") then ""
                          else " (default '" +:+ open_Default q +:+ "')"); ">"] newline.

Definition sel_Question (q : AskSelection) : string :=
  Join (sel_Query q ::
        imap (λ pos choice, fmt_3d (S pos) +:+ ") " +:+ choice +:+
                            (if decide (Z.of_nat pos = sel_Default q) then " (default)" else "")) (Choices q) ++
        [">"]) newline.

(** [SelectedChoices] has the length of the choices, [AskMultipleSelection]
    checks it first. *)
Definition mul_Question (q : AskMultipleSelection) : string :=
  let choices := Choices (selection q) in
  Join (zip_with (λ '(pos, choice) selected,
                    fmt_3d (S pos) +:+ ") " +:+ choice +:+ (if selected : bool then " (selected)" else ""))
          (imap (λ pos choice, (pos, choice)) choices) (SelectedChoices q) ++
        [fmt_3d (length choices + 1) +:+ ") continue with selection"; ">"]) newline.

Definition yn_Option (q : AskYesNo) : string := if yn_Default q then "[Y/n]" else "[y/N]".

Definition yn_Question (q : AskYesNo) : string := yn_Query q +:+ " " +:+ yn_Option q.

(** ** Answers *)

Fixpoint askYesNo (q : AskYesNo) (rs : Responses) : (bool + error) * Responses :=
  match rs with
  | [] => (inr EOF, [])
  | inr err :: rs => (inr err, rs)
  | inl response :: rs =>
      let res := ToLower response in
      if bool_decide (res = "y") || bool_decide (res = "yes") then (inl true, rs)
      else if bool_decide (res = "n") || bool_decide (res = "no") then (inl false, rs)
      else if bool_decide (res = "") then (inl (yn_Default q), rs)
      else askYesNo q rs
  end.

(** [strconv.Atoi] on a 64 bit machine: an optional sign and digits, in
    range. *)
Definition digit (c : ascii) : option Z :=
  if range_of "0" "9" c then Some (Z.of_nat (nat_of_ascii c) - 48)%Z else None.

Fixpoint digits (acc : Z) (s : string) : option Z :=
  match s with
  | "" => Some acc
  | String c s => d ← digit c; digits (10 * acc + d)%Z s
  end.

Definition Atoi (s : string) : option Z :=
  let '(sign, s) := match s with
                    | String "-" s => ((-1)%Z, s)
                    | String "+" s => (1%Z, s)
                    | _ => (1%Z, s)
                    end in
  if decide (s = "") then None
  else n ← digits 0 s;
       let n := (sign * n)%Z in
       if (-(2 ^ 63) <=? n)%Z && (n <? 2 ^ 63)%Z then Some n else None.

Fixpoint askSelection (q : AskSelection) (rs : Responses) : (Z + error) * Responses :=
  match rs with
  | [] => (inr EOF, [])
  | inr err :: rs => (inr err, rs)
  | inl response :: rs =>
      if decide (response = "") then
        if (0 <=? sel_Default q)%Z then (inl (sel_Default q), rs) else askSelection q rs
      else match Atoi response with
           | None => askSelection q rs
           | Some n =>
               if (n <? 0)%Z || (Z.of_nat (length (Choices q)) <? n)%Z then askSelection q rs
               else (inl (n - 1)%Z, rs)
           end
  end.

Definition returnSelected (choices : list string) (selected : list bool) : list string :=
  omap (λ '(choice, b), if b : bool then Some choice else None) (zip choices selected).

Definition insideMinMax (min max : Z) (selected : list bool) : bool :=
  let count := Z.of_nat (length (filter (λ b, b = true) selected)) in
  negb ((count <? min)%Z || (max <? count)%Z).

(** The loop of [AskMultipleSelection]; it changes [SelectedChoices] of the
    question. *)
Fixpoint select_loop (q : AskMultipleSelection) (selected : list bool) (rs : Responses)
    : (list string + error) * Responses :=
  let choices := Choices (selection q) in
  let nChoices := Z.of_nat (length choices + 1) in
  match rs with
  | [] => (inr EOF, [])
  | inr err :: rs => (inr err, rs)
  | inl response :: rs =>
      if decide (response = "") then
        if insideMinMax (MinSelected q) (MaxSelected q) selected then (inl (returnSelected choices selected), rs)
        else select_loop q selected rs
      else match Atoi response with
           | None => select_loop q selected rs
           | Some n =>
               if (n <? 1)%Z || (nChoices <? n)%Z then select_loop q selected rs
               else if (n =? nChoices)%Z then
                 if insideMinMax (MinSelected q) (MaxSelected q) selected
                 then (inl (returnSelected choices selected), rs)
                 else select_loop q selected rs
               else select_loop q (alter negb (Z.to_nat (n - 1)) selected) rs
           end
  end.

Definition askMultipleSelection (q : AskMultipleSelection) (rs : Responses)
    : (list string + error) * Responses :=
  if negb (bool_decide (length (SelectedChoices q) = length (Choices (selection q))))
  then (inr (Errorf "length of choice and selected slice does not match"), rs)
  else select_loop q (SelectedChoices q) rs.

Fixpoint askOpen (q : AskOpen) (rs : Responses) : (string + error) * Responses :=
  match rs with
  | [] => (inr EOF, [])
  | inr err :: rs => (inr err, rs)
  | inl response :: rs =>
      if decide (response = "") then
        if AllowEmpty q || negb (bool_decide (open_Default q = "")) then (inl (open_Default q), rs)
        else askOpen q rs
      else (inl response, rs)
  end.

(** ** The names that are accepted *)

Definition lower_or_digit (c : ascii) : bool := range_of "a" "z" c || range_of "0" "9" c.

Definition RegexpProviderName : re := plus (Char (λ c, lower_or_digit c || Ascii.eqb c "-")).
Definition RegexpEnvironmentName : re := plus (Char lower_or_digit).
Definition RegexpClusterName : re := plus (Char lower_or_digit).
Definition RegexpDNS : re := plus (Char (λ c, lower_or_digit c || Ascii.eqb c "-" || Ascii.eqb c ".")).

(** ** The first response that is understood

    All loops are instances: a question ends with the first response that has
    a meaning, or with the first error. *)
Section First.
Context {A : Type} (meaning : string → option A).

Fixpoint first_answer (rs : Responses) : (A + error) * Responses :=
  match rs with
  | [] => (inr EOF, [])
  | inr err :: rs => (inr err, rs)
  | inl response :: rs =>
      match meaning response with Some a => (inl a, rs) | None => first_answer rs end
  end.

Lemma first_answer_spec rs a rest :
  first_answer rs = (inl a, rest) ↔
  ∃ bad r, rs = map inl bad ++ inl r :: rest ∧ Forall (λ b, meaning b = None) bad ∧ meaning r = Some a.
Proof.
  split.
  - induction rs as [|[r|err] rs IH]; cbn; [done| |done].
    destruct (meaning r) as [a'|] eqn:E.
    + intros [= -> ->]. exists [], r. by split_and!.
    + intros H; destruct (IH H) as (bad & r' & -> & Hbad & Hr). exists (r :: bad), r'. auto.
  - intros (bad & r & -> & Hbad & Hr). induction bad as [|b bad IH]; cbn; [by rewrite Hr|].
    apply Forall_cons in Hbad as [Hb Hbad]; rewrite Hb; auto.
Qed.

(** A question that is answered or fails has used up a response. *)
Lemma first_answer_consumes rs a rest : first_answer rs = (inl a, rest) → length rest < length rs.
Proof.
  intros H; apply first_answer_spec in H as (bad & r & -> & _). rewrite length_app, length_map; cbn; lia.
Qed.

Lemma first_answer_shorter rs : length (first_answer rs).2 ≤ length rs.
Proof. induction rs as [|[r|err] rs IH]; cbn; [lia| |lia]. destruct (meaning r); cbn; lia. Qed.

End First.

(** What a response says, for each kind of question. *)
Definition yes_or_no (q : AskYesNo) (r : string) : option bool :=
  let res := ToLower r in
  if bool_decide (res = "y" ∨ res = "yes") then Some true
  else if bool_decide (res = "n" ∨ res = "no") then Some false
  else if bool_decide (res = "") then Some (yn_Default q) else None.

Definition chosen (q : AskSelection) (r : string) : option Z :=
  if decide (r = "") then if (0 <=? sel_Default q)%Z then Some (sel_Default q) else None
  else n ← Atoi r;
       if (0 <=? n)%Z && (n <=? Z.of_nat (length (Choices q)))%Z then Some (n - 1)%Z else None.

Definition entered (q : AskOpen) (r : string) : option string :=
  if decide (r = "") then
    if decide (AllowEmpty q = true ∨ open_Default q ≠ "") then Some (open_Default q) else None
  else Some r.

Lemma askYesNo_first q rs : askYesNo q rs = first_answer (yes_or_no q) rs.
Proof.
  induction rs as [|[r|err] rs IH]; cbn; [done| |done]. rewrite IH.
  generalize (first_answer (yes_or_no q) rs); intros next; unfold yes_or_no.
  rewrite !bool_decide_or. by repeat case_match.
Qed.

Lemma askSelection_first q rs : askSelection q rs = first_answer (chosen q) rs.
Proof.
  induction rs as [|[r|err] rs IH]; cbn; [done| |done]. rewrite IH.
  generalize (first_answer (chosen q) rs); intros next; unfold chosen.
  destruct (decide (r = "")) as [->|_]; [by destruct (0 <=? sel_Default q)%Z|].
  destruct (Atoi r) as [n|]; cbn; [|done].
  rewrite (Z.leb_antisym n 0), (Z.leb_antisym _ n). by destruct (n <? 0)%Z, (Z.of_nat (length (Choices q)) <? n)%Z.
Qed.

Lemma askOpen_first q rs : askOpen q rs = first_answer (entered q) rs.
Proof.
  induction rs as [|[r|err] rs IH]; cbn; [done| |done]. rewrite IH.
  generalize (first_answer (entered q) rs); intros next; unfold entered.
  destruct (decide (r = "")); [|done].
  destruct (AllowEmpty q), (decide (open_Default q = "")) as [E|E]; cbn;
    case_decide; try case_bool_decide; naive_solver.
Qed.

Lemma list_elem_of_pair (x a b : string) : x ∈ [a; b] ↔ x = a ∨ x = b.
Proof. by rewrite elem_of_cons, list_elem_of_singleton. Qed.

Lemma yes_or_no_None q s : yes_or_no q s = None ↔ ToLower s ∉ ["y"; "yes"; "n"; "no"; ""].
Proof.
  unfold yes_or_no; rewrite !elem_of_cons, elem_of_nil.
  repeat case_bool_decide; (split; [intros Hq|intros Hq; try done; exfalso; apply Hq]); intuition congruence.
Qed.

Lemma yes_or_no_Some q r b :
  yes_or_no q r = Some b ↔
  b = true ∧ ToLower r ∈ ["y"; "yes"] ∨ b = false ∧ ToLower r ∈ ["n"; "no"] ∨ b = yn_Default q ∧ ToLower r = "".
Proof.
  unfold yes_or_no; rewrite !list_elem_of_pair.
  repeat case_bool_decide; intuition congruence.
Qed.

(** A question for yes or no is answered with the first response that is
    understood: yes exactly for y and yes in any case, or an empty line where
    the default is yes; every response before it was none of y, yes, n, no and
    the empty line.  So what is asked with the default no is never done
    without a typed yes. *)
Theorem AskYesNo_correct q rs b rest :
  askYesNo q rs = (inl b, rest) ↔
  ∃ bad r, rs = map inl bad ++ inl r :: rest ∧
    Forall (λ s, ToLower s ∉ ["y"; "yes"; "n"; "no"; ""]) bad ∧
    (b = true ∧ ToLower r ∈ ["y"; "yes"] ∨ b = false ∧ ToLower r ∈ ["n"; "no"] ∨
     b = yn_Default q ∧ ToLower r = "").
Proof.
  rewrite askYesNo_first, first_answer_spec.
  split; intros (bad & r & -> & Hbad & Hr); exists bad, r; (split_and!; [done| |by apply yes_or_no_Some]);
    (eapply Forall_impl; [apply Hbad|]; intros s; apply yes_or_no_None).
Qed.

(** A selection is answered with the default, if there is one, or with a
    position: of the choices, or -1 for the response 0, which passes the
    check of the range. *)
Theorem AskSelection_range q rs n rest :
  askSelection q rs = (inl n, rest) →
  (n = sel_Default q ∧ (0 ≤ n)%Z) ∨ (-1 ≤ n < Z.of_nat (length (Choices q)))%Z.
Proof.
  rewrite askSelection_first, first_answer_spec. intros (bad & r & _ & _ & Hr); revert Hr. unfold chosen.
  case_decide; [case_match; [|done]; intros [= <-]; left; lia|].
  destruct (Atoi r) as [z|]; cbn; [|done]. case_match; [|done]. intros [= <-]. right; lia.
Qed.

(** *** Several choices *)

(** How often a choice was toggled. *)
Definition toggles (rs : list string) (i : nat) : nat :=
  length (filter (λ r, Atoi r = Some (Z.of_nat (S i))) rs).

Definition toggled (selected : list bool) (rs : list string) : list bool :=
  imap (λ i b, xorb b (Nat.odd (toggles rs i))) selected.

Lemma toggles_cons r rs i :
  toggles (r :: rs) i = (if decide (Atoi r = Some (Z.of_nat (S i))) then 1 else 0) + toggles rs i.
Proof. unfold toggles; rewrite filter_cons; case_decide; done. Qed.

Lemma toggled_nil selected : toggled selected [] = selected.
Proof.
  unfold toggled. apply list_eq; intros i. rewrite list_lookup_imap.
  destruct (selected !! i) as [b|]; cbn [fmap option_fmap option_map]; [|done]. by destruct b.
Qed.

Lemma toggled_other selected r rs :
  (∀ i, i < length selected → Atoi r ≠ Some (Z.of_nat (S i))) → toggled selected (r :: rs) = toggled selected rs.
Proof.
  intros H; unfold toggled. apply list_eq; intros i. rewrite !list_lookup_imap.
  destruct (selected !! i) as [b|] eqn:E; cbn [fmap option_fmap option_map]; [|done].
  rewrite toggles_cons, decide_False; [done|]. apply H, lookup_lt_is_Some; eauto.
Qed.

Lemma toggled_alter selected r rs i :
  Atoi r = Some (Z.of_nat (S i)) → toggled (alter negb i selected) rs = toggled selected (r :: rs).
Proof.
  intros H; unfold toggled. apply list_eq; intros j. rewrite !list_lookup_imap.
  destruct (decide (j = i)) as [->|Hne].
  - rewrite list_lookup_alter, decide_True by done. destruct (selected !! i) as [b|]; cbn [fmap option_fmap option_map]; [|done].
    rewrite toggles_cons, decide_True by done. change (1 + ?n) with (S n).
    rewrite Nat.odd_succ, <-Nat.negb_odd. by destruct b, (Nat.odd _).
  - rewrite list_lookup_alter_ne by done. destruct (selected !! j) as [b|]; cbn [fmap option_fmap option_map]; [|done].
    rewrite toggles_cons, decide_False; [done|]. rewrite H; intros [= Hz]. lia.
Qed.

(** The responses toggle choices until one ends the selection with [l]. *)
Definition selects (q : AskMultipleSelection) (selected : list bool) (rs : Responses) (l : list string)
    (rest : Responses) : Prop :=
  ∃ pre r, rs = map inl pre ++ inl r :: rest ∧
    (r = "" ∨ Atoi r = Some (Z.of_nat (length (Choices (selection q)) + 1))) ∧
    insideMinMax (MinSelected q) (MaxSelected q) (toggled selected pre) = true ∧
    l = returnSelected (Choices (selection q)) (toggled selected pre).

Lemma selects_skip q selected r rs l rest :
  (∀ i, i < length selected → Atoi r ≠ Some (Z.of_nat (S i))) →
  selects q selected rs l rest → selects q selected (inl r :: rs) l rest.
Proof.
  intros Hr (pre & r' & -> & Hlast & Hin & ->). exists (r :: pre), r'; by rewrite toggled_other.
Qed.

Lemma selects_toggle q selected r rs l rest i :
  Atoi r = Some (Z.of_nat (S i)) →
  selects q (alter negb i selected) rs l rest → selects q selected (inl r :: rs) l rest.
Proof.
  intros Hr (pre & r' & -> & Hlast & Hin & ->).
  exists (r :: pre), r'; rewrite (toggled_alter _ _ _ _ Hr) in Hin |- *; done.
Qed.

Lemma select_loop_spec q selected rs l rest :
  length selected = length (Choices (selection q)) →
  select_loop q selected rs = (inl l, rest) → selects q selected rs l rest.
Proof.
  revert selected; induction rs as [|[r|err] rs IH]; intros selected Hlen; [done| |done]. cbn.
  remember (Z.of_nat (length (Choices (selection q)) + 1)) as nC eqn:EnC.
  assert (Hskip : (∀ i, i < length selected → Atoi r ≠ Some (Z.of_nat (S i))) →
    select_loop q selected rs = (inl l, rest) → selects q selected (inl r :: rs) l rest) by
    (intros Hr H; apply selects_skip; auto).
  assert (Hdone : r = "" ∨ Atoi r = Some nC →
    insideMinMax (MinSelected q) (MaxSelected q) selected = true →
    (inl (returnSelected (Choices (selection q)) selected) : list string + error, rs) = (inl l, rest) →
    selects q selected (inl r :: rs) l rest) by
    (intros Hr Hin [= <- <-]; exists [], r; rewrite toggled_nil, <-EnC; done).
  destruct (decide (r = "")) as [->|Hne].
  - destruct (insideMinMax _ _ selected) eqn:Hin; [intros H; apply Hdone; auto|apply Hskip; done].
  - destruct (Atoi r) as [n|] eqn:Ha; [|apply Hskip; done].
    destruct ((n <? 1)%Z || (nC <? n)%Z) eqn:Hout; [apply Hskip; intros i Hi [= ->]; apply orb_true_iff in Hout as [H%Z.ltb_lt|H%Z.ltb_lt]; lia|].
    destruct (n =? nC)%Z eqn:Hn.
    + assert (n = nC) by lia; subst n.
      destruct (insideMinMax _ _ selected) eqn:Hin; [intros H; apply Hdone; auto|].
      apply Hskip. intros i Hi [= Hz]. lia.
    + intros H. apply (selects_toggle _ _ _ _ _ _ (Z.to_nat (n - 1))); [rewrite Ha; f_equal; lia|].
      apply IH; [by rewrite length_alter|done].
Qed.

Lemma askMultipleSelection_shorter q rs : length (askMultipleSelection q rs).2 ≤ length rs.
Proof.
  unfold askMultipleSelection. case_bool_decide; cbn [negb snd]; [|lia].
  generalize (SelectedChoices q) as selected. induction rs as [|[r|err] rs IH]; intros selected; [cbn; lia| |cbn; lia].
  cbn [select_loop length]. repeat case_match; cbn [snd]; try lia;
    (etrans; [apply IH|lia]).
Qed.

Lemma returnSelected_length choices selected :
  length selected = length choices →
  length (returnSelected choices selected) = length (filter (λ b, b = true) selected) ∧
  returnSelected choices selected `sublist_of` choices.
Proof.
  revert selected; induction choices as [|c choices IH]; intros [|b selected]; try done.
  intros [= Hlen]; destruct (IH selected Hlen) as [H1 H2]; unfold returnSelected in *; rewrite filter_cons.
  destruct b; [rewrite decide_True by done|rewrite decide_False by done]; cbn;
    (split; [by rewrite H1|by constructor]).
Qed.

(** A selection of several choices ends with as many choices as allowed,
    in the order of the choices: those whose number was entered an odd number
    of times, or an even number of times if they were selected at first. *)
Theorem AskMultipleSelection_correct q rs l rest :
  askMultipleSelection q rs = (inl l, rest) →
  ∃ pre r, rs = map inl pre ++ inl r :: rest ∧
    l = returnSelected (Choices (selection q)) (toggled (SelectedChoices q) pre) ∧
    l `sublist_of` Choices (selection q) ∧ (MinSelected q ≤ Z.of_nat (length l) ≤ MaxSelected q)%Z.
Proof.
  unfold askMultipleSelection. case_bool_decide as Hlen; [|done]. cbn [negb]. intros H.
  apply select_loop_spec in H as (pre & r & -> & _ & Hin & ->); [|done].
  destruct (returnSelected_length (Choices (selection q)) (toggled (SelectedChoices q) pre)) as [Hl Hs];
    [by unfold toggled; rewrite length_imap|].
  exists pre, r; split_and!; [done|done|done|rewrite Hl; unfold insideMinMax in Hin; lia..].
Qed.

(** ** Witnesses *)

Definition example_choices : AskMultipleSelection :=
  {| selection := {| sel_Query := "zones"; Choices := ["a"; "b"; "c"]; sel_Default := -1 |};
     SelectedChoices := [true; false; false]; MinSelected := 1; MaxSelected := 3 |}.

Lemma AskSelection_range_witness :
  ((1 = -1 ∧ 0 ≤ 1) ∨ (-1 ≤ 1 < 3))%Z.
Proof.
  apply (AskSelection_range (selection example_choices) [inl "x"; inl "4"; inl "2"; inl "3"] 1 [inl "3"]).
  reflexivity.
Defined.

(** The first choice is deselected, the second is selected twice, and the
    selection is continued with once too few choices are selected. *)
Lemma AskMultipleSelection_correct_witness :
  ∃ pre r, map inl ["1"; ""; "2"; "3"; "02"; "4"; "1"] = map inl pre ++ inl r :: [inl "1" : string + error] ∧
    ["c"] = returnSelected ["a"; "b"; "c"] (toggled [true; false; false] pre) ∧
    ["c"] `sublist_of` ["a"; "b"; "c"] ∧ (1 ≤ Z.of_nat (length ["c"]) ≤ 3)%Z.
Proof.
  apply (AskMultipleSelection_correct example_choices
           (map inl ["1"; ""; "2"; "3"; "02"; "4"; "1"]) ["c"] [inl "1"]).
  vm_compute. reflexivity.
Defined.
