(* ===== verification/Init.v ===== *)
(** * Init: the dialogue that extends the configuration

    [src/pkg/tarmak/initialize/initialize.go] with the questions of
    [src/pkg/tarmak/provider/init.go], [src/pkg/tarmak/provider/amazon/init.go],
    [src/pkg/tarmak/environment/init.go], [src/pkg/tarmak/cluster/init.go] and
    [AskEnvironmentLocation] and [AskInstancePoolZones] of
    [src/pkg/tarmak/provider/amazon/amazon.go].

    A step of the dialogue ([D]) reads responses and changes the configuration
    ([Session]).  What AWS, the file system and the mail check answer is an
    argument ([World]); it can depend on the time, measured by the number of
    responses left.  The loops are [iter] with one round more than there are
    responses. *)

From Stdlib Require Import Floats.SpecFloat.
From S2P Require Import Prelude Types Defaults Net Utils Regexp Role Provider InstancePool Config Cluster.
From S2P Require Import ClusterSpec Environment Input.

(** ** Steps of a dialogue *)

Record Session (bytes : Type) := { responses : Responses; config : State bytes }.
Arguments responses {_} _.
Arguments config {_} _.

(** A step is done, fails with an error, panics, or is out of fuel. *)
Inductive Out (bytes A : Type) :=
| Done (a : A) (s : Session bytes)
| Failed (e : error) (s : Session bytes)
| Panicked
| OutOfFuel.
Arguments Done {_ _} _ _.
Arguments Failed {_ _} _ _.
Arguments Panicked {_ _}.
Arguments OutOfFuel {_ _}.

Definition D (bytes A : Type) : Type := Session bytes → Out bytes A.

Section Monad.
Context {bytes : Type}.

#[global] Instance D_ret : MRet (D bytes) := λ A a s, Done a s.
#[global] Instance D_bind : MBind (D bytes) := λ A B f m s,
  match m s with
  | Done a s' => f a s'
  | Failed e s' => Failed e s'
  | Panicked => Panicked
  | OutOfFuel => OutOfFuel
  end.

Definition fail {A} (e : error) : D bytes A := λ s, Failed e s.

(** A question with one of the functions of [Input]. *)
Definition ask {A} (f : Responses → (A + error) * Responses) : D bytes A := λ s,
  match f (responses s) with
  | (inl a, rs) => Done a {| responses := rs; config := config s |}
  | (inr e, rs) => Failed e {| responses := rs; config := config s |}
  end.

(** A look at the configuration, or a computation that can panic. *)
Definition look {A} (f : State bytes → GoM A) : D bytes A := λ s,
  match f (config s) with Ret a => Done a s | Panic => Panicked end.

(** A change of the configuration. *)
Definition change (f : State bytes → GoM (State bytes * option error)) : D bytes unit := λ s,
  match f (config s) with
  | Ret (st, None) => Done () {| responses := responses s; config := st |}
  | Ret (st, Some e) => Failed e {| responses := responses s; config := st |}
  | Panic => Panicked
  end.

Definition clock : D bytes nat := λ s, Done (length (responses s)) s.

(** [x, err := m], where [err] is looked at later. *)
Definition try {A} (m : D bytes A) : D bytes (A + error) := λ s,
  match m s with
  | Done a s' => Done (inl a) s'
  | Failed e s' => Done (inr e) s'
  | Panicked => Panicked
  | OutOfFuel => OutOfFuel
  end.

(** [fmt.Errorf("...: %s", err)] around the error of [m]. *)
Definition wrap {A} (msg : string) (m : D bytes A) : D bytes A :=
  r ← try m; match r with inl a => mret a | inr e => fail (Errorf (msg +:+ error_string e)) end.

(** [for { ... }]: a round continues with a new value or ends the loop. *)
Fixpoint rounds {X A} (fuel : nat) (body : X → D bytes (X + A)) (x : X) : D bytes A :=
  match fuel with
  | 0 => λ _, OutOfFuel
  | S fuel => r ← body x; match r with inl x' => rounds fuel body x' | inr a => mret a end
  end.

Definition iter {X A} (body : X → D bytes (X + A)) (x : X) : D bytes A := λ s,
  rounds (S (length (responses s))) body x s.

(** A loop without variables. *)
Definition repeat_until {A} (body : D bytes (option A)) : D bytes A :=
  iter (λ _ : unit, r ← body; mret match r with Some a => inr a | None => inl () end) ().

End Monad.

(** ** The world *)

(** [verify] is [Validate] and [Verify] of a provider, which stores what it
    finds about the DNS zone in its configuration; [ssh] the check of the key
    of an environment; [email] the check of a mail address. *)
Record World := {
  verify : nat → Provider → Provider * option error;
  ssh : nat → EnvT → option error;
  regions : nat → list string + error;
  zones : nat → list string + error;
  email : string → bool;
  now : Z;
}.

Section Dialogue.
Context `{MapRange}.
Context {V : Type} (NewVersion : string → V + string) (LessThan : V → V → bool).
Context (fmt_float : spec_float → string).
Context {bytes : Type} (Encode : Config → bytes + error) (io_error : nat → option error).
Context (w : World).

#[local] Abbreviation D := (D bytes).
#[local] Abbreviation State := (State bytes).

Definition open (query : string) (empty : bool) (default : string) : D string :=
  ask (askOpen {| open_Query := query; AllowEmpty := empty; open_Default := default |}).

Definition select (query : string) (choices : list string) (default : Z) : D Z :=
  ask (askSelection {| sel_Query := query; Choices := choices; sel_Default := default |}).

Definition yes_no (query : string) (default : bool) : D bool :=
  ask (askYesNo {| yn_Query := query; yn_Default := default |}).

(** A name that matches and that no provider has. *)
Definition ask_name (query : string) (valid : re) : D string :=
  repeat_until
    (name ← open query false "";
     look (λ st, mret (if MatchString valid name && is_nil (UniqueProviderName st name) then Some name else None))).

(** An answer that matches. *)
Definition ask_valid (query default : string) (valid : re) : D string :=
  repeat_until
    (r ← open query false default; mret (if MatchString valid r then Some r else None)).

(** *** Providers *)

Definition initCredentials (p : ProviderAmazon) : D ProviderAmazon :=
  credentialSource ← select "Where should the credentials for this provider come from?"
    ["Amazon CLI auth, using environment variables or profiles in '~/.aws'"; "read from Vault path"] 0;
  if decide (credentialSource = 0)%Z then
    awsProfile ← open "Which AWS profile should be used? (leave empty for default profile)" true "";
    mret {| p with pa_Profile := awsProfile |}
  else if decide (credentialSource = 1)%Z then
    vaultPath ← open "Which Vault path should be used for Amazon credentials?" false "";
    mret {| p with pa_VaultPath := vaultPath |}
  else mret p.

Definition initBucketPrefix (name : string) (p : ProviderAmazon) : D ProviderAmazon :=
  bucketPrefix ← ask_valid
    "Which prefix should be used for the state buckets and DynamoDB tables? ([a-z0-9-]+, should be globally unique)"
    (name +:+ "-tarmak-") RegexpProviderName;
  mret {| p with pa_BucketPrefix := bucketPrefix |}.

Definition initPublicZone (p : ProviderAmazon) : D ProviderAmazon :=
  publicZone ← ask_valid
    "Which public DNS zone should be used? (the DNS zone will be created if it does not exist and it must be delegated from the root)"
    "" RegexpDNS;
  mret {| p with pa_PublicZone := publicZone |}.

Definition ProviderAmazon_zero : ProviderAmazon :=
  {| pa_VaultPath := ""; pa_AllowedAccountIDs := []; pa_Profile := ""; pa_BucketPrefix := "";
     pa_KeyName := ""; pa_PublicZone := ""; pa_PublicHostedZoneID := "" |}.

(** [amazon.Init] *)
Definition amazon_Init (name : string) : D ProviderAmazon :=
  p ← initCredentials ProviderAmazon_zero;
  p ← initBucketPrefix name p;
  initPublicZone p.

Definition clouds : list string := [CloudAmazon; CloudAzure].

(** [provider.Init] *)
Definition provider_Init : D Provider :=
  name ← ask_name "Enter a unique name for this provider [a-z0-9-]+" RegexpProviderName;
  amazon ← repeat_until
    (cloud ← select "Select a cloud" clouds 0;
     c ← look (λ _, index clouds cloud);
     if decide (c = CloudAmazon) then p ← amazon_Init name; mret (Some p) else mret None);
  mret {| pr_meta := {| ObjectMeta_zero with Name := name |}; pr_Amazon := Some amazon;
          pr_GCP := None; pr_Azure := None |}.

Definition what_now : string := "What do you want to do now?".

(** The loop after the creation of an object: validate, and ask what to do
    about an error.  [None] starts the creation over again. *)
Definition validation_loop {X A} (choices : list string) (check : nat → X → X * option error)
    (append : X → D unit) (result : X → A) : X → D (option A) :=
  iter (λ x,
    t ← clock;
    let '(x, err) := check t x in
    match err with
    | None => _ ← append x; mret (inr (Some (result x)))
    | Some _ =>
        choice ← select what_now choices 0;
        if decide (choice = 0)%Z then mret (inl x)
        else if decide (choice = 2)%Z then mret (inr None)
        else _ ← append x; mret (inr (Some (result x)))
    end).

Definition InitProvider : D Amazon.Amazon :=
  repeat_until
    (conf ← provider_Init;
     match provider_NewFromConfig conf with
     | inr _ => mret None
     | inl _ =>
         persist ← yes_no "Continue with this provider?" true;
         if negb persist then mret None
         else validation_loop
                ["Retry validation"; "Ignore validation error"; "Start over again with provider creation"]
                (verify w) (λ conf, change (λ st, AppendProvider Encode io_error (now w) st conf)) new_amazon conf
     end).

(** [t.Providers()]: those that can be built. *)
Fixpoint list_providers (st : State) (confs : list Provider) : GoM (list Amazon.Amazon) :=
  match confs with
  | [] => mret []
  | conf :: confs' =>
      r ← providerByName st (pr_Name conf);
      ps ← list_providers st confs';
      mret match r with inl p => p :: ps | inr _ => ps end
  end.

Definition GetProvider : D Amazon.Amazon :=
  configured ← look (λ st, mret (Providers st));
  match configured with
  | [] => InitProvider
  | _ =>
      providers ← look (λ st, list_providers st (Providers st));
      providerPos ← select "Select an existing provider or create a new one"
        (map Amazon.String providers ++ ["Create a new provider"]) (Z.of_nat (length providers));
      if decide (providerPos = Z.of_nat (length providers)) then InitProvider
      else look (λ _, index providers providerPos)
  end.

(** *** Environments *)

Definition askEnvironmentName : D string :=
  ask_name "Enter a unique name for this environment ([a-z0-9]+) - e.g. dev/staging/prod" RegexpEnvironmentName.

Definition AskProjectName : D string := open "What is the project name?" false "tarmak-playground".

Definition AskContact : D string :=
  repeat_until
    (contact ← open "Provide a contact mail address for the project administrator" true "";
     mret (if bool_decide (contact = "") || email w contact then Some contact else None)).

Definition AskEnvironmentLocation : D string :=
  t ← clock;
  match regions w t with
  | inr e => fail e
  | inl regions =>
      regionPos ← select "In which region should this environment reside?" regions (-1);
      look (λ _, index regions regionPos)
  end.

(** [environment.Init] *)
Definition environment_Init (prov : Amazon.Amazon) : D Environment :=
  name ← askEnvironmentName;
  project ← AskProjectName;
  contact ← AskContact;
  location ← AskEnvironmentLocation;
  mret {| env_meta := {| ObjectMeta_zero with Name := name |}; env_Provider := Amazon.Name prov;
          env_Contact := contact; env_Project := project; env_Location := location;
          env_SSH := None; env_PrivateZone := ""; env_AdminCIDRs := None |}.

Definition InitEnvironment : D EnvT :=
  prov ← wrap "error getting a provider: " GetProvider;
  repeat_until
    (conf ← environment_Init prov;
     r ← look (λ st, Environment.NewFromConfig NewVersion LessThan fmt_float st conf []);
     match r with
     | inr _ => mret None
     | inl e =>
         persist ← yes_no "Continue with this environment?" true;
         if negb persist then mret None
         else validation_loop
                ["retry validation"; "ignore validation error"; "start over again with environment creation"]
                (λ t e, (e, env_Validate (ssh w t e) e))
                (λ e, change (λ st, AppendEnvironment Encode io_error (now w) st conf)) id e
     end).

Definition is_single (st : State) (e : EnvT) : GoM bool :=
  t ← env_Type st e; mret (bool_decide (t = EnvironmentTypeSingle)).

Definition GetEnvironment : D EnvT :=
  configured ← look (λ st, mret (Environments st));
  match configured with
  | [] => InitEnvironment
  | _ =>
      repeat_until
        (environments ← look (λ st, list_environments NewVersion LessThan fmt_float st (Environments st));
         singles ← look (λ st, mapM (is_single st) environments);
         environmentPos ← select "Select environment or create new"
           (zip_with (λ e single, if single : bool then e_Name e +:+ " (unavailable as single cluster env)"
                                  else e_Name e) environments singles ++ ["create new environment"])
           (Z.of_nat (length environments));
         if decide (environmentPos = Z.of_nat (length environments)) then e ← InitEnvironment; mret (Some e)
         else
           single ← look (λ _, index singles environmentPos);
           if single : bool then mret None
           else e ← look (λ _, index environments environmentPos); mret (Some e))
  end.

(** *** Clusters *)

Definition askClusterName : D string :=
  ask_name "Enter a unique name for this cluster [a-z0-9]+" RegexpClusterName.

Definition askClusterType : D string :=
  pos ← select "What kind of cluster do you want to add?"
    ["Single cluster environment"; "Multi cluster environment"] 0;
  if decide (pos = 0)%Z then mret EnvironmentTypeSingle
  else if decide (pos = 1)%Z then mret EnvironmentTypeMulti
  else fail (Errorf "no valid selection").

Definition AskInstancePoolZones (e : EnvT) : D (list string) :=
  t ← clock;
  match Amazon.getAvailablityZoneByRegion (zones w t) with
  | inr err => fail (Errorf ("failed to get availabilty zones: " +:+ error_string err))
  | inl [] => fail (Errorf ("no availability zones found for region '" +:+ env_Location (e_conf e) +:+ "'"))
  | inl zones =>
      ask (askMultipleSelection
        {| selection := {| sel_Query := "Please select availabilty zones. Enter numbers to toggle selection.";
                           Choices := zones; sel_Default := 1 |};
           SelectedChoices := true :: replicate (length zones - 1) false;
           MinSelected := 1; MaxSelected := Z.of_nat (length zones) |})
  end.

Definition zone_subnet (zone : string) : Subnet :=
  {| sn_meta := ObjectMeta_zero; sn_Identifier := ""; sn_CIDR := ""; sn_Location := ""; sn_Zone := zone |}.

Definition addAvailabilityZones (c : Cluster) (zones : list string) : Cluster :=
  {| c with cl_InstancePools := map (λ p, {| p with ip_Subnets := map zone_subnet zones |}) (cl_InstancePools c) |}.

Definition append_cluster (c : Cluster) : D unit :=
  change (λ st, AppendCluster Encode io_error (now w) st c).

(** The hub of a multi cluster environment, added before the cluster. *)
Definition add_hub (e : EnvT) (zones : list string) : D unit :=
  clusters ← look (λ st, Clusters st (e_Name e));
  if existsb (λ c, bool_decide (cl_Name c = "hub")) clusters then mret ()
  else append_cluster (addAvailabilityZones (NewHub (now w) (e_Name e)) zones).

(** [cluster.Init]; the error of the question for the zones is returned at the
    end. *)
Definition cluster_Init (e : EnvT) : D Cluster :=
  type ← look (λ st, env_Type st e);
  if decide (type = EnvironmentTypeSingle) then
    fail (Errorf ("can't add a cluster to the single cluster environment '" +:+ e_Name e +:+ "'"))
  else
    clusterType ← (if decide (type = EnvironmentTypeEmpty) then askClusterType
                   else mret EnvironmentTypeMulti);
    r ← try (AskInstancePoolZones e);
    let zones := match r with inl zones => zones | inr _ => [] end in
    c ← (if decide (clusterType = EnvironmentTypeMulti) then
           clusterName ← askClusterName;
           _ ← add_hub e zones;
           mret (NewClusterMulti (now w) (e_Name e) clusterName)
         else mret (NewClusterSingle (now w) (e_Name e) "cluster"));
    match r with
    | inr err => fail err
    | inl _ => mret (addAvailabilityZones c zones)
    end.

(** Heapster, Grafana and InfluxDB are switched off in a new cluster. *)
Definition without_monitoring (c : Cluster) : Cluster :=
  let k := default ClusterKubernetes_zero (cl_Kubernetes c) in
  {| c with cl_Kubernetes :=
       Some {| k with ck_Heapster := Some {| heap_Enabled := false |};
                      ck_Grafana := Some {| graf_Enabled := false |};
                      ck_InfluxDB := Some {| infl_Enabled := false |} |} |}.

(** The environment a new cluster sees. *)
Definition view (st : State) (e : EnvT) : GoM Env :=
  confs ← Clusters st (e_Name e);
  mret (env_view (e_conf e) (length confs) (e_hub e) (e_provider e) ∅).

Definition newCluster (e : EnvT) (conf : Cluster) : D ClusterT :=
  r ← look (λ st, v ← view st e; Cluster.NewFromConfig (H0 := v) NewVersion LessThan fmt_float conf);
  match r with
  | (Some c, None) => mret c
  | (_, Some err) => fail err
  | (None, None) => look (λ _, Panic)
  end.

Definition InitCluster : D ClusterT :=
  e ← wrap "error getting the environment: " GetEnvironment;
  let e := {| e with e_provider := Amazon.Reset (e_provider e) |} in
  repeat_until
    (conf ← cluster_Init e;
     let conf := without_monitoring conf in
     c ← newCluster e conf;
     persist ← yes_no "Continue with this cluster?" true;
     if negb persist then mret None
     else
       iter (λ c,
         r ← look (λ st, v ← view st e; Cluster.Validate (H0 := v) NewVersion LessThan fmt_float c);
         let '(c, err) := (r : ClusterT * option error) in
         match err with
         | None => _ ← append_cluster conf; mret (inr (Some c))
         | Some _ =>
             choice ← select what_now
               ["Retry validation"; "Ignore validation error"; "Start over again with cluster creation"] 0;
             if decide (choice = 0)%Z then mret (inl c)
             else if decide (choice = 2)%Z then mret (inr None)
             else _ ← append_cluster conf; mret (inr (Some c))
         end) c).

End Dialogue.

(** ** Reasoning about dialogues *)

Section Logic.
Context {bytes : Type} (Encode : Config → bytes + error) (io_error : nat → option error).
Implicit Types (s : Session bytes) (st : State bytes).

Definition valid_name (r : re) (name : string) : Prop := MatchString r name = true.

(** A configuration the dialogue can leave behind: names are unique and
    well-formed, and every cluster belongs to an environment. *)
Record ok_config (c : Config) : Prop := {
  ok_wf : wf_config c;
  ok_environments : Forall (valid_name RegexpEnvironmentName) (map env_Name (cf_Environments c));
  ok_clusters : Forall (valid_name RegexpClusterName) (map cl_Name (cf_Clusters c));
  ok_home : Forall (λ e, e ∈ map env_Name (cf_Environments c)) (map cl_Environment (cf_Clusters c));
}.

Definition ok st : Prop := ∃ c, conf st = Some c ∧ ok_config c.

(** Nothing is changed or removed, and the current cluster stays. *)
Definition grown (c c' : Config) : Prop :=
  cf_Providers c `prefix_of` cf_Providers c' ∧ cf_Environments c `prefix_of` cf_Environments c' ∧
  cf_Clusters c `prefix_of` cf_Clusters c' ∧ cf_CurrentCluster c' = cf_CurrentCluster c.

Definition grows st st' : Prop := ∀ c, conf st = Some c → ∃ c', conf st' = Some c' ∧ grown c c'.

Definition evolves s s' : Prop :=
  length (responses s') ≤ length (responses s) ∧ grows (config s) (config s') ∧ (ok (config s) → ok (config s')).

#[global] Instance evolves_preorder : PreOrder evolves.
Proof.
  split.
  - intros s; split_and!; [lia| |done]. intros c Hc; exists c; by split_and!.
  - intros s1 s2 s3 (Hl1 & Hg1 & Ho1) (Hl2 & Hg2 & Ho2); split_and!; [lia| |auto].
    intros c Hc; destruct (Hg1 c Hc) as (c2 & Hc2 & ? & ? & ? & ?).
    destruct (Hg2 c2 Hc2) as (c3 & Hc3 & ? & ? & ? & ?). exists c3; split; [done|].
    split_and!; [by etrans..|congruence].
Qed.

(** From session [s], step [m] does not run out of fuel, the session evolves,
    and if the step is done its result satisfies [Q]. *)
Definition holds {A} (m : D bytes A) s (Q : A → Session bytes → Prop) : Prop :=
  match m s with
  | Done a s' => evolves s s' ∧ Q a s'
  | Failed _ s' => evolves s s'
  | Panicked => True
  | OutOfFuel => False
  end.

Lemma holds_ret {A} (a : A) s (Q : A → Session bytes → Prop) : Q a s → holds (mret a) s Q.
Proof. intros; split; [reflexivity|done]. Qed.

Lemma holds_fail {A} e s (Q : A → Session bytes → Prop) : holds (fail e) s Q.
Proof. unfold holds; cbn; reflexivity. Qed.

Lemma holds_bind {A B} (m : D bytes A) (f : A → D bytes B) s Q Q' :
  holds m s Q → (∀ a s', evolves s s' → Q a s' → holds (f a) s' Q') → holds (m ≫= f) s Q'.
Proof.
  unfold holds at 1 3, mbind, D_bind. destruct (m s) as [a s'|e s'| |]; try done.
  intros [He HQ] Hf; specialize (Hf a s' He HQ). unfold holds in Hf.
  destruct (f a s') as [b s''|e s''| |]; try done; [destruct Hf; split; [by etrans|done]|by etrans].
Qed.

Lemma holds_mono {A} (m : D bytes A) s (Q Q' : A → Session bytes → Prop) :
  holds m s Q → (∀ a s', evolves s s' → Q a s' → Q' a s') → holds m s Q'.
Proof. unfold holds; destruct (m s); [intros [? ?]; auto|done..]. Qed.

Lemma holds_try {A} (m : D bytes A) s (Q : A → Session bytes → Prop) :
  holds m s Q → holds (try m) s (λ r s', match r with inl a => Q a s' | inr _ => True end).
Proof. unfold holds, try; destruct (m s); auto. Qed.

Lemma holds_wrap {A} msg (m : D bytes A) s Q : holds m s Q → holds (wrap msg m) s Q.
Proof.
  intros Hm; unfold wrap. eapply holds_bind; [by apply holds_try|].
  intros [a|e] s' _ HQ; [by apply holds_ret|apply holds_fail].
Qed.

(** A look sees the configuration. *)
Lemma holds_look {A} (f : State bytes → GoM A) s (Q : A → Session bytes → Prop) :
  (∀ a, f (config s) = Ret a → Q a s) → holds (look f) s Q.
Proof.
  intros HQ; unfold holds, look. destruct (f (config s)) eqn:E; [|done]. split; [reflexivity|auto].
Qed.

Lemma holds_clock s (Q : nat → Session bytes → Prop) : (∀ t, Q t s) → holds clock s Q.
Proof. intros HQ; split; [reflexivity|apply HQ]. Qed.

(** A question uses up a response. *)
Lemma holds_first {A} (f : Responses → (A + error) * Responses) (meaning : string → option A) s :
  (∀ rs, f rs = first_answer meaning rs) →
  holds (ask f) s (λ a s', length (responses s') < length (responses s)).
Proof.
  intros Hf; unfold holds, ask. rewrite Hf. pose proof (first_answer_shorter meaning (responses s)) as Hl.
  destruct (first_answer meaning (responses s)) as [[a|e] rs] eqn:E; cbn [snd] in Hl.
  - apply first_answer_consumes in E. split; [|done]. split_and!; [cbn; lia| |done]. intros c Hc; by exists c.
  - split_and!; [cbn; lia| |done]. intros c Hc; by exists c.
Qed.

(** A loop whose rounds use up responses ends. *)
Lemma holds_iter {X A} (body : X → D bytes (X + A)) (I : X → Session bytes → Prop) Q x s :
  (∀ x s, I x s → holds (body x) s (λ r s',
     match r with inl x' => length (responses s') < length (responses s) ∧ I x' s' | inr a => Q a s' end)) →
  I x s → holds (iter body x) s Q.
Proof.
  intros Hbody HI.
  enough (Hr : ∀ fuel x s, I x s → length (responses s) < fuel → holds (rounds fuel body x) s Q)
    by (apply (Hr (S (length (responses s)))); [done|lia]).
  clear x s HI.
  induction fuel as [|fuel IH]; intros x s HI Hlt; [lia|]. cbn [rounds].
  eapply holds_bind; [by apply Hbody|]. intros [x'|a] s' _ Hr; [|by apply holds_ret].
  apply IH; [apply Hr|lia].
Qed.

Lemma holds_repeat {A} (body : D bytes (option A)) Q s :
  (∀ s', evolves s s' → holds body s' (λ r s'',
     match r with None => length (responses s'') < length (responses s') | Some a => Q a s'' end)) →
  holds (repeat_until body) s Q.
Proof.
  intros Hbody; unfold repeat_until. apply (holds_iter _ (λ _ s', evolves s s')); [|reflexivity].
  intros _ s' Hs'. eapply holds_bind; [by apply Hbody|]. intros [a|] s'' He Hr; apply holds_ret; [done|].
  split; [done|by etrans].
Qed.

End Logic.

(** ** Questions and changes *)

Section Steps.
Context {bytes : Type} (Encode : Config → bytes + error) (io_error : nat → option error) (now : Z).
Implicit Types (s : Session bytes) (st : State bytes).

Definition fewer {A} s : A → Session bytes → Prop := λ _ s', length (responses s') < length (responses s).

Lemma holds_open query empty default s : holds (open query empty default) s (fewer s).
Proof. eapply holds_first, askOpen_first. Qed.

Lemma holds_select query choices default s : holds (select query choices default) s (fewer s).
Proof. eapply holds_first, askSelection_first. Qed.

Lemma holds_yes_no query default s : holds (yes_no query default) s (fewer s).
Proof. eapply holds_first, askYesNo_first. Qed.

Lemma ask_evolves s rs :
  length rs ≤ length (responses s) → evolves s {| responses := rs; config := config s |}.
Proof. intros Hl; split_and!; [done| |done]. intros c Hc; by exists c. Qed.

Lemma holds_multiple q s : holds (ask (askMultipleSelection q)) s (λ _ _, True).
Proof.
  unfold holds, ask. pose proof (askMultipleSelection_shorter q (responses s)) as Hl.
  destruct (askMultipleSelection q (responses s)) as [[l|e] rs]; [split; [|done]|]; by apply ask_evolves.
Qed.

(** A change that is good for the configuration. *)
Definition good_change st (r : GoM (State bytes * option error)) (Q : State bytes → Prop) : Prop :=
  match r with
  | Ret (st', err) => grows st st' ∧ (ok st → ok st') ∧ (err = None → Q st')
  | Panic => True
  end.

Lemma holds_change f s Q : good_change (config s) (f (config s)) Q → holds (change f) s (λ _ s', Q (config s')).
Proof.
  unfold good_change, holds, change. destruct (f (config s)) as [[st' [e|]]|]; [|intros (? & ? & HQ)..|done].
  - intros (? & ? & _); by split_and!.
  - split; [by split_and!|auto].
Qed.

(** Storing a configuration that extends the one before. *)
Lemma good_store_grown st c c' (Q : State bytes → Prop) :
  conf st = Some c → grown c c' → (ok_config c → ok_config c') →
  (∀ st', conf st' = Some c' → in_sync Encode st' → Q st') →
  good_change st (Ret (store Encode io_error st c')) Q.
Proof.
  intros Hc Hg Ho HQ; unfold good_change. pose proof (store_spec Encode io_error st c') as Hs.
  destruct (store Encode io_error st c') as [st' err]. destruct Hs as [Hst Hsync]. split_and!.
  - intros c0 Hc0; rewrite Hc in Hc0; injection Hc0 as <-. by exists c'.
  - intros (c0 & Hc0 & Hok); rewrite Hc in Hc0; injection Hc0 as <-. exists c'; auto.
  - auto.
Qed.

Lemma good_refused st e (Q : State bytes → Prop) : good_change st (Ret (st, Some e)) Q.
Proof. split_and!; [|done|done]. intros c Hc; exists c; by split_and!. Qed.

(** Without a configuration nothing is known before or after. *)
Lemma good_nothing st r : conf st = None → good_change st r (λ _, True).
Proof.
  intros Hn; unfold good_change. destruct r as [[st' err]|]; [|done].
  split_and!; [intros c; by rewrite Hn|intros (c & Hc & _); by rewrite Hn in Hc|done].
Qed.

Lemma good_AppendProvider st p :
  good_change st (AppendProvider Encode io_error now st p) (λ _, True).
Proof.
  destruct (conf st) as [c|] eqn:Hc; [|by apply good_nothing]. unfold AppendProvider, ensure_conf.
  rewrite Hc. destruct (UniqueProviderName st (pr_Name p)) eqn:E; [apply good_refused|].
  rewrite Hc; cbn [deref mbind GoM_bind]. apply (good_store_grown st c); [done| | |done].
  - split_and!; [by eexists|done..].
  - intros [[? ? ?] ? ? ?]; split; try done. split; try done. cbn. apply NoDup_map_snoc; [done|].
    unfold UniqueProviderName, Providers in E; rewrite Hc in E. by apply unique_name_None in E.
Qed.

Definition has_environment st (name : string) : Prop :=
  ∃ c, conf st = Some c ∧ name ∈ map env_Name (cf_Environments c).

Lemma good_AppendEnvironment st e :
  is_Some (conf st) → valid_name RegexpEnvironmentName (env_Name e) →
  good_change st (AppendEnvironment Encode io_error now st e) (λ st', has_environment st' (env_Name e)).
Proof.
  intros [c Hc] Hv. unfold AppendEnvironment, ensure_conf.
  rewrite Hc. destruct (UniqueEnvironmentName st (env_Name e)) eqn:E; [apply good_refused|].
  rewrite Hc; cbn [deref mbind GoM_bind]. apply (good_store_grown st c); [done| | |].
  - split_and!; [done|by eexists|done..].
  - intros [[? ? ?] ? ? Hh]; split; cbn; try done.
    + split; try done. cbn. apply NoDup_map_snoc; [done|].
      unfold UniqueEnvironmentName, Environments in E; rewrite Hc in E. by apply unique_name_None in E.
    + rewrite map_app. apply Forall_app; by split; [|constructor].
    + eapply Forall_impl; [apply Hh|]. intros n Hn. rewrite map_app. apply elem_of_app; by left.
  - intros st' Hst' _. eexists; split; [done|]. cbn. rewrite map_app. apply elem_of_app; right; left.
Qed.

(** The configuration is written and has the cluster, in its environment. *)
Definition has_cluster st (environment name : string) : Prop :=
  in_sync Encode st ∧ has_environment st environment ∧
  ∃ c, conf st = Some c ∧ (environment, name) ∈ map (λ cl, (cl_Environment cl, cl_Name cl)) (cf_Clusters c).

Lemma good_AppendCluster st cl :
  has_environment st (cl_Environment cl) → valid_name RegexpClusterName (cl_Name cl) →
  good_change st (AppendCluster Encode io_error now st cl)
    (λ st', has_cluster st' (cl_Environment cl) (cl_Name cl)).
Proof.
  intros (c & Hc & Hin) Hv. unfold AppendCluster, ensure_conf.
  rewrite Hc. unfold UniqueClusterName, Clusters. rewrite Hc. cbn [deref mbind GoM_bind mret GoM_ret].
  destruct (unique_name _ _) eqn:E; [apply good_refused|].
  apply (good_store_grown st c); [done| | |].
  - split_and!; [done|done|by eexists|done].
  - intros [[? ? ?] ? ? ?]; split; cbn; try done.
    + split; try done. cbn. apply NoDup_map_snoc; [done|]. apply unique_name_None in E.
      intros (cl' & [= He Hn] & Hcl)%list_elem_of_fmap. apply E. unfold cl_Name in Hn |- *. simpl in Hn.
      rewrite Hn. apply (list_elem_of_fmap_2 cl_Name), list_elem_of_filter. done.
    + rewrite map_app. apply Forall_app; by split; [|constructor].
    + rewrite map_app. apply Forall_app; by split; [|constructor].
  - intros st' Hst' Hsync. split_and!; [done|eexists; done|]. eexists; split; [done|].
    cbn. rewrite map_app. apply elem_of_app; right; left.
Qed.

Lemma grows_environment st st' name : grows st st' → has_environment st name → has_environment st' name.
Proof.
  intros Hg (c & Hc & Hin); destruct (Hg c Hc) as (c' & Hc' & _ & [l Hl] & _).
  exists c'; split; [done|]. rewrite Hl, map_app. apply elem_of_app; by left.
Qed.

Lemma grows_Some st st' : grows st st' → is_Some (conf st) → is_Some (conf st').
Proof. intros Hg [c Hc]; destruct (Hg c Hc) as (c' & Hc' & _). by eexists. Qed.

End Steps.

(** ** The dialogue *)

Tactic Notation "next_step" uconstr(lem) := eapply holds_bind; [apply lem|].

(** A session evolves over a chain of steps. *)
Ltac evolve := first [assumption | reflexivity | etransitivity; [|eassumption]; evolve].

Section Facts.
Context `{MapRange}.
Context {V : Type} (NewVersion : string → V + string) (LessThan : V → V → bool).
Context (fmt_float : spec_float → string).
Context {bytes : Type} (Encode : Config → bytes + error) (io_error : nat → option error).
Context (w : World).
Implicit Types (s : Session bytes) (st : State bytes).

Lemma fewer_trans {A} s s1 (a : A) s2 :
  evolves s s1 → fewer s1 a s2 → length (responses s2) < length (responses s).
Proof. unfold fewer; intros (Hl & _) Hf. lia. Qed.

Lemma fewer_later {A} s s1 (a : A) s2 :
  fewer s a s1 → evolves s1 s2 → length (responses s2) < length (responses s).
Proof. unfold fewer; intros Hf (Hl & _). lia. Qed.

Lemma ask_name_holds query valid s :
  holds (ask_name query valid) s (λ name s', valid_name valid name ∧ fewer s name s').
Proof.
  apply holds_repeat; intros s1 He1. next_step holds_open. intros name s2 He2 Hf.
  apply holds_look; intros r [= <-]. destruct (MatchString valid name) eqn:Hv; cbn; [|done].
  destruct (UniqueProviderName _ _); [done|]. split; [done|by eapply fewer_trans].
Qed.

Lemma ask_valid_holds query default valid s : holds (ask_valid query default valid) s (fewer s).
Proof.
  apply holds_repeat; intros s1 He1. next_step holds_open. intros name s2 He2 Hf.
  apply holds_ret. destruct (MatchString valid name); [by eapply fewer_trans|done].
Qed.

Lemma amazon_Init_holds name s : holds (amazon_Init name) s (fewer s).
Proof.
  unfold amazon_Init. eapply (holds_bind _ _ _ (fewer s)).
  { unfold initCredentials. next_step holds_select. intros c s1 He1 Hf1.
    case_decide; [|case_decide; [|by apply holds_ret]];
      (next_step holds_open; intros ? s2 He2 Hf2; apply holds_ret; by eapply fewer_trans). }
  intros p1 s1 He1 Hf1. eapply (holds_bind _ _ _ (λ _ _, True)).
  { unfold initBucketPrefix. next_step ask_valid_holds. intros; by apply holds_ret. }
  intros p2 s2 He2 _. unfold initPublicZone. next_step ask_valid_holds. intros z s3 He3 Hf3.
  apply holds_ret. eapply fewer_trans; [|exact Hf3]. by etrans.
Qed.

Lemma provider_Init_holds s : holds provider_Init s (fewer s).
Proof.
  unfold provider_Init. next_step ask_name_holds. intros name s1 He1 [_ Hf1].
  eapply (holds_bind _ _ _ (λ _ _, True)).
  { apply holds_repeat; intros s2 He2. next_step holds_select. intros cloud s3 He3 Hf3.
    eapply (holds_bind _ _ _ (fewer s2)); [by apply holds_look|]. intros c s4 He4 Hf4.
    case_decide; [|by apply holds_ret]. next_step amazon_Init_holds. intros; by apply holds_ret. }
  intros a s2 He2 _. apply holds_ret. by eapply fewer_later.
Qed.

(** The loop after the creation: nothing but [append] changes anything. *)
Lemma validation_loop_holds {X A} choices check append (result : X → A) (J : X → Prop) Q x s :
  (∀ t x, J x → J (check t x).1) → J x →
  (∀ x s', J x → evolves s s' → holds (append x) s' (λ _ s'', Q (result x) s'')) →
  holds (validation_loop choices check append result x) s (λ r s',
    match r with None => length (responses s') < length (responses s) | Some a => Q a s' end).
Proof.
  intros Hcheck Hx Happend. unfold validation_loop.
  apply (holds_iter _ (λ x s', J x ∧ evolves s s')); [|by split]. clear x Hx. intros x s1 [Hx He1].
  eapply (holds_bind _ _ _ (λ t s', s' = s1)); [by apply holds_clock|]. intros t s1' _ ->.
  specialize (Hcheck t x Hx). destruct (check t x) as [x' err]; cbn in Hcheck.
  assert (Hdone : ∀ s2, evolves s s2 → holds (append x' ≫= λ _, mret (inr (Some (result x')))) s2
    (λ (r : X + option A) s3, match r with
       | inl x => length (responses s3) < length (responses s1) ∧ J x ∧ evolves s s3
       | inr None => length (responses s3) < length (responses s)
       | inr (Some a) => Q a s3 end)).
  { intros s2 He2. eapply holds_bind; [by apply Happend|]. intros [] s3 He3 HQ; by apply holds_ret. }
  destruct err as [e|].
  - next_step holds_select. intros choice s2 He2 Hf2. case_decide; [|case_decide].
    + apply holds_ret. split_and!; [done|done|by etrans].
    + apply holds_ret. by eapply fewer_trans.
    + eapply holds_mono; [apply Hdone; by etrans|]. intros [x0|[a|]] s3 He3 HQ; done.
  - eapply holds_mono; [by apply Hdone|]. intros [x0|[a|]] s3 He3 HQ; done.
Qed.

Lemma InitProvider_holds s : holds (InitProvider Encode io_error w) s (λ _ _, True).
Proof.
  apply holds_repeat; intros s1 He1. next_step provider_Init_holds. intros conf s2 He2 Hf2.
  destruct (provider_NewFromConfig conf) as [prov|]; [|by apply holds_ret].
  next_step holds_yes_no. intros persist s3 He3 Hf3.
  destruct persist; cbn [negb]; [|apply holds_ret; by eapply fewer_later].
  eapply holds_mono; [apply (validation_loop_holds _ _ _ _ (λ _, True) (λ _ _, True)); [done|done|]|].
  - intros x s4 _ _. eapply holds_mono; [apply (holds_change _ _ (λ _, True)), good_AppendProvider|done].
  - intros [a|] s4 He4 HQ; [done|]. cbn in HQ. unfold fewer in *. destruct He3; lia.
Qed.

Lemma GetProvider_holds s : holds (GetProvider Encode io_error w) s (λ _ _, True).
Proof.
  unfold GetProvider. eapply (holds_bind _ _ _ (λ _ _, True)); [by apply holds_look|]. intros [|p l] s1 He1 _.
  { apply InitProvider_holds. }
  eapply (holds_bind _ _ _ (λ _ _, True)); [by apply holds_look|]. intros ps s2 He2 _.
  next_step holds_select. intros pos s3 He3 _. case_decide; [apply InitProvider_holds|by apply holds_look].
Qed.

Lemma environment_Init_holds prov s :
  holds (environment_Init w prov) s (λ conf s', valid_name RegexpEnvironmentName (env_Name conf) ∧ fewer s conf s').
Proof.
  unfold environment_Init. next_step ask_name_holds. intros name s1 He1 [Hv Hf1].
  next_step holds_open. intros project s2 He2 _. eapply (holds_bind _ _ _ (λ _ _, True)).
  { apply holds_repeat; intros s3 He3. next_step holds_open. intros contact s4 He4 Hf4.
    apply holds_ret. by destruct (_ || _). }
  intros contact s3 He3 _. eapply (holds_bind _ _ _ (λ _ _, True)).
  { unfold AskEnvironmentLocation. eapply (holds_bind _ _ _ (λ _ _, True)); [by apply holds_clock|].
    intros t s4 _ _. destruct (regions w t); [|apply holds_fail].
    next_step holds_select. intros pos s5 _ _. by apply holds_look. }
  intros location s4 He4 _. apply holds_ret. split; [done|]. eapply fewer_later; [exact Hf1|evolve].
Qed.

Lemma evolves_Some s s' : evolves s s' → is_Some (conf (config s)) → is_Some (conf (config s')).
Proof. intros (_ & Hg & _); by apply grows_Some. Qed.

Lemma evolves_environment s s' name :
  evolves s s' → has_environment (config s) name → has_environment (config s') name.
Proof. intros (_ & Hg & _); by apply grows_environment. Qed.

Lemma InitEnvironment_holds s :
  is_Some (conf (config s)) →
  holds (InitEnvironment NewVersion LessThan fmt_float Encode io_error w) s
    (λ e s', has_environment (config s') (e_Name e)).
Proof.
  intros Hsome; unfold InitEnvironment. eapply holds_bind; [apply holds_wrap, GetProvider_holds|].
  intros prov s1 He1 _. apply holds_repeat; intros s2 He2.
  next_step environment_Init_holds. intros conf s3 He3 [Hv Hf3].
  eapply (holds_bind _ _ _ (λ r s', match r with inl e => e_conf e = conf ∧ fewer s2 e s' | inr _ => fewer s2 () s' end)).
  { apply holds_look; intros [e|err] Hr; [|done]. by destruct (environment_inv _ _ _ _ _ _ _ Hr) as (_ & _ & ? & _). }
  intros [e|err] s4 He4 Hr; [|by apply holds_ret]. destruct Hr as [Hconf Hf4].
  next_step holds_yes_no. intros persist s5 He5 Hf5.
  destruct persist; cbn [negb]; [|apply holds_ret; eapply fewer_later; [exact Hf4|evolve]].
  eapply holds_mono; [apply (validation_loop_holds _ _ _ _ (λ e, e_conf e = conf)
    (λ e s', has_environment (config s') (e_Name e))); [done|done|]|].
  - intros x s6 Hx He6. unfold e_Name; cbn. rewrite Hx.
    apply (holds_change _ _ (λ st, has_environment st (env_Name conf))), good_AppendEnvironment; [|done].
    eapply evolves_Some; [|exact Hsome]. evolve.
  - intros [x|] s6 He6 HQ; [done|]. cbn in HQ. unfold fewer in *; lia.
Qed.

Lemma index_elem {A} (l : list A) i x : index l i = Ret x → x ∈ l.
Proof.
  unfold index; destruct (i <? 0)%Z; [done|]. destruct (l !! Z.to_nat i) eqn:E; cbn; [|done].
  intros [= <-]. by eapply list_elem_of_lookup_2.
Qed.

Lemma find_Environment_has st name e : find_Environment st name = Ret (inl e) → has_environment st name.
Proof.
  unfold find_Environment. destruct (conf st) as [c|] eqn:Hc; cbn; [|done].
  destruct (list_find _ _) as [[i e']|] eqn:Hf; cbn; [|done]. intros _. apply list_find_Some in Hf as (Hi & Hn & _).
  exists c; split; [done|]. rewrite <-Hn. apply list_elem_of_fmap_2. by eapply list_elem_of_lookup_2.
Qed.

Lemma list_environments_has st confs es e :
  list_environments NewVersion LessThan fmt_float st confs = Ret es → e ∈ es → has_environment st (e_Name e).
Proof.
  revert es; induction confs as [|cf confs IH]; intros es; cbn; [by intros [= <-] ?%elem_of_nil|].
  destruct (environmentByName _ _ _ st (env_Name cf)) as [r|] eqn:Hr; cbn; [|done].
  destruct (list_environments _ _ _ st confs) as [es'|]; cbn; [|done]. intros [= <-].
  destruct r as [e'|]; [|by apply IH]. intros [->|Hin]%elem_of_cons; [|by eapply IH].
  apply environmentByName_inv in Hr as (_ & Hf & _). unfold e_Name.
  rewrite (find_Environment_name _ _ _ Hf). by eapply find_Environment_has.
Qed.

Lemma GetEnvironment_holds s :
  is_Some (conf (config s)) →
  holds (GetEnvironment NewVersion LessThan fmt_float Encode io_error w) s
    (λ e s', has_environment (config s') (e_Name e)).
Proof.
  intros Hsome; unfold GetEnvironment. eapply (holds_bind _ _ _ (λ _ s', s' = s)); [by apply holds_look|].
  intros [|p l] s1 _ ->; [by apply InitEnvironment_holds|].
  apply holds_repeat; intros s2 He2.
  eapply (holds_bind _ _ _ (λ es s', s' = s2 ∧ ∀ e, e ∈ es → has_environment (config s2) (e_Name e))).
  { apply holds_look; intros es Hes; split; [done|]. intros e; by eapply list_environments_has. }
  intros es s3 _ [-> Hes]. eapply (holds_bind _ _ _ (λ _ s', s' = s2)); [by apply holds_look|].
  intros singles s4 _ ->. next_step holds_select. intros pos s5 He5 Hf5. case_decide.
  - eapply holds_bind; [apply InitEnvironment_holds; eapply evolves_Some; [|exact Hsome]; by etrans|].
    intros e s6 _ He; by apply holds_ret.
  - eapply (holds_bind _ _ _ (λ _ s', s' = s5)); [by apply holds_look|]. intros single s6 _ ->.
    destruct single; [by apply holds_ret|].
    eapply (holds_bind _ _ _ (λ e s', s' = s5 ∧ e ∈ es)); [by apply holds_look; intros ? ?%index_elem|].
    intros e s7 _ [-> Hin]. apply holds_ret. eapply evolves_environment; [exact He5|auto].
Qed.

Lemma add_hub_holds e zones s :
  has_environment (config s) (e_Name e) →
  holds (add_hub Encode io_error w e zones) s (λ _ _, True).
Proof.
  intros He; unfold add_hub. eapply (holds_bind _ _ _ (λ _ s', s' = s)); [by apply holds_look|].
  intros cs s1 _ ->. destruct (existsb _ cs); [by apply holds_ret|].
  eapply holds_mono; [eapply holds_change, good_AppendCluster; done|done].
Qed.

(** The cluster the questions describe. *)
Definition described (e : EnvT) (c : Cluster) : Prop :=
  cl_Environment c = e_Name e ∧ valid_name RegexpClusterName (cl_Name c).

Lemma cluster_Init_holds e s :
  has_environment (config s) (e_Name e) →
  holds (cluster_Init Encode io_error w e) s (λ c s', described e c).
Proof.
  intros Henv; unfold cluster_Init. eapply (holds_bind _ _ _ (λ _ s', s' = s)); [by apply holds_look|].
  intros type s1 _ ->. case_decide; [apply holds_fail|]. eapply (holds_bind _ _ _ (λ _ _, True)).
  { case_decide; [|by apply holds_ret]. unfold askClusterType. next_step holds_select. intros pos s1 _ _.
    repeat case_decide; [by apply holds_ret..|apply holds_fail]. }
  intros ctype s1 He1 _. eapply holds_bind.
  { apply holds_try. unfold AskInstancePoolZones. eapply (holds_bind _ _ _ (λ _ _, True)); [by apply holds_clock|].
    intros t s2 _ _. destruct (Amazon.getAvailablityZoneByRegion _) as [[|z zs]|err];
      [apply holds_fail|apply holds_multiple|apply holds_fail]. }
  intros r s2 He2 _. eapply (holds_bind _ _ _ (λ c _, described e c)).
  { case_decide; [|by apply holds_ret]. next_step ask_name_holds. intros name s3 He3 [Hv _].
    eapply holds_bind; [apply add_hub_holds|].
    - eapply evolves_environment; [|exact Henv]. evolve.
    - intros _ s4 _ _. by apply holds_ret. }
  intros c s3 _ Hd. destruct r; [by apply holds_ret|apply holds_fail].
Qed.

Lemma newCluster_holds e cf s :
  holds (newCluster NewVersion LessThan fmt_float e cf) s (λ c s', c_conf c = cf).
Proof.
  unfold newCluster.
  eapply (holds_bind _ _ _ (λ r s', ∀ c, r = (Some c, None) → c_conf c = cf)).
  - apply holds_look; intros r Hr c ->. destruct (view (config s) e) as [v|]; cbn in Hr; [|done].
    by apply NewFromConfig_ok in Hr as (_ & ? & _).
  - intros [[c|] [err|]] s1 _ Hc; [apply holds_fail|apply holds_ret; auto|apply holds_fail|by apply holds_look].
Qed.

Lemma Validate_conf (E : Env) c c' err :
  Cluster.Validate (H0 := E) NewVersion LessThan fmt_float c = Ret (c', err) → c_conf c' = c_conf c.
Proof.
  unfold Cluster.Validate, validateNetwork. destruct (cl_Network (c_conf c)) as [n|]; cbn; [|done].
  destruct (ParseCIDR (net_CIDR n)); cbn; destruct (cl_Kubernetes (c_conf c)) as [k|]; cbn;
    try (by intros [= <- _]); destruct (ck_APIServer k) as [api|]; cbn; try (by intros [= <- _]);
    destruct (validateAPIServer _ _ k api); cbn; by try intros [= <- _].
Qed.

(** The new cluster is stored, as it is described. *)
Lemma append_described e cf c s :
  described e cf → c_conf c = cf → has_environment (config s) (e_Name e) →
  holds (append_cluster Encode io_error w cf) s (λ _ s', has_cluster Encode (config s') (e_Name e) (c_Name c)).
Proof.
  intros [He Hv] Hc Henv. unfold c_Name. rewrite Hc, <-He in *.
  by apply (holds_change _ _ (λ st, has_cluster Encode st (cl_Environment cf) (cl_Name cf))), good_AppendCluster.
Qed.

Lemma InitCluster_holds s :
  is_Some (conf (config s)) →
  holds (InitCluster NewVersion LessThan fmt_float Encode io_error w) s
    (λ c s', ∃ e, has_cluster Encode (config s') (e_Name e) (c_Name c)).
Proof.
  intros Hsome; unfold InitCluster. eapply holds_bind; [by apply holds_wrap, GetEnvironment_holds|].
  intros e s1 He1 Henv. set (e' := {| e with e_provider := _ |}).
  apply holds_repeat; intros s2 He2.
  assert (Henv2 : has_environment (config s2) (e_Name e')) by (by eapply evolves_environment).
  eapply holds_bind; [by apply cluster_Init_holds|]. intros cf s3 He3 Hd.
  assert (Hd' : described e' (without_monitoring cf)) by done.
  next_step newCluster_holds. intros c s4 He4 Hc. next_step holds_yes_no. intros persist s5 He5 Hf5.
  destruct persist; cbn [negb]; [|apply holds_ret; eapply fewer_trans; [|exact Hf5]; evolve].
  eapply (holds_mono _ _ (λ r s', match r with
    | None => length (responses s') < length (responses s5)
    | Some c => ∃ e, has_cluster Encode (config s') (e_Name e) (c_Name c) end)).
  2:{ intros [x|] s6 He6 HQ; [done|]. assert (Hle : evolves s2 s5) by evolve. destruct Hle. lia. }
  apply (holds_iter _ (λ c s', c_conf c = without_monitoring cf ∧ evolves s5 s')); [|by split].
  clear c Hc. intros c s6 [Hc He6].
  eapply (holds_bind _ _ _ (λ r s', s' = s6 ∧ c_conf r.1 = without_monitoring cf)).
  { apply holds_look; intros [c' err] Hr; split; [done|]. destruct (view (config s6) e') as [v|]; cbn in Hr; [|done].
    rewrite <-Hc. by eapply Validate_conf. }
  intros [c' err] s7 _ [-> Hc']; cbn in Hc'.
  assert (Hdone : ∀ s8, evolves s6 s8 →
    holds (append_cluster Encode io_error w (without_monitoring cf) ≫= λ _, mret (inr (Some c'))) s8
    (λ (r : ClusterT + option ClusterT) s9, match r with
       | inr (Some c) => ∃ e, has_cluster Encode (config s9) (e_Name e) (c_Name c) | _ => False end)).
  { intros s8 He8. eapply holds_bind; [apply (append_described e' _ c'); [done..|]|].
    - eapply evolves_environment; [|exact Henv2]. evolve.
    - intros [] s9 _ Hin. apply holds_ret. by exists e'. }
  destruct err as [err|].
  - next_step holds_select. intros choice s8 He8 Hf8. repeat case_decide.
    + apply holds_ret. split_and!; [done|done|evolve].
    + apply holds_ret. by eapply fewer_trans.
    + eapply holds_mono; [by apply Hdone|]. by intros [x|[x|]].
  - eapply holds_mono; [apply Hdone; reflexivity|]. by intros [x|[x|]].
Qed.

End Facts.

(** Names without a dash. *)
Lemma plus_all p s : Matches (plus (Char p)) s → Forall (λ c, p c = true) s.
Proof.
  unfold plus. rewrite Matches_Cat. intros (s1 & s2 & -> & H1 & H2). apply Forall_app; split.
  - apply Matches_Char in H1 as (c & -> & Hc). by constructor.
  - remember (Star (Char p)) as r eqn:Er. induction H2 as [| | | | | |r0 t1 t2 Ht1 _ _ IH]; try done.
    injection Er as ->. apply Forall_app; split; [|by apply IH].
    apply Matches_Char in Ht1 as (c & -> & Hc). by constructor.
Qed.

Lemma valid_name_no_dash name : valid_name (plus (Char lower_or_digit)) name → has_byte "-" name = false.
Proof.
  intros Hv%matches_correct%plus_all. unfold has_byte. induction Hv as [|c l Hc _ IH]; [done|].
  cbn [existsb]. rewrite IH, orb_false_r. apply Ascii.eqb_neq. by intros <-.
Qed.

(** ** Properties *)

(** C8: Adding a cluster keeps the configuration consistent, however the
    dialogue goes: it ends (every question is answered, or fails at the end of
    the input); when it succeeds or fails, names are unique and well-formed,
    every cluster belongs to an environment, and nothing the configuration had
    before is changed or removed.  When it succeeds the new cluster is in the
    configuration, in memory and in the file, and the name made of its
    environment and its own name is one that [CurrentCluster] can take apart
    again. *)
Theorem InitCluster_correct `{MapRange} {V} (NewVersion : string → V + string) LessThan fmt_float
    {bytes} (Encode : Config → bytes + error) io_error w s :
  ok (config s) →
  match InitCluster NewVersion LessThan fmt_float Encode io_error w s with
  | Done c s' =>
      ok (config s') ∧ grows (config s) (config s') ∧
      ∃ environment, has_cluster Encode (config s') environment (c_Name c) ∧
        Split "-" (environment +:+ "-" +:+ c_Name c) = [environment; c_Name c]
  | Failed _ s' => ok (config s') ∧ grows (config s) (config s')
  | Panicked => True
  | OutOfFuel => False
  end.
Proof.
  intros Hok. assert (Hsome : is_Some (conf (config s))) by (destruct Hok as (c & Hc & _); by eexists).
  pose proof (InitCluster_holds NewVersion LessThan fmt_float Encode io_error w s Hsome) as Hh.
  unfold holds in Hh. destruct (InitCluster _ _ _ _ _ _ s) as [c s'|err s'| |]; [|by destruct Hh as (_ & ? & ?); auto|done|done].
  destruct Hh as [(_ & Hg & Ho) (e & Hcl)]. split_and!; [by apply Ho|done|]. exists (e_Name e); split; [done|].
  destruct Hcl as (_ & (c0 & Hc0 & Hin) & (c1 & Hc1 & Hin1)). destruct (Ho Hok) as (c2 & Hc2 & Hwf).
  rewrite Hc0 in Hc1, Hc2; injection Hc1 as <-; injection Hc2 as <-.
  destruct Hwf as [_ Hes Hcs _]. rewrite Forall_forall in Hes, Hcs.
  change (?n +:+ "-" +:+ ?m) with (n +:+ String "-" m).
  rewrite Split_app by (by apply valid_name_no_dash, Hes). rewrite Split_no_sep; [done|].
  apply valid_name_no_dash, Hcs. apply list_elem_of_fmap in Hin1 as (cl & [= _ ->] & Hcl).
  by apply list_elem_of_fmap_2.
Qed.

(** The same for an environment and a provider. *)
Theorem InitEnvironment_correct `{MapRange} {V} (NewVersion : string → V + string) LessThan fmt_float
    {bytes} (Encode : Config → bytes + error) io_error w s :
  ok (config s) →
  match InitEnvironment NewVersion LessThan fmt_float Encode io_error w s with
  | Done e s' => ok (config s') ∧ grows (config s) (config s') ∧ has_environment (config s') (e_Name e)
  | Failed _ s' => ok (config s') ∧ grows (config s) (config s')
  | Panicked => True
  | OutOfFuel => False
  end.
Proof.
  intros Hok. assert (Hsome : is_Some (conf (config s))) by (destruct Hok as (c & Hc & _); by eexists).
  pose proof (InitEnvironment_holds NewVersion LessThan fmt_float Encode io_error w s Hsome) as Hh.
  unfold holds in Hh.
  destruct (InitEnvironment _ _ _ _ _ _ s) as [e s'|err s'| |]; [|by destruct Hh as (_ & ? & ?); auto|done|done].
  destruct Hh as [(_ & Hg & Ho) He]; auto.
Qed.

(** ** Examples *)

Definition example_world : World :=
  {| verify := λ _ p, (p, None); ssh := λ _ _, None; regions := λ _, inl ["eu-west-1"];
     zones := λ _, inl ["eu-west-1b"; "eu-west-1a"]; email := λ _, true; now := 1 |}.

Definition session (l : list string) (c : Config) : Session Config :=
  {| responses := map inl l; config := {| conf := Some c; file := None; ops := 0 |} |}.

Abbreviation example_InitCluster := (InitCluster (H := range_list) (V := string) inl String.ltb (λ _, "")
  inl (λ _, None) example_world).

(** A provider, an environment and a multi cluster, from nothing: the names,
    the cloud, profile, prefix and zone of the provider, project, contact and
    region of the environment, the kind of cluster and its zones. *)
Definition full_dialogue : list string :=
  ["aws"; ""; ""; ""; ""; "example.com"; ""; "dev"; ""; ""; "1"; "";
   "2"; ""; "prod"; ""].

Definition names (st : State Config) : list string * list string * list string :=
  match conf st with
  | Some c => (map pr_Name (cf_Providers c), map env_Name (cf_Environments c), map cl_Name (cf_Clusters c))
  | None => ([], [], [])
  end.

Definition outcome {A} (o : Out Config A) : option error * list string * list string * list string :=
  match o with
  | Done _ s => (None, (names (config s)).1.1, (names (config s)).1.2, (names (config s)).2)
  | Failed e s => (Some e, (names (config s)).1.1, (names (config s)).1.2, (names (config s)).2)
  | Panicked => (Some (Errorf "panic"), [], [], [])
  | OutOfFuel => (Some (Errorf "out of fuel"), [], [], [])
  end.

Example full_dialogue_ok :
  outcome (example_InitCluster (session full_dialogue newConfig)) = (None, ["aws"], ["dev"], ["hub"; "prod"]).
Proof. vm_compute. reflexivity. Qed.

Lemma InitCluster_correct_witness :
  ∃ c s', example_InitCluster (session full_dialogue newConfig) = Done c s' ∧ ok (config s') ∧ c_Name c = "prod".
Proof.
  assert (Hok : ok (config (session full_dialogue newConfig))).
  { exists newConfig; split; [reflexivity|]. split; [split|..]; constructor. }
  pose proof (InitCluster_correct (H := range_list) (V := string) inl String.ltb (λ _, "") inl (λ _, None)
    example_world _ Hok) as Hc.
  assert (Hd : match example_InitCluster (session full_dialogue newConfig) with
               | Done c _ => c_Name c | _ => "" end = "prod") by (vm_compute; reflexivity).
  destruct (example_InitCluster (session full_dialogue newConfig)) as [c s'|e s'| |]; [|discriminate Hd..].
  exists c, s'. split; [reflexivity|]. split; [apply Hc|exact Hd].
Defined.

Lemma InitEnvironment_correct_witness :
  ∃ e s', InitEnvironment (H := range_list) (V := string) inl String.ltb (λ _, "") inl (λ _, None) example_world
            (session full_dialogue newConfig) = Done e s' ∧ ok (config s') ∧ e_Name e = "dev".
Proof.
  assert (Hok : ok (config (session full_dialogue newConfig))).
  { exists newConfig; split; [reflexivity|]. split; [split|..]; constructor. }
  pose proof (InitEnvironment_correct (H := range_list) (V := string) inl String.ltb (λ _, "") inl (λ _, None)
    example_world _ Hok) as Hc.
  assert (Hd : match InitEnvironment (H := range_list) (V := string) inl String.ltb (λ _, "") inl (λ _, None)
                 example_world (session full_dialogue newConfig) with
               | Done e _ => e_Name e | _ => "" end = "dev") by (vm_compute; reflexivity).
  destruct (InitEnvironment _ _ _ _ _ _ (session full_dialogue newConfig)) as [c s'|e s'| |]; [|discriminate Hd..].
  exists c, s'. split; [reflexivity|]. split; [apply Hc|exact Hd].
Defined.

(** ** What goes wrong *)

(** The response 0 to the question what to do about a failed validation
    stores the object, exactly like the response 2, to ignore the error: 0
    passes the check of the range and becomes position -1, which is neither to
    retry nor to start over. *)
Theorem zero_ignores_validation {X A bytes} check (append : X → D bytes unit) (result : X → A) x x' e rs st :
  check (S (length rs)) x = (x', Some e) →
  let choices := ["Retry validation"; "Ignore validation error"; "Start over again with provider creation"] in
  validation_loop choices check append result x {| responses := inl "0" :: rs; config := st |} =
  validation_loop choices check append result x {| responses := inl "2" :: rs; config := st |}.
Proof.
  intros Hc choices. unfold validation_loop, iter. cbn [responses length rounds].
  unfold mbind, D_bind; cbn [clock responses length]. rewrite Hc.
  assert (Hsel : ∀ r n, Atoi r = Some n → r ≠ "" → (0 ≤ n ≤ 3)%Z → ∀ st : State bytes, select what_now choices 0
    {| responses := inl r :: rs; config := st |} = Done (n - 1)%Z {| responses := rs; config := st |}).
  { intros r n Hn Hne Hr st0. unfold select, ask, askSelection; cbn [responses].
    rewrite decide_False, Hn by done. unfold choices; cbn [Choices length].
    rewrite (proj2 (Z.ltb_ge n 0)), (proj2 (Z.ltb_ge (Z.of_nat 3) n)) by lia. done. }
  by rewrite (Hsel "0" 0%Z), (Hsel "2" 2%Z).
Qed.

(** The response 0 to the question for a provider makes the program panic,
    since it indexes the list of providers with -1. *)
Theorem GetProvider_zero {bytes} (Encode : Config → bytes + error) io_error w st p l rs :
  Providers st = p :: l →
  GetProvider Encode io_error w {| responses := inl "0" :: rs; config := st |} = Panicked.
Proof.
  intros Hp. unfold GetProvider, mbind, D_bind, look; cbn [config mret GoM_ret]. rewrite Hp; cbn [config].
  rewrite Hp. destruct (list_providers st (p :: l)) as [ps|]; [|done].
  unfold select, ask, askSelection; cbn [responses]. rewrite decide_False by done.
  change (Atoi "0") with (Some 0%Z); cbn [orb].
  rewrite (proj2 (Z.ltb_ge (Z.of_nat _) 0)) by lia; cbn. rewrite decide_False by lia. done.
Qed.

(** A cluster that is not added in the end leaves a hub behind: the hub of
    a new multi cluster environment is stored before the cluster is confirmed,
    so that it stays when the cluster is declined, and when the name asked for
    is that of the hub, which the question warns about and accepts. *)
Theorem InitCluster_leaves_hub :
  outcome (example_InitCluster (session (take 15 full_dialogue ++ ["n"]) newConfig)) =
    (Some EOF, ["aws"], ["dev"], ["hub"]) ∧
  outcome (example_InitCluster (session (take 14 full_dialogue ++ ["hub"; "y"]) newConfig)) =
    (Some (failed_to_add "cluster" (not_unique "hub")), ["aws"], ["dev"], ["hub"]).
Proof. split; vm_compute; reflexivity. Qed.

Lemma zero_ignores_validation_witness :
  ∃ s : Session Config, validation_loop (bytes := Config)
    ["Retry validation"; "Ignore validation error"; "Start over again with provider creation"]
    (λ _ (p : Provider), (p, Some (Errorf "no zone")))
    (λ p, change (λ st, AppendProvider inl (λ _, None) 1 st p)) new_amazon (NewAmazonProfileProvider "aws" "dev")
    {| responses := [inl "0"]; config := {| conf := Some newConfig; file := None; ops := 0 |} |} =
    Done (Some (new_amazon (NewAmazonProfileProvider "aws" "dev"))) s.
Proof.
  eexists. rewrite (zero_ignores_validation _ _ _ _ (NewAmazonProfileProvider "aws" "dev") (Errorf "no zone"));
    [vm_compute; reflexivity|reflexivity].
Defined.

Lemma GetProvider_zero_witness :
  GetProvider inl (λ _, None) example_world
    (session ["0"] {| newConfig with cf_Providers := [NewAmazonProfileProvider "aws" "dev"] |}) = Panicked.
Proof. eapply GetProvider_zero. reflexivity. Defined.
