(* ===== verification/Images.v ===== *)
(** * Images: machine images

    [src/pkg/packer/packer.go] (listing and choosing images, building them),
    the environment [src/pkg/packer/image.go] sets up for a build,
    [src/pkg/tarmak/provider/amazon/image.go] (images as EC2 describes them)
    and [ImagesBuild] of [src/pkg/tarmak/cmd.go] (which images to build).
    What EC2 answers, the parser of times and the builds are arguments; tags
    have a key and a value. *)

From Stdlib Require Import Floats.SpecFloat.
From S2P Require Import Prelude Types Net Utils Role Provider InstancePool Config Cluster ClusterSpec.

(** ** Images of EC2 *)

Record Mapping := { DeviceName : option string; Ebs_Encrypted : option (option bool) }.

Record AMI := {
  Tags : list (string * string);
  CreationDate : string;
  ImageId : string;
  RootDeviceName : option string;
  BlockDeviceMappings : list Mapping;
}.

Record Image := {
  im_meta : ObjectMeta;
  im_BaseImage : string;
  im_Location : string;
  im_Encrypted : bool;
}.

Definition im_Name (i : Image) : string := Name (im_meta i).
Definition im_created (i : Image) : Z := CreationTimestamp (im_meta i).

Section Amazon.
(** [time.Parse] with the format of Amazon. *)
Context (parse_time : string → Z + error) (region : string).

(** The last tag with the name of the base image. *)
Definition base_image (tags : list (string * string)) : string :=
  foldl (λ b '(k, v), if decide (k = ImageTagBaseImageName) then v else b) "" tags.

(** The loop over the devices: the first mapping of the root device whose
    encryption is known. *)
Definition root_encrypted (root : string) (mappings : list Mapping) : option bool :=
  head (omap (λ d, if decide (DeviceName d = Some root) then Ebs_Encrypted d ≫= id else None) mappings).

(** [setImageTags]; [None] is the nil image of an AMI that is skipped. *)
Definition setImageTags (ami : AMI) : option Image + error :=
  match parse_time (CreationDate ami) with
  | inr err => inr (Errorf ("error parsing time stamp '" +:+ error_string err +:+ "'"))
  | inl t =>
      inl (root ← RootDeviceName ami;
           encrypted ← root_encrypted root (BlockDeviceMappings ami);
           Some {| im_meta := {| Name := ImageId ami; CreationTimestamp := t;
                                 Annotations := foldl (λ m '(k, v), <[k := v]> m) ∅ (Tags ami) |};
                   im_BaseImage := base_image (Tags ami); im_Location := region; im_Encrypted := encrypted |})
  end.

(** The loop of [QueryImages]. *)
Fixpoint collect_images (amis : list AMI) : list Image + error :=
  match amis with
  | [] => inl []
  | ami :: amis' =>
      match setImageTags ami with
      | inr err => inr err
      | inl image =>
          match collect_images amis' with
          | inr err => inr err
          | inl images => inl (option_list image ++ images)
          end
      end
  end.

Definition QueryImages (describe : list AMI + error) : list Image + error :=
  match describe with inr err => inr err | inl amis => collect_images amis end.

(** [DefaultImage]: the image it then changes is nil if the AMI is skipped. *)
Definition DefaultImage (version : string) (describe : list AMI + error) : GoM (Image + error) :=
  match describe with
  | inr err => mret (inr err)
  | inl [] => mret (inr (Errorf ("failed to find pre-made AMI image with name: Tarmak " +:+ version +:+ "*")))
  | inl (ami :: _) =>
      match setImageTags ami with
      | inr err => mret (inr err)
      | inl image =>
          i ← deref image;
          mret (inl (if decide (im_BaseImage i = "") then {| i with im_BaseImage := ImageBaseDefault |} else i))
      end
  end.

End Amazon.

(** ** Choosing images *)

(** The loop of [IDs] over the images: the times and the IDs by base image. *)
Definition choose_step (encrypted : bool) (acc : gmap string Z * gmap string string) (i : Image)
    : gmap string Z * gmap string string :=
  let '(times, ids) := acc in
  if negb (Bool.eqb (im_Encrypted i) encrypted) then acc
  else match times !! im_BaseImage i with
       | Some t => if (t <? im_created i)%Z
                   then (<[im_BaseImage i := im_created i]> times, <[im_BaseImage i := im_Name i]> ids)
                   else acc
       | None => (<[im_BaseImage i := im_created i]> times, <[im_BaseImage i := im_Name i]> ids)
       end.

Definition choose (encrypted : bool) (images : list Image) : gmap string Z * gmap string string :=
  foldl (choose_step encrypted) (∅, ∅) images.

(** [IDs]; [images] is [List()] and [default] is [DefaultImage]. *)
Definition IDs (images : list Image + error) (default : GoM (Image + error)) (encrypted : bool)
    : GoM (gmap string string + error) :=
  match images with
  | inr err => mret (inr err)
  | inl images =>
      let ids := (choose encrypted images).2 in
      if decide (ids = ∅) then
        if negb encrypted then
          r ← default;
          mret match r with
               | inr err => inr err
               | inl i => inl (<[im_BaseImage i := im_Name i]> ids)
               end
        else mret (inl ids)
      else mret (inl ids)
  end.

(** ** Building images *)

(** [Build]: one goroutine per image.  Each takes the lock for the whole of its
    build, so the builds run one after the other, in the order [order] in
    which the goroutines get it; [ctx] is the context after a build. *)
Definition build_result (build : string → string + error) (ctx : string → option error)
    (result : option error) (name : string) : option error :=
  match build name with
  | inr err => Append result (Some err)
  | inl _ => match ctx name with Some err => Append result (Some err) | None => result end
  end.

Definition Build (puppet : option error) (build : string → string + error) (ctx : string → option error)
    (order : list string) : option error :=
  match puppet with
  | Some err => Some err
  | None => ErrorOrNil (foldl (build_result build ctx) None order)
  end.

(** The variables [image.Build] sets from a line of the environment. *)
Definition env_var (e : string) : (string * string) + error :=
  match Split "=" e with
  | k :: v :: vs => inl (k, Join (v :: vs) "")
  | kv => inr (Errorf ("malformed environment variable: [" +:+ Join kv " " +:+ "]"))
  end.

(** [ImagesBuild]: the images it tells Packer to build, [None] for nothing.
    [answer] is the answer to the question whether to build again. *)
Definition ImagesBuild `{MapRange} (c : ClusterT) (args : list string) (RebuildExisting : bool)
    (images : list Image + error) (answer : bool + error) : option (list string) + error :=
  let requiredImages := Images c in
  let args := RemoveDuplicateStrings args in
  if RebuildExisting then inl (Some (RemoveDuplicateStrings (requiredImages ++ args)))
  else match images with
       | inr err => inr err
       | inl images =>
           let currentImages :=
             map im_BaseImage (filter (λ i, AmazonEBSEncrypted c = im_Encrypted i) images) in
           let missingImages := filter (λ i, SliceContains currentImages i = false) requiredImages in
           match args with
           | [] => match missingImages with [] => inl None | _ => inl (Some missingImages) end
           | _ =>
               match filter (λ i, SliceContains currentImages i = true) args with
               | [] => inl (Some args)
               | _ => match answer with
                      | inr err => inr err
                      | inl b => if b : bool then inl (Some args) else inl None
                      end
               end
           end
       end.

(** ** Facts *)

Definition fits (encrypted : bool) (base : string) (i : Image) : Prop :=
  im_Encrypted i = encrypted ∧ im_BaseImage i = base.

(** The newest image of a base image, the first one of equal age. *)
Definition newest (encrypted : bool) (base : string) (images : list Image) (i : Image) : Prop :=
  ∃ pre post, images = pre ++ i :: post ∧ fits encrypted base i ∧
    Forall (λ j, fits encrypted base j → (im_created j < im_created i)%Z) pre ∧
    Forall (λ j, fits encrypted base j → (im_created j ≤ im_created i)%Z) post.

#[global] Instance fits_dec encrypted base i : Decision (fits encrypted base i).
Proof. unfold fits; apply _. Defined.

Lemma newest_snoc encrypted base images i x :
  newest encrypted base images i → (fits encrypted base x → (im_created x ≤ im_created i)%Z) →
  newest encrypted base (images ++ [x]) i.
Proof.
  intros (pre & post & -> & Hf & Hpre & Hpost) Hx. exists pre, (post ++ [x]).
  split_and!; [by rewrite <-app_assoc|done|done|]. apply Forall_app; auto.
Qed.

Lemma newest_le encrypted base images i j :
  newest encrypted base images i → j ∈ images → fits encrypted base j → (im_created j ≤ im_created i)%Z.
Proof.
  intros (pre & post & -> & Hf & Hpre & Hpost) Hj Hfj. rewrite Forall_forall in Hpre, Hpost.
  apply elem_of_app in Hj as [Hj|[->|Hj]%elem_of_cons]; [specialize (Hpre j Hj Hfj); lia|lia|auto].
Qed.

Lemma newest_last encrypted base images x :
  fits encrypted base x → (∀ j, j ∈ images → fits encrypted base j → (im_created j < im_created x)%Z) →
  newest encrypted base (images ++ [x]) x.
Proof. intros Hx Hall. exists images, []. split_and!; [done|done|by apply Forall_forall|constructor]. Qed.

(** What the loop knows about a base image. *)
Lemma choose_spec encrypted images base :
  let '(times, ids) := choose encrypted images in
  (∃ i, newest encrypted base images i ∧ times !! base = Some (im_created i) ∧ ids !! base = Some (im_Name i)) ∨
  ((∀ i, i ∈ images → ¬ fits encrypted base i) ∧ times !! base = None ∧ ids !! base = None).
Proof.
  induction images as [|x images IH] using rev_ind; [right; split_and!; [by intros ? ?%elem_of_nil|done..]|].
  unfold choose in *; rewrite foldl_snoc. destruct (foldl _ _ images) as [times ids]. unfold choose_step.
  destruct (decide (fits encrypted base x)) as [[He Hb]|Hx].
  - rewrite He, Bool.eqb_reflx, Hb; cbn [negb].
    assert (Hnew : (∀ j, j ∈ images → fits encrypted base j → (im_created j < im_created x)%Z) →
      ∃ i, newest encrypted base (images ++ [x]) i ∧ <[base := im_created x]> times !! base = Some (im_created i) ∧
           <[base := im_Name x]> ids !! base = Some (im_Name i)).
    { intros Hj; exists x; rewrite !lookup_insert_eq; split_and!; [by apply newest_last|done..]. }
    destruct IH as [(i & Hi & Ht & Hid)|(Hno & Ht & Hid)]; rewrite Ht; [|left; apply Hnew; naive_solver].
    destruct (im_created i <? im_created x)%Z eqn:E.
    + left; apply Hnew. intros j Hj Hfj. pose proof (newest_le _ _ _ _ _ Hi Hj Hfj). lia.
    + left; exists i; split_and!; [apply newest_snoc; [done|lia]|done..].
  - assert (Hsame : ∀ t n, (∃ i, newest encrypted base images i ∧ t = Some (im_created i) ∧ n = Some (im_Name i)) ∨
        ((∀ i, i ∈ images → ¬ fits encrypted base i) ∧ t = None ∧ n = None) →
      (∃ i, newest encrypted base (images ++ [x]) i ∧ t = Some (im_created i) ∧ n = Some (im_Name i)) ∨
        ((∀ i, i ∈ images ++ [x] → ¬ fits encrypted base i) ∧ t = None ∧ n = None)).
    { intros t n [(i & Hi & Ht & Hn)|(Hno & Ht & Hn)]; [left; exists i; split_and!; [by apply newest_snoc|done..]|].
      right; split_and!; [|done..]. intros i [Hi|Hi%list_elem_of_singleton]%elem_of_app; subst; auto. }
    destruct (Bool.eqb (im_Encrypted x) encrypted) eqn:He; cbn [negb]; [|by apply Hsame].
    assert (Hne : im_BaseImage x ≠ base) by (apply eqb_prop in He; by intros ?; apply Hx).
    destruct (times !! im_BaseImage x); [destruct (_ <? _)%Z|]; [|by apply Hsame|];
      apply Hsame; by rewrite !lookup_insert_ne.
Qed.

Lemma choose_some encrypted images base id :
  (choose encrypted images).2 !! base = Some id →
  ∃ i, newest encrypted base images i ∧ im_Name i = id.
Proof.
  pose proof (choose_spec encrypted images base) as H. destruct (choose encrypted images) as [times ids]; cbn.
  intros Hid. destruct H as [(i & Hi & _ & Hn)|(_ & _ & Hn)]; [|by rewrite Hn in Hid].
  exists i; split; [done|]. rewrite Hn in Hid. by injection Hid.
Qed.

Lemma choose_is_Some encrypted images base :
  is_Some ((choose encrypted images).2 !! base) ↔ ∃ i, i ∈ images ∧ fits encrypted base i.
Proof.
  pose proof (choose_spec encrypted images base) as H. destruct (choose encrypted images) as [times ids]; cbn.
  destruct H as [(i & Hi & _ & Hn)|(Hno & _ & Hn)]; rewrite Hn.
  - split; [|by eexists]. intros _. destruct Hi as (pre & post & -> & Hf & _).
    exists i; split; [apply elem_of_app; right; left|done].
  - split; [by intros [? ?]|]. intros (i & Hi & Hf). by destruct (Hno i Hi).
Qed.

Lemma choose_empty encrypted images :
  (choose encrypted images).2 = ∅ ↔ ∀ i, i ∈ images → im_Encrypted i ≠ encrypted.
Proof.
  split.
  - intros He i Hi Henc. destruct (proj2 (choose_is_Some encrypted images (im_BaseImage i))) as [id Hid].
    { exists i; by split. }
    by rewrite He in Hid.
  - intros Hall. apply map_empty; intros base.
    destruct ((choose encrypted images).2 !! base) as [id|] eqn:E; [|done].
    destruct (proj1 (choose_is_Some encrypted images base)) as (i & Hi & Hf); [by eexists|].
    by destruct (Hall i Hi), Hf.
Qed.

(** ** Properties *)

(** C33: The images a cluster uses are the right ones: for each base image the
    ID of the newest image of the environment that is encrypted as the cluster
    wants it, whatever the order EC2 lists them in, and an ID for every base
    image that has such an image.  Only an unencrypted cluster with no image
    at all falls back to the default image. *)
Theorem IDs_correct images default encrypted m :
  IDs (inl images) default encrypted = Ret (inl m) →
  ((∃ i, i ∈ images ∧ im_Encrypted i = encrypted) →
   (∀ base id, m !! base = Some id → ∃ i, newest encrypted base images i ∧ im_Name i = id) ∧
   (∀ base, is_Some (m !! base) ↔ ∃ i, i ∈ images ∧ fits encrypted base i)) ∧
  ((∀ i, i ∈ images → im_Encrypted i ≠ encrypted) →
   if encrypted then m = ∅ else ∃ i, default = Ret (inl i) ∧ m = {[im_BaseImage i := im_Name i]}).
Proof.
  unfold IDs. case_decide as He.
  - rewrite He. pose proof (proj1 (choose_empty _ _) He) as Hno. intros Hm.
    split; [intros (i & Hi & Hf); by destruct (Hno i Hi)|]. intros _.
    destruct encrypted; cbn in Hm; [by injection Hm|].
    destruct default as [[i|err]|]; cbn in Hm; try done. injection Hm as <-. by exists i.
  - intros [= <-]; split; [|intros Hno; by destruct He; apply choose_empty]. intros _.
    split; [by apply choose_some|apply choose_is_Some].
Qed.

(** [ImagesBuild] asks before it replaces: unless told to rebuild, it never
    builds an image that exists with the right encryption, except when it was
    named on the command line and the question was answered with yes.  Without
    arguments it builds exactly the images of the cluster that are missing.
    No image is built twice. *)
Theorem ImagesBuild_correct `{MapRange} c args images answer l :
  ImagesBuild c args false (inl images) answer = inl (Some l) →
  let exists_ i := ∃ im, im ∈ images ∧ fits (AmazonEBSEncrypted c) i im in
  NoDup l ∧ (∀ i, i ∈ l → exists_ i → i ∈ args ∧ answer = inl true) ∧
  (args = [] → ∀ i, i ∈ l ↔ i ∈ map ip_Image (cl_InstancePools (c_conf c)) ∧ ¬ exists_ i).
Proof.
  unfold ImagesBuild. set (current := map im_BaseImage _).
  assert (Hcur : ∀ i, SliceContains current i = true ↔ ∃ im, im ∈ images ∧ fits (AmazonEBSEncrypted c) i im).
  { intros i. rewrite SliceContains_true. unfold current. rewrite list_elem_of_fmap.
    setoid_rewrite list_elem_of_filter. unfold fits. naive_solver. }
  assert (Hno : ∀ i, SliceContains current i = false ↔ ¬ ∃ im, im ∈ images ∧ fits (AmazonEBSEncrypted c) i im).
  { intros i. rewrite <-Hcur. by destruct (SliceContains current i). }
  destruct (RemoveDuplicateStrings args) as [|a args'] eqn:Ea.
  - assert (Hargs : args = []).
    { destruct args as [|x args]; [done|]. assert (Hx : x ∈ RemoveDuplicateStrings (x :: args)).
      { rewrite RemoveDuplicateStrings_firsts. apply elem_of_firsts. split; [left|set_solver]. }
      rewrite Ea in Hx. by apply elem_of_nil in Hx. }
    subst args. set (missing := filter _ (Images c)). intros Hl.
    assert (Hm : l = missing) by (destruct missing; [done|by injection Hl]). subst l.
    split_and!; [apply NoDup_filter, keys_NoDup| |].
    + intros i [Hi _]%list_elem_of_filter Hex. by apply Hno in Hi.
    + intros _ i. unfold missing. rewrite list_elem_of_filter, Hno. unfold Images. rewrite keys_keyset. tauto.
  - assert (Hin : ∀ i, i ∈ a :: args' ↔ i ∈ args).
    { intros i. rewrite <-Ea, RemoveDuplicateStrings_firsts, elem_of_firsts. set_solver. }
    assert (Hnd : NoDup (a :: args')) by (rewrite <-Ea, RemoveDuplicateStrings_firsts; apply NoDup_firsts).
    assert (Hargs : args ≠ []) by (intros ->; by apply (not_elem_of_nil a), Hin; left).
    destruct (filter _ (a :: args')) as [|b bs] eqn:Eb.
    + intros [= <-]. split_and!; [done| |done]. intros i Hi Hex.
      assert (Hb : i ∈ filter (λ i, SliceContains current i = true) (a :: args'))
        by (apply list_elem_of_filter; split; [by apply Hcur|done]).
      rewrite Eb in Hb. by apply elem_of_nil in Hb.
    + destruct answer as [[]|err]; [|done..]. intros [= <-]. split_and!; [done| |done].
      intros i Hi _. split; [by apply Hin|done].
Qed.

(** The pools of a cluster use the images of its configuration. *)
Lemma pools_images `{MapRange} `{Env} {V} (NewVersion : string → V + string) LessThan fmt_float cf c p :
  Cluster.NewFromConfig NewVersion LessThan fmt_float cf = Ret (Some c, None) → p ∈ c_instancePools c →
  c_conf c = cf ∧ p_Image p ∈ map ip_Image (cl_InstancePools cf).
Proof.
  intros (_ & Hc & _ & Hpools)%NewFromConfig_ok Hp. split; [done|].
  apply list_elem_of_lookup in Hp as [k Hk]. destruct (Forall2_lookup_r _ _ _ _ _ Hpools Hk) as (ip & Hip & Hn).
  apply NewFromConfig_inv in Hn as Hs. unfold p_Image. rewrite (ps_conf _ _ _ _ Hs).
  replace (ip_Image (default_counts ip)) with (ip_Image ip)
    by (unfold default_counts; repeat case_decide; done).
  apply list_elem_of_fmap_2. by eapply list_elem_of_lookup_2.
Qed.

Lemma ImagesBuild_nothing `{MapRange} c images answer i :
  ImagesBuild c [] false (inl images) answer = inl None →
  i ∈ map ip_Image (cl_InstancePools (c_conf c)) → ∃ im, im ∈ images ∧ fits (AmazonEBSEncrypted c) i im.
Proof.
  unfold ImagesBuild; cbn [RemoveDuplicateStrings RemoveDuplicates_loop]. set (current := map im_BaseImage _).
  destruct (filter _ (Images c)) as [|x l] eqn:E; [|done]. intros _ Hi.
  assert (Hreq : i ∈ Images c) by (by unfold Images; apply keys_keyset).
  rewrite filter_nil_iff, Forall_forall in E. specialize (E i Hreq).
  destruct (SliceContains current i) eqn:Ec; [|done]. apply SliceContains_true in Ec.
  unfold current in Ec. apply list_elem_of_fmap in Ec as (im & -> & [He Him]%list_elem_of_filter).
  exists im; split; [done|]. by split.
Qed.

(** When [ImagesBuild] finds that there is nothing to build, the cluster
    has its images: the verification of its instance pools, which asks for the
    IDs of the same images, succeeds. *)
Theorem all_built_verifies `{MapRange} `{Env} {V} (NewVersion : string → V + string) LessThan fmt_float
    cf c images answer default ids :
  Cluster.NewFromConfig NewVersion LessThan fmt_float cf = Ret (Some c, None) →
  c_imageIDs c = None → c_instancePools c ≠ [] → Forall (λ i, im_Name i ≠ "") images →
  ImagesBuild c [] false (inl images) answer = inl None →
  IDs (inl images) default (AmazonEBSEncrypted c) = Ret (ids (AmazonEBSEncrypted c)) →
  (VerifyInstancePools ids c).2 = None.
Proof.
  intros Hn Hcache Hpools Hnames Hbuild Hids.
  assert (Hhas : ∀ p, p ∈ c_instancePools c → ∃ im, im ∈ images ∧ fits (AmazonEBSEncrypted c) (p_Image p) im).
  { intros p Hp. destruct (pools_images _ _ _ _ _ _ Hn Hp) as [<- Hi]. by eapply ImagesBuild_nothing. }
  destruct (c_instancePools c) as [|p0 pools] eqn:Ep; [done|].
  destruct (Hhas p0 ltac:(by left)) as (im0 & Him0 & Hf0).
  assert (Hne : (choose (AmazonEBSEncrypted c) images).2 ≠ ∅).
  { rewrite choose_empty. intros Hno. by apply (Hno im0 Him0), Hf0. }
  unfold IDs in Hids. rewrite decide_False in Hids by done. injection Hids as Hids.
  destruct (VerifyInstancePools ids c) as [c' err] eqn:Hv. apply (VerifyInstancePools_spec ids c c' err Hv).
  exists (choose (AmazonEBSEncrypted c) images).2. unfold ImageIDs. rewrite Hcache, <-Hids; cbn [snd].
  split_and!; [done|done|]. rewrite Ep. intros p Hp.
  destruct (proj2 (choose_is_Some (AmazonEBSEncrypted c) images (p_Image p)) (Hhas p Hp)) as [id Hid].
  exists id; split; [done|]. apply choose_some in Hid as (i & (pre & post & -> & _) & <-).
  rewrite Forall_forall in Hnames. apply Hnames, elem_of_app. right; left.
Qed.

(** A failed build is never forgotten. *)
Lemma build_result_kept build ctx order es :
  es ≠ [] → ErrorOrNil (foldl (build_result build ctx) (Some (Multi es)) order) ≠ None.
Proof.
  revert es; induction order as [|x l IH]; intros es Hes; [by destruct es|]. cbn [foldl].
  unfold build_result at 2. destruct (build x); [destruct (ctx x)|]; apply IH; try done; by destruct es.
Qed.

(** Building images succeeds exactly when every build does and none was
    interrupted, in whichever order the goroutines run. *)
Theorem Build_correct build ctx names order :
  names ≡ₚ order → (∀ name e, build name = inr e ∨ ctx name = Some e → e ≠ Multi []) →
  Build None build ctx order = None ↔
  ∀ name, name ∈ names → (∃ id, build name = inl id) ∧ ctx name = None.
Proof.
  intros Hp Hproper. setoid_rewrite Hp. clear Hp. unfold Build.
  assert (Hfail : ∀ e l, e ≠ Multi [] → ErrorOrNil (foldl (build_result build ctx) (Append None (Some e)) l) ≠ None).
  { intros e l He. apply build_result_kept. by destruct e as [|[]]. }
  induction order as [|x l IH]; cbn [foldl]; [split; [by intros _ ? ?%elem_of_nil|done]|].
  unfold build_result at 2. destruct (build x) as [id|err] eqn:Eb; [destruct (ctx x) as [err|] eqn:Ec|].
  - split; [intros Hn; by destruct (Hfail err l (Hproper x err (or_intror Ec)))|].
    intros Hall; destruct (Hall x ltac:(by left)); congruence.
  - rewrite IH. split; [|intros Hall name Hn; apply Hall; by right].
    intros Hall name [->|Hn]%elem_of_cons; [eauto|auto].
  - split; [intros Hn; by destruct (Hfail err l (Hproper x err (or_introl Eb)))|].
    intros Hall; destruct (Hall x ltac:(by left)) as [[? ?] _]; congruence.
Qed.

(** *** What goes wrong *)

(** Every equals sign of a string removed. *)
Definition without_equals (s : string) : string := string_of (filter (λ c, c ≠ "="%char) (bytes_of s)).

Lemma Join_Split_nothing c s : Join (Split c s) "" = string_of (filter (λ d, d ≠ c) (bytes_of s)).
Proof.
  induction s as [|d s IH]; [done|]. cbn [Split]. change (bytes_of (String d s)) with (d :: bytes_of s).
  destruct (decide (d = c)) as [->|Hd].
  - rewrite filter_cons_False by (intros Hn; by apply Hn). rewrite Join_cons by apply Split_not_nil. by rewrite <-IH.
  - rewrite filter_cons_True by done. cbn [String.string_of_list_ascii]. rewrite <-IH.
    destruct (Split c s) as [|w ws] eqn:E; [by apply Split_not_nil in E|].
    destruct ws; [done|]. by rewrite (Join_cons (String d w)), (Join_cons w).
Qed.

(** A credential with an equals sign does not reach Packer as it is: the
    variable that is set for a line of the environment is its value with every
    equals sign removed. *)
Theorem env_var_loses k v :
  has_byte "=" k = false → env_var (k +:+ String "=" v) = inl (k, without_equals v).
Proof.
  intros Hk. unfold env_var, without_equals. rewrite Split_app by done. rewrite <-Join_Split_nothing.
  by destruct (Split "=" v) as [|w ws] eqn:E; [apply Split_not_nil in E|].
Qed.

(** A default image whose root device is not described makes the program
    panic: the image is nil and its base image is read. *)
Theorem DefaultImage_panics parse_time region version ami amis t :
  parse_time (CreationDate ami) = inl t → RootDeviceName ami = None →
  DefaultImage parse_time region version (inl (ami :: amis)) = Panic.
Proof. intros Ht Hr. unfold DefaultImage, setImageTags. by rewrite Ht, Hr. Qed.

(** ** Witnesses *)

Definition image_of (name base : string) (created : Z) (encrypted : bool) : Image :=
  {| im_meta := {| Name := name; CreationTimestamp := created; Annotations := ∅ |};
     im_BaseImage := base; im_Location := ""; im_Encrypted := encrypted |}.

Definition example_images : list Image :=
  [image_of "ami-1" ImageBaseDefault 1 false; image_of "ami-2" ImageBaseDefault 3 false;
   image_of "ami-3" ImageBaseDefault 5 true; image_of "ami-4" ImageBaseDefaultWorker 2 false;
   image_of "ami-5" ImageBaseDefault 3 false].

Lemma IDs_correct_witness :
  ∃ m, IDs (inl example_images) Panic false = Ret (inl m) ∧ m !! ImageBaseDefault = Some "ami-2" ∧
    ∃ i, newest false ImageBaseDefault example_images i ∧ im_Name i = "ami-2".
Proof.
  assert (Hm : match IDs (inl example_images) Panic false with
               | Ret (inl m) => m !! ImageBaseDefault | _ => None end = Some "ami-2") by (vm_compute; reflexivity).
  destruct (IDs (inl example_images) Panic false) as [[m|]|] eqn:E; try discriminate Hm.
  exists m; split; [reflexivity|]. split; [exact Hm|].
  apply (IDs_correct example_images Panic false m E); [|exact Hm].
  exists (image_of "ami-1" ImageBaseDefault 1 false). split; [left|reflexivity].
Defined.

Abbreviation example_new cf := (Cluster.NewFromConfig (H := range_list) (H0 := example_env 1) (V := string)
  inl String.ltb (λ _, "") cf).

Definition example_single : Cluster :=
  let c := NewClusterSingle 1 "dev" "cluster" in
  {| c with cl_InstancePools := map (λ p, {| p with ip_Subnets :=
     [{| sn_meta := ObjectMeta_zero; sn_Identifier := ""; sn_CIDR := ""; sn_Location := ""; sn_Zone := "a" |}] |})
     (cl_InstancePools c) |}.

Lemma ImagesBuild_correct_witness :
  ∃ l, ImagesBuild (H := range_list) (new_cluster example_single) [] false (inl (take 1 example_images)) (inl false)
       = inl (Some l) ∧ NoDup l ∧ l = [ImageBaseDefaultWorker].
Proof.
  eexists; split; [vm_compute; reflexivity|].
  split; [|reflexivity].
  apply (ImagesBuild_correct (H := range_list) (new_cluster example_single) [] (take 1 example_images) (inl false)).
  vm_compute; reflexivity.
Defined.

Lemma all_built_verifies_witness :
  ∃ c, example_new example_single = Ret (Some c, None) ∧
    (VerifyInstancePools (λ b, match IDs (inl example_images) Panic b with Ret r => r | Panic => inr (Errorf "") end)
       c).2 = None.
Proof.
  assert (Hok : match example_new example_single with Ret (Some c, None) => is_nil (c_imageIDs c) | _ => false end = true)
    by (vm_compute; reflexivity).
  destruct (example_new example_single) as [[[c|] [e|]]|] eqn:Hn; try discriminate Hok.
  exists c; split; [reflexivity|].
  assert (Hp : (length (c_instancePools c), AmazonEBSEncrypted c,
    match ImagesBuild (H := range_list) c [] false (inl example_images) (inl false) with inl None => true | _ => false end)
    = (5, false, true)).
  { transitivity (match example_new example_single with
      | Ret (Some c, None) => (length (c_instancePools c), AmazonEBSEncrypted c,
          match ImagesBuild (H := range_list) c [] false (inl example_images) (inl false) with
          | inl None => true | _ => false end)
      | _ => (0, true, false) end); [rewrite Hn; reflexivity|vm_compute; reflexivity]. }
  pose proof (f_equal snd Hp) as Hbuild; cbn [snd] in Hbuild. injection Hp as Hlen Henc _.
  apply (all_built_verifies (H := range_list) (H0 := example_env 1) (V := string) inl String.ltb (λ _, "")
    example_single c example_images (inl false) Panic); [exact Hn| | | | |].
  - destruct (c_imageIDs c); [discriminate Hok|reflexivity].
  - intros E; rewrite E in Hlen; discriminate Hlen.
  - repeat constructor; discriminate.
  - revert Hbuild; destruct (ImagesBuild _ _ _ _ _) as [[]|]; intros Hb; [discriminate Hb|reflexivity|discriminate Hb].
  - rewrite Henc; reflexivity.
Defined.

Lemma Build_correct_witness :
  Build None (λ n, inl ("ami-" +:+ n)) (λ _, None) ["b"; "a"] = None.
Proof.
  apply (Build_correct (λ n, inl ("ami-" +:+ n)) (λ _, None) ["a"; "b"] ["b"; "a"]).
  - apply perm_swap.
  - intros name e [H|H]; discriminate H.
  - intros name _; split; [eexists; reflexivity|reflexivity].
Defined.

Lemma env_var_loses_witness : env_var "AWS_SESSION_TOKEN=abc==" = inl ("AWS_SESSION_TOKEN", "abc").
Proof. exact (env_var_loses "AWS_SESSION_TOKEN" "abc==" eq_refl). Defined.

Lemma DefaultImage_panics_witness :
  DefaultImage (λ _, inl 1%Z) "eu-west-1" "0.6.0"
    (inl [{| Tags := []; CreationDate := ""; ImageId := "ami-1"; RootDeviceName := None; BlockDeviceMappings := [] |}])
  = Panic.
Proof. apply (DefaultImage_panics _ _ _ _ _ 1); reflexivity. Defined.
