(* ===== verification/ImageBuild.v ===== *)
(** * ImageBuild: building one machine image

    [image] of [src/pkg/packer/image.go].  [Build] first reads the template,
    sets the environment and asks Packer for the builds of the template: a
    program of calls ([prepare_build]).  Then it starts a goroutine per build,
    each with a further one that waits for the context to be canceled, and
    waits for the builds: the state [Builds] and its executable step [bstep],
    in which a list of events is one interleaving.

    [result], the pointer to the errors, is written by the main goroutine
    without the lock [mu], and by the others with it, so that
    [result = multierror.Append(result, err)] is two steps: the pointer and the
    list it points to are read, then they are written.  [amiIDs] is only used
    under the lock until all have ended.

    What Packer answers is part of the events: nothing is assumed about it, but
    that a run of a build ends.  A parsed template is a number. *)

From S2P Require Import Prelude Types Paths Images Calls.

(** ** Before the builds *)
Record image := { i_environment : string; i_imageName : string }.

Inductive icall : Type :=
| CDone
| CRootPath
| CParseFile (path : string)
| CEnvironment
| CWalk (path : string)
| CSetenv (key value : string)
| CNewCore (tpl : nat) (variables : gmap string string).

(** [CDone] answers with the error of a context that is done; [CWalk] with the
    paths [filepath.Walk] visits without an error, the function it is given
    never stops it; [CNewCore] with the names of the builds;
    [CSetenv] with the text of its error. *)
Definition ianswer (c : icall) : Type :=
  match c with
  | CDone => option error
  | CRootPath => string + error
  | CParseFile _ => nat + error
  | CEnvironment => list string + error
  | CWalk _ => list string
  | CSetenv _ _ => option string
  | CNewCore _ _ => list string + error
  end.

Abbreviation IM := (Prog ianswer).

Section prepare.
(** The hexadecimal digest of a text, and the cluster. *)
Context (sha256 : string → string) (cloud region kubernetesVersion : string).

Definition userVariables (i : image) : gmap string string :=
  <["region" := region]> (<[ImageTagKubernetesVersion := kubernetesVersion]>
    (<[ImageTagBaseImageName := i_imageName i]> (<[ImageTagEnvironment := i_environment i]> ∅))).

(** [return "", i.ctx.Err()] when the context is done. *)
Definition unless_done {A} (m : IM (A + error)) : IM (A + error) :=
  err ← call CDone;
  match err with Some err => mret (inr err) | None => m end.

Definition or_fail {A B} (prefix : string) (m : IM (A + error)) (f : A → IM (B + error)) : IM (B + error) :=
  r ← m;
  match r with inr err => mret (inr (Errorf (prefix +:+ error_string err))) | inl a => f a end.

Fixpoint setenvs (envVars : list string) (result : option error) : IM (option error) :=
  match envVars with
  | [] => mret result
  | e :: envVars' =>
      match env_var e with
      | inr err => setenvs envVars' (Append result (Some err))
      | inl (k, v) => err ← call (CSetenv k v); setenvs envVars' (AppendIf result (Errorf <$> err))
      end
  end.

(** The variables of the provider and those of Puppet. *)
Definition build_environment (vars : list string) (path : string) (visited : list string) : list string :=
  vars ++ ["PUPPET_PATH=" +:+ path; "PUPPET_HASH=" +:+ sha256 (Join visited "")].

(** [Build] until the builds are started. *)
Definition prepare_build (i : image) : IM (list string + error) :=
  unless_done (
  or_fail "error getting rootPath: " (call CRootPath) (λ rootPath,
  or_fail "failed to parse template source file: "
    (call (CParseFile (path_Join [rootPath; "packer"; cloud; i_imageName i +:+ ".json"]))) (λ tpl,
  unless_done (
  or_fail "failed to get provider credentials: " (call CEnvironment) (λ vars,
  or_fail "error getting rootPath: " (call CRootPath) (λ rootPath,
  let path := path_Join [rootPath; "puppet"] in
  visited ← call (CWalk path);
  result ← setenvs (build_environment vars path visited) None;
  match ErrorOrNil result with
  | Some err => mret (inr err)
  | None => unless_done (or_fail "failed to get core: " (call (CNewCore tpl (userVariables i))) (λ names, mret (inl names)))
  end)))))).
End prepare.

(** ** The builds *)

(** Where a build's goroutine is: running the build; appending an error, with
    the lock from [GErrRead] to [GErrUnlock]; appending the IDs of the
    artifacts one by one, with the lock from [GIdAppend] to [GIdUnlock]; about
    to close [complete]; ended. *)
Inductive GPhase :=
| GRun
| GErrLock (err : string)
| GErrRead (err : string)
| GErrWrite (p : nat) (errs : list string) (err : string)
| GErrUnlock
| GIds (ids : list string)
| GIdAppend (id : string) (ids : list string)
| GIdUnlock (ids : list string)
| GClose
| GDone.

(** The goroutine that waits for the context or for [complete]. *)
Inductive Watcher := WSelect | WCanceled | WEnded.

Record BuildG := { bg_name : string; bg_phase : GPhase; bg_complete : bool; bg_watcher : Watcher }.

(** The main goroutine: with the names left, about to prepare a build,
    appending an error, waiting, returned. *)
Inductive MPhase :=
| MLoop (names : list string)
| MPrepare (name : string) (names : list string)
| MErrRead (err : string) (names : list string)
| MErrWrite (p : nat) (errs : list string) (err : string) (names : list string)
| MWait
| MReturned.

(** What Packer has answered. *)
Inductive Answer :=
| BuildFailed (name err : string)
| PrepareFailed (name err : string)
| RunFailed (name err : string)
| RunSucceeded (name : string) (ids : list string).

(** [b_objs] are the errors of each [multierror.Error] that was made;
    [b_answers] what Packer has answered so far. *)
Record Builds := {
  b_main : MPhase;
  b_gs : list BuildG;
  b_mu : option nat;
  b_result : option nat;
  b_objs : list (list string);
  b_ids : list string;
  b_done : bool;
  b_answers : list Answer;
}.

(** Who does a step, with the answer of Packer where there is one. *)
Inductive BEvent :=
| EvDone
| EvMain (answer : option string)
| EvBuild (i : nat) (answer : list string + string)
| EvWatcher (i : nat).

(** The first half of [result = multierror.Append(result, err)]: the pointer,
    a new one when it is nil, and its list. *)
Definition read_result (b : Builds) : nat * list string * list (list string) :=
  match b_result b with
  | Some p => (p, default [] (b_objs b !! p), b_objs b)
  | None => (length (b_objs b), [], b_objs b ++ [[]])
  end.

(** The second half. *)
Definition write_result (p : nat) (errs : list string) (err : string) (b : Builds) : Builds :=
  {| b with b_objs := <[p := errs ++ [err]]> (b_objs b); b_result := Some p |}.

Definition set_main (m : MPhase) (b : Builds) : Builds := {| b with b_main := m |}.
Definition answered (a : Answer) (b : Builds) : Builds := {| b with b_answers := b_answers b ++ [a] |}.
Definition set_g (i : nat) (g : BuildG) (b : Builds) : Builds := {| b with b_gs := <[i := g]> (b_gs b) |}.
Definition set_mu (mu : option nat) (b : Builds) : Builds := {| b with b_mu := mu |}.

Definition new_build (name : string) : BuildG :=
  {| bg_name := name; bg_phase := GRun; bg_complete := false; bg_watcher := WSelect |}.

Definition ended (g : BuildG) : bool := match bg_phase g with GDone => true | _ => false end.

(** A step of the main goroutine; [answer] is the error of [core.Build] or of
    [Prepare].  That the context is done is looked at and not acted upon: the
    [break] leaves the [select]. *)
Definition builds_main_step (answer : option string) (b : Builds) : option Builds :=
  match b_main b with
  | MLoop (name :: names) =>
      Some match answer with
           | Some err => answered (BuildFailed name err) (set_main (MErrRead err names) b)
           | None => set_main (MPrepare name names) b
           end
  | MLoop [] => Some (set_main MWait b)
  | MPrepare name names =>
      Some match answer with
           | Some err => answered (PrepareFailed name err) (set_main (MErrRead err names) b)
           | None => set_main (MLoop names) {| b with b_gs := b_gs b ++ [new_build name] |}
           end
  | MErrRead err names =>
      let '(p, errs, objs) := read_result b in Some (set_main (MErrWrite p errs err names) {| b with b_objs := objs |})
  | MErrWrite p errs err names => Some (set_main (MLoop names) (write_result p errs err b))
  | MWait => if forallb ended (b_gs b) then Some (set_main MReturned b) else None
  | MReturned => None
  end.

(** A step of the goroutine of the build [i]; [answer] is what [Run] returns. *)
Definition build_step (i : nat) (g : BuildG) (answer : list string + string) (b : Builds) : option Builds :=
  let goto (ph : GPhase) := set_g i {| g with bg_phase := ph |} in
  match bg_phase g with
  | GRun =>
      Some match answer with
           | inr err => answered (RunFailed (bg_name g) err) (goto (GErrLock err) b)
           | inl ids => answered (RunSucceeded (bg_name g) ids) (goto (GIds ids) b)
           end
  | GErrLock err => match b_mu b with None => Some (goto (GErrRead err) (set_mu (Some i) b)) | Some _ => None end
  | GErrRead err =>
      let '(p, errs, objs) := read_result b in Some (goto (GErrWrite p errs err) {| b with b_objs := objs |})
  | GErrWrite p errs err => Some (goto GErrUnlock (write_result p errs err b))
  | GErrUnlock => Some (goto GClose (set_mu None b))
  | GIds [] => Some (goto GClose b)
  | GIds (id :: ids) => match b_mu b with None => Some (goto (GIdAppend id ids) (set_mu (Some i) b)) | Some _ => None end
  | GIdAppend id ids => Some (goto (GIdUnlock ids) {| b with b_ids := b_ids b ++ [id] |})
  | GIdUnlock ids => Some (goto (GIds ids) (set_mu None b))
  | GClose => Some (set_g i {| g with bg_phase := GDone; bg_complete := true |} b)
  | GDone => None
  end.

(** A step of the goroutine that watches the build [i]. *)
Definition watcher_step (i : nat) (g : BuildG) (b : Builds) : option Builds :=
  match bg_watcher g with
  | WEnded => None
  | w =>
      if bg_complete g then Some (set_g i {| g with bg_watcher := WEnded |} b)
      else match w with
           | WSelect => if b_done b then Some (set_g i {| g with bg_watcher := WCanceled |} b) else None
           | _ => None
           end
  end.

Definition bstep (e : BEvent) (b : Builds) : option Builds :=
  match e with
  | EvDone => if b_done b then None else Some {| b with b_done := true |}
  | EvMain answer => builds_main_step answer b
  | EvBuild i answer => g ← b_gs b !! i; build_step i g answer b
  | EvWatcher i => g ← b_gs b !! i; watcher_step i g b
  end.

Fixpoint bsteps (es : list BEvent) (b : Builds) : option Builds :=
  match es with
  | [] => Some b
  | e :: es' => b' ← bstep e b; bsteps es' b'
  end.

Definition builds_start (names : list string) (canceled : bool) : Builds :=
  {| b_main := MLoop names; b_gs := []; b_mu := None; b_result := None; b_objs := []; b_ids := [];
     b_done := canceled; b_answers := [] |}.

(** What [Build] returns, once it has. *)
Definition build_returned (b : Builds) : option (string * option error) :=
  match b_main b with
  | MReturned => Some (Join (b_ids b) ", ", ErrorOrNil (p ← b_result b; errs ← b_objs b !! p; Some (Multi (Errorf <$> errs))))
  | _ => None
  end.

(** ** The invariant *)

(** The goroutine has the lock. *)
Definition holds_mu (ph : GPhase) : bool :=
  match ph with GErrRead _ | GErrWrite _ _ _ | GErrUnlock | GIdAppend _ _ | GIdUnlock _ => true | _ => false end.

(** An error that is not yet in the result. *)
Definition erring (ph : GPhase) : bool :=
  match ph with GErrLock _ | GErrRead _ | GErrWrite _ _ _ => true | _ => false end.

Definition main_erring (m : MPhase) : bool :=
  match m with MErrRead _ _ | MErrWrite _ _ _ _ => true | _ => false end.

(** IDs that are not yet in the result. *)
Definition pending_ids (g : BuildG) : list string :=
  match bg_phase g with GIds ids | GIdUnlock ids => ids | GIdAppend id ids => id :: ids | _ => [] end.

Definition answer_ids (a : Answer) : list string := match a with RunSucceeded _ ids => ids | _ => [] end.
Definition answer_failed (a : Answer) : bool := match a with RunSucceeded _ _ => false | _ => true end.

(** The IDs of the artifacts, and whether anything has failed. *)
Definition all_ids (b : Builds) : list string := concat (answer_ids <$> b_answers b).
Definition failed (b : Builds) : Prop := existsb answer_failed (b_answers b) = true.

Definition in_objs (b : Builds) (p : nat) : Prop := p < length (b_objs b).

Record g_ok (b : Builds) (i : nat) (g : BuildG) : Prop := {
  go_mu : b_mu b = Some i ↔ holds_mu (bg_phase g) = true;
  go_ptr : match bg_phase g with GErrWrite p _ _ => in_objs b p | _ => True end;
  go_err : erring (bg_phase g) = true → failed b;
  go_complete : bg_complete g = true ↔ ended g = true;
  go_watcher : bg_watcher g = WEnded → bg_complete g = true;
}.

Record m_ok (b : Builds) : Prop := {
  mo_ptr : match b_main b with MErrWrite p _ _ _ => in_objs b p | _ => True end;
  mo_err : main_erring (b_main b) = true → failed b;
  mo_ret : b_main b = MReturned → ∀ i g, b_gs b !! i = Some g → ended g = true;
}.

(** The result is a list with an error, once it is one. *)
Record r_ok (b : Builds) : Prop := {
  ro_ptr : ∀ p, b_result b = Some p → ∃ err errs, b_objs b !! p = Some (err :: errs);
  ro_failed : b_result b ≠ None → failed b;
}.

Record b_ok (b : Builds) : Prop := {
  bo_gs : ∀ i g, b_gs b !! i = Some g → g_ok b i g;
  bo_mu : ∀ i, b_mu b = Some i → i < length (b_gs b);
  bo_main : m_ok b;
  bo_result : r_ok b;
  bo_failed : failed b → b_result b ≠ None ∨ main_erring (b_main b) = true ∨
                         ∃ i g, b_gs b !! i = Some g ∧ erring (bg_phase g) = true;
  bo_ids : b_ids b ++ concat (pending_ids <$> b_gs b) ≡ₚ all_ids b;
}.

Lemma concat_insert {A} (f : BuildG → list A) gs i g :
  gs !! i = Some g → ∃ rest, concat (f <$> gs) ≡ₚ f g ++ rest ∧ ∀ g', concat (f <$> <[i := g']> gs) ≡ₚ f g' ++ rest.
Proof.
  intros Hi. exists (concat (f <$> take i gs) ++ concat (f <$> drop (S i) gs)).
  assert (∀ g', concat (f <$> (take i gs ++ g' :: drop (S i) gs)) ≡ₚ
                f g' ++ concat (f <$> take i gs) ++ concat (f <$> drop (S i) gs)) as Hmid.
  { intros g'. rewrite fmap_app, concat_app, fmap_cons. cbn [concat]. by rewrite Permutation_app_swap_app. }
  split; [by rewrite <- (take_drop_middle gs i g Hi) at 1|].
  intros g'. rewrite insert_take_drop by (by eapply lookup_lt_Some). apply Hmid.
Qed.

(** What stays true of the others when one goroutine does a step. *)
Record builds_grow (b b' : Builds) : Prop := {
  gr_objs : length (b_objs b) ≤ length (b_objs b');
  gr_failed : failed b → failed b';
  gr_result : b_result b ≠ None → b_result b' ≠ None;
}.

Lemma g_ok_grows b b' i g : builds_grow b b' → (b_mu b' = Some i ↔ b_mu b = Some i) → g_ok b i g → g_ok b' i g.
Proof.
  intros [Ho Hf _] Hmu [H1 H2 H3 H4 H5]. split; [by rewrite Hmu| |auto..].
  destruct (bg_phase g); unfold in_objs in *; done || lia.
Qed.

(** The goroutine of a build, or its watcher, does a step. *)
Lemma set_g_ok b b' i g g' new :
  b_ok b → b_gs b !! i = Some g → b_gs b' = <[i := g']> (b_gs b) → b_main b' = b_main b → builds_grow b b' →
  (ended g = true → ended g' = true) →
  (∀ j, j ≠ i → b_mu b' = Some j ↔ b_mu b = Some j) →
  r_ok b' → (failed b' → failed b ∨ erring (bg_phase g') = true) →
  (erring (bg_phase g) = true → erring (bg_phase g') = true ∨ b_result b' ≠ None) →
  all_ids b' = all_ids b ++ new → b_ids b' ++ pending_ids g' ≡ₚ b_ids b ++ pending_ids g ++ new →
  g_ok b' i g' → b_ok b'.
Proof.
  intros [Hgs Hmu [Hm1 Hm2 Hm3] _ Hf Hids] Hi Egs Emain Hgrow Hend Hmu' Hr Hf' Herr Enew Eids Hg.
  pose proof (lookup_lt_Some _ _ _ Hi) as Hlt. destruct (Hgrow) as [Ho Hfm Hrm]. split.
  - intros j g0. rewrite Egs. destruct (decide (j = i)) as [->|Hne].
    + rewrite list_lookup_insert_eq by done. by intros [= <-].
    + rewrite list_lookup_insert_ne by done. intros Hj. eapply g_ok_grows; [done|by apply Hmu'|by apply Hgs].
  - intros j Hj. rewrite Egs, length_insert. destruct (decide (j = i)) as [->|Hne]; [done|]. by apply Hmu, Hmu'.
  - split; rewrite Emain.
    + destruct (b_main b); unfold in_objs in *; done || lia.
    + auto.
    + intros Hret j g0. rewrite Egs. destruct (decide (j = i)) as [->|Hne].
      * rewrite list_lookup_insert_eq by done. intros [= <-]. apply Hend. by eapply Hm3.
      * rewrite list_lookup_insert_ne by done. by apply Hm3.
  - done.
  - intros Hfail. rewrite Emain, Egs. assert (erring (bg_phase g') = true →
      ∃ j g0, <[i := g']> (b_gs b) !! j = Some g0 ∧ erring (bg_phase g0) = true) as Hnew.
    { intros He. exists i, g'. by rewrite list_lookup_insert_eq. }
    destruct (Hf' Hfail) as [[?|[?|(j & g0 & Hj & He)]]%Hf|He]; [by left; auto|by right; left| |by right; right; auto].
    destruct (decide (j = i)) as [->|Hne].
    + assert (g0 = g) as -> by congruence. destruct (Herr He); [by right; right; auto|by left].
    + right; right. exists j, g0. by rewrite list_lookup_insert_ne.
  - destruct (concat_insert pending_ids _ _ _ Hi) as (rest & Hrest & Hrest'). rewrite Egs, Hrest', app_assoc, Eids, Enew.
    rewrite <- Hids, Hrest, <- !app_assoc. do 2 apply Permutation_app_head. apply Permutation_app_comm.
Qed.

(** The main goroutine does a step that leaves the others alone. *)
Lemma set_main_ok b b' :
  b_ok b → b_gs b' = b_gs b → b_mu b' = b_mu b → b_ids b' = b_ids b → all_ids b' = all_ids b → builds_grow b b' →
  m_ok b' → r_ok b' → (failed b' → failed b ∨ main_erring (b_main b') = true) →
  (main_erring (b_main b) = true → main_erring (b_main b') = true ∨ b_result b' ≠ None) → b_ok b'.
Proof.
  intros [Hgs Hmu _ _ Hf Hids] Egs Emu Eids Eall Hgrow Hm Hr Hf' Herr. destruct (Hgrow) as [_ _ Hrm]. split; [| |done..| |].
  - intros i g. rewrite Egs. intros Hi. eapply g_ok_grows; [done|by rewrite Emu|by apply Hgs].
  - by rewrite Egs, Emu.
  - intros Hfail. rewrite Egs. destruct (Hf' Hfail) as [[?|[He|?]]%Hf|?]; [by left; auto| |by right; right|by right; left].
    destruct (Herr He); [by right; left|by left].
  - by rewrite Egs, Eids, Eall.
Qed.

Lemma failed_snoc b a : failed (answered a b) ↔ failed b ∨ answer_failed a = true.
Proof. unfold failed. cbn. rewrite existsb_app. cbn. rewrite orb_false_r. apply orb_true_iff. Qed.

Lemma all_ids_snoc b a : all_ids (answered a b) = all_ids b ++ answer_ids a.
Proof. unfold all_ids. cbn [b_answers answered]. rewrite fmap_app, concat_app. cbn. by rewrite app_nil_r. Qed.

(** The halves of an append to the result. *)
Lemma read_result_ok b p errs objs :
  r_ok b → read_result b = (p, errs, objs) → p < length objs ∧ length (b_objs b) ≤ length objs ∧ r_ok {| b with b_objs := objs |}.
Proof.
  intros [Hp Hf] Hr. unfold read_result in Hr. destruct (b_result b) as [q|] eqn:Hq; injection Hr as <- <- <-.
  - destruct (Hp q eq_refl) as (err & es & Hl). split_and!; [by eapply lookup_lt_Some|done|]. split; cbn; [done|]. intros _. by apply Hf.
  - rewrite length_app. cbn. split_and!; [lia..|]. by split; cbn.
Qed.

Lemma write_result_ok b p errs err : in_objs b p → failed b → r_ok (write_result p errs err b).
Proof.
  intros Hp Hf. split; cbn; [|done]. intros q [= <-]. rewrite list_lookup_insert_eq by done. by destruct errs; eexists _, _.
Qed.

Lemma builds_start_ok names canceled : b_ok (builds_start names canceled).
Proof. split; [done..| | | |done]; [by split|by split|]. unfold failed. by cbn. Qed.

Lemma r_ok_same b b' :
  b_result b' = b_result b → b_objs b' = b_objs b → (failed b → failed b') → r_ok b → r_ok b'.
Proof. intros Er Eo Hf [H1 H2]. split; rewrite Er, ?Eo; auto. Qed.

Lemma grows_refl b b' :
  b_result b' = b_result b → b_objs b' = b_objs b → (failed b → failed b') → builds_grow b b'.
Proof. intros Er Eo Hf. split; rewrite ?Er, ?Eo; auto. Qed.

(** An error of Packer is about to be appended by the main goroutine. *)
Lemma main_fails_ok b a err names :
  b_ok b → answer_failed a = true → answer_ids a = [] → main_erring (b_main b) = false →
  b_ok (answered a (set_main (MErrRead err names) b)).
Proof.
  intros Hok Ha Hids Hm. assert (failed (answered a (set_main (MErrRead err names) b))) as Hf by (apply failed_snoc; by right).
  apply (set_main_ok b); try done.
  - by rewrite all_ids_snoc, Hids, app_nil_r.
  - by apply (r_ok_same b); [..|apply Hok].
  - intros _. by right.
  - by rewrite Hm.
Qed.

(** The main goroutine goes on. *)
Lemma main_goes_ok b m :
  b_ok b → main_erring (b_main b) = false → main_erring m = false →
  (m = MReturned → ∀ i g, b_gs b !! i = Some g → ended g = true) → b_ok (set_main m b).
Proof.
  intros Hok Hm Hm' Hret. apply (set_main_ok b); try done.
  - split; cbn; [by destruct m|by rewrite Hm'|done].
  - by apply (r_ok_same b); [..|apply Hok].
  - intros ?. by left.
  - by rewrite Hm.
Qed.

Lemma spawn_ok b name names :
  b_ok b → main_erring (b_main b) = false → b_main b ≠ MReturned → b_ok (set_main (MLoop names) {| b with b_gs := b_gs b ++ [new_build name] |}).
Proof.
  intros Hok Hm Hret. destruct (Hok) as [Hgs Hmu Hmain Hr Hf Hids]. split.
  - intros i g. cbn. intros [Hi|(Hge & Hi)]%lookup_app_Some.
    + apply (g_ok_grows b); [done|done|by apply Hgs].
    + apply list_lookup_singleton_Some in Hi as [Hi <-]. split; cbn; try done. split; [|done].
      intros Hmi. apply Hmu in Hmi. lia.
  - intros i Hi. cbn. rewrite length_app. specialize (Hmu i Hi). lia.
  - by split.
  - by apply (r_ok_same b).
  - intros Hfail. destruct (Hf Hfail) as [?|[?|(i & g & Hi & He)]]; [by left|congruence|].
    right; right. exists i, g. split; [|done]. by apply lookup_app_l_Some.
  - cbn. rewrite fmap_app, concat_app. cbn. by rewrite !app_nil_r.
Qed.

Lemma main_step_ok answer b b' : b_ok b → builds_main_step answer b = Some b' → b_ok b'.
Proof.
  intros Hok. destruct (bo_main _ Hok) as [Hm1 Hm2 Hm3]. pose proof (bo_result _ Hok) as Hr. unfold builds_main_step.
  destruct (b_main b) as [[|name names]|name names|err names|p errs err names| |] eqn:Hmain; intros Hs.
  - injection Hs as <-. apply main_goes_ok; [done|by rewrite Hmain|done..].
  - injection Hs as <-. destruct answer; [apply main_fails_ok|apply main_goes_ok]; by rewrite ?Hmain.
  - injection Hs as <-. destruct answer; [apply main_fails_ok|apply spawn_ok]; by rewrite ?Hmain.
  - destruct (read_result b) as [[p errs] objs] eqn:Hread. injection Hs as <-.
    destruct (read_result_ok _ _ _ _ Hr Hread) as (Hp & Hlen & Hr'). apply (set_main_ok b); try done.
    + destruct Hr'. by split.
    + intros ?; by left.
    + intros _; by left.
  - injection Hs as <-. apply (set_main_ok b); try done.
    + split; [cbn; by rewrite length_insert|done..].
    + destruct (write_result_ok b p errs err); [done|by apply Hm2|by split].
    + intros ?; by left.
    + intros _; by right.
  - destruct (forallb ended (b_gs b)) eqn:Hall; [|done]. injection Hs as <-. apply main_goes_ok; [done|by rewrite Hmain|done|].
    intros _ i g Hi. rewrite forallb_forall in Hall. by eapply Hall, list_elem_of_In, list_elem_of_lookup_2.
  - done.
Qed.

(** A goroutine moves on without an answer of Packer: the lock is taken or left
    by itself only, the result may have been written. *)
Lemma phase_ok b b' i g ph :
  b_ok b → b_gs b !! i = Some g → b_gs b' = <[i := {| g with bg_phase := ph |}]> (b_gs b) → b_main b' = b_main b →
  b_answers b' = b_answers b → ended g = false → ph ≠ GDone →
  (∀ j, j ≠ i → b_mu b' = Some j ↔ b_mu b = Some j) → (b_mu b' = Some i ↔ holds_mu ph = true) →
  length (b_objs b) ≤ length (b_objs b') → (b_result b ≠ None → b_result b' ≠ None) → r_ok b' →
  match ph with GErrWrite p _ _ => in_objs b' p | _ => True end →
  (erring ph = true → erring (bg_phase g) = true) →
  (erring (bg_phase g) = true → erring ph = true ∨ b_result b' ≠ None) →
  b_ids b' ++ pending_ids {| g with bg_phase := ph |} ≡ₚ b_ids b ++ pending_ids g → b_ok b'.
Proof.
  intros Hok Hi Egs Emain Eans Hend Hph Hmu Hmui Hobjs Hres Hr Hptr Herr Herr' Hids.
  destruct (bo_gs _ Hok i g Hi) as [_ _ G3 G4 G5].
  assert (∀ P : Prop, (failed b → P) → failed b' → P) as Hf by (unfold failed; rewrite Eans; auto).
  assert (failed b → failed b') as Hf' by (unfold failed; by rewrite Eans).
  eapply (set_g_ok b b' i g _ []); try done.
  - by rewrite Hend.
  - apply Hf. by left.
  - unfold all_ids. by rewrite Eans, app_nil_r.
  - by rewrite app_nil_r.
  - split; cbn; [done..|auto| |done]. split; [intros Hc; apply G4 in Hc; congruence|by destruct ph].
Qed.

(** Packer has answered. *)
Lemma answer_ok b i g ph a :
  b_ok b → b_gs b !! i = Some g → bg_phase g = GRun → erring ph = answer_failed a → holds_mu ph = false → ph ≠ GDone →
  match ph with GErrWrite _ _ _ => False | _ => True end →
  pending_ids {| g with bg_phase := ph |} = answer_ids a →
  b_ok (answered a (set_g i {| g with bg_phase := ph |} b)).
Proof.
  intros Hok Hi Hrun Herr Hholds Hph Hptr Hids. destruct (bo_gs _ Hok i g Hi) as [G1 _ G3 G4 G5]. rewrite Hrun in G1, G3.
  set (b' := answered _ _). assert (failed b' ↔ failed b ∨ answer_failed a = true) as Hf
    by exact (failed_snoc (set_g i {| g with bg_phase := ph |} b) a).
  eapply (set_g_ok b b' i g _ (answer_ids a)); try done.
  - apply grows_refl; [done..|]. intros ?. apply Hf. by left.
  - unfold ended. by rewrite Hrun.
  - apply (r_ok_same b); [done..| |apply Hok]. intros ?. apply Hf. by left.
  - cbn. rewrite Herr. apply Hf.
  - by rewrite Hrun.
  - exact (all_ids_snoc (set_g i {| g with bg_phase := ph |} b) a).
  - rewrite Hids. unfold pending_ids. by rewrite Hrun.
  - split; cbn.
    + rewrite G1, Hholds. done.
    + by destruct ph.
    + rewrite Herr. intros ?. apply Hf. by right.
    + unfold ended in G4. rewrite Hrun in G4. rewrite G4. unfold ended; cbn. by destruct ph.
    + done.
Qed.

(** Conditions of [phase_ok] on the phase alone. *)
Ltac phase b i g Hph :=
  eapply (phase_ok b _ i g); try done; unfold ended, pending_ids; cbn; rewrite ?Hph; try done;
  try (by apply (r_ok_same b)); try (by intros; left); try (intros j Hj; split; intros; congruence).

Lemma build_step_ok i g answer b b' :
  b_ok b → b_gs b !! i = Some g → build_step i g answer b = Some b' → b_ok b'.
Proof.
  intros Hok Hi. destruct (bo_gs _ Hok i g Hi) as [G1 G2 G3 G4 G5]. pose proof (bo_result _ Hok) as Hr.
  unfold build_step. destruct (bg_phase g) as [|err|err|p errs err| |[|id ids]|id ids|ids| |] eqn:Hph; intros Hs.
  - injection Hs as <-. destruct answer as [ids|err]; by apply answer_ok.
  - destruct (b_mu b) eqn:Hmu; [done|]. injection Hs as <-. phase b i g Hph.
  - destruct (read_result b) as [[p errs] objs] eqn:Hread. injection Hs as <-.
    destruct (read_result_ok _ _ _ _ Hr Hread) as (Hp & Hlen & Hr'). phase b i g Hph. destruct Hr'. by split.
  - injection Hs as <-. phase b i g Hph.
    + by rewrite length_insert.
    + destruct (write_result_ok b p errs err); [done|by apply G3|by split].
    + by right.
  - assert (b_mu b = Some i) as Hmu by (by apply G1). injection Hs as <-. phase b i g Hph.
  - injection Hs as <-. phase b i g Hph.
  - destruct (b_mu b) eqn:Hmu; [done|]. injection Hs as <-. phase b i g Hph.
  - injection Hs as <-. phase b i g Hph.
    by rewrite <- app_assoc.
  - assert (b_mu b = Some i) as Hmu by (by apply G1). injection Hs as <-. phase b i g Hph.
  - injection Hs as <-. eapply (set_g_ok b _ i g _ []); try done; unfold pending_ids; cbn; rewrite ?Hph, ?app_nil_r; try done.
    + by apply (r_ok_same b).
    + by intros; left.
  - done.
Qed.

Lemma watcher_step_ok i g b b' : b_ok b → b_gs b !! i = Some g → watcher_step i g b = Some b' → b_ok b'.
Proof.
  intros Hok Hi. destruct (bo_gs _ Hok i g Hi) as [G1 G2 G3 G4 G5]. pose proof (bo_result _ Hok) as Hr.
  assert (∀ w, (w = WEnded → bg_complete g = true) → b_ok (set_g i {| g with bg_watcher := w |} b)) as Hset.
  { intros w Hw. eapply (set_g_ok b _ i g _ []); try done; cbn; rewrite ?app_nil_r; try done.
    - by apply (r_ok_same b).
    - by intros; left.
    - by intros; left. }
  unfold watcher_step. destruct (bg_watcher g), (bg_complete g), (b_done b); intros [= <-]; by apply Hset.
Qed.

Lemma bstep_ok e b b' : b_ok b → bstep e b = Some b' → b_ok b'.
Proof.
  intros Hok. destruct e as [|answer|i answer|i]; cbn.
  - destruct (b_done b); intros [= <-]. destruct Hok as [H1 H2 [] [] H5 H6]. split; try done. intros i g Hi. by destruct (H1 i g Hi).
  - by apply main_step_ok.
  - destruct (b_gs b !! i) as [g|] eqn:Hi; [|done]. by apply build_step_ok.
  - destruct (b_gs b !! i) as [g|] eqn:Hi; [|done]. by apply watcher_step_ok.
Qed.

Lemma bsteps_ok es b b' : b_ok b → bsteps es b = Some b' → b_ok b'.
Proof.
  revert b. induction es as [|e es IH]; intros b Hok; cbn; [by intros [= <-]|].
  destruct (bstep e b) as [b1|] eqn:He; [|done]. intros Hes. by eapply IH, Hes; eapply bstep_ok.
Qed.

(** ** Every build has one answer *)
Definition answer_name (a : Answer) : string :=
  match a with BuildFailed name _ | PrepareFailed name _ | RunFailed name _ | RunSucceeded name _ => name end.

Definition running_names (g : BuildG) : list string := match bg_phase g with GRun => [bg_name g] | _ => [] end.

Definition todo (m : MPhase) : list string :=
  match m with
  | MLoop names | MErrRead _ names | MErrWrite _ _ _ names => names
  | MPrepare name names => name :: names
  | MWait | MReturned => []
  end.

Definition accounted (b : Builds) : list string :=
  (answer_name <$> b_answers b) ++ concat (running_names <$> b_gs b) ++ todo (b_main b).

Lemma accounted_set_g b b' i g g' new :
  b_gs b !! i = Some g → b_gs b' = <[i := g']> (b_gs b) → b_main b' = b_main b → b_answers b' = b_answers b ++ new →
  (answer_name <$> new) ++ running_names g' = running_names g → accounted b' ≡ₚ accounted b.
Proof.
  intros Hi Egs Em Ea Hr. unfold accounted. destruct (concat_insert running_names _ _ _ Hi) as (rest & H1 & H2).
  rewrite Egs, Em, Ea, H2, H1, fmap_app, <- Hr, <- !app_assoc. done.
Qed.

Lemma main_step_accounted answer b b' : builds_main_step answer b = Some b' → accounted b' ≡ₚ accounted b.
Proof.
  unfold builds_main_step, accounted. destruct (b_main b) as [[|name names]|name names|err names|p errs err names| |] eqn:Hm; intros Hs.
  - injection Hs as <-. done.
  - injection Hs as <-. destruct answer; cbn; [|done]. rewrite fmap_app, <- app_assoc. cbn.
    apply Permutation_app_head. by rewrite <- Permutation_middle.
  - injection Hs as <-. destruct answer; cbn.
    + rewrite fmap_app, <- app_assoc. cbn. apply Permutation_app_head. by rewrite <- Permutation_middle.
    + rewrite fmap_app, concat_app. cbn. by rewrite <- !app_assoc.
  - destruct (read_result b) as [[p errs] objs]. by injection Hs as <-.
  - by injection Hs as <-.
  - destruct (forallb _ _); [|done]. by injection Hs as <-.
  - done.
Qed.

Lemma bstep_accounted e b b' : bstep e b = Some b' → accounted b' ≡ₚ accounted b.
Proof.
  destruct e as [|answer|i answer|i]; cbn; [by destruct (b_done b); intros [= <-]|apply main_step_accounted|..];
    (destruct (b_gs b !! i) as [g|] eqn:Hi; [cbn|done]).
  - assert (∀ ph b1, b_gs b1 = <[i := {| g with bg_phase := ph |}]> (b_gs b) → b_main b1 = b_main b →
      b_answers b1 = b_answers b → ph ≠ GRun → bg_phase g ≠ GRun → accounted b1 ≡ₚ accounted b) as Hmove.
    { intros ph b1 Egs Em Ea Hph Hg. eapply (accounted_set_g b b1 i g _ []); try done; [by rewrite app_nil_r|].
      unfold running_names. cbn. by destruct ph, (bg_phase g). }
    unfold build_step. destruct (bg_phase g) as [|err|err|p errs err| |[|id ids]|id ids|ids| |] eqn:Hph; intros Hs.
    + injection Hs as <-. destruct answer; eapply (accounted_set_g b _ i g); try done; unfold running_names; by rewrite Hph.
    + destruct (b_mu b); [done|]. injection Hs as <-. by eapply Hmove.
    + destruct (read_result b) as [[p errs] objs]. injection Hs as <-. by eapply Hmove.
    + injection Hs as <-. by eapply Hmove.
    + injection Hs as <-. by eapply Hmove.
    + injection Hs as <-. by eapply Hmove.
    + destruct (b_mu b); [done|]. injection Hs as <-. by eapply Hmove.
    + injection Hs as <-. by eapply Hmove.
    + injection Hs as <-. by eapply Hmove.
    + injection Hs as <-. eapply (accounted_set_g b _ i g _ []); try done; cbn; rewrite ?app_nil_r; [done|].
      unfold running_names. by rewrite Hph.
    + done.
  - unfold watcher_step. destruct (bg_watcher g), (bg_complete g), (b_done b); intros [= <-];
      (eapply (accounted_set_g b _ i g _ []); try done; cbn; by rewrite ?app_nil_r).
Qed.

Lemma bsteps_accounted es b b' : bsteps es b = Some b' → accounted b' ≡ₚ accounted b.
Proof.
  revert b. induction es as [|e es IH]; intros b; cbn; [by intros [= <-]|].
  destruct (bstep e b) as [b1|] eqn:He; [|done]. intros Hes. rewrite (IH _ Hes). by eapply bstep_accounted.
Qed.

Lemma ended_nothing g : ended g = true → erring (bg_phase g) = false ∧ pending_ids g = [] ∧ running_names g = [].
Proof. unfold ended, pending_ids, running_names. by destruct (bg_phase g). Qed.

Lemma concat_nothing {A} (f : BuildG → list A) gs : (∀ i g, gs !! i = Some g → f g = []) → concat (f <$> gs) = [].
Proof.
  intros Hf. apply concat_nil_Forall, Forall_fmap, Forall_lookup. exact Hf.
Qed.

(** C30: [Build] of an image, for every interleaving of its goroutines and
    whatever Packer answers: when it returns, each build of the template has
    had exactly one answer, the IDs returned are those of the artifacts of the
    builds that succeeded, each as often as Packer named it, and the error is
    nil exactly if nothing has failed.  This holds although the result is
    written without the lock. *)
Theorem image_Build_correct names canceled es b out err :
  bsteps es (builds_start names canceled) = Some b → build_returned b = Some (out, err) →
  answer_name <$> b_answers b ≡ₚ names ∧
  (∃ ids, out = Join ids ", " ∧ ids ≡ₚ all_ids b) ∧
  (err = None ↔ ∀ a, a ∈ b_answers b → answer_failed a = false).
Proof.
  intros Hes. pose proof (bsteps_ok _ _ _ (builds_start_ok names canceled) Hes) as [Hgs _ [_ _ Hret] [Hr1 Hr2] Hf Hids].
  pose proof (bsteps_accounted _ _ _ Hes) as Hacc. unfold build_returned. destruct (b_main b) eqn:Hm; try done. intros [= <- <-].
  assert (∀ i g, b_gs b !! i = Some g → erring (bg_phase g) = false ∧ pending_ids g = [] ∧ running_names g = []) as Hdone
    by eauto using ended_nothing.
  rewrite (concat_nothing pending_ids) in Hids by (intros i g Hi; apply (Hdone i g Hi)). rewrite app_nil_r in Hids.
  unfold accounted in Hacc. rewrite (concat_nothing running_names (b_gs b)), Hm, app_nil_r in Hacc by (intros i g Hi; apply (Hdone i g Hi)).
  split_and!; [done|by exists (b_ids b)|].
  transitivity (b_result b = None).
  - destruct (b_result b) as [p|]; [|done]. destruct (Hr1 p eq_refl) as (err & errs & Hp). cbn. by rewrite Hp.
  - transitivity (¬ failed b).
    + split; [|by destruct (b_result b); [intros Hn; destruct Hn; apply Hr2|]].
      intros Hn Hfail. destruct (Hf Hfail) as [?|[?|(i & g & Hi & He)]]; [done..|]. destruct (Hdone i g Hi). congruence.
    + unfold failed. rewrite not_true_iff_false. split.
      * intros Hn a Ha. destruct (answer_failed a) eqn:E; [|done]. assert (existsb answer_failed (b_answers b) = true); [|congruence].
        apply existsb_exists. exists a. by rewrite <- list_elem_of_In.
      * intros Hall. apply not_true_iff_false. intros (a & Ha & E)%existsb_exists. apply list_elem_of_In, Hall in Ha. congruence.
Qed.

(** ** Termination *)

(** What Packer has not answered, and what is left to do with its answers. *)
Definition names_left (m : MPhase) : nat := 2 * length (todo m).
Definition main_left (m : MPhase) : nat :=
  match m with MErrRead _ _ => 5 | MErrWrite _ _ _ _ => 4 | MLoop _ => 3 | MPrepare _ _ => 2 | MWait => 1 | MReturned => 0 end.
Definition phase_left (ph : GPhase) : nat :=
  match ph with
  | GRun | GDone => 0
  | GErrLock _ => 6 | GErrRead _ => 5 | GErrWrite _ _ _ => 4 | GErrUnlock => 3
  | GIds ids => 2 + 3 * length ids | GIdAppend _ ids => 4 + 3 * length ids | GIdUnlock ids => 3 + 3 * length ids
  | GClose => 1
  end.
Definition watcher_left (w : Watcher) : nat := match w with WSelect => 2 | WCanceled => 1 | WEnded => 0 end.
Definition g_left (g : BuildG) : nat := phase_left (bg_phase g) + watcher_left (bg_watcher g).

Definition unanswered (b : Builds) : nat := names_left (b_main b) + length (concat (running_names <$> b_gs b)).
Definition left_over (b : Builds) : nat :=
  main_left (b_main b) + sum_list_with g_left (b_gs b) + (if b_done b then 0 else 1).

Definition decreases (b' b : Builds) : Prop :=
  unanswered b' < unanswered b ∨ unanswered b' = unanswered b ∧ left_over b' < left_over b.

Lemma decreases_wf b : Acc decreases b.
Proof.
  remember (unanswered b) as n eqn:Hn. revert b Hn. induction n as [n IHn] using lt_wf_ind. intros b ->.
  remember (left_over b) as m eqn:Hm. revert b IHn Hm. induction m as [m IHm] using lt_wf_ind. intros b IHn ->.
  constructor. intros b' [Hlt|[Heq Hlt]]; [by eapply IHn|]. eapply IHm; [done| |done]. intros k Hk b1 ->.
  eapply IHn; [|done]. lia.
Qed.

Lemma sum_left_insert (f : BuildG → nat) gs i g g' :
  gs !! i = Some g → sum_list_with f (<[i := g']> gs) + f g = sum_list_with f gs + f g'.
Proof.
  intros Hi. rewrite insert_take_drop by (by eapply lookup_lt_Some). rewrite <- (take_drop_middle gs i g Hi) at 3.
  rewrite !sum_list_with_app. cbn. lia.
Qed.

Lemma set_g_decreases b b' i g g' :
  b_gs b !! i = Some g → b_gs b' = <[i := g']> (b_gs b) → b_main b' = b_main b → b_done b' = b_done b →
  length (running_names g') < length (running_names g) ∨ length (running_names g') = length (running_names g) ∧ g_left g' < g_left g →
  decreases b' b.
Proof.
  intros Hi Egs Em Ed Hlt. destruct (concat_insert running_names _ _ _ Hi) as (rest & H1 & H2). specialize (H2 g').
  apply Permutation_length in H1, H2. rewrite length_app in H1, H2. pose proof (sum_left_insert g_left _ _ _ g' Hi) as Hsum.
  unfold decreases, unanswered, left_over. rewrite Egs, Em, Ed. lia.
Qed.

Lemma main_step_decreases answer b b' : builds_main_step answer b = Some b' → decreases b' b.
Proof.
  unfold builds_main_step, decreases, unanswered, left_over, names_left.
  destruct (b_main b) as [[|name names]|name names|err names|p errs err names| |] eqn:Hm; intros Hs.
  - injection Hs as <-. cbn. lia.
  - injection Hs as <-. destruct answer; cbn; lia.
  - injection Hs as <-. destruct answer; cbn; [lia|]. left. rewrite fmap_app, concat_app, length_app. cbn. lia.
  - destruct (read_result b) as [[p errs] objs]. injection Hs as <-. cbn. lia.
  - injection Hs as <-. cbn. lia.
  - destruct (forallb _ _); [|done]. injection Hs as <-. cbn. lia.
  - done.
Qed.

Lemma bstep_decreases e b b' : bstep e b = Some b' → decreases b' b.
Proof.
  destruct e as [|answer|i answer|i]; cbn; [|apply main_step_decreases|..].
  - unfold decreases, unanswered, left_over. destruct (b_done b); intros [= <-]; cbn. lia.
  - destruct (b_gs b !! i) as [g|] eqn:Hi; [cbn|done]. unfold build_step.
    destruct (bg_phase g) as [|err|err|p errs err| |[|id ids]|id ids|ids| |] eqn:Hph; intros Hs.
    all: try destruct (b_mu b); try destruct (read_result b) as [[? ?] ?]; try done; injection Hs as <-; try destruct answer.
    all: eapply (set_g_decreases b _ i g); try done; unfold running_names, g_left; cbn; rewrite Hph; cbn; lia.
  - destruct (b_gs b !! i) as [g|] eqn:Hi; [cbn|done]. unfold watcher_step.
    destruct (bg_watcher g) eqn:Hw, (bg_complete g), (b_done b) eqn:Hd; intros [= <-].
    all: eapply (set_g_decreases b _ i g); try done; right; unfold running_names, g_left; cbn; rewrite Hw; cbn; lia.
Qed.

(** A goroutine that has the lock, or finds it free, can go on. *)
Lemma build_step_progress i g b :
  ended g = false → holds_mu (bg_phase g) = true ∨ b_mu b = None → ∃ b', build_step i g (inl []) b = Some b'.
Proof.
  unfold ended, build_step. destruct (bg_phase g) as [| | | | |[|]| | | |]; cbn; intros Hend [Hh|Hmu]; try done;
    rewrite ?Hmu; try destruct (read_result b) as [[? ?] ?]; eauto.
Qed.

(** Nobody waits for ever: unless [Build] has returned and the watchers have
    ended, someone can do a step without the context being canceled. *)
Lemma builds_progress b :
  b_ok b → (∀ e, e ≠ EvDone → bstep e b = None) →
  b_main b = MReturned ∧ ∀ i g, b_gs b !! i = Some g → bg_watcher g = WEnded.
Proof.
  intros [Hgs Hmu [_ _ Hret] _ _ _] Hstuck. pose proof (Hstuck (EvMain None) ltac:(done)) as Hmain. cbn in Hmain.
  assert (∀ i g, b_gs b !! i = Some g → ended g = true) as Hended.
  { intros i g Hi. destruct (ended g) eqn:He; [done|exfalso].
    assert (∃ j g', b_gs b !! j = Some g' ∧ ended g' = false ∧ (holds_mu (bg_phase g') = true ∨ b_mu b = None)) as (j & g' & Hj & He' & Hgo).
    { destruct (b_mu b) as [j|] eqn:Hm; [|by exists i, g; auto]. destruct (lookup_lt_is_Some_2 (b_gs b) j) as [g' Hj]; [auto|].
      destruct (Hgs j g' Hj) as [Hh _ _ _ _]. apply Hh in Hm. exists j, g'. split_and!; [done| |by left].
      unfold ended. by destruct (bg_phase g'). }
    destruct (build_step_progress j g' b He' Hgo) as [b' Hb']. specialize (Hstuck (EvBuild j (inl [])) ltac:(done)). cbn in Hstuck.
    rewrite Hj in Hstuck. cbn in Hstuck. congruence. }
  split.
  - unfold builds_main_step in Hmain. destruct (b_main b) as [[|]| | | | |]; try done; [by destruct (read_result b) as [[? ?] ?]|].
    assert (forallb ended (b_gs b) = true) as Hall; [|by rewrite Hall in Hmain].
    apply forallb_forall. intros g (i & Hi)%list_elem_of_In%list_elem_of_lookup. eauto.
  - intros i g Hi. destruct (Hgs i g Hi) as [_ _ _ Hc _]. specialize (Hended i g Hi). apply Hc in Hended.
    specialize (Hstuck (EvWatcher i) ltac:(done)). cbn in Hstuck. rewrite Hi in Hstuck. cbn in Hstuck. unfold watcher_step in Hstuck.
    rewrite Hended in Hstuck. by destruct (bg_watcher g).
Qed.

(** One state may follow another. *)
Definition follows (b' b : Builds) : Prop := ∃ e, bstep e b = Some b'.

(** C32: [Build] of an image always returns, if a run of Packer does: however
    its goroutines are scheduled they cannot run for ever, and they only stop
    (the context may be canceled later or never) when the main goroutine has
    returned and no goroutine that watches the context is left behind. *)
Theorem image_Build_terminates names canceled es b :
  bsteps es (builds_start names canceled) = Some b →
  Acc follows b ∧
  ((∀ e, e ≠ EvDone → bstep e b = None) →
   is_Some (build_returned b) ∧ ∀ i g, b_gs b !! i = Some g → bg_watcher g = WEnded).
Proof.
  intros Hes. split.
  - generalize (decreases_wf b). clear Hes. induction 1 as [b _ IH]. constructor. intros b' [e He]. by eapply IH, bstep_decreases.
  - intros Hstuck. destruct (builds_progress b) as [Hm Hw]; [by eapply bsteps_ok; [apply builds_start_ok|]|done|].
    split; [|done]. unfold build_returned. rewrite Hm. eauto.
Qed.

(** ** Before the builds: the environment *)
Section environment.
Context (sha256 : string → string) (cloud region kubernetesVersion : string) (i : image).
Abbreviation events := (list (event ianswer)).
Abbreviation E c a := (Ev (R := ianswer) c a).

(** The variable of a line of the environment was set. *)
Definition was_set (h : events) (line : string) : Prop :=
  ∃ k v, env_var line = inl (k, v) ∧ E (CSetenv k v) None ∈ h.

(** Packer is asked for the builds of the template of the image, with the
    environment set and the context not done. *)
Definition may_prepare (h : events) (c : icall) : Prop :=
  match c with
  | CNewCore tpl variables =>
      variables = userVariables region kubernetesVersion i ∧ last h = Some (E CDone None) ∧
      (∃ rootPath, E CRootPath (inl rootPath) ∈ h ∧
         E (CParseFile (path_Join [rootPath; "packer"; cloud; i_imageName i +:+ ".json"])) (inl tpl) ∈ h) ∧
      ∃ vars path visited, E CEnvironment (inl vars) ∈ h ∧ E (CWalk path) visited ∈ h ∧
        Forall (was_set h) (build_environment sha256 vars path visited)
  | _ => True
  end.

Lemma was_set_mono h h' line : h ⊆ h' → was_set h line → was_set h' line.
Proof. intros Hs (k & v & ? & ?). exists k, v. auto. Qed.

Lemma setenvs_part lines result h :
  proper result →
  safe may_prepare h (setenvs lines result) (λ h' r, h ⊆ h' ∧ proper r ∧ (r = None → result = None ∧ Forall (was_set h') lines)).
Proof.
  revert result h. induction lines as [|line lines IH]; intros result h Hp; [done|]. cbn [setenvs].
  destruct (env_var line) as [[k v]|err] eqn:Hv.
  - apply safe_call; [done|]. intros err. set (e := E (CSetenv k v) err).
    eapply safe_mono; [apply IH; apply AppendIf_proper; [done|by destruct err]|].
    intros h' r _ (Hsub & Hpr & Hr). split_and!; [etrans; [apply sub_snoc|done]|done|].
    intros Hn. destruct (Hr Hn) as [[-> Herr]%AppendIf_None Hall]. split; [done|]. constructor; [|done].
    destruct err; [done|]. exists k, v. split; [done|]. apply Hsub, in_last.
  - unfold env_var in Hv. assert (∃ m, err = Errorf m) as [m ->] by (destruct (Split _ _) as [|? [|]]; by simplify_eq; eauto).
    eapply safe_mono; [apply IH, (AppendIf_proper result (Some (Errorf m))); [done|apply Errorf_proper]|].
    intros h' r _ (Hsub & Hpr & Hr). split_and!; [done..|]. intros Hn. by destruct (Hr Hn).
Qed.

Lemma or_fail_part {A B} prefix h (m : IM (A + error)) (f : A → IM (B + error)) :
  safe may_prepare h m (λ h' r, ∀ a, r = inl a → safe may_prepare h' (f a) (λ _ _, True)) →
  safe may_prepare h (or_fail prefix m f) (λ _ _, True).
Proof.
  intros Hm. apply safe_bind. eapply safe_mono; [exact Hm|]. intros h' [a|err] _ Ha; [by apply Ha|done].
Qed.

Lemma unless_done_part {A} h (m : IM (A + error)) :
  safe may_prepare (h ++ [E CDone None]) m (λ _ _, True) → safe may_prepare h (unless_done m) (λ _ _, True).
Proof. intros Hm. apply safe_call; [done|]. by intros [err|]. Qed.

Ltac asks := split; [done|]; intros ? ? ->.

(** Packer gets the template of the image and an environment in which every
    variable was set. *)
Lemma prepare_build_safe : safe may_prepare [] (prepare_build sha256 cloud region kubernetesVersion i) (λ _ _, True).
Proof.
  apply unless_done_part, or_fail_part. asks. rename a0 into root. apply or_fail_part. asks. rename a0 into tpl.
  apply unless_done_part, or_fail_part. asks. rename a0 into vars. apply or_fail_part. asks. rename a0 into root'.
  apply safe_call; [done|]. intros visited. set (h := _ ++ [E (CWalk _) visited]).
  apply safe_bind. eapply safe_mono; [apply setenvs_part; apply None_proper|]. intros h1 result _ (Hsub & Hp & Hset).
  destruct (ErrorOrNil result) eqn:Hr; [done|]. apply (ErrorOrNil_None _ Hp) in Hr. destruct (Hset Hr) as [_ Hall].
  assert (∀ e, e ∈ h → e ∈ h1 ++ [E CDone None]) as Hin by (intros e He; by apply in_before, Hsub).
  apply unless_done_part, or_fail_part. split; [|by intros a ? ->]. split_and!; [done|by rewrite last_snoc| |].
  - exists root. split; apply Hin; unfold h; set_solver.
  - eexists vars, _, visited. split_and!; [apply Hin; unfold h; set_solver| |].
    + apply Hin. unfold h. apply in_last.
    + eapply Forall_impl; [exact Hall|]. intros line. apply was_set_mono, sub_snoc.
Qed.
End environment.

(** ** Witnesses *)

(** The first of two builds fails while the second cannot be prepared. *)
Definition racy_events : list BEvent :=
  [EvMain None; EvMain None; EvMain None; EvBuild 0 (inr "no capacity"); EvBuild 0 (inl []);
   EvMain (Some "no access"); EvBuild 0 (inl []); EvMain None; EvBuild 0 (inl []); EvMain None;
   EvBuild 0 (inl []); EvBuild 0 (inl []); EvMain None; EvMain None].

Definition racy_end : Builds := default (builds_start [] false) (bsteps racy_events (builds_start ["a"; "b"] false)).

(** One of the two errors is lost. *)
Example lost_error : build_returned racy_end = Some ("", Some (Multi [Errorf "no access"])).
Proof. vm_compute. reflexivity. Qed.

Lemma image_Build_correct_witness :
  answer_name <$> b_answers racy_end ≡ₚ ["a"; "b"] ∧
  (∃ ids, "" = Join ids ", " ∧ ids ≡ₚ all_ids racy_end) ∧
  (Some (Multi [Errorf "no access"]) = None ↔ ∀ a, a ∈ b_answers racy_end → answer_failed a = false).
Proof. apply (image_Build_correct ["a"; "b"] false racy_events racy_end); vm_compute; reflexivity. Defined.

Lemma image_Build_terminates_witness :
  Acc follows racy_end ∧
  ((∀ e, e ≠ EvDone → bstep e racy_end = None) →
   is_Some (build_returned racy_end) ∧ ∀ i g, b_gs racy_end !! i = Some g → bg_watcher g = WEnded).
Proof. apply (image_Build_terminates ["a"; "b"] false racy_events racy_end). vm_compute. reflexivity. Defined.
