(* ===== verification/PackerBuild.v ===== *)
(** * PackerBuild: building several images

    [Build] of [src/pkg/packer/packer.go] starts a goroutine per image; each
    takes the lock, builds its image ([ImageBuild]), adds an error to the result
    and releases the lock.  [pstep] executes one event of an interleaving; what
    the build of an image returns, and whether the context is done after it,
    are part of the events.

    [Images.Build] is the same as a fold over the images in some order: the
    theorem shows that the goroutines do just that, in the order in which they
    get the lock. *)

From S2P Require Import Prelude Images.

(** A goroutine: waiting for the lock; with the lock, in [image.Build]; with its
    result; with the result recorded; ended. *)
Inductive IPhase := IWaiting | IBuilding | IBuilt (out : string + error) | IRecorded | IEnded.

Record Builders := {
  pb_gs : list IPhase;
  pb_lock : option nat;
  pb_result : option error;
  pb_returned : bool;
  pb_log : list (nat * (string + error) * option error);
}.

Inductive PEvent :=
| PLock (i : nat)
| PBuilt (i : nat) (out : string + error)
| PRecord (i : nat) (ctx : option error)
| PUnlock (i : nat)
| PReturn.

(** The result after a build. *)
Definition record_result (result : option error) (out : string + error) (ctx : option error) : option error :=
  match out with
  | inr err => Append result (Some err)
  | inl _ => match ctx with Some err => Append result (Some err) | None => result end
  end.

Definition ended_g (g : IPhase) : bool := match g with IEnded => true | _ => false end.

Definition set_p (i : nat) (g : IPhase) (p : Builders) : Builders := {| p with pb_gs := <[i := g]> (pb_gs p) |}.

Definition pstep (e : PEvent) (p : Builders) : option Builders :=
  match e with
  | PLock i =>
      match pb_gs p !! i, pb_lock p with
      | Some IWaiting, None => Some (set_p i IBuilding {| p with pb_lock := Some i |})
      | _, _ => None
      end
  | PBuilt i out => match pb_gs p !! i with Some IBuilding => Some (set_p i (IBuilt out) p) | _ => None end
  | PRecord i ctx =>
      match pb_gs p !! i with
      | Some (IBuilt out) =>
          Some (set_p i IRecorded {| p with pb_result := record_result (pb_result p) out ctx;
                                            pb_log := pb_log p ++ [(i, out, ctx)] |})
      | _ => None
      end
  | PUnlock i => match pb_gs p !! i with Some IRecorded => Some (set_p i IEnded {| p with pb_lock := None |}) | _ => None end
  | PReturn => if pb_returned p then None else if forallb ended_g (pb_gs p) then Some {| p with pb_returned := true |} else None
  end.

Fixpoint psteps (es : list PEvent) (p : Builders) : option Builders :=
  match es with
  | [] => Some p
  | e :: es' => p' ← pstep e p; psteps es' p'
  end.

(** After [Initialize] of Puppet has succeeded. *)
Definition builders_start (n : nat) : Builders :=
  {| pb_gs := replicate n IWaiting; pb_lock := None; pb_result := None; pb_returned := false; pb_log := [] |}.

(** ** The invariant *)
Definition has_lock (g : IPhase) : bool := match g with IBuilding | IBuilt _ | IRecorded => true | _ => false end.
Definition is_recorded (g : IPhase) : bool := match g with IRecorded | IEnded => true | _ => false end.

Definition logged (log : list (nat * (string + error) * option error)) : list nat := (λ x, x.1.1) <$> log.

Definition fold_log (log : list (nat * (string + error) * option error)) : option error :=
  foldl (λ r x, record_result r x.1.2 x.2) None log.

Record p_ok (p : Builders) : Prop := {
  po_lock : ∀ i g, pb_gs p !! i = Some g → has_lock g = true ↔ pb_lock p = Some i;
  po_log : ∀ i, i ∈ logged (pb_log p) ↔ ∃ g, pb_gs p !! i = Some g ∧ is_recorded g = true;
  po_once : NoDup (logged (pb_log p));
  po_result : pb_result p = fold_log (pb_log p);
  po_ret : pb_returned p = true → ∀ i g, pb_gs p !! i = Some g → g = IEnded;
}.

Lemma builders_start_ok n : p_ok (builders_start n).
Proof.
  split; cbn.
  - intros i g [-> _]%lookup_replicate. done.
  - intros i. split; [set_solver|]. intros (g & [-> _]%lookup_replicate & ?). done.
  - apply NoDup_nil_2.
  - done.
  - done.
Qed.

(** A goroutine does a step that records nothing. *)
Lemma set_p_ok p p' i g g' :
  p_ok p → pb_gs p !! i = Some g → g ≠ IEnded → pb_gs p' = <[i := g']> (pb_gs p) → is_recorded g' = is_recorded g →
  pb_log p' = pb_log p → pb_result p' = pb_result p → pb_returned p' = pb_returned p →
  (has_lock g' = true ↔ pb_lock p' = Some i) → (∀ j, j ≠ i → pb_lock p' = Some j ↔ pb_lock p = Some j) → p_ok p'.
Proof.
  intros [H1 H2 H3 H4 H5] Hi Hne Egs Hrec Elog Eres Eret Hl Hother. pose proof (lookup_lt_Some _ _ _ Hi) as Hlt. split.
  - intros j g0. rewrite Egs. destruct (decide (j = i)) as [->|Hji].
    + rewrite list_lookup_insert_eq by done. by intros [= <-].
    + rewrite list_lookup_insert_ne by done. intros Hj. rewrite Hother by done. by apply H1.
  - intros j. rewrite Elog, H2, Egs. destruct (decide (j = i)) as [->|Hji].
    + rewrite list_lookup_insert_eq, Hi by done. split; intros (g0 & [= <-] & ?); eexists; (split; [done|congruence]).
    + by rewrite list_lookup_insert_ne.
  - by rewrite Elog.
  - by rewrite Elog, Eres.
  - rewrite Eret. intros Hret. by destruct Hne, (H5 Hret i g Hi).
Qed.

Lemma record_ok p i out ctx :
  p_ok p → pb_gs p !! i = Some (IBuilt out) →
  p_ok (set_p i IRecorded {| p with pb_result := record_result (pb_result p) out ctx; pb_log := pb_log p ++ [(i, out, ctx)] |}).
Proof.
  intros [H1 H2 H3 H4 H5] Hi. pose proof (lookup_lt_Some _ _ _ Hi) as Hlt. split; cbn.
  - intros j g0. destruct (decide (j = i)) as [->|Hji].
    + rewrite list_lookup_insert_eq by done. intros [= <-]. by rewrite <- (H1 i _ Hi).
    + rewrite list_lookup_insert_ne by done. apply H1.
  - intros j. unfold logged in *. rewrite fmap_app, elem_of_app, H2. cbn. rewrite list_elem_of_singleton. destruct (decide (j = i)) as [->|Hji].
    + rewrite list_lookup_insert_eq by done. split; [by eauto|by right].
    + rewrite list_lookup_insert_ne by done. naive_solver.
  - unfold logged in *. rewrite fmap_app. apply NoDup_app. split_and!; [done| |apply NoDup_singleton].
    intros j Hj ->%list_elem_of_singleton. apply H2 in Hj as (g & Hg & Hr). cbn in Hg. rewrite Hi in Hg. by simplify_eq.
  - unfold fold_log in *. rewrite foldl_app. cbn. by rewrite <- H4.
  - intros Hret. by specialize (H5 Hret i _ Hi).
Qed.

Lemma pstep_ok e p p' : p_ok p → pstep e p = Some p' → p_ok p'.
Proof.
  intros Hok. pose proof Hok as [H1 H2 H3 H4 H5]. destruct e as [i|i out|i ctx|i|]; cbn.
  - destruct (pb_gs p !! i) as [[]|] eqn:Hi; try done. destruct (pb_lock p) eqn:Hl; [done|]. intros [= <-].
    eapply (set_p_ok p); try done. intros j Hj. cbn. rewrite Hl. split; intros; congruence.
  - destruct (pb_gs p !! i) as [[]|] eqn:Hi; try done. intros [= <-]. eapply (set_p_ok p); try done.
    by rewrite <- (H1 i _ Hi).
  - destruct (pb_gs p !! i) as [[]|] eqn:Hi; try done. intros [= <-]. by apply record_ok.
  - destruct (pb_gs p !! i) as [[]|] eqn:Hi; try done. intros [= <-]. assert (pb_lock p = Some i) as Hl by (by apply (H1 i _ Hi)).
    eapply (set_p_ok p); try done. intros j Hj. cbn. split; intros; congruence.
  - destruct (pb_returned p); [done|]. destruct (forallb ended_g (pb_gs p)) eqn:Hall; [|done]. intros [= <-]. split; cbn; try done.
    intros _ i g Hi. rewrite forallb_forall in Hall. specialize (Hall g). rewrite <- list_elem_of_In in Hall.
    specialize (Hall (list_elem_of_lookup_2 _ _ _ Hi)). by destruct g.
Qed.

Lemma psteps_ok es p p' : p_ok p → psteps es p = Some p' → p_ok p'.
Proof.
  revert p. induction es as [|e es IH]; intros p Hok; cbn; [by intros [= <-]|].
  destruct (pstep e p) as [p1|] eqn:He; [|done]. intros Hes. by eapply IH, Hes; eapply pstep_ok.
Qed.

Lemma pstep_length e p p' : pstep e p = Some p' → length (pb_gs p') = length (pb_gs p).
Proof.
  destruct e as [i|i out|i ctx|i|]; cbn; try (destruct (pb_gs p !! i) as [[]|]; try done; try destruct (pb_lock p); try done;
    intros [= <-]; apply length_insert). destruct (pb_returned p); [done|]. destruct (forallb _ _); [|done]. by intros [= <-].
Qed.

Lemma psteps_length es p p' : psteps es p = Some p' → length (pb_gs p') = length (pb_gs p).
Proof.
  revert p. induction es as [|e es IH]; intros p; cbn; [by intros [= <-]|].
  destruct (pstep e p) as [p1|] eqn:He; [|done]. intros Hes. rewrite (IH _ Hes). by eapply pstep_length.
Qed.

(** ** The fold over the images *)
Definition named_log (names : list string) (log : list (nat * (string + error) * option error))
    : list (string * ((string + error) * option error)) :=
  omap (λ x, (λ n, (n, (x.1.2, x.2))) <$> names !! x.1.1) log.

Lemma fold_named (m : gmap string ((string + error) * option error)) l r :
  (∀ x, x ∈ l → m !! x.1 = Some x.2) →
  foldl (build_result (λ n, default (inl "") (fst <$> m !! n)) (λ n, m !! n ≫= snd)) r l.*1 =
  foldl (λ r x, record_result r x.2.1 x.2.2) r l.
Proof.
  revert r. induction l as [|[n [out ctx]] l IH]; intros r Hl; [done|]. cbn.
  rewrite IH by (intros x Hx; apply Hl; by right). f_equal. pose proof (Hl (n, (out, ctx)) ltac:(by left)) as Hm. cbn in Hm.
  unfold build_result, record_result. by rewrite Hm.
Qed.

Lemma named_log_elem names log n v :
  (n, v) ∈ named_log names log ↔ ∃ i, names !! i = Some n ∧ (i, v.1, v.2) ∈ log.
Proof.
  unfold named_log. rewrite list_elem_of_omap. split.
  - intros ([[i out] ctx] & Hin & Hx). cbn in Hx. destruct (names !! i) as [n0|] eqn:Hi; [|done]. cbn in Hx. simplify_eq. eauto.
  - intros (i & Hi & Hin). exists (i, v.1, v.2). split; [done|]. cbn. rewrite Hi. by destruct v.
Qed.

Lemma named_log_names names log :
  (∀ i, i ∈ logged log → i < length names) → (named_log names log).*1 = omap (names !!.) (logged log).
Proof.
  unfold named_log, logged. induction log as [|[[i out] ctx] log IH]; intros Hlt; [done|]. cbn.
  destruct (lookup_lt_is_Some_2 names i) as [n Hn]; [apply Hlt; by left|]. rewrite Hn. cbn. f_equal. apply IH. intros j Hj. apply Hlt. by right.
Qed.

Lemma fold_log_named names log r :
  (∀ i, i ∈ logged log → i < length names) →
  foldl (λ r x, record_result r x.2.1 x.2.2) r (named_log names log) = foldl (λ r x, record_result r x.1.2 x.2) r log.
Proof.
  unfold named_log, logged. revert r. induction log as [|[[i out] ctx] log IH]; intros r Hlt; [done|]. cbn.
  destruct (lookup_lt_is_Some_2 names i) as [n Hn]; [apply Hlt; by left|]. rewrite Hn. cbn. apply IH. intros j Hj. apply Hlt. by right.
Qed.

Lemma omap_seq (names : list string) : omap (names !!.) (seq 0 (length names)) = names.
Proof.
  cut (∀ pre, omap ((pre ++ names) !!.) (seq (length pre) (length names)) = names); [by intros H; apply (H [])|].
  induction names as [|n names IH]; intros pre; [done|]. cbn. rewrite list_lookup_middle by done. f_equal.
  specialize (IH (pre ++ [n])). rewrite length_app, <- app_assoc in IH. cbn in IH. by rewrite Nat.add_1_r in IH.
Qed.

(** C29: Building several images, for every interleaving of their goroutines: one
    image at most is built at a time, and when [Build] returns, its result is
    that of building all the images one after the other, each once, in some
    order, with what each build returned: no error is lost. *)
Theorem packer_Build_refines names es p :
  NoDup names → psteps es (builders_start (length names)) = Some p →
  (∀ i j g g', pb_gs p !! i = Some g → pb_gs p !! j = Some g' → has_lock g = true → has_lock g' = true → i = j) ∧
  (pb_returned p = true →
   ∃ build ctx order, order ≡ₚ names ∧ ErrorOrNil (pb_result p) = Build None build ctx order ∧
     ∀ i name, names !! i = Some name → (i, build name, ctx name) ∈ pb_log p).
Proof.
  intros Hnames Hes. pose proof (psteps_ok _ _ _ (builders_start_ok _) Hes) as [H1 H2 H3 H4 H5].
  apply psteps_length in Hes. cbn in Hes. rewrite length_replicate in Hes. split.
  { intros i j g g' Hi Hj Hg Hg'. apply (H1 _ _ Hi) in Hg. apply (H1 _ _ Hj) in Hg'. congruence. }
  intros Hret. assert (∀ i, i ∈ logged (pb_log p) ↔ i < length names) as Hin.
  { intros i. rewrite H2, <- Hes. split; [intros (g & Hg & _); by eapply lookup_lt_Some|].
    intros [g Hg]%lookup_lt_is_Some_2. exists g. split; [done|]. by rewrite (H5 Hret i g Hg). }
  assert (logged (pb_log p) ≡ₚ seq 0 (length names)) as Hperm.
  { apply NoDup_Permutation; [done|apply NoDup_seq|]. intros i. rewrite Hin, elem_of_seq. lia. }
  set (l := named_log names (pb_log p)). assert (l.*1 ≡ₚ names) as Hl.
  { unfold l. rewrite named_log_names by (intros i; by apply Hin). rewrite Hperm. by rewrite omap_seq. }
  set (m := list_to_map l : gmap string ((string + error) * option error)).
  assert (∀ x, x ∈ l → m !! x.1 = Some x.2) as Hm.
  { intros [n v] Hx. apply elem_of_list_to_map; [by rewrite Hl|done]. }
  exists (λ n, default (inl "") (fst <$> m !! n)), (λ n, m !! n ≫= snd), l.*1. split_and!; [done| |].
  - unfold Build. rewrite fold_named by done. unfold l. rewrite fold_log_named by (intros i; by apply Hin). by rewrite H4.
  - intros i name Hi. assert (name ∈ l.*1) as (x & -> & Hx)%list_elem_of_fmap by (rewrite Hl; by eapply list_elem_of_lookup_2).
    rewrite (Hm x Hx). destruct x as [n v]. cbn. apply named_log_elem in Hx as (j & Hj & Hx).
    assert (i = j) as -> by exact (NoDup_lookup names i j n Hnames Hi Hj). by destruct v.
Qed.

(** ** Witness *)
Definition two_images : list PEvent :=
  [PLock 1; PBuilt 1 (inr (Errorf "no capacity")); PRecord 1 None; PUnlock 1;
   PLock 0; PBuilt 0 (inl "ami-1"); PRecord 0 None; PUnlock 0; PReturn].

Definition two_end : Builders := default (builders_start 0) (psteps two_images (builders_start 2)).

Lemma packer_Build_refines_witness :
  (∀ i j g g', pb_gs two_end !! i = Some g → pb_gs two_end !! j = Some g' → has_lock g = true → has_lock g' = true → i = j) ∧
  (pb_returned two_end = true →
   ∃ build ctx order, order ≡ₚ ["centos-puppet-agent"; "jenkins"] ∧ ErrorOrNil (pb_result two_end) = Build None build ctx order ∧
     ∀ i name, ["centos-puppet-agent"; "jenkins"] !! i = Some name → (i, build name, ctx name) ∈ pb_log two_end).
Proof.
  apply (packer_Build_refines ["centos-puppet-agent"; "jenkins"] two_images two_end).
  - apply (bool_decide_unpack _). vm_compute. exact I.
  - vm_compute. reflexivity.
Defined.
