(* ===== verification/AwsSession.v ===== *)
(** * AwsSession: sessions, credentials and clients of AWS

    The parts of [src/pkg/tarmak/provider/amazon/amazon.go] that make a session
    ([Session], [vaultSession], [readVaultToken]), keep it and the clients made
    from it ([EC2], [S3], [KMS], [DynamoDB], [Route53], [Reset]), hand the
    credentials to other programs ([Environment]) and check them ([Verify]);
    and of [kv.go] the two names read from the output of Terraform.

    What the environment, files, Vault and AWS answer is the record [Outside];
    an answer can differ at every use. *)

From S2P Require Import Prelude.

Record Creds := { AccessKeyID : string; SecretAccessKey : string; SessionToken : string }.

(** Where the credentials of a session come from. *)
Inductive CredSource := FromVault (c : Creds) | FromProfile (profile : string).

Record AwsSession := { se_region : string; se_source : CredSource }.

(** A value of a secret: a string or something else. *)
Inductive secret_value := SString (s : string) | SOther.

Record Outside := {
  o_vault_client : option error;
  o_VAULT_TOKEN : string;
  o_token_file : string + error;
  (** with the token, if one was set *)
  o_read : option string → string → option (option (gmap string secret_value)) + error;
  o_new_session : option error;
  o_profile : string → Creds + error;
}.

(** The settings of the provider a session depends on. *)
Record Settings := { VaultPath : string; Profile : string; Region : string }.

Record Clients := {
  ac_session : option AwsSession;
  ac_ec2 : option AwsSession;
  ac_s3 : option AwsSession;
  ac_kms : option AwsSession;
  ac_dynamodb : option AwsSession;
  ac_route53 : option AwsSession;
}.

Definition no_clients : Clients :=
  {| ac_session := None; ac_ec2 := None; ac_s3 := None; ac_kms := None; ac_dynamodb := None; ac_route53 := None |}.

Section sessions.
Context (o : Outside) (conf : Settings).

(** The loop over the keys of the secret. *)
Fixpoint read_values (data : gmap string secret_value) (keys : list string) : list string + error :=
  match keys with
  | [] => inl []
  | key :: keys' =>
      match data !! key with
      | None => inr (Errorf ("vault did not return data with key '" +:+ key +:+ "'"))
      | Some SOther => inr (Errorf ("vault did not return data with a string in key '" +:+ key +:+ "'"))
      | Some (SString v) =>
          match read_values data keys' with
          | inr err => inr err
          | inl vs => inl (v :: vs)
          end
      end
  end.

(** The token of the file, if the variable is not set; otherwise the client
    takes the variable's. *)
Definition vault_token : option string :=
  if decide (o_VAULT_TOKEN o = "") then
    match o_token_file o with inl t => Some t | inr _ => None end
  else Some (o_VAULT_TOKEN o).

(** [session.Must] panics on an error. *)
Definition must {A} (a : A) : GoM A := match o_new_session o with None => Ret a | Some _ => Panic end.

Definition vaultSession : GoM (AwsSession + error) :=
  match o_vault_client o with
  | Some err => Ret (inr err)
  | None =>
      match o_read o vault_token (VaultPath conf) with
      | inr err => Ret (inr err)
      | inl (Some (Some data)) =>
          match read_values data ["access_key"; "secret_key"; "security_token"] with
          | inr err => Ret (inr err)
          | inl values =>
              k ← index values 0;
              s ← index values 1;
              t ← index values 2;
              r ← must {| se_region := Region conf;
                          se_source := FromVault {| AccessKeyID := k; SecretAccessKey := s; SessionToken := t |} |};
              Ret (inl r)
          end
      | inl _ => Ret (inr (Errorf ("vault did not return data at path '" +:+ VaultPath conf +:+ "'")))
      end
  end.

Definition Session (a : Clients) : GoM (Clients * (AwsSession + error)) :=
  match ac_session a with
  | Some sess => Ret (a, inl sess)
  | None =>
      if decide (VaultPath conf ≠ "") then
        r ← vaultSession;
        Ret match r with
            | inr err => (a, inr err)
            | inl sess => ({| a with ac_session := Some sess |}, inl sess)
            end
      else
        sess ← must {| se_region := Region conf; se_source := FromProfile (Profile conf) |};
        Ret ({| a with ac_session := Some sess |}, inl sess)
  end.

(** The five clients are kept and made in the same way. *)
Definition client_of (get : Clients → option AwsSession) (set : AwsSession → Clients → Clients) (a : Clients)
    : GoM (Clients * (AwsSession + error)) :=
  match get a with
  | Some c => Ret (a, inl c)
  | None =>
      r ← Session a;
      Ret match r with
          | (a, inr err) => (a, inr (Errorf ("error getting Amazon session: " +:+ error_string err)))
          | (a, inl sess) => (set sess a, inl sess)
          end
  end.

Definition EC2 := client_of ac_ec2 (λ s a, {| a with ac_ec2 := Some s |}).
Definition S3 := client_of ac_s3 (λ s a, {| a with ac_s3 := Some s |}).
Definition KMS := client_of ac_kms (λ s a, {| a with ac_kms := Some s |}).
Definition DynamoDB := client_of ac_dynamodb (λ s a, {| a with ac_dynamodb := Some s |}).
Definition Route53 := client_of ac_route53 (λ s a, {| a with ac_route53 := Some s |}).

(** [sess.Config.Credentials.Get] *)
Definition get_creds (sess : AwsSession) : Creds + error :=
  match se_source sess with FromVault c => inl c | FromProfile p => o_profile o p end.

Definition aws_Environment (encrypted : bool) (a : Clients) : GoM (Clients * (list string + error)) :=
  r ← Session a;
  Ret match r with
      | (a, inr err) => (a, inr (Errorf ("error getting session: " +:+ error_string err)))
      | (a, inl sess) =>
          (a, match get_creds sess with
              | inr err => inr (Errorf ("error getting credentials: " +:+ error_string err))
              | inl c => inl ["AWS_ACCESS_KEY_ID=" +:+ AccessKeyID c; "AWS_SECRET_ACCESS_KEY=" +:+ SecretAccessKey c;
                              "AWS_SESSION_TOKEN=" +:+ SessionToken c; "AWS_DEFAULT_REGION=" +:+ Region conf;
                              "EBS_VOLUME_ENCRYPTED=" +:+ (if encrypted then "true" else "false")]
              end)
      end.

(** [Terraform.envVars] *)
Definition envVars (TF_LOG : string) (encrypted : bool) (a : Clients) : GoM (Clients * (list string + error)) :=
  r ← aws_Environment encrypted a;
  Ret match r with
      | (a, inr err) => (a, inr (Errorf ("error getting environment secrets from provider: " +:+ error_string err)))
      | (a, inl env) => (a, inl (["TF_IN_AUTOMATION=1"] ++ env ++ ["TF_LOG=" +:+ TF_LOG]))
      end.

(** [Verify], given the outcomes of the single checks and whether there are an
    environment and a cluster. *)
Definition VerifyAWSCredentials (regions : option error) (a : Clients) : GoM (Clients * option error) :=
  r ← EC2 a;
  Ret match r with
      | (a, inr err) => (a, Some err)
      | (a, inl _) =>
          (a, (λ err, Errorf ("there was a problem with veryfing your AWS credentials: " +:+ error_string err)) <$> regions)
      end.

Definition aws_Verify (regions : option error) (environment cluster : bool)
    (verifyAvailabilityZones verifyPublicZone verifyInstanceTypes : option error) (a : Clients) : GoM (Clients * option error) :=
  r ← VerifyAWSCredentials regions a;
  Ret match r with
      | (a, Some err) => (a, Some err)
      | (a, None) =>
          let result := if environment : bool then AppendIf None verifyAvailabilityZones else None in
          let result := AppendIf result verifyPublicZone in
          (a, if cluster : bool then AppendIf result verifyInstanceTypes else result)
      end.
End sessions.

(** [Reset]: "this clears all cached state from the provider". *)
Definition reset_clients (a : Clients) : Clients :=
  {| a with ac_dynamodb := None; ac_session := None; ac_s3 := None; ac_ec2 := None; ac_route53 := None |}.

(** ** Uses of the provider *)
Inductive AwsOp := UseEC2 | UseS3 | UseKMS | UseDynamoDB | UseRoute53 | UseEnvironment (encrypted : bool) | UseReset.

Definition is_reset (op : AwsOp) : bool := match op with UseReset => true | _ => false end.

Definition aws_op (op : AwsOp) (o : Outside) (conf : Settings) (a : Clients) : GoM Clients :=
  match op with
  | UseEC2 => fst <$> EC2 o conf a
  | UseS3 => fst <$> S3 o conf a
  | UseKMS => fst <$> KMS o conf a
  | UseDynamoDB => fst <$> DynamoDB o conf a
  | UseRoute53 => fst <$> Route53 o conf a
  | UseEnvironment encrypted => fst <$> aws_Environment o conf encrypted a
  | UseReset => Ret (reset_clients a)
  end.

(** Each use may find other settings and answers. *)
Abbreviation use := (AwsOp * Outside * Settings)%type.

Fixpoint aws_run (uses : list use) (a : Clients) : GoM Clients :=
  match uses with
  | [] => Ret a
  | (op, o, conf) :: uses' => a ← aws_op op o conf a; aws_run uses' a
  end.

(** ** Where a session comes from *)
Definition made_with (o : Outside) (conf : Settings) (sess : AwsSession) : Prop :=
  se_region sess = Region conf ∧
  match se_source sess with
  | FromProfile p => VaultPath conf = "" ∧ p = Profile conf
  | FromVault c =>
      VaultPath conf ≠ "" ∧ ∃ data, o_read o (vault_token o) (VaultPath conf) = inl (Some (Some data)) ∧
        data !! "access_key" = Some (SString (AccessKeyID c)) ∧
        data !! "secret_key" = Some (SString (SecretAccessKey c)) ∧
        data !! "security_token" = Some (SString (SessionToken c))
  end.

Lemma read_values_ok data keys vs : read_values data keys = inl vs → Forall2 (λ k v, data !! k = Some (SString v)) keys vs.
Proof.
  revert vs. induction keys as [|k keys IH]; intros vs; cbn [read_values]; [intros [= <-]; constructor|].
  destruct (data !! k) as [[v|]|] eqn:Hk; [|done..]. destruct (read_values data keys) as [vs'|]; [|done].
  intros [= <-]. constructor; [done|]. by apply IH.
Qed.

Lemma vaultSession_made o conf sess : VaultPath conf ≠ "" → vaultSession o conf = Ret (inl sess) → made_with o conf sess.
Proof.
  intros Hp. unfold vaultSession. destruct (o_vault_client o); [done|].
  destruct (o_read o _ _) as [[[data|]|]|] eqn:Hr; [|done..].
  destruct (read_values data _) as [vs|] eqn:Hv; [|done]. apply read_values_ok in Hv.
  repeat match goal with Hf : Forall2 _ (_ :: _) _ |- _ => apply Forall2_cons_inv_l in Hf as (? & ? & ? & Hf & ->) end.
  apply Forall2_nil_inv_l in Hv as ->. unfold must. destruct (o_new_session o); cbn; [done|].
  intros [= <-]. split; [done|]. cbn. split; [done|]. by exists data.
Qed.

Lemma Session_made o conf a a' r : Session o conf a = Ret (a', r) →
  (a' = a ∧ ∀ s, r = inl s → ac_session a = Some s) ∨
  (ac_session a = None ∧ ∃ sess, r = inl sess ∧ a' = {| a with ac_session := Some sess |} ∧ made_with o conf sess).
Proof.
  unfold Session. destruct (ac_session a) eqn:Hs; [intros [= <- <-]; left; split; [done|]; by intros s [= <-]|].
  case_decide as Hp.
  - destruct (vaultSession o conf) as [[sess|err]|] eqn:Hv; cbn; [|intros [= <- <-]; left; split; [done|]; by intros s|done].
    intros [= <- <-]. right. split; [done|]. exists sess. split_and!; [done..|]. by apply vaultSession_made.
  - unfold must. destruct (o_new_session o); cbn; [done|]. intros [= <- <-]. right. split; [done|]. eexists. split_and!; [done..|].
    split; [done|]. cbn. split; [|done]. destruct (decide (VaultPath conf = "")); [done|]. by destruct Hp.
Qed.

(** ** The clients of a session *)

(** The clients that follow the session, the one of KMS excepted. *)
Definition followers (a : Clients) : list (option AwsSession) := [ac_ec2 a; ac_s3 a; ac_dynamodb a; ac_route53 a].

(** They belong to the session, which was made by a use after the last reset. *)
Record current (uses : list use) (a : Clients) : Prop := {
  cu_followers : ∀ c, Some c ∈ followers a → ac_session a = Some c;
  cu_session : ∀ c, ac_session a = Some c → ∃ before op o conf after,
    uses = before ++ (op, o, conf) :: after ∧ made_with o conf c ∧ forallb (λ u, negb (is_reset u.1.1)) ((op, o, conf) :: after) = true;
}.

Lemma current_snoc uses a op o conf : is_reset op = false → current uses a → current (uses ++ [(op, o, conf)]) a.
Proof.
  intros Hop [Hf Hs]. split; [done|]. intros c Hc. destruct (Hs c Hc) as (before & op' & o' & conf' & after & -> & Hm & Hr).
  exists before, op', o', conf', (after ++ [(op, o, conf)]). rewrite <- app_assoc. split_and!; [done..|].
  rewrite app_comm_cons, forallb_app, Hr. simpl. by rewrite Hop.
Qed.

Lemma current_same uses a a' :
  ac_session a' = ac_session a → followers a' = followers a → current uses a → current uses a'.
Proof. intros Hs Hf [H1 H2]. split; [by rewrite Hs, Hf|by rewrite Hs]. Qed.

Lemma Session_current uses op o conf a a' r :
  is_reset op = false → current uses a → Session o conf a = Ret (a', r) →
  current (uses ++ [(op, o, conf)]) a' ∧ ∀ s, r = inl s → ac_session a' = Some s.
Proof.
  intros Hop Hc Hs. apply Session_made in Hs as [[-> Hr]|(Hnone & sess & -> & -> & Hm)].
  - split; [by apply current_snoc|done].
  - split; [|by intros s [= <-]]. split.
    + cbn. intros c Hc'. apply (cu_followers _ _ Hc) in Hc'. congruence.
    + cbn. intros c [= <-]. exists uses, op, o, conf, []. split_and!; [done..|]. simpl. by rewrite Hop.
Qed.

Lemma client_current uses op o conf get set a a' r :
  is_reset op = false → current uses a → client_of o conf get set a = Ret (a', r) →
  (∀ s a, ac_session (set s a) = ac_session a) →
  (∀ s a c, Some c ∈ followers (set s a) → Some c ∈ followers a ∨ c = s) →
  current (uses ++ [(op, o, conf)]) a'.
Proof.
  intros Hop Hc Hcl Hset Hfol. unfold client_of in Hcl. destruct (get a); [injection Hcl as <- <-; by apply current_snoc|].
  destruct (Session o conf a) as [[a1 [sess|err]]|] eqn:Hs; cbn in Hcl; [|injection Hcl as <- <-|done].
  - injection Hcl as <- <-. apply (Session_current uses op) in Hs as [[Hf Hm] Hsess]; [|done..]. specialize (Hsess sess eq_refl).
    split; [|by rewrite Hset]. intros c [Hin| ->]%Hfol; rewrite Hset; [by apply Hf|done].
  - by apply (Session_current uses op) in Hs as [? _].
Qed.

Lemma aws_op_current uses op o conf a a' :
  current uses a → aws_op op o conf a = Ret a' → current (uses ++ [(op, o, conf)]) a'.
Proof.
  intros Hc Hop. destruct op as [| | | | |encrypted|]; cbn [aws_op] in Hop;
    [destruct (EC2 o conf a) as [[a1 r]|] eqn:H1|destruct (S3 o conf a) as [[a1 r]|] eqn:H1|
     destruct (KMS o conf a) as [[a1 r]|] eqn:H1|destruct (DynamoDB o conf a) as [[a1 r]|] eqn:H1|
     destruct (Route53 o conf a) as [[a1 r]|] eqn:H1| |]; try done; cbn in Hop; try injection Hop as <-.
  1-5: eapply client_current; [done|exact Hc|exact H1|done|]; unfold followers; cbn; set_solver.
  - unfold aws_Environment in Hop. destruct (Session o conf a) as [[a1 r]|] eqn:Hs; [|done].
    apply (Session_current uses (UseEnvironment encrypted)) in Hs as [? _]; [|done..]. destruct r; cbn in Hop; by injection Hop as <-.
  - split; [|done]. cbn. set_solver.
Qed.

Lemma aws_run_current uses before a a' : current before a → aws_run uses a = Ret a' → current (before ++ uses) a'.
Proof.
  revert before a. induction uses as [|[[op o] conf] uses IH]; intros before a Hc; cbn [aws_run].
  { intros [= <-]. by rewrite app_nil_r. }
  destruct (aws_op op o conf a) as [a1|] eqn:Hop; [|done]. cbn. intros Hr.
  assert (before ++ (op, o, conf) :: uses = (before ++ [(op, o, conf)]) ++ uses) as -> by (by rewrite <- app_assoc).
  apply (IH _ a1); [by apply (aws_op_current _ _ _ _ a)|done].
Qed.

(** The clients of AWS.  After any uses of the provider, with changing
    settings and answers, the clients of EC2, S3, DynamoDB and Route53 belong
    to the session that is kept; it was made after the last reset, with the
    region of that use and the credentials Vault had at the configured path,
    or those of the configured profile. *)
Theorem clients_current uses a : aws_run uses no_clients = Ret a → current uses a.
Proof. intros Hr. apply (aws_run_current uses [] no_clients); [|done]. split; cbn; [set_solver|done]. Qed.

(** The client of KMS survives a reset: it stays in the region of before. *)
Definition quiet_outside : Outside :=
  {| o_vault_client := None; o_VAULT_TOKEN := ""; o_token_file := inr (Errorf "no such file or directory");
     o_read := λ _ _, inl None; o_new_session := None; o_profile := λ _, inr (Errorf "no credentials") |}.

Definition profile_in (region : string) : Settings := {| VaultPath := ""; Profile := "dev"; Region := region |}.

Definition moved : list use :=
  [(UseKMS, quiet_outside, profile_in "eu-west-1"); (UseReset, quiet_outside, profile_in "us-east-1");
   (UseEC2, quiet_outside, profile_in "us-east-1"); (UseKMS, quiet_outside, profile_in "us-east-1")].

Theorem KMS_not_reset : ∃ a, aws_run moved no_clients = Ret a ∧
  se_region <$> ac_kms a = Some "eu-west-1" ∧ se_region <$> ac_ec2 a = Some "us-east-1".
Proof. eexists. split; [reflexivity|]. by split. Qed.

Lemma clients_current_witness : ∃ a, aws_run moved no_clients = Ret a ∧ current moved a.
Proof. eexists. split; [reflexivity|]. apply (clients_current moved). reflexivity. Defined.

(** ** Names from the output of Terraform

    The store for Vault's keys is made from the key and the name the hub's
    Terraform output has: output.go and kv.go. *)
Inductive tf_output := TString (s : string) | TList (l : list tf_output) | TOther.

Section kv.
Context (Unmarshal : string → gmap string tf_output + error).

(** [Terraform.Output], given the standard output of the command. *)
Definition Output (stdout : string + error) : gmap string tf_output + error :=
  match stdout with
  | inr err => inr (Errorf ("error getting terraform output: " +:+ error_string err))
  | inl text =>
      match Unmarshal text with
      | inr err => inr (Errorf ("error parsing JSON: " +:+ error_string err))
      | inl values => inl values
      end
  end.

Definition hub_output (stdout : string + error) : gmap string tf_output + error :=
  match Output stdout with
  | inr err => inr (Errorf ("error getting hub terraform output: " +:+ error_string err))
  | inl output => inl output
  end.

Definition secretsKMSKeyID (stdout : string + error) : string + error :=
  match hub_output stdout with
  | inr err => inr err
  | inl output =>
      match output !! "secrets_kms_arn" with
      | None => inr (Errorf "error could not find 'secrets_kms_arn' in terraform state output")
      | Some (TList []) => inr (Errorf "no list elements found for 'secrets_kms_arn'")
      | Some (TList (TString elem :: _)) => inl elem
      | Some (TList _) => inr (Errorf "first element for 'secrets_kms_arn' is not a string")
      | Some (TString v) => inl v
      | Some TOther => inr (Errorf "error unexpected type for 'secrets_kms_arn'")
      end
  end.

Definition vaultUnsealKeyName (stdout : string + error) : string + error :=
  match hub_output stdout with
  | inr err => inr err
  | inl output =>
      match output !! "vault_unseal_key_name" with
      | None => inr (Errorf "error could not find 'vault_unseal_key_name' in terraform vault output")
      | Some (TString v) => inl v
      | Some _ => inr (Errorf "error unexpected type for 'vault_unseal_key_name'")
      end
  end.

(** What the store is made from; [NewSSM] and [NewKMS] are its constructors. *)
Definition VaultKV {SSM Store} (NewSSM : AwsSession → string → SSM + error) (NewKMS : AwsSession → SSM → string → Store + error)
    (o : Outside) (conf : Settings) (kms_out name_out : string + error) (a : Clients) : GoM (Clients * (Store + error)) :=
  r ← Session o conf a;
  Ret match r with
      | (a, inr err) => (a, inr err)
      | (a, inl sess) =>
          (a, match secretsKMSKeyID kms_out with
              | inr err => inr err
              | inl kmsKeyID =>
                  match vaultUnsealKeyName name_out with
                  | inr err => inr err
                  | inl unsealKeyName =>
                      match NewSSM sess unsealKeyName with
                      | inr err => inr (Errorf ("error creating Amazon SSM kv store: " +:+ error_string err))
                      | inl ssm =>
                          match NewKMS sess ssm kmsKeyID with
                          | inr err => inr (Errorf ("error creating Amazon KMS ID kv store: " +:+ error_string err))
                          | inl store => inl store
                          end
                      end
                  end
              end)
      end.

(** A store is made from the session of the provider, the ARN in the output,
    alone or first in a list, and the name there. *)
Theorem VaultKV_correct {SSM Store} (NewSSM : AwsSession → string → SSM + error) (NewKMS : AwsSession → SSM → string → Store + error)
    o conf kms_out name_out a a' store :
  VaultKV NewSSM NewKMS o conf kms_out name_out a = Ret (a', inl store) →
  ∃ sess ssm out1 out2 arn name,
    ac_session a' = Some sess ∧ Output kms_out = inl out1 ∧ Output name_out = inl out2 ∧
    (out1 !! "secrets_kms_arn" = Some (TString arn) ∨ ∃ l, out1 !! "secrets_kms_arn" = Some (TList (TString arn :: l))) ∧
    out2 !! "vault_unseal_key_name" = Some (TString name) ∧ NewSSM sess name = inl ssm ∧ NewKMS sess ssm arn = inl store.
Proof.
  unfold VaultKV, secretsKMSKeyID, vaultUnsealKeyName, hub_output.
  destruct (Session o conf a) as [[a1 [sess|err]]|] eqn:Hs; cbn; [|done..].
  assert (ac_session a1 = Some sess) as Hsess.
  { apply Session_made in Hs as [[-> Hr]|(_ & s & [= ->] & -> & _)]; [by apply Hr|done]. }
  destruct (Output kms_out) as [out1|]; [|done].
  destruct (out1 !! "secrets_kms_arn") as [[arn|[|[arn| |] l]|]|] eqn:Hk; try done;
    (destruct (Output name_out) as [out2|]; [|done]); destruct (out2 !! "vault_unseal_key_name") as [[name| |]|] eqn:Hn; try done;
    destruct (NewSSM sess name) as [ssm|] eqn:H1; try done; destruct (NewKMS sess ssm arn) as [st|] eqn:H2; try done;
    intros [= <- <-]; exists sess, ssm, out1, out2, arn, name; split_and!; eauto.
Qed.
End kv.
