(* ===== verification/Dns.v ===== *)
(** * Dns: the public DNS zone of a provider

    [src/pkg/tarmak/provider/amazon/route53.go]: find the hosted zone of the
    provider or create it, remember it in the configuration, and compare its
    name servers with those the domain is delegated to.  What Route53 and the
    DNS answer are arguments. *)

From S2P Require Import Prelude Types Net Utils Provider.

Definition normalizeZone (zone : string) : string := ToLower (TrimRight "." zone).

Record HostedZone := { zone_Id : string; zone_Name : string }.

Section Zone.
Context (Route53 : option error).
Context (ListHostedZonesByName : option string → option string → list HostedZone + error).
Context (CreateHostedZone : string → HostedZone + error).
Context (name_servers : string → list string + error) (lookup_ns : string → list string + error).

Definition initPublicZone (p : ProviderAmazon) : HostedZone + error :=
  if decide (normalizeZone (pa_PublicZone p) = "") then inr (Errorf "no public zone given in provider config")
  else if decide (pa_PublicHostedZoneID p = "") then
    match Route53 with
    | Some err => inr err
    | None => CreateHostedZone (normalizeZone (normalizeZone (pa_PublicZone p)))
    end
  else inr (Errorf "can not auto create public zone as there is HostedZoneID given in provider config").

(** The request leaves out what is empty. *)
Definition nonempty (s : string) : option string := if decide (s = "") then None else Some s.

Definition list_zones (p : ProviderAmazon) : list HostedZone + error :=
  match Route53 with
  | Some err => inr err
  | None => ListHostedZonesByName (nonempty (normalizeZone (pa_PublicZone p))) (nonempty (pa_PublicHostedZoneID p))
  end.

Definition too_many (p : ProviderAmazon) : error :=
  Errorf ("more than one matching zone found, " +:+
          (if decide (pa_PublicHostedZoneID p = "") then ""
           else "hostedZoneID = " +:+ pa_PublicHostedZoneID p +:+ " ") +:+
          (if decide (normalizeZone (pa_PublicZone p) = "") then ""
           else "dnsName = " +:+ normalizeZone (pa_PublicZone p) +:+ " ")).

Definition matching (p : ProviderAmazon) (zones : list HostedZone) : list HostedZone :=
  filter (λ z, normalizeZone (zone_Name z) = normalizeZone (pa_PublicZone p)) zones.

(** The zone that is used. *)
Definition find_zone (p : ProviderAmazon) : HostedZone + error :=
  match list_zones p with
  | inr err => inr err
  | inl zones =>
      match matching p zones with
      | [] => initPublicZone p
      | [zone] => inl zone
      | _ => inr (too_many p)
      end
  end.

(** [split[2]] of an ID such as [/hostedzone/Z1], after a check that there are
    two parts. *)
Definition zone_id (zone : HostedZone) : GoM (string + error) :=
  let split := Split "/" (zone_Id zone) in
  if decide (length split < 2) then mret (inr (Errorf ("Unexpected ID " +:+ zone_Id zone)))
  else inl <$> index split 2.

Definition fmt_list (l : list string) : string := "[" +:+ Join l " " +:+ "]".

(** The delegation of the zone. *)
Definition check_delegation (p : ProviderAmazon) (zone : HostedZone) : option error :=
  match name_servers (zone_Id zone) with
  | inr err => Some (Errorf ("unabled to get zone with ID '" +:+ zone_Id zone +:+ "': " +:+ error_string err))
  | inl zoneNameservers =>
      match lookup_ns (pa_PublicZone p) with
      | inr err =>
          Some (Errorf ("error resolving NS records for " +:+ pa_PublicZone p +:+ " (" +:+ error_string err +:+
                        "), make sure the domain is delegated to these nameservers " +:+ fmt_list zoneNameservers))
      | inl dnsResult =>
          let dnsNameservers := sort_strings (map normalizeZone dnsResult) in
          let zoneNameservers := sort_strings zoneNameservers in
          if decide (dnsNameservers = zoneNameservers) then None
          else Some (Errorf ("public root dns nameservers " +:+ fmt_list dnsNameservers +:+
                             " and zone nameservers " +:+ fmt_list zoneNameservers +:+ " mismatch"))
      end
  end.

Definition verifyPublicZone (p : ProviderAmazon) : GoM (ProviderAmazon * option error) :=
  match find_zone p with
  | inr err => mret (p, Some err)
  | inl zone =>
      r ← zone_id zone;
      match (r : string + error) with
      | inr err => mret (p, Some err)
      | inl id =>
          let p := {| p with pa_PublicHostedZoneID := id; pa_PublicZone := normalizeZone (zone_Name zone) |} in
          mret (p, check_delegation p zone)
      end
  end.

(** ** Facts *)

Lemma ToLower_byte_idem c : ToLower_byte (ToLower_byte c) = ToLower_byte c.
Proof. by destruct c as [[] [] [] [] [] [] [] []]. Qed.

Lemma ToLower_byte_dot c : ToLower_byte c = "."%char ↔ c = "."%char.
Proof. by destruct c as [[] [] [] [] [] [] [] []]. Qed.

Lemma ToLower_idem s : ToLower (ToLower s) = ToLower s.
Proof. induction s as [|c s IH]; [done|]. cbn [ToLower]. by rewrite ToLower_byte_idem, IH. Qed.

Lemma ToLower_bytes s : ToLower s = string_of (map ToLower_byte (bytes_of s)).
Proof. induction s as [|c s IH]; [done|]. cbn. by rewrite IH. Qed.

Lemma ToLower_rev s : ToLower (String.rev s) = String.rev (ToLower s).
Proof.
  apply bytes_of_inj. rewrite bytes_of_rev, !ToLower_bytes, !String.list_ascii_of_string_of_list_ascii.
  by rewrite bytes_of_rev, fmap_reverse.
Qed.

Lemma rev_rev s : String.rev (String.rev s) = s.
Proof. apply bytes_of_inj. by rewrite !bytes_of_rev, reverse_involutive. Qed.

Lemma Trim_ToLower_Trim s :
  TrimLeft_rev "." (ToLower (TrimLeft_rev "." s)) = ToLower (TrimLeft_rev "." s).
Proof.
  induction s as [|c s IH]; [done|]. cbn [TrimLeft_rev]. case_decide as Hc; [done|].
  cbn [ToLower TrimLeft_rev]. rewrite decide_False; [done|]. by rewrite ToLower_byte_dot.
Qed.

Lemma normalizeZone_idem s : normalizeZone (normalizeZone s) = normalizeZone s.
Proof.
  unfold normalizeZone, TrimRight.
  by rewrite !ToLower_rev, rev_rev, Trim_ToLower_Trim, ToLower_idem.
Qed.

Lemma sort_strings_perm_iff l1 l2 : sort_strings l1 = sort_strings l2 ↔ l1 ≡ₚ l2.
Proof.
  split; [|apply sort_strings_proper]. intros E. by rewrite <-(sort_strings_perm l1), E, sort_strings_perm.
Qed.

Lemma list_zones_client p zones : list_zones p = inl zones → Route53 = None.
Proof. unfold list_zones. by destruct Route53. Qed.

Lemma initPublicZone_spec p zone :
  Route53 = None →
  initPublicZone p = inl zone ↔
  CreateHostedZone (normalizeZone (pa_PublicZone p)) = inl zone ∧
  normalizeZone (pa_PublicZone p) ≠ "" ∧ pa_PublicHostedZoneID p = "".
Proof.
  intros HR. unfold initPublicZone. rewrite HR, normalizeZone_idem. repeat case_decide; naive_solver.
Qed.

(** The zone is the only listed one with the name of the provider's zone, or
    there is none and it was created for a provider that names a zone and no
    ID. *)
Definition zone_for (p : ProviderAmazon) (zone : HostedZone) : Prop :=
  ∃ zones, list_zones p = inl zones ∧
    (matching p zones = [zone] ∨
     matching p zones = [] ∧ CreateHostedZone (normalizeZone (pa_PublicZone p)) = inl zone ∧
     normalizeZone (pa_PublicZone p) ≠ "" ∧ pa_PublicHostedZoneID p = "").

Lemma find_zone_spec p zone : find_zone p = inl zone ↔ zone_for p zone.
Proof.
  unfold find_zone, zone_for. destruct (list_zones p) as [zones|err] eqn:El;
    [|split; [done|by intros (? & ? & _)]].
  destruct (matching p zones) as [|z [|z' l]] eqn:E.
  - apply list_zones_client in El. split.
    + intros Hz. apply (initPublicZone_spec p zone El) in Hz as Hc. exists zones; split; [done|by right].
    + intros (zones' & [= <-] & [Hm|(_ & Hc)]); [by rewrite E in Hm|]. by apply initPublicZone_spec.
  - split; [intros [= <-]; exists zones; auto|].
    intros (zones' & [= <-] & [Hm|(Hm & _)]); rewrite E in Hm; [by injection Hm as ->|done].
  - split; [done|]. intros (zones' & [= <-] & [Hm|(Hm & _)]); by rewrite E in Hm.
Qed.

(** The public zone is accepted exactly when it is found or created and
    delegated: the name servers the DNS answers, without final dots and in
    lower case, are those of the zone, in any order.  The configuration then
    holds the ID and the name of that zone. *)
Theorem verifyPublicZone_correct p p' :
  verifyPublicZone p = Ret (p', None) ↔
  ∃ zone id servers dns,
    zone_for p zone ∧ zone_id zone = Ret (inl id) ∧
    p' = {| p with pa_PublicHostedZoneID := id; pa_PublicZone := normalizeZone (zone_Name zone) |} ∧
    name_servers (zone_Id zone) = inl servers ∧ lookup_ns (normalizeZone (zone_Name zone)) = inl dns ∧
    map normalizeZone dns ≡ₚ servers.
Proof.
  unfold verifyPublicZone. setoid_rewrite <-find_zone_spec.
  destruct (find_zone p) as [zone|err]; [|split; [done|by intros (? & ? & ? & ? & ? & _)]].
  destruct (zone_id zone) as [[id|err]|] eqn:Eid; cbn [mbind GoM_bind].
  2,3: split; [done|intros (z & i & s & d & [= <-] & Hi & _); by rewrite Eid in Hi].
  unfold check_delegation; cbn [pa_PublicZone].
  destruct (name_servers (zone_Id zone)) as [servers|err] eqn:En.
  2: split; [done|intros (z & i & s & d & [= <-] & _ & _ & Hn & _); by rewrite En in Hn].
  destruct (lookup_ns (normalizeZone (zone_Name zone))) as [dns|err] eqn:El.
  2: split; [done|intros (z & i & s & d & [= <-] & _ & _ & _ & Hd & _); by rewrite El in Hd].
  case_decide as Hs; rewrite sort_strings_perm_iff in Hs.
  - split; [intros [= <-]; exists zone, id, servers, dns; done|].
    intros (z & i & s & d & [= <-] & Hi & -> & _). rewrite Eid in Hi. by injection Hi as <-.
  - split; [done|]. intros (z & i & s & d & [= <-] & Hi & -> & Hn & Hd & Hp).
    rewrite En in Hn; rewrite El in Hd; injection Hn as <-; injection Hd as <-. done.
Qed.

End Zone.

(** The check of the zone's ID is off by one: an ID of two parts passes it,
    and reading the third part panics. *)
Theorem zone_id_panics zone a b :
  has_byte "/" a = false → has_byte "/" b = false → zone_Id zone = a +:+ String "/" b → zone_id zone = Panic.
Proof.
  intros Ha Hb Hz. unfold zone_id. rewrite Hz, Split_app, Split_no_sep by done. done.
Qed.

(** ** Witnesses *)

Definition example_provider : ProviderAmazon :=
  {| pa_VaultPath := ""; pa_AllowedAccountIDs := []; pa_Profile := ""; pa_BucketPrefix := ""; pa_KeyName := "";
     pa_PublicZone := "Example.com."; pa_PublicHostedZoneID := "" |}.

Example verifyPublicZone_example :
  verifyPublicZone
    None (λ _ _, inl [{| zone_Id := "/hostedzone/Z1"; zone_Name := "example.com." |};
          {| zone_Id := "/hostedzone/Z2"; zone_Name := "example.org." |}])
    (λ _, inr (Errorf "")) (λ _, inl ["ns-1.awsdns.com"; "ns-2.awsdns.org"])
    (λ _, inl ["ns-2.awsdns.org."; "NS-1.awsdns.com."]) example_provider
  = Ret ({| example_provider with pa_PublicHostedZoneID := "Z1"; pa_PublicZone := "example.com" |}, None).
Proof. vm_compute. reflexivity. Qed.

Lemma zone_id_panics_witness : zone_id {| zone_Id := "hostedzone/Z1"; zone_Name := "example.com." |} = Panic.
Proof. apply (zone_id_panics _ "hostedzone" "Z1"); reflexivity. Defined.
