(* ===== verification/Commands.v ===== *)
(** * Commands: what the commands do, in which order

    [src/pkg/tarmak/cmd.go] and [DestroyClusterMetadata] of
    [src/pkg/tarmak/tarmak.go].  A command is a program of calls ([Calls]) to
    the other components, the file system and the person at the terminal; the
    theorems hold whatever these answer.  [c.cluster], which the commands set,
    is an argument of the calls that use it. *)

From S2P Require Import Prelude Types Net Utils Provider Config Cluster Environment Calls.

(** ** Calls *)

Inductive Op :=
| Validate (cluster : string)
| Verify (cluster : string)
| WriteSSHConfig (cluster : string)
| EnsureRemoteResources (cluster : string)
| CheckDone
| TfPlan (cluster : string) (preApply : bool)
| TfApply (cluster : string)
| TfDestroy (cluster : string)
| TfForceUnlock (cluster lockID : string)
| TfReset
| UploadConfiguration (cluster : string)
| ReapplyConfiguration (cluster : string)
| WaitForConvergance (cluster : string)
| RemoveHostKeys (cluster : string)
| RemoveRemoteState (cluster : string)
| RemoveFolder (cluster : string)
| EnvironmentByName (name : string)
| Question (query : string)
| Stat (path : string)
| MkdirAll (path : string)
| Rename (from to : string)
| Now
| RemoveEnvironment (name : string).

(** A file is there, is not, or looking for it fails. *)
Inductive Status := Found | NotExist | StatError.

Definition answer (o : Op) : Type :=
  match o with
  | TfPlan _ _ | TfApply _ => bool * option error
  | TfReset => unit
  | EnvironmentByName _ => EnvT + error
  | Question _ => bool + error
  | Stat _ => Status
  | Now => string
  | _ => option error
  end.

#[local] Abbreviation Prog := (Calls.Prog answer).
#[local] Abbreviation event := (Calls.event answer).

(** [if err := m; err != nil { return err }; k] *)
Definition check (m k : Prog (option error)) : Prog (option error) :=
  err ← m; match err with Some e => mret (Some e) | None => k end.

Definition nil : Prog (option error) := mret None.

(** ** The commands *)

(** One step of [setupTerraform] and the look at the context after it. *)
Definition setup_step (m k : Prog (option error)) : Prog (option error) :=
  check m (check (call CheckDone) k).

Definition setupTerraform (cluster : string) : Prog (option error) :=
  setup_step (call (Validate cluster)) $
  setup_step (call (Verify cluster)) $
  setup_step (call (WriteSSHConfig cluster)) $
  setup_step (call (EnsureRemoteResources cluster)) nil.

Definition CmdPlan (cluster : string) : Prog (Z * option error) :=
  err ← setupTerraform cluster;
  match err with
  | Some e => mret (1%Z, Some e)
  | None => r ← call (TfPlan cluster false);
            let '(changesNeeded, err) := (r : bool * option error) in
            mret (if changesNeeded then 2%Z else 0%Z, err)
  end.

Record ApplyFlags := { ConfigurationOnly : bool; InfrastructureOnly : bool; WaitForConvergence : bool }.

Definition CmdApply (flags : ApplyFlags) (cluster : string) : Prog (option error) :=
  check (setupTerraform cluster) $
  r ← (if ConfigurationOnly flags then mret (true, None) else call (TfApply cluster));
  let '(hasChanged, err) := (r : bool * option error) in
  match err with
  | Some e => mret (Some e)
  | None =>
      check (if ConfigurationOnly flags then call (UploadConfiguration cluster) else nil) $
      check (if InfrastructureOnly flags then nil else call (ReapplyConfiguration cluster)) $
      check (call CheckDone) $
      if hasChanged && WaitForConvergence flags then call (WaitForConvergance cluster) else nil
  end.

Definition CmdDestroy (cluster : string) : Prog (option error) :=
  check (setupTerraform cluster) $
  check (call (TfDestroy cluster)) $
  err ← call (RemoveHostKeys cluster);
  mret ((λ e, Errorf ("failed to delete cluster known hosts file: " +:+ error_string e)) <$> (err : option error)).

Definition DestroyClusterMetadata (cluster : string) : Prog (option error) :=
  check (call (RemoveRemoteState cluster)) (call (RemoveFolder cluster)).

(** Destroy one cluster of an environment, with what it leaves. *)
Definition destroy_cluster (cluster : string) : Prog (option error) :=
  check (CmdDestroy cluster) (DestroyClusterMetadata cluster).

(** The loop over the clusters that are not the hub; without a hub its name
    cannot be read. *)
Fixpoint destroy_others (e : EnvT) (clusters : list ClusterT) : Prog (option error) :=
  match clusters with
  | [] => nil
  | c :: clusters' =>
      hub ← deref_prog (e_hub e);
      if decide (c_Name c = c_Name hub) then destroy_others e clusters'
      else check (destroy_cluster (c_Name c)) (_ ← call TfReset; destroy_others e clusters')
  end.

Definition ask (autoApprove : bool) (response : bool) (query : string) : Prog (bool + error) :=
  if autoApprove then mret (inl response) else call (Question query).

(** Move the folder of the environment to the archive. *)
Definition ensure_archive (archivePath : string) : Prog (option error) :=
  s ← call (Stat archivePath);
  match (s : Status) with
  | Found => nil
  | StatError => mret (Some (Errorf ("failed to get status of path " +:+ archivePath)))
  | NotExist => call (MkdirAll archivePath)
  end.

Definition move_folder (configPath : string) (e : EnvT) (environmentArchivePath : string) : Prog (option error) :=
  s ← call (Stat environmentArchivePath);
  match (s : Status) with
  | Found => mret (Some (Errorf ("already archived " +:+ e_Name e)))
  | StatError => mret (Some (Errorf ("failed to get status of path " +:+ environmentArchivePath)))
  | NotExist => call (Rename (configPath +:+ "/" +:+ e_Name e) environmentArchivePath)
  end.

Definition archive (configPath : string) (e : EnvT) : Prog (option error) :=
  let archivePath := configPath +:+ "/.archive" in
  now ← call Now;
  let environmentArchivePath := archivePath +:+ "/" +:+ e_Name e +:+ "-" +:+ (now : string) in
  check (ensure_archive archivePath) (move_folder configPath e environmentArchivePath).

(** [DestroyEnvironment] for the environment given as argument. *)
Definition DestroyEnvironment (configPath : string) (autoApprove : bool) (name : string) : Prog (option error) :=
  r ← call (EnvironmentByName name);
  match (r : EnvT + error) with
  | inr err => mret (Some err)
  | inl e =>
      r ← ask autoApprove true ("Destroy all clusters of " +:+ e_Name e +:+ "?");
      match (r : bool + error) with
      | inr err => mret (Some err)
      | inl false => mret (Some (Errorf ("not proceeding with destroy of environment " +:+ e_Name e)))
      | inl true =>
          check (destroy_others e (e_clusters e)) $
          hub ← deref_prog (e_hub e);
          check (destroy_cluster (c_Name hub)) $
          r ← ask autoApprove true "Move environment folder (SSH key and vault_root_token) to .archive?";
          match (r : bool + error) with
          | inr err => mret (Some err)
          | inl response =>
              check (if response then archive configPath e else nil) $
              r ← ask autoApprove response "Remove environment from tarmak.yaml?";
              match (r : bool + error) with
              | inr err => mret (Some err)
              | inl true => call (RemoveEnvironment (e_Name e))
              | inl false => nil
              end
          end
      end
  end.

Definition CmdForceUnlock (cluster : string) (args : list string) : Prog (option error) :=
  check (setupTerraform cluster) $
  match args with
  | [lockID] =>
      r ← call (Question ("Attempting force-unlock using lock ID [" +:+ lockID +:+ "]" +:+ String "010"
                "Are you sure you want to force-unlock the remote state? This can be potentially dangerous!"));
      match (r : bool + error) with
      | inr err => mret (Some err)
      | inl false => nil
      | inl true => call (TfForceUnlock cluster lockID)
      end
  | _ => mret (Some (Errorf ("expected single lock ID argument, got=" +:+ fmt_d (Z.of_nat (length args)))))
  end.

(** [kubePublicAPIEndpoint]: the configuration, unless the flag is given. *)
Definition kubePublicAPIEndpoint (conf : Cluster) (flag changed : bool) : bool :=
  let publicEndpoint := match cl_Kubernetes conf ≫= ck_APIServer with
                        | Some api => api_Public api
                        | None => false
                        end in
  if negb (Bool.eqb publicEndpoint flag) && changed then flag else publicEndpoint.

(** ** Facts *)

Lemma safe_check (P : list event → Op → Prop) h m k Q :
  safe P h m (λ h' r, match r with Some e => Q h' (Some e) | None => safe P h' k Q end) →
  safe P h (check m k) Q.
Proof.
  intros Hm; apply safe_bind. eapply safe_mono; [exact Hm|]. by intros h' [e|] _.
Qed.

Lemma safe_op (P : list event → Op → Prop) h o Q :
  P h o → (∀ a, Q (h ++ [Ev o a]) a) → safe P h (call o) Q.
Proof. done. Qed.

(** The cluster was checked, and its remote resources are there. *)
Definition setup_done (h : list event) (cluster : string) : Prop :=
  Ev (Validate cluster) None ∈ h ∧ Ev (Verify cluster) None ∈ h ∧
  Ev (WriteSSHConfig cluster) None ∈ h ∧ Ev (EnsureRemoteResources cluster) None ∈ h.

(** The cluster is gone: its resources, its remote state and its folder. *)
Definition destroyed (h : list event) (cluster : string) : Prop :=
  Ev (TfDestroy cluster) None ∈ h ∧ Ev (RemoveRemoteState cluster) None ∈ h ∧ Ev (RemoveFolder cluster) None ∈ h.

Lemma setup_done_mono h h' c : h ⊆ h' → setup_done h c → setup_done h' c.
Proof. intros Hs (? & ? & ? & ?); split_and!; by apply Hs. Qed.

Lemma destroyed_mono h h' c : h ⊆ h' → destroyed h c → destroyed h' c.
Proof. intros Hs (? & ? & ?); split_and!; by apply Hs. Qed.

(** The calls of the set-up do no harm. *)
Definition setup_op (o : Op) : Prop :=
  match o with Validate _ | Verify _ | WriteSSHConfig _ | EnsureRemoteResources _ | CheckDone => True | _ => False end.

Section Setup.
Context (P : list event → Op → Prop) (Hsetup : ∀ h o, setup_op o → P h o).

Lemma setupTerraform_safe c h : safe P h (setupTerraform c) (λ h' r, r = None → setup_done h' c).
Proof.
  unfold setupTerraform, setup_step.
  assert (Hdone : ∀ h k (Q : list event → option error → Prop), (∀ h', h ⊆ h' → safe P h' k Q) → (∀ h' e, Q h' (Some e)) →
    safe P h (check (call CheckDone) k) Q).
  { intros h0 k Q Hk He. apply safe_check, safe_op; [by apply Hsetup|]. intros [e|]; [apply He|].
    apply Hk. intros x Hx; by apply in_before. }
  apply safe_check, safe_op; [by apply Hsetup|]. intros [e|]; [done|]. apply Hdone; [|done]. intros h1 H1.
  apply safe_check, safe_op; [by apply Hsetup|]. intros [e|]; [done|]. apply Hdone; [|done]. intros h2 H2.
  apply safe_check, safe_op; [by apply Hsetup|]. intros [e|]; [done|]. apply Hdone; [|done]. intros h3 H3.
  apply safe_check, safe_op; [by apply Hsetup|]. intros [e|]; [done|]. apply Hdone; [|done]. intros h4 H4 _.
  assert (Hin : ∀ ev, ev ∈ [Ev (Validate c) None; Ev (Verify c) None; Ev (WriteSSHConfig c) None;
                            Ev (EnsureRemoteResources c) None] → ev ∈ h4); [|split_and!; apply Hin; set_solver].
  intros ev Hev. rewrite !elem_of_cons, elem_of_nil in Hev.
  destruct Hev as [->|[->|[->|[->|[]]]]]; eauto 10 using in_last, in_before.
Qed.

End Setup.

(** *** Destroying an environment *)

Section Destroy.
Context (configPath name : string) (autoApprove : bool).

(** Every cluster of the environment is gone, the hub too. *)
Definition all_destroyed (h : list event) (e : EnvT) : Prop :=
  (∀ c, c ∈ e_clusters e → destroyed h (c_Name c)) ∧ ∃ hub, e_hub e = Some hub ∧ destroyed h (c_Name hub).

Definition others_destroyed (h : list event) (e : EnvT) : Prop :=
  ∀ hub c, e_hub e = Some hub → c ∈ e_clusters e → c_Name c ≠ c_Name hub → destroyed h (c_Name c).

(** The environment was found and destroying its clusters was approved. *)
Definition approved (h : list event) (e : EnvT) : Prop :=
  Ev (EnvironmentByName name) (inl e) ∈ h ∧
  (autoApprove = true ∨ Ev (Question ("Destroy all clusters of " +:+ e_Name e +:+ "?")) (inl true) ∈ h).

(** The cluster may be destroyed: it was checked, it belongs to the
    environment, and if it is the hub all others are gone. *)
Definition may_destroy (h : list event) (cluster : string) : Prop :=
  ∃ e hub, approved h e ∧ setup_done h cluster ∧ e_hub e = Some hub ∧
    (cluster = c_Name hub ∧ others_destroyed h e ∨
     cluster ≠ c_Name hub ∧ cluster ∈ map c_Name (e_clusters e)).

Definition destroy_ok (h : list event) (o : Op) : Prop :=
  match o with
  | TfDestroy c => may_destroy h c
  | RemoveHostKeys c | RemoveRemoteState c | RemoveFolder c => Ev (TfDestroy c) None ∈ h ∧ may_destroy h c
  | Rename from to => ∃ e, approved h e ∧ all_destroyed h e ∧ from = configPath +:+ "/" +:+ e_Name e
  | RemoveEnvironment n => ∃ e, approved h e ∧ all_destroyed h e ∧ n = e_Name e
  | TfPlan _ _ | TfApply _ | TfForceUnlock _ _ | UploadConfiguration _ | ReapplyConfiguration _ => False
  | _ => True
  end.

Lemma approved_mono h h' e : h ⊆ h' → approved h e → approved h' e.
Proof. intros Hs (? & [?|?]); split; auto; right; by apply Hs. Qed.

Lemma others_mono h h' e : h ⊆ h' → others_destroyed h e → others_destroyed h' e.
Proof. intros Hs Ho hub c Hh Hc Hne. eapply destroyed_mono; [exact Hs|by eapply Ho]. Qed.

Lemma may_destroy_mono h h' c : h ⊆ h' → may_destroy h c → may_destroy h' c.
Proof.
  intros Hs (e & hub & Ha & Hd & Hh & Hc). exists e, hub. split_and!; [by eapply approved_mono|by eapply setup_done_mono|done|].
  destruct Hc as [[-> Ho]|Hc]; [left; split; [done|by eapply others_mono]|by right].
Qed.

(** Destroying one cluster, once it is approved. *)
Lemma destroy_cluster_safe e hub c h :
  approved h e → e_hub e = Some hub →
  (c = c_Name hub ∧ others_destroyed h e ∨ c ≠ c_Name hub ∧ c ∈ map c_Name (e_clusters e)) →
  safe destroy_ok h (destroy_cluster c) (λ h' r, r = None → destroyed h' c).
Proof.
  intros Ha Hh Hc. unfold destroy_cluster, CmdDestroy. apply safe_check, safe_check.
  eapply safe_mono; [apply setupTerraform_safe; by intros ? []|]. intros h1 [err|] H1 Hsetup; [done|].
  assert (Hmay : may_destroy h1 c).
  { exists e, hub. split_and!; [by eapply approved_mono|by apply Hsetup|done|].
    destruct Hc as [[-> Ho]|Hc]; [left; split; [done|by eapply others_mono]|by right]. }
  apply safe_check, safe_op; [done|]. intros [err|]; [done|].
  set (h2 := h1 ++ [_]). assert (H2 : Ev (TfDestroy c) None ∈ h2) by apply in_last.
  assert (Hmay2 : may_destroy h2 c) by (eapply may_destroy_mono; [apply sub_snoc|done]).
  apply safe_bind, safe_op; [done|]. intros [err|]; cbn [fmap option_fmap option_map]; [done|].
  apply safe_check, safe_op; [split; [by apply in_before|]; by eapply may_destroy_mono; [apply sub_snoc|]|].
  intros [err|]; [done|]. apply safe_op.
  - split; [by do 2 apply in_before|]. eapply may_destroy_mono; [|exact Hmay2].
    intros x Hx; by do 2 apply in_before.
  - intros [err|]; [done|]. intros _. split_and!; [by do 3 apply in_before|apply in_before, in_last|apply in_last].
Qed.

Lemma destroy_others_safe e clusters h :
  approved h e → (∀ c, c ∈ clusters → c ∈ e_clusters e) →
  safe destroy_ok h (destroy_others e clusters) (λ h' r,
    r = None → ∀ hub c, e_hub e = Some hub → c ∈ clusters → c_Name c ≠ c_Name hub → destroyed h' (c_Name c)).
Proof.
  revert h; induction clusters as [|c clusters IH]; intros h Ha Hin; cbn [destroy_others].
  { intros _ hub c _ Hc; by apply elem_of_nil in Hc. }
  apply safe_bind. destruct (e_hub e) as [hub|] eqn:Eh; cbn [deref_prog safe]; [|done].
  case_decide as Hc.
  - eapply safe_mono; [apply IH; [done|set_solver]|]. intros h1 r H1 Hr Hn hub' c' [= <-] [->|Hc']%elem_of_cons Hne;
      [done|by eapply Hr].
  - apply safe_check. eapply safe_mono.
    + apply (destroy_cluster_safe e hub); [done|done|]. right; split; [done|].
      apply list_elem_of_fmap_2, Hin. by left.
    + intros h1 [err|] H1 Hd; [done|]. apply safe_call; [done|]. intros [].
      eapply safe_mono; [apply IH; [|set_solver]|].
      * eapply approved_mono; [|exact Ha]. intros x Hx; by apply in_before, H1.
      * intros h2 r H2 Hr Hn hub' c' [= <-] [->|Hc']%elem_of_cons Hne; [|by eapply Hr].
        eapply destroyed_mono; [|by apply Hd]. intros x Hx; by apply H2, in_before.
Qed.

Lemma others_and_hub h e hub :
  e_hub e = Some hub → others_destroyed h e → destroyed h (c_Name hub) → all_destroyed h e.
Proof.
  intros Hh Ho Hd; split; [|by exists hub]. intros c Hc.
  destruct (decide (c_Name c = c_Name hub)) as [->|Hne]; [done|by eapply Ho].
Qed.

Lemma all_destroyed_mono h h' e : h ⊆ h' → all_destroyed h e → all_destroyed h' e.
Proof.
  intros Hs [Hall (hub & Hh & Hd)]; split; [intros c Hc; by eapply destroyed_mono; [exact Hs|apply Hall]|].
  exists hub; split; [done|by eapply destroyed_mono].
Qed.

Lemma archive_safe e h :
  approved h e → all_destroyed h e → safe destroy_ok h (archive configPath e) (λ _ _, True).
Proof.
  intros Ha Hd. unfold archive. apply safe_call; [done|]. intros now. apply safe_check.
  assert (Hmove : ∀ h' p, h ⊆ h' → safe destroy_ok h' (move_folder configPath e p) (λ _ _, True)).
  { intros h' p Hs. unfold move_folder. apply safe_call; [done|]. intros []; [done| |done].
    apply safe_op; [|done]. exists e. split_and!; [| |done].
    - eapply approved_mono; [|exact Ha]. intros x Hx; by apply in_before, Hs.
    - eapply all_destroyed_mono; [|exact Hd]. intros x Hx; by apply in_before, Hs. }
  unfold ensure_archive. apply safe_call; [done|].
  intros []; [|apply safe_op; [done|]; intros [err|]; [done|]|done]; apply Hmove; intros x Hx; eauto using in_before.
Qed.

(** The question, or none when everything is approved. *)
Lemma ask_safe response query h :
  safe destroy_ok h (ask autoApprove response query) (λ h' r, r = inl true →
    autoApprove = true ∨ Ev (Question query) (inl true) ∈ h').
Proof.
  unfold ask; destruct autoApprove; [by left|]. apply safe_op; [done|]. intros a ->; right; apply in_last.
Qed.

Lemma DestroyEnvironment_holds :
  safe destroy_ok [] (DestroyEnvironment configPath autoApprove name)
    (λ h r, r = None → ∃ e, approved h e ∧ all_destroyed h e).
Proof.
  unfold DestroyEnvironment. apply safe_call; [done|]. intros [e|err]; [|done].
  apply safe_bind. eapply safe_mono; [apply ask_safe|]. intros h1 [[]|err] H1 Hask; [|done|done].
  assert (Ha1 : approved h1 e) by (split; [apply H1; left|by apply Hask]).
  apply safe_check. eapply safe_mono; [by apply destroy_others_safe|]. intros h2 [err|] H2 Ho; [done|].
  specialize (Ho eq_refl). assert (Ho2 : others_destroyed h2 e) by (intros hub c Hh Hc; by apply Ho).
  assert (Ha2 : approved h2 e) by (by eapply approved_mono).
  apply safe_bind. destruct (e_hub e) as [hub|] eqn:Eh; cbn [deref_prog safe]; [|done].
  apply safe_check. eapply safe_mono; [apply (destroy_cluster_safe e hub); [done|done|by left]|].
  intros h3 [err|] H3 Hd; [done|]. assert (Hall3 : all_destroyed h3 e).
  { eapply others_and_hub; [done| |by apply Hd]. by eapply others_mono. }
  assert (Ha3 : approved h3 e) by (by eapply approved_mono).
  apply safe_bind. eapply safe_mono; [apply ask_safe|]. intros h4 [response|err] H4 _; [|done].
  assert (Ha4 : approved h4 e) by (by eapply approved_mono).
  assert (Hall4 : all_destroyed h4 e) by (by eapply all_destroyed_mono).
  apply safe_check. apply (safe_mono _ _ _ (λ _ _, True)); [destruct response; [by apply archive_safe|done]|].
  intros h5 [err|] H5 _; [done|]. apply safe_bind. eapply safe_mono; [apply ask_safe|]. intros h6 [[]|err] H6 _; [| |done].
  - apply safe_op.
    + exists e; split_and!; [|eapply all_destroyed_mono; [|exact Hall4]|done]; [eapply approved_mono; [|exact Ha4]|];
        (etrans; [exact H5|exact H6]).
    + intros r _. exists e. assert (Hs : h4 ⊆ h6 ++ [Ev (RemoveEnvironment (e_Name e)) r]) by
        (etrans; [exact H5|]; etrans; [exact H6|apply sub_snoc]).
      split; [by eapply approved_mono|by eapply all_destroyed_mono].
  - intros _. exists e. assert (Hs : h4 ⊆ h6) by (by etrans).
    split; [by eapply approved_mono|by eapply all_destroyed_mono].
Qed.

End Destroy.

(** ** Properties *)

(** C7: Destroying an environment is safe, whatever the calls answer: nothing
    is destroyed before the environment was found and destroying it approved;
    a cluster is destroyed only after it was validated, verified and its
    remote resources were ensured, the hub only after every other cluster is
    gone with its remote state and its folder; what a cluster leaves is
    removed only after Terraform destroyed it; and the environment is archived
    and removed from the configuration only after all clusters are gone.  When
    the command succeeds, they are. *)
Theorem DestroyEnvironment_safe configPath autoApprove name {S} (handle : ∀ o, S → S * answer o) s :
  let '(es, _, r) := run handle (DestroyEnvironment configPath autoApprove name) s in
  (∀ es1 ev es2, es = es1 ++ ev :: es2 → destroy_ok configPath name autoApprove es1 (ev_call ev)) ∧
  (r = Ret None → ∃ e, approved name autoApprove es e ∧ all_destroyed es e).
Proof.
  pose proof (safe_run handle _ [] _ _ s (DestroyEnvironment_holds configPath name autoApprove)) as H.
  destruct (run handle _ s) as [[es s'] r]. destruct H as [H1 H2]. split; [exact H1|]. intros ->. by apply (H2 None).
Qed.

(** *** Applying a cluster *)

(** The infrastructure is there: applied, or left alone with the
    configuration uploaded. *)
Definition infrastructure (flags : ApplyFlags) (cluster : string) (h : list event) : Prop :=
  if ConfigurationOnly flags then Ev (UploadConfiguration cluster) None ∈ h
  else ∃ changed, Ev (TfApply cluster) (changed, None) ∈ h.

Definition reapplied (flags : ApplyFlags) (cluster : string) (h : list event) : Prop :=
  InfrastructureOnly flags = false → Ev (ReapplyConfiguration cluster) None ∈ h.

(** Terraform changed nothing. *)
Definition unchanged (cluster : string) (h : list event) : Prop := Ev (TfApply cluster) (false, None) ∈ h.

Definition apply_ok (flags : ApplyFlags) (cluster : string) (h : list event) (o : Op) : Prop :=
  match o with
  | TfApply c => c = cluster ∧ ConfigurationOnly flags = false ∧ setup_done h c
  | UploadConfiguration c => c = cluster ∧ ConfigurationOnly flags = true ∧ setup_done h c
  | ReapplyConfiguration c => c = cluster ∧ InfrastructureOnly flags = false ∧ infrastructure flags c h
  | WaitForConvergance c =>
      c = cluster ∧ WaitForConvergence flags = true ∧ infrastructure flags c h ∧ reapplied flags c h
  | o => setup_op o
  end.

Lemma CmdApply_holds flags cluster :
  safe (apply_ok flags cluster) [] (CmdApply flags cluster) (λ h r,
    r = None → setup_done h cluster ∧ infrastructure flags cluster h ∧ reapplied flags cluster h ∧
      (WaitForConvergence flags = true → unchanged cluster h ∨ Ev (WaitForConvergance cluster) None ∈ h)).
Proof.
  unfold CmdApply. apply safe_check. eapply safe_mono; [apply setupTerraform_safe; by intros ? []|].
  intros h1 [err|] _ Hs; [done|]. specialize (Hs eq_refl). apply safe_bind.
  eapply (safe_mono _ _ _ (λ h r, setup_done h cluster ∧ (r.2 = None →
    if ConfigurationOnly flags then r.1 = true
    else Ev (TfApply cluster) (r.1, None) ∈ h))).
  { destruct (ConfigurationOnly flags) eqn:Ec; [by split|]. apply safe_op; [by split_and!|].
    intros [b err]; cbn. split; [eapply setup_done_mono; [|exact Hs]; intros x Hx; by apply in_before|].
    intros ->; apply in_last. }
  intros h2 [changed [err|]] _ [Hs2 Hch]; [done|]. specialize (Hch eq_refl); cbn in Hch.
  apply safe_check. eapply (safe_mono _ _ _ (λ h r, r = None → h2 ⊆ h ∧ infrastructure flags cluster h)).
  { unfold infrastructure. destruct (ConfigurationOnly flags) eqn:Ec; [|intros _; split; [done|by exists changed]].
    apply safe_op; [by split_and!|]. intros r ->; split; [intros x Hx; by apply in_before|apply in_last]. }
  intros h3 [err|] _ Hi; [done|]. destruct (Hi eq_refl) as [H3 Hi3]. clear Hi.
  assert (Hmono : ∀ h h', h ⊆ h' → infrastructure flags cluster h → infrastructure flags cluster h').
  { intros h h' Hsub. unfold infrastructure. destruct (ConfigurationOnly flags); [by intros ?; apply Hsub|].
    intros [b Hb]; exists b; by apply Hsub. }
  apply safe_check. eapply (safe_mono _ _ _ (λ h r, r = None → h3 ⊆ h ∧ reapplied flags cluster h)).
  { unfold reapplied. destruct (InfrastructureOnly flags) eqn:Ei; [done|].
    apply safe_op; [by split_and!|]. intros r ->; split; [intros x Hx; by apply in_before|intros _; apply in_last]. }
  intros h4 [err|] _ Hr; [done|]. destruct (Hr eq_refl) as [H4 Hr4]. clear Hr.
  apply safe_check, safe_op; [done|]. intros [err|]; [done|]. set (h5 := h4 ++ [_]).
  assert (H5 : h4 ⊆ h5) by (intros x Hx; by apply in_before).
  assert (Hs5 : setup_done h5 cluster) by (eapply setup_done_mono; [|exact Hs2]; etrans; [exact H3|by etrans]).
  assert (Hi5 : infrastructure flags cluster h5) by (eapply Hmono; [|exact Hi3]; by etrans).
  assert (Hr5 : reapplied flags cluster h5) by (intros Hf; by apply H5, Hr4).
  destruct (changed && WaitForConvergence flags) eqn:Ew.
  - apply andb_true_iff in Ew as [_ Hw]. apply safe_op; [by split_and!|]. intros r ->.
    assert (H6 : h5 ⊆ h5 ++ [Ev (WaitForConvergance cluster) None]) by (intros x Hx; by apply in_before).
    split_and!; [by eapply setup_done_mono|by eapply Hmono|intros Hf; by apply H6, Hr5|].
    intros _; right; apply in_last.
  - intros _; split_and!; [done..|]. intros Hw; left. rewrite Hw, andb_true_r in Ew; subst changed.
    destruct (ConfigurationOnly flags); [done|]. apply H5, H4, H3, Hch.
Qed.

(** C20: Applying a cluster does its parts in order, whatever they answer:
    nothing is applied before the cluster was validated, verified and its
    remote resources ensured; Terraform runs unless only the configuration is
    applied, which is uploaded then; the instances are told to reapply their
    configuration only after that succeeded, and not when only the
    infrastructure is applied; and the command waits for them last.  When it
    succeeds, all this has been done, the waiting unless Terraform had nothing
    to change. *)
Theorem CmdApply_safe flags cluster {S} (handle : ∀ o, S → S * answer o) s :
  let '(es, _, r) := run handle (CmdApply flags cluster) s in
  (∀ es1 ev es2, es = es1 ++ ev :: es2 → apply_ok flags cluster es1 (ev_call ev)) ∧
  (r = Ret None → setup_done es cluster ∧ infrastructure flags cluster es ∧ reapplied flags cluster es ∧
     (WaitForConvergence flags = true → unchanged cluster es ∨ Ev (WaitForConvergance cluster) None ∈ es)).
Proof.
  pose proof (safe_run handle _ [] _ _ s (CmdApply_holds flags cluster)) as H.
  destruct (run handle _ s) as [[es s'] r]. destruct H as [H1 H2]. split; [exact H1|]. intros ->. by apply (H2 None).
Qed.

(** ** Witnesses *)

Definition example_environment : EnvT :=
  let hub := new_cluster (Config.newCluster "dev" "hub") in
  {| e_conf := NewEnvironment 1 "dev" "" ""; e_hub := Some hub;
     e_clusters := [hub; new_cluster (Config.newCluster "dev" "prod")];
     e_provider := new_amazon (NewAmazonProfileProvider "aws" "dev") |}.

(** Everything succeeds, and every question is answered with yes. *)
Definition all_well (o : Op) (s : unit) : unit * answer o :=
  (s, match o as o return answer o with
      | TfPlan _ _ | TfApply _ => (true, None)
      | TfReset => ()
      | EnvironmentByName _ => inl example_environment
      | Question _ => inl true
      | Stat _ => NotExist
      | Now => "now"
      | _ => None
      end).

Lemma DestroyEnvironment_safe_witness :
  (run all_well (DestroyEnvironment "/tarmak" false "dev") ()).2 = Ret None ∧
  ∃ e, all_destroyed (run all_well (DestroyEnvironment "/tarmak" false "dev") ()).1.1 e.
Proof.
  split; [reflexivity|].
  destruct (DestroyEnvironment_safe "/tarmak" false "dev" all_well ()) as [_ H].
  destruct (H eq_refl) as (e & _ & He). exists e. exact He.
Defined.

Definition all_flags : ApplyFlags :=
  {| ConfigurationOnly := false; InfrastructureOnly := false; WaitForConvergence := true |}.

Lemma CmdApply_safe_witness :
  (run all_well (CmdApply all_flags "prod") ()).2 = Ret None ∧
  setup_done (run all_well (CmdApply all_flags "prod") ()).1.1 "prod".
Proof.
  split; [reflexivity|].
  destruct (CmdApply_safe all_flags "prod" all_well ()) as [_ H]. apply (H eq_refl).
Defined.
