(* ===== verification/Vault.v ===== *)
(** * Vault: initialising Vault and reaching its active node

    [src/pkg/tarmak/vault/vault.go] and [tunnel.go], and the calls
    [src/pkg/terraform/providers/tarmak/rpc/vault_cluster_status.go] and
    [vault_instance_role.go] that Terraform makes while it applies a cluster.

    Code that runs in sequence is a program of calls ([Calls]) to the file
    system, the tunnels, the nodes of Vault and the helper libraries.  The
    instances are numbered; call [NewTunnel pos] makes the tunnel of the
    instance at [pos].  [TunnelFromFQDNs], which asks all nodes at the same
    time, is a transition system of its goroutines. *)

From S2P Require Import Prelude Types Calls.

(** ** Calls *)

Record Health := { Initialized : bool; Sealed : bool; Standby : bool }.

Inductive VCall :=
| StatToken
| MkdirToken
| NewUUID
| WriteToken (content : string)
| ReadToken
| VaultKVWithParams
| AppendCertsFromPEM
| NewTunnel (pos : nat)
| TunnelStart (pos : nat)
| TunnelStop (pos : nat)
| InitStatus (pos : nat)
| SealStatus (pos : nat)
| SysHealth (pos : nat)
| Cancelled
| NewUnsealer (pos : nat)
| UnsealerInit (pos : nat) (rootToken : string).

(** [StatToken] answers whether the file is missing, [Cancelled] whether the
    context is done. *)
Definition answer (c : VCall) : Type :=
  match c with
  | StatToken | AppendCertsFromPEM | Cancelled => bool
  | NewUUID => string
  | ReadToken => string + error
  | TunnelStop _ => unit
  | InitStatus _ | SealStatus _ => bool + error
  | SysHealth _ => Health + error
  | _ => option error
  end.

#[local] Abbreviation Prog := (Calls.Prog answer).
#[local] Abbreviation event := (Calls.event answer).

(** ** The root token *)

Definition newline : string := String "010" "".

(** [unicode.IsSpace] on ASCII. *)
Definition IsSpace (c : ascii) : bool :=
  let n := nat_of_ascii c in (9 <=? n) && (n <=? 13) || (n =? 32).

Fixpoint trim_left (l : list ascii) : list ascii :=
  match l with
  | c :: l' => if IsSpace c then trim_left l' else l
  | [] => []
  end.

Definition TrimSpace (s : string) : string :=
  string_of (reverse (trim_left (reverse (trim_left (bytes_of s))))).

Definition RootToken (path : string) : Prog (string + error) :=
  missing ← call StatToken;
  if (missing : bool) then
    r ← call MkdirToken;
    match (r : option error) with
    | Some err => mret (inr (Errorf ("error creating directory: " +:+ error_string err)))
    | None =>
        uuid ← call NewUUID;
        r ← call (WriteToken ((uuid : string) +:+ newline));
        mret match (r : option error) with Some err => inr err | None => inl (uuid : string) end
    end
  else
    r ← call ReadToken;
    mret match (r : string + error) with
         | inr err => inr (Errorf ("unable to read vault root token " +:+ path +:+ ": " +:+ error_string err))
         | inl uuidBytes => inl (TrimSpace uuidBytes)
         end.

(** ** Tunnels *)

Inductive VaultState := VaultStateSealed | VaultStateUnsealed | VaultStateUnintialised | VaultStateErr.

(** A [vaultTunnel]; its SSH tunnel and client belong to the instance. *)
Record vaultTunnel := { tunnelError : option error }.

(** [Start] of a [vaultTunnel]. *)
Definition Start (pos : nat) (t : vaultTunnel) : Prog (vaultTunnel * option error) :=
  r ← call (TunnelStart pos);
  mret match (r : option error) with
       | Some err => ({| tunnelError := Some err |}, Some err)
       | None => (t, None)
       end.

Definition Status (pos : nat) (t : vaultTunnel) : Prog VaultState :=
  match tunnelError t with
  | Some _ => mret VaultStateErr
  | None =>
      r ← call (InitStatus pos);
      match (r : bool + error) with
      | inr _ => mret VaultStateErr
      | inl false => mret VaultStateUnintialised
      | inl true =>
          r ← call (SealStatus pos);
          mret match (r : bool + error) with
               | inr _ => VaultStateErr
               | inl true => VaultStateSealed
               | inl false => VaultStateUnsealed
               end
      end
  end.

(** The loop of [createTunnelsWithCA]. *)
Fixpoint create_tunnels (pos n : nat) : Prog (list vaultTunnel + error) :=
  match n with
  | 0 => mret (inl [])
  | S n =>
      r ← call (NewTunnel pos);
      match (r : option error) with
      | Some err => mret (inr err)
      | None =>
          r ← create_tunnels (S pos) n;
          mret match (r : list vaultTunnel + error) with
               | inr err => inr err
               | inl ts => inl ({| tunnelError := None |} :: ts)
               end
      end
  end.

(** [quotedCA] is the CA as [%q] prints it. *)
Definition createTunnelsWithCA (n : nat) (quotedCA : string) : Prog (list vaultTunnel + error) :=
  ok ← call AppendCertsFromPEM;
  if negb ok then mret (inr (Errorf ("failed to parse vault CA. " +:+ quotedCA))) else create_tunnels 0 n.

(** ** Retrying

    [backoff.Retry] with a constant backoff of at most [tries] retries and a
    context. *)
Fixpoint Retry {X A} (tries : nat) (operation : X → Prog (X * (A + error))) (x : X) : Prog (A + error) :=
  r ← operation x;
  match (r : X * (A + error)) with
  | (_, inl a) => mret (inl a)
  | (x', inr err) =>
      stop ← call Cancelled;
      if (stop : bool) then mret (inr err)
      else match tries with
           | 0 => mret (inr err)
           | S tries' =>
               stop ← call Cancelled;
               if (stop : bool) then mret (inr err) else Retry tries' operation x'
           end
  end.

Definition Retries : nat := 60.

(** ** Initialising Vault *)

(** Start the tunnels from [pos] on, up to the first that fails. *)
Fixpoint start_all (pos : nat) (ts : list vaultTunnel) : Prog (list vaultTunnel * option error) :=
  match ts with
  | [] => mret ([], None)
  | t :: ts' =>
      r ← Start pos t;
      match (r : vaultTunnel * option error) with
      | (t', Some err) => mret (t' :: ts', Some err)
      | (t', None) => r ← start_all (S pos) ts'; mret (t' :: r.1, r.2)
      end
  end.

(** The first tunnel whose status is no error. *)
Fixpoint find_ready (pos : nat) (ts : list vaultTunnel) : Prog (option nat) :=
  match ts with
  | [] => mret None
  | t :: ts' =>
      st ← Status pos t;
      match st with VaultStateErr => find_ready (S pos) ts' | _ => mret (Some pos) end
  end.

Fixpoint stop_all (pos n : nat) : Prog unit :=
  match n with
  | 0 => mret ()
  | S n => _ ← call (TunnelStop pos); stop_all (S pos) n
  end.

Definition readyTunnelFunc (ts : list vaultTunnel) : Prog (list vaultTunnel * (nat + error)) :=
  r ← start_all 0 ts;
  match (r : list vaultTunnel * option error) with
  | (ts, Some err) => mret (ts, inr err)
  | (ts, None) =>
      ready ← find_ready 0 ts;
      match ready with
      | Some pos => mret (ts, inl pos)
      | None =>
          _ ← stop_all 0 (length ts);
          mret (ts, inr (Errorf "failed to find a vault tunnel ready"))
      end
  end.

(** Success or an error; the node is [pos]. *)
Definition initVaultFunc (rootToken : string) (pos : nat) (_ : unit) : Prog (unit * (unit + error)) :=
  r ← call (SysHealth pos);
  match (r : Health + error) with
  | inr err => mret ((), inr (Errorf ("failed to get vault status: " +:+ error_string err)))
  | inl health =>
      if negb (Sealed health) then mret ((), inl ())
      else if negb (Initialized health) then
        r ← call (NewUnsealer pos);
        match (r : option error) with
        | Some err => mret ((), inr (Errorf ("error creating new unsealer connection: " +:+ error_string err)))
        | None =>
            r ← call (UnsealerInit pos rootToken);
            mret ((), match (r : option error) with
                      | Some err => inr (Errorf ("error initialising vault: " +:+ error_string err))
                      | None => inl ()
                      end)
        end
      else mret ((), inr (Errorf "a quorum of vault instances is sealed, retrying"))
  end.

Definition VerifyInitFromFQDNs (path : string) (n : nat) (quotedCA : string) : Prog (option error) :=
  r ← RootToken path;
  match (r : string + error) with
  | inr err => mret (Some err)
  | inl rootToken =>
      r ← call VaultKVWithParams;
      match (r : option error) with
      | Some err => mret (Some err)
      | None =>
          r ← createTunnelsWithCA n quotedCA;
          match (r : list vaultTunnel + error) with
          | inr err => mret (Some err)
          | inl tunnels =>
              r ← Retry Retries readyTunnelFunc tunnels;
              match (r : nat + error) with
              | inr err => mret (Some (Errorf ("failed to obtain vault tunnel: " +:+ error_string err)))
              | inl pos =>
                  r ← Retry Retries (initVaultFunc rootToken pos) ();
                  mret match (r : unit + error) with
                       | inr err =>
                           Some (Errorf ("time out verifying that vault cluster is initialised and unsealed: " +:+
                                         error_string err))
                       | inl _ => None
                       end
              end
          end
      end
  end.

(** ** What happened so far *)

Definition failed_start (pos : nat) (e : event) : bool :=
  match e with Ev (TunnelStart p) (Some _) => bool_decide (p = pos) | _ => false end.

Definition asks_health (e : event) : bool := match e with Ev (SysHealth _) _ => true | _ => false end.

Definition initialised (e : event) : bool := match e with Ev (UnsealerInit _ _) None => true | _ => false end.

Definition healths (h : list event) : nat := length (filter (λ e, asks_health e = true) h).

(** The token is in the file: it was written there or read from it. *)
Definition on_disk (h : list event) (token : string) : Prop :=
  Ev (WriteToken (token +:+ newline)) None ∈ h ∨ ∃ content, Ev ReadToken (inl content) ∈ h ∧ TrimSpace content = token.

(** The last answer of the node said that it is sealed and not initialised,
    and an unsealer was made for it. *)
Definition uninitialised (h : list event) (pos : nat) : Prop :=
  ∃ h' health, h = h' ++ [Ev (SysHealth pos) (inl health); Ev (NewUnsealer pos) None] ∧
    Sealed health = true ∧ Initialized health = false.

(** What [VerifyInitFromFQDNs] may do, for [n] instances. *)
Definition verify_ok (n : nat) (h : list event) (c : VCall) : Prop :=
  match c with
  | WriteToken content => Ev StatToken true ∈ h ∧ ∃ uuid, Ev NewUUID uuid ∈ h ∧ content = uuid +:+ newline
  | TunnelStart pos => pos < n ∧ healths h = 0
  | SysHealth pos => pos < n ∧ existsb (failed_start pos) h = false ∧ healths h ≤ Retries
  | UnsealerInit pos token => on_disk h token ∧ uninitialised h pos ∧ existsb initialised h = false
  | _ => True
  end.

(** Vault is ready: a node was unsealed or has been initialised. *)
Definition vault_ready (h : list event) : Prop :=
  (∃ pos health, Ev (SysHealth pos) (inl health) ∈ h ∧ Sealed health = false) ∨
  (∃ pos token, Ev (UnsealerInit pos token) None ∈ h).

Lemma healths_app h1 h2 : healths (h1 ++ h2) = healths h1 + healths h2.
Proof. unfold healths. by rewrite filter_app, length_app. Qed.

Lemma on_disk_mono h h' token : h ⊆ h' → on_disk h token → on_disk h' token.
Proof. intros Hs [H|(c & H & Ht)]; [left|right; exists c]; auto. Qed.

Lemma safe_call1 (P : list event → VCall → Prop) h c Q :
  P h c → (∀ a, Q (h ++ [Ev c a]) a) → safe P h (call c) Q.
Proof. done. Qed.

(** The rule for [Retry]: [Inv k h x] holds before a try with [k] left. *)
Lemma Retry_safe {X A} (P : list event → VCall → Prop) (Inv : nat → list event → X → Prop)
    (Q : list event → A + error → Prop) (op : X → Prog (X * (A + error))) :
  (∀ h, P h Cancelled) →
  (∀ k h x b, Inv k h x → Inv k (h ++ [Ev Cancelled b]) x) →
  (∀ h e b, Q h (inr e) → Q (h ++ [Ev Cancelled b]) (inr e)) →
  (∀ k h x, Inv k h x → safe P h (op x) (λ h' r,
     Q h' r.2 ∧ match r.2, k with inr _, S k' => Inv k' h' r.1 | _, _ => True end)) →
  ∀ k h x, Inv k h x → safe P h (Retry k op x) Q.
Proof.
  intros HP HI HQ Hop. induction k as [|k IH]; intros h x Hx; cbn [Retry]; apply safe_bind;
    (eapply safe_mono; [by apply (Hop _ _ _ Hx)|]); intros h' [x' [a|err]] _ [HQ' Hn]; cbn in HQ'; [done| |done|].
  - apply safe_call; [done|]. intros []; by apply HQ.
  - apply safe_call; [done|]. intros []; [by apply HQ|].
    apply safe_call; [done|]. intros []; [by do 2 apply HQ|]. apply IH. by do 2 apply HI.
Qed.

(** *** Calls that change nothing of interest *)

Definition quiet_call (c : VCall) : Prop :=
  match c with TunnelStart _ | SysHealth _ | UnsealerInit _ _ => False | _ => True end.

Record quiet (h h' : list event) : Prop := {
  quiet_healths : healths h' = healths h;
  quiet_init : existsb initialised h' = existsb initialised h;
  quiet_start : ∀ pos, existsb (failed_start pos) h' = existsb (failed_start pos) h;
  quiet_sub : h ⊆ h';
}.

#[local] Instance quiet_preorder : PreOrder quiet.
Proof.
  split; [by split|]. intros h1 h2 h3 [A1 A2 A3 A4] [B1 B2 B3 B4].
  split; [congruence..|intros pos; by rewrite B3|by etrans].
Qed.

Lemma quiet_snoc h c a : quiet_call c → quiet h (h ++ [Ev c a]).
Proof.
  intros Hc. split; [rewrite healths_app|rewrite existsb_app|intros pos; rewrite existsb_app|].
  1-3: destruct c; try done; cbn; by rewrite ?orb_false_r, ?Nat.add_0_r.
  intros e He; by apply in_before.
Qed.

#[local] Hint Resolve quiet_snoc : events.

(** A program of quiet calls, all of them allowed. *)
Lemma quiet_op n h c (Q : list event → answer c → Prop) :
  quiet_call c → verify_ok n h c → (∀ h' a, quiet h h' → Ev c a ∈ h' → Q h' a) → safe (verify_ok n) h (call c) Q.
Proof. intros Hq Hok HQ. apply safe_call1; [done|]. intros a. apply HQ; [by apply quiet_snoc|apply in_last]. Qed.

Section Verify.
Context (n : nat).

#[local] Abbreviation safe := (safe (verify_ok n)).

Lemma RootToken_safe path h :
  safe h (RootToken path) (λ h' r, quiet h h' ∧ match r with inl token => on_disk h' token | inr _ => True end).
Proof.
  unfold RootToken. apply safe_bind, quiet_op; [done..|]. intros h1 [] Q1 E1; cbn beta iota.
  - apply safe_bind, quiet_op; [done..|]. intros h2 [err|] Q2 _; [split; [by etrans|done]|].
    apply safe_bind, quiet_op; [done..|]. intros h3 uuid Q3 E3.
    apply safe_bind, quiet_op; [done|split; [by apply Q3, Q2|by exists uuid]|].
    intros h4 [err|] Q4 E4; (split; [do 3 (etrans; [done|]); done|]); [done|by left].
  - apply safe_bind, quiet_op; [done..|]. intros h2 [content|err] Q2 E2; (split; [by etrans|]); [|done].
    right; by exists content.
Qed.

Lemma create_tunnels_safe pos k h :
  safe h (create_tunnels pos k) (λ h' r,
    quiet h h' ∧ match r with inl ts => ts = replicate k {| tunnelError := None |} | inr _ => True end).
Proof.
  revert pos h; induction k as [|k IH]; intros pos h; cbn [create_tunnels]; [by split|].
  apply safe_bind, quiet_op; [done..|]. intros h1 [err|] Q1 _; [by split|]. apply safe_bind.
  eapply safe_mono; [apply IH|]. intros h2 [ts|err] _ [Q2 Hts]; (split; [by etrans|]); [|done]. by subst.
Qed.

Lemma createTunnels_safe quotedCA h :
  safe h (createTunnelsWithCA n quotedCA) (λ h' r,
    quiet h h' ∧ match r with inl ts => ts = replicate n {| tunnelError := None |} | inr _ => True end).
Proof.
  apply safe_bind, quiet_op; [done..|]. intros h1 [] Q1 _; cbn [negb]; [|by split].
  eapply safe_mono; [apply create_tunnels_safe|]. intros h2 r _ [Q2 Hr]; split; [by etrans|done].
Qed.

(** Tunnels that report no error have never failed to start, as counted from
    [pos]. *)
Definition honest (pos : nat) (h : list event) (ts : list vaultTunnel) : Prop :=
  ∀ i t, ts !! i = Some t → tunnelError t = None → existsb (failed_start (pos + i)) h = false.

Lemma honest_quiet pos h h' ts : quiet h h' → honest pos h ts → honest pos h' ts.
Proof. intros Q H i t Hi Ht. rewrite (quiet_start _ _ Q). by eapply H. Qed.

Lemma started h pos r :
  healths (h ++ [Ev (TunnelStart pos) r]) = healths h ∧
  existsb initialised (h ++ [Ev (TunnelStart pos) r]) = existsb initialised h ∧
  (∀ p, existsb (failed_start p) (h ++ [Ev (TunnelStart pos) r]) =
        existsb (failed_start p) h || match r with Some _ => bool_decide (pos = p) | None => false end).
Proof.
  rewrite healths_app, existsb_app. change (healths [Ev (TunnelStart pos) r]) with 0.
  split_and!; [lia|by rewrite orb_false_r|].
  intros p. rewrite existsb_app. cbn. destruct r; cbn; by rewrite ?orb_false_r.
Qed.

(** Nothing was asked of Vault yet, and the token is in the file. *)
Record before_health (token : string) (h : list event) : Prop := {
  no_health : healths h = 0;
  no_init : existsb initialised h = false;
  have_token : on_disk h token;
}.

Lemma before_quiet token h h' : quiet h h' → before_health token h → before_health token h'.
Proof.
  intros [A1 A2 A3 A4] [B1 B2 B3]. split; [congruence..|by eapply on_disk_mono].
Qed.

Lemma before_start token h pos r : before_health token h → before_health token (h ++ [Ev (TunnelStart pos) r]).
Proof.
  intros [B1 B2 B3]. destruct (started h pos r) as (H1 & H2 & _). split; [congruence..|].
  eapply on_disk_mono; [|exact B3]. intros e He; by apply in_before.
Qed.

Lemma start_all_safe token pos ts h :
  pos + length ts ≤ n → before_health token h → honest pos h ts →
  safe h (start_all pos ts) (λ h' r,
    before_health token h' ∧ honest pos h' r.1 ∧ length r.1 = length ts ∧
    ∀ p, p < pos → existsb (failed_start p) h' = existsb (failed_start p) h).
Proof.
  revert pos h; induction ts as [|t ts IH]; intros pos h Hlen Hb Hh; cbn [start_all]; [done|].
  cbn [length] in *. apply safe_bind, safe_bind, safe_call1; [split; [lia|apply Hb]|]. intros r.
  pose proof (before_start _ _ pos r Hb) as Hb1. destruct (started h pos r) as (_ & _ & Hf).
  set (h1 := h ++ [_]) in *. assert (Hts : honest (S pos) h1 ts).
  { intros i t' Hi Ht'. rewrite Hf. pose proof (Hh (S i) t' Hi Ht') as H0.
    replace (pos + S i) with (S pos + i) in H0 by lia. rewrite H0. destruct r; [|done]. apply bool_decide_eq_false; lia. }
  assert (Hp : ∀ p, p < pos → existsb (failed_start p) h1 = existsb (failed_start p) h).
  { intros p Hlt. rewrite Hf. destruct r; [|by rewrite orb_false_r]. rewrite bool_decide_eq_false_2 by lia.
    by rewrite orb_false_r. }
  destruct r as [err|]; cbn.
  - split_and!; [done| |done|done]. intros [|i] t' Hi Ht'; [by injection Hi as <-|].
    replace (pos + S i) with (S pos + i) by lia. by eapply Hts.
  - apply safe_bind. eapply safe_mono; [apply IH; [lia|done|done]|].
    intros h2 [ts' r'] _ (Hb2 & Hh2 & Hl2 & Hp2); cbn in *. split_and!; [done| |lia|intros p Hlt; rewrite Hp2 by lia; auto].
    intros [|i] t' Hi Ht'; [|replace (pos + S i) with (S pos + i) by lia; by eapply Hh2]. injection Hi as <-.
    rewrite Hp2 by lia. rewrite Hf, orb_false_r. by eapply (Hh 0).
Qed.

Lemma Status_safe pos t h :
  safe h (Status pos t) (λ h' st, quiet h h' ∧ (st ≠ VaultStateErr → tunnelError t = None)).
Proof.
  unfold Status. destruct (tunnelError t) eqn:Et; [by split|].
  apply safe_bind, quiet_op; [done..|]. intros h1 [[]|err] Q1 _; [|by split..].
  apply safe_bind, quiet_op; [done..|]. intros h2 r Q2 _. split; [by etrans|done].
Qed.

Lemma find_ready_safe pos ts h :
  safe h (find_ready pos ts) (λ h' r, quiet h h' ∧
    ∀ p, r = Some p → ∃ i t, p = pos + i ∧ ts !! i = Some t ∧ tunnelError t = None).
Proof.
  revert pos h; induction ts as [|t ts IH]; intros pos h; cbn [find_ready]; [by split|].
  apply safe_bind. eapply safe_mono; [apply Status_safe|]. intros h1 st _ [Q1 Hst].
  assert (Hhere : st ≠ VaultStateErr → ∀ p, Some pos = Some p → ∃ i t',
    p = pos + i ∧ (t :: ts) !! i = Some t' ∧ tunnelError t' = None).
  { intros Hne p [= <-]. exists 0, t. split_and!; [lia|done|by apply Hst]. }
  destruct st; [split; [done|by apply Hhere]..|]. eapply safe_mono; [apply IH|].
  intros h2 r _ [Q2 Hr]; split; [by etrans|]. intros p Hp.
  destruct (Hr p Hp) as (i & t' & -> & Hi & Ht'). exists (S i), t'. split_and!; [lia|done..].
Qed.

Lemma stop_all_safe pos k h : safe h (stop_all pos k) (λ h' _, quiet h h').
Proof.
  revert pos h; induction k as [|k IH]; intros pos h; cbn [stop_all]; [done|].
  apply safe_bind, quiet_op; [done..|]. intros h1 ? Q1 _. eapply safe_mono; [apply IH|].
  intros h2 ? _ Q2; by etrans.
Qed.

(** The tunnel that is used has never failed to start. *)
Definition ready (token : string) (h : list event) (pos : nat) : Prop :=
  before_health token h ∧ pos < n ∧ existsb (failed_start pos) h = false.

Lemma readyTunnelFunc_safe token ts h :
  length ts = n → before_health token h → honest 0 h ts →
  safe h (readyTunnelFunc ts) (λ h' r,
    before_health token h' ∧ honest 0 h' r.1 ∧ length r.1 = n ∧
    match r.2 with inl pos => ready token h' pos | inr _ => True end).
Proof.
  intros Hlen Hb Hh. apply safe_bind. eapply safe_mono; [apply start_all_safe; [lia|done..]|].
  intros h1 [ts1 [err|]] _ (Hb1 & Hh1 & Hl1 & _); cbn in Hh1, Hl1; cbn beta iota; [split_and!; try done; cbn; lia|].
  apply safe_bind. eapply safe_mono; [apply find_ready_safe|]. intros h2 [pos|] _ [Q2 Hr].
  - destruct (Hr pos eq_refl) as (i & t & -> & Hi & Ht). pose proof (before_quiet _ _ _ Q2 Hb1) as Hb2.
    pose proof (honest_quiet _ _ _ _ Q2 Hh1) as Hh2. apply lookup_lt_Some in Hi as Hlt.
    split_and!; cbn; [done..|lia|]. split_and!; [done|lia|by eapply Hh2].
  - apply safe_bind. eapply safe_mono; [apply stop_all_safe|]. intros h3 ? _ Q3.
    assert (Q : quiet h1 h3) by (by etrans). split_and!; cbn; [by eapply before_quiet|by eapply honest_quiet|lia|done].
Qed.

(** Before a try with [k] left the node has been asked at most the other
    times. *)
Record before_try (token : string) (pos k : nat) (h : list event) : Prop := {
  try_pos : pos < n;
  try_start : existsb (failed_start pos) h = false;
  try_init : existsb initialised h = false;
  try_token : on_disk h token;
  try_healths : healths h + k ≤ Retries;
}.

Lemma try_snoc token pos k h c a :
  match c with TunnelStart _ | SysHealth _ => False | UnsealerInit _ _ => initialised (Ev c a) = false | _ => True end →
  before_try token pos k h → before_try token pos k (h ++ [Ev c a]).
Proof.
  intros Hc [T1 T2 T3 T4 T5].
  assert (H : existsb (failed_start pos) [Ev c a] = false ∧ existsb initialised [Ev c a] = false ∧ healths [Ev c a] = 0)
    by (destruct c; cbn [existsb]; try done; by rewrite Hc).
  destruct H as (H1 & H2 & H3). split; [done|by rewrite existsb_app, T2, H1|by rewrite existsb_app, T3, H2| |].
  - eapply on_disk_mono; [|exact T4]. intros e He; by apply in_before.
  - rewrite healths_app, H3; lia.
Qed.

Lemma asked token pos k h r :
  before_try token pos (S k) h → before_try token pos k (h ++ [Ev (SysHealth pos) r]).
Proof.
  intros [T1 T2 T3 T4 T5]. split; [done|by rewrite existsb_app, T2|by rewrite existsb_app, T3| |].
  - eapply on_disk_mono; [|exact T4]. intros e He; by apply in_before.
  - rewrite healths_app. change (healths [Ev (SysHealth pos) r]) with 1. lia.
Qed.

Lemma initVaultFunc_safe token pos k h :
  before_try token pos k h →
  safe h (initVaultFunc token pos ()) (λ h' r,
    (r.2 = inl () → vault_ready h') ∧
    match r.2, k with inr _, S k' => before_try token pos k' h' | _, _ => True end).
Proof.
  intros Ht. apply safe_call; [destruct Ht; split_and!; [done..|lia]|]. intros [health|err]; cbn beta iota.
  2: { split; [done|]. destruct k; [done|by apply asked]. }
  destruct (Sealed health) eqn:Es; cbn [negb].
  2: { split; [|done]. intros _. left. exists pos, health. split; [apply in_last|done]. }
  destruct (Initialized health) eqn:Ei; cbn [negb].
  { split; [done|]. destruct k; [done|by apply asked]. }
  apply safe_call; [done|]. intros [err|]; cbn beta iota.
  { split; [done|]. destruct k; [done|by apply try_snoc, asked]. }
  apply safe_call.
  - assert (H : before_try token pos 0 h) by (destruct Ht; split; try done; lia).
    destruct H as [T1 T2 T3 T4 T5]. split_and!.
    + eapply on_disk_mono; [|exact T4]. intros e He; by do 2 apply in_before.
    + exists h, health. by rewrite <-app_assoc.
    + by rewrite !existsb_app, T3.
  - intros [err|]; cbn beta iota.
    + split; [done|]. destruct k; [done|]. apply try_snoc; [done|]. by apply try_snoc, asked.
    + split; [|done]. intros _. right. exists pos, token. apply in_last.
Qed.

Lemma VerifyInit_safe_from path quotedCA :
  safe [] (VerifyInitFromFQDNs path n quotedCA) (λ h r, r = None → vault_ready h).
Proof.
  apply safe_bind. eapply safe_mono; [apply RootToken_safe|]. intros h1 [token|err] _ [Q1 Hd]; [|done].
  apply safe_bind, quiet_op; [done..|]. intros h2 [err|] Q2 _; [done|].
  apply safe_bind. eapply safe_mono; [apply createTunnels_safe|]. intros h3 [ts|err] _ [Q3 Hts]; [|done].
  assert (Q : quiet [] h3) by (do 2 (etrans; [done|]); done).
  assert (Hb : before_health token h3).
  { split; [apply Q..|]. eapply on_disk_mono; [|exact Hd]. etrans; [apply Q2|apply Q3]. }
  apply safe_bind. eapply safe_mono.
  - apply (Retry_safe _ (λ _ h ts, before_health token h ∧ honest 0 h ts ∧ length ts = n)
      (λ h r, match r with inl pos => ready token h pos | inr _ => True end)); [done|..|done| |].
    + intros k h x b (H1 & H2 & H3). split_and!; [eapply before_quiet|eapply honest_quiet|]; eauto with events.
      all: by apply quiet_snoc.
    + intros k h x (H1 & H2 & H3). eapply safe_mono; [by apply readyTunnelFunc_safe|].
      intros h' [x' [pos|err]] _ (H4 & H5 & H6 & H7); (split; [done|]); [done|]. by destruct k.
    + split_and!; [done| |subst; apply length_replicate]. intros i t _ _. rewrite (quiet_start _ _ Q). done.
  - intros h4 [pos|err] _ Hr; [|done]. destruct Hr as (Hb4 & Hpos & Hf).
    apply safe_bind. eapply safe_mono.
    + apply (Retry_safe _ (λ k h (_ : unit), before_try token pos k h)
        (λ h r, match r with inl _ => vault_ready h | inr _ => True end)); [done|..|done| |].
      * intros k h x b H. by apply try_snoc.
      * intros k h [] H. eapply safe_mono; [by apply initVaultFunc_safe|].
        intros h' [[] [[]|err]] _ [H1 H2]; cbn in *; split; auto.
      * destruct Hb4 as [B1 B2 B3]. split; [done..|]. rewrite B1. lia.
    + intros h5 r _ H5. destruct r as [u|err]; cbn in *; [by intros _|done].
Qed.

End Verify.

(** C15: Initialising Vault is safe, whatever the nodes, tunnels and files
    answer: an existing root token is never overwritten; Vault is initialised
    at most once, with a token that is in the file, and only when the node said
    just before that it is sealed and not initialised; the node is asked at
    most 61 times.  When the call succeeds, a node was unsealed or has been
    initialised. *)
Theorem VerifyInit_safe n path quotedCA {S} (handle : ∀ c, S → S * answer c) s :
  let '(es, _, r) := run handle (VerifyInitFromFQDNs path n quotedCA) s in
  (∀ es1 e es2, es = es1 ++ e :: es2 → verify_ok n es1 (ev_call e)) ∧ (r = Ret None → vault_ready es).
Proof.
  pose proof (safe_run handle _ _ _ _ s (VerifyInit_safe_from n path quotedCA)) as H.
  destruct (run handle _ s) as [[es s'] r]. destruct H as [H1 H2]. split; [done|]. intros Hr. by apply (H2 None).
Qed.

(** *** One failure to start *)

Lemma health_before_ready h :
  (∀ es1 e es2, h = es1 ++ e :: es2 → verify_ok 1 es1 (ev_call e)) → vault_ready h →
  ∃ r, Ev (SysHealth 0) r ∈ h.
Proof.
  intros Hok [(pos & health & Hin & _)|(pos & token & Hin)]; apply list_elem_of_split in Hin as (h1 & h2 & E).
  - destruct (Hok _ _ _ E) as (Hpos & _). assert (pos = 0) as -> by lia. exists (inl health). rewrite E. set_solver.
  - destruct (Hok _ _ _ E) as (_ & (h' & health & -> & _) & _).
    assert (pos < 1) as Hpos by (apply (Hok h' (Ev (SysHealth pos) (inl health)) (Ev (NewUnsealer pos) None :: Ev (UnsealerInit pos token) None :: h2));
      rewrite E, <-app_assoc; done).
    assert (pos = 0) as -> by lia. exists (inl health). rewrite E. set_solver.
Qed.

Lemma healths_in h pos r : Ev (SysHealth pos) r ∈ h → healths h ≠ 0.
Proof.
  intros Hin. apply list_elem_of_split in Hin as (h1 & h2 & ->). rewrite healths_app.
  change (Ev (SysHealth pos) r :: h2) with ([Ev (SysHealth pos) r] ++ h2). rewrite healths_app.
  change (healths [Ev (SysHealth pos) r]) with 1. lia.
Qed.

(** The retries cannot make up for a tunnel that once failed to start: its
    error is kept, so that with a single instance one failure makes the whole
    call fail, whatever later attempts would find. *)
Theorem failed_start_final path quotedCA {S} (handle : ∀ c, S → S * answer c) s e :
  let '(es, _, r) := run handle (VerifyInitFromFQDNs path 1 quotedCA) s in
  Ev (TunnelStart 0) (Some e) ∈ es → r ≠ Ret None.
Proof.
  pose proof (safe_run handle _ _ _ _ s (VerifyInit_safe_from 1 path quotedCA)) as H.
  destruct (run handle _ s) as [[es s'] r]. destruct H as [Hok Hr]. intros Hin ->.
  destruct (health_before_ready es Hok (Hr None eq_refl eq_refl)) as (a & Ha).
  apply list_elem_of_split in Ha as (h1 & h2 & E). pose proof (Hok _ _ _ E) as (_ & Hf & _); cbn [app] in Hf.
  rewrite E in Hin. apply elem_of_app in Hin as [Hin|Hin].
  - assert (Ht : existsb (failed_start 0) h1 = true); [|congruence]. apply existsb_exists.
    exists (Ev (TunnelStart 0) (Some e)). split; [by apply list_elem_of_In|done].
  - apply elem_of_cons in Hin as [Hin|Hin]; [by apply (f_equal ev_call) in Hin|].
    apply list_elem_of_split in Hin as (h3 & h4 & ->).
    assert (H0 : verify_ok 1 (h1 ++ Ev (SysHealth 0) a :: h3) (TunnelStart 0)).
    { apply (Hok _ (Ev (TunnelStart 0) (Some e)) h4). by rewrite E, <-app_assoc. }
    destruct H0 as [_ H0]. apply (healths_in (h1 ++ Ev (SysHealth 0) a :: h3) 0 a); [set_solver|done].
Qed.

(** *** The token in its file *)

(** The handler keeps the file of the token as a file system does. *)
Record token_file {S} (handle : ∀ c, S → S * answer c) (file : S → option string) : Prop := {
  file_stat : ∀ s, file (handle StatToken s).1 = file s ∧ (handle StatToken s).2 = bool_decide (file s = None);
  file_mkdir : ∀ s, file (handle MkdirToken s).1 = file s;
  file_uuid : ∀ s, file (handle NewUUID s).1 = file s;
  file_write : ∀ s c, (handle (WriteToken c) s).2 = None → file (handle (WriteToken c) s).1 = Some c;
  file_read : ∀ s, file (handle ReadToken s).1 = file s ∧
    ∀ c, (handle ReadToken s).2 = inl c → file s = Some c;
}.

Lemma trim_left_none l : Forall (λ c, IsSpace c = false) l → trim_left l = l.
Proof. by intros [|c l' Hc _]; cbn; [|rewrite Hc]. Qed.

Lemma trim_newline l :
  Forall (λ c, IsSpace c = false) l → reverse (trim_left (reverse (trim_left (l ++ ["010"%char])))) = l.
Proof.
  intros Hl. destruct l as [|c l']; [done|]. cbn [app trim_left]. rewrite (Forall_inv Hl).
  change (c :: l' ++ ["010"%char]) with ((c :: l') ++ ["010"%char]). rewrite reverse_app. cbn [reverse app trim_left].
  change (trim_left (reverse ["010"%char] ++ reverse (c :: l'))) with (trim_left (reverse (c :: l'))).
  rewrite trim_left_none by (by apply Forall_reverse). apply reverse_involutive.
Qed.

Lemma TrimSpace_newline s : Forall (λ c, IsSpace c = false) (bytes_of s) → TrimSpace (s +:+ newline) = s.
Proof.
  intros Hs. unfold TrimSpace. rewrite bytes_of_app. change (bytes_of newline) with ["010"%char].
  rewrite trim_newline by done. apply String.string_of_list_ascii_of_string.
Qed.

Section TokenFile.
Context {S : Type} (handle : ∀ c, S → S * answer c) (file : S → option string).
Context (Hf : token_file handle file).

Lemma RootToken_read path s content :
  file s = Some content →
  let '(_, s', r) := run handle (RootToken path) s in
  file s' = Some content ∧ ∀ token, r = Ret (inl token) → token = TrimSpace content.
Proof.
  intros Hs. cbn. destruct (file_stat _ _ Hf s) as [F1 F2].
  destruct (handle StatToken s) as [s1 missing]; cbn in F1, F2. rewrite F2, Hs, bool_decide_eq_false_2 by done. cbn.
  destruct (file_read _ _ Hf s1) as [F3 F4]. destruct (handle ReadToken s1) as [s2 r]; cbn in F3, F4.
  destruct r as [c|err]; cbn; (split; [congruence|]); intros token Ht; [|done]. injection Ht as <-.
  specialize (F4 c eq_refl). congruence.
Qed.

Lemma RootToken_stored path s token :
  (∀ s, Forall (λ c, IsSpace c = false) (bytes_of (handle NewUUID s).2)) →
  let '(_, s', r) := run handle (RootToken path) s in
  r = Ret (inl token) → ∃ content, file s' = Some content ∧ TrimSpace content = token.
Proof.
  intros Hu. cbn. destruct (file_stat _ _ Hf s) as [F1 F2]. destruct (handle StatToken s) as [s1 []]; cbn in *.
  - destruct (handle MkdirToken s1) as [s2 [err|]]; cbn; [done|]. pose proof (Hu s2) as Hs2.
    destruct (handle NewUUID s2) as [s3 uuid]; cbn in *. pose proof (file_write _ _ Hf s3 (uuid +:+ newline)) as F3.
    destruct (handle (WriteToken (uuid +:+ newline)) s3) as [s4 [err|]]; cbn in *; [done|].
    intros [= ->]. exists (token +:+ newline). split; [by apply F3|by apply TrimSpace_newline].
  - destruct (file_read _ _ Hf s1) as [F3 F4]. destruct (handle ReadToken s1) as [s2 [c|err]]; cbn in *; [|done].
    intros [= <-]. exists c. split; [|done]. rewrite F3. by apply F4.
Qed.

End TokenFile.

(** The root token is kept: once it was made or read, later calls that can
    read the file answer the same token. *)
Theorem RootToken_kept path {S} (handle : ∀ c, S → S * answer c) file s token :
  token_file handle file → (∀ s, Forall (λ c, IsSpace c = false) (bytes_of (handle NewUUID s).2)) →
  let '(_, s1, r1) := run handle (RootToken path) s in
  r1 = Ret (inl token) →
  let '(_, s2, r2) := run handle (RootToken path) s1 in
  file s2 = file s1 ∧ ∀ token', r2 = Ret (inl token') → token' = token.
Proof.
  intros Hf Hu. pose proof (RootToken_stored handle file Hf path s token Hu) as Hfirst.
  destruct (run handle (RootToken path) s) as [[es1 s1] r1]. intros Hr1.
  destruct (Hfirst Hr1) as (content & Hs1 & Ht). pose proof (RootToken_read handle file Hf path s1 content Hs1) as Hread.
  destruct (run handle (RootToken path) s1) as [[es2 s2] r2]. destruct Hread as [H1 H2].
  split; [congruence|]. intros token' Hr. by rewrite (H2 token' Hr).
Qed.

(** ** Witnesses *)

(** A world with one node that is not initialised; the file of the token is the
    state. *)
Definition example_vault (start : option error) (cancelled : bool) (c : VCall) (file : option string) : option string * answer c :=
  match c with
  | StatToken => (file, bool_decide (file = None))
  | MkdirToken | VaultKVWithParams => (file, None)
  | NewUUID => (file, "0b5c-11")
  | WriteToken content => (Some content, None)
  | ReadToken => (file, match file with Some content => inl content | None => inr (Errorf "missing") end)
  | AppendCertsFromPEM => (file, true)
  | NewTunnel _ | NewUnsealer _ | UnsealerInit _ _ => (file, None)
  | TunnelStart _ => (file, start)
  | TunnelStop _ => (file, ())
  | InitStatus _ => (file, inl false)
  | SealStatus _ => (file, inl true)
  | SysHealth _ => (file, inl {| Initialized := false; Sealed := true; Standby := false |})
  | Cancelled => (file, cancelled)
  end.

Definition example_verify : list event * option string * GoM (option error) :=
  Eval vm_compute in run (example_vault None false) (VerifyInitFromFQDNs "/token" 1 "") None.

(** The initialisation is the last of twelve calls. *)
Lemma VerifyInit_safe_witness :
  example_verify.2 = Ret None ∧ length example_verify.1.1 = 12 ∧
  on_disk (take 11 example_verify.1.1) "0b5c-11" ∧ vault_ready example_verify.1.1.
Proof.
  pose proof (VerifyInit_safe 1 "/token" "" (example_vault None false) None) as H.
  change (run (example_vault None false) (VerifyInitFromFQDNs "/token" 1 "") None) with example_verify in H.
  destruct H as [H1 H2]. split_and!; [reflexivity|reflexivity| |by apply H2].
  exact (proj1 (H1 (take 11 example_verify.1.1) (Ev (UnsealerInit 0 "0b5c-11") None) [] eq_refl)).
Defined.

(** The tunnel fails to start once and the call is cancelled. *)
Lemma failed_start_final_witness :
  let '(es, _, r) := run (example_vault (Some (Errorf "refused")) true) (VerifyInitFromFQDNs "/token" 1 "") None in
  Ev (TunnelStart 0) (Some (Errorf "refused")) ∈ es ∧ r ≠ Ret None.
Proof.
  pose proof (failed_start_final "/token" "" (example_vault (Some (Errorf "refused")) true) None (Errorf "refused")) as H.
  destruct (run _ _ _) as [[es s'] r] eqn:E.
  assert (Hin : Ev (TunnelStart 0) (Some (Errorf "refused")) ∈ es); [|split; [exact Hin|exact (H Hin)]].
  vm_compute in E. injection E as <- _ _. do 7 right. left.
Defined.

Lemma example_file start cancelled : token_file (example_vault start cancelled) id.
Proof.
  split; try done. intros s; cbn. split; [done|]. intros c. by destruct s as [c'|]; [intros [= ->]|].
Qed.

Lemma RootToken_kept_witness :
  ∃ es r, run (example_vault None false) (RootToken "/token") (Some ("0b5c-11" +:+ newline)) =
            (es, Some ("0b5c-11" +:+ newline), Ret (inl r)) ∧ r = "0b5c-11".
Proof.
  pose proof (RootToken_kept "/token" (example_vault None false) id None "0b5c-11" (example_file None false)) as H.
  eexists _, _. split; [vm_compute; reflexivity|].
  apply (H ltac:(intros s; repeat constructor) eq_refl). reflexivity.
Defined.
