(* ===== verification/VaultTunnels.v ===== *)
(** * VaultTunnels: the race for the active node of Vault

    [TunnelFromFQDNs] of [src/pkg/tarmak/vault/vault.go] after its tunnels are
    made.  One goroutine per node starts the tunnel, asks the node for its
    health and, if it is the active node, sends its position over a channel
    without a buffer; the function takes the first position or gives up after
    a timeout; a further goroutine then waits for all others and stops their
    tunnels.

    The state [Race] holds the goroutines and which tunnels are open, [rstep]
    executes one event.  What a node says of its health, when it answers, is
    the argument [active]: unsealed, initialised and not a standby. *)

From S2P Require Import Prelude.

(** ** The goroutines *)

Inductive Goroutine := Starting | Asking | Sending | Finished.

Inductive Main := Selecting | Returned (pos : nat) | TimedOut.

Inductive Cleaner := NotStarted | Waiting (pos : nat) | Stopping (pos next : nat) | Cleaned (pos : nat).

Record Race := {
  gs : list Goroutine;
  opened : list bool;
  main : Main;
  cleaner : Cleaner;
}.

#[global] Instance Goroutine_eq_dec : EqDecision Goroutine.
Proof. solve_decision. Defined.

Inductive REvent :=
| StartSucceeds (i : nat)
| StartFails (i : nat)
| HealthFails (i : nat)
| HealthAnswers (i : nat)
| Send (i : nat)
| Timeout
| AllDone
| StopNext.

Section Race.
Context (n : nat) (active : nat → bool).

Definition set_goroutine (w : Race) (i : nat) (g : Goroutine) : Race := {| w with gs := <[i := g]> (gs w) |}.

Definition set_open (w : Race) (i : nat) (b : bool) : Race := {| w with opened := <[i := b]> (opened w) |}.

(** The goroutine [i] does a step from [g]. *)
Definition at_goroutine (w : Race) (i : nat) (g : Goroutine) (w' : Race) : option Race :=
  if decide (gs w !! i = Some g) then Some w' else None.

Definition rstep (w : Race) (e : REvent) : option Race :=
  match e with
  | StartSucceeds i => at_goroutine w i Starting (set_open (set_goroutine w i Asking) i true)
  | StartFails i => at_goroutine w i Starting (set_goroutine w i Finished)
  | HealthFails i => at_goroutine w i Asking (set_goroutine w i Finished)
  | HealthAnswers i => at_goroutine w i Asking (set_goroutine w i (if active i then Sending else Finished))
  | Send i =>
      match main w with
      | Selecting => let w' := set_goroutine w i Finished in
                     at_goroutine w i Sending {| w' with main := Returned i; cleaner := Waiting i |}
      | _ => None
      end
  | Timeout => match main w with Selecting => Some {| w with main := TimedOut |} | _ => None end
  | AllDone =>
      match cleaner w with
      | Waiting pos => if forallb (λ g, bool_decide (g = Finished)) (gs w)
                       then Some {| w with cleaner := Stopping pos 0 |} else None
      | _ => None
      end
  | StopNext =>
      match cleaner w with
      | Stopping pos next =>
          if decide (next < n) then
            let w := {| w with cleaner := Stopping pos (S next) |} in
            Some (if decide (next = pos) then w else set_open w next false)
          else Some {| w with cleaner := Cleaned pos |}
      | _ => None
      end
  end.

Definition race_start : Race :=
  {| gs := replicate n Starting; opened := replicate n false; main := Selecting; cleaner := NotStarted |}.

Fixpoint race (w : Race) (es : list REvent) : option Race :=
  match es with
  | [] => Some w
  | e :: es' => w' ← rstep w e; race w' es'
  end.

(** ** The invariant *)

(** What a goroutine knows about its tunnel and node. *)
Definition goroutine_ok (w : Race) (i : nat) (g : Goroutine) : Prop :=
  match g with
  | Starting => opened w !! i = Some false
  | Asking => opened w !! i = Some true
  | Sending => opened w !! i = Some true ∧ active i = true
  | Finished => True
  end.

Definition all_finished (w : Race) : Prop := ∀ i g, gs w !! i = Some g → g = Finished.

(** The position that was received, and how far the clean-up is. *)
Definition received (w : Race) (pos : nat) : Prop :=
  pos < n ∧ active pos = true ∧ gs w !! pos = Some Finished ∧ opened w !! pos = Some true.

Definition cleaned_to (w : Race) (pos next : nat) : Prop :=
  all_finished w ∧ next ≤ n ∧ ∀ j, j < next → j ≠ pos → opened w !! j = Some false.

Definition cleaner_ok (w : Race) : Prop :=
  match main w, cleaner w with
  | Returned p, Waiting pos => pos = p ∧ received w p
  | Returned p, Stopping pos next => pos = p ∧ received w p ∧ cleaned_to w p next
  | Returned p, Cleaned pos => pos = p ∧ received w p ∧ cleaned_to w p n
  | (Selecting | TimedOut), NotStarted => True
  | _, _ => False
  end.

Record race_ok (w : Race) : Prop := {
  ok_gs : length (gs w) = n;
  ok_opened : length (opened w) = n;
  ok_goroutines : ∀ i g, gs w !! i = Some g → goroutine_ok w i g;
  ok_cleaner : cleaner_ok w;
}.

Lemma race_start_ok : race_ok race_start.
Proof.
  split; cbn; [apply length_replicate..| |done]. intros i g Hi.
  apply lookup_replicate in Hi as [-> Hi]. cbn. by apply lookup_replicate_2.
Qed.

(** A goroutine that is not finished does a step: the clean-up has not begun,
    and its tunnel is not the one that was received. *)
Lemma goroutine_step w i g g' o :
  race_ok w → gs w !! i = Some g → g ≠ Finished →
  length o = n → (∀ j, j ≠ i → o !! j = opened w !! j) →
  goroutine_ok {| w with gs := <[i := g']> (gs w); opened := o |} i g' →
  race_ok {| w with gs := <[i := g']> (gs w); opened := o |}.
Proof.
  intros [H1 H2 H3 H4] Hi Hg Ho Hj Hok. pose proof (lookup_lt_Some _ _ _ Hi) as Hlt. split; cbn.
  - by rewrite length_insert.
  - done.
  - intros j gj Hgj. apply list_lookup_insert_Some in Hgj as [(<- & <- & _)|[Hne Hgj]]; [done|].
    specialize (H3 j gj Hgj). destruct gj; cbn in *; rewrite ?Hj by done; done.
  - assert (Hrec : ∀ p, received w p → received {| w with gs := <[i := g']> (gs w); opened := o |} p).
    { intros p (R1 & R2 & R3 & R4). assert (p ≠ i) by (intros ->; congruence).
      unfold received; cbn. split_and!; [done|done|by rewrite list_lookup_insert_ne|by rewrite Hj]. }
    assert (Hnot : ∀ p k, ¬ cleaned_to w p k) by (intros p k (Hall & _); apply Hg; by eapply Hall).
    unfold cleaner_ok in *; cbn. destruct (main w), (cleaner w); try done; [naive_solver|..]; naive_solver.
Qed.

Lemma set_goroutine_ok w i g g' :
  race_ok w → gs w !! i = Some g → g ≠ Finished →
  goroutine_ok w i g' → race_ok (set_goroutine w i g').
Proof.
  intros Hw Hi Hg Hok. apply (goroutine_step w i g g' (opened w)); try done. apply Hw.
Qed.

Lemma at_goroutine_Some w i g w1 w' : at_goroutine w i g w1 = Some w' ↔ gs w !! i = Some g ∧ w' = w1.
Proof. unfold at_goroutine. case_decide; naive_solver. Qed.

Lemma all_finished_spec w : forallb (λ g, bool_decide (g = Finished)) (gs w) = true ↔ all_finished w.
Proof.
  unfold all_finished. rewrite forallb_forall. setoid_rewrite <-list_elem_of_In. setoid_rewrite bool_decide_eq_true.
  split; [intros H i g Hi; by eapply H, list_elem_of_lookup_2|].
  intros H g (i & Hi)%list_elem_of_lookup. by eapply H.
Qed.

Lemma send_ok w i : race_ok w → main w = Selecting → gs w !! i = Some Sending →
  let w' := set_goroutine w i Finished in race_ok {| w' with main := Returned i; cleaner := Waiting i |}.
Proof.
  intros Hw Hm Hi w'. pose proof (set_goroutine_ok w i Sending Finished Hw Hi ltac:(done) I) as [H1 H2 H3 H4].
  destruct (ok_goroutines w Hw i Sending Hi) as [Ho Ha]. pose proof (lookup_lt_Some _ _ _ Hi) as Hlt.
  split; [done..|]. unfold cleaner_ok; cbn. rewrite (ok_gs w Hw) in Hlt.
  unfold received; cbn. split_and!; [done..|apply list_lookup_insert_eq; by rewrite (ok_gs w Hw)|done].
Qed.

Lemma stop_next_ok w pos next : race_ok w → cleaner w = Stopping pos next → next < n →
  let w' := {| w with cleaner := Stopping pos (S next) |} in
  race_ok (if decide (next = pos) then w' else set_open w' next false).
Proof.
  intros [H1 H2 H3 H4] Hc Hlt w'. unfold cleaner_ok in H4. rewrite Hc in H4.
  destruct (main w) as [|p|] eqn:Em; [done| |done]. destruct H4 as (-> & Hrec & Hall & Hle & Hcl).
  assert (Hfin : ∀ i g, gs w !! i = Some g → goroutine_ok w' i g) by (intros i g ->%Hall; done).
  case_decide as Hd.
  - split; [done..|]. unfold cleaner_ok, w'; cbn. rewrite ?Em. split; [done|]. split; [done|]. split_and!; [done|lia|].
    intros j Hj Hne. apply Hcl; [lia|done].
  - split; cbn; [done|by rewrite length_insert|intros i g Hi; by rewrite (Hall i g Hi)|].
    destruct Hrec as (R1 & R2 & R3 & R4).
    unfold cleaner_ok, w'; cbn. rewrite ?Em. unfold received, cleaned_to; cbn.
    split_and!; [done..|by rewrite list_lookup_insert_ne|done|lia|]. intros j Hj Hne. destruct (decide (j = next)) as [->|Hn].
    + apply list_lookup_insert_eq. lia.
    + rewrite list_lookup_insert_ne by done. apply Hcl; [lia|done].
Qed.

Lemma rstep_ok w e w' : race_ok w → rstep w e = Some w' → race_ok w'.
Proof.
  intros Hw. destruct e as [i|i|i|i|i| | |]; cbn [rstep].
  - intros (Hi & ->)%at_goroutine_Some. pose proof (lookup_lt_Some _ _ _ Hi) as Hlt. rewrite (ok_gs w Hw) in Hlt.
    apply (goroutine_step w i Starting Asking (<[i := true]> (opened w))); [done..| | |].
    + rewrite length_insert. apply Hw.
    + intros j Hj. by rewrite list_lookup_insert_ne.
    + cbn. apply list_lookup_insert_eq. by rewrite (ok_opened w Hw).
  - intros (Hi & ->)%at_goroutine_Some. by eapply set_goroutine_ok.
  - intros (Hi & ->)%at_goroutine_Some. by eapply set_goroutine_ok.
  - intros (Hi & ->)%at_goroutine_Some. eapply set_goroutine_ok; [done..|].
    pose proof (ok_goroutines w Hw i _ Hi) as Ho. by destruct (active i) eqn:Ea.
  - destruct (main w) eqn:Em; [|done..]. intros (Hi & ->)%at_goroutine_Some. by apply send_ok.
  - destruct (main w) eqn:Em; [|done..]. intros [= <-]. destruct Hw as [H1 H2 H3 H4]. split; [done..|].
    unfold cleaner_ok in *; cbn. by rewrite Em in H4.
  - destruct (cleaner w) as [|pos| |] eqn:Ec; try done. destruct (forallb _ _) eqn:Ef; [|done]. intros [= <-].
    apply all_finished_spec in Ef. destruct Hw as [H1 H2 H3 H4]. split; [done..|].
    unfold cleaner_ok in *; cbn. rewrite Ec in H4. destruct (main w); [done| |done].
    destruct H4 as [-> Hr]. split; [done|]. split; [done|]. split_and!; [done|lia|]. intros j Hj; lia.
  - destruct (cleaner w) as [| |pos next|] eqn:Ec; try done. case_decide as Hlt; intros [= <-].
    + by apply stop_next_ok.
    + destruct Hw as [H1 H2 H3 H4]. split; [done..|]. unfold cleaner_ok in *; cbn. rewrite Ec in H4.
      destruct (main w); [done| |done]. destruct H4 as (-> & Hr & Hall & Hle & Hcl).
      assert (next = n) as -> by lia. done.
Qed.

Lemma race_reaches_ok es w w' : race_ok w → race w es = Some w' → race_ok w'.
Proof.
  revert w; induction es as [|e es IH]; intros w Hw; cbn; [by intros [= <-]|].
  destruct (rstep w e) as [w1|] eqn:E; cbn; [|done]. intros H. eapply IH; [|done]. by eapply rstep_ok.
Qed.

(** ** The steps that are left *)

Definition weight (g : Goroutine) : nat :=
  match g with Starting => 3 | Asking => 2 | Sending => 1 | Finished => 0 end.

Definition steps_left (w : Race) : nat :=
  sum_list_with weight (gs w) + match main w with Selecting => 1 | _ => 0 end +
  match cleaner w with
  | NotStarted => n + 3
  | Waiting _ => n + 2
  | Stopping _ next => n - next + 1
  | Cleaned _ => 0
  end.

Lemma sum_insert l i g g' :
  l !! i = Some g → sum_list_with weight (<[i := g']> l) + weight g = sum_list_with weight l + weight g'.
Proof.
  revert i; induction l as [|x l IH]; intros [|i] Hi; try done; simpl in *; [injection Hi as ->; lia|].
  specialize (IH i Hi). lia.
Qed.

Lemma rstep_decreases w e w' : race_ok w → rstep w e = Some w' → steps_left w' < steps_left w.
Proof.
  intros [_ _ _ Hc]. unfold cleaner_ok in Hc. unfold steps_left. destruct e as [i|i|i|i|i| | |]; cbn [rstep].
  1-4: intros (Hi & ->)%at_goroutine_Some; cbn [set_open set_goroutine gs main cleaner].
  - pose proof (sum_insert _ _ _ Asking Hi); cbn [weight] in *; lia.
  - pose proof (sum_insert _ _ _ Finished Hi); cbn [weight] in *; lia.
  - pose proof (sum_insert _ _ _ Finished Hi); cbn [weight] in *; lia.
  - pose proof (sum_insert _ _ _ (if active i then Sending else Finished) Hi); destruct (active i); cbn [weight] in *; lia.
  - destruct (main w) eqn:Em; [|done..]. intros (Hi & ->)%at_goroutine_Some; cbn [set_open set_goroutine gs main cleaner].
    pose proof (sum_insert _ _ _ Finished Hi); cbn [weight] in *. destruct (cleaner w); [lia|done..].
  - destruct (main w) eqn:Em; [|done..]. intros [= <-]; cbn [gs main cleaner].
    lia.
  - destruct (cleaner w) as [|pos| |] eqn:Ec; try done. destruct (forallb _ _); [|done]. intros [= <-]; cbn [gs main cleaner]. lia.
  - destruct (cleaner w) as [| |pos next|] eqn:Ec; try done. case_decide as Hlt; intros [= <-]; [case_decide|]; cbn [set_open gs main cleaner]; rewrite ?Ec; lia.
Qed.

Lemma race_bounded es w w' : race_ok w → race w es = Some w' → length es + steps_left w' ≤ steps_left w.
Proof.
  revert w; induction es as [|e es IH]; intros w Hw; cbn; [intros [= <-]; lia|].
  destruct (rstep w e) as [w1|] eqn:E; cbn; [|done]. intros H. apply IH in H; [|by eapply rstep_ok].
  apply rstep_decreases in E; [lia|done].
Qed.

Lemma start_steps : steps_left race_start = 4 * n + 4.
Proof.
  unfold steps_left, race_start; cbn. assert (H : sum_list_with weight (replicate n Starting) = 3 * n); [|lia].
  clear active. induction n as [|k IH]; simpl; lia.
Qed.

(** Only one node is active. *)
Definition one_active : Prop := ∀ i j, active i = true → active j = true → i = j.

Lemma progress w p :
  one_active → race_ok w → main w = Returned p → (∀ e, rstep w e = None) → cleaner w = Cleaned p.
Proof.
  intros Hone Hw Hm Hstuck. destruct Hw as [H1 H2 H3 H4]. unfold cleaner_ok in H4. rewrite Hm in H4.
  assert (Hmove : ∀ i g w', gs w !! i = Some g → at_goroutine w i g w' ≠ None)
    by (intros i g w' Hi; unfold at_goroutine; by rewrite decide_True).
  destruct (cleaner w) as [|pos|pos next|pos] eqn:Ec; [done| | |by destruct H4 as [-> _]].
  - destruct H4 as [-> (R1 & R2 & R3 & R4)]. pose proof (Hstuck AllDone) as Hd; cbn in Hd. rewrite Ec in Hd.
    destruct (forallb _ _) eqn:Ef; [done|]. assert (Hall : all_finished w).
    { intros i [] Hi; [by destruct (Hmove i _ _ Hi (Hstuck (StartFails i)))
                      |by destruct (Hmove i _ _ Hi (Hstuck (HealthFails i)))| |done].
      destruct (H3 i _ Hi) as [_ Ha]. assert (i = p) as -> by (by apply Hone). congruence. }
    apply all_finished_spec in Hall. congruence.
  - pose proof (Hstuck StopNext) as Hd; cbn in Hd. rewrite Ec in Hd. by destruct (decide (next < n)).
Qed.

(** The tunnel that [TunnelFromFQDNs] returns leads to an active node of
    Vault and stays open, however the goroutines interleave: the clean-up
    never stops it. *)
Theorem tunnel_active es w pos :
  race race_start es = Some w → main w = Returned pos →
  pos < n ∧ active pos = true ∧ opened w !! pos = Some true.
Proof.
  intros Hr Hm. destruct (race_reaches_ok _ _ _ race_start_ok Hr) as [_ _ _ H4].
  unfold cleaner_ok in H4. rewrite Hm in H4.
  assert (received w pos) as (? & ? & _ & ?); [|done]. destruct (cleaner w); naive_solver.
Qed.

(** C18: No tunnel is leaked when one node at most is active: every execution
    ends after at most [4 * n + 4] steps, and if a tunnel was returned it is
    then the only one open. *)
Theorem tunnels_cleaned es w pos :
  one_active → race race_start es = Some w →
  length es ≤ 4 * n + 4 ∧
  (main w = Returned pos → (∀ e, rstep w e = None) → ∀ j, opened w !! j = Some true ↔ j = pos).
Proof.
  intros Hone Hr. split; [pose proof (race_bounded _ _ _ race_start_ok Hr); rewrite start_steps in *; lia|].
  intros Hm Hstuck. pose proof (race_reaches_ok _ _ _ race_start_ok Hr) as Hw.
  pose proof (progress w pos Hone Hw Hm Hstuck) as Hc. destruct Hw as [_ Ho _ H4].
  unfold cleaner_ok in H4. rewrite Hm, Hc in H4. destruct H4 as (_ & (R1 & R2 & R3 & R4) & _ & _ & Hcl).
  intros j; split; [|by intros ->]. intros Hj. destruct (decide (j = pos)) as [|Hne]; [done|].
  rewrite Hcl in Hj; [done| |done]. rewrite <-Ho. by eapply lookup_lt_Some.
Qed.

Lemma stays_open w e w' i :
  cleaner w = NotStarted → main w = TimedOut → rstep w e = Some w' →
  cleaner w' = NotStarted ∧ main w' = TimedOut ∧ (opened w !! i = Some true → opened w' !! i = Some true).
Proof.
  intros Hc Hm. destruct e as [j|j|j|j|j| | |]; cbn [rstep]; rewrite ?Hc, ?Hm; try done;
    intros (Hj & ->)%at_goroutine_Some; cbn; split_and!; try done.
  intros Hi. destruct (decide (i = j)) as [->|Hne]; [|by rewrite list_lookup_insert_ne].
  apply list_lookup_insert_eq. by eapply lookup_lt_Some.
Qed.

(** After a timeout nothing is cleaned up: a tunnel that is open then, or
    opened later, stays open, whatever happens. *)
Theorem timeout_leaks es1 es2 w w' i :
  race race_start es1 = Some w → main w = TimedOut → race w es2 = Some w' →
  opened w !! i = Some true → opened w' !! i = Some true.
Proof.
  intros Hr Hm. assert (Hc : cleaner w = NotStarted).
  { destruct (race_reaches_ok _ _ _ race_start_ok Hr) as [_ _ _ H4]. unfold cleaner_ok in H4. rewrite Hm in H4.
    by destruct (cleaner w). }
  clear Hr. revert w Hm Hc. induction es2 as [|e es IH]; intros w Hm Hc; cbn; [by intros [= <-]|].
  destruct (rstep w e) as [w1|] eqn:E; cbn; [|done]. intros Hr Hi.
  destruct (stays_open _ _ _ i Hc Hm E) as (? & ? & Ho). by eapply IH; auto.
Qed.

End Race.

(** With two active nodes, as during a change of the leader, the second one
    is never received: its goroutine blocks on the channel, the clean-up waits
    for it for ever and its tunnel stays open. *)
Theorem two_active_leak :
  ∃ es w, race 2 (λ _, true) (race_start 2) es = Some w ∧ main w = Returned 0 ∧
    (∀ e, rstep 2 (λ _, true) w e = None) ∧ opened w !! 1 = Some true.
Proof.
  exists [StartSucceeds 0; StartSucceeds 1; HealthAnswers 0; HealthAnswers 1; Send 0].
  eexists; split; [reflexivity|]. cbn. split; [done|]. split; [|done].
  intros [[|[|i]]|[|[|i]]|[|[|i]]|[|[|i]]|i| | |]; done.
Qed.

(** ** Witnesses *)

(** Node 1 of 3 is active, node 2 does not start. *)
Definition second (i : nat) : bool := bool_decide (i = 1).

Definition example_race : list REvent :=
  [StartSucceeds 0; StartFails 2; StartSucceeds 1; HealthAnswers 1; Send 1; HealthAnswers 0; AllDone;
   StopNext; StopNext; StopNext; StopNext].

Definition example_end : Race :=
  {| gs := [Finished; Finished; Finished]; opened := [false; true; false]; main := Returned 1; cleaner := Cleaned 1 |}.

Lemma tunnel_active_witness : 1 < 3 ∧ second 1 = true ∧ opened example_end !! 1 = Some true.
Proof. apply (tunnel_active 3 second example_race); reflexivity. Defined.

Lemma tunnels_cleaned_witness :
  length example_race ≤ 16 ∧
  (main example_end = Returned 1 → (∀ e, rstep 3 second example_end e = None) →
   ∀ j, opened example_end !! j = Some true ↔ j = 1).
Proof.
  apply (tunnels_cleaned 3 second example_race example_end 1); [|reflexivity].
  intros i j Hi%bool_decide_eq_true Hj%bool_decide_eq_true. congruence.
Defined.

Lemma timeout_leaks_witness :
  opened {| gs := [Sending]; opened := [true]; main := TimedOut; cleaner := NotStarted |} !! 0 = Some true.
Proof.
  apply (timeout_leaks 1 (λ _, true) [StartSucceeds 0; Timeout] [HealthAnswers 0]
    {| gs := [Asking]; opened := [true]; main := TimedOut; cleaner := NotStarted |}); reflexivity.
Defined.
