(* ===== verification/Rpc.v ===== *)
(** * Rpc: the calls Terraform makes back into tarmak

    While Terraform applies a cluster, the resources of its tarmak provider
    ([src/pkg/terraform/providers/tarmak]) call the process that started it,
    over the RPC server of [src/pkg/terraform/providers/tarmak/rpc]: is the
    bastion reachable, is Vault initialised and set up, which token does a role
    of instances start with.

    The handlers and the resources are programs of calls ([Calls]) to Vault
    ([Vault], [VaultTunnels]) and to the library vault-helper.  A deferred call
    is the last call of the program, after whatever it returns. *)

From S2P Require Import Prelude Types Calls.

(** ** Calls *)

Inductive RCall :=
| GetState
| VerifyBastionAvailable
| VerifyInit
| OpenTunnel
| StopTunnel
| GetRootToken
| SetToken (token : string)
| Lock
| Unlock
| EnsureDryRun
| Ensure
| InitTokens
| AskInitStatus
| SetInitToken (token : string).

(** [GetState] answers the state of the cluster, [EnsureDryRun] whether changes
    are needed. *)
Definition answer (c : RCall) : Type :=
  match c with
  | GetState => string
  | StopTunnel | SetToken _ | Lock | Unlock => unit
  | GetRootToken => string + error
  | EnsureDryRun | AskInitStatus => bool + error
  | InitTokens => gmap string string
  | _ => option error
  end.

#[local] Abbreviation Prog := (Calls.Prog answer).
#[local] Abbreviation event := (Calls.event answer).

(** ** The handlers *)

Definition wrap (msg : string) (err : error) : error := Errorf (msg +:+ error_string err).

(** A cluster that is being destroyed is not looked at. *)
Definition unless_destroyed (unknown : string) (k : Prog (string + error)) : Prog (string + error) :=
  st ← call GetState;
  if decide ((st : string) = StateDestroy) then mret (inl unknown) else k.

(** Open a tunnel, read the root token and go on, and stop the tunnel. *)
Definition with_tunnel (token_error : string) (k : Prog (string + error)) : Prog (string + error) :=
  r ← call OpenTunnel;
  match (r : option error) with
  | Some err => mret (inr (wrap "failed to create vault tunnel: " err))
  | None =>
      r ← (t ← call GetRootToken;
           match (t : string + error) with
           | inr err => mret (inr (wrap token_error err))
           | inl vaultRootToken => _ ← call (SetToken vaultRootToken); k
           end);
      _ ← call StopTunnel;
      mret r
  end.

Definition locked (k : Prog (string + error)) : Prog (string + error) :=
  _ ← call Lock; r ← k; _ ← call Unlock; mret r.

(** Bring Vault up to date, if that is what the caller wants. *)
Definition ensured (create : bool) (k : Prog (string + error)) : Prog (string + error) :=
  r ← call EnsureDryRun;
  match (r : bool + error) with
  | inr err => mret (inr (wrap "vault cluster is not ready: " err))
  | inl true =>
      if create then
        r ← call Ensure;
        match (r : option error) with
        | Some err => mret (inr (wrap "vault cluster is not ready: " err))
        | None => k
        end
      else mret (inr (Errorf "changes needed on vault cluster"))
  | inl false => k
  end.

Definition VaultClusterStatus (create : bool) : Prog (string + error) :=
  unless_destroyed "unknown" $
  r ← call VerifyInit;
  match (r : option error) with
  | Some err => mret (inr (wrap "failed to initialise vault cluster: " err))
  | None =>
      with_tunnel "failed to retrieve vault root token: " (locked (ensured create (mret (inl "ready"))))
  end.

(** The token of the role; without one the message prints a nil error. *)
Definition VaultInstanceRole (roleName : string) (create : bool) : Prog (string + error) :=
  unless_destroyed "" $
  with_tunnel "failed to retrieve root token: " $ locked $ ensured create $
  initTokens ← call InitTokens;
  mret match (initTokens : gmap string string) !! roleName with
       | Some initToken => inl initToken
       | None => inr (Errorf ("could not get init token for role " +:+ roleName +:+ ": %!s(<nil>)"))
       end.

(** Ask until there is an answer, [k] times more at most. *)
Fixpoint ask_init (k : nat) : Prog (bool + error) :=
  r ← call AskInitStatus;
  match (r : bool + error), k with
  | inr _, S k' => ask_init k'
  | r, _ => mret r
  end.

Definition Retries : nat := 60.

Definition VaultClusterInitStatus : Prog (string + error) :=
  unless_destroyed "unknown" $
  with_tunnel "failed to retrieve vault root token: " $
  r ← ask_init (Retries - 1);
  mret match (r : bool + error) with
       | inr err => inr (wrap "failed to retrieve init status: " err)
       | inl false => inr (Errorf "failed to initialised vault cluster")
       | inl true => inl "ready"
       end.

Fixpoint ask_bastion (k : nat) : Prog (option error) :=
  r ← call VerifyBastionAvailable;
  match (r : option error), k with
  | Some _, S k' => ask_bastion k'
  | r, _ => mret r
  end.

Definition BastionInstanceStatus : Prog (string + error) :=
  unless_destroyed "unknown" $
  r ← ask_bastion (Retries - 1);
  mret match (r : option error) with
       | Some err => inr (wrap "bastion instance is not ready: " err)
       | None => inl "ready"
       end.

(** The methods of the server. *)
Inductive Method := BastionStatus | ClusterStatus | ClusterInitStatus | InstanceRole (roleName : string).

Definition serve (m : Method) (create : bool) : Prog (string + error) :=
  match m with
  | BastionStatus => BastionInstanceStatus
  | ClusterStatus => VaultClusterStatus create
  | ClusterInitStatus => VaultClusterInitStatus
  | InstanceRole roleName => VaultInstanceRole roleName create
  end.

(** ** The resources

    [res_Id] empty means that the resource is gone; [res_value] is the status
    or the token.  [md5] is the hash of the names of the instances. *)
Record Resource := { res_Id : string; res_value : string }.

Definition gone (d : Resource) : Resource := {| d with res_Id := "" |}.

Definition resourceTarmakVaultClusterCreate (md5 : string) (d : Resource) : Prog (Resource * option error) :=
  r ← serve ClusterStatus true;
  mret match (r : string + error) with
       | inr err => (gone d, Some (wrap "call to Tarmak.VaultClusterStatus failed: " err))
       | inl status => ({| res_Id := md5; res_value := status |}, None)
       end.

Definition resourceTarmakVaultClusterRead (d : Resource) : Prog (Resource * option error) :=
  r ← serve ClusterInitStatus false;
  mret match (r : string + error) with
       | inr _ => (gone d, None)
       | inl status => ({| d with res_value := status |}, None)
       end.

Definition resourceTarmakVaultInstanceRoleCreate (roleName : string) (d : Resource) : Prog (Resource * option error) :=
  r ← serve (InstanceRole roleName) true;
  match (r : string + error) with
  | inr err => mret (gone d, Some (wrap "call to Tarmak.VaultInstanceRole failed: " err))
  | inl token =>
      r ← call (SetInitToken token);
      mret match (r : option error) with
           | Some err => (d, Some (wrap "failed to set init token: " err))
           | None => ({| res_Id := token; res_value := token |}, None)
           end
  end.

Definition resourceTarmakVaultInstanceRoleRead (roleName : string) (d : Resource) : Prog (Resource * option error) :=
  r ← serve (InstanceRole roleName) false;
  match (r : string + error) with
  | inr _ => mret (gone d, None)
  | inl token =>
      r ← call (SetInitToken token);
      mret match (r : option error) with
           | Some _ => (gone d, None)
           | None => ({| res_Id := token; res_value := token |}, None)
           end
  end.

(** ** What happened so far *)

(** Whether the lock is held and whether a tunnel is open. *)
Definition mode_step (m : bool * bool) (e : event) : bool * bool :=
  match e with
  | Ev Lock _ => (true, m.2)
  | Ev Unlock _ => (false, m.2)
  | Ev OpenTunnel None => (m.1, true)
  | Ev StopTunnel _ => (m.1, false)
  | _ => m
  end.

Definition mode (h : list event) : bool * bool := foldl mode_step (false, false) h.

(** The cluster is not being destroyed, as far as it is known. *)
Definition alive (h : list event) : Prop := ∃ st, Ev GetState st ∈ h ∧ st ≠ StateDestroy.

(** Vault is accessed with the root token. *)
Definition authorised (h : list event) : Prop := ∃ token, Ev GetRootToken (inl token) ∈ h ∧ Ev (SetToken token) () ∈ h.

(** Vault needs no changes. *)
Definition in_sync (h : list event) : Prop := Ev EnsureDryRun (inl false) ∈ h ∨ Ev Ensure None ∈ h.

Definition served (m : Method) (h : list event) (v : string) : Prop :=
  match m with
  | BastionStatus => v = "ready" ∧ Ev VerifyBastionAvailable None ∈ h
  | ClusterStatus => v = "ready" ∧ Ev VerifyInit None ∈ h ∧ in_sync h
  | ClusterInitStatus => v = "ready" ∧ Ev AskInitStatus (inl true) ∈ h
  | InstanceRole roleName => in_sync h ∧ ∃ tokens, Ev InitTokens tokens ∈ h ∧ tokens !! roleName = Some v
  end.

Definition unknown_value (m : Method) : string := match m with InstanceRole _ => "" | _ => "unknown" end.

(** What a handler may do. *)
Definition rpc_ok (create : bool) (h : list event) (c : RCall) : Prop :=
  match c with
  | GetState => True
  | Ensure => create = true ∧ alive h ∧ authorised h ∧ mode h = (true, true) ∧
              ∃ h', h = h' ++ [Ev EnsureDryRun (inl true)]
  | EnsureDryRun | InitTokens => alive h ∧ authorised h ∧ mode h = (true, true)
  | AskInitStatus => alive h ∧ authorised h ∧ mode h = (false, true)
  | OpenTunnel | Lock => alive h ∧ (mode h).1 = false
  | SetToken token => alive h ∧ Ev GetRootToken (inl token) ∈ h
  | _ => alive h
  end.

Lemma mode_snoc h e : mode (h ++ [e]) = mode_step (mode h) e.
Proof. apply foldl_snoc. Qed.

Lemma alive_mono h h' : h ⊆ h' → alive h → alive h'.
Proof. intros Hs (st & H1 & H2). exists st; auto. Qed.

Lemma authorised_mono h h' : h ⊆ h' → authorised h → authorised h'.
Proof. intros Hs (t & H1 & H2). exists t; auto. Qed.

Lemma in_sync_mono h h' : h ⊆ h' → in_sync h → in_sync h'.
Proof. intros Hs [H|H]; [left|right]; auto. Qed.

Lemma served_mono m h h' v : h ⊆ h' → served m h v → served m h' v.
Proof.
  intros Hs. destruct m; cbn; [naive_solver|intros (? & ? & ?); eauto using in_sync_mono|naive_solver|].
  intros (H1 & ts & H2 & H3). split; [by eapply in_sync_mono|]. exists ts; auto.
Qed.

#[local] Hint Resolve sub_snoc alive_mono authorised_mono in_sync_mono in_last in_before : events.

Section Handlers.
Context (create : bool).
#[local] Abbreviation safe := (safe (rpc_ok create)).

(** The result of a handler: [G] of the value, or an error. *)
Definition post (m : bool * bool) (G : list event → string → Prop) (h : list event) (r : string + error) : Prop :=
  mode h = m ∧ match r with inl v => G h v | inr _ => True end.

Lemma unless_destroyed_safe unknown k G :
  (∀ h, alive h → mode h = (false, false) → safe h k (post (false, false) G)) →
  safe [] (unless_destroyed unknown k)
    (post (false, false) (λ h v, v = unknown ∧ Ev GetState StateDestroy ∈ h ∨ G h v)).
Proof.
  intros Hk. apply safe_call; [done|]. intros st. case_decide as Hd.
  - split; [done|]. left. split; [done|]. rewrite <-Hd. apply in_last.
  - eapply safe_mono; [apply Hk; [exists st; split; [apply in_last|done]|done]|].
    intros h [v|err] _ [H1 H2]; split; auto.
Qed.

Lemma with_tunnel_safe msg k G h :
  (∀ h h' v, h ⊆ h' → G h v → G h' v) → alive h → mode h = (false, false) →
  (∀ h', h ⊆ h' → alive h' → authorised h' → mode h' = (false, true) → safe h' k (post (false, true) G)) →
  safe h (with_tunnel msg k) (post (false, false) G).
Proof.
  intros HG Ha Hm Hk. apply safe_call; [by split; [|rewrite Hm]|]. intros [err|]; [by split; [rewrite mode_snoc, Hm|]|].
  set (h1 := h ++ [_]). assert (M1 : mode h1 = (false, true)) by (unfold h1; by rewrite mode_snoc, Hm).
  assert (A1 : alive h1) by eauto with events.
  apply safe_bind. eapply (safe_mono _ _ _ (post (false, true) G)).
  - apply safe_call; [done|]. intros [token|err]; [|by split; [rewrite mode_snoc, M1|]].
    apply safe_call; [split; eauto with events|]. intros []. apply Hk.
    + unfold h1. intros e He; eauto with events.
    + eauto with events.
    + exists token. split; eauto with events.
    + by rewrite !mode_snoc, M1.
  - intros h2 r S2 [M2 G2]. apply safe_call; [by eapply alive_mono|]. intros []. split; [by rewrite mode_snoc, M2|].
    destruct r; [|done]. eapply HG; [apply sub_snoc|done].
Qed.

Lemma locked_safe k G h :
  (∀ h h' v, h ⊆ h' → G h v → G h' v) → alive h → authorised h → mode h = (false, true) →
  (∀ h', h ⊆ h' → alive h' → authorised h' → mode h' = (true, true) → safe h' k (post (true, true) G)) →
  safe h (locked k) (post (false, true) G).
Proof.
  intros HG Ha Hu Hm Hk. apply safe_call; [by split; [|rewrite Hm]|]. intros []. apply safe_bind. eapply safe_mono.
  - apply Hk; [apply sub_snoc|eauto with events..|]. by rewrite mode_snoc, Hm.
  - intros h2 r S2 [M2 G2]. apply safe_call; [eapply alive_mono; [exact S2|]; eauto with events|]. intros [].
    split; [by rewrite mode_snoc, M2|]. destruct r; [|done]. eapply HG; [apply sub_snoc|done].
Qed.

Lemma ensured_safe c k G h :
  (c = true → create = true) → alive h → authorised h → mode h = (true, true) →
  (∀ h', h ⊆ h' → alive h' → authorised h' → mode h' = (true, true) → in_sync h' → safe h' k (post (true, true) G)) →
  safe h (ensured c k) (post (true, true) G).
Proof.
  intros Hc Ha Hu Hm Hk. apply safe_call; [done|]. intros [[]|err]; cbn beta iota.
  - destruct c; [|by split; [rewrite mode_snoc, Hm|]].
    apply safe_call; [split_and!; [by apply Hc|eauto with events..|by rewrite mode_snoc, Hm|by exists h]|].
    intros [err|]; [by split; [rewrite !mode_snoc, Hm|]|].
    apply Hk; [intros e He; eauto with events|eauto with events..|by rewrite !mode_snoc, Hm|right; apply in_last].
  - apply Hk; [apply sub_snoc|eauto with events..|by rewrite mode_snoc, Hm|left; apply in_last].
  - by split; [rewrite mode_snoc, Hm|].
Qed.

Lemma ask_init_safe k h :
  alive h → authorised h → mode h = (false, true) →
  safe h (ask_init k) (λ h' r, mode h' = (false, true) ∧ (r = inl true → Ev AskInitStatus (inl true) ∈ h')).
Proof.
  revert h; induction k as [|k IH]; intros h Ha Hu Hm; cbn [ask_init]; (apply safe_call; [done|]); intros [b|err];
    cbn beta iota; try (split; [by rewrite mode_snoc, Hm|intros [= ->]; apply in_last]).
  apply IH; eauto with events. by rewrite mode_snoc, Hm.
Qed.

Lemma ask_bastion_safe k h :
  alive h → mode h = (false, false) →
  safe h (ask_bastion k) (λ h' r, mode h' = (false, false) ∧ (r = None → Ev VerifyBastionAvailable None ∈ h')).
Proof.
  revert h; induction k as [|k IH]; intros h Ha Hm; cbn [ask_bastion]; (apply safe_call; [done|]); intros [err|];
    cbn beta iota; try (split; [by rewrite mode_snoc, Hm|intros; apply in_last || done]).
  apply IH; eauto with events. by rewrite mode_snoc, Hm.
Qed.

End Handlers.

Lemma serve_safe m create :
  safe (rpc_ok create) [] (serve m create)
    (post (false, false) (λ h v, v = unknown_value m ∧ Ev GetState StateDestroy ∈ h ∨ served m h v)).
Proof.
  assert (HG : ∀ h h' v, h ⊆ h' → served m h v → served m h' v) by (intros; by eapply served_mono).
  destruct m as [| | |role]; apply unless_destroyed_safe; intros h Ha Hm.
  - apply safe_bind. eapply safe_mono; [by apply ask_bastion_safe|].
    intros h' [err|] _ [M H]; (split; [done|]); [done|]. split; auto.
  - apply safe_call; [done|]. intros [err|]; [by split; [rewrite mode_snoc, Hm|]|].
    apply with_tunnel_safe; [done|eauto with events|by rewrite mode_snoc, Hm|]. intros h1 S1 A1 U1 M1.
    apply locked_safe; [done..|]. intros h2 S2 A2 U2 M2. apply ensured_safe; [done..|].
    intros h3 S3 A3 U3 M3 H3. split; [done|]. split_and!; [done| |done]. apply S3, S2, S1, in_last.
  - apply with_tunnel_safe; [done..|]. intros h1 S1 A1 U1 M1. apply safe_bind.
    eapply safe_mono; [by apply ask_init_safe|]. intros h2 [[]|err] _ [M2 H2]; (split; [done|]); [|done..].
    split; [done|by apply H2].
  - apply with_tunnel_safe; [done..|]. intros h1 S1 A1 U1 M1. apply locked_safe; [done..|].
    intros h2 S2 A2 U2 M2. apply ensured_safe; [done..|]. intros h3 S3 A3 U3 M3 H3.
    apply safe_call; [done|]. intros tokens. cbn [answer] in tokens. split; [by rewrite mode_snoc, M3|].
    destruct (tokens !! role) as [t|] eqn:Et; [|done]. split; [eauto with events|]. exists tokens; eauto with events.
Qed.


(** ** Resources *)

(** Reading a resource changes nothing in Vault. *)
Definition read_only (h : list event) (c : RCall) : Prop := c ≠ Ensure.

Lemma safe_weaken {A} (P P' : list event → RCall → Prop) h (m : Prog A) Q :
  (∀ h c, P h c → P' h c) → safe P h m Q → safe P' h m Q.
Proof.
  intros HP. revert h; induction m as [a| |c k IH]; intros h; cbn; [done..|]. intros [H1 H2]; split; auto.
Qed.

Lemma serve_read_only m : safe read_only [] (serve m false) (λ _ _, True).
Proof.
  eapply safe_weaken; [|eapply safe_mono; [apply serve_safe|done]]. by intros h [] H; try by intros [=]; destruct H.
Qed.

Definition Read (m : option string) (d : Resource) : Prog (Resource * option error) :=
  match m with
  | None => resourceTarmakVaultClusterRead d
  | Some roleName => resourceTarmakVaultInstanceRoleRead roleName d
  end.

Lemma Read_safe m d : safe read_only [] (Read m d) (λ _ r, r.2 = None).
Proof.
  destruct m; (apply safe_bind; eapply safe_mono; [apply serve_read_only|]); intros h [v|err] _ _; [|done..].
  apply safe_call; [done|]. by intros [].
Qed.

(** No path of the handlers panics. *)
Fixpoint returns {A} (m : Prog A) : Prop :=
  match m with PRet _ => True | PPanic => False | PCall c k => ∀ a, returns (k a) end.

Lemma returns_bind {A B} (m : Prog A) (f : A → Prog B) : returns m → (∀ a, returns (f a)) → returns (m ≫= f).
Proof. unfold mbind, Prog_bind. intros Hm Hf. induction m as [a| |c k IH]; cbn; [apply Hf|done|]. intros a; apply IH, Hm. Qed.

Lemma returns_run {A S} (handle : ∀ c, S → S * answer c) (m : Prog A) s :
  returns m → (run handle m s).2 ≠ Panic.
Proof.
  revert s; induction m as [a| |c k IH]; intros s Hm; cbn; [done..|].
  destruct (handle c s) as [s1 a]. specialize (IH a s1 (Hm a)). by destruct (run handle (k a) s1) as [[es s2] r].
Qed.

Ltac returns :=
  repeat (match goal with
          | |- returns (_ ≫= _) => apply returns_bind
          | |- returns (call _) => intros ?; exact I
          | |- returns (mret _) => exact I
          | |- ∀ _, _ => intros ?
          | |- context [match ?x with _ => _ end] => destruct x
          end; cbn beta iota).

Lemma ask_init_returns k : returns (ask_init k).
Proof. induction k as [|k IH]; intros [b|err]; [done..|exact IH]. Qed.

Lemma serve_returns m create : returns (serve m create).
Proof.
  destruct m; cbn [serve];
    unfold BastionInstanceStatus, VaultClusterStatus, VaultClusterInitStatus, VaultInstanceRole, unless_destroyed, with_tunnel, locked, ensured;
    returns; try apply ask_init_returns.
  generalize (Retries - 1). intros k; induction k as [|k IH]; intros [err|]; [done|done|exact IH|done].
Qed.

Lemma Read_returns m d : returns (Read m d).
Proof. destruct m; (apply returns_bind; [apply serve_returns|]); returns. Qed.

(** Refreshing the resources of Vault never fails and never changes Vault:
    a resource that cannot be read, for whatever reason, counts as gone. *)
Theorem Read_never_fails m d {S} (handle : ∀ c, S → S * answer c) s :
  let '(es, _, r) := run handle (Read m d) s in
  (∃ d', r = Ret (d', None)) ∧ ∀ e, e ∈ es → ev_call e ≠ Ensure.
Proof.
  pose proof (safe_run handle _ _ _ _ s (Read_safe m d)) as H.
  pose proof (returns_run handle (Read m d) s (Read_returns m d)) as Hp.
  destruct (run handle (Read m d) s) as [[es s'] r]. destruct H as [H1 H2]. split.
  - destruct r as [[d' e]|]; [|done]. exists d'. by rewrite <-(H2 _ eq_refl).
  - intros e (h1 & h2 & ->)%list_elem_of_split. by apply (H1 h1 e h2).
Qed.

(** ** Witnesses *)

(** Vault needs changes, and the role has a token. *)
Definition example_rpc (c : RCall) (s : unit) : unit * answer c :=
  match c with
  | GetState => (s, "")
  | GetRootToken => (s, inl "root")
  | EnsureDryRun => (s, inl true)
  | AskInitStatus => (s, inl true)
  | InitTokens => (s, {["worker" := "token"]})
  | StopTunnel | SetToken _ | Lock | Unlock => (s, ())
  | VerifyBastionAvailable | VerifyInit | OpenTunnel | Ensure | SetInitToken _ => (s, None)
  end.

Definition example_role : list event * unit * GoM (string + error) :=
  Eval vm_compute in run example_rpc (serve (InstanceRole "worker") true) ().


Lemma Read_never_fails_witness :
  (∃ d', (run example_rpc (Read (Some "worker") {| res_Id := "token"; res_value := "token" |}) ()).2 = Ret (d', None)).
Proof.
  pose proof (Read_never_fails (Some "worker") {| res_Id := "token"; res_value := "token" |} example_rpc ()) as H.
  destruct (run example_rpc _ ()) as [[es s'] r]. apply H.
Defined.
