(* ===== verification/RpcSocket.v ===== *)
(** * RpcSocket: the socket between Terraform and tarmak

    [newRPCClient] of [src/pkg/terraform/providers/tarmak/client.go], the one
    connection all resources of a provider share, [ListenUnixSocket] of
    [rpc/rpc.go] at its other end, and the data source of the bastion
    ([data_source_bastion_instance.go]), which asks over it.

    A connection is a number.  [dial k] is the outcome of the [k]-th attempt to
    connect since the provider was started; [newRPCClient] runs under a lock, so
    that calls come one after the other. *)

From S2P Require Import Prelude.

(** ** The client *)
Record RpcClient := { rpcClient : option nat; dialed : nat }.

Section client.
Context (dial : nat → nat + error) (socketPath : string).

(** The loop: the attempts made and the connection. *)
Fixpoint dial_loop (tries k : nat) : nat * (nat + error) :=
  match dial k with
  | inl conn => (S k, inl conn)
  | inr err =>
      match tries with
      | 0 => (S k, inr (Errorf ("error connecting to connector socket '" +:+ socketPath +:+ "': " +:+ error_string err)))
      | S tries' => dial_loop tries' (S k)
      end
  end.

Definition dial_tries : nat := 20.

Definition newRPCClient (c : RpcClient) : RpcClient * (nat + error) :=
  match rpcClient c with
  | Some conn => (c, inl conn)
  | None =>
      match dial_loop dial_tries (dialed c) with
      | (k, inl conn) => ({| rpcClient := Some conn; dialed := k |}, inl conn)
      | (k, inr err) => ({| rpcClient := None; dialed := k |}, inr err)
      end
  end.

(** [n] calls, one after the other. *)
Fixpoint clients (n : nat) (c : RpcClient) : RpcClient * list (nat + error) :=
  match n with
  | 0 => (c, [])
  | S n' => let '(c, r) := newRPCClient c in let '(c, rs) := clients n' c in (c, r :: rs)
  end.

Lemma dial_loop_spec tries k :
  let '(k', r) := dial_loop tries k in
  k < k' ∧ k' ≤ S (tries + k) ∧ (∀ j, k ≤ j → S j < k' → ∃ err, dial j = inr err) ∧
  match r with
  | inl conn => ∃ j, k' = S j ∧ dial j = inl conn
  | inr _ => k' = S (tries + k) ∧ ∃ err, dial (tries + k) = inr err
  end.
Proof.
  revert k. induction tries as [|tries IH]; intros k; cbn; destruct (dial k) as [conn|err] eqn:Hk.
  - split_and!; [lia..|]. eauto.
  - split_and!; [lia..|done|eauto].
  - split_and!; [lia..|]. eauto.
  - specialize (IH (S k)). destruct (dial_loop tries (S k)) as [k' r]. destruct IH as (H1 & H2 & H3 & H4). split_and!; [lia..| |].
    + intros j Hj Hlt. destruct (decide (j = k)) as [->|]; [eauto|]. apply H3; lia.
    + destruct r; [done|]. destruct H4 as [-> [err' H4]]. rewrite Nat.add_succ_r in H4. split; [lia|eauto].
Qed.

(** The connection is that of the last attempt; without one all have failed. *)
Definition client_ok (c : RpcClient) : Prop :=
  (∀ j, S j < dialed c → ∃ err, dial j = inr err) ∧
  match rpcClient c with
  | Some conn => ∃ j, dialed c = S j ∧ dial j = inl conn
  | None => ∀ j, j < dialed c → ∃ err, dial j = inr err
  end.

Lemma newRPCClient_ok c : client_ok c →
  let '(c', r) := newRPCClient c in
  client_ok c' ∧ dialed c ≤ dialed c' ≤ dialed c + S dial_tries ∧
  match r with
  | inl conn => rpcClient c' = Some conn
  | inr _ => rpcClient c' = None ∧ dialed c' = dialed c + S dial_tries
  end ∧ (∀ conn, rpcClient c = Some conn → c' = c).
Proof.
  intros [Hall Hc]. unfold newRPCClient. destruct (rpcClient c) as [conn|] eqn:Hr.
  { split_and!; try done; [split; [done|by rewrite Hr]|lia]. }
  pose proof (dial_loop_spec dial_tries (dialed c)) as Hloop. destruct (dial_loop dial_tries (dialed c)) as [k [conn|err]];
    destruct Hloop as (H1 & H2 & H3 & H4); unfold client_ok; cbn; (split_and!; try done; try lia).
  - intros j Hj. destruct (decide (j < dialed c)); [by apply Hc|]. apply H3; lia.
  - intros j Hj. destruct (decide (j < dialed c)); [by apply Hc|]. apply H3; lia.
  - intros j Hj. destruct (decide (j < dialed c)); [by apply Hc|]. destruct H4 as [-> [err' H4]].
    destruct (decide (j = dial_tries + dialed c)) as [->|]; [eauto|]. apply H3; lia.
Qed.

Lemma clients_ok n c : client_ok c →
  let '(c', rs) := clients n c in
  client_ok c' ∧ length rs = n ∧
  (∀ conn, rpcClient c = Some conn → c' = c ∧ Forall (.= inl conn) rs) ∧
  (∀ r conn, r ∈ rs → r = inl conn → rpcClient c' = Some conn) ∧
  dialed c' ≤ dialed c + n * S dial_tries.
Proof.
  revert c. induction n as [|n IH]; intros c Hc; cbn [clients]; [split_and!; try done; [by intros r conn ?%not_elem_of_nil|lia]|].
  pose proof (newRPCClient_ok c Hc) as H. destruct (newRPCClient c) as [c1 r] eqn:Hnew. destruct H as (Hc1 & Hd & Hr & Hsame).
  specialize (IH c1 Hc1). destruct (clients n c1) as [c2 rs]. destruct IH as (Hc2 & Hlen & Hkeep & Hin & Hd2). split_and!; [done|cbn; lia| | |unfold dial_tries in *; lia].
  - intros conn Hconn. assert (c1 = c) as -> by (by eapply Hsame). destruct (Hkeep conn Hconn) as [-> Hrs]. split; [done|]. constructor; [|done].
    unfold newRPCClient in Hnew. rewrite Hconn in Hnew. congruence.
  - intros r0 conn [->|Hr0]%elem_of_cons ?; [|by eapply Hin]. subst r. by destruct (Hkeep conn Hr) as [-> _].
Qed.

(** All resources of a provider share one connection: whatever the attempts
    to connect do, the calls that succeed get the same one, that of the first
    attempt that has succeeded, after which no other is made, and a call makes
    21 attempts at most. *)
Theorem rpc_client_shared n :
  let '(c, rs) := clients n {| rpcClient := None; dialed := 0 |} in
  length rs = n ∧ dialed c ≤ n * S dial_tries ∧
  ∀ conn, inl conn ∈ rs → ∃ j, dial j = inl conn ∧ dialed c = S j ∧ ∀ i, i < j → ∃ err, dial i = inr err.
Proof.
  assert (client_ok {| rpcClient := None; dialed := 0 |}) as H0 by (split; cbn; lia).
  pose proof (clients_ok n _ H0) as H. destruct (clients n _) as [c rs]. destruct H as ([Hall Hc] & Hlen & _ & Hin & Hd).
  split_and!; [done|done|]. intros conn Hconn. rewrite (Hin _ conn Hconn eq_refl) in Hc. destruct Hc as (j & Hj & Hdial).
  exists j. split_and!; [done..|]. intros i Hi. apply Hall. lia.
Qed.
End client.

(** ** The server *)

(** [Accept] until it fails: the connections served, and whether the failure is
    logged; a closed listener is how the server is stopped. *)
Fixpoint accept_loop (accepts : list (nat + string)) : list nat * option string :=
  match accepts with
  | [] => ([], None)
  | inl fd :: accepts' => let '(fds, err) := accept_loop accepts' in (fd :: fds, err)
  | inr err :: _ => ([], if HasSuffix err "use of closed network connection" then None else Some err)
  end.

(** [removed] is the error of removing the socket file, and whether it says that
    there is none. *)
Definition ListenUnixSocket (removed : option (error * bool)) (listen : option error) (accepts : list (nat + string))
    : list nat * option error :=
  match removed with
  | Some (err, false) => ([], Some err)
  | _ =>
      match listen with
      | Some err => ([], Some err)
      | None => ((accept_loop accepts).1, None)
      end
  end.

Lemma accept_loop_serves fds err rest : (accept_loop ((inl <$> fds) ++ inr err :: rest)).1 = fds.
Proof. induction fds as [|fd fds IH]; [done|]. cbn. destruct (accept_loop _) as [l e]. cbn in *. by rewrite IH. Qed.

(** A failure that is none of the stop ends the server too, and is only logged:
    a resource that connects then waits for answers that do not come. *)
Lemma server_ends_silently err rest :
  HasSuffix err "use of closed network connection" = false →
  ListenUnixSocket None None (inr err :: rest) = ([], None).
Proof. done. Qed.

(** ** The data source of the bastion *)
Record BastionData := { bd_hostname : string; bd_id : string; bd_status : string }.

(** [reply] is the answer of the server for host and user. *)
Definition dataSourceBastionInstanceRead (reply : string → string → string + error) (username : string) (d : BastionData)
    : BastionData * option error :=
  match reply (bd_hostname d) username with
  | inr err => (d, Some err)
  | inl status => ({| d with bd_status := status; bd_id := bd_hostname d |}, None)
  end.
