(* ===== verification/Kubectl.v ===== *)
(** * Kubectl: a kubeconfig that works

    [src/pkg/tarmak/kubectl/kubectl.go].  [ensureWorkingKubeconfig] starts from
    the kubeconfig at a path, completes it with a certificate that Vault signs
    and the address of a tunnel or of the public endpoint, tries to reach the
    API with it, up to five times, and writes it back.

    The functions are programs of calls ([Calls]).  Of a kubeconfig the model
    has the parts the code reads or writes; a missing part is one that is not
    in the map.  [k.tunnel], which stays set after the tunnel is stopped, is
    its address.  A failed type assertion panics; [log.Fatal] ends the process
    as well. *)

From S2P Require Import Prelude Types Calls.

(** ** Kubeconfigs *)

Record KubeCluster := { Server : string; CertificateAuthorityData : string }.
Record AuthInfo := { ClientCertificateData : string; ClientKeyData : string }.
Record KubeContext := { kctx_Cluster : string; kctx_AuthInfo : string; kctx_Namespace : string }.

Record KubeConfig := {
  CurrentContext : string;
  Contexts : gmap string KubeContext;
  kc_Clusters : gmap string KubeCluster;
  AuthInfos : gmap string AuthInfo;
}.

(** [api.NewConfig] *)
Definition NewConfig : KubeConfig :=
  {| CurrentContext := ""; Contexts := ∅; kc_Clusters := ∅; AuthInfos := ∅ |}.

(** A value of Terraform's output or of Vault's answer, as far as it is looked
    at. *)
Inductive dynamic := DString (s : string) | DList (l : list dynamic) | DOther.

(** ** Calls *)

Inductive KCall :=
| StatConfig
| LoadFromFile
| MkdirAll
| WriteToFile (c : KubeConfig)
| TerraformPrepare
| EnvironmentValidate
| RootToken
| TerraformOutput
| OpenVaultTunnel (fqdns : list string) (ca : string)
| StopVaultTunnel
| GenerateKey
| CreateCertificateRequest (key : string)
| LogicalWrite (token path csr : string)
| NewAPITunnel
| StartAPITunnel
| StopAPITunnel
| VerifyAPIVersion (c : KubeConfig).

(** [StatConfig] answers whether the file is there, [NewAPITunnel] the address
    and port. *)
Definition answer (c : KCall) : Type :=
  match c with
  | StatConfig => bool
  | LoadFromFile => KubeConfig + error
  | RootToken | GenerateKey | CreateCertificateRequest _ => string + error
  | TerraformOutput | LogicalWrite _ _ _ => gmap string dynamic + error
  | NewAPITunnel => string
  | StopVaultTunnel | StopAPITunnel => unit
  | _ => option error
  end.

#[local] Abbreviation Prog := (Calls.Prog answer).
#[local] Abbreviation event := (Calls.event answer).

Section Kubectl.
Context (clusterName publicServer : string).

(** ** Certificates *)

Definition as_string (v : option dynamic) : option string := match v with Some (DString s) => Some s | _ => None end.

Definition as_strings (v : option dynamic) : option (list string) :=
  match v with Some (DList l) => mapM (λ x, as_string (Some x)) l | _ => None end.

(** Two fields of Vault's answer. *)
Definition signed (key : string) (data : gmap string dynamic) : string * string * string + error :=
  match data !! "certificate" with
  | None => inr (Errorf "key certificate not found")
  | Some (DString certPem) =>
      match data !! "issuing_ca" with
      | None => inr (Errorf "issuing_ca not found")
      | Some (DString caPem) => inl (key, certPem, caPem)
      | Some _ => inr (Errorf "issuing_ca has unexpected type")
      end
  | Some _ => inr (Errorf "certificate has unexpected type")
  end.

(** The part of [requestNewAdminCert] that uses the tunnel. *)
Definition sign (token : string) : Prog (string * string * string + error) :=
  r ← call GenerateKey;
  match (r : string + error) with
  | inr err => mret (inr (Errorf ("unable to generate private key: " +:+ error_string err)))
  | inl key =>
      r ← call (CreateCertificateRequest key);
      match (r : string + error) with
      | inr err => mret (inr err)
      | inl csr =>
          r ← call (LogicalWrite token (clusterName +:+ "/pki/k8s/sign/admin") csr);
          mret match (r : gmap string dynamic + error) with
               | inr err => inr err
               | inl data => signed key data
               end
      end
  end.

(** The new key, certificate and CA. *)
Definition requestNewAdminCert : Prog (string * string * string + error) :=
  r ← call EnvironmentValidate;
  match (r : option error) with
  | Some _ => PPanic
  | None =>
      r ← call RootToken;
      match (r : string + error) with
      | inr err => mret (inr err)
      | inl token =>
          r ← call TerraformOutput;
          match (r : gmap string dynamic + error) with
          | inr err => mret (inr err)
          | inl outputs =>
              fqdns ← deref_prog (as_strings (outputs !! "instance_fqdns"));
              ca ← deref_prog (as_string (outputs !! "vault_ca"));
              r ← call (OpenVaultTunnel fqdns ca);
              match (r : option error) with
              | Some err => mret (inr err)
              | None => r ← sign token; _ ← call StopVaultTunnel; mret r
              end
          end
      end
  end.

(** ** Completing a kubeconfig *)

Definition set_cluster (c : KubeConfig) (v : KubeCluster) : KubeConfig :=
  {| c with kc_Clusters := <[clusterName := v]> (kc_Clusters c) |}.

Definition set_auth (c : KubeConfig) (v : AuthInfo) : KubeConfig :=
  {| c with AuthInfos := <[clusterName := v]> (AuthInfos c) |}.

(** The entries of the cluster, made if they are missing. *)
Definition cluster_of (c : KubeConfig) : KubeCluster :=
  default {| Server := ""; CertificateAuthorityData := "" |} (kc_Clusters c !! clusterName).

Definition auth_of (c : KubeConfig) : AuthInfo :=
  default {| ClientCertificateData := ""; ClientKeyData := "" |} (AuthInfos c !! clusterName).

Definition with_entries (c : KubeConfig) : KubeConfig :=
  {| CurrentContext := clusterName;
     Contexts := <[clusterName := default {| kctx_Cluster := clusterName; kctx_AuthInfo := clusterName;
                                             kctx_Namespace := "kube-system" |} (Contexts c !! clusterName)]> (Contexts c);
     kc_Clusters := <[clusterName := cluster_of c]> (kc_Clusters c);
     AuthInfos := <[clusterName := auth_of c]> (AuthInfos c) |}.

(** The certificates go where the pointers of the configuration lead. *)
Definition with_certs (c : KubeConfig) (certs : string * string * string) : KubeConfig :=
  let '(key, cert, ca) := certs in
  let cl := cluster_of c in
  set_auth (set_cluster c {| cl with CertificateAuthorityData := ca |})
    {| ClientCertificateData := cert; ClientKeyData := key |}.

Definition with_server (c : KubeConfig) (server : string) : KubeConfig :=
  let cl := cluster_of c in set_cluster c {| cl with Server := server |}.

Definition has_certs (c : KubeConfig) : bool :=
  negb (bool_decide (ClientCertificateData (auth_of c) = "") || bool_decide (ClientKeyData (auth_of c) = "") ||
        bool_decide (CertificateAuthorityData (cluster_of c) = "")).

Definition ensure_certs (c : KubeConfig) : Prog (KubeConfig + error) :=
  if has_certs c then mret (inl c)
  else
    r ← call TerraformPrepare;
    match (r : option error) with
    | Some err => mret (inr (Errorf ("failed to prepare terraform: " +:+ error_string err)))
    | None =>
        r ← requestNewAdminCert;
        mret match (r : string * string * string + error) with
             | inr err => inr err
             | inl certs => inl (with_certs c certs)
             end
    end.

Definition stopTunnel (tunnel : option string) : Prog unit :=
  match tunnel with Some _ => call StopAPITunnel | None => mret () end.

(** A new tunnel if the cluster has no address. *)
Definition ensure_tunnel (tunnel : option string) (c : KubeConfig) : Prog (option string * option error) :=
  if decide (Server (cluster_of c) = "") then
    _ ← stopTunnel tunnel;
    address ← call NewAPITunnel;
    err ← call StartAPITunnel;
    mret (Some (address : string), (err : option error))
  else mret (tunnel, None).

Definition setupConfig (public : bool) (tunnel : option string) (c : option KubeConfig)
    : Prog (option string * (KubeConfig + error)) :=
  r ← ensure_certs (with_entries (default NewConfig c));
  match (r : KubeConfig + error) with
  | inr err => mret (tunnel, inr err)
  | inl c =>
      if public then mret (tunnel, inl (with_server c publicServer))
      else
        r ← ensure_tunnel tunnel c;
        mret match (r : option string * option error) with
             | (tunnel, Some err) => (tunnel, inr err)
             | (Some address, None) => (Some address, inl (with_server c ("https://" +:+ address)))
             | (None, None) => (None, inl c)
             end
  end.

(** ** Connecting *)

Definition unknown_authority (err : error) : bool :=
  Prelude.Contains (error_string err) "certificate signed by unknown authority".

(** The loop, with [retries] configurations left to try.  The certificates that
    are requested after an error are set in a configuration that is then
    replaced or not used any more. *)
Fixpoint connect (retries : nat) (public : bool) (tunnel : option string) (c : KubeConfig)
    : Prog (option string * (KubeConfig + error)) :=
  r ← call (VerifyAPIVersion c);
  match (r : option error) with
  | None => mret (tunnel, inl c)
  | Some err =>
      r ← (if unknown_authority err then requestNewAdminCert else mret (inl ("", "", "")));
      match (r : string * string * string + error) with
      | inr err => mret (tunnel, inr err)
      | inl _ =>
          match retries with
          | 0 => mret (tunnel, inr (Errorf "unable to connect to kubernetes after 5 tries"))
          | S retries' =>
              r ← setupConfig public tunnel None;
              match (r : option string * (KubeConfig + error)) with
              | (tunnel, inr err) => mret (tunnel, inr err)
              | (tunnel, inl c) => connect retries' public tunnel c
              end
          end
      end
  end.

Definition load : Prog (option KubeConfig + error) :=
  there ← call StatConfig;
  if (there : bool) then
    r ← call LoadFromFile;
    mret match (r : KubeConfig + error) with inl c => inl (Some c) | inr err => inr err end
  else mret (inl None).

(** Stop the tunnel and return the error. *)
Definition fail_with (tunnel : option string) (err : error) : Prog (option error) :=
  _ ← stopTunnel tunnel; mret (Some err).

Definition ensureWorkingKubeconfig (public : bool) (tunnel : option string) : Prog (option error) :=
  r ← load;
  match (r : option KubeConfig + error) with
  | inr err => mret (Some err)
  | inl c =>
      r ← setupConfig public tunnel c;
      match (r : option string * (KubeConfig + error)) with
      | (_, inr err) => mret (Some err)
      | (tunnel, inl c) =>
          r ← connect 4 public tunnel c;
          match (r : option string * (KubeConfig + error)) with
          | (tunnel, inr err) => fail_with tunnel err
          | (tunnel, inl c) =>
              r ← call MkdirAll;
              match (r : option error) with
              | Some err => fail_with tunnel err
              | None =>
                  r ← call (WriteToFile c);
                  match (r : option error) with
                  | Some err => fail_with tunnel err
                  | None => mret None
                  end
              end
          end
      end
  end.

(** [Kubeconfig]: a hub has no Kubernetes. *)
Definition Kubeconfig (clusterType name path : string) (public : bool) (tunnel : option string) : Prog (string + error) :=
  if decide (clusterType = ClusterTypeHub) then
    mret (inr (Errorf ("current cluster is of type " +:+ ClusterTypeHub +:+ " so has no Kubernetes cluster: " +:+ name)))
  else
    r ← ensureWorkingKubeconfig public tunnel;
    mret match (r : option error) with Some err => inr err | None => inl ("KUBECONFIG=" +:+ path) end.

(** ** What happened so far *)

(** Whether the tunnels to the API and to Vault are open, how often the API was
    tried and whether a try has failed. *)
Record Seen := { api_open : bool; vault_open : bool; tries : nat; failures : bool }.

Definition see (s : Seen) (e : event) : Seen :=
  match e with
  | Ev StartAPITunnel None => {| s with api_open := true |}
  | Ev StopAPITunnel _ => {| s with api_open := false |}
  | Ev (OpenVaultTunnel _ _) None => {| s with vault_open := true |}
  | Ev StopVaultTunnel _ => {| s with vault_open := false |}
  | Ev (VerifyAPIVersion _) r =>
      {| s with tries := S (tries s); failures := failures s || match r with Some _ => true | None => false end |}
  | _ => s
  end.

Definition seen (h : list event) : Seen :=
  foldl see {| api_open := false; vault_open := false; tries := 0; failures := false |} h.

(** The configuration is about this cluster. *)
Definition current (public : bool) (c : KubeConfig) : Prop :=
  CurrentContext c = clusterName ∧ is_Some (Contexts c !! clusterName) ∧ is_Some (AuthInfos c !! clusterName) ∧
  ∃ cl, kc_Clusters c !! clusterName = Some cl ∧ (public = true → Server cl = publicServer).

(** The other entries are those of [c0]. *)
Definition keeps_others (c0 c : KubeConfig) : Prop :=
  ∀ k, k ≠ clusterName →
    Contexts c !! k = Contexts c0 !! k ∧ kc_Clusters c !! k = kc_Clusters c0 !! k ∧ AuthInfos c !! k = AuthInfos c0 !! k.

(** The configuration at the path. *)
Definition loaded (h : list event) (c0 : KubeConfig) : Prop :=
  Ev LoadFromFile (inl c0) ∈ h ∨ Ev StatConfig false ∈ h ∧ c0 = NewConfig.

(** Where the other entries come from: the file as long as no try has failed,
    and nowhere after that. *)
Definition origin (h : list event) (c : KubeConfig) : Prop :=
  if failures (seen h) then keeps_others NewConfig c else ∃ c0, loaded h c0 ∧ keeps_others c0 c.

(** What [ensureWorkingKubeconfig] may do. *)
Definition kube_ok (public : bool) (h : list event) (o : KCall) : Prop :=
  match o with
  | StartAPITunnel => api_open (seen h) = false ∧ public = false
  | OpenVaultTunnel _ _ => vault_open (seen h) = false
  | VerifyAPIVersion c => tries (seen h) < 5 ∧ current public c
  | WriteToFile c => (∃ h', h = h' ++ [Ev (VerifyAPIVersion c) None; Ev MkdirAll None]) ∧ current public c ∧ origin h c
  | _ => True
  end.

Lemma seen_snoc h e : seen (h ++ [e]) = see (seen h) e.
Proof. apply foldl_snoc. Qed.

Lemma loaded_mono h h' c0 : h ⊆ h' → loaded h c0 → loaded h' c0.
Proof. intros Hs [H|[H ->]]; [left|right]; auto. Qed.

Lemma origin_mono h h' c : h ⊆ h' → failures (seen h') = failures (seen h) → origin h c → origin h' c.
Proof.
  intros Hs Hf. unfold origin. rewrite Hf. destruct (failures (seen h)); [done|].
  intros (c0 & H1 & H2). exists c0; eauto using loaded_mono.
Qed.

Section Facts.
Context (public : bool).
#[local] Abbreviation safe := (safe (kube_ok public)).

Lemma safe_step o h (Q : list event → answer o → Prop) :
  kube_ok public h o → (∀ a, Q (h ++ [Ev o a]) a) → safe h (call o) Q.
Proof. done. Qed.

(** A call that leaves no trace. *)
Lemma plain_call o h (Q : list event → answer o → Prop) :
  kube_ok public h o → (∀ a, see (seen h) (Ev o a) = seen h) →
  (∀ h' a, h ⊆ h' → seen h' = seen h → Ev o a ∈ h' → Q h' a) → safe h (call o) Q.
Proof.
  intros Hok Hs HQ. apply safe_step; [done|]. intros a. apply HQ; [apply sub_snoc|by rewrite seen_snoc|apply in_last].
Qed.

Definition unseen {A} (h h' : list event) (_ : A) : Prop := h ⊆ h' ∧ seen h' = seen h.

Lemma sign_safe token h : safe h (sign token) (unseen h).
Proof.
  apply safe_bind, plain_call; [done..|]. intros h1 [key|err] S1 E1 _; [|by split].
  apply safe_bind, plain_call; [done..|]. intros h2 [csr|err] S2 E2 _; [|split; [by etrans|congruence]].
  apply safe_bind, plain_call; [done..|]. intros h3 r S3 E3 _. split; [do 2 (etrans; [done|]); done|congruence].
Qed.

Lemma requestNewAdminCert_safe h : vault_open (seen h) = false → safe h requestNewAdminCert (unseen h).
Proof.
  intros Hv. apply safe_bind, plain_call; [done..|]. intros h1 [err|] S1 E1 _; [done|].
  apply safe_bind, plain_call; [done..|]. intros h2 [token|err] S2 E2 _; [|split; [by etrans|congruence]].
  apply safe_bind, plain_call; [done..|]. intros h3 [outputs|err] S3 E3 _;
    [|split; [do 2 (etrans; [done|]); done|congruence]].
  assert (S : h ⊆ h3) by (do 2 (etrans; [done|]); done). assert (E : seen h3 = seen h) by congruence.
  apply safe_bind. destruct (as_strings _) as [fqdns|]; cbn [deref_prog safe]; [|done].
  apply safe_bind. destruct (as_string _) as [ca|]; cbn [deref_prog safe]; [|done].
  apply safe_call; [cbn; congruence|]. intros [err|].
  - split; [etrans; [done|apply sub_snoc]|by rewrite seen_snoc].
  - apply safe_bind. eapply safe_mono; [apply sign_safe|]. intros h4 r _ [S4 E4].
    apply safe_call; [done|]. intros []. split; [etrans; [done|]; etrans; [apply sub_snoc|]; etrans; [done|apply sub_snoc]|].
    rewrite seen_snoc, E4, seen_snoc, E. cbn. by destruct (seen h); cbn in Hv; subst.
Qed.

(** *** The entries of the cluster *)

Definition entries (c : KubeConfig) : Prop :=
  CurrentContext c = clusterName ∧ is_Some (Contexts c !! clusterName) ∧ is_Some (AuthInfos c !! clusterName) ∧
  is_Some (kc_Clusters c !! clusterName).

Lemma keeps_others_trans c1 c2 c3 : keeps_others c1 c2 → keeps_others c2 c3 → keeps_others c1 c3.
Proof.
  intros H1 H2 k Hk. destruct (H1 k Hk) as (A1 & A2 & A3).
  destruct (H2 k Hk) as (B1 & B2 & B3). split_and!; congruence.
Qed.

Lemma with_entries_spec c : entries (with_entries c) ∧ keeps_others c (with_entries c).
Proof.
  unfold with_entries; split; [split_and!; cbn; [done|rewrite lookup_insert_eq..]; eauto|].
  intros k Hk; cbn. by rewrite !lookup_insert_ne by done.
Qed.

Lemma with_certs_spec c certs : entries c → entries (with_certs c certs) ∧ keeps_others c (with_certs c certs).
Proof.
  destruct certs as [[key cert] ca]. intros (H1 & H2 & H3 & H4).
  split; [split_and!; cbn; [done..|rewrite lookup_insert_eq; eauto|rewrite lookup_insert_eq; eauto]|].
  intros k Hk; cbn. by rewrite !lookup_insert_ne by done.
Qed.

Lemma with_server_spec c server :
  entries c →
  entries (with_server c server) ∧ keeps_others c (with_server c server) ∧
  ∃ cl, kc_Clusters (with_server c server) !! clusterName = Some cl ∧ Server cl = server.
Proof.
  intros (H1 & H2 & H3 & H4). split_and!; [split_and!; cbn; [done..|rewrite lookup_insert_eq; eauto]| |].
  - intros k Hk; cbn. by rewrite !lookup_insert_ne by done.
  - cbn. rewrite lookup_insert_eq. eauto.
Qed.

Lemma entries_current c : entries c → public = false → current public c.
Proof. intros (H1 & H2 & H3 & cl & H4) ->. split_and!; eauto. exists cl. by split. Qed.

Lemma ensure_certs_safe c h :
  entries c → vault_open (seen h) = false →
  safe h (ensure_certs c) (λ h' r, h ⊆ h' ∧ seen h' = seen h ∧
    match r with inl c' => entries c' ∧ keeps_others c c' | inr _ => True end).
Proof.
  intros He Hv. unfold ensure_certs. destruct (has_certs c); [by split_and!|].
  apply safe_bind, plain_call; [done..|]. intros h1 [err|] S1 E1 _; [by split_and!|].
  apply safe_bind. eapply safe_mono; [apply requestNewAdminCert_safe; congruence|].
  intros h2 [certs|err] _ [S2 E2]; (split; [by etrans|split; [congruence|]]); [by apply with_certs_spec|done].
Qed.

(** *** Tunnels *)

(** No tunnel is forgotten. *)
Definition tidy (h : list event) (tunnel : option string) : Prop :=
  vault_open (seen h) = false ∧ (api_open (seen h) = true → tunnel ≠ None).

Lemma stopTunnel_safe tunnel h :
  tidy h tunnel → safe h (stopTunnel tunnel) (λ h' _, h ⊆ h' ∧ api_open (seen h') = false ∧
    vault_open (seen h') = false ∧ tries (seen h') = tries (seen h) ∧ failures (seen h') = failures (seen h)).
Proof.
  intros [Hv Ha]. destruct tunnel as [a|]; cbn [stopTunnel].
  - apply (safe_step StopAPITunnel); [done|]. intros []. rewrite seen_snoc. split; [apply sub_snoc|]. cbn. by split_and!.
  - split_and!; try done. destruct (api_open (seen h)); [|done]. by destruct Ha.
Qed.

(** What stays as it was when a configuration is set up. *)
Definition set_up (h h' : list event) : Prop :=
  h ⊆ h' ∧ tries (seen h') = tries (seen h) ∧ failures (seen h') = failures (seen h).

Lemma ensure_tunnel_safe tunnel c h :
  public = false → tidy h tunnel →
  safe h (ensure_tunnel tunnel c) (λ h' r, set_up h h' ∧ tidy h' r.1 ∧ (r.2 ≠ None → api_open (seen h') = false)).
Proof.
  intros Hp Ht. unfold ensure_tunnel. case_decide; [|by split_and!; destruct Ht].
  apply safe_bind. eapply safe_mono; [by apply stopTunnel_safe|]. intros h1 [] S1 (_ & Ha & Hv & Hn & Hf).
  apply safe_bind, plain_call; [done..|]. intros h2 address S2 E2 _.
  apply safe_call; [split; [by rewrite E2|done]|]. intros err; unfold set_up, tidy; cbn [fst snd mret Prog_ret safe].
  rewrite seen_snoc, E2. assert (S3 : h ⊆ h2 ++ [Ev StartAPITunnel err]) by (do 2 (etrans; [done|]); apply sub_snoc).
  destruct err as [err|]; cbn; by split_and!.
Qed.

Lemma setupConfig_safe tunnel c h :
  tidy h tunnel →
  safe h (setupConfig public tunnel c) (λ h' r, set_up h h' ∧ tidy h' r.1 ∧
    match r.2 with
    | inl c' => current public c' ∧ keeps_others (default NewConfig c) c'
    | inr _ => api_open (seen h') = false ∨ seen h' = seen h
    end).
Proof.
  intros Ht. destruct (with_entries_spec (default NewConfig c)) as [He Hk].
  apply safe_bind. eapply safe_mono; [apply ensure_certs_safe; [done|apply Ht]|].
  intros h1 r S1 (_ & E1 & Hr). assert (Ht1 : tidy h1 tunnel) by (unfold tidy; by rewrite E1).
  assert (Hs1 : set_up h h1) by (unfold set_up; by rewrite E1). destruct r as [c1|err]; [|split; [done|split; [done|by right]]].
  destruct Hr as [He1 Hk1]. pose proof (keeps_others_trans _ _ _ Hk Hk1) as Hk2. destruct public eqn:Ep.
  - destruct (with_server_spec c1 publicServer He1) as ((A1 & A2 & A3 & A4) & A5 & cl & A6 & A7).
    split; [exact Hs1|split; [exact Ht1|]]. split; [|by eapply keeps_others_trans]. split_and!; eauto.
  - apply safe_bind. rewrite <-Ep. eapply safe_mono; [by apply ensure_tunnel_safe|].
    intros h2 [tunnel2 err2] _ ((S2 & N2 & F2) & T2 & A2); cbn in T2, A2.
    assert (Hs2 : set_up h h2) by (destruct Hs1 as (? & ? & ?); split_and!; [by etrans|congruence..]).
    destruct err2 as [err|]; [destruct tunnel2; (split; [exact Hs2|split; [exact T2|left; rewrite Ep; by apply A2]])|].
    destruct tunnel2 as [address|]; (split; [exact Hs2|split; [exact T2|split]]).
    + apply entries_current; [|done]. by apply with_server_spec.
    + eapply keeps_others_trans; [done|]. by apply with_server_spec.
    + by apply entries_current.
    + done.
Qed.

(** Right after the API answered with [c]. *)
Definition verified (h : list event) (c : KubeConfig) : Prop := ∃ h', h = h' ++ [Ev (VerifyAPIVersion c) None].

Lemma connect_safe retries tunnel c h :
  tidy h tunnel → tries (seen h) + retries < 5 → current public c → origin h c →
  safe h (connect retries public tunnel c) (λ h' r,
    tidy h' r.1 ∧ match r.2 with inl c' => current public c' ∧ origin h' c' ∧ verified h' c' | inr _ => True end).
Proof.
  revert tunnel c h; induction retries as [|retries IH]; intros tunnel c h Ht Hn Hc Ho; cbn [connect];
    (apply safe_call; [split; [lia|done]|]); intros [err|].
  2,4: split; [unfold tidy; by rewrite seen_snoc|]; split_and!; [done| |by exists h];
    (eapply origin_mono; [apply sub_snoc| |done]); rewrite seen_snoc; cbn; by rewrite orb_false_r.
  all: set (h1 := h ++ [_]); assert (E1 : seen h1 = see (seen h) (Ev (VerifyAPIVersion c) (Some err)))
      by (apply seen_snoc); assert (Ht1 : tidy h1 tunnel) by (unfold tidy; by rewrite E1);
    apply safe_bind; eapply (safe_mono _ _ _ (unseen h1));
    [by destruct (unknown_authority err); [apply requestNewAdminCert_safe, Ht1|]|];
    intros h2 [certs|err2] _ [S2 E2]; [|by split; [unfold tidy; rewrite E2|]].
  - by split; [unfold tidy; rewrite E2|].
  - assert (Ht2 : tidy h2 tunnel) by (unfold tidy; by rewrite E2).
    apply safe_bind. eapply safe_mono; [by apply setupConfig_safe|].
    intros h3 [tunnel3 [c3|err3]] _ ((S3 & N3 & F3) & T3 & H3); [|by split].
    destruct H3 as [Hc3 Hk3]. apply IH; [done| |done|].
    + rewrite N3, E2, E1. cbn. lia.
    + unfold origin. rewrite F3, E2, E1. cbn. by rewrite orb_true_r.
Qed.

Lemma load_safe h :
  safe h load (λ h' r, h ⊆ h' ∧ seen h' = seen h ∧
    match r with inl c => loaded h' (default NewConfig c) | inr _ => True end).
Proof.
  apply safe_bind, plain_call; [done..|]. intros h1 [] S1 E1 I1; cbn beta iota.
  - apply safe_bind, plain_call; [done..|]. intros h2 [c|err] S2 E2 I2;
      (split; [by etrans|split; [congruence|]]); [by left|done].
  - split; [done|]. split; [done|]. by right.
Qed.

(** The API tunnel is closed after an error; after success the file holds the
    configuration that worked. *)
Definition finished (h : list event) (r : option error) : Prop :=
  vault_open (seen h) = false ∧
  match r with
  | Some _ => api_open (seen h) = false
  | None => ∃ c, Ev (VerifyAPIVersion c) None ∈ h ∧ Ev (WriteToFile c) None ∈ h
  end.

Lemma fail_with_safe tunnel err h : tidy h tunnel → safe h (fail_with tunnel err) finished.
Proof.
  intros Ht. apply safe_bind. eapply safe_mono; [by apply stopTunnel_safe|]. intros h' [] _ (_ & Ha & Hv & _). by split.
Qed.

Lemma ensureWorking_safe tunnel : safe [] (ensureWorkingKubeconfig public tunnel) finished.
Proof.
  apply safe_bind. eapply safe_mono; [apply load_safe|]. intros h1 [c|err] _ (_ & E1 & L1); [|by split; rewrite E1].
  apply safe_bind. eapply safe_mono; [apply setupConfig_safe; unfold tidy; by rewrite E1|].
  intros h2 [tunnel2 [c2|err2]] _ ((S2 & N2 & F2) & T2 & H2).
  2: { split; [apply T2|]. destruct H2 as [H2|H2]; [done|]. cbn. by rewrite H2, E1. }
  destruct H2 as [Hc2 Hk2]. apply safe_bind. eapply safe_mono.
  - apply connect_safe; [done|rewrite N2, E1; cbn; lia|done|]. unfold origin. rewrite F2, E1. cbn.
    exists (default NewConfig c). split; [by eapply loaded_mono|done].
  - intros h3 [tunnel3 [c3|err3]] _ [T3 H3]; [|by apply fail_with_safe]. destruct H3 as (Hc3 & Ho3 & h0 & ->).
    set (h3 := h0 ++ [_]) in *. apply safe_call; [done|]. intros [err|];
      [apply fail_with_safe; unfold tidy; by rewrite seen_snoc|].
    apply safe_call.
    { split_and!; [exists h0; by unfold h3; rewrite <-app_assoc|done|]. eapply origin_mono; [apply sub_snoc| |done].
      by rewrite seen_snoc. }
    intros [err|]; [apply fail_with_safe; unfold tidy; by rewrite !seen_snoc|].
    split; [rewrite !seen_snoc; apply T3|]. exists c3. split; [|apply in_last]. do 2 apply in_before. apply in_last.
Qed.

End Facts.

Lemma failures_mono h1 h2 : failures (seen h1) = true → failures (seen (h1 ++ h2)) = true.
Proof.
  induction h2 as [|e h2 IH] using rev_ind; [by rewrite app_nil_r|]. intros H. rewrite app_assoc, seen_snoc.
  specialize (IH H). destruct (seen (h1 ++ h2)); cbn in IH; subst. destruct e as [[] a]; cbn; try done; by destruct a.
Qed.

Lemma failure_seen h c e : Ev (VerifyAPIVersion c) (Some e) ∈ h → failures (seen h) = true.
Proof.
  intros (h1 & h2 & ->)%list_elem_of_split. change (h1 ++ ?e :: h2) with (h1 ++ [e] ++ h2).
  rewrite app_assoc. apply failures_mono. rewrite seen_snoc. cbn. apply orb_true_r.
Qed.

(** C23: The kubeconfig that is written is one that works, whatever the calls
    answer: only a configuration whose current context is the cluster and with
    which the API was just reached is written; the API is tried five times at
    most; a tunnel is opened only when no other is open, the one to Vault is
    always closed again, and after an error the one to the API is as well.
    Success means that such a configuration was written. *)
Theorem kubeconfig_safe public tunnel {S} (handle : ∀ c, S → S * answer c) s :
  let '(es, _, r) := run handle (ensureWorkingKubeconfig public tunnel) s in
  (∀ es1 e es2, es = es1 ++ e :: es2 → kube_ok public es1 (ev_call e)) ∧ (∀ res, r = Ret res → finished es res).
Proof.
  pose proof (safe_run handle _ _ _ _ s (ensureWorking_safe public tunnel)) as H.
  by destruct (run handle _ s) as [[es s'] r].
Qed.

(** One failed try forgets the other clusters: the configuration is then
    made anew, and the file that is written in the end has no entry but those
    of the cluster, whatever it had before. *)
Theorem kubeconfig_forgets public tunnel {S} (handle : ∀ c, S → S * answer c) s es1 es2 c a c' e :
  (run handle (ensureWorkingKubeconfig public tunnel) s).1.1 = es1 ++ Ev (WriteToFile c) a :: es2 →
  Ev (VerifyAPIVersion c') (Some e) ∈ es1 →
  ∀ k, k ≠ clusterName → Contexts c !! k = None ∧ kc_Clusters c !! k = None ∧ AuthInfos c !! k = None.
Proof.
  pose proof (safe_run handle _ _ _ _ s (ensureWorking_safe public tunnel)) as H.
  destruct (run handle _ s) as [[es s'] r]. cbn. destruct H as [H _]. intros -> Hf%failure_seen.
  destruct (H es1 _ es2 eq_refl) as (_ & _ & Ho). unfold origin in Ho. cbn [app] in Ho. rewrite Hf in Ho.
  intros k Hk. by destruct (Ho k Hk) as (-> & -> & ->).
Qed.

End Kubectl.

(** ** Witnesses *)

Definition other_context : KubeConfig :=
  {| CurrentContext := "prod"; Contexts := ∅;
     kc_Clusters := {["prod" := {| Server := "https://prod"; CertificateAuthorityData := "ca" |}]}; AuthInfos := ∅ |}.

(** The file has another cluster; the API is reached at the second try.  The
    state counts the tries. *)
Definition example_kube (c : KCall) (s : nat) : nat * answer c :=
  match c with
  | StatConfig => (s, true)
  | LoadFromFile => (s, inl other_context)
  | RootToken => (s, inl "root")
  | GenerateKey => (s, inl "key")
  | CreateCertificateRequest _ => (s, inl "csr")
  | TerraformOutput => (s, inl {["instance_fqdns" := DList [DString "vault-1"]; "vault_ca" := DString "ca"]})
  | LogicalWrite _ _ _ => (s, inl {["certificate" := DString "cert"; "issuing_ca" := DString "ca"]})
  | NewAPITunnel => (s, "127.0.0.1:6443")
  | StopVaultTunnel | StopAPITunnel => (s, ())
  | VerifyAPIVersion _ => (S s, match s with 0 => Some (Errorf "refused") | _ => None end)
  | MkdirAll | WriteToFile _ | TerraformPrepare | EnvironmentValidate | OpenVaultTunnel _ _ | StartAPITunnel => (s, None)
  end.

Definition example_run : list (Calls.event answer) * nat * GoM (option error) :=
  run example_kube (ensureWorkingKubeconfig "dev" "https://api" false None) 0.

Lemma kubeconfig_safe_witness : example_run.2 = Ret None ∧ finished example_run.1.1 None.
Proof.
  pose proof (kubeconfig_safe "dev" "https://api" false None example_kube 0) as H.
  assert (Hr : example_run.2 = Ret None) by (vm_compute; reflexivity). unfold example_run in *.
  destruct (run _ _ _) as [[es s'] r]. destruct H as [_ H]. split; [exact Hr|exact (H None Hr)].
Defined.

Lemma kubeconfig_forgets_witness :
  ∃ c, last example_run.1.1 = Some (Ev (WriteToFile c) None) ∧ kc_Clusters c !! "prod" = None.
Proof.
  assert (Hl : match last example_run.1.1 with Some (Ev (WriteToFile _) None) => true | _ => false end = true)
    by (vm_compute; reflexivity).
  assert (Hf : existsb (λ e, match e with Ev (VerifyAPIVersion _) (Some _) => true | _ => false end) example_run.1.1 = true)
    by (vm_compute; reflexivity).
  destruct (last example_run.1.1) as [[[] a]|] eqn:El; try discriminate Hl. destruct a as [err|]; [discriminate Hl|].
  exists c. split; [reflexivity|]. apply last_Some in El as [es1 El].
  apply existsb_exists in Hf as ([o r] & Hin & Hr). destruct o as [| | | | | | | | | | | | | | | |c']; try discriminate Hr.
  destruct r as [e|]; [|discriminate Hr]. apply list_elem_of_In in Hin. rewrite El in Hin.
  apply elem_of_app in Hin as [Hin|Hin]; [|apply list_elem_of_singleton in Hin; apply (f_equal ev_call) in Hin; discriminate Hin].
  apply (kubeconfig_forgets "dev" "https://api" false None example_kube 0 es1 [] c None c' e El Hin). done.
Defined.
