(* ===== verification/Passthrough.v ===== *)
(** * Passthrough: programs run for the user

    [Kubectl] of [src/pkg/tarmak/kubectl/kubectl.go] runs kubectl with the
    kubeconfig it has just made sure to work ([Kubectl]); [PassThrough] of
    [src/pkg/tarmak/ssh/ssh.go] runs ssh with the configuration of the cluster;
    [fetchCmdOutput] of [src/pkg/tarmak/logs/logs.go] runs a command on a host.

    The calls are those of [Kubectl] and starting and awaiting a program. *)

From S2P Require Import Prelude Types Calls Kubectl.

(** Running a program; [XWait] answers with the error of one that does not end
    well. *)
Inductive xcall : Type :=
| XStart (argv : list string) (kubeconfig : option string)
| XWait.

Definition xanswer (c : xcall) : Type := option error.

Abbreviation XM := (Calls.Prog (both answer xanswer)).
Abbreviation xevents := (list (event (both answer xanswer))).
Abbreviation X c a := (Ev (R := both answer xanswer) (inr c) a).
#[local] Abbreviation run_call c := (call (R := both answer xanswer) (inr c)).

Definition Kubectl_cmd (clusterName publicServer clusterType name configPath : string) (args : list string) (public : bool)
    (tunnel : option string) : XM (option error) :=
  if decide (clusterType = ClusterTypeHub) then
    mret (Some (Errorf ("current cluster is of type " +:+ ClusterTypeHub +:+ " so has no Kubernetes cluster: " +:+ name)))
  else
    r ← lift (ensureWorkingKubeconfig clusterName publicServer public tunnel);
    match (r : option error) with
    | Some err => mret (Some err)
    | None =>
        r ← run_call (XStart ("kubectl" :: args) (Some configPath));
        match (r : option error) with
        | Some err => mret (Some err)
        | None => _ ← run_call XWait; mret None
        end
    end.

Definition PassThrough (sshConfigPath : string) (argsAdditional : list string) : XM (option error) :=
  r ← run_call (XStart (["ssh"; "-F"; sshConfigPath] ++ argsAdditional) None);
  match (r : option error) with
  | Some err => mret (Some err)
  | None => run_call XWait
  end.

(** The code and error of [Execute]. *)
Definition fetchCmdOutput (executed : Z * option error) (cmd : list string) : option error :=
  if decide (executed.1 = 0%Z) then executed.2
  else Some (Errorf ("command [" +:+ Join cmd " " +:+ "] returned non-zero: " +:+ fmt_d executed.1)).

(** ** What the programs are started with *)

Section kubectl.
Context (clusterName publicServer clusterType name configPath : string) (args : list string) (public : bool).

Definition may_run (h : xevents) (c : KCall + xcall) : Prop :=
  clusterType ≠ ClusterTypeHub ∧
  match c with
  | inl c => kube_ok clusterName publicServer public (left_events h) c
  | inr (XStart argv kubeconfig) =>
      argv = "kubectl" :: args ∧ kubeconfig = Some configPath ∧ finished (left_events h) None
  | inr XWait => ∃ argv kubeconfig, X (XStart argv kubeconfig) None ∈ h
  end.

(** kubectl is started with the given arguments and the kubeconfig of the
    cluster, after a configuration that works was written to it; success means
    that it was started and has ended, well or not. *)
Theorem Kubectl_cmd_safe tunnel :
  Calls.safe may_run [] (Kubectl_cmd clusterName publicServer clusterType name configPath args public tunnel)
    (λ h r, (r = None ↔ ∃ a, X XWait a ∈ h)).
Proof.
  unfold Kubectl_cmd. case_decide as Hhub; [cbn; set_solver|]. apply safe_bind.
  eapply safe_mono; [apply (lift_safe (kube_ok clusterName publicServer public)); [apply ensureWorking_safe|by split]|].
  intros h [err|] _ [Hf He]; cbn beta iota.
  - split; [done|]. intros [a Ha]. destruct (He _ Ha) as [?%not_elem_of_nil|(c & a' & ?)]; done.
  - assert (∀ a, X XWait a ∉ h) as Hno.
    { intros a Ha. destruct (He _ Ha) as [?%not_elem_of_nil|(c & a' & ?)]; done. }
    apply safe_call; [by split_and!|]. intros [err|]; cbn beta iota.
    + split; [done|]. intros [a [Ha|?%list_elem_of_singleton]%elem_of_app]; [by destruct (Hno a)|done].
    + apply safe_call; [split; [done|]; eexists _, _; apply in_last|]. intros a. split; [intros _|done]. exists a. apply in_last.
Qed.
End kubectl.

(** The status of kubectl does not reach the caller: the answer is the same,
    however it ends. *)
Lemma Kubectl_cmd_ignores_status clusterName publicServer clusterType name configPath args public tunnel {S}
    (handle : ∀ c, S → S * both answer xanswer c) s :
  let '(es, _, r) := run handle (Kubectl_cmd clusterName publicServer clusterType name configPath args public tunnel) s in
  ∀ res a, r = Ret res → X XWait a ∈ es → res = None.
Proof.
  pose proof (safe_run handle _ _ _ _ s (Kubectl_cmd_safe clusterName publicServer clusterType name configPath args public tunnel)) as H.
  destruct (run handle _ s) as [[es s'] r]. destruct H as [_ H]. intros res a Hr Ha. apply (H res Hr). by exists a.
Qed.

Definition wait_answer (e : event (both answer xanswer)) : option (option error) :=
  match e with
  | Ev c a => match c return both answer xanswer c → option (option error) with inr XWait => λ a, Some a | _ => λ _, None end a
  end.

(** The status of ssh does. *)
Lemma PassThrough_status sshConfigPath args {S} (handle : ∀ c, S → S * both answer xanswer c) s :
  let '(es, _, r) := run handle (PassThrough sshConfigPath args) s in
  r = Ret None ↔ X XWait None ∈ es.
Proof.
  cbn. destruct (handle _ s) as [s1 [err|]]; cbn.
  - rewrite list_elem_of_singleton. done.
  - destruct (handle (inr XWait) s1) as [s2 [err|]]; cbn; rewrite !elem_of_cons, elem_of_nil; split; try done.
    + intros [?|[Heq|?]]; [done| |done]. by apply (f_equal wait_answer) in Heq.
    + intros _. right. by left.
Qed.

(** An error of the connection is reported as a return code only. *)
Lemma fetchCmdOutput_hides err cmd :
  fetchCmdOutput ((-1)%Z, Some err) cmd = Some (Errorf ("command [" +:+ Join cmd " " +:+ "] returned non-zero: -1")).
Proof. done. Qed.
